(* ===== verification/_CoqProject ===== *)
-Q . S2P
Prelude.v
Regex.v
Effects.v
Configwalk.v
Fsm.v
Connstate.v
Status.v
Lifecycle.v
Persist.v
Syncengine.v
Merge.v
Paths.v
Jsmap.v
Base.v
Decide.v
Streamhash.v
Chunker.v
Foreigntools.v
Json.v
Utf8.v
Jsonprint.v
Links.v
Recipe.v
Configsync.v
Frontmatter.v
Settings.v
Protocol.v
Wiresig.v
Sync.v
Conflicts.v
Transport.v
Plugins.v
Mountio.v
Reconcile.v
Pass.v
Demo.v
Safety.v
Poll.v
Mountengine.v
Mountsync.v
Compose.v
Local.v
Vaultio.v
Connect.v
Account.v
Wizard.v
Mountforms.v
Channel.v
Filelog.v
Pluginpreview.v
Mountstate.v
Reports.v
Device.v
Tab.v
Dialogs.v
Wiring.v
