(* ===== verification/Prelude.v ===== *)
(** * SelfSync client: verification development (root file)

    SelfSync synchronises an Obsidian vault with a self-hosted server.  This
    library models the plugin (the client, [client/src/]) and proves what keeps
    a user's notes safe: nothing local is overwritten or removed without
    evidence or a kept copy, nothing is deleted for others because it could not
    be read here, no path outside the selected scope is touched, and the state
    machines that drive the client cannot be stranded.

    ** The program and how its parts interact

    The plugin observes the vault and a WebSocket and turns both into events of
    the {i sync engine}, a serial queue that runs one effect at a time.  An effect
    connects (error classification, recovery policy, wire-contract gate) or runs
    a {i reconciliation pass}.  A pass lists the vault, asks the server for
    changes, decides for each path with the {i decision kernel} (local, base and
    server content hashes), and executes the decision: pull, push, merge,
    conflict copy, delete.  Content moves as content-defined {i chunks} through
    the {i transfer layer} over the {i HTTP transport}.  What was last agreed is
    the {i base store}.  A {i mount} is a folder that belongs to another vault:
    the same reconciler runs on it through two adapters.

    ** Files

    Foundations:
    - [Prelude] (this file): JS strings as UTF-16 code units, string and list
      operations of the language, shared lemmas and tactics;
    - [Regex]: regular expressions by derivatives, with their language;
    - [Effects]: asynchronous code as trees of calls, with the trace semantics
      [reach], the predicate transformer [wp], its adequacy and a runner;
    - [Fsm]: [fsm.ts], the state-machine primitive;
    - [Jsmap]: the insertion-ordered map; [Json]: parsing and printing;
      [Utf8]: encoding and decoding; [Jsonprint]: printing any value without
      numbers, with its round trip.

    Pure components:
    - [Connstate]: [connstate.ts], [connectdecisions.ts];
    - [Status]: [syncstate.ts], [statuslight.ts], [stall.ts], [transportstate.ts];
    - [Lifecycle]: [mountfsm.ts], [resolvefsm.ts];
    - [Merge]: [merge.ts], [pushpreview.ts];
    - [Paths]: [pathidentity.ts], [pathsafe.ts], [excludedFolders.ts], [mounts.ts];
    - [Base]: [base.ts]; [Decide]: the pure functions of [reconcile.ts];
    - [Streamhash]: [streamhash.ts]; [Chunker]: [chunker.ts];
    - [Foreigntools]: [foreigntools.ts], [flipguard.ts];
    - [Links]: [connstr.ts], [sharelink.ts], [invitelink.ts]; [Recipe]:
      [composition-recipe.ts];
    - [Configsync]: [configsync.ts], [configconflict.ts], the scope gates of [main.ts];
    - [Frontmatter]: [frontmatter.ts]; [Protocol]: [protocol.ts];
    - [Settings]: [parseSettings] of [settings.ts];
    - [Wiresig]: [wiresignature.ts] and the gate of [main.ts].

    Stateful components:
    - [Configwalk]: [configwalk.ts], the walk of the configuration folder;
    - [Persist]: the single-flight writer of the plugin's data ([main.ts]);
    - [Syncengine]: [syncengine.ts], the event queue and its pump;
    - [Sync]: [sync.ts], the interface to the outside and the transfer layer;
    - [Transport]: [transport.ts], requests and responses;
    - [Reconcile]: one path ([reconcile.ts]); [Pass]: whole passes;
    - [Mountio]: [mountio.ts], a mount's adapters; [Mountengine]:
      [mountengine.ts] and the poll; [Mountsync]: [mountsync.ts], the driver;
    - [Demo]: a concrete world in which the witnesses run the client;
    - [Safety]: the promises of the passes and their proof;
    - [Poll]: the poll of the primary vault and the review of held files
      ([main.ts]), around the trees of [Pass];
    - [Vaultio]: the vault adapter ([ObsidianVaultIo] of [main.ts]), which
      serves the interface of [Sync] with calls of the host;
    - [Connect]: signing in, the gates of a connect and the vault switch
      ([main.ts]);
    - [Conflicts]: the comparison of [noteconflict.ts], and the resolution and
      the automatic sweep of note conflicts ([main.ts]);
    - [Plugins]: the autopilot of synced plugins, the reload of their code, the
      operations on one plugin and the notices ([main.ts]);
    - [Compose]: the set of mounts over one device: its changes, its boundary
      with the primary vault, the edits under a read-only mount ([main.ts]);
    - [Local]: the vault events and keystrokes, the claims of unsynced work they
      leave, the light with its hold, the raw file-system events, the spacing of
      configuration scans, resuming and unloading ([main.ts]);
    - [Account]: requests with the stored token, shares, the password, and the
      choice of the vault this device syncs ([main.ts], [vaultswitch.ts]);
    - [Wizard]: the setup wizard: signing in, links, and the vault a setup ends
      with ([setupwizard.ts], [wizardsteps.ts]);
    - [Mountforms]: the form that adds a mount ([mountsettings.ts]) and the
      review of an imported recipe ([recipeui.ts]);
    - [Mountstate]: reading the saved state of the mounts ([mountengine.ts]);
    - [Pluginpreview]: what pushing or pulling one plugin would do ([main.ts]);
    - [Filelog]: the log file ([filelog.ts]);
    - [Reports]: the log's ring, what is reported once, the words for the state
      ([main.ts], [busygate.ts]);
    - [Tab]: the settings tab ([settings.ts], [configdir.ts]); [Dialogs]: questions,
      the password, the shares and the conflict window ([confirm.ts],
      [accountui.ts], [noteconflict.ts]);
    - [Device]: the name and the identifier of the device ([devicename.ts]);
    - [Wiring]: the settings as the passes receive them, the grants on the sources
      of mounts, skipped files ([main.ts]);
    - [Channel]: the WebSocket of the primary vault, the poll, the recovery and
      the other timers, the sockets of the mounts, the requests for mount
      passes, teardown and unloading ([main.ts]), composed with the engine of
      [Syncengine]: what the engine calls is performed, what fires is enqueued.

    Definitions keep the source's names; a class is a record and its methods are
    definitions over it.

    ** How effects are modelled

    A pure function is a Rocq function.  Code that throws returns [res].  Code
    that awaits is a tree ([Effects.io]): every call that leaves the client and
    every access to its mutable objects is a node, and a theorem holds for all
    answers.  A pool of workers is [par], the interleaving of trees at every
    node, so that another worker, the user or another device may change
    anything between two calls.  The state machines are step functions built by
    [Fsm.defineMachine]; the engine is a configuration with the actions the
    runtime may deliver.

    ** What the theorems show

    - [Safety]: [allowed] is the abstract specification: what a task must have
      seen, in its own history, before it may overwrite, remove, upload or
      delete.  [job_safe] proves every pass meets it.  Its readings: an
      overwrite keeps the local content, a removal has a tombstone or agreed
      content, an upload states the version it is based on, content written was
      verified, a deletion on the server follows a presence probe, a read-only
      vault is never written, a pass stays in scope.
    - [Mountio], [Mountengine], [Mountsync]: the adapters confine a mount to its
      folder and source; a poll over them keeps the promises of [Safety]; a
      wiped folder is held before anything is deleted; the floor of the source's
      history is only spent by a full pass; the outcome of a cycle, the failure
      budget and what a rebuild keeps.
    - [Poll]: the plugin's poll keeps those promises through its callbacks; the
      server's deletion history is recorded only once a pass that looked at it
      ended; the review of held files loses nothing and is obeyed exactly.
    - [Vaultio]: what reaches the host is confined to the vault and the scope,
      and every change of the disk serves a call that [Safety] allows; a
      streamed file is whole and durable before it is renamed into place.
    - [Connect]: no content moves before the server, its contract and the access
      were verified; a base of another vault is merged, not reconciled; where
      credentials go, and how often a connect may try.
    - [Persist]: no change is lost while writes succeed, and a flush converges.
    - [Conflicts]: a resolution keeps the version that was chosen, whatever
      happens to the files meanwhile; the sweep removes only copies that are no
      conflict; what the window shows is exact, and the window finishes.
    - [Plugins]: code is only adopted or started when it is this account's own in
      a vault just found private; the operations on a plugin stay in its folder.
    - [Compose]: the base of the primary vault never holds an entry under a mount
      in effect, whatever the user does to the mounts; a removed mount leaves
      nothing behind, a renamed folder takes its mount along, and keeping the
      edits of a read-only mount loses none.
    - [Local]: the light shows a vault as synced only when no work is claimed, a
      claim of a change on disk ends only with a pass over it; a raw event is
      never lost to an echo; two configuration scans are never closer than the
      code says.
    - [Account]: however the handlers of the dialog interleave, the device is
      pointed at a vault or taken off one only with the user's consent and the
      server's answer.
    - [Wizard]: however its handlers and the edits of its form interleave, a
      vault is adopted over the kept base only where that base fits or nothing is
      here, a share only as the server redeemed it, a password only where
      storing it is on.
    - [Channel]: over engine and channel together: unless disconnected or
      unloading, the plugin is connecting or an alarm is armed that leads to a
      connect or to a look at the server; after a disconnect or an unload
      nothing is armed and every socket ever made is closed.
    - [Mountforms]: what the form adds was on offer and passes every check, and an
      imported mount takes effect.  [Mountstate]: whatever was saved, what is read
      back is usable, and what the client saved is read back as it was.
    - [Pluginpreview]: the preview names exactly the files a push or pull would
      create, overwrite or delete; buttons are greyed only for a plugin shown
      equal.
    - [Filelog]: lines reach the file in order, an operation ends once, the file
      stays bounded where it is rotated.  [Reports]: nothing noted is lost or
      reported twice; a state is called synced, and a change one's own, only when
      it is.
    - [Tab]: every request to refresh is rendered once; a button is greyed only
      after an answer, and every row gets one; each plugin is listed once; what is
      switched on was given a direction; date fields stay valid.  [Dialogs]: a
      question is answered once.  [Device]: an automatic name never breaks the
      names of conflict copies.  [Wiring]: the size cap is bounded; the windows
      judge a file as the passes do; a shared source is written only as last granted.
    - [Settings]: what was parsed has the shape its readers rely on, whatever was
      saved, and reading it back changes nothing.
    - [Configwalk]: at most the permitted number of calls run at once, and the
      concurrent walk finds what a sequential one finds.
    - [Decide], [Merge]: the decision table never takes the changed side for the
      unchanged one; a clean three-way merge keeps every line of both sides, is
      symmetric, and its alignment is a longest common subsequence; the bulk
      guards fail closed; the cursor only advances over what was applied.
    - [Syncengine], [Connstate], [Fsm], [Status], [Lifecycle]: no reachable
      engine state is stuck, the pump drains its queue, every failure leads back
      to a connection attempt or to a state that asks the user; the tables
      cover their states.
    - [Streamhash], [Chunker], [Sync]: the streamed digest is SHA-256; chunks
      partition the file and resynchronise after an edit.
    - [Paths], [Configsync], [Frontmatter], [Base]: identity groups, path
      confinement, the partition between mounts and the primary vault, the round
      trips of the stored base and of conflict-copy names, and when two contents
      count as the same note.
    - [Links], [Recipe], [Protocol], [Transport], [Wiresig]: round trips of the
      links, of recipes and of request queries, the import of a recipe, the
      validation of responses, the refusal of cleartext, the outcomes of a
      commit, and the compatibility verdict.

    ** Bounds and fuel

    Integers of the source that are JS numbers are [Z] or [N] where the code
    keeps them integral; percentages and versions whose comparison depends on
    binary64 use [SpecFloat]; hash words are [N] below [2^32] with the
    wrap-around written out.  Fuel is computed from the input: the LCS walk of
    [Merge] gets the sum of the lengths, which [Align.lcsPairs_longest] shows is
    enough (the walk misses no pair); the JSON parser twice the length of the
    text plus one, which [Json.parse_stringify] and [Jsonprint.parse_stringify_value]
    show is enough for what the client prints; the loop of a streamed write the
    length of its chunk, which [Vaultio.append_complete] shows is enough; a sweep
    worker one turn more than there are candidates, since a claim past the end
    stops it.  The limits of the code are kept: a hundred names for keeping both
    versions, [KEEPER_TRIES] for a kept edit, [MAX_DIFF_CELLS] for a comparison.  The walk
    of the configuration folder takes the depth it may descend to.  Trees of
    calls are inductive, so a client always ends; the engine's pump advances one
    resumption at a time, and [pump_drains] bounds how many it takes.

    ** Parameters

    Unicode normalisation and case mapping, the URL parser, the WebCrypto digest
    (where a theorem needs it, only that it is never empty), the legacy text
    decoder, the engine's collation, what the browser reports of the device, and
    the network are arguments; each theorem with a hypothesis on one of them has
    a witness with a concrete function.

    ** Not modelled

    The layout and the texts of the Obsidian user interface (what its handlers do
    is modelled with the component they act on; a field that only stores what was
    entered is not), the wiring of the host's events and commands in [main.ts],
    which only calls what is modelled, the debounced writes of the state of the
    mounts, the fields of the status call that only classify it, the inside of a
    WebSocket and of a timer (what they report, and when they fire, are inputs)
    and the server, a separate Rust program.

    ** Findings

    Where the code departs from what it or its documentation says, the
    development proves the departure as a lemma named for it:
    [Paths.Mounts.normMountFolder_leaves_space], [Base.Store.device_name_breaks],
    [Decide.Decide.percent_rounding],
    [Configsync.Config.self_exclusion_prefix_case],
    [Configsync.Scope.scope_memo_stale], [Reconcile.One.integrity_reads_as_outage],
    [Mountio.Mountio.dot_segment_is_data],
    [Mountengine.Mountengine.restart_misjudges_respelled_folder],
    [Links.Links.ipv6_loopback_refused], [Recipe.Recipe.large_recipe_unreadable],
    [Connect.Connect.switch_during_connect_lost],
    [Poll.Poll.version_recorded_for_other_vault],
    [Persist.Persist.failed_write_not_retried],
    [Persist.Persist.bare_persist_is_noop], [Persist.Persist.save_returns_early],
    [Persist.Persist.unload_drops_lazy], [Conflicts.Diff.cut_can_realign],
    [Conflicts.Resolution.theirs_is_not_checked],
    [Conflicts.Resolution.sweep_drops_dates],
    [Conflicts.Resolution.last_name_is_overwritten],
    [Plugins.Plugins.untick_is_undone], [Plugins.Plugins.manual_untick_is_undone],
    [Plugins.Plugins.mixed_flush_hides_css],
    [Plugins.Plugins.arrival_author_ignored],
    [Plugins.Plugins.switch_reads_as_private],
    [Settings.Settings.settings_can_throw],
    [Settings.Settings.settings_keep_wrong_types],
    [Settings.Settings.mounts_not_stable], [Compose.Compose.kept_edit_stays],
    [Compose.Compose.keeper_name_inside_mount],
    [Compose.Compose.rename_orphans_state],
    [Compose.Compose.rename_misses_other_case],
    [Compose.Compose.removal_activates_overlap],
    [Local.Local.edit_during_pass_unclaimed],
    [Local.Local.edit_during_connect_unclaimed], [Local.Local.hold_cut_short],
    [Local.Local.change_after_switch_ignored],
    [Account.Account.unreadable_vault_reads_as_empty],
    [Account.Account.adopting_still_asks],
    [Account.Account.confirmed_target_can_change],
    [Channel.Channel.refused_socket_reconnects_at_once],
    [Channel.Channel.close_ignores_lockout],
    [Channel.Channel.poll_runs_while_down],
    [Channel.Channel.mounts_sync_signed_out],
    [Wizard.Wizard.finish_keeps_owner], [Wizard.Wizard.token_follows_the_field],
    [Wizard.Wizard.refused_link_repoints],
    [Wizard.Wizard.broken_link_stays_pending],
    [Wizard.Wizard.created_account_other_server],
    [Mountforms.Forms.late_folders_are_shown],
    [Mountforms.Forms.inactive_mount_blocks_form],
    [Mountforms.Forms.edit_during_import_unchecked],
    [Filelog.Filelog.sync_lines_never_rotate],
    [Filelog.Filelog.failed_copy_loses_log],
    [Pluginpreview.Pluginpreview.unreadable_push_deletes],
    [Tab.Cleans.answer_is_never_refreshed], [Tab.Cleans.closed_tab_keeps_answer],
    [Tab.Checklist.stale_tick_is_hidden], [Tab.Choice.enabled_before_the_answer],
    [Tab.Rows.grants_never_loaded_later], [Tab.Dates.same_keys_misses_drift],
    [Dialogs.Share.older_answer_is_shown], [Device.Device.cut_leaves_space],
    [Device.Device.arch_leaks_after_underscore],
    [Wiring.Wiring.live_mount_keeps_old_settings],
    [Wiring.Wiring.added_mount_reads_only],
    [Dialogs.Window.overlapping_drawings_stack]. *)

From Stdlib Require Export Lia Ascii.
From Stdlib Require Export Sorted.
From stdpp Require Export base list list_numbers gmap strings numbers option pretty.

(** ** JavaScript strings

    A JS string is a sequence of UTF-16 code units; the development keeps it
    as that: a list of [N].  Literals are written [js "..."]. *)

Abbreviation jstr := (list N).
Abbreviation lmap := (fmap (M:=list)).

Definition js (s : string) : jstr := N_of_ascii <$> String.list_ascii_of_string s.

Declare Scope js_scope.
Delimit Scope js_scope with js.

Definition cSlash : N := 47%N.
Definition cBackslash : N := 92%N.
Definition cDot : N := 46%N.
Definition cSpace : N := 32%N.
Definition cTab : N := 9%N.
Definition cLF : N := 10%N.
Definition cCR : N := 13%N.
Definition cColon : N := 58%N.
Definition cStar : N := 42%N.

(** [a === b] on strings. *)
Definition jeq (a b : jstr) : bool := bool_decide (a = b).
Infix "===" := jeq (at level 70, no associativity) : js_scope.
Open Scope js_scope.

(** [s.startsWith(p)], [s.endsWith(p)], [s.includes(c)] for one unit. *)
Definition starts_with (s p : jstr) : bool := bool_decide (p `prefix_of` s).
Definition ends_with (s p : jstr) : bool := bool_decide (p `suffix_of` s).
Definition has_unit (s : jstr) (c : N) : bool := bool_decide (c ∈ s).

(** [s.includes(p)] *)
Fixpoint includes (s p : jstr) : bool :=
  starts_with s p || match s with [] => false | _ :: s' => includes s' p end.

(** [s.split(c)] for a one-unit separator; never empty. *)
Fixpoint split_on (c : N) (s : jstr) : list jstr :=
  match s with
  | [] => [[]]
  | x :: s' =>
      if decide (x = c) then [] :: split_on c s'
      else match split_on c s' with
           | [] => [[x]]
           | w :: ws => (x :: w) :: ws
           end
  end.

(** [l.join(c)] for a one-unit separator. *)
Fixpoint join_with (c : N) (l : list jstr) : jstr :=
  match l with
  | [] => []
  | [w] => w
  | w :: ws => w ++ c :: join_with c ws
  end.

(** [s.indexOf(c)], [s.lastIndexOf(c)]; [None] is JS's -1. *)
Fixpoint index_of (c : N) (s : jstr) : option nat :=
  match s with
  | [] => None
  | x :: s' => if decide (x = c) then Some 0 else S <$> index_of c s'
  end.
Fixpoint last_index_of (c : N) (s : jstr) : option nat :=
  match s with
  | [] => None
  | x :: s' =>
      match last_index_of c s' with
      | Some i => Some (S i)
      | None => if decide (x = c) then Some 0 else None
      end
  end.

(** [toLowerCase] on the Latin-1 range (A-Z and the accented capitals) and the
    Kelvin sign; other units are left alone.  Used where the result is compared
    with ASCII literals; where the identity of a path depends on it, the full
    Unicode function is a parameter. *)
Definition lower_unit (c : N) : N :=
  if decide ((65 ≤ c ∧ c ≤ 90)%N) then (c + 32)%N
  else if decide ((192 ≤ c ∧ c ≤ 222 ∧ c ≠ 215)%N) then (c + 32)%N
  else if decide (c = 8490)%N then 107%N
  else c.
Definition lower (s : jstr) : jstr := lower_unit <$> s.

(** The white space [trim] and the regex class [\s] recognise: tab, LF, VT,
    FF, CR, the Unicode space separators, LS, PS and the BOM. *)
Definition is_ws (c : N) : bool :=
  bool_decide (c ∈ [9; 10; 11; 12; 13; 32; 160; 5760; 8192; 8193; 8194; 8195; 8196; 8197; 8198; 8199;
                    8200; 8201; 8202; 8232; 8233; 8239; 8287; 12288; 65279]%N).
Fixpoint drop_while {A} (f : A → bool) (l : list A) : list A :=
  match l with [] => [] | x :: l' => if f x then drop_while f l' else l end.
Definition trim_start (s : jstr) : jstr := drop_while is_ws s.
Definition trim_end (s : jstr) : jstr := reverse (drop_while is_ws (reverse s)).
Definition trim (s : jstr) : jstr := trim_end (trim_start s).

Definition is_digit (c : N) : bool := bool_decide (48 ≤ c ∧ c ≤ 57)%N.
Definition is_lower (c : N) : bool := bool_decide (97 ≤ c ∧ c ≤ 122)%N.
Definition is_upper (c : N) : bool := bool_decide (65 ≤ c ∧ c ≤ 90)%N.
Definition is_alpha (c : N) : bool := is_lower c || is_upper c.

(** Decimal rendering of a natural number, [String(n)]. *)
Fixpoint digits_fuel (fuel : nat) (n : N) (acc : jstr) : jstr :=
  match fuel with
  | 0 => acc
  | S f =>
      let acc' := (48 + n mod 10)%N :: acc in
      if decide (n / 10 = 0)%N then acc' else digits_fuel f (n / 10)%N acc'
  end.
Definition num_str (n : N) : jstr := digits_fuel (S (N.size_nat n)) n [].

(** [if (!s)] on a string: the empty string is falsy. *)
Definition truthy (s : jstr) : bool := negb (bool_decide (s = [])).
Lemma truthy_true s : truthy s = true ↔ s ≠ [].
Proof. unfold truthy. rewrite negb_true_iff, bool_decide_eq_false. done. Qed.
(** Optional strings: [undefined] and [""] are falsy. *)
Definition otruthy (s : option jstr) : bool :=
  match s with Some s' => truthy s' | None => false end.

(** ** Automation *)

Create HintDb selfsync.
Create Rewrite HintDb selfsync_rw.

(** Case analysis on the boolean tests of a goal or its hypotheses. *)
Ltac bools :=
  repeat match goal with
  | H : _ && _ = true |- _ => apply andb_true_iff in H as [? ?]
  | H : _ || _ = false |- _ => apply orb_false_iff in H as [? ?]
  | H : negb _ = true |- _ => apply negb_true_iff in H
  | H : negb _ = false |- _ => apply negb_false_iff in H
  | H : bool_decide _ = true |- _ => apply bool_decide_eq_true in H
  | H : bool_decide _ = false |- _ => apply bool_decide_eq_false in H
  | H : Is_true (bool_decide _) |- _ => apply bool_decide_unpack in H
  end.
Ltac split_ifs :=
  repeat (case_match || case_bool_decide || case_decide); simplify_eq/=.

(** ** Shared lemmas on strings *)

Lemma jeq_true a b : (a === b) = true ↔ a = b.
Proof. unfold jeq. apply bool_decide_eq_true. Qed.
Lemma jeq_false a b : (a === b) = false ↔ a ≠ b.
Proof. unfold jeq. apply bool_decide_eq_false. Qed.
Lemma jeq_refl a : (a === a) = true.
Proof. by apply jeq_true. Qed.
#[export] Hint Rewrite jeq_true jeq_false jeq_refl : selfsync_rw.

Lemma starts_with_spec s p : starts_with s p = true ↔ ∃ k, s = p ++ k.
Proof. unfold starts_with. by rewrite bool_decide_eq_true. Qed.
Lemma starts_with_app p k : starts_with (p ++ k) p = true.
Proof. apply starts_with_spec. eauto. Qed.

Lemma split_on_not_nil c s : split_on c s ≠ [].
Proof. destruct s; simpl; repeat case_match; done. Qed.

Lemma join_split c s : join_with c (split_on c s) = s.
Proof.
  induction s as [|x s IH]; [done|]. simpl.
  pose proof (split_on_not_nil c s).
  case_decide; subst.
  - destruct (split_on c s); [done|]. simpl in *. by rewrite IH.
  - destruct (split_on c s) as [|w [|w' ws]]; [done|..]; simpl in *; by rewrite <- IH.
Qed.

Lemma split_on_no_sep c w : c ∉ w → split_on c w = [w].
Proof.
  induction w as [|x w IH]; intros Hc; [done|]. simpl.
  rewrite not_elem_of_cons in Hc. destruct Hc as [? Hc].
  rewrite decide_False by done. by rewrite IH.
Qed.

Lemma split_on_app c w s :
  c ∉ w → split_on c (w ++ c :: s) = w :: split_on c s.
Proof.
  induction w as [|x w IH]; intros Hc; simpl.
  - by rewrite decide_True.
  - rewrite not_elem_of_cons in Hc. destruct Hc as [? Hc].
    rewrite decide_False by done. by rewrite IH.
Qed.

(** Splitting undoes joining when no piece holds the separator. *)
Lemma split_join c l :
  l ≠ [] → Forall (λ w, c ∉ w) l → split_on c (join_with c l) = l.
Proof.
  intros Hne Hall. induction Hall as [|w l Hw Hall IH]; [done|].
  destruct l as [|w' l]; simpl.
  - by apply split_on_no_sep.
  - rewrite split_on_app by done. f_equal. apply IH. done.
Qed.

(** Every piece of a split is free of the separator. *)
Lemma split_on_pieces c s : Forall (λ w, c ∉ w) (split_on c s).
Proof.
  induction s as [|x s IH]; simpl.
  - repeat constructor. apply not_elem_of_nil.
  - case_decide.
    + constructor; [apply not_elem_of_nil|done].
    + pose proof (split_on_not_nil c s).
      destruct (split_on c s) as [|w ws]; [done|].
      inversion IH; subst. constructor; [|done].
      rewrite not_elem_of_cons. naive_solver.
Qed.

Lemma lower_unit_idem c : lower_unit (lower_unit c) = lower_unit c.
Proof. unfold lower_unit. repeat case_decide; lia. Qed.
Lemma lower_idem s : lower (lower s) = lower s.
Proof.
  unfold lower. rewrite <- list_fmap_compose. apply list_fmap_ext.
  intros ? ? _. apply lower_unit_idem.
Qed.
Lemma lower_app a b : lower (a ++ b) = lower a ++ lower b.
Proof. apply fmap_app. Qed.
#[export] Hint Rewrite lower_idem lower_app : selfsync_rw.

Lemma last_index_of_Some c s i :
  last_index_of c s = Some i → s = take i s ++ c :: drop (S i) s ∧ c ∉ drop (S i) s.
Proof.
  revert i. induction s as [|x s IH]; intros i Hi; simpl in *; [done|].
  destruct (last_index_of c s) as [j|] eqn:Hj; simplify_eq/=.
  - destruct (IH j eq_refl) as [Heq Hin]. split; [|done]. by rewrite <- Heq.
  - case_decide; simplify_eq/=. rewrite drop_0. split; [done|].
    clear IH. induction s as [|y s IH]; [apply not_elem_of_nil|].
    simpl in Hj. repeat case_match; simplify_eq. rewrite not_elem_of_cons. split; [done|auto].
Qed.
Lemma last_index_of_lt c s i : last_index_of c s = Some i → i < length s.
Proof.
  revert i. induction s as [|x s IH]; intros i; simpl; [done|].
  destruct (last_index_of c s) as [j|] eqn:Hj; [intros [= <-]; specialize (IH j eq_refl); lia|].
  case_decide; [intros [= <-]; lia|done].
Qed.
Lemma last_index_of_None c s : last_index_of c s = None ↔ c ∉ s.
Proof.
  induction s as [|x s IH]; simpl; [by split; [intros; apply not_elem_of_nil|]|].
  rewrite not_elem_of_cons.
  destruct (last_index_of c s); [split; [done|]|]; [naive_solver|].
  case_decide; naive_solver.
Qed.
Lemma last_index_of_app c a b :
  c ∉ b → last_index_of c (a ++ c :: b) = Some (length a).
Proof.
  intros Hb. induction a as [|x a IH]; simpl.
  - apply last_index_of_None in Hb. by rewrite Hb, decide_True.
  - by rewrite IH.
Qed.

(** ** Shared lemmas on lists *)
Lemma filter_all {A} (P : A → Prop) `{∀ x, Decision (P x)} l : Forall P l → filter P l = l.
Proof. induction 1 as [|x l Hx _ IH]; [done|]. rewrite filter_cons, decide_True by done. by rewrite IH. Qed.
Lemma filter_none {A} (P : A → Prop) `{∀ x, Decision (P x)} l : Forall (λ x, ¬ P x) l → filter P l = [].
Proof. induction 1 as [|x l Hx _ IH]; [done|]. by rewrite filter_cons, decide_False. Qed.

(** ** [sort()] and [[...new Set(l)]]: by UTF-16 code units; first occurrences *)
Fixpoint jle (a b : jstr) : bool :=
  match a, b with
  | [], _ => true
  | _ :: _, [] => false
  | x :: a', y :: b' => if decide (x = y) then jle a' b' else (x <? y)%N
  end.
Fixpoint insertSorted (x : jstr) (l : list jstr) : list jstr :=
  match l with [] => [x] | y :: l' => if jle x y then x :: l else y :: insertSorted x l' end.
Definition jsort (l : list jstr) : list jstr := foldr insertSorted [] l.
Definition dedup (l : list jstr) : list jstr :=
  foldl (λ acc x, if decide (x ∈ acc) then acc else acc ++ [x]) [] l.

Lemma insertSorted_perm x l : insertSorted x l ≡ₚ x :: l.
Proof.
  induction l as [|y l IH]; simpl; [done|]. case_match; [done|].
  rewrite IH. apply Permutation_swap.
Qed.
Lemma jsort_perm l : jsort l ≡ₚ l.
Proof. induction l as [|x l IH]; simpl; [done|]. by rewrite insertSorted_perm, IH. Qed.
Lemma dedup_acc l acc :
  NoDup acc →
  let r := foldl (λ acc x, if decide (x ∈ acc) then acc else acc ++ [x]) acc l in
  NoDup r ∧ ∀ x : jstr, x ∈ r ↔ x ∈ acc ∨ x ∈ l.
Proof.
  revert acc. induction l as [|y l IH]; intros acc Hacc; simpl.
  - split; [done|]. intros x. split; [auto|intros [?|?%not_elem_of_nil]; done].
  - destruct (decide (y ∈ acc)) as [Hy|Hy].
    + destruct (IH acc Hacc) as [Hnd Hin]. split; [done|]. intros x. rewrite Hin, elem_of_cons. naive_solver.
    + destruct (IH (acc ++ [y])) as [Hnd Hin].
      { apply NoDup_app. split_and!; [done| |by apply NoDup_singleton].
        intros x Hx ->%list_elem_of_singleton. done. }
      split; [done|]. intros x. rewrite Hin, elem_of_app, list_elem_of_singleton, elem_of_cons. naive_solver.
Qed.
Lemma dedup_elem_of l x : x ∈ dedup l ↔ x ∈ l.
Proof.
  destruct (dedup_acc l [] (NoDup_nil_2)) as [_ H]. unfold dedup. rewrite H.
  split; [intros [?%not_elem_of_nil|]; done|auto].
Qed.
Lemma dedup_NoDup l : NoDup (dedup l).
Proof. apply (dedup_acc l [] NoDup_nil_2). Qed.

Lemma jle_refl a : jle a a = true.
Proof. induction a as [|x a IH]; simpl; [done|]. by rewrite decide_True. Qed.
Lemma jle_total a b : jle a b = false → jle b a = true.
Proof.
  revert b. induction a as [|x a IH]; intros [|y b]; simpl; try done.
  destruct (decide (x = y)) as [->|Hne].
  - rewrite decide_True by done. apply IH.
  - rewrite decide_False by done. rewrite N.ltb_ge, N.ltb_lt. lia.
Qed.
Lemma jle_trans a b c : jle a b = true → jle b c = true → jle a c = true.
Proof.
  revert b c. induction a as [|x a IH]; intros [|y b] [|z c]; simpl; try done.
  repeat case_decide; subst; try done; rewrite ?N.ltb_lt; try lia. apply IH.
Qed.
Lemma insertSorted_sorted x l :
  StronglySorted (λ a b, jle a b = true) l → StronglySorted (λ a b, jle a b = true) (insertSorted x l).
Proof.
  induction 1 as [|y l Hl IH Hall]; simpl; [repeat constructor|].
  destruct (jle x y) eqn:Hxy.
  - constructor; [by constructor|]. constructor; [done|].
    eapply Forall_impl; [exact Hall|]. intros z. by apply jle_trans.
  - constructor; [done|]. rewrite Forall_forall in Hall |- *. intros z.
    rewrite insertSorted_perm, elem_of_cons. intros [->|Hz]; [by apply jle_total|auto].
Qed.
Lemma jsort_sorted l : StronglySorted (λ a b, jle a b = true) (jsort l).
Proof. induction l as [|x l IH]; simpl; [constructor|by apply insertSorted_sorted]. Qed.

(** [trim] is idempotent. *)
Lemma drop_while_last {A} (f : A → bool) l c : f c = false → drop_while f (l ++ [c]) = drop_while f l ++ [c].
Proof. intros Hc. induction l as [|x l IH]; cbn; [by rewrite Hc|]. by destruct (f x). Qed.
Lemma drop_while_idem {A} (f : A → bool) l : drop_while f (drop_while f l) = drop_while f l.
Proof. induction l as [|x l IH]; [done|]. cbn. destruct (f x) eqn:Hx; [done|]. cbn. by rewrite Hx. Qed.
Lemma drop_while_head {A} (f : A → bool) l c t : drop_while f l = c :: t → f c = false.
Proof. induction l as [|x l IH]; [done|]. cbn. destruct (f x) eqn:Hx; [done|]. by intros [= <- <-]. Qed.
Lemma trim_trim s : trim (trim s) = trim s.
Proof.
  unfold trim. assert (Hs : trim_start (trim_end (trim_start s)) = trim_end (trim_start s)).
  { unfold trim_start at 2 3. destruct (drop_while is_ws s) as [|c t] eqn:Hd; [done|]. apply drop_while_head in Hd.
    unfold trim_end. rewrite reverse_cons, drop_while_last by done. rewrite reverse_snoc. unfold trim_start. cbn. by rewrite Hd. }
  rewrite Hs. unfold trim_end. by rewrite reverse_involutive, drop_while_idem.
Qed.
(** [lower] neither makes nor removes white space. *)
Lemma lower_unit_ws c : is_ws (lower_unit c) = is_ws c.
Proof.
  assert (Hn : ∀ d, (32 < d < 160 ∨ 160 < d < 5760)%N → is_ws d = false).
  { intros d Hd. apply bool_decide_eq_false. rewrite !elem_of_cons, elem_of_nil. intros H. repeat destruct H as [H|H]; lia. }
  unfold lower_unit. repeat case_decide; [rewrite !Hn; [done|lia..]|rewrite !Hn; [done|lia..]|by subst|done].
Qed.
Lemma drop_while_lower s : drop_while is_ws (lower s) = lower (drop_while is_ws s).
Proof. induction s as [|c s IH]; [done|]. cbn. rewrite lower_unit_ws. by destruct (is_ws c). Qed.
Lemma trim_lower s : trim (lower s) = lower (trim s).
Proof.
  unfold trim, trim_end, trim_start. rewrite drop_while_lower. unfold lower at 1. rewrite <- fmap_reverse.
  fold (lower (reverse (drop_while is_ws s))). rewrite drop_while_lower. unfold lower at 1. by rewrite <- fmap_reverse.
Qed.
