(* ===== verification/Regex.v ===== *)
(** * Regex: the regular-expression subset the client uses

    [re.test(s)] and [replace] over character classes, sequences,
    alternatives and repetition.  Matching is by derivatives; [rmatch_spec]
    relates it to the language of the expression.  Whether a match exists does
    not depend on greediness, so [test] is modelled exactly; the few captures
    the client takes are computed where they are used. *)

From S2P Require Import Prelude.

Inductive regex : Type :=
| RNone
| REps
| RClass (f : N → bool)
| RSeq (r1 r2 : regex)
| RAlt (r1 r2 : regex)
| RStar (r : regex).

Fixpoint nullable (r : regex) : bool :=
  match r with
  | RNone | RClass _ => false
  | REps | RStar _ => true
  | RSeq r1 r2 => nullable r1 && nullable r2
  | RAlt r1 r2 => nullable r1 || nullable r2
  end.

(** Smart constructors keep derivatives small. *)
Definition mkSeq (r1 r2 : regex) : regex :=
  match r1, r2 with
  | RNone, _ => RNone
  | _, RNone => RNone
  | REps, _ => r2
  | _, _ => RSeq r1 r2
  end.
Definition mkAlt (r1 r2 : regex) : regex :=
  match r1, r2 with
  | RNone, _ => r2
  | _, RNone => r1
  | _, _ => RAlt r1 r2
  end.

Fixpoint deriv (c : N) (r : regex) : regex :=
  match r with
  | RNone | REps => RNone
  | RClass f => if f c then REps else RNone
  | RSeq r1 r2 =>
      if nullable r1 then mkAlt (mkSeq (deriv c r1) r2) (deriv c r2)
      else mkSeq (deriv c r1) r2
  | RAlt r1 r2 => mkAlt (deriv c r1) (deriv c r2)
  | RStar r1 => mkSeq (deriv c r1) (RStar r1)
  end.

(** [/^r$/.test(s)] *)
Fixpoint rmatch (r : regex) (s : jstr) : bool :=
  match s with
  | [] => nullable r
  | c :: s' => rmatch (deriv c r) s'
  end.

Inductive lang : regex → jstr → Prop :=
| lang_eps : lang REps []
| lang_class f c : f c = true → lang (RClass f) [c]
| lang_seq r1 r2 s1 s2 : lang r1 s1 → lang r2 s2 → lang (RSeq r1 r2) (s1 ++ s2)
| lang_alt_l r1 r2 s : lang r1 s → lang (RAlt r1 r2) s
| lang_alt_r r1 r2 s : lang r2 s → lang (RAlt r1 r2) s
| lang_star_nil r : lang (RStar r) []
| lang_star_app r s1 s2 : lang r s1 → lang (RStar r) s2 → lang (RStar r) (s1 ++ s2).
#[export] Hint Constructors lang : selfsync.

Lemma lang_none s : ¬ lang RNone s.
Proof. by inversion 1. Qed.
Lemma lang_eps_inv s : lang REps s ↔ s = [].
Proof. split; [by inversion 1|intros ->; constructor]. Qed.
Lemma lang_class_inv f s : lang (RClass f) s ↔ ∃ c, s = [c] ∧ f c = true.
Proof. split; [inversion 1; eauto|intros (c & -> & Hc); by constructor]. Qed.
Lemma lang_seq_inv r1 r2 s :
  lang (RSeq r1 r2) s ↔ ∃ s1 s2, s = s1 ++ s2 ∧ lang r1 s1 ∧ lang r2 s2.
Proof.
  split; [inversion 1; subst; eauto|].
  intros (s1 & s2 & -> & ? & ?). by constructor.
Qed.
Lemma lang_alt_inv r1 r2 s : lang (RAlt r1 r2) s ↔ lang r1 s ∨ lang r2 s.
Proof. split; [inversion 1; auto|intros [?|?]; auto with selfsync]. Qed.

Lemma lang_mkSeq r1 r2 s : lang (mkSeq r1 r2) s ↔ lang (RSeq r1 r2) s.
Proof.
  assert (∀ s, lang r2 s ↔ lang (RSeq REps r2) s) as Heps.
  { intros s'. rewrite lang_seq_inv. setoid_rewrite lang_eps_inv. split.
    - intros ?. by exists [], s'.
    - by intros (? & ? & -> & -> & ?). }
  assert (∀ s, ¬ lang (RSeq r1 RNone) s ∧ ¬ lang (RSeq RNone r2) s) as Hnone.
  { intros s'. rewrite !lang_seq_inv. split; intros (? & ? & _ & H1 & H2);
      by apply lang_none in H1 || apply lang_none in H2. }
  destruct (Hnone s) as [Hn1 Hn2]. pose proof (lang_none s).
  unfold mkSeq. destruct r1, r2; try done; naive_solver.
Qed.
Lemma lang_mkAlt r1 r2 s : lang (mkAlt r1 r2) s ↔ lang (RAlt r1 r2) s.
Proof.
  rewrite lang_alt_inv. pose proof (lang_none s).
  unfold mkAlt. destruct r1, r2; rewrite ?lang_alt_inv; naive_solver.
Qed.

Lemma nullable_spec r : nullable r = true ↔ lang r [].
Proof.
  induction r as [| |f|r1 IH1 r2 IH2|r1 IH1 r2 IH2|r IH]; simpl.
  - split; [done|intros H; by apply lang_none in H].
  - split; auto with selfsync.
  - split; [done|]. intros (c & Hc & _)%lang_class_inv. done.
  - rewrite andb_true_iff, IH1, IH2, lang_seq_inv. split.
    + intros [??]. by exists [], [].
    + intros (s1 & s2 & Hs & ? & ?). symmetry in Hs. by apply app_nil in Hs as [-> ->].
  - by rewrite orb_true_iff, IH1, IH2, lang_alt_inv.
  - split; auto with selfsync.
Qed.

Lemma lang_star_cons r c s :
  lang (RStar r) (c :: s) ↔ ∃ s1 s2, s = s1 ++ s2 ∧ lang r (c :: s1) ∧ lang (RStar r) s2.
Proof.
  split.
  - intros H. remember (RStar r) as r' eqn:Hr. remember (c :: s) as w eqn:Hw.
    revert c s Hw. induction H as [| | | | |r0|r0 s1 s2 H1 _ H2 IH]; intros c0 s0 Hw; simplify_eq.
    destruct s1 as [|d s1]; simplify_eq/=; [by apply IH|]. by exists s1, s2.
  - intros (s1 & s2 & -> & ? & ?). rewrite app_comm_cons. by constructor.
Qed.

Lemma deriv_spec c r s : lang (deriv c r) s ↔ lang r (c :: s).
Proof.
  revert s. induction r as [| |f|r1 IH1 r2 IH2|r1 IH1 r2 IH2|r IH]; intros s; simpl.
  - split; intros H; by apply lang_none in H.
  - rewrite lang_eps_inv. split; [intros H; by apply lang_none in H|done].
  - rewrite lang_class_inv. destruct (f c) eqn:Hf.
    + rewrite lang_eps_inv. split; [intros ->; by exists c|].
      intros (d & Heq & _). by injection Heq.
    + split; [intros H; by apply lang_none in H|].
      intros (d & Heq & Hd). injection Heq as -> _. congruence.
  - assert (lang (mkSeq (deriv c r1) r2) s ↔
            ∃ s1 s2, s = s1 ++ s2 ∧ lang r1 (c :: s1) ∧ lang r2 s2) as Hseq.
    { rewrite lang_mkSeq, lang_seq_inv. by setoid_rewrite IH1. }
    rewrite lang_seq_inv.
    assert ((∃ s1 s2, c :: s = s1 ++ s2 ∧ lang r1 s1 ∧ lang r2 s2) ↔
            (∃ s1 s2, s = s1 ++ s2 ∧ lang r1 (c :: s1) ∧ lang r2 s2) ∨
            (lang r1 [] ∧ lang r2 (c :: s))) as ->.
    { split.
      - intros ([|d s1] & s2 & Heq & H1 & H2); simpl in Heq; [subst s2; by right|].
        injection Heq as <- ->. left. by exists s1, s2.
      - intros [(s1 & s2 & -> & ? & ?)|[??]];
          [by exists (c :: s1), s2|by exists [], (c :: s)]. }
    destruct (nullable r1) eqn:Hn.
    + rewrite lang_mkAlt, lang_alt_inv, Hseq, IH2. apply nullable_spec in Hn. tauto.
    + rewrite Hseq. assert (¬ lang r1 []) by (by rewrite <- nullable_spec, Hn). tauto.
  - by rewrite lang_mkAlt, !lang_alt_inv, IH1, IH2.
  - rewrite lang_mkSeq, lang_seq_inv, lang_star_cons. by setoid_rewrite IH.
Qed.

Lemma rmatch_spec r s : rmatch r s = true ↔ lang r s.
Proof.
  revert r. induction s as [|c s IH]; intros r; simpl; [apply nullable_spec|].
  by rewrite IH, deriv_spec.
Qed.

(** ** Notation for the client's patterns *)

Definition RAny : regex := RStar (RClass (λ _, true)).          (* [\s\S]* *)
(** [.] matches any unit except the line terminators. *)
Definition not_eol (c : N) : bool := bool_decide (c ∉ [10; 13; 8232; 8233]%N).
Definition RDot : regex := RClass not_eol.
Definition RDigit : regex := RClass is_digit.
Definition RUnit (c : N) : regex := RClass (λ d, bool_decide (c = d)).
Fixpoint rlit (s : jstr) : regex :=
  match s with [] => REps | c :: s' => RSeq (RUnit c) (rlit s') end.
Definition ropt (r : regex) : regex := RAlt r REps.
Definition rplus (r : regex) : regex := RSeq r (RStar r).
Fixpoint rrep (n : nat) (r : regex) : regex :=
  match n with 0 => REps | S n' => RSeq r (rrep n' r) end.
Fixpoint ropts (n : nat) (r : regex) : regex :=   (* r{0,n} *)
  match n with 0 => REps | S n' => ropt (RSeq r (ropts n' r)) end.
Fixpoint ralts (l : list regex) : regex :=
  match l with [] => RNone | [r] => r | r :: l' => RAlt r (ralts l') end.
Definition rseqs (l : list regex) : regex := foldr RSeq REps l.

(** [/r/.test(s)]: a match anywhere. *)
Definition rtest (r : regex) (s : jstr) : bool := rmatch (RSeq RAny (RSeq r RAny)) s.
(** [/r$/.test(s)], [/^r/.test(s)] *)
Definition rtest_end (r : regex) (s : jstr) : bool := rmatch (RSeq RAny r) s.
Definition rtest_start (r : regex) (s : jstr) : bool := rmatch (RSeq r RAny) s.

Lemma lang_any s : lang RAny s.
Proof.
  induction s as [|c s IH]; [constructor|].
  change (c :: s) with ([c] ++ s). constructor; [by constructor|done].
Qed.
Lemma lang_lit l s : lang (rlit l) s ↔ s = l.
Proof.
  revert s. induction l as [|c l IH]; intros s; simpl; [apply lang_eps_inv|].
  rewrite lang_seq_inv. split.
  - intros (s1 & s2 & -> & (d & -> & Hd)%lang_class_inv & ->%IH).
    by apply bool_decide_eq_true in Hd as <-.
  - intros ->. exists [c], l. rewrite IH. split_and!; try done.
    apply lang_class. by apply bool_decide_eq_true.
Qed.
Lemma rtest_spec r s : rtest r s = true ↔ ∃ a m b, s = a ++ m ++ b ∧ lang r m.
Proof.
  unfold rtest. rewrite rmatch_spec, lang_seq_inv. split.
  - intros (a & t & -> & _ & (m & b & -> & Hm & _)%lang_seq_inv). by exists a, m, b.
  - intros (a & m & b & -> & Hm). exists a, (m ++ b).
    split_and!; [done|apply lang_any|]. apply lang_seq_inv.
    exists m, b. split_and!; [done|done|apply lang_any].
Qed.
