(* ===== verification/Effects.v ===== *)
(** * Effects: asynchronous code as trees of calls

    The client's effectful functions ([async], with [throw]/[try]/[finally] and
    mutable objects) are trees: each call that leaves the client (vault adapter,
    transport, clock, callbacks) and each access to the client's mutable objects
    is a node whose children are indexed by the answer.  A theorem about a tree
    therefore holds for every behaviour of the outside world: failures, races
    between calls and lying listings included.  [par] interleaves two trees at
    every node, which is how a pool of asynchronous workers runs.

    [reach] is the trace semantics, [wp] the predicate transformer used to
    prove trace properties, [wp_adequacy] relates the two; [run] executes a
    tree against a concrete world, state and schedule. *)

From S2P Require Import Prelude.

(** Outcome of JS code: a value or a thrown error. *)
Inductive res (E A : Type) : Type :=
| Ok (a : A)
| Throw (e : E).
Arguments Ok {E A} a.
Arguments Throw {E A} e.

Section Tree.
Context {Op : Type} {Ans : Op → Type}.

Inductive io (A : Type) : Type :=
| Ret (a : A)
| Vis (o : Op) (k : Ans o → io A).
Arguments Ret {A} a.
Arguments Vis {A} o k.

Fixpoint io_bind {A B} (f : A → io B) (m : io A) : io B :=
  match m with
  | Ret a => f a
  | Vis o k => Vis o (λ r, io_bind f (k r))
  end.

(** One call and the answer it got; a history lists calls oldest first. *)
Definition event : Type := { o : Op & Ans o }.
Definition ev (o : Op) (r : Ans o) : event := existT o r.

(** [reach m h m']: after the calls and answers of [h], [m] continues as [m']. *)
Inductive reach {A} : io A → list event → io A → Prop :=
| reach_refl m : reach m [] m
| reach_step o k r h m' : reach (k r) h m' → reach (Vis o k) (ev o r :: h) m'.

Lemma reach_inv {A} (m : io A) h m' :
  reach m h m' →
  (h = [] ∧ m' = m) ∨
  match m with Ret _ => False | Vis o k => ∃ r h', h = ev o r :: h' ∧ reach (k r) h' m' end.
Proof. intros [|o k r h' x Hr]; [by left|]. right. by exists r, h'. Qed.

(** Safety: [I h o] must hold whenever [o] is called after history [h], and
    [Q a h] when the code finishes. *)
Section Wp.
Context (I : list event → Op → Prop).
Fixpoint wp {A} (m : io A) (Q : A → list event → Prop) (h : list event) : Prop :=
  match m with
  | Ret a => Q a h
  | Vis o k => I h o ∧ ∀ r, wp (k r) Q (h ++ [ev o r])
  end.

Lemma wp_mono {A} (m : io A) (Q Q' : A → list event → Prop) h :
  (∀ a h', Q a h' → Q' a h') → wp m Q h → wp m Q' h.
Proof.
  intros HQ. revert h. induction m as [a|o k IH]; simpl; intros h Hm; [auto|].
  destruct Hm as [HI Hm]. split; [done|]. intros r. by apply IH.
Qed.

Lemma wp_bind {A B} (f : A → io B) (m : io A) Q h :
  wp m (λ a h', wp (f a) Q h') h → wp (io_bind f m) Q h.
Proof.
  revert h. induction m as [a|o k IH]; simpl; intros h Hm; [done|].
  destruct Hm as [HI Hm]. split; [done|]. intros r. by apply IH.
Qed.

(** Every call of every execution is allowed, and every finished execution
    ends in the postcondition. *)
Lemma wp_adequacy {A} (m : io A) Q h0 :
  wp m Q h0 →
  ∀ h m', reach m h m' →
    match m' with
    | Ret a => Q a (h0 ++ h)
    | Vis o _ => I (h0 ++ h) o
    end.
Proof.
  intros Hwp h m' Hr. revert h0 Hwp. induction Hr as [m|o k r h m' Hr IH]; intros h0 Hwp.
  - rewrite app_nil_r. destruct m; simpl in Hwp; [done|by destruct Hwp].
  - simpl in Hwp. destruct Hwp as [_ Hk]. specialize (IH _ (Hk r)).
    by rewrite <- app_assoc in IH.
Qed.

(** Completeness: the transformer is exactly trace safety. *)
Lemma wp_complete {A} (m : io A) Q h0 :
  (∀ h m', reach m h m' →
    match m' with
    | Ret a => Q a (h0 ++ h)
    | Vis o _ => I (h0 ++ h) o
    end) → wp m Q h0.
Proof.
  revert h0. induction m as [a|o k IH]; simpl; intros h0 Hs.
  - specialize (Hs [] (Ret a) (reach_refl _)). by rewrite app_nil_r in Hs.
  - split.
    + specialize (Hs [] (Vis o k) (reach_refl _)). by rewrite app_nil_r in Hs.
    + intros r. apply IH. intros h m' Hr. rewrite <- app_assoc.
      apply Hs. by constructor.
Qed.
End Wp.

Lemma io_bind_ret {A B} (f : A → io B) a : io_bind f (Ret a) = f a.
Proof. done. Qed.
End Tree.
Arguments io Op Ans A : clear implicits.
Arguments event Op Ans : clear implicits.
Arguments Ret {Op Ans A} a.
Arguments Vis {Op Ans A} o k.
#[global] Notation "h ⊑ h'" := (sublist h h') (at level 70, no associativity).

(** ** The monad of the client's code

    Besides the calls [Op], a command reads and updates the client's objects
    ([Upd f] answers with the state before [f]), lets the scheduler pick between
    two running tasks, and uses the counters of a worker pool. *)
Section Client.
Context {Op : Type} {Ans : Op → Type} {S E : Type}.

Inductive cmd : Type :=
| Call (o : Op)
| Upd (f : S → S)
| Pick
| NewPool
| NextItem (id : nat)
| StopPool (id : nat) (e : E)
| PoolError (id : nat).
Definition cans (c : cmd) : Type :=
  match c with
  | Call o => Ans o
  | Upd _ => S
  | Pick => bool
  | NewPool => nat
  | NextItem _ => (nat * bool)%type
  | StopPool _ _ => unit
  | PoolError _ => option E
  end.
Definition hist : Type := list (event cmd cans).
Definition M (A : Type) : Type := io cmd cans (res E A).

Definition mret' {A} (a : A) : M A := Ret (Ok a).
Definition throw {A} (e : E) : M A := Ret (Throw e).
Definition bindM {A B} (m : M A) (f : A → M B) : M B :=
  io_bind (λ r, match r with Ok a => f a | Throw e => Ret (Throw e) end) m.
(** [try { m } catch (e) { h(e) }] *)
Definition try_catch {A} (m : M A) (h : E → M A) : M A :=
  io_bind (λ r, match r with Ok a => Ret (Ok a) | Throw e => h e end) m.
(** [try { m } finally { f }] for an [f] that does not throw: the outcome of
    [m] is handed to [f] and then returned. *)
Definition finally {A} (m : M A) (f : res E A → M unit) : M A :=
  io_bind (λ r, io_bind (λ _, Ret r) (f r)) m.
Definition do (c : cmd) : M (cans c) := Vis c (λ r, Ret (Ok r)).
Definition getS : M S := do (Upd id).
Definition gets {A} (f : S → A) : M A := bindM getS (λ s, mret' (f s)).
Definition modify (f : S → S) : M unit := bindM (do (Upd f)) (λ _, mret' tt).
(** A call that cannot throw, and one whose answer may be an error. *)
Definition call (o : Op) : M (Ans o) := do (Call o).
Definition callE {A} (o : Op) (view : Ans o → res E A) : M A :=
  Vis (Call o) (λ r, Ret (view r)).

(** [for (const x of l) await f(x)] *)
Fixpoint for_each {A} (l : list A) (f : A → M unit) : M unit :=
  match l with
  | [] => mret' tt
  | x :: l' => bindM (f x) (λ _, for_each l' f)
  end.
(** A loop that collects the results. *)
Fixpoint map_each {A B} (l : list A) (f : A → M B) : M (list B) :=
  match l with
  | [] => mret' []
  | x :: l' => bindM (f x) (λ y, bindM (map_each l' f) (λ ys, mret' (y :: ys)))
  end.

(** ** Interleaving *)
Fixpoint par {A B} (m1 : io cmd cans A) : io cmd cans B → io cmd cans (A * B) :=
  match m1 with
  | Ret a => λ m2, io_bind (λ b, Ret (a, b)) m2
  | Vis o1 k1 =>
      fix inner (m2 : io cmd cans B) : io cmd cans (A * B) :=
        match m2 with
        | Ret b => io_bind (λ a, Ret (a, b)) (Vis o1 k1)
        | Vis o2 k2 =>
            Vis Pick (λ first : bool,
              if first then Vis o1 (λ r, par (k1 r) (Vis o2 k2))
              else Vis o2 (λ r, inner (k2 r)))
        end
  end.
Fixpoint par_list {A} (ms : list (io cmd cans A)) : io cmd cans (list A) :=
  match ms with
  | [] => Ret []
  | m :: ms => io_bind (λ '(a, l), Ret (a :: l)) (par m (par_list ms))
  end.

(** ** Running a tree

    The world answers the calls, [sched] the picks; pools are kept by the
    runner: the next index and the first error. *)
Record conf (W : Type) : Type := Conf { cw : W; cs : S; cpools : list (nat * option E); ctick : nat }.
Arguments Conf {W}.
Arguments cw {W}.
Arguments cs {W}.
Arguments cpools {W}.
Arguments ctick {W}.
Definition step {W} (world : W → ∀ o, Ans o * W) (sched : nat → bool) (c : conf W) (k : cmd) : cans k * conf W :=
  match k return cans k * conf W with
  | Call o => let '(r, w) := world (cw c) o in (r, Conf w (cs c) (cpools c) (ctick c))
  | Upd f => (cs c, Conf (cw c) (f (cs c)) (cpools c) (ctick c))
  | Pick => (sched (ctick c), Conf (cw c) (cs c) (cpools c) (Datatypes.S (ctick c)))
  | NewPool => (length (cpools c), Conf (cw c) (cs c) (cpools c ++ [(0, None)]) (ctick c))
  | NextItem id =>
      let '(n, err) := default (0, None) (cpools c !! id) in
      ((n, match err with Some _ => true | None => false end),
       Conf (cw c) (cs c) (<[id := (Datatypes.S n, err)]> (cpools c)) (ctick c))
  | StopPool id e =>
      let '(n, err) := default (0, None) (cpools c !! id) in
      (tt, Conf (cw c) (cs c)
             (<[id := (n, match err with Some e0 => Some e0 | None => Some e end)]> (cpools c)) (ctick c))
  | PoolError id => ((default (0, None) (cpools c !! id)).2, c)
  end.
Fixpoint run {W A} (world : W → ∀ o, Ans o * W) (sched : nat → bool) (m : io cmd cans A) (c : conf W)
    : A * conf W :=
  match m with
  | Ret a => (a, c)
  | Vis k f => let '(r, c') := step world sched c k in run world sched (f r) c'
  end.
Lemma run_bind {W A B} (world : W → ∀ o, Ans o * W) sched (f : A → io cmd cans B) m c :
  run world sched (io_bind f m) c =
  let '(a, c') := run world sched m c in run world sched (f a) c'.
Proof.
  revert c. induction m as [a|k f' IH]; simpl; intros c; [done|].
  destruct (step world sched c k) as [r c']. apply IH.
Qed.

(** The run up to the first call that [sel] picks: its history and what is left. *)
Fixpoint run_to {W A} (world : W → ∀ o, Ans o * W) (sched : nat → bool) (sel : Op → bool)
    (m : io cmd cans A) (c : conf W) : option (list (event cmd cans) * io cmd cans A) :=
  match m with
  | Ret _ => None
  | Vis k f =>
      if match k with Call o => sel o | _ => false end then Some ([], m)
      else
        let '(r, c') := step world sched c k in
        match run_to world sched sel (f r) c' with
        | Some (h, x) => Some (ev k r :: h, x)
        | None => None
        end
  end.
Lemma run_to_reach {W A} (world : W → ∀ o, Ans o * W) sched sel (m : io cmd cans A) c h m' :
  run_to world sched sel m c = Some (h, m') → reach m h m'.
Proof.
  revert c h. induction m as [a|k f IH]; intros c h; [done|]. cbn [run_to].
  destruct (match k with Call o => sel o | _ => false end); [intros [= <- <-]; constructor|].
  destruct (step world sched c k) as [r c']. destruct (run_to world sched sel (f r) c') as [[h1 x]|] eqn:Hr; [|done].
  intros [= <- <-]. constructor. by eapply IH.
Qed.
(** A finished run is a finished execution. *)
Lemma run_reach {W A} (world : W → ∀ o, Ans o * W) (sched : nat → bool) (m : io cmd cans A) (c : conf W) :
  ∃ h, reach m h (Ret (run world sched m c).1).
Proof.
  revert c. induction m as [a|k f IH]; intros c; [exists []; constructor|]. cbn [run].
  destruct (step world sched c k) as [r c']. destruct (IH r c') as [h Hr]. exists (ev k r :: h). by constructor.
Qed.
Definition next_call {A} (m : io cmd cans A) : option Op :=
  match m with Vis (Call o) _ => Some o | _ => None end.
(** A call some run makes is a call some execution makes. *)
Definition picked {W A} (world : W → ∀ o, Ans o * W) (sched : nat → bool) (sel : Op → bool)
    (m : io cmd cans A) (c : conf W) : option Op :=
  run_to world sched sel m c ≫= λ x, next_call x.2.
Lemma picked_reach {W A} (world : W → ∀ o, Ans o * W) sched sel (m : io cmd cans A) c o :
  picked world sched sel m c = Some o → ∃ h k, reach m h (Vis (Call o) k).
Proof.
  unfold picked. destruct (run_to world sched sel m c) as [[h m']|] eqn:Hr; [|done]. simpl.
  destruct m' as [a|[o'| | | | | |] k]; try done. intros [= <-]. exists h, k. by eapply run_to_reach.
Qed.

(** ** Trace safety

    [I h o] says that the call [o] is allowed after the history [h].  It
    constrains calls only, and it is monotone: what justified a call still
    does when other tasks' events are interleaved. *)
Class Justified (I : hist → Op → Prop) : Prop :=
  justified : ∀ h h' o, h ⊑ h' → I h o → I h' o.
Definition lift (I : hist → Op → Prop) (h : hist) (c : cmd) : Prop :=
  match c with Call o => I h o | _ => True end.
Definition safe (I : hist → Op → Prop) {A} (m : io cmd cans A) (Q : A → hist → Prop) (h : hist) : Prop :=
  wp (lift I) m Q h.
(** The calls of a history. *)
Definition called (h : hist) (o : Op) (r : Ans o) : Prop := ev (Ans := cans) (Call o) r ∈ h.
Definition saw (h : hist) (s : S) : Prop := ∃ f, ev (Ans := cans) (Upd f) s ∈ h.
End Client.
Arguments M {Op} Ans S E A.
Arguments hist {Op} Ans S E.
Arguments cmd Op S E : clear implicits.
Arguments conf S E W : clear implicits.
Arguments Conf {S E W}.
Arguments cw {S E W}.
Arguments cs {S E W}.
Arguments cpools {S E W}.
Arguments ctick {S E W}.

Declare Scope eff_scope.
Delimit Scope eff_scope with eff.
Notation "'let*' x := m 'in' k" := (bindM m (λ x, k))
  (at level 10, x name, m at level 100, k at level 200) : eff_scope.
Notation "'let*' ' p := m 'in' k" := (bindM m (λ p, k))
  (at level 10, p strict pattern, m at level 100, k at level 200) : eff_scope.
Notation "m ;; k" := (bindM m (λ _, k))
  (at level 100, k at level 200, right associativity) : eff_scope.
Notation "'whenM' b 'then' m" := (if b then m else mret' tt)
  (at level 10, b at level 100, m at level 100) : eff_scope.
Open Scope eff_scope.

(** ** Rules of the client logic *)
Section Rules.
Context {Op : Type} {Ans : Op → Type} {S E : Type}.
Context (I : hist Ans S E → Op → Prop) `{HI : !Justified I}.
Implicit Types (h : hist Ans S E).

Lemma sublist_snoc h h' (e : event (cmd Op S E) cans) : h ⊑ h' → h ++ [e] ⊑ h' ++ [e].
Proof. intros H. by apply sublist_app. Qed.
Lemma called_mono h h' o (r : Ans o) : h ⊑ h' → called h o r → called h' o r.
Proof. intros Hs Hc. by eapply elem_of_sublist. Qed.
Lemma saw_mono h h' s : h ⊑ h' → saw h s → saw h' s.
Proof. intros Hs [f Hf]. exists f. by eapply elem_of_sublist. Qed.
Lemma called_snoc h o (r : Ans o) : called (h ++ [ev (Ans := cans) (Call o) r]) o r.
Proof. unfold called. rewrite elem_of_app, list_elem_of_singleton. by right. Qed.
Lemma saw_snoc h f s : saw (h ++ [ev (Op := cmd Op S E) (Ans := cans) (Upd f) s]) s.
Proof. exists f. rewrite elem_of_app, list_elem_of_singleton. by right. Qed.
Lemma lift_mono h h' c : h ⊑ h' → lift I h c → lift I h' c.
Proof using HI. destruct c; simpl; [apply HI|done..]. Qed.

(** A tree that was safe after [h] is safe after any longer history. *)
Lemma safe_later A (m : io (cmd Op S E) cans A) Q Q' h h' :
  h ⊑ h' → (∀ a h1 h2, h1 ⊑ h2 → Q a h1 → Q' a h2) → safe I m Q h → safe I m Q' h'.
Proof using HI.
  intros Hs HQ. revert h h' Hs. induction m as [a|c k IH]; simpl; intros h h' Hs Hm; [by eapply HQ|].
  destruct Hm as [Hc Hk]. split; [by eapply lift_mono|].
  intros r. eapply (IH r); [by apply sublist_snoc|apply Hk].
Qed.
Lemma safe_mono A (m : io (cmd Op S E) cans A) (Q Q' : A → _ → Prop) h :
  (∀ a h', h ⊑ h' → Q a h' → Q' a h') → safe I m Q h → safe I m Q' h.
Proof.
  revert h. induction m as [a|c k IH]; intros h HQ; [apply (HQ a h); done|].
  intros [Hc Hk]. split; [done|]. intros r. apply IH; [|apply Hk].
  intros a h' Hs. apply HQ. etransitivity; [|exact Hs]. by apply sublist_inserts_r.
Qed.

Lemma safe_ret A (a : A) (Q : res E A → _ → Prop) h : Q (Ok a) h → safe I (mret' a) Q h.
Proof. done. Qed.
Lemma safe_throw A (e : E) (Q : res E A → _ → Prop) h : Q (Throw e) h → safe I (throw e) Q h.
Proof. done. Qed.
Lemma safe_bind A B (m : M Ans S E A) (f : A → M Ans S E B) Q h :
  safe I m (λ r h', h ⊑ h' → match r with
                    | Ok a => safe I (f a) Q h'
                    | Throw e => Q (Throw e) h'
                    end) h →
  safe I (bindM m f) Q h.
Proof.
  intros Hm. unfold safe, bindM in *. apply wp_bind.
  eapply (safe_mono _ _ _ _ h); [|exact Hm]. intros [a|e] h' Hs HQ; by apply HQ.
Qed.
Lemma safe_try A (m : M Ans S E A) (c : E → M Ans S E A) Q h :
  safe I m (λ r h', h ⊑ h' → match r with
                    | Ok a => Q (Ok a) h'
                    | Throw e => safe I (c e) Q h'
                    end) h →
  safe I (try_catch m c) Q h.
Proof.
  intros Hm. unfold safe, try_catch in *. apply wp_bind.
  eapply (safe_mono _ _ _ _ h); [|exact Hm]. intros [a|e] h' Hs HQ; by apply HQ.
Qed.
Lemma safe_finally A (m : M Ans S E A) (f : res E A → M Ans S E unit) Q h :
  safe I m (λ r h', h ⊑ h' → safe I (f r) (λ _ h'', Q r h'') h') h → safe I (finally m f) Q h.
Proof.
  intros Hm. unfold safe, finally in *. apply wp_bind.
  eapply (safe_mono _ _ _ _ h); [|exact Hm]. intros r h' Hs HQ. apply wp_bind. eapply wp_mono, HQ; [|done].
  done.
Qed.
Lemma safe_do c (Q : res E (cans c) → _ → Prop) h :
  lift I h c → (∀ r, Q (Ok r) (h ++ [ev c r])) → safe I (do c) Q h.
Proof. intros Hc HQ. split; [done|]. intros r. apply HQ. Qed.
Lemma safe_call o (Q : res E (Ans o) → _ → Prop) h :
  I h o → (∀ r h', h ⊑ h' → called h' o r → Q (Ok r) h') → safe I (call o) Q h.
Proof. intros Ho HQ. split; [done|]. intros r. apply HQ; [by apply sublist_inserts_r|apply called_snoc]. Qed.
Lemma safe_callE A o (view : Ans o → res E A) (Q : res E A → _ → Prop) h :
  I h o → (∀ r h', h ⊑ h' → called h' o r → Q (view r) h') → safe I (callE o view) Q h.
Proof. intros Ho HQ. split; [done|]. intros r. apply HQ; [by apply sublist_inserts_r|apply called_snoc]. Qed.
Lemma safe_get (Q : res E S → _ → Prop) h : (∀ s h', h ⊑ h' → saw h' s → Q (Ok s) h') → safe I getS Q h.
Proof. intros HQ. split; [done|]. intros r. apply HQ; [by apply sublist_inserts_r|apply saw_snoc]. Qed.
Lemma safe_gets A (f : S → A) (Q : res E A → _ → Prop) h :
  (∀ s h', h ⊑ h' → saw h' s → Q (Ok (f s)) h') → safe I (gets f) Q h.
Proof. intros HQ. split; [done|]. intros r. apply HQ; [by apply sublist_inserts_r|apply saw_snoc]. Qed.
Lemma safe_modify (f : S → S) (Q : res E unit → _ → Prop) h :
  (∀ h', h ⊑ h' → Q (Ok tt) h') → safe I (modify f) Q h.
Proof. intros HQ. split; [done|]. intros r. apply HQ. by apply sublist_inserts_r. Qed.

(** Loops: each turn is safe after whatever came before. *)
Lemma safe_for_each A (l : list A) (f : A → M Ans S E unit) (Q : res E unit → _ → Prop) h :
  (∀ x h', x ∈ l → h ⊑ h' → safe I (f x) (λ _ _, True) h') →
  (∀ r h', h ⊑ h' → Q r h') → safe I (for_each l f) Q h.
Proof.
  revert h. induction l as [|x l IH]; intros h Hf HQ; [by apply HQ|].
  simpl. apply safe_bind. eapply safe_mono; [|apply Hf; [by left|done]].
  intros [u|e] h' Hs _; intros _; [|by apply HQ]. apply IH.
  - intros y h'' Hy Hs'. apply Hf; [by right|by etransitivity].
  - intros r h'' Hs'. apply HQ. by etransitivity.
Qed.

(** Interleaved tasks: safe together when each is safe alone. *)
Lemma safe_par A B (m1 : io (cmd Op S E) cans A) (m2 : io (cmd Op S E) cans B) Q1 Q2 h1 h2 h :
  h1 ⊑ h → h2 ⊑ h → safe I m1 Q1 h1 → safe I m2 Q2 h2 →
  safe I (par m1 m2) (λ '(a, b) h', (∃ ha, ha ⊑ h' ∧ Q1 a ha) ∧ ∃ hb, hb ⊑ h' ∧ Q2 b hb) h.
Proof using HI.
  revert m2 h1 h2 h. induction m1 as [a|c1 k1 IH1]; intros m2 h1 h2 h Hs1 Hs2 H1 H2.
  - simpl. unfold safe. apply wp_bind. eapply (safe_mono _ _ (λ b h', ∃ hb, hb ⊑ h' ∧ Q2 b hb)).
    + intros b h' Hs HQ2. split; [exists h1; split; [by etransitivity|done]|done].
    + eapply (safe_later _ m2 Q2); [exact Hs2| |exact H2]. intros b h' h'' Hs HQ2. by exists h'.
  - revert h1 h2 h Hs1 Hs2 H1 H2. induction m2 as [b|c2 k2 IH2]; intros h1 h2 h Hs1 Hs2 H1 H2.
    + change (par (Vis c1 k1) (Ret b)) with (io_bind (λ a, Ret (a, b)) (Vis c1 k1)).
      unfold safe. apply wp_bind. eapply (safe_mono _ _ (λ a h', ∃ ha, ha ⊑ h' ∧ Q1 a ha)).
      * intros a h' Hs HQ1. split; [done|exists h2; split; [by etransitivity|done]].
      * eapply (safe_later _ (Vis c1 k1) Q1); [exact Hs1| |exact H1]. intros a h' h'' Hs HQ1. by exists h'.
    + split; [done|]. intros first.
      assert (Hs1' : h1 ⊑ h ++ [ev (Ans := cans) Pick first]) by (etransitivity; [exact Hs1|by apply sublist_inserts_r]).
      assert (Hs2' : h2 ⊑ h ++ [ev (Ans := cans) Pick first]) by (etransitivity; [exact Hs2|by apply sublist_inserts_r]).
      destruct first.
      * destruct H1 as [Hc1 Hk1]. split; [exact (lift_mono _ _ _ Hs1' Hc1)|]. intros r.
        apply (IH1 r (Vis c2 k2) (h1 ++ [ev c1 r]) h2); [by apply sublist_snoc| |apply Hk1|exact H2].
        etransitivity; [exact Hs2'|by apply sublist_inserts_r].
      * destruct H2 as [Hc2 Hk2]. split; [exact (lift_mono _ _ _ Hs2' Hc2)|]. intros r.
        apply (IH2 r h1 (h2 ++ [ev c2 r])); [|by apply sublist_snoc|exact H1|apply Hk2].
        etransitivity; [exact Hs1'|by apply sublist_inserts_r].
Qed.
Lemma safe_par_list A (ms : list (io (cmd Op S E) cans A)) h :
  Forall (λ m, safe I m (λ _ _, True) h) ms → safe I (par_list ms) (λ _ _, True) h.
Proof using HI.
  induction 1 as [|m ms Hm _ IH]; [done|]. simpl. unfold safe. apply wp_bind.
  eapply wp_mono, (safe_par _ _ _ _ _ _ h h h); [|done|done|exact Hm|exact IH]. by intros [a b].
Qed.
End Rules.

(** ** Budgets: at most [n] calls that [sel] picks, whatever the answers *)
Section Budget.
Context {Op : Type} {Ans : Op → Type} {S E : Type} (sel : Op → bool).
Definition picks (c : cmd Op S E) : bool := match c with Call o => sel o | _ => false end.
Fixpoint atMost {A} (n : nat) (m : io (cmd Op S E) (cans (Ans := Ans)) A) : Prop :=
  match m with
  | Ret _ => True
  | Vis c k =>
      if picks c then match n with 0 => False | Datatypes.S n => ∀ r, atMost n (k r) end
      else ∀ r, atMost n (k r)
  end.
Definition spent (h : hist Ans S E) : nat := sum_list ((λ e, Nat.b2n (picks (projT1 e))) <$> h).
Lemma atMost_weaken {A} n n' (m : io _ _ A) : n ≤ n' → atMost n m → atMost n' m.
Proof.
  revert n n'. induction m as [a|c k IH]; intros n n' Hle; [done|]. cbn [atMost].
  destruct (picks c); [|by intros H r; eapply IH].
  destruct n as [|n], n' as [|n']; try done; [lia|]. intros H r. eapply IH, H. lia.
Qed.
Lemma atMost_bind {A B} n n' (f : A → io _ _ B) (m : io _ _ A) :
  atMost n m → (∀ a, atMost n' (f a)) → atMost (n + n') (io_bind f m).
Proof.
  intros Hm Hf. revert n Hm. induction m as [a|c k IH]; intros n Hm.
  - eapply atMost_weaken, Hf. lia.
  - cbn [atMost io_bind] in *. destruct (picks c); [|intros r; by apply IH].
    destruct n as [|n]; [done|]. intros r. by apply IH.
Qed.
Lemma atMost_bindM {A B} n n' (f : A → M Ans S E B) (m : M Ans S E A) :
  atMost n m → (∀ a, atMost n' (f a)) → atMost (n + n') (bindM m f).
Proof. intros Hm Hf. apply atMost_bind; [done|]. intros [a|e]; [apply Hf|done]. Qed.
Lemma atMost_try {A} n n' (h : E → M Ans S E A) (m : M Ans S E A) :
  atMost n m → (∀ e, atMost n' (h e)) → atMost (n + n') (try_catch m h).
Proof. intros Hm Hf. apply atMost_bind; [done|]. intros [a|e]; [done|apply Hf]. Qed.
Lemma atMost_spent {A} n (m : io _ _ A) h m' : atMost n m → reach m h m' → spent h ≤ n.
Proof.
  intros Hn Hr. revert n Hn. induction Hr as [m|c k r h m' Hr IH]; intros n Hn; [cbn; lia|].
  cbn [atMost] in Hn. unfold spent in *. cbn [fmap list_fmap sum_list projT1 ev]. destruct (picks c).
  - destruct n as [|n]; [done|]. cbn [Nat.b2n Nat.add]. apply le_n_S, IH, Hn.
  - apply IH, Hn.
Qed.
End Budget.
Arguments spent {Op Ans S E} sel h.

(** Step through client code with the rules above. *)
Ltac safe_step :=
  match goal with
  | |- safe _ (mret' _) _ _ => apply safe_ret
  | |- safe _ (throw _) _ _ => apply safe_throw
  | |- safe _ (bindM _ _) _ _ => apply safe_bind
  | |- safe _ (try_catch _ _) _ _ => apply safe_try
  | |- safe _ (finally _ _) _ _ => apply safe_finally
  | |- safe _ getS _ _ => apply safe_get
  | |- safe _ (gets _) _ _ => apply safe_gets
  | |- safe _ (modify _) _ _ => apply safe_modify
  | |- safe _ (call _) _ _ => apply safe_call
  | |- safe _ (callE _ _) _ _ => apply safe_callE
  end.

(** Close a goal [h ⊑ h'] by a chain of the hypotheses. *)
Ltac chain :=
  first
    [ assumption | reflexivity
    | match goal with
      | H : ?h ⊑ ?h1 |- ?h ⊑ _ => etransitivity; [exact H|clear H; chain]
      end ].
