(* ===== verification/Configwalk.v ===== *)
(** * Configwalk: the bounded parallel walk of the configuration folder
    ([client/src/configwalk.ts])

    [Semaphore] is the counting semaphore that caps the adapter calls in flight;
    [Walk] the recursive walk, whose [Promise.all] is an interleaving of the
    tasks.  The walk is stated over any adapter: its two calls are parameters. *)

From S2P Require Import Prelude Effects.

(** ** The semaphore *)
Module Semaphore.

(** [avail], [q] (the waiting calls, by number) and the calls that own a slot:
    handed to a waiter at once, so a waiter owns it before it resumes. *)
Record Sem := { avail : nat; q : list nat; owners : list nat }.
Definition new (n : Z) : Sem := {| avail := Z.to_nat (Z.max 1 n); q := []; owners := [] |}.
(** The entry of [run]. *)
Definition acquire (id : nat) (s : Sem) : Sem :=
  match avail s with
  | 0 => {| avail := 0; q := q s ++ [id]; owners := owners s |}
  | S a => {| avail := a; q := q s; owners := id :: owners s |}
  end.
(** The [finally] of [run]. *)
Definition release (id : nat) (s : Sem) : Sem :=
  let rest := filter (λ i, i ≠ id) (owners s) in
  match q s with
  | w :: q => {| avail := avail s; q := q; owners := w :: rest |}
  | [] => {| avail := S (avail s); q := []; owners := rest |}
  end.

(** Calls come with fresh numbers, and only an owner's function can finish. *)
Inductive step : Sem → Sem → Prop :=
| step_run id s : id ∉ q s → id ∉ owners s → step s (acquire id s)
| step_done id s : id ∈ owners s → step s (release id s).

Record Inv (limit : nat) (s : Sem) : Prop := {
  inv_slots : length (owners s) + avail s = limit;
  inv_busy : q s ≠ [] → avail s = 0;
  inv_nodup : NoDup (q s ++ owners s)
}.
Lemma filter_ne_length (id : nat) l : NoDup l → id ∈ l → S (length (filter (λ i, i ≠ id) l)) = length l.
Proof.
  induction 1 as [|x l Hx Hl IH]; [by intros ?%not_elem_of_nil|]. rewrite elem_of_cons.
  destruct (decide (x = id)) as [->|Hne].
  - intros _. rewrite filter_cons_False by (by intros ?). cbn. f_equal. clear IH Hl.
    induction l as [|y l IH]; [done|]. apply not_elem_of_cons in Hx as [Hy Hx].
    rewrite filter_cons_True by (by intros ->). cbn. by rewrite IH.
  - intros [?|Hin]; [by subst|]. rewrite filter_cons_True by done. cbn. by rewrite IH.
Qed.
Lemma step_inv limit s s' : Inv limit s → step s s' → Inv limit s'.
Proof.
  intros Hinv Hstep. destruct Hstep as [id s0 Hq Ho|id s0 Hin]; destruct Hinv as [Hs Hb Hn].
  - unfold acquire. destruct (avail s0) as [|a] eqn:Ha; constructor; cbn; try done.
    + rewrite <- app_assoc. cbn. rewrite <- Permutation_middle. constructor; [|done]. rewrite elem_of_app. tauto.
    + lia.
    + intros Hne. specialize (Hb Hne). lia.
    + rewrite <- Permutation_middle. constructor; [|done]. rewrite elem_of_app. tauto.
  - apply NoDup_app in Hn as (Hnq & Hd & Hno). pose proof (filter_ne_length id _ Hno Hin) as Hlen.
    assert (Hsub : NoDup (filter (λ i, i ≠ id) (owners s0))) by (by apply NoDup_filter).
    unfold release. destruct (q s0) as [|w q'] eqn:Hq; constructor; cbn; try done; try lia.
    + intros _. apply Hb. done.
    + apply NoDup_cons in Hnq as [Hw Hnq].
      rewrite <- Permutation_middle. constructor.
      * rewrite elem_of_app. intros [?|[_ Hf]%list_elem_of_filter]; [done|]. by apply (Hd w); [left|].
      * apply NoDup_app. split_and!; [done| |done]. intros x Hx [_ Hf]%list_elem_of_filter. apply (Hd x); [by right|done].
Qed.
Inductive reachable (n : Z) : Sem → Prop :=
| reachable_new : reachable n (new n)
| reachable_step s s' : reachable n s → step s s' → reachable n s'.
Lemma reachable_inv n s : reachable n s → Inv (Z.to_nat (Z.max 1 n)) s.
Proof.
  induction 1 as [|s s' _ IH Hs]; [|by eapply step_inv]. constructor; cbn; [lia|done|constructor].
Qed.

(** The cap holds and no slot is lost: in every reachable state of the
    semaphore at most [max 1 limit] calls own a slot, a call waits only while
    all slots are owned, and the waiters are served in order of arrival: when
    an owner finishes, the first waiter owns its slot at once. *)
Theorem semaphore_caps n s :
  reachable n s →
  length (owners s) ≤ Z.to_nat (Z.max 1 n) ∧
  (q s ≠ [] → length (owners s) = Z.to_nat (Z.max 1 n)) ∧
  (∀ id w ws, id ∈ owners s → q s = w :: ws → w ∈ owners (release id s) ∧ q (release id s) = ws) ∧
  (q s ≠ [] → owners s ≠ []).
Proof.
  intros [Hs Hb _]%reachable_inv. split_and!.
  - lia.
  - intros Hq. specialize (Hb Hq). lia.
  - intros id w ws _ Hq. unfold release. rewrite Hq. split; [left|done].
  - intros Hq. specialize (Hb Hq). destruct (owners s); cbn in *; [lia|done].
Qed.
Example semaphore_caps_witness :
  let s := acquire 2 (acquire 1 (acquire 0 (new 2))) in
  q s = [2] ∧ owners (release 0 s) = [2; 1] ∧ length (owners s) ≤ 2.
Proof.
  cbv zeta. split; [reflexivity|]. split; [reflexivity|].
  apply (semaphore_caps 2 (acquire 2 (acquire 1 (acquire 0 (new 2))))).
  eapply reachable_step; [eapply reachable_step; [eapply reachable_step; [apply reachable_new|]|]|].
  all: apply step_run; cbn; set_solver.
Defined.
End Semaphore.

(** ** Schedule-independent trees

    [evals w m a]: against a world [w] that answers a call always alike, [m]
    returns [a] whatever the scheduler picks. *)
Section Evals.
Context {Op : Type} {Ans : Op → Type} {S E : Type} (w : ∀ o, Ans o).
Definition still (u : unit) (o : Op) : Ans o * unit := (w o, u).
Inductive evals {A} : io (cmd Op S E) (cans (Ans := Ans)) A → A → Prop :=
| evals_ret a : evals (Ret a) a
| evals_call o k a : evals (k (w o)) a → evals (Vis (Call o) k) a
| evals_pick k a : (∀ b, evals (k b) a) → evals (Vis Pick k) a.
Lemma evals_run {A} (m : io (cmd Op S E) cans A) a :
  evals m a → ∀ sched c, (run still sched m c).1 = a.
Proof.
  induction 1 as [a|o k a _ IH|k a _ IH]; intros sched c; [done|apply IH|]. cbn. apply IH.
Qed.
Lemma evals_bind {A B} (f : A → io (cmd Op S E) cans B) m a b :
  evals m a → evals (f a) b → evals (io_bind f m) b.
Proof.
  intros Hm Hf. induction Hm as [a|o k a _ IH|k a _ IH]; [done|..]; constructor; auto.
Qed.
Lemma evals_par {A B} (m1 : io (cmd Op S E) cans A) (m2 : io (cmd Op S E) cans B) a b :
  evals m1 a → evals m2 b → evals (par m1 m2) (a, b).
Proof.
  intros H1. revert m2 b. induction H1 as [a|o k a H1 IH|k a H1 IH]; intros m2 b H2.
  - cbn. eapply evals_bind; [exact H2|constructor].
  - assert (Hm : evals (Vis (Call o) k) a) by by constructor.
    induction H2 as [b|o2 k2 b H2 IH2|k2 b H2 IH2].
    + change (par (Vis (Call o) k) (Ret b)) with (io_bind (λ a, Ret (a, b)) (Vis (Call o) k)).
      eapply evals_bind; [exact Hm|constructor].
    + apply evals_pick. intros [|]; apply evals_call; [apply IH; by constructor|apply IH2].
    + apply evals_pick. intros [|]; [apply evals_call, IH; by constructor|]. apply evals_pick. intros c. apply IH2.
  - assert (Hm : evals (Vis Pick k) a) by by constructor.
    induction H2 as [b|o2 k2 b H2 IH2|k2 b H2 IH2].
    + change (par (Vis Pick k) (Ret b)) with (io_bind (λ a, Ret (a, b)) (Vis Pick k)).
      eapply evals_bind; [exact Hm|constructor].
    + apply evals_pick. intros [|]; [apply evals_pick; intros c; apply IH; by constructor|apply evals_call, IH2].
    + apply evals_pick. intros [|]; apply evals_pick; intros c; [apply IH; by constructor|apply IH2].
Qed.
Lemma evals_par_list {A} (ms : list (io (cmd Op S E) cans A)) l : Forall2 evals ms l → evals (par_list ms) l.
Proof.
  induction 1 as [|m a ms l Hm _ IH]; [constructor|]. cbn. eapply evals_bind; [by apply evals_par|constructor].
Qed.
End Evals.

(** ** The walk *)
Module Walk.

(** What [adapter.list] and [adapter.stat] give. *)
Record Listing := { files : list jstr; folders : list jstr }.
Record WalkStat := { mtime : option Z; size : option Z; ctime : option Z }.
Record WalkEntry := { e_mtime : Z; e_size : Z; e_ctime : option Z }.
Definition entryOf (st : option WalkStat) : WalkEntry :=
  {| e_mtime := default 0%Z (st ≫= mtime); e_size := default 0%Z (st ≫= size); e_ctime := st ≫= ctime |}.
(** The entries found, and the two counters. *)
Record Found := { entries : list (jstr * WalkEntry); dirs : nat; statted : nat }.
Definition nothing : Found := {| entries := []; dirs := 0; statted := 0 |}.
Definition both (a b : Found) : Found :=
  {| entries := entries a ++ entries b; dirs := dirs a + dirs b; statted := statted a + statted b |}.
Definition together : list Found → Found := foldr both nothing.
Definition oneDir (f : Found) : Found := {| entries := entries f; dirs := S (dirs f); statted := statted f |}.
Definition oneFile (l : list (jstr * WalkEntry)) : Found := {| entries := l; dirs := 0; statted := 1 |}.

Section Walk.
Context {Op : Type} {Ans : Op → Type} {S E : Type}.
Context (list_ : jstr → M Ans S E Listing) (stat : jstr → M Ans S E (option WalkStat))
        (onListError : jstr → E → M Ans S E unit) (passes : jstr → bool).

(** One [stat] task. *)
Definition statFile (p : jstr) : io (cmd Op S E) (cans (Ans := Ans)) Found :=
  io_bind (λ r, Ret match r with Ok st => oneFile [(p, entryOf st)] | Throw _ => oneFile [] end) (stat p).
(** [walk(dir)], to a depth of [fuel] folders.  The order of the entries is the
    order in which the tasks are started. *)
Fixpoint walk (fuel : nat) (dir : jstr) : io (cmd Op S E) (cans (Ans := Ans)) Found :=
  match fuel with
  | 0 => Ret nothing
  | Datatypes.S fuel =>
      io_bind (λ r,
        match r with
        | Throw e => io_bind (λ _, Ret (oneDir nothing)) (onListError dir e)
        | Ok l =>
            io_bind (λ fs, Ret (oneDir (together fs)))
              (par_list ((statFile <$> filter (λ p, passes p) (files l)) ++ (walk fuel <$> folders l)))
        end) (list_ dir)
  end.
Definition walkConfigTree (fuel : nat) (root : jstr) : M Ans S E Found := io_bind (λ f, Ret (Ok f)) (walk fuel root).

(** ** The sequential walk over a tree that stands still *)
Context (w : ∀ o, Ans o) (wl : jstr → res E Listing) (ws : jstr → res E (option WalkStat)).
Definition statSeq (p : jstr) : Found :=
  match ws p with Ok st => oneFile [(p, entryOf st)] | Throw _ => oneFile [] end.
Fixpoint walkSeq (fuel : nat) (dir : jstr) : Found :=
  match fuel with
  | 0 => nothing
  | Datatypes.S fuel =>
      match wl dir with
      | Throw _ => oneDir nothing
      | Ok l => oneDir (together ((statSeq <$> filter (λ p, passes p) (files l)) ++ (walkSeq fuel <$> folders l)))
      end
  end.
Hypothesis list_evals : ∀ d, evals w (list_ d) (wl d).
Hypothesis stat_evals : ∀ p, evals w (stat p) (ws p).
Hypothesis report_evals : ∀ d e, ∃ r, evals w (onListError d e) r.

Lemma walk_evals fuel dir : evals w (walk fuel dir) (walkSeq fuel dir).
Proof using list_evals report_evals stat_evals.
  revert dir. induction fuel as [|fuel IH]; intros dir; [constructor|]. cbn [walk walkSeq].
  eapply evals_bind; [apply list_evals|]. destruct (wl dir) as [l|e].
  - eapply evals_bind; [|constructor]. apply evals_par_list, Forall2_app.
    + apply Forall2_fmap_2, Forall_Forall2_diag, Forall_forall. intros p _.
      eapply evals_bind; [apply stat_evals|]. unfold statSeq. destruct (ws p); constructor.
    + apply Forall2_fmap_2, Forall_Forall2_diag, Forall_forall. intros p _. apply IH.
  - destruct (report_evals dir e) as [r Hr]. eapply evals_bind; [exact Hr|constructor].
Qed.

(** Folder [d] lies [n] folders below [root], through folders that can be listed. *)
Inductive below (root : jstr) : nat → jstr → Prop :=
| below_root : below root 0 root
| below_child n d l f : below root n d → wl d = Ok l → f ∈ folders l → below root (Datatypes.S n) f.
Lemma below_under root d l f n : wl root = Ok l → f ∈ folders l → below f n d → below root (Datatypes.S n) d.
Proof.
  intros Hl Hf. induction 1 as [|n d l' g Hb IH Hl' Hg]; [by econstructor; [constructor|..]|by econstructor].
Qed.
Lemma below_inv root n d :
  below root n d → (n = 0 ∧ d = root) ∨ ∃ l f n', n = Datatypes.S n' ∧ wl root = Ok l ∧ f ∈ folders l ∧ below f n' d.
Proof.
  induction 1 as [|n d l f Hb IH Hl Hf]; [by left|]. right. destruct IH as [[-> ->]|(l' & g & n' & -> & Hl' & Hg & Hb')].
  - exists l, f, 0. split_and!; [done..|constructor].
  - exists l', g, (Datatypes.S n'). split_and!; [done..|]. by econstructor.
Qed.
Lemma elem_of_together e fs : e ∈ entries (together fs) ↔ ∃ f, f ∈ fs ∧ e ∈ entries f.
Proof.
  induction fs as [|f fs IH]; cbn.
  - split; [by intros ?%not_elem_of_nil|]. by intros (f & ?%not_elem_of_nil & _).
  - rewrite elem_of_app, IH. setoid_rewrite elem_of_cons. naive_solver.
Qed.
Definition found (root : jstr) (fuel : nat) (e : jstr * WalkEntry) : Prop :=
  ∃ n d l st, n < fuel ∧ below root n d ∧ wl d = Ok l ∧ e.1 ∈ files l ∧ passes e.1 = true ∧
    ws e.1 = Ok st ∧ e.2 = entryOf st.
Lemma walkSeq_found fuel root e : e ∈ entries (walkSeq fuel root) ↔ found root fuel e.
Proof.
  revert root. induction fuel as [|fuel IH]; intros root.
  - cbn. split; [by intros ?%not_elem_of_nil|]. intros (n & d & l & st & ? & _). lia.
  - cbn [walkSeq]. destruct (wl root) as [l|er] eqn:Hl; cbn.
    + rewrite elem_of_together. setoid_rewrite elem_of_app. split.
      * intros (f & [(p & -> & [Hp Hpf]%list_elem_of_filter)%list_elem_of_fmap|(g & -> & Hg)%list_elem_of_fmap] & He).
        -- unfold statSeq in He. destruct (ws p) as [st|] eqn:Hs; cbn in He; [|by apply not_elem_of_nil in He].
           apply list_elem_of_singleton in He as ->. exists 0, root, l, st. cbn.
           split_and!; [lia|constructor|done|done|by apply Is_true_true_1|done|done].
        -- apply IH in He as (n & d & l' & st & Hn & Hb & Hr). exists (Datatypes.S n), d, l', st.
           split_and!; [lia|by eapply below_under|apply Hr..].
      * intros (n & d & l' & st & Hn & Hb & Hl' & Hf & Hp & Hs & He).
        apply below_inv in Hb as [[-> ->]|(l2 & g & n' & -> & Hl2 & Hg & Hb)].
        -- rewrite Hl in Hl'. injection Hl' as <-. exists (statSeq e.1). split.
           ++ left. apply list_elem_of_fmap_2, list_elem_of_filter. split; [by apply Is_true_true_2|done].
           ++ unfold statSeq. rewrite Hs. cbn. rewrite <- He. apply list_elem_of_singleton. by destruct e.
        -- rewrite Hl in Hl2. injection Hl2 as <-. exists (walkSeq fuel g). split; [right; by apply list_elem_of_fmap_2|].
           apply IH. exists n', d, l', st. split_and!; [lia|done..].
    + split; [by intros ?%not_elem_of_nil|]. intros (n & d & l & st & _ & Hb & Hr).
      apply below_inv in Hb as [[-> ->]|(l2 & g & n' & -> & Hl2 & _)]; destruct_and!; congruence.
Qed.

(** The parallel walk finds what the sequential one finds, under every
    interleaving of its tasks: on a tree that stands still it returns exactly the
    files that pass, that can be statted and that lie in a folder reachable
    through folders that can be listed; a folder that cannot be listed loses its
    own subtree and nothing else. *)
Theorem walk_exact fuel root :
  ∀ sched c, ∃ f, (run (still w) sched (walkConfigTree fuel root) c).1 = Ok f ∧
    (∀ e, e ∈ entries f ↔ found root fuel e) ∧ f = walkSeq fuel root.
Proof using list_evals report_evals stat_evals.
  intros sched c. exists (walkSeq fuel root). split_and!; [|intros e; apply walkSeq_found|done].
  apply evals_run. eapply evals_bind; [apply walk_evals|constructor].
Qed.
End Walk.

(** A tree of two folders, one of which cannot be listed. *)
Inductive DemoOp := DList (d : jstr) | DStat (p : jstr).
Definition DemoAns (o : DemoOp) : Type := match o with DList _ => res unit Listing | DStat _ => res unit (option WalkStat) end.
Definition demoList (d : jstr) : res unit Listing :=
  if d === js ".obsidian" then Ok {| files := [js ".obsidian/app.json"]; folders := [js ".obsidian/plugins"; js ".obsidian/themes"] |}
  else if d === js ".obsidian/themes" then Ok {| files := [js ".obsidian/themes/a.css"]; folders := [] |}
  else Throw tt.
Definition demoStat (p : jstr) : res unit (option WalkStat) := Ok (Some {| mtime := Some 7%Z; size := None; ctime := None |}).
Definition demoWorld (o : DemoOp) : DemoAns o := match o with DList d => demoList d | DStat p => demoStat p end.
Example walk_exact_witness :
  ∃ f, (run (still demoWorld) (λ _, false)
          (walkConfigTree (S := unit) (E := unit) (λ d, callE (Ans := DemoAns) (DList d) id) (λ p, callE (Ans := DemoAns) (DStat p) id)
             (λ _ _, mret' tt) (λ _, true) 4 (js ".obsidian")) (Conf tt tt [] 0)).1 = Ok f ∧
    length (entries f) = 2 ∧ dirs f = 3.
Proof.
  destruct (walk_exact (S := unit) (E := unit) (λ d, callE (Ans := DemoAns) (DList d) id) (λ p, callE (Ans := DemoAns) (DStat p) id)
              (λ _ _, mret' tt) (λ _, true) demoWorld demoList demoStat
              ltac:(by repeat constructor) ltac:(by repeat constructor) ltac:(by eexists; constructor)
              4 (js ".obsidian") (λ _, false) (Conf tt tt [] 0)) as (f & Hf & _ & Hw).
  exists f. split; [exact Hf|]. rewrite Hw. split; vm_compute; reflexivity.
Defined.
End Walk.
