(* ===== verification/Fsm.v ===== *)
(** * Fsm: the state-machine primitive of [client/src/fsm.ts]

    Every hazard-bearing state of the client is a machine built by
    [defineMachine].  A machine's rule table answers "no rule", a next state,
    or a next state with effects as data. *)

From S2P Require Import Prelude.

Section Machine.
Context {S E X : Type}.

(** What a rule table returns: [undefined], the state object it was given, a
    new state, or [{ state, effects }]. *)
Inductive rule : Type :=
| NoRule
| Stay
| Next (s : S)
| NextWith (s : S) (x : X).

Record MachineSpec : Type := {
  name : string;
  states : list string;
  events : list string;
  kindOf : S → string;
  eventKindOf : E → string;
  transition : S → E → rule;
  terminal : option (list string * list string);  (** terminal kinds, exits *)
  identical : S → S → bool;  (** [===] on two states: value equality for string
                                 states, [false] for two distinct objects *)
}.

Record Step : Type := { state : S; effects : option X; changed : bool }.

Record Machine : Type := {
  spec : MachineSpec;
  step : S → E → Step;
  next : S → E → S;
  isTerminal : S → bool;
}.

Definition terminalKinds (sp : MachineSpec) : list string :=
  match terminal sp with Some (ts, _) => ts | None => [] end.
Definition exitKinds (sp : MachineSpec) : list string :=
  match terminal sp with Some (_, xs) => xs | None => [] end.

Definition machineStep (sp : MachineSpec) (s : S) (e : E) : Step :=
  if bool_decide (kindOf sp s ∈ terminalKinds sp)
     && negb (bool_decide (eventKindOf sp e ∈ exitKinds sp))
  then {| state := s; effects := None; changed := false |}
  else match transition sp s e with
       | NoRule => {| state := s; effects := None; changed := false |}
       | Stay => {| state := s; effects := None; changed := false |}
       | NextWith s' x => {| state := s'; effects := Some x; changed := negb (identical sp s' s) |}
       | Next s' => {| state := s'; effects := None; changed := negb (identical sp s' s) |}
       end.

Definition defineMachine (sp : MachineSpec) : Machine := {|
  spec := sp;
  step := machineStep sp;
  next := λ s e, state (machineStep sp s e);
  isTerminal := λ s, bool_decide (kindOf sp s ∈ terminalKinds sp);
|}.

(** Drive every (state, event) pair once. *)
Record Covered : Type := { c_from : string; c_on : string; c_to : string; c_changed : bool }.
Definition tableCoverage (m : Machine) (ss : list S) (es : list E) : list Covered :=
  s ← ss; e ← es;
  let r := step m s e in
  [{| c_from := kindOf (spec m) s; c_on := eventKindOf (spec m) e;
      c_to := kindOf (spec m) (state r); c_changed := changed r |}].

(** A machine fed a sequence of events. *)
Definition run (m : Machine) (s : S) (es : list E) : S := fold_left (next m) es s.

(** Reachability over the machine's step relation. *)
Inductive reachable (m : Machine) (s0 : S) : S → Prop :=
| reachable_init : reachable m s0 s0
| reachable_step s e : reachable m s0 s → reachable m s0 (next m s e).

Implicit Types (sp : MachineSpec) (s : S) (e : E).

(** An event a terminal state does not list as an exit. *)
Definition blockedEvent sp s e : Prop :=
  kindOf sp s ∈ terminalKinds sp ∧ eventKindOf sp e ∉ exitKinds sp.

Lemma machineStep_blocked sp s e :
  blockedEvent sp s e →
  machineStep sp s e = {| state := s; effects := None; changed := false |}.
Proof.
  intros [Ht Hx]. unfold machineStep.
  by rewrite (bool_decide_eq_true_2 _ Ht), (bool_decide_eq_false_2 _ Hx).
Qed.

Lemma machineStep_free sp s e :
  ¬ blockedEvent sp s e →
  machineStep sp s e =
    match transition sp s e with
    | NoRule | Stay => {| state := s; effects := None; changed := false |}
    | NextWith s' x => {| state := s'; effects := Some x; changed := negb (identical sp s' s) |}
    | Next s' => {| state := s'; effects := None; changed := negb (identical sp s' s) |}
    end.
Proof.
  intros Hf. unfold machineStep, blockedEvent in *.
  repeat case_bool_decide; simpl; try naive_solver; by destruct (transition sp s e).
Qed.

Lemma run_reachable sp s0 es :
  reachable (defineMachine sp) s0 (run (defineMachine sp) s0 es).
Proof.
  cut (∀ s, reachable (defineMachine sp) s0 s →
            reachable (defineMachine sp) s0 (run (defineMachine sp) s es)).
  { intros H. apply H. constructor. }
  induction es as [|e es IH]; intros s Hs; [done|]. apply IH. by constructor.
Qed.

Lemma run_app m s es1 es2 : run m s (es1 ++ es2) = run m (run m s es1) es2.
Proof. apply fold_left_app. Qed.

(** Invariants by rule induction. *)
Lemma reachable_invariant m (P : S → Prop) s0 s :
  P s0 → (∀ s e, P s → P (next m s e)) → reachable m s0 s → P s.
Proof. intros H0 Hs. induction 1; auto. Qed.

Lemma run_invariant m (P : S → Prop) s0 es :
  P s0 → (∀ s e, P s → P (next m s e)) → P (run m s0 es).
Proof. intros H0 Hs. revert s0 H0. induction es; intros; [done|]. apply IHes. auto. Qed.

(** A declared terminal state is absorbing: whatever the rule table says,
    no sequence of events outside the declared exits moves the machine or
    produces an effect. *)
Theorem terminal_absorbing sp s es :
  kindOf sp s ∈ terminalKinds sp →
  Forall (λ e, eventKindOf sp e ∉ exitKinds sp) es →
  run (defineMachine sp) s es = s ∧
  Forall (λ e, step (defineMachine sp) s e
               = {| state := s; effects := None; changed := false |}) es.
Proof.
  intros Ht Hes. split.
  - induction Hes as [|e es He Hes IH]; [done|]. simpl.
    by rewrite machineStep_blocked by done.
  - eapply Forall_impl; [exact Hes|]. intros e He. by apply machineStep_blocked.
Qed.
End Machine.
Arguments rule : clear implicits.
Arguments MachineSpec : clear implicits.
Arguments Machine : clear implicits.
Arguments Step : clear implicits.

(** String-valued machines compare states by value. *)
Definition identity_of {T} `{EqDecision T} (a b : T) : bool := bool_decide (a = b).

(** A two-state machine with a terminal state, to run the definitions on. *)
Definition demoSpec : MachineSpec bool bool unit := {|
  name := "demo"; states := ["open"; "shut"]%string; events := ["stop"; "reset"]%string;
  kindOf := λ s : bool, if s then "open"%string else "shut"%string;
  eventKindOf := λ e : bool, if e then "stop"%string else "reset"%string;
  transition := λ (s e : bool), if e then Next false else Next true;
  terminal := Some (["shut"], ["reset"])%string;
  identical := identity_of;
|}.
Lemma terminal_absorbing_witness :
  run (defineMachine demoSpec) false [true; true] = false ∧
  Forall (λ e, step (defineMachine demoSpec) false e
               = {| state := false; effects := None; changed := false |}) [true; true].
Proof.
  apply (terminal_absorbing demoSpec false [true; true]); simpl.
  - by left.
  - repeat constructor; simpl; by intros [?|?%not_elem_of_nil]%elem_of_cons.
Defined.
