(* ===== verification/Connstate.v ===== *)
(** * Connstate: connection health ([client/src/connstate.ts], [connectdecisions.ts])

    The transport-error classifier, the recovery policy it selects, and the
    link machine ([linkMachine], STPA process model pmSession). *)

From S2P Require Import Prelude Regex Fsm.

Module Conn.

Inductive Endpoint := Login | VaultStatus | Chunk | Meta | Commit | OtherEndpoint.
Inductive SyntheticKind := SynVersionMismatch | SynSessionExpired | SynServerDegraded.
Inductive FailureKind :=
| Transient | ServerDegraded | LockedOut | AuthRejected | SessionExpired
| MfaRequired | Forbidden | MustChangePassword | VersionMismatch | VaultGone.

#[export] Instance Endpoint_eq_dec : EqDecision Endpoint.
Proof. solve_decision. Defined.
#[export] Instance FailureKind_eq_dec : EqDecision FailureKind.
Proof. solve_decision. Defined.

Record ConnErrorInfo := {
  status : option Z;
  retryAfterSecs : option Z;
  wasLogin : bool;
  endpoint : Endpoint;
  synthetic : option SyntheticKind;
  bodyHint : option jstr;
  hasStoredPassword : bool;
}.

(** Only [LockedOut] carries data. *)
Inductive FailureClass :=
| FTransient | FServerDegraded | FLockedOut (retryAfter : Z) | FAuthRejected
| FSessionExpired | FMfaRequired | FForbidden | FMustChangePassword
| FVersionMismatch | FVaultGone.

Definition kind_of_class (c : FailureClass) : FailureKind :=
  match c with
  | FTransient => Transient
  | FServerDegraded => ServerDegraded
  | FLockedOut _ => LockedOut
  | FAuthRejected => AuthRejected
  | FSessionExpired => SessionExpired
  | FMfaRequired => MfaRequired
  | FForbidden => Forbidden
  | FMustChangePassword => MustChangePassword
  | FVersionMismatch => VersionMismatch
  | FVaultGone => VaultGone
  end.

Inductive Recovery :=
| Backoff
| After (secs : Z)
| Slow (secs : Z)
| AwaitUser (reprobeSecs : Z).

Definition SLOW_RETRY_SECS : Z := 60.
Definition SELF_HEAL_REPROBE_SECS : Z := 600.

(** [/password.?change|change.?password/i] *)
Definition passwordHint (b : jstr) : bool :=
  rtest (RAlt (rseqs [rlit (js "password"); ropt RDot; rlit (js "change")])
              (rseqs [rlit (js "change"); ropt RDot; rlit (js "password")])) (lower b).

(** [\bmfa\b|authenticator|totp|two.?factor|one.?time], case-insensitive *)
Definition is_word (c : N) : bool := is_digit c || is_alpha c || bool_decide (c = 95%N).
Definition RNonWord : regex := RClass (λ c, negb (is_word c)).
Definition word_test (w b : jstr) : bool :=
  rmatch (rseqs [RAlt REps (RSeq RAny RNonWord); rlit w; RAlt REps (RSeq RNonWord RAny)]) b.
Definition mfaHint (b : jstr) : bool :=
  word_test (js "mfa") (lower b)
  || rtest (ralts [rlit (js "authenticator"); rlit (js "totp");
                   rseqs [rlit (js "two"); ropt RDot; rlit (js "factor")];
                   rseqs [rlit (js "one"); ropt RDot; rlit (js "time")]]) (lower b).

(** [bodyHint && re.test(bodyHint)] *)
Definition hinted (hint : option jstr) (f : jstr → bool) : bool :=
  match hint with Some b => truthy b && f b | None => false end.

Definition classifyByStatus (info : ConnErrorInfo) (st : Z) : FailureClass :=
  if (st =? 429)%Z then FLockedOut (default SLOW_RETRY_SECS (retryAfterSecs info))
  else if (st =? 503)%Z then FServerDegraded
  else if ((st =? 408) || (500 <=? st))%Z then FTransient
  else if (st =? 404)%Z then
    if decide (endpoint info = VaultStatus) then FVaultGone else FTransient
  else if (st =? 403)%Z then
    if hinted (bodyHint info) passwordHint then FMustChangePassword else FForbidden
  else if (st =? 401)%Z then
    if wasLogin info then
      if hinted (bodyHint info) mfaHint then FMfaRequired else FAuthRejected
    else if hasStoredPassword info then FAuthRejected else FSessionExpired
  else FServerDegraded.

Definition classifyConnectError (info : ConnErrorInfo) : FailureClass :=
  match synthetic info with
  | Some SynVersionMismatch => FVersionMismatch
  | Some SynSessionExpired => FSessionExpired
  | Some SynServerDegraded => FServerDegraded
  | None =>
      match status info with
      | None => FTransient
      | Some st => classifyByStatus info st
      end
  end.

Definition recoveryFor (fc : FailureClass) : Recovery :=
  match fc with
  | FTransient => Backoff
  | FServerDegraded => Slow SLOW_RETRY_SECS
  | FLockedOut secs => After secs
  | FAuthRejected | FSessionExpired | FMfaRequired | FForbidden
  | FMustChangePassword | FVersionMismatch | FVaultGone => AwaitUser SELF_HEAL_REPROBE_SECS
  end.

Inductive LinkState :=
| LinkOk
| Retrying (recovery : Recovery) (attempt : nat)
| Blocked (reason : FailureKind) (recovery : Recovery).

Inductive LinkEvent :=
| Connected
| Failed (cls : FailureClass).

Definition blockReasonOf (cls : FailureClass) : option FailureKind :=
  match recoveryFor cls with AwaitUser _ => Some (kind_of_class cls) | _ => None end.

Definition linkKind (s : LinkState) : string :=
  match s with LinkOk => "ok" | Retrying _ _ => "retrying" | Blocked _ _ => "blocked" end.
Definition linkEventKind (e : LinkEvent) : string :=
  match e with Connected => "connected" | Failed _ => "failed" end.

(** The rule table; [blockReasonOf cls] is there whenever the recovery awaits
    the user ([blockReason_iff]), which the code asserts with [!]. *)
Definition linkTransition (s : LinkState) (e : LinkEvent) : rule LinkState unit :=
  match e with
  | Connected => Next LinkOk
  | Failed cls =>
      let rec := recoveryFor cls in
      match rec with
      | AwaitUser _ => Next (Blocked (default Transient (blockReasonOf cls)) rec)
      | _ =>
          let attempt := match s with Retrying _ n => S n | _ => 1 end in
          Next (Retrying rec attempt)
      end
  end.

Definition linkSpec : MachineSpec LinkState LinkEvent unit := {|
  name := "pmSession";
  states := ["ok"; "retrying"; "blocked"]%string;
  events := ["connected"; "failed"]%string;
  kindOf := linkKind;
  eventKindOf := linkEventKind;
  transition := linkTransition;
  terminal := None;
  identical := λ _ _, false;
|}.
Definition linkMachine := defineMachine linkSpec.
Definition linkNext : LinkState → LinkEvent → LinkState := next linkMachine.

(** What a thrown error carries: a [ConnError]'s tags, or nothing. *)
Record ConnTags := {
  t_status : option Z; t_retryAfter : option Z; t_wasLogin : bool;
  t_endpoint : Endpoint; t_bodyHint : option jstr; t_synthetic : option SyntheticKind }.
Definition toConnErrorInfo (e : option ConnTags) (stored : bool) : ConnErrorInfo :=
  match e with
  | Some t => {| status := t_status t; retryAfterSecs := t_retryAfter t; wasLogin := t_wasLogin t;
                 endpoint := t_endpoint t; synthetic := t_synthetic t; bodyHint := t_bodyHint t;
                 hasStoredPassword := stored |}
  | None => {| status := None; retryAfterSecs := None; wasLogin := false;
               endpoint := OtherEndpoint; synthetic := None; bodyHint := None;
               hasStoredPassword := stored |}
  end.

(** The display phases of [syncstate.ts] a down link can project to. *)
Inductive Phase := POff | PConnecting | PIdle | PSyncing | PRetrying | PLockedOut | PBlocked.
#[export] Instance Phase_eq_dec : EqDecision Phase.
Proof. solve_decision. Defined.

Definition blockedTip (reason : FailureKind) : string :=
  match reason with
  | AuthRejected => "Sign-in rejected — check your password (Settings → Reconfigure)"
  | SessionExpired => "Session expired — open Settings → Reconfigure to sign in again"
  | MfaRequired => "Enter your authenticator code to sign in (Reconfigure)"
  | Forbidden => "Access to this vault was removed"
  | MustChangePassword => "You must change your password before syncing"
  | VersionMismatch => "Update needed — the plugin and server aren't compatible"
  | VaultGone => "This vault no longer exists on the server — re-create it or switch"
  | Transient | ServerDegraded | LockedOut => ""  (* not block reasons *)
  end.

(** [Math.max(1, Math.round(secs / 60))] for whole seconds *)
Definition lockMinutes (secs : Z) : Z := Z.max 1 ((secs + 30) / 60).

Definition linkPhase (link : LinkState) : Phase * string :=
  match link with
  | Blocked reason _ => (PBlocked, blockedTip reason)
  | Retrying (After secs) _ =>
      (PLockedOut, ("Too many attempts — retrying in " +:+ pretty.pretty (lockMinutes secs) +:+ "m")%string)
  | _ => (PRetrying, "Reconnecting…"%string)
  end.

(** [connectdecisions.ts] *)
Definition vaultKeyMismatch (storedKey currentKey historyKey : jstr) : bool :=
  if includes storedKey (js "|") then negb (storedKey === currentKey)
  else negb (storedKey === historyKey).
Definition switchAlreadyApplied (pendingSwitch baseVaultKey : option jstr)
    (currentKey : jstr) (baseNonEmpty : bool) : bool :=
  otruthy pendingSwitch && bool_decide (baseVaultKey = Some currentKey) && baseNonEmpty.
Inductive ResumeAction := ResumeConnect | ResumeReassess.
Definition resumeAction (engineState : string) : ResumeAction :=
  if decide (engineState = "disconnected"%string) then ResumeConnect else ResumeReassess.

(** ** Lemmas *)

Lemma linkNext_Connected s : linkNext s Connected = LinkOk.
Proof. done. Qed.
Lemma linkNext_Failed s cls :
  linkNext s (Failed cls) =
    match recoveryFor cls with
    | AwaitUser n => Blocked (kind_of_class cls) (AwaitUser n)
    | rec => Retrying rec (match s with Retrying _ n => S n | _ => 1 end)
    end.
Proof. by destruct cls. Qed.
#[export] Hint Rewrite linkNext_Connected linkNext_Failed : selfsync_rw.

Definition awaitsUser (cls : FailureClass) : bool :=
  match recoveryFor cls with AwaitUser _ => true | _ => false end.

Lemma blockReason_iff cls : is_Some (blockReasonOf cls) ↔ awaitsUser cls = true.
Proof. destruct cls; simpl; split; intros H; solve [done | by destruct H | by eexists]. Qed.

(** Seconds until the armed timer of a recovery can fire; [None] is the
    jittered backoff, whose delay is the caller's. *)
Definition recoveryDelay (r : Recovery) : option Z :=
  match r with Backoff => None | After s | Slow s | AwaitUser s => Some s end.

(** The classifier reports "vault gone" exactly for a 404 of the vault
    status probe without a synthetic tag; every other 404 is retried. *)
Theorem vaultGone_iff info :
  classifyConnectError info = FVaultGone ↔
  synthetic info = None ∧ status info = Some 404%Z ∧ endpoint info = VaultStatus.
Proof.
  unfold classifyConnectError, classifyByStatus. split.
  - intros H. repeat (case_match || case_decide); simplify_eq; split_and!;
      solve [done | f_equal; lia].
  - intros (-> & -> & ->). done.
Qed.

(** No failure strands the client.  For any thrown error (with a positive
    Retry-After when there is one) the link machine arms a recovery whose timer
    has a positive delay, it is blocked exactly when the recovery awaits the
    user, and a blocked link keeps the ten-minute self-heal probe. *)
Theorem failure_never_strands info s :
  (∀ n, retryAfterSecs info = Some n → 0 < n)%Z →
  let cls := classifyConnectError info in
  (∀ d, recoveryDelay (recoveryFor cls) = Some d → 0 < d)%Z ∧
  match linkNext s (Failed cls) with
  | LinkOk => False
  | Retrying r n => r = recoveryFor cls ∧ awaitsUser cls = false ∧ 1 ≤ n
  | Blocked reason r => r = AwaitUser 600 ∧ awaitsUser cls = true ∧
                        blockReasonOf cls = Some reason
  end.
Proof.
  intros Hpos cls. split.
  - intros d Hd. unfold cls, classifyConnectError, classifyByStatus in Hd.
    repeat (case_match || case_decide); simplify_eq/=; try done.
    destruct (retryAfterSecs info) as [n|] eqn:Hn; simpl; [by apply Hpos|done].
  - rewrite linkNext_Failed. destruct cls; simpl; split_and!; try done; destruct s; lia.
Qed.
Lemma failure_never_strands_witness :
  (0 < 30)%Z ∧
  linkNext (Retrying Backoff 2)
    (Failed (classifyConnectError
       {| status := Some 429%Z; retryAfterSecs := Some 30%Z; wasLogin := true; endpoint := Login;
          synthetic := None; bodyHint := None; hasStoredPassword := false |}))
  = Retrying (After 30) 3.
Proof.
  split; [done|].
  pose proof (failure_never_strands
    {| status := Some 429%Z; retryAfterSecs := Some 30%Z; wasLogin := true; endpoint := Login;
       synthetic := None; bodyHint := None; hasStoredPassword := false |} (Retrying Backoff 2)) as H.
  destruct H as [_ H]; [intros n [= <-]; done|].
  vm_compute in H |- *. reflexivity.
Defined.

(** The attempt counter counts the current run of consecutive retried
    failures: after a (re)connect and n retryable failures in a row the link is
    [Retrying] with attempt n, and one success clears it. *)
Theorem attempt_counts_consecutive s (fs : list FailureClass) :
  Forall (λ c, awaitsUser c = false) fs → fs ≠ [] →
  ∃ r, run linkMachine s (Connected :: lmap Failed fs) = Retrying r (length fs) ∧
       Some r = option_map recoveryFor (last fs) ∧
       linkNext (Retrying r (length fs)) Connected = LinkOk.
Proof.
  intros Hfs Hne.
  cut (∀ st k, (match st with Retrying _ n => n | _ => 0 end) = k →
        ∃ r, run linkMachine st (lmap Failed fs) = Retrying r (k + length fs) ∧
             Some r = option_map recoveryFor (last fs)).
  { intros H. destruct (H LinkOk 0 eq_refl) as (r & Hr & Hl). by exists r. }
  induction Hfs as [|c fs Hc Hfs IH]; [done|]. intros st k Hk.
  assert (linkNext st (Failed c) = Retrying (recoveryFor c) (S k)) as Hs.
  { rewrite linkNext_Failed. unfold awaitsUser in Hc. subst k. by destruct c, st. }
  destruct fs as [|c' fs].
  - exists (recoveryFor c). change (run linkMachine st _) with (linkNext st (Failed c)).
    rewrite Hs. split; [f_equal; simpl; lia|done].
  - destruct (IH ltac:(done) (Retrying (recoveryFor c) (S k)) (S k) eq_refl) as (r & Hr & Hl).
    exists r. split; [|done]. change (run linkMachine (linkNext st (Failed c)) (lmap Failed (c' :: fs))
            = Retrying r (k + length (c :: c' :: fs))).
    rewrite Hs, Hr. f_equal. simpl. lia.
Qed.
Lemma attempt_counts_consecutive_witness :
  ∃ r, run linkMachine (Blocked VaultGone (AwaitUser 600))
         (Connected :: lmap Failed [FTransient; FServerDegraded]) = Retrying r 2.
Proof.
  destruct (attempt_counts_consecutive (Blocked VaultGone (AwaitUser 600))
              [FTransient; FServerDegraded]) as (r & Hr & _).
  - repeat constructor.
  - discriminate.
  - exists r. exact Hr.
Defined.

(** A stored vault key that names a server ([host|owner/vault]) is compared in
    full, an older server-blind key only on owner/vault. *)
Theorem vaultKeyMismatch_spec storedKey currentKey historyKey :
  vaultKeyMismatch storedKey currentKey historyKey = false ↔
  storedKey = if includes storedKey (js "|") then currentKey else historyKey.
Proof.
  unfold vaultKeyMismatch. case_match; by rewrite negb_false_iff, jeq_true.
Qed.

End Conn.
