(* ===== verification/Status.v ===== *)
(** * Status: the status light and the realtime channel

    [client/src/syncstate.ts] (display projection), [statuslight.ts] (the
    minimum-show machine), [stall.ts], and [transportstate.ts] (the WebSocket
    health machine, STPA process model pmSyncEngine). *)

From S2P Require Import Prelude Fsm Connstate.
Import Conn.

Module Light.

Record LightSpec := { color : string; label : string; tip : string }.

Definition orElse (detail dflt : string) : string :=
  if decide (detail = ""%string) then dflt else detail.
Definition paren (detail : string) : string :=
  if decide (detail = ""%string) then "" else (" (" +:+ detail +:+ ")")%string.

Definition light (phase : Phase) (detail : string) (realtime : bool) : LightSpec :=
  let mk c t := {| color := c; label := "SelfSync"; tip := t |} in
  match phase with
  | PIdle =>
      if realtime then mk "var(--selfsync-green, var(--color-green))"%string ("Fully synced" +:+ paren detail)%string
      else mk "var(--color-yellow)"%string ("Synced — realtime reconnecting, polling" +:+ paren detail)%string
  | PSyncing => mk "var(--color-yellow)"%string
                   ("Syncing…" +:+ (if decide (detail = "") then "" else " " +:+ detail))%string
  | PConnecting => mk "var(--color-yellow)"%string "Connecting…"%string
  | PRetrying => mk "var(--color-red)"%string (orElse detail "Reconnecting…")
  | PLockedOut => mk "var(--color-orange)"%string (orElse detail "Too many attempts — retrying")
  | PBlocked => mk "var(--color-red)"%string (orElse detail "Sign-in needed — open Settings")
  | POff => mk "var(--text-faint)"%string "Not connected"%string
  end.

Definition effectivePhase (phase : Phase) (syncPending : Z) : Phase :=
  if decide (phase = PSyncing) then if (syncPending <=? 0)%Z then PIdle else phase else phase.

Definition isWsStale (lastActivityMs nowMs staleAfterMs : Z) : bool :=
  (staleAfterMs <? nowMs - lastActivityMs)%Z.

(** [stall.ts] *)
Inductive StallVerdict := NoStall | Throttled | Stalled.
Definition stallVerdict (lateMs : Z) (windowHidden : bool) (warnMs : Z) : StallVerdict :=
  if (lateMs <? warnMs)%Z then NoStall else if windowHidden then Throttled else Stalled.

(** [statuslight.ts] *)
Inductive LightEvent := EvPhase (p : Phase) | EvSettle.
Record LightDisplay := { shown : Phase; held : bool; deferred : option Phase }.
Record LightAction := { state : LightDisplay; arm : bool; disarm : bool }.

Definition isAttention (p : Phase) : bool :=
  bool_decide (p = PRetrying) || bool_decide (p = PBlocked) || bool_decide (p = PLockedOut).
Definition lightDisplayInit (p : Phase) : LightDisplay :=
  {| shown := p; held := false; deferred := None |}.

Definition nextLightDisplay (s : LightDisplay) (e : LightEvent) : LightAction :=
  match e with
  | EvPhase p =>
      if decide (p = PSyncing) then
        if decide (shown s = PSyncing) then
          {| state := {| shown := PSyncing; held := true; deferred := None |};
             arm := true; disarm := held s |}
        else
          {| state := {| shown := PSyncing; held := true; deferred := None |};
             arm := true; disarm := false |}
      else if isAttention p then
        {| state := {| shown := p; held := false; deferred := None |};
           arm := false; disarm := held s |}
      else if held s then
        {| state := {| shown := shown s; held := true; deferred := Some p |};
           arm := false; disarm := false |}
      else {| state := {| shown := p; held := false; deferred := None |};
              arm := false; disarm := false |}
  | EvSettle =>
      match deferred s with
      | Some p => {| state := {| shown := p; held := false; deferred := None |};
                     arm := false; disarm := false |}
      | None => {| state := {| shown := shown s; held := false; deferred := None |};
                   arm := false; disarm := false |}
      end
  end.

(** The caller's hold timer: [arm] starts it, [disarm] cancels it, [settle] is
    what it emits.  A configuration is a display and whether the timer runs;
    a [settle] only happens while it runs. *)
Record Lamp := { display : LightDisplay; timer : bool }.
Definition apply_timer (t : bool) (a : LightAction) : bool :=
  if arm a then true else if disarm a then false else t.
Inductive lamp_step : Lamp → LightEvent → Lamp → Prop :=
| lamp_phase l p :
    let a := nextLightDisplay (display l) (EvPhase p) in
    lamp_step l (EvPhase p) {| display := state a; timer := apply_timer (timer l) a |}
| lamp_settle l :
    timer l = true →
    let a := nextLightDisplay (display l) EvSettle in
    lamp_step l EvSettle {| display := state a; timer := apply_timer false a |}.
Inductive lamp_run : Lamp → list LightEvent → Lamp → Prop :=
| lamp_run_nil l : lamp_run l [] l
| lamp_run_snoc l es l' e l'' :
    lamp_run l es l' → lamp_step l' e l'' → lamp_run l (es ++ [e]) l''.

Definition lamp_init (p : Phase) : Lamp := {| display := lightDisplayInit p; timer := false |}.

(** The last phase the engine reported. *)
Definition last_phase (p0 : Phase) (es : list LightEvent) : Phase :=
  foldl (λ acc e, match e with EvPhase p => p | EvSettle => acc end) p0 es.

(** What a reachable lamp looks like: held exactly while the timer runs, only a
    sync is held, and outside the hold the light shows the engine's phase;
    inside it the deferred phase is the engine's latest resting one. *)
Definition lamp_inv (p : Phase) (l : Lamp) : Prop :=
  held (display l) = timer l ∧
  (held (display l) = true → shown (display l) = PSyncing) ∧
  match deferred (display l) with
  | Some d => held (display l) = true ∧ d = p ∧ isAttention p = false ∧ p ≠ PSyncing
  | None => shown (display l) = p
  end.

Lemma lamp_step_inv p l e l' :
  lamp_inv p l → lamp_step l e l' →
  lamp_inv (match e with EvPhase q => q | EvSettle => p end) l'.
Proof.
  intros (Ht & Hs & Hd) Hstep. destruct Hstep as [l q a|l Hrun a]; subst a;
    destruct l as [[sh he df] ti]; unfold lamp_inv, apply_timer; simpl in *.
  - repeat (case_decide || case_match); simplify_eq/=; split_and!; try done;
      try by destruct ti.
  - subst. destruct df; simplify_eq/=; naive_solver.
Qed.

(** Whatever the order of phases and timer firings, the light is truthful:
    a failure phase is shown at once; otherwise either it shows the engine's
    latest phase, or it is holding "syncing" with the timer running and that
    phase deferred, and the timer's next [settle] shows it. *)
Theorem light_truthful p0 es l :
  lamp_run (lamp_init p0) es l →
  let p := last_phase p0 es in
  (isAttention p = true → shown (display l) = p ∧ timer l = false) ∧
  (shown (display l) = p ∨
   (shown (display l) = PSyncing ∧ timer l = true ∧
    shown (state (nextLightDisplay (display l) EvSettle)) = p)).
Proof.
  intros Hrun. assert (lamp_inv (last_phase p0 es) l) as (Ht & Hs & Hd).
  { remember (lamp_init p0) as l0 eqn:Hl0.
    induction Hrun as [l0|l0 es l1 e l2 _ IH Hstep]; [by subst|].
    unfold last_phase. rewrite foldl_app. simpl. eapply lamp_step_inv, Hstep. by apply IH. }
  simpl. split.
  - intros Ha. destruct (deferred (display l)) as [d|].
    { destruct Hd as (_ & -> & Ha' & _). congruence. }
    split; [done|]. destruct (timer l); [|done].
    rewrite Hs in Hd by done. by rewrite <- Hd in Ha.
  - unfold nextLightDisplay. destruct (deferred (display l)) as [d|]; simpl; [|by left].
    destruct Hd as (Hh & -> & _). right. rewrite <- Ht. auto.
Qed.
Lemma light_truthful_witness :
  ∃ l, lamp_run (lamp_init POff) [EvPhase PSyncing; EvPhase PIdle] l ∧
       shown (display l) = PSyncing ∧ timer l = true.
Proof.
  eexists. split.
  - eapply (lamp_run_snoc _ [EvPhase PSyncing]); [|apply lamp_phase].
    eapply (lamp_run_snoc _ []); [constructor|apply lamp_phase].
  - match goal with |- context [shown (display ?l)] =>
      pose proof (light_truthful POff [EvPhase PSyncing; EvPhase PIdle] l) as H end.
    split; [|reflexivity].
    destruct H as [_ [H|[H _]]]; [|vm_compute in H; discriminate|exact H].
    eapply (lamp_run_snoc _ [EvPhase PSyncing]); [|apply lamp_phase].
    eapply (lamp_run_snoc _ []); [constructor|apply lamp_phase].
Defined.

End Light.

Module Transport.

Inductive TransportState := Offline | Dialing | Live | Degraded.
Inductive TransportEvent := Dial | Opened | Errored | Closed | StaleTick | Teardown.
#[export] Instance TransportState_eq_dec : EqDecision TransportState.
Proof. solve_decision. Defined.
#[export] Instance TransportEvent_eq_dec : EqDecision TransportEvent.
Proof. solve_decision. Defined.

Inductive Cadence := Active | Idle.
Inductive Redial := Delayed | Now.
Record TransportEffects := { poll : option Cadence; redial : option Redial; reconnect : bool }.
Definition noEffects : TransportEffects := {| poll := None; redial := None; reconnect := false |}.
Definition pollAt (c : Cadence) : TransportEffects :=
  {| poll := Some c; redial := None; reconnect := false |}.

Definition state_name (s : TransportState) : string :=
  match s with Offline => "offline" | Dialing => "dialing" | Live => "live" | Degraded => "degraded" end.
Definition event_name (e : TransportEvent) : string :=
  match e with
  | Dial => "dial" | Opened => "opened" | Errored => "errored" | Closed => "closed"
  | StaleTick => "staleTick" | Teardown => "teardown"
  end.

Definition wasOpened (s : TransportState) : bool :=
  match s with Live | Degraded => true | _ => false end.

Definition transportRules (s : TransportState) (e : TransportEvent) : TransportState * TransportEffects :=
  match e with
  | Teardown => (Offline, noEffects)
  | Dial => (Dialing, pollAt Active)
  | Opened => (Live, pollAt Idle)
  | Errored => if wasOpened s then (Degraded, pollAt Active) else (Dialing, pollAt Active)
  | Closed =>
      if wasOpened s
      then (Offline, {| poll := Some Active; redial := Some Delayed; reconnect := false |})
      else (Offline, {| poll := Some Active; redial := None; reconnect := true |})
  | StaleTick =>
      match s with
      | Live => (Degraded, {| poll := Some Active; redial := Some Now; reconnect := false |})
      | _ => (s, noEffects)
      end
  end.

Definition TRANSPORT_STATES : list TransportState := [Offline; Dialing; Live; Degraded].
Definition TRANSPORT_EVENTS : list TransportEvent := [Dial; Opened; Errored; Closed; StaleTick; Teardown].

Definition transportMachine := defineMachine {|
  name := "pmSyncEngine";
  states := state_name <$> TRANSPORT_STATES;
  events := event_name <$> TRANSPORT_EVENTS;
  kindOf := state_name;
  eventKindOf := event_name;
  transition := λ s e, let '(s', fx) := transportRules s e in NextWith s' fx;
  terminal := None;
  identical := identity_of;
|}.

Definition transportTransition (s : TransportState) (e : TransportEvent) : TransportState * TransportEffects :=
  let r := step transportMachine s e in (state r, default noEffects (effects r)).

Lemma transportTransition_rules s e : transportTransition s e = transportRules s e.
Proof. by destruct s, e. Qed.

(** Whether the current socket has reported [open]. *)
Definition step_opened (b : bool) (e : TransportEvent) : bool :=
  match e with Opened => true | Dial | Closed | Teardown => false | _ => b end.
Definition opened (es : list TransportEvent) : bool := foldl step_opened false es.

(** The redial-or-reconnect fork is taken on "this socket ever opened": after
    any sequence of socket events from start-up, a close re-dials the socket if
    it had reported [open] since it was dialled and otherwise asks for a full
    reconnect, never both and never neither; and realtime health is claimed only
    by a socket that opened. *)
Theorem close_fork es :
  let s := run transportMachine Offline es in
  let '(s', fx) := transportTransition s Closed in
  s' = Offline ∧ poll fx = Some Active ∧
  redial fx = (if opened es then Some Delayed else None) ∧
  reconnect fx = negb (opened es) ∧
  (s = Live → opened es = true).
Proof.
  assert (wasOpened (run transportMachine Offline es) = opened es) as Hw.
  { induction es as [|e es IH] using rev_ind; [done|].
    unfold opened in *. rewrite run_app, foldl_app. simpl.
    by destruct e, (run transportMachine Offline es). }
  cbv zeta. rewrite transportTransition_rules. simpl transportRules. rewrite Hw.
  destruct (opened es) eqn:Ho; split_and!; try done.
  intros HL. by rewrite HL in Hw.
Qed.

End Transport.
