(* ===== verification/Lifecycle.v ===== *)
(** * Lifecycle: mounts and conflict resolution

    [client/src/mountfsm.ts] (per-mount lifecycle, STPA process model pmMount,
    and the health fold behind the status light) and [resolvefsm.ts] (the
    Resolve-conflicts modal, process model pmResolver). *)

From S2P Require Import Prelude Fsm.

Module MountFsm.

Inductive MountState :=
| Detached | Mounting | Live | Syncing | Diverged | Offline | Unmounting | LocalGone | MFailed.
Inductive MountEvent :=
| EMount | EMounted | ESyncStart | ESyncSettled | EDiverge | EResolved | EDisconnect | EReconnect
| EUnmount | EUnmounted | EFail | ERetry | ELocalGone | EConflict | EReset.
#[export] Instance MountState_eq_dec : EqDecision MountState.
Proof. solve_decision. Defined.
#[export] Instance MountEvent_eq_dec : EqDecision MountEvent.
Proof. solve_decision. Defined.

Definition MOUNT_STATES : list MountState :=
  [Detached; Mounting; Live; Syncing; Diverged; Offline; Unmounting; LocalGone; MFailed].
Definition MOUNT_EVENTS : list MountEvent :=
  [EMount; EMounted; ESyncStart; ESyncSettled; EDiverge; EResolved; EDisconnect; EReconnect;
   EUnmount; EUnmounted; EFail; ERetry; ELocalGone; EConflict; EReset].

Definition mstate_name (s : MountState) : string :=
  match s with
  | Detached => "detached" | Mounting => "mounting" | Live => "live" | Syncing => "syncing"
  | Diverged => "diverged" | Offline => "offline" | Unmounting => "unmounting"
  | LocalGone => "localGone" | MFailed => "failed"
  end.
Definition mevent_name (e : MountEvent) : string :=
  match e with
  | EMount => "mount" | EMounted => "mounted" | ESyncStart => "syncStart"
  | ESyncSettled => "syncSettled" | EDiverge => "diverge" | EResolved => "resolved"
  | EDisconnect => "disconnect" | EReconnect => "reconnect" | EUnmount => "unmount"
  | EUnmounted => "unmounted" | EFail => "fail" | ERetry => "retry"
  | ELocalGone => "localGone" | EConflict => "conflict" | EReset => "reset"
  end.

Definition liveState (s : MountState) : bool :=
  match s with Mounting | Live | Syncing | Diverged | Offline => true | _ => false end.

Definition mountSwitch (s : MountState) (e : MountEvent) : rule MountState unit :=
  match s, e with
  | Detached, EMount => Next Mounting
  | Mounting, (EMounted | ESyncSettled) => Next Live
  | Mounting, EConflict => Next Diverged
  | Mounting, EDisconnect => Next Offline
  | Live, ESyncStart => Next Syncing
  | Live, (EDiverge | EConflict) => Next Diverged
  | Live, ESyncSettled => Next Live
  | Live, EDisconnect => Next Offline
  | Syncing, ESyncSettled => Next Live
  | Syncing, (EDiverge | EConflict) => Next Diverged
  | Syncing, EDisconnect => Next Offline
  | Diverged, (EResolved | ESyncSettled) => Next Live
  | Diverged, EConflict => Next Diverged
  | Diverged, EDisconnect => Next Offline
  | Offline, (EReconnect | ESyncSettled) => Next Live
  | Offline, EConflict => Next Diverged
  | Unmounting, EUnmounted => Next Detached
  | LocalGone, EMount => Next Mounting
  | MFailed, ERetry => Next Mounting
  | MFailed, EReset => Next Detached
  | _, _ => NoRule
  end.

Definition mountRules (s : MountState) (e : MountEvent) : rule MountState unit :=
  if bool_decide (e = EUnmount) && negb (bool_decide (s = Detached)) && negb (bool_decide (s = Unmounting))
  then Next Unmounting
  else if bool_decide (e = EFail) && negb (bool_decide (s = Detached)) && negb (bool_decide (s = Unmounting))
  then Next MFailed
  else if bool_decide (e = ELocalGone) && liveState s then Next LocalGone
  else mountSwitch s e.

Definition mountMachine := defineMachine {|
  name := "pmMount";
  states := mstate_name <$> MOUNT_STATES;
  events := mevent_name <$> MOUNT_EVENTS;
  kindOf := mstate_name;
  eventKindOf := mevent_name;
  transition := mountRules;
  terminal := None;
  identical := identity_of;
|}.
Definition mountTransition : MountState → MountEvent → MountState := next mountMachine.

Inductive Health := HError | HDiverged | HOffline | HBusy | HOk | HIdle.
#[export] Instance Health_eq_dec : EqDecision Health.
Proof. solve_decision. Defined.
Definition SEVERITY (h : Health) : nat :=
  match h with HError => 5 | HDiverged => 4 | HOffline => 3 | HBusy => 2 | HOk => 1 | HIdle => 0 end.

Definition mountHealth (s : MountState) : Health :=
  match s with
  | MFailed => HError
  | LocalGone => HDiverged
  | Diverged => HDiverged
  | Offline => HOffline
  | Mounting | Syncing | Unmounting => HBusy
  | Live => HOk
  | Detached => HIdle
  end.

Definition foldHealth (healths : list Health) : Health :=
  foldl (λ worst h, if SEVERITY worst <? SEVERITY h then h else worst) HIdle healths.

Record AggregateStatus := { health : Health; reason : string }.
Definition aggregateStatus (primaryHealth : Health) (mounts : list (string * MountState)) : AggregateStatus :=
  foldl (λ acc m,
      let h := mountHealth (m.2) in
      if SEVERITY (health acc) <? SEVERITY h
      then {| health := h; reason := ("mount " +:+ m.1)%string |} else acc)
    {| health := primaryHealth; reason := "primary" |} mounts.

Lemma SEVERITY_inj h1 h2 : SEVERITY h1 = SEVERITY h2 → h1 = h2.
Proof. by destruct h1, h2. Qed.

Lemma foldHealth_snoc l h :
  foldHealth (l ++ [h]) = if SEVERITY (foldHealth l) <? SEVERITY h then h else foldHealth l.
Proof. unfold foldHealth. by rewrite foldl_app. Qed.
Lemma aggregate_snoc p mounts lbl s :
  aggregateStatus p (mounts ++ [(lbl, s)]) =
  let acc := aggregateStatus p mounts in
  if SEVERITY (health acc) <? SEVERITY (mountHealth s)
  then {| health := mountHealth s; reason := ("mount " +:+ lbl)%string |} else acc.
Proof. unfold aggregateStatus. by rewrite foldl_app. Qed.

(** A mount whose local folder was deleted is held: no sequence of poll
    outcomes (settled, conflict, disconnect, reconnect, ...) leaves [localGone];
    only an explicit mount, unmount or failure does.  A failed mount is left
    only by retry, reset or unmount. *)
Theorem held_states_stick es :
  (Forall (λ e, e ∉ [EMount; EUnmount; EFail]) es → run mountMachine LocalGone es = LocalGone) ∧
  (Forall (λ e, e ∉ [ERetry; EReset; EUnmount]) es → run mountMachine MFailed es = MFailed).
Proof.
  split; induction 1 as [|e es He Hes IH]; try done; cbn [run fold_left];
    (replace (next mountMachine _ e) with (LocalGone) by (destruct e; set_solver)) ||
    (replace (next mountMachine _ e) with (MFailed) by (destruct e; set_solver)); done.
Qed.

Lemma held_states_stick_witness :
  run mountMachine LocalGone [ESyncSettled; EConflict; EReconnect] = LocalGone.
Proof.
  apply (held_states_stick [ESyncSettled; EConflict; EReconnect]).
  repeat constructor; by vm_compute; set_solver.
Defined.

(** The aggregate light is the worst scope and says which one: its severity
    bounds every scope's, and its reason names the primary or a mount that has
    exactly that health. *)
Theorem aggregate_worst primaryHealth mounts :
  let a := aggregateStatus primaryHealth mounts in
  health a = foldHealth (primaryHealth :: (mountHealth ∘ snd <$> mounts)) ∧
  SEVERITY primaryHealth ≤ SEVERITY (health a) ∧
  (∀ lbl s, (lbl, s) ∈ mounts → SEVERITY (mountHealth s) ≤ SEVERITY (health a)) ∧
  (a = {| health := primaryHealth; reason := "primary" |} ∨
   ∃ lbl s, (lbl, s) ∈ mounts ∧ health a = mountHealth s ∧ reason a = ("mount " +:+ lbl)%string).
Proof.
  intros a. subst a. induction mounts as [|[lbl s] mounts IH] using rev_ind.
  - unfold foldHealth. simpl. split_and!; auto; [|set_solver].
    destruct primaryHealth; done.
  - destruct IH as (Hf & Hp & Hm & Hr).
    rewrite aggregate_snoc, fmap_app. cbn [fmap list_fmap].
    rewrite app_comm_cons, foldHealth_snoc, <- Hf. cbv zeta.
    set (a := aggregateStatus _ mounts) in *. simpl. destruct (Nat.ltb_spec (SEVERITY (health a)) (SEVERITY (mountHealth s))); simpl.
    + split_and!; [done|lia| |].
      * intros l s' [Hin|[= -> ->]%list_elem_of_singleton]%elem_of_app; [|done].
        apply Hm in Hin. lia.
      * right. exists lbl, s. set_solver.
    + split_and!; [done|done| |].
      * intros l s' [Hin|[= -> ->]%list_elem_of_singleton]%elem_of_app; [by eapply Hm|done].
      * destruct Hr as [->|(l & s' & ? & ? & ?)]; [by left|right]. exists l, s'. set_solver.
Qed.

End MountFsm.

Module Resolve.

Inductive ResolveStep := Checking | Reading | Writing | KeepingBoth | RemovingCopy.
Inductive ResolveState :=
| RIdle | RLocal (step : ResolveStep) | RUploading (sawBusy : bool) | RDone | RStale
| RFailed (message : jstr).
Inductive ResolveEvent :=
| EvStart | EvStep (step : ResolveStep) | EvLocalDone | EvStale | EvError (message : jstr)
| EvEngineBusy | EvEngineIdle | EvGraceElapsed | EvCapElapsed | EvReset.

Definition rstate_name (s : ResolveState) : string :=
  match s with
  | RIdle => "idle" | RLocal _ => "local" | RUploading _ => "uploading"
  | RDone => "done" | RStale => "stale" | RFailed _ => "failed"
  end.
Definition revent_name (e : ResolveEvent) : string :=
  match e with
  | EvStart => "start" | EvStep _ => "step" | EvLocalDone => "localDone" | EvStale => "stale"
  | EvError _ => "error" | EvEngineBusy => "engineBusy" | EvEngineIdle => "engineIdle"
  | EvGraceElapsed => "graceElapsed" | EvCapElapsed => "capElapsed" | EvReset => "reset"
  end.

Definition resolveRules (s : ResolveState) (e : ResolveEvent) : rule ResolveState unit :=
  match e with
  | EvReset => Next RIdle
  | _ =>
    match s with
    | RIdle => match e with EvStart => Next (RLocal Checking) | _ => NoRule end
    | RLocal _ =>
        match e with
        | EvStep st => Next (RLocal st)
        | EvLocalDone => Next (RUploading false)
        | EvStale => Next RStale
        | EvError m => Next (RFailed m)
        | _ => NoRule
        end
    | RUploading sawBusy =>
        match e with
        | EvEngineBusy => if sawBusy then Stay else Next (RUploading true)
        | EvEngineIdle => if sawBusy then Next RDone else NoRule
        | EvGraceElapsed => if sawBusy then NoRule else Next RDone
        | EvCapElapsed => Next RDone
        | EvStale => Next RStale
        | EvError m => Next (RFailed m)
        | _ => NoRule
        end
    | _ => NoRule
    end
  end.

Definition resolveMachine := defineMachine {|
  name := "pmResolver";
  states := ["idle"; "local"; "uploading"; "done"; "stale"; "failed"]%string;
  events := ["start"; "step"; "localDone"; "stale"; "error"; "engineBusy"; "engineIdle";
             "graceElapsed"; "capElapsed"; "reset"]%string;
  kindOf := rstate_name;
  eventKindOf := revent_name;
  transition := resolveRules;
  terminal := Some (["done"; "stale"; "failed"], ["reset"])%string;
  identical := λ _ _, false;
|}.
Definition resolveNext : ResolveState → ResolveEvent → ResolveState := next resolveMachine.
Definition resolveInFlight (s : ResolveState) : bool :=
  match s with RLocal _ | RUploading _ => true | _ => false end.

Definition STEP_LABEL (st : ResolveStep) : string :=
  match st with
  | Checking => "Checking the other version…"
  | Reading => "Reading this device's version…"
  | Writing => "Writing this device's version…"
  | KeepingBoth => "Keeping both versions…"
  | RemovingCopy => "Removing the conflict copy…"
  end.
Definition resolveLabel (s : ResolveState) (own : string) : string :=
  match s with
  | RLocal st => STEP_LABEL st
  | RUploading _ => "Updating the server…"
  | RDone => "Done"
  | _ => own
  end.

(** The events that take the machine off the path to [done]. *)
Definition interrupts (e : ResolveEvent) : bool :=
  match e with EvReset | EvStale | EvError _ => true | _ => false end.
Definition completes (e : ResolveEvent) : bool :=
  match e with EvEngineIdle | EvGraceElapsed | EvCapElapsed => true | _ => false end.
Abbreviation quiet l := (Forall (λ e, interrupts e = false) l).

(** What the events so far must contain for the machine to be where it is. *)
Definition progressed (es : list ResolveEvent) (s : ResolveState) : Prop :=
  match s with
  | RLocal _ => ∃ a b, es = a ++ EvStart :: b ∧ quiet b
  | RUploading _ => ∃ a b c, es = a ++ EvStart :: b ++ EvLocalDone :: c ∧ quiet (b ++ c)
  | RDone =>
      ∃ a b c x d, es = a ++ EvStart :: b ++ EvLocalDone :: c ++ x :: d ∧
        quiet (b ++ c) ∧ completes x = true ∧ EvReset ∉ d
  | _ => True
  end.

Lemma quiet_snoc l e : quiet l → interrupts e = false → quiet (l ++ [e]).
Proof. intros Hl He. apply Forall_app. auto. Qed.

Lemma progressed_local es st e :
  progressed es (RLocal st) → interrupts e = false →
  progressed (es ++ [e]) (RLocal st) ∧ (e = EvLocalDone → progressed (es ++ [e]) (RUploading false)).
Proof.
  intros (a & b & -> & Hb) He. rewrite <- app_assoc. simpl. split.
  - exists a, (b ++ [e]). split; [done|by apply quiet_snoc].
  - intros ->. exists a, b, []. by rewrite app_nil_r.
Qed.

Lemma progressed_uploading es sb e :
  progressed es (RUploading sb) →
  (interrupts e = false → progressed (es ++ [e]) (RUploading sb)) ∧
  (completes e = true → progressed (es ++ [e]) RDone).
Proof.
  intros (a & b & c & -> & Hb). rewrite <- app_assoc. simpl. rewrite <- app_assoc. split; intros He.
  - exists a, b, (c ++ [e]). split; [done|]. rewrite app_assoc. by apply quiet_snoc.
  - exists a, b, c, e, []. split_and!; [done..|set_solver].
Qed.

Lemma progressed_done es e :
  progressed es RDone → e ≠ EvReset → progressed (es ++ [e]) RDone.
Proof.
  intros (a & b & c & x & d & -> & Hb & Hx & Hd) He. exists a, b, c, x, (d ++ [e]).
  split_and!; [|done..|set_solver].
  rewrite <- app_assoc. simpl. rewrite <- app_assoc. simpl. by rewrite <- app_assoc.
Qed.

Lemma progressed_step es s e :
  progressed es s → progressed (es ++ [e]) (next resolveMachine s e).
Proof.
  intros Hp. destruct s as [|st|sb| | |m].
  - destruct e; try done. exists es, []. auto.
  - destruct e; try done; by apply (progressed_local _ st).
  - destruct e, sb; try done; by eapply progressed_uploading.
  - destruct e; try done; by apply progressed_done.
  - by destruct e.
  - by destruct e.
Qed.

Lemma run_progressed es : progressed es (run resolveMachine RIdle es).
Proof.
  induction es as [|e es IH] using rev_ind; [done|].
  rewrite run_app. by apply progressed_step.
Qed.

(** "Done" is never shown for work that did not happen: in any event sequence
    that ends in [done] the local steps were started, then reported finished, then
    an upload-completing event came, with no reset, stale verdict or error between
    the start and the completion. *)
Theorem done_means_done es :
  run resolveMachine RIdle es = RDone →
  ∃ a b c x d, es = a ++ EvStart :: b ++ EvLocalDone :: c ++ x :: d ∧
    Forall (λ e, interrupts e = false) (b ++ c) ∧ completes x = true ∧ EvReset ∉ d.
Proof. intros H. pose proof (run_progressed es) as Hp. by rewrite H in Hp. Qed.
Lemma done_means_done_witness :
  run resolveMachine RIdle [EvStart; EvLocalDone; EvGraceElapsed] = RDone ∧
  ∃ a b c x d, [EvStart; EvLocalDone; EvGraceElapsed] = a ++ EvStart :: b ++ EvLocalDone :: c ++ x :: d ∧
    Forall (λ e, interrupts e = false) (b ++ c) ∧ completes x = true ∧ EvReset ∉ d.
Proof. split; [reflexivity|]. apply done_means_done. reflexivity. Defined.

End Resolve.
