(* ===== verification/Persist.v ===== *)
(** * Persist: saving the plugin's data ([client/src/main.ts])

    Settings, base and mount state are one file, written whole.  [persist] is a
    single-flight writer with a trailing write; the other entry points mark the
    data dirty and either call it or arm a timer that will.  The state of the
    plugin is a record, the host's answers and the timers are actions; [D] is
    what a snapshot holds. *)

From S2P Require Import Prelude.

Module Persist.
Section Persist.
Context {D : Type}.

(** [memory] is what a snapshot taken now would hold, [disk] the last snapshot
    that was written, [inflight] the one [saveData] is writing. *)
Record Saver := {
  memory : D; disk : D; inflight : option D;
  persistDirty : bool; persisting : bool; persistPending : bool;
  persistTimer : bool; lazyPersistTimer : bool; unloading : bool
}.
Definition loaded (d : D) : Saver :=
  {| memory := d; disk := d; inflight := None; persistDirty := false; persisting := false; persistPending := false;
     persistTimer := false; lazyPersistTimer := false; unloading := false |}.
Definition edit (d : D) (s : Saver) : Saver :=
  {| memory := d; disk := disk s; inflight := inflight s; persistDirty := persistDirty s; persisting := persisting s;
     persistPending := persistPending s; persistTimer := persistTimer s; lazyPersistTimer := lazyPersistTimer s;
     unloading := unloading s |}.
Definition mark (s : Saver) : Saver :=
  {| memory := memory s; disk := disk s; inflight := inflight s; persistDirty := true; persisting := persisting s;
     persistPending := persistPending s; persistTimer := persistTimer s; lazyPersistTimer := lazyPersistTimer s;
     unloading := unloading s |}.
Definition timers (t l : bool) (s : Saver) : Saver :=
  {| memory := memory s; disk := disk s; inflight := inflight s; persistDirty := persistDirty s; persisting := persisting s;
     persistPending := persistPending s; persistTimer := t; lazyPersistTimer := l; unloading := unloading s |}.
(** One turn of the loop up to the call of [saveData]. *)
Definition startWrite (s : Saver) : Saver :=
  {| memory := memory s; disk := disk s; inflight := Some (memory s); persistDirty := false; persisting := true;
     persistPending := false; persistTimer := persistTimer s; lazyPersistTimer := lazyPersistTimer s; unloading := unloading s |}.
Definition persist (s : Saver) : Saver :=
  if negb (persistDirty s) then s
  else if persisting s then
    {| memory := memory s; disk := disk s; inflight := inflight s; persistDirty := persistDirty s; persisting := true;
       persistPending := true; persistTimer := persistTimer s; lazyPersistTimer := lazyPersistTimer s; unloading := unloading s |}
  else startWrite s.
(** [saveData] settles: the loop goes on or ends. *)
Definition settled (ok : bool) (s : Saver) : Saver :=
  match inflight s with
  | None => s
  | Some d =>
      let s' := {| memory := memory s; disk := if ok then d else disk s; inflight := None; persistDirty := persistDirty s;
                   persisting := false; persistPending := persistPending s; persistTimer := persistTimer s;
                   lazyPersistTimer := lazyPersistTimer s; unloading := unloading s |} in
      if persistPending s then startWrite s' else s'
  end.
Definition saveSettings (s : Saver) : Saver := persist (mark s).
Definition schedulePersist (s : Saver) : Saver :=
  if unloading s || persistTimer s then mark s else timers true (lazyPersistTimer s) (mark s).
Definition schedulePersistLazy (s : Saver) : Saver :=
  if unloading s || lazyPersistTimer s then mark s else timers (persistTimer s) true (mark s).
Definition persistTimerFires (s : Saver) : Saver :=
  if persistTimer s then persist (timers false (lazyPersistTimer s) s) else s.
Definition lazyTimerFires (s : Saver) : Saver :=
  if lazyPersistTimer s then persist (timers (persistTimer s) false s) else s.
Definition flushSettings (s : Saver) : Saver := persist (timers false false s).
Definition unload (s : Saver) : Saver :=
  let s := {| memory := memory s; disk := disk s; inflight := inflight s; persistDirty := persistDirty s;
              persisting := persisting s; persistPending := persistPending s; persistTimer := persistTimer s;
              lazyPersistTimer := false; unloading := true |} in
  if persistTimer s then persist (timers false false s) else s.

(** How a change asks to be saved. *)
Inductive How := Now | Soon | Lazily.
Definition ask (h : How) : Saver → Saver :=
  match h with Now => saveSettings | Soon => schedulePersist | Lazily => schedulePersistLazy end.
Inductive Action :=
| Change (d : D) (h : How) | Persist | Flush | TimerFires | LazyFires | Settled (ok : bool).
Definition act (a : Action) (s : Saver) : Saver :=
  match a with
  | Change d h => ask h (edit d s)
  | Persist => persist s
  | Flush => flushSettings s
  | TimerFires => persistTimerFires s
  | LazyFires => lazyTimerFires s
  | Settled ok => settled ok s
  end.
Definition acts (s : Saver) (l : list Action) : Saver := foldl (λ s a, act a s) s l.

(** The newest snapshot handed to the host. *)
Definition latest (s : Saver) : D := default (disk s) (inflight s).
Record Inv (s : Saver) : Prop := {
  inv_flight : persisting s = true ↔ is_Some (inflight s);
  inv_clean : persistDirty s = false → latest s = memory s;
  inv_owed : persistDirty s = true →
    persistTimer s = true ∨ lazyPersistTimer s = true ∨ (persisting s = true ∧ persistPending s = true);
  inv_up : unloading s = false
}.
Definition harmless (a : Action) : Prop := a ≠ Settled false.

Lemma persist_inv s :
  (persisting s = true ↔ is_Some (inflight s)) → (persistDirty s = false → latest s = memory s) → unloading s = false →
  Inv (persist s).
Proof.
  intros Hf Hc Hu. unfold persist. destruct (persistDirty s) eqn:Hd; cbn [negb].
  - destruct (persisting s) eqn:Hp; constructor; cbn; auto; try done.
  - constructor; try done; by rewrite Hd.
Qed.
Lemma act_inv a s : harmless a → Inv s → Inv (act a s).
Proof.
  intros Ha [Hf Hc Ho Hu]. destruct a as [d h| | | | |ok]; cbn [act].
  - destruct h; cbn [ask].
    + by apply persist_inv.
    + unfold schedulePersist. cbn. rewrite Hu. cbn. destruct (persistTimer s) eqn:Ht; constructor; cbn; auto; done.
    + unfold schedulePersistLazy. cbn. rewrite Hu. cbn. destruct (lazyPersistTimer s) eqn:Ht; constructor; cbn; auto; done.
  - by apply persist_inv.
  - by apply persist_inv.
  - unfold persistTimerFires. destruct (persistTimer s) eqn:Ht; [by apply persist_inv|by constructor; rewrite ?Ht].
  - unfold lazyTimerFires. destruct (lazyPersistTimer s) eqn:Ht; [by apply persist_inv|by constructor; rewrite ?Ht].
  - destruct ok; [|done]. unfold settled. destruct (inflight s) as [d|] eqn:Hi; [|by constructor; rewrite ?Hi].
    destruct (persistPending s) eqn:Hp; constructor; cbn; try done; try intros H.
    + specialize (Hc H). unfold latest in Hc. by rewrite Hi in Hc.
    + destruct (Ho H) as [?|[?|[_ ?]]]; auto; congruence.
Qed.
Lemma acts_inv s l : Inv s → Forall harmless l → Inv (acts s l).
Proof. intros Hs Hl. revert s Hs. induction Hl as [|a l Ha _ IH]; intros s Hs; [done|]. apply IH, act_inv; done. Qed.
Lemma persist_keeps s :
  persistTimer (persist s) = persistTimer s ∧ lazyPersistTimer (persist s) = lazyPersistTimer s ∧ memory (persist s) = memory s.
Proof. unfold persist. destruct (negb _), (persisting s); done. Qed.
Lemma persist_fires s :
  persistTimer (persistTimerFires s) = false ∧ lazyPersistTimer (persistTimerFires s) = lazyPersistTimer s ∧
  memory (persistTimerFires s) = memory s.
Proof.
  unfold persistTimerFires. destruct (persistTimer s) eqn:Ht; [|done].
  by destruct (persist_keeps (timers false (lazyPersistTimer s) s)) as (-> & -> & ->).
Qed.
Lemma lazy_fires s :
  lazyPersistTimer (lazyTimerFires s) = false ∧ persistTimer (lazyTimerFires s) = persistTimer s ∧
  memory (lazyTimerFires s) = memory s.
Proof.
  unfold lazyTimerFires. destruct (lazyPersistTimer s) eqn:Ht; [|done].
  by destruct (persist_keeps (timers (persistTimer s) false s)) as (-> & -> & ->).
Qed.
(** Once both timers have fired none is armed, and nothing was lost. *)
Lemma timers_fire s :
  Inv s →
  let s' := lazyTimerFires (persistTimerFires s) in
  Inv s' ∧ persistTimer s' = false ∧ lazyPersistTimer s' = false ∧ memory s' = memory s.
Proof.
  intros Hi. cbv zeta. split; [by apply (act_inv LazyFires), (act_inv TimerFires)|].
  destruct (lazy_fires (persistTimerFires s)) as (-> & -> & ->). by destruct (persist_fires s) as (-> & _ & ->).
Qed.
(** With no timer armed, the write in flight and the one behind it are enough. *)
Lemma settles s :
  Inv s → persistTimer s = false → lazyPersistTimer s = false →
  let s' := settled true (settled true s) in
  disk s' = memory s ∧ persisting s' = false ∧ persistDirty s' = false.
Proof.
  intros [Hf Hc Ho _] Ht Hl. rewrite Ht, Hl in Ho. unfold latest in Hc. cbv zeta. unfold settled.
  destruct (inflight s) as [d|] eqn:Hi.
  - destruct (persistPending s) eqn:Hp; [by cbn|]. cbn.
    destruct (persistDirty s) eqn:Hd; [destruct (Ho eq_refl) as [?|[?|[_ ?]]]; done|]. cbn in Hc. by rewrite Hc.
  - assert (persisting s = false) as Hq by (destruct (persisting s); [|done]; by destruct (proj1 Hf eq_refl)).
    rewrite Hi. destruct (persistDirty s); [|by rewrite <- Hc].
    destruct (Ho eq_refl) as [?|[?|[? _]]]; congruence.
Qed.
Lemma loaded_inv d : Inv (loaded d).
Proof. constructor; cbn; done. Qed.



(** ** What the writer does not promise *)
(** A failed write clears the mark and is not repeated: a flush does nothing and
    a plugin at rest differs from its disk. *)
Lemma failed_write_not_retried (d d' : D) :
  let s := acts (loaded d) [Change d' Now; Settled false] in
  memory s = d' ∧ disk s = d ∧ persisting s = false ∧ act Flush s = s.
Proof. done. Qed.
(** [persist] alone saves nothing: the callers that change the data without
    marking it get no write. *)
Lemma bare_persist_is_noop (d : D) s : persistDirty s = false → persist (edit d s) = edit d s.
Proof. intros H. unfold persist. cbn. by rewrite H. Qed.
(** A save while a write is in flight returns before anything of it is written. *)
Lemma save_returns_early (d d' d2 : D) :
  let s := acts (loaded d) [Change d' Now; Change d2 Now] in
  inflight s = Some d' ∧ disk s = d ∧ persistPending s = true.
Proof. done. Qed.
(** Unloading drops what only the slow timer owed. *)
Lemma unload_drops_lazy (d d' : D) :
  let s := unload (acts (loaded d) [Change d' Lazily]) in
  memory s = d' ∧ disk s = d ∧ inflight s = None ∧ lazyPersistTimer s = false ∧ persistTimer s = false.
Proof. done. Qed.
End Persist.
Arguments Saver : clear implicits.
Arguments Action : clear implicits.

Definition demoActions : list (Action nat) :=
  [Change 1 Soon; TimerFires; Change 2 Now; Change 3 Lazily; Settled true; Change 4 Soon].
End Persist.
