(* ===== verification/Syncengine.v ===== *)
(** * Syncengine: the client's operational state machine ([client/src/syncengine.ts])

    [SyncEngine] is a serial event queue with run-to-completion: one effect at a
    time, events that arrive meanwhile are queued and coalesced.  The class is
    modelled as a configuration ([Config]: the fields, the calls made so far and
    where the [pump] loop is suspended) and the actions the runtime can deliver
    ([Enq], [Begin], [Done], [Tick]); effects and callbacks are entries of the
    log, their outcomes are inputs.  Callbacks are taken not to call back into
    the engine synchronously, which holds of the ones [main.ts] passes. *)

From S2P Require Import Prelude Fsm Connstate.
Import Conn.

Module Engine.

Inductive EngineState := SOff | SConnecting | SReconciling | SIdle | SDisconnected | SUnloading.
#[export] Instance EngineState_eq_dec : EqDecision EngineState.
Proof. solve_decision. Defined.

(** The work-queue events; a task's closure is an opaque identifier. *)
Inductive EngineEvent :=
| EvConnect | EvRemote | EvPath (path : jstr) (size : N) | EvTask (run : nat)
| EvRews | EvDisconnect | EvUnload.
#[export] Instance EngineEvent_eq_dec : EqDecision EngineEvent.
Proof. solve_decision. Defined.

Inductive EngineStateEvent :=
| SeUnload | SeDisconnect | SeConnectStart (linkRetrying : bool) | SeConnected (queued : bool)
| SeFailed | SeWork | SeDrained.

Definition estate_name (s : EngineState) : string :=
  match s with
  | SOff => "off" | SConnecting => "connecting" | SReconciling => "reconciling"
  | SIdle => "idle" | SDisconnected => "disconnected" | SUnloading => "unloading"
  end.
Definition eevent_name (e : EngineStateEvent) : string :=
  match e with
  | SeUnload => "unload" | SeDisconnect => "disconnect" | SeConnectStart _ => "connectStart"
  | SeConnected _ => "connected" | SeFailed => "failed" | SeWork => "work" | SeDrained => "drained"
  end.
Definition ENGINE_STATES : list string :=
  ["off"; "connecting"; "reconciling"; "idle"; "disconnected"; "unloading"].
Definition ENGINE_STATE_EVENTS : list string :=
  ["unload"; "disconnect"; "connectStart"; "connected"; "failed"; "work"; "drained"].

Definition engineRules (s : EngineState) (e : EngineStateEvent) : rule EngineState unit :=
  match e with
  | SeUnload => Next SUnloading
  | SeDisconnect => Next SOff
  | SeConnectStart linkRetrying => Next (if linkRetrying then SDisconnected else SConnecting)
  | SeConnected queued => Next (if queued then SReconciling else SIdle)
  | SeFailed => Next SDisconnected
  | SeWork => match s with SIdle | SConnecting | SDisconnected => Next SReconciling | _ => NoRule end
  | SeDrained => match s with SReconciling => Next SIdle | _ => NoRule end
  end.

Definition engineMachine := defineMachine {|
  name := "pmSyncEngine";
  states := ENGINE_STATES;
  events := ENGINE_STATE_EVENTS;
  kindOf := estate_name;
  eventKindOf := eevent_name;
  transition := engineRules;
  terminal := Some (["unloading"], [])%string;
  identical := identity_of;
|}.

Definition engineStateToPhase (s : EngineState) : Phase :=
  match s with
  | SConnecting => PConnecting
  | SReconciling => PSyncing
  | SIdle => PIdle
  | SDisconnected => PRetrying
  | SOff | SUnloading => POff
  end.

Section Engine.
Context {Err : Type} (classify : Err → FailureClass).

(** The injected effects as the calls the engine makes. *)
Inductive Effect := FxConnect | FxReconcileAll | FxReconcilePath (path : jstr) (size : N) | FxRews | FxTask (run : nat).
Inductive Out :=
| OCall (fx : Effect) | OTeardown | OPhase (p : Phase) | OError (site : string) (e : Err) | ORecovery (r : Recovery).

Record Engine := {
  queue : list EngineEvent;
  running : bool;
  state : EngineState;
  link : LinkState;
}.
Definition newEngine : Engine :=
  {| queue := []; running := false; state := SOff; link := LinkOk |}.

Definition phase (e : Engine) : Phase :=
  if decide (state e = SDisconnected) then (linkPhase (link e)).1 else engineStateToPhase (state e).
Definition isConnected (e : Engine) : bool :=
  match state e with SReconciling | SIdle => true | _ => false end.

(** The engine with the calls it has made, oldest first. *)
Abbreviation Run := (Engine * list Out)%type.
Definition emit (o : Out) (r : Run) : Run := (r.1, r.2 ++ [o]).
Definition setQueue (f : list EngineEvent → list EngineEvent) (r : Run) : Run :=
  ({| queue := f (queue r.1); running := running r.1; state := state r.1; link := link r.1 |}, r.2).
Definition setRunning (b : bool) (r : Run) : Run :=
  ({| queue := queue r.1; running := b; state := state r.1; link := link r.1 |}, r.2).
Definition setState (s : EngineState) (r : Run) : Run :=
  ({| queue := queue r.1; running := running r.1; state := s; link := link r.1 |}, r.2).
Definition setLink (l : LinkState) (r : Run) : Run :=
  ({| queue := queue r.1; running := running r.1; state := state r.1; link := l |}, r.2).

Definition transition (ev : EngineStateEvent) (r : Run) : Run :=
  let nxt := next engineMachine (state r.1) ev in
  if decide (nxt = state r.1) then r
  else let r' := setState nxt r in emit (OPhase (phase r'.1)) r'.
Definition beginReconcile : Run → Run := transition SeWork.

Definition isTask (q : EngineEvent) : bool := match q with EvTask _ => true | _ => false end.
Definition survivesFailure (q : EngineEvent) : bool :=
  match q with EvDisconnect | EvUnload | EvTask _ => true | _ => false end.

Definition failWith (site : string) (e : Err) (r : Run) : Run :=
  let cls := classify e in
  let r := setLink (linkNext (link r.1) (Failed cls)) r in
  let r := transition SeFailed r in
  let r := emit (OError site e) r in
  let r := setQueue (filter (λ q, survivesFailure q = true)) r in
  emit (ORecovery (recoveryFor cls)) r.

Definition unloadNow (r : Run) : Run :=
  emit OTeardown (setQueue (λ _, []) (transition SeUnload (setLink LinkOk r))).

(** [handle]: the part that runs at once, and the effect it then awaits. *)
Definition handle (ev : EngineEvent) (r : Run) : Run * bool :=
  match ev with
  | EvUnload => (unloadNow r, false)
  | EvDisconnect =>
      (transition SeDisconnect (emit OTeardown (setQueue (filter (λ q, isTask q = true)) (setLink LinkOk r))), false)
  | EvConnect =>
      (emit (OCall FxConnect)
         (transition (SeConnectStart (match link r.1 with Retrying _ _ => true | _ => false end)) r), true)
  | EvRews => if isConnected r.1 then (emit (OCall FxRews) r, true) else (r, false)
  | EvRemote => if isConnected r.1 then (emit (OCall FxReconcileAll) r, true) else (r, false)
  | EvPath path size =>
      if isConnected r.1 then (emit (OCall (FxReconcilePath path size)) (transition SeWork r), true)
      else (r, false)
  | EvTask run => (emit (OCall (FxTask run)) r, true)
  end.

(** [enqueue]'s coalescing: [None] when nothing is pushed. *)
Definition pathIs (path : jstr) (x : EngineEvent) : bool :=
  match x with EvPath p _ => p === path | _ => false end.
Fixpoint growPath (path : jstr) (size : N) (q : list EngineEvent) : list EngineEvent :=
  match q with
  | [] => []
  | EvPath p s :: q' =>
      if p === path then EvPath p (if (s <? size)%N then size else s) :: q' else EvPath p s :: growPath path size q'
  | x :: q' => x :: growPath path size q'
  end.
Definition dup (ev : EngineEvent) (q : list EngineEvent) : bool :=
  match ev with
  | EvRemote | EvConnect | EvRews => bool_decide (ev ∈ q)
  | _ => false
  end.
Definition push (ev : EngineEvent) (q : list EngineEvent) : option (list EngineEvent) :=
  match ev with
  | EvPath path size => if existsb (pathIs path) q then Some (growPath path size q) else None
  | _ => if dup ev q then Some q else None
  end.

(** Where [pump] is: not running, awaiting an effect of [handle(ev)], or
    awaiting a [handle] that has returned. *)
Inductive Pc := PIdle | PEffect (ev : EngineEvent) | PAwait.
#[local] Instance Pc_eq_dec : EqDecision Pc.
Proof. solve_decision. Defined.
Record Config := { run_ : Run; pc : Pc }.
Definition initial : Config := {| run_ := (newEngine, []); pc := PIdle |}.

(** One turn of [pump]'s loop, up to its next [await] or its end. *)
Definition pumpTurn (r : Run) : Config :=
  match queue r.1 with
  | ev :: q =>
      if decide (state r.1 = SUnloading) then
        {| run_ := setRunning false r; pc := PIdle |}
      else
        let '(r', awaits) := handle ev (setQueue (λ _, q) r) in
        {| run_ := r'; pc := if awaits then PEffect ev else PAwait |}
  | [] => {| run_ := setRunning false (transition SeDrained r); pc := PIdle |}
  end.
Definition pump (c : Config) : Config :=
  if running (run_ c).1 then c else pumpTurn (setRunning true (run_ c)).

Definition enqueue (ev : EngineEvent) (c : Config) : Config :=
  if decide (state (run_ c).1 = SUnloading) then c
  else if decide (ev = EvUnload) then {| run_ := unloadNow (run_ c); pc := pc c |}
  else match push ev (queue (run_ c).1) with
       | Some q => {| run_ := setQueue (λ _, q) (run_ c); pc := pc c |}
       | None => pump {| run_ := setQueue (λ q, q ++ [ev]) (run_ c); pc := pc c |}
       end.

(** [handle] after its effect: [None] resolved, [Some e] rejected with [e]. *)
Definition settle (ev : EngineEvent) (outcome : option Err) (c : Config) : Config :=
  let r := run_ c in
  match ev, outcome with
  | EvConnect, None =>
      let r := setLink (linkNext (link r.1) Connected) r in
      {| run_ := transition (SeConnected (negb (bool_decide (queue r.1 = [])))) r; pc := PAwait |}
  | EvConnect, Some e => {| run_ := failWith "connect" e r; pc := PAwait |}
  | EvRews, Some e =>
      let c' := enqueue EvConnect {| run_ := emit (OError "rews" e) r; pc := pc c |} in
      {| run_ := run_ c'; pc := PAwait |}
  | EvRemote, Some e => {| run_ := failWith "remote" e r; pc := PAwait |}
  | EvPath _ _, Some e => {| run_ := failWith "path" e r; pc := PAwait |}
  | EvTask _, Some e => {| run_ := emit (OError "task" e) r; pc := PAwait |}
  | _, _ => {| run_ := r; pc := PAwait |}
  end.

(** What the runtime delivers.  [Begin] is the reconcile effect reporting
    genuine work; [Done] settles the awaited effect; [Tick] resumes the loop. *)
Inductive Action := Enq (ev : EngineEvent) | Begin | Done (outcome : option Err) | Tick.
Definition act (c : Config) (a : Action) : Config :=
  match a, pc c with
  | Enq ev, _ => enqueue ev c
  | Begin, PEffect _ => {| run_ := beginReconcile (run_ c); pc := pc c |}
  | Done outcome, PEffect ev => settle ev outcome c
  | Tick, PAwait => pumpTurn (run_ c)
  | _, _ => c
  end.
Definition acts (c : Config) (l : list Action) : Config := fold_left act l c.


(** ** Frame lemmas *)
Implicit Types (r : Run) (c : Config) (ev : EngineEvent).

Lemma transition_queue se r : queue (transition se r).1 = queue r.1.
Proof. unfold transition. by case_decide. Qed.
Lemma transition_running se r : running (transition se r).1 = running r.1.
Proof. unfold transition. by case_decide. Qed.
Lemma transition_link se r : link (transition se r).1 = link r.1.
Proof. unfold transition. by case_decide. Qed.
Lemma transition_state se r : state (transition se r).1 = next engineMachine (state r.1) se.
Proof. unfold transition. case_decide as H; [by rewrite H|done]. Qed.
Lemma failWith_queue site e r :
  queue (failWith site e r).1 = filter (λ q, survivesFailure q = true) (queue r.1).
Proof. unfold failWith. simpl. by rewrite transition_queue. Qed.
Lemma failWith_running site e r : running (failWith site e r).1 = running r.1.
Proof. unfold failWith. simpl. by rewrite transition_running. Qed.
Lemma failWith_state site e r :
  state (failWith site e r).1 = if decide (state r.1 = SUnloading) then SUnloading else SDisconnected.
Proof. unfold failWith. simpl. rewrite transition_state. simpl. by destruct (state r.1). Qed.
Lemma unloadNow_state r : state (unloadNow r).1 = SUnloading.
Proof. unfold unloadNow. simpl. rewrite transition_state. simpl. by destruct (state r.1). Qed.
Lemma unloadNow_queue r : queue (unloadNow r).1 = [].
Proof. done. Qed.
Lemma unloadNow_running r : running (unloadNow r).1 = running r.1.
Proof. unfold unloadNow. simpl. by rewrite transition_running. Qed.
Create Rewrite HintDb engine.
#[local] Hint Rewrite transition_queue transition_running transition_link transition_state failWith_queue
  failWith_running failWith_state unloadNow_state unloadNow_queue unloadNow_running : engine.

(** ** The invariant *)
Inductive Slot := KConnect | KRemote | KRews | KPath (path : jstr).
Definition slot (ev : EngineEvent) : option Slot :=
  match ev with
  | EvConnect => Some KConnect | EvRemote => Some KRemote | EvRews => Some KRews
  | EvPath path _ => Some (KPath path)
  | _ => None
  end.
Definition coalesced (q : list EngineEvent) : Prop := NoDup (omap slot q) ∧ EvUnload ∉ q.
Definition settled (s : EngineState) : bool :=
  match s with SConnecting | SReconciling => false | _ => true end.

Record wf (c : Config) : Prop := {
  wf_coalesced : coalesced (queue (run_ c).1);
  wf_unloading : state (run_ c).1 = SUnloading → queue (run_ c).1 = [];
  wf_running : running (run_ c).1 = negb (bool_decide (pc c = PIdle));
  wf_idle : pc c = PIdle → queue (run_ c).1 = [] ∧ settled (state (run_ c).1) = true;
  wf_connecting : state (run_ c).1 = SConnecting → pc c = PEffect EvConnect;
}.

Lemma omap_slot_filter (P : EngineEvent → Prop) `{∀ x, Decision (P x)} q :
  NoDup (omap slot q) → NoDup (omap slot (filter P q)).
Proof.
  induction q as [|x q IH]; [done|]. simpl. rewrite filter_cons.
  destruct (slot x) as [k|] eqn:Hk.
  - intros [Hn Hq]%NoDup_cons. case_decide; simpl; rewrite ?Hk; [|by apply IH].
    apply NoDup_cons. split; [|by apply IH].
    intros (y & Hy & Hyk)%list_elem_of_omap. apply Hn, list_elem_of_omap.
    exists y. apply list_elem_of_filter in Hy. naive_solver.
  - intros Hq. case_decide; simpl; rewrite ?Hk; by apply IH.
Qed.
Lemma coalesced_filter (P : EngineEvent → Prop) `{∀ x, Decision (P x)} q :
  coalesced q → coalesced (filter P q).
Proof.
  intros [? Hu]. split; [by apply omap_slot_filter|]. rewrite list_elem_of_filter. tauto.
Qed.
Lemma coalesced_tail ev q : coalesced (ev :: q) → coalesced q.
Proof.
  intros [Hd Hu]. split; [|set_solver]. simpl in Hd.
  destruct (slot ev); [by apply NoDup_cons in Hd as [_ ?]|done].
Qed.

Lemma growPath_slots path size q : omap slot (growPath path size q) = omap slot q.
Proof.
  induction q as [|x q IH]; [done|]. destruct x; csimpl; rewrite ?IH; try done.
  case_match; csimpl; by rewrite ?IH.
Qed.
Lemma growPath_tasks path size q :
  filter (λ x, isTask x = true) (growPath path size q) = filter (λ x, isTask x = true) q.
Proof.
  induction q as [|x q IH]; [done|]. destruct x; simpl; rewrite ?filter_cons; simpl; rewrite ?IH; try done.
  case_match; rewrite !filter_cons; simpl; by rewrite ?IH.
Qed.
Lemma growPath_unload path size q : EvUnload ∈ growPath path size q → EvUnload ∈ q.
Proof.
  induction q as [|x q IH]; [done|]. destruct x; simpl; try case_match; set_solver.
Qed.

Lemma push_nil ev : push ev [] = None.
Proof. destruct ev; simpl; try done; by rewrite bool_decide_eq_false_2 by set_solver. Qed.
Lemma push_Some_coalesced ev q q' : push ev q = Some q' → coalesced q → coalesced q'.
Proof.
  intros Hp [Hd Hu]. unfold push in Hp. repeat case_match; simplify_eq; try done.
  split; [by rewrite growPath_slots|]. intros ?%growPath_unload. done.
Qed.
Lemma push_None_coalesced ev q :
  push ev q = None → ev ≠ EvUnload → coalesced q → coalesced (q ++ [ev]).
Proof.
  intros Hp Hev [Hd Hu]. split; [|set_solver]. rewrite omap_app.
  apply NoDup_app. split; [done|].
  assert (Hfresh : ∀ k, slot ev = Some k → k ∉ omap slot q).
  { intros k Hk (y & Hy & Hyk)%list_elem_of_omap. destruct ev; simplify_eq/=;
      repeat case_match; simplify_eq; destruct y; simplify_eq/=;
      try (rewrite bool_decide_eq_false in *; done).
    apply not_true_iff_false in H. apply H, existsb_exists.
    exists (EvPath path size0). rewrite <- list_elem_of_In. simpl. rewrite jeq_true. done. }
  simpl. destruct (slot ev) as [k|]; [|split; [set_solver|constructor]].
  split; [|apply NoDup_singleton]. intros x Hx ->%list_elem_of_singleton. by eapply Hfresh.
Qed.

(** A suspended pump: what holds of the engine whenever the loop is between
    two awaits. *)
Record suspended (r : Run) : Prop := {
  sus_coalesced : coalesced (queue r.1);
  sus_unloading : state r.1 = SUnloading → queue r.1 = [];
  sus_running : running r.1 = true;
}.

Lemma suspended_wf r p :
  suspended r → p ≠ PIdle → (state r.1 = SConnecting → p = PEffect EvConnect) →
  wf {| run_ := r; pc := p |}.
Proof.
  intros [Hc Hu Hr] Hp Hs. split; simpl; try done. by rewrite bool_decide_eq_false_2.
Qed.
Lemma wf_suspended c : wf c → pc c ≠ PIdle → suspended (run_ c).
Proof.
  intros [Hc Hu Hr Hi _] Hp. split; try done. by rewrite Hr, bool_decide_eq_false_2.
Qed.

Lemma suspended_emit o r : suspended r → suspended (emit o r).
Proof. intros []. by split. Qed.
Lemma suspended_unload r : suspended r → suspended (unloadNow r).
Proof.
  intros [Hc Hu Hr]. split; autorewrite with engine; try done.
  simpl. split; [constructor|set_solver].
Qed.
Lemma suspended_transition se r :
  suspended r → se ≠ SeUnload → suspended (transition se r).
Proof.
  intros [Hc Hu Hr] Hse. split; autorewrite with engine; try done.
  intros H. apply Hu. by destruct (state r.1), se; simplify_eq/=; repeat case_match.
Qed.
Lemma suspended_fail site e r : suspended r → suspended (failWith site e r).
Proof.
  intros [Hc Hu Hr]. split; autorewrite with engine; try done.
  - by apply coalesced_filter.
  - case_decide; [|done]. intros _. by rewrite Hu.
Qed.

Lemma handle_wf ev r r' awaits :
  suspended r → state r.1 ≠ SConnecting →
  handle ev r = (r', awaits) →
  wf {| run_ := r'; pc := if awaits then PEffect ev else PAwait |}.
Proof.
  intros Hr Hs Hh.
  assert (Hstay : ∀ p o, p ≠ PIdle → wf {| run_ := emit o r; pc := p |}).
  { intros p o Hp. apply suspended_wf; [destruct Hr; by split|done|done]. }
  destruct ev; simpl in Hh; repeat case_match; simplify_eq; try (by apply Hstay);
    try (apply suspended_wf; [done..|]; done).
  - apply suspended_wf; [|done..]. by apply suspended_emit, suspended_transition.
  - apply suspended_wf; [|done..]. by apply suspended_emit, suspended_transition.
  - apply suspended_wf; [|done..]. by apply suspended_emit, suspended_transition.
  - apply suspended_wf; [by apply suspended_emit, suspended_transition|done|].
    simpl. rewrite transition_state. by destruct (state r.1).
  - apply suspended_wf; [|done|].
    + apply suspended_transition; [|done]. destruct Hr as [Hc Hu Hrun].
      split; simpl; [by apply coalesced_filter| |done]. intros H. by rewrite Hu.
    + rewrite transition_state. simpl. by destruct (state r.1).
  - apply suspended_wf; [by apply suspended_unload|done|]. by rewrite unloadNow_state.
Qed.

Lemma pumpTurn_wf r : suspended r → state r.1 ≠ SConnecting → wf (pumpTurn r).
Proof.
  intros Hr Hs. unfold pumpTurn. destruct (queue r.1) as [|ev q] eqn:Hq.
  - split; simpl; autorewrite with engine; rewrite ?Hq; try done.
    + split; [constructor|set_solver].
    + intros _. split; [done|]. by destruct (state r.1).
    + by destruct (state r.1).
  - case_decide as Hun; [apply (sus_unloading _ Hr) in Hun; congruence|].
    destruct (handle ev (setQueue (λ _, q) r)) as [r' awaits] eqn:Hh.
    apply (handle_wf _ _ _ _) with (3 := Hh); [|done].
    destruct Hr as [Hc Hu Hrun]. rewrite Hq in Hc. split; simpl; [by eapply coalesced_tail|done|done].
Qed.

Lemma wf_set_queue c q :
  wf c → coalesced q → pc c ≠ PIdle → state (run_ c).1 ≠ SUnloading →
  wf {| run_ := setQueue (λ _, q) (run_ c); pc := pc c |}.
Proof. intros [????] Hq Hp Hs. split; simpl; done. Qed.

Lemma enqueue_wf ev c : wf c → wf (enqueue ev c).
Proof.
  intros Hwf. unfold enqueue. case_decide as Hun; [done|]. case_decide as Hev.
  { destruct Hwf as [Hc Hu Hr Hi Hn]. split; cbn [run_ pc]; autorewrite with engine; try done.
    split; [constructor|set_solver]. }
  assert (Hidle : pc c = PIdle → queue (run_ c).1 = []) by (intros Hpc; by destruct (wf_idle _ Hwf Hpc)).
  destruct (push ev (queue (run_ c).1)) as [q|] eqn:Hp.
  { apply wf_set_queue; [done|by eapply push_Some_coalesced, Hwf| |done].
    intros Hpc. by rewrite Hidle, push_nil in Hp. }
  pose proof (push_None_coalesced _ _ Hp Hev (wf_coalesced _ Hwf)) as Hc.
  unfold pump. simpl. rewrite (wf_running _ Hwf). case_bool_decide as Hpc; simpl.
  - apply pumpTurn_wf; [by split|]. simpl. intros Hs. apply (wf_connecting _ Hwf) in Hs. congruence.
  - by apply (wf_set_queue c).
Qed.

Lemma settle_wf ev o c : wf c → pc c = PEffect ev → wf (settle ev o c).
Proof.
  intros Hwf Hpc. assert (Hsus : suspended (run_ c)) by (apply wf_suspended; congruence).
  assert (Hstay : ∀ r', suspended r' → state r'.1 ≠ SConnecting → wf {| run_ := r'; pc := PAwait |}).
  { intros r' Hr' Hs. by apply suspended_wf. }
  assert (Hfail : ∀ site e, wf {| run_ := failWith site e (run_ c); pc := PAwait |}).
  { intros site e. apply Hstay; [by apply suspended_fail|]. rewrite failWith_state. by case_decide. }
  assert (Hconn : ev ≠ EvConnect → state (run_ c).1 ≠ SConnecting).
  { intros Hne Hs. apply (wf_connecting _ Hwf) in Hs. congruence. }
  destruct ev, o; simpl; try apply Hfail; try (apply Hstay; [done|by apply Hconn]).
  - apply Hstay.
    + apply (suspended_transition (SeConnected _)); [|done]. by destruct Hsus.
    + rewrite transition_state. simpl. by destruct (state (run_ c).1), (bool_decide _).
  - apply Hstay; [by destruct Hsus|by apply Hconn].
  - assert (Hwf' : wf {| run_ := emit (OError "rews" e) (run_ c); pc := pc c |}) by (by destruct Hwf).
    apply (enqueue_wf EvConnect) in Hwf' as Hwf2.
    assert (Hpc2 : pc (enqueue EvConnect {| run_ := emit (OError "rews" e) (run_ c); pc := pc c |}) = PEffect EvRews).
    { unfold enqueue. repeat case_match; try done. unfold pump. simpl.
      by rewrite (sus_running _ Hsus). }
    apply Hstay; [apply wf_suspended; [done|congruence]|].
    intros Hs. apply (wf_connecting _ Hwf2) in Hs. congruence.
Qed.

Lemma act_wf c a : wf c → wf (act c a).
Proof.
  intros Hwf. destruct a as [ev| |o|]; simpl; [by apply enqueue_wf| | |].
  - destruct (pc c) eqn:Hpc; try done. apply suspended_wf; [|done|].
    + apply suspended_transition; [|done]. apply wf_suspended; congruence.
    + unfold beginReconcile. rewrite transition_state. by destruct (state (run_ c).1).
  - destruct (pc c) eqn:Hpc; try done. by apply settle_wf.
  - destruct (pc c) eqn:Hpc; try done. apply pumpTurn_wf; [apply wf_suspended; congruence|].
    intros Hs. apply (wf_connecting _ Hwf) in Hs. congruence.
Qed.
Lemma acts_wf c l : wf c → wf (acts c l).
Proof. revert c. induction l; [done|]. intros c Hc. by apply IHl, act_wf. Qed.
Lemma wf_initial : wf initial.
Proof. split; simpl; try done. split; [constructor|set_solver]. Qed.

(** ** Tasks are started in the order they were enqueued *)
Definition taskOf (ev : EngineEvent) : option nat := match ev with EvTask n => Some n | _ => None end.
Definition startedOf (o : Out) : option nat := match o with OCall (FxTask n) => Some n | _ => None end.
Definition enqueuedOf (a : Action) : option nat := match a with Enq ev => taskOf ev | _ => None end.
Definition started (r : Run) : list nat := omap startedOf r.2.
Definition waiting (r : Run) : list nat := omap taskOf (queue r.1).

Lemma started_emit o r : started (emit o r) = started r ++ option_list (startedOf o).
Proof. unfold started, emit. simpl. rewrite omap_app. simpl. by destruct (startedOf o). Qed.
Lemma started_transition se r : started (transition se r) = started r.
Proof.
  unfold transition. case_decide; [done|]. cbv zeta. rewrite started_emit. apply app_nil_r.
Qed.
Lemma waiting_transition se r : waiting (transition se r) = waiting r.
Proof. unfold waiting. by rewrite transition_queue. Qed.
Lemma waiting_filter (f : EngineEvent → bool) (q : list EngineEvent) :
  (∀ n, f (EvTask n) = true) → omap taskOf (filter (λ x, f x = true) q) = omap taskOf q.
Proof.
  intros Hf. induction q as [|x q IH]; [done|]. rewrite filter_cons.
  destruct (decide (f x = true)) as [Hx|Hx]; csimpl; rewrite IH; [done|].
  destruct x; try done. by rewrite Hf in Hx.
Qed.
Lemma started_fail site e r : started (failWith site e r) = started r.
Proof.
  unfold failWith. cbv zeta. rewrite started_emit. cbn [startedOf option_list]. rewrite app_nil_r.
  change (started (setQueue ?f ?x)) with (started x).
  rewrite started_emit. cbn [startedOf option_list]. rewrite app_nil_r.
  apply (started_transition SeFailed (setLink _ r)).
Qed.
Lemma waiting_fail site e r : waiting (failWith site e r) = waiting r.
Proof. unfold waiting. rewrite failWith_queue. by apply waiting_filter. Qed.
Lemma started_unload r : started (unloadNow r) = started r.
Proof.
  unfold unloadNow. rewrite started_emit. cbn [startedOf option_list]. rewrite app_nil_r.
  apply (started_transition SeUnload (setLink LinkOk r)).
Qed.
Create Rewrite HintDb tasks.
#[local] Hint Rewrite started_emit started_transition waiting_transition started_fail waiting_fail started_unload : tasks.

Lemma handle_tasks ev r :
  started (handle ev r).1 ++ waiting (handle ev r).1 =
  started r ++ option_list (taskOf ev) ++ match ev with EvUnload => [] | _ => waiting r end.
Proof.
  destruct ev; simpl; repeat case_match; simpl; autorewrite with tasks; rewrite ?app_nil_r; simpl;
    rewrite <- ?app_assoc; try done.
  all: try (unfold waiting; simpl; autorewrite with engine; done).
  unfold waiting. simpl. by rewrite waiting_filter.
Qed.

Lemma growPath_waiting path size (q : list EngineEvent) :
  omap taskOf (growPath path size q) = omap taskOf q.
Proof.
  induction q as [|x q IH]; [done|]. destruct x; csimpl; rewrite ?IH; try done.
  case_match; csimpl; by rewrite ?IH.
Qed.

Lemma pumpTurn_tasks r :
  EvUnload ∉ queue r.1 →
  started (run_ (pumpTurn r)) ++ waiting (run_ (pumpTurn r)) = started r ++ waiting r.
Proof.
  intros Hu. unfold pumpTurn. destruct (queue r.1) as [|ev q] eqn:Hq.
  - simpl. change (started (transition SeDrained r) ++ waiting (transition SeDrained r) = started r ++ waiting r).
    by autorewrite with tasks.
  - case_decide; [done|]. pose proof (handle_tasks ev (setQueue (λ _, q) r)) as Ht.
    destruct (handle ev _) as [r' b]. simpl in *. rewrite Ht. unfold waiting. rewrite Hq. simpl.
    change (started (setQueue _ r)) with (started r). destruct ev; simpl; try done. set_solver.
Qed.

Definition coherent (c : Config) (enq : list nat) : Prop :=
  if decide (state (run_ c).1 = SUnloading)
  then started (run_ c) `prefix_of` enq
  else enq = started (run_ c) ++ waiting (run_ c).

Lemma next_loaded s se : s ≠ SUnloading → se ≠ SeUnload → next engineMachine s se ≠ SUnloading.
Proof. by destruct s, se as [| |[]|[]| | |]. Qed.
Lemma next_unloading se : next engineMachine SUnloading se = SUnloading.
Proof. by destruct se. Qed.

Lemma handle_loaded ev r :
  state r.1 ≠ SUnloading → ev ≠ EvUnload → state (handle ev r).1.1 ≠ SUnloading.
Proof.
  intros Hs Hev. destruct ev; simpl; repeat case_match; simpl; autorewrite with engine; simpl;
    try done; by apply next_loaded.
Qed.
Lemma pumpTurn_loaded r :
  state r.1 ≠ SUnloading → EvUnload ∉ queue r.1 → state (run_ (pumpTurn r)).1 ≠ SUnloading.
Proof.
  intros Hs Hu. unfold pumpTurn. destruct (queue r.1) as [|ev q] eqn:Hq.
  - simpl. rewrite transition_state. by apply next_loaded.
  - case_decide; [done|]. pose proof (handle_loaded ev (setQueue (λ _, q) r) Hs) as Hl.
    destruct (handle ev _). simpl in *. apply Hl. set_solver.
Qed.

(** What an action does to a plugin that is not unloading: either it unloads,
    or it keeps the order of tasks. *)
Definition keepsTasks (c c' : Config) (new : option nat) : Prop :=
  state (run_ c').1 ≠ SUnloading ∧
  started (run_ c') ++ waiting (run_ c') = started (run_ c) ++ waiting (run_ c) ++ option_list new.

Lemma enqueue_tasks ev c :
  wf c → state (run_ c).1 ≠ SUnloading → ev ≠ EvUnload → keepsTasks c (enqueue ev c) (taskOf ev).
Proof.
  intros Hwf Hs Hev. unfold enqueue. rewrite decide_False by done. rewrite decide_False by done.
  destruct (push ev (queue (run_ c).1)) as [q|] eqn:Hp.
  - split; [done|]. change (started _) with (started (run_ c)) at 1. f_equal. unfold waiting. simpl.
    unfold push in Hp. repeat case_match; simplify_eq; simpl; rewrite ?app_nil_r; try done.
    apply growPath_waiting.
  - pose proof (push_None_coalesced _ _ Hp Hev (wf_coalesced _ Hwf)) as [_ Hu].
    assert (Hw : waiting (setQueue (λ q, q ++ [ev]) (run_ c)) = waiting (run_ c) ++ option_list (taskOf ev)).
    { unfold waiting. simpl. rewrite omap_app. simpl. by destruct (taskOf ev). }
    unfold pump. simpl. destruct (running (run_ c).1).
    + split; [done|]. simpl. rewrite Hw. done.
    + split; [by apply pumpTurn_loaded|]. rewrite pumpTurn_tasks by done.
      change (waiting (setRunning ?b ?r)) with (waiting r). rewrite Hw. done.
Qed.

Lemma settle_tasks ev o c :
  wf c → state (run_ c).1 ≠ SUnloading → keepsTasks c (settle ev o c) None.
Proof.
  intros Hwf Hs.
  assert (Hf : ∀ site e, keepsTasks c {| run_ := failWith site e (run_ c); pc := PAwait |} None).
  { intros site e. split; cbn [run_].
    - rewrite failWith_state. by rewrite decide_False.
    - autorewrite with tasks. by rewrite app_nil_r. }
  assert (Hst : keepsTasks c {| run_ := run_ c; pc := PAwait |} None).
  { split; [done|]. simpl. by rewrite app_nil_r. }
  destruct ev, o; simpl; try apply Hf; try apply Hst.
  - split; simpl.
    + rewrite transition_state. by apply next_loaded.
    + rewrite started_transition, waiting_transition, app_nil_r. done.
  - split; [done|]. simpl. autorewrite with tasks. simpl. by rewrite !app_nil_r.
  - destruct (enqueue_tasks EvConnect {| run_ := emit (OError "rews" e) (run_ c); pc := pc c |})
      as [? Ht]; [by destruct Hwf|done|done|].
    split; [done|]. cbn [run_]. rewrite Ht. cbn [run_]. rewrite started_emit. simpl. by rewrite app_nil_r.
Qed.

Lemma act_tasks c a :
  wf c → state (run_ c).1 ≠ SUnloading → a ≠ Enq EvUnload → keepsTasks c (act c a) (enqueuedOf a).
Proof.
  intros Hwf Hs Ha.
  assert (Hid : keepsTasks c c None) by (split; [done|by rewrite app_nil_r]).
  destruct a as [ev| |o|]; simpl.
  - apply enqueue_tasks; [done..|congruence].
  - destruct (pc c); try done. split; simpl; unfold beginReconcile.
    + rewrite transition_state. by apply next_loaded.
    + rewrite started_transition, waiting_transition. by rewrite app_nil_r.
  - destruct (pc c); try done. by apply settle_tasks.
  - destruct (pc c); try done. destruct (wf_coalesced _ Hwf) as [_ Hu].
    split; [by apply pumpTurn_loaded|]. rewrite pumpTurn_tasks by done. by rewrite app_nil_r.
Qed.

(** After [unload] the engine only reports the failure of an effect that was
    still running. *)
Definition afterUnload (o : Out) : bool :=
  match o with OError _ _ | ORecovery _ => true | _ => false end.
Definition silent (c c' : Config) : Prop :=
  state (run_ c').1 = SUnloading ∧ ∃ l, (run_ c').2 = (run_ c).2 ++ l ∧ Forall (λ o, afterUnload o = true) l.

Lemma transition_unloading se r : state r.1 = SUnloading → transition se r = r.
Proof. intros Hs. unfold transition. rewrite Hs, next_unloading. by rewrite decide_True. Qed.

Lemma act_silent c a : wf c → state (run_ c).1 = SUnloading → silent c (act c a).
Proof.
  intros Hwf Hs.
  assert (Hsame : ∀ c', state (run_ c').1 = SUnloading → (run_ c').2 = (run_ c).2 → silent c c').
  { intros c' ? Hl. split; [done|]. exists []. by rewrite app_nil_r. }
  assert (Hid : ∀ c', run_ c' = run_ c → silent c c').
  { intros c' Hc. apply Hsame; by rewrite Hc. }
  assert (Hf : ∀ site e, silent c {| run_ := failWith site e (run_ c); pc := PAwait |}).
  { intros site e. split; cbn [run_]; [by rewrite failWith_state, decide_True|].
    unfold failWith. rewrite transition_unloading by done. simpl. eexists [_; _].
    rewrite <- app_assoc. split; [done|by repeat constructor]. }
  destruct a as [ev| |o|]; simpl.
  - apply Hid. unfold enqueue. by rewrite decide_True.
  - destruct (pc c); try by apply Hid. apply Hid. by apply transition_unloading.
  - destruct (pc c) as [|ev|]; try by apply Hid. destruct ev, o; simpl; try apply Hf; try by apply Hid.
    + rewrite transition_unloading by done. by apply Hsame.
    + split; [done|]. eexists [_]. split; [done|by repeat constructor].
    + unfold enqueue. rewrite decide_True by done. split; [done|]. eexists [_].
      split; [done|by repeat constructor].
  - destruct (pc c); try by apply Hid. unfold pumpTurn.
    rewrite (wf_unloading _ Hwf Hs), transition_unloading by done. by apply Hsame.
Qed.

Lemma started_silent l : Forall (λ o, afterUnload o = true) l → omap startedOf l = [].
Proof. induction 1 as [|o l Ho _ IH]; [done|]. by destruct o. Qed.
Lemma enqueue_unload c :
  state (run_ c).1 ≠ SUnloading → enqueue EvUnload c = {| run_ := unloadNow (run_ c); pc := pc c |}.
Proof. intros Hs. unfold enqueue. by rewrite decide_False. Qed.
Lemma coherent_act c a enq :
  wf c → coherent c enq → coherent (act c a) (enq ++ option_list (enqueuedOf a)).
Proof.
  intros Hwf. unfold coherent at 1. case_decide as Hs; intros Hc.
  - destruct (act_silent c a Hwf Hs) as [Hs' (l & Hl & Hq)]. unfold coherent. rewrite decide_True by done.
    assert (started (run_ (act c a)) = started (run_ c)) as ->; [|by apply prefix_app_r].
    unfold started. rewrite Hl, omap_app.
    by rewrite (started_silent l), app_nil_r.
  - assert (a = Enq EvUnload ∨ a ≠ Enq EvUnload) as [->|Ha] by (destruct a as [[]| | |]; first [by left|right; congruence]).
    + unfold coherent. cbn [act]. rewrite enqueue_unload by done. cbn [run_].
      rewrite unloadNow_state. rewrite decide_True by done. rewrite started_unload, app_nil_r, Hc.
      by apply prefix_app_r.
    + destruct (act_tasks c a Hwf Hs Ha) as [Hs' Ht]. unfold coherent. rewrite decide_False by done.
      by rewrite Ht, Hc, app_assoc.
Qed.

Lemma coherent_acts l : coherent (acts initial l) (omap enqueuedOf l).
Proof.
  induction l as [|a l IH] using rev_ind; [done|].
  unfold acts. rewrite fold_left_app, omap_app. simpl.
  pose proof (coherent_act _ a _ (acts_wf _ l wf_initial) IH) as H.
  by destruct (enqueuedOf a).
Qed.

(** ** The pump drains *)
Definition weight (ev : EngineEvent) : nat := match ev with EvRews => 6 | _ => 3 end.
Definition load (q : list EngineEvent) : nat := sum_list_with weight q.
Definition pcWeight (p : Pc) : nat :=
  match p with PIdle => 0 | PAwait => 1 | PEffect EvRews => 5 | PEffect _ => 2 end.
Definition work (c : Config) : nat := load (queue (run_ c).1) + pcWeight (pc c).

(** The runtime lets the pump run, each effect [n] settling as [outcome n]. *)
Fixpoint drive (n : nat) (outcome : nat → option Err) (c : Config) : Config :=
  match n with
  | 0 => c
  | S n' => drive n' outcome (act c (match pc c with PEffect _ => Done (outcome n') | _ => Tick end))
  end.

Lemma load_filter (P : EngineEvent → Prop) `{∀ x, Decision (P x)} q : load (filter P q) ≤ load q.
Proof.
  induction q as [|x q IH]; [done|]. rewrite filter_cons. unfold load in *. case_decide; simpl; lia.
Qed.
Lemma work_pumpTurn r : suspended r → work (pumpTurn r) ≤ load (queue r.1).
Proof.
  intros Hr. unfold pumpTurn, work. destruct (queue r.1) as [|ev q] eqn:Hq; simpl.
  - by rewrite transition_queue, Hq.
  - case_decide as Hun; [apply (sus_unloading _ Hr) in Hun; congruence|].
    destruct ev; simpl; repeat case_match; simplify_eq/=; autorewrite with engine; simpl;
      rewrite ?transition_queue; simpl; try (unfold load; lia).
    pose proof (load_filter (λ q0, isTask q0 = true) q). unfold load in *. simpl. lia.
Qed.

Lemma work_settle ev o c :
  wf c → pc c = PEffect ev → work (settle ev o c) < work c.
Proof.
  intros Hwf Hpc.
  assert (Hf : ∀ site e p, work {| run_ := failWith site e (run_ c); pc := p |}
                           ≤ load (queue (run_ c).1) + pcWeight p).
  { intros site e p. unfold work. cbn [run_ pc]. rewrite failWith_queue.
    pose proof (load_filter (λ q, survivesFailure q = true) (queue (run_ c).1)). lia. }
  assert (Hw : work c = load (queue (run_ c).1) + pcWeight (PEffect ev)) by (unfold work; by rewrite Hpc).
  destruct ev, o as [e|]; simpl; rewrite Hw; simpl;
    try (eapply Nat.le_lt_trans; [apply Hf|simpl; lia]); unfold work; simpl;
    rewrite ?transition_queue; simpl; try lia.
  (* a failed re-dial queues one connect *)
  unfold enqueue. case_decide; simpl; [lia|].
  case_bool_decide; simpl; [lia|]. unfold pump. simpl.
  rewrite (wf_running _ Hwf), bool_decide_eq_false_2 by congruence. simpl.
  unfold load. rewrite sum_list_with_app. simpl. lia.
Qed.

Lemma drive_wf n outcome c : wf c → wf (drive n outcome c).
Proof. revert c. induction n as [|n IH]; intros c Hc; simpl; [done|]. by apply IH, act_wf. Qed.

Lemma drive_idle n outcome c : pc c = PIdle → drive n outcome c = c.
Proof. intros Hpc. revert c Hpc. induction n as [|n IH]; intros c Hpc; simpl; [done|]. rewrite Hpc. simpl. rewrite Hpc. by apply IH. Qed.

Lemma drive_settles n outcome c : wf c → work c ≤ n → pc (drive n outcome c) = PIdle.
Proof.
  revert c. induction n as [|n IH]; intros c Hwf Hn.
  - unfold work in Hn. simpl. destruct (pc c) as [|[]|]; simpl in Hn; try lia; done.
  - simpl. destruct (pc c) as [|ev|] eqn:Hpc.
    + apply IH; simpl; rewrite Hpc; [done|]. unfold work in *. rewrite Hpc in Hn. simpl in Hn.
      rewrite Hpc. destruct (wf_idle _ Hwf Hpc) as [-> _]. simpl. lia.
    + apply IH; [by apply act_wf|]. simpl. rewrite Hpc. pose proof (work_settle ev (outcome n) c Hwf Hpc). lia.
    + apply IH; [by apply act_wf|]. simpl. rewrite Hpc.
      pose proof (work_pumpTurn (run_ c)) as Hw. unfold work in *. rewrite Hpc in Hn. simpl in Hn.
      specialize (Hw ltac:(apply wf_suspended; congruence)). lia.
Qed.

(** ** What the engine guarantees *)


(** A held-review resolver enqueued as a [task] is never lost or reordered:
    until the plugin unloads, the tasks started so far followed by those still
    queued are exactly the tasks enqueued, in order, through every failure,
    reconnect and disconnect; after an unload none is started. *)
Theorem tasks_fifo l :
  let c := acts initial l in
  let enqueued := omap enqueuedOf l in
  (state (run_ c).1 ≠ SUnloading → enqueued = started (run_ c) ++ waiting (run_ c)) ∧
  (state (run_ c).1 = SUnloading → started (run_ c) `prefix_of` enqueued).
Proof.
  intros c enq. pose proof (coherent_acts l) as Hc. fold c enq in Hc. unfold coherent in Hc.
  by case_decide.
Qed.

(** Unloading is final: from then on no effect is called, no timer is torn
    down again and the light is not repainted, whatever is enqueued and however
    an effect still in flight ends. *)
Theorem unload_is_final l1 l2 :
  let c1 := acts initial (l1 ++ [Enq EvUnload]) in
  let c2 := acts initial (l1 ++ [Enq EvUnload] ++ l2) in
  state (run_ c2).1 = SUnloading ∧
  ∃ tail, (run_ c2).2 = (run_ c1).2 ++ tail ∧
          Forall (λ o, match o with OError _ _ | ORecovery _ => True | _ => False end) tail.
Proof.
  intros c1 c2. assert (Hc2 : c2 = acts c1 l2).
  { subst c1 c2. unfold acts. by rewrite app_assoc, fold_left_app. }
  rewrite Hc2. clear Hc2 c2.
  assert (Hs : state (run_ c1).1 = SUnloading).
  { subst c1. unfold acts. rewrite fold_left_app. simpl. unfold enqueue.
    case_decide; [done|]. apply unloadNow_state. }
  assert (Hwf : wf c1) by apply acts_wf, wf_initial. clearbody c1.
  revert c1 Hs Hwf. induction l2 as [|a l2 IH]; intros c1 Hs Hwf.
  - split; [done|]. exists []. by rewrite app_nil_r.
  - destruct (act_silent c1 a Hwf Hs) as [Hs' (t & Ht & Hq)].
    destruct (IH (act c1 a) Hs' (act_wf _ _ Hwf)) as [Hs2 (t2 & Ht2 & Hq2)].
    split; [done|]. exists (t ++ t2). simpl. rewrite Ht2, Ht, app_assoc. split; [done|].
    apply Forall_app. split; [|done]. eapply Forall_impl; [exact Hq|]. by intros [].
Qed.

(** One failure, one recovery: when the awaited effect of a [connect],
    [remote] or [path] event fails, the engine leaves the connected states,
    drops the queued reconcile work but none of the tasks or disconnects,
    reports the error once and arms exactly the recovery of the failure's
    class; the light shows that class. *)
Theorem failure_recovers c ev e :
  pc c = PEffect ev → (match ev with EvConnect | EvRemote | EvPath _ _ => true | _ => false end) = true →
  state (run_ c).1 ≠ SUnloading →
  let c' := act c (Done (Some e)) in
  let cls := classify e in
  state (run_ c').1 = SDisconnected ∧ isConnected (run_ c').1 = false ∧
  queue (run_ c').1 = filter (λ q, survivesFailure q = true) (queue (run_ c).1) ∧
  link (run_ c').1 = linkNext (link (run_ c).1) (Failed cls) ∧
  phase (run_ c').1 = (linkPhase (link (run_ c').1)).1 ∧
  ∃ site repaint, (run_ c').2 = (run_ c).2 ++ repaint ++ [OError site e; ORecovery (recoveryFor cls)] ∧
    Forall (λ o, ∃ p, o = OPhase p) repaint.
Proof.
  intros Hpc Hev Hs c' cls.
  assert (∃ site, run_ c' = failWith site e (run_ c)) as [site Hc'].
  { subst c'. simpl. rewrite Hpc. destruct ev; try done; simpl; eauto. }
  rewrite Hc'.
  assert (Hst : state (failWith site e (run_ c)).1 = SDisconnected) by by rewrite failWith_state, decide_False.
  split_and!; [done| |by rewrite failWith_queue| | |].
  - unfold isConnected. by rewrite Hst.
  - unfold failWith. simpl. by rewrite transition_link.
  - unfold phase. by rewrite Hst.
  - exists site. unfold failWith, transition. cbv zeta. case_decide; simpl.
    + exists []. rewrite <- app_assoc. split; [done|constructor].
    + eexists [_]. rewrite <- !app_assoc. split; [done|]. repeat constructor. eauto.
Qed.

(** C37: Run-to-completion terminates: from any reachable configuration, if every
    effect settles (with any outcome) and nothing more is enqueued, the
    processor comes to rest within 6 resumptions per queued event plus 5. *)
Theorem pump_drains l outcome :
  let c := acts initial l in
  ∃ n, n ≤ 6 * length (queue (run_ c).1) + 5 ∧ pc (drive n outcome c) = PIdle ∧
       queue (run_ (drive n outcome c)).1 = [].
Proof.
  intros c. exists (work c). pose proof (acts_wf _ l wf_initial) as Hwf. fold c in Hwf.
  assert (Hp : pc (drive (work c) outcome c) = PIdle) by (by apply drive_settles).
  split_and!; [|done|].
  - unfold work. assert (Hl : ∀ q, load q ≤ 6 * length q).
    { induction q as [|[] q IH]; simpl; unfold load in *; simpl; lia. }
    specialize (Hl (queue (run_ c).1)). destruct (pc c) as [|[]|]; simpl; lia.
  - by destruct (wf_idle _ (drive_wf (work c) outcome c Hwf) Hp).
Qed.

(** A save that grew a file between two queued events is judged on the larger
    size. *)
Lemma growPath_size path size q s :
  EvPath path s ∈ growPath path size q → NoDup (omap slot q) → (size ≤ s)%N.
Proof.
  induction q as [|x q IH]; [by intros ?%not_elem_of_nil|].
  assert (Hin : KPath path ∈ omap slot q ↔ ∃ s, EvPath path s ∈ q).
  { rewrite list_elem_of_omap. split.
    - intros ([] & ? & ?); simplify_eq/=. eauto.
    - intros [s' ?]. by exists (EvPath path s'). }
  destruct x; simpl; try (intros [?|?]%elem_of_cons; [done|]; intros; apply IH; [done|];
    by (done || (apply NoDup_cons in H0 as [_ ?]; done))).
  destruct (path0 === path) eqn:Hp.
  - apply jeq_true in Hp as ->. intros [[= ->]|Hq]%elem_of_cons [Hn _]%NoDup_cons.
    + match goal with |- context [(?a <? ?b)%N] => destruct (N.ltb_spec a b) end; lia.
    + contradict Hn. apply Hin. eauto.
  - apply jeq_false in Hp. intros [[= -> _]|Hq]%elem_of_cons [_ Hd]%NoDup_cons; [done|by apply IH].
Qed.

(** The size gate never judges a queued file on a stale smaller size: after
    enqueueing a path event behind a running effect, that path is queued exactly
    once, at a size at least the one just reported, and every other event keeps
    its place. *)
Theorem path_coalesces c path size :
  wf c → running (run_ c).1 = true → state (run_ c).1 ≠ SUnloading →
  let q := queue (run_ c).1 in
  let q' := queue (run_ (enqueue (EvPath path size) c)).1 in
  (∃ s, EvPath path s ∈ q' ∧ (size ≤ s)%N) ∧
  NoDup (omap slot q') ∧
  filter (λ x, pathIs path x = false) q' = filter (λ x, pathIs path x = false) q.
Proof.
  intros Hwf Hr Hs q q'.
  pose proof (wf_coalesced _ (enqueue_wf (EvPath path size) c Hwf)) as [Hd' _]. fold q' in Hd'.
  assert (Hq' : q' = if existsb (pathIs path) q then growPath path size q else q ++ [EvPath path size]).
  { subst q q'. unfold enqueue. rewrite decide_False by done. simpl.
    destruct (existsb _ _) eqn:Hex; rewrite ?Hex; [done|]. unfold pump. simpl. by rewrite Hr. }
  destruct (existsb (pathIs path) q) eqn:Hex; rewrite Hq' in *.
  - apply existsb_exists in Hex as (x & Hx & Hp). rewrite <- list_elem_of_In in Hx.
    split_and!; [|done|].
    + assert (∃ s, EvPath path s ∈ growPath path size q) as [s Hin].
      { clear -Hx Hp. induction q as [|y q IH]; [by apply not_elem_of_nil in Hx|].
        apply elem_of_cons in Hx as [<-|Hx].
        - destruct x; try done. simpl in *. rewrite Hp. apply jeq_true in Hp as ->. eexists. by left.
        - destruct (IH Hx) as [s Hs]. destruct y; simpl; try (exists s; by right).
          case_match; [|exists s; by right]. apply jeq_true in H as ->. eexists. by left. }
      exists s. split; [done|]. eapply growPath_size; [done|]. apply (wf_coalesced _ Hwf).
    + clear. induction q as [|y q IH]; [done|]. destruct y; simpl; try (by rewrite !filter_cons, IH).
      destruct (path0 === path) eqn:Hp; rewrite !filter_cons; simpl; rewrite Hp; simpl; [done|by rewrite IH].
  - split_and!; [exists size; set_solver|done|].
    rewrite filter_app, filter_cons, filter_nil. simpl. rewrite jeq_refl. simpl. apply app_nil_r.
Qed.
End Engine.

(** ** Concrete runs, with failures classified as transient *)
Definition demoClassify (_ : unit) : FailureClass := FTransient.
Abbreviation demo l := (acts demoClassify initial l).
Definition demoPath := EvPath (js "a.md") 10.


Lemma tasks_fifo_witness :
  let l := [Enq EvConnect; Enq (EvTask 7); Enq EvRemote; Enq (EvTask 3); Done (Some tt); Tick] in
  let c := demo l in
  state (run_ c).1 ≠ SUnloading ∧ started (run_ c) = [7] ∧ waiting (run_ c) = [3] ∧
  omap enqueuedOf l = started (run_ c) ++ waiting (run_ c).
Proof.
  split_and!; [discriminate|reflexivity|reflexivity|].
  apply (tasks_fifo demoClassify
    [Enq EvConnect; Enq (EvTask 7); Enq EvRemote; Enq (EvTask 3); Done (Some tt); Tick]).
  discriminate.
Defined.

Lemma failure_recovers_witness :
  let c := demo [Enq EvConnect; Enq EvRemote; Enq (EvTask 1)] in
  pc c = PEffect EvConnect ∧
  queue (run_ (act demoClassify c (Done (Some tt)))).1 = [EvTask 1].
Proof.
  split; [reflexivity|].
  destruct (failure_recovers demoClassify (demo [Enq EvConnect; Enq EvRemote; Enq (EvTask 1)]) EvConnect tt)
    as (_ & _ & Hq & _); [reflexivity|reflexivity|discriminate|].
  rewrite Hq. reflexivity.
Defined.

Lemma path_coalesces_witness :
  let c := demo [Enq EvConnect; Enq demoPath] in
  wf c ∧ ∃ s, EvPath (js "a.md") s ∈ queue (run_ (enqueue (EvPath (js "a.md") 99) c)).1 ∧ (99 ≤ s)%N.
Proof.
  assert (Hwf : wf (demo [Enq EvConnect; Enq demoPath])) by apply acts_wf, wf_initial.
  split; [exact Hwf|].
  apply (path_coalesces (demo [Enq EvConnect; Enq demoPath]) (js "a.md") 99 Hwf); [reflexivity|discriminate].
Defined.

End Engine.
