(* ===== verification/Merge.v ===== *)
(** * Merge: line alignment, three-way merge and diff previews

    [client/src/merge.ts] (the LCS alignment, the diff3 merge, the mergeability
    test) and [pushpreview.ts] (what an authoritative push or pull does to each
    file, and the line diff shown for it).  A line is a JS string; the UTF-8
    decoder of [TextDecoder] is a parameter. *)

From Stdlib Require Import Sorted.
From S2P Require Import Prelude.

Module Align.

(** [dp[i]] from [dp[i+1]], right to left. *)
Fixpoint dpRow (b : jstr) (other : list jstr) (below : list nat) : list nat :=
  match other with
  | [] => [0]
  | o :: other' =>
      let row := dpRow b other' (tail below) in
      (if b === o then List.hd 0 (tail below) + 1 else Nat.max (List.hd 0 below) (List.hd 0 row)) :: row
  end.
(** [dp], of [n + 1] rows and [m + 1] columns. *)
Fixpoint dpTable (base other : list jstr) : list (list nat) :=
  match base with
  | [] => [replicate (S (length other)) 0]
  | b :: base' => let t := dpTable base' other in dpRow b other (List.hd [] t) :: t
  end.
Definition dpAt (dp : list (list nat)) (i j : nat) : nat := default 0 (dp !! i ≫= λ row, row !! j).

Fixpoint walk (fuel : nat) (dp : list (list nat)) (base other : list jstr) (i j : nat) : list (nat * nat) :=
  match fuel with
  | 0 => []
  | S fuel =>
      match base !! i, other !! j with
      | Some x, Some y =>
          if x === y then (i, j) :: walk fuel dp base other (S i) (S j)
          else if dpAt dp i (S j) <=? dpAt dp (S i) j then walk fuel dp base other (S i) j
          else walk fuel dp base other i (S j)
      | _, _ => []
      end
  end.
(** The loop advances [i] or [j] each turn: [n + m] turns are enough
    (the pairs would not be longest with less). *)
Definition lcsPairs (base other : list jstr) : list (nat * nat) :=
  walk (length base + length other) (dpTable base other) base other 0 0.

(** ** The table holds the LCS lengths of the suffixes *)
Fixpoint lcsLen (b : list jstr) : list jstr → nat :=
  fix go (o : list jstr) : nat :=
    match b, o with
    | x :: b', y :: o' => if x === y then S (lcsLen b' o') else Nat.max (lcsLen b' o) (go o')
    | _, _ => 0
    end.
Fixpoint suffixRow (b o : list jstr) : list nat :=
  lcsLen b o :: match o with [] => [] | _ :: o' => suffixRow b o' end.

Lemma suffixRow_hd b o : List.hd 0 (suffixRow b o) = lcsLen b o.
Proof. by destruct o. Qed.
Lemma lcsLen_nil_r b : lcsLen b [] = 0.
Proof. by destruct b. Qed.
Lemma suffixRow_nil o : suffixRow [] o = replicate (S (length o)) 0.
Proof. induction o as [|y o IH]; [done|]. cbn [suffixRow length]. by rewrite IH. Qed.
Lemma dpRow_suffixRow x b o : dpRow x o (suffixRow b o) = suffixRow (x :: b) o.
Proof.
  induction o as [|y o IH]; [done|]. cbn [dpRow suffixRow]. cbn [tail].
  rewrite IH, !suffixRow_hd. cbn [List.hd]. f_equal. cbn [lcsLen].
  destruct (x === y); [|done]. lia.
Qed.
Lemma dpTable_hd b o : List.hd [] (dpTable b o) = suffixRow b o.
Proof.
  induction b as [|x b IH]; cbn [dpTable List.hd]; [by rewrite suffixRow_nil|].
  by rewrite IH, dpRow_suffixRow.
Qed.
Lemma dpTable_row b o i : i ≤ length b → dpTable b o !! i = Some (suffixRow (drop i b) o).
Proof.
  revert i. induction b as [|x b IH]; intros i Hi; destruct i as [|i]; simpl in Hi; try lia.
  - cbn [dpTable drop]. simpl. by rewrite suffixRow_nil.
  - cbn [dpTable drop lookup list_lookup]. by rewrite dpTable_hd, dpRow_suffixRow.
  - cbn [dpTable drop]. apply IH. lia.
Qed.
Lemma suffixRow_lookup b o j : j ≤ length o → suffixRow b o !! j = Some (lcsLen b (drop j o)).
Proof.
  revert j. induction o as [|y o IH]; intros [|j] Hj; simpl in Hj; try lia; try done.
  cbn [suffixRow drop]. apply IH. lia.
Qed.
Lemma dpAt_spec b o i j :
  i ≤ length b → j ≤ length o → dpAt (dpTable b o) i j = lcsLen (drop i b) (drop j o).
Proof. intros Hi Hj. unfold dpAt. rewrite dpTable_row by done. simpl. by rewrite suffixRow_lookup. Qed.

Lemma lcsLen_upper b o s : s `sublist_of` b → s `sublist_of` o → length s ≤ lcsLen b o.
Proof.
  revert o s. induction b as [|x b IHb]; intros o s Hb.
  { apply sublist_nil_r in Hb as ->. simpl. lia. }
  revert s Hb. induction o as [|y o IHo]; intros s Hb Ho.
  { apply sublist_nil_r in Ho as ->. simpl. lia. }
  cbn [lcsLen]. destruct (x === y) eqn:Hxy.
  - apply jeq_true in Hxy as <-. apply sublist_cons_r in Hb as [Hb|(s' & -> & Hb)].
    + apply sublist_cons_r in Ho as [Ho|(s' & -> & Ho)]; [specialize (IHb o s Hb Ho); lia|].
      specialize (IHb o s'). simpl. enough (s' `sublist_of` b) by (specialize (IHb H Ho); lia).
      etransitivity; [|exact Hb]. by apply sublist_cons.
    + simpl. enough (s' `sublist_of` o) as H by (specialize (IHb o s' Hb H); lia).
      apply sublist_cons_l in Ho as (k1 & k2 & Ho & Hk).
      destruct k1 as [|z k1]; simplify_eq/=; [done|]. etransitivity; [exact Hk|].
      apply sublist_inserts_l. by apply sublist_cons.
  - apply jeq_false in Hxy. apply sublist_cons_r in Hb as [Hb|(s' & -> & Hb)].
    + specialize (IHb (y :: o) s Hb Ho). lia.
    + apply sublist_cons_r in Ho as [Ho|(s2 & [= -> <-] & Ho)]; [|done].
      specialize (IHo (x :: s')). cbn [lcsLen] in IHo. enough (length (x :: s') ≤ lcsLen (x :: b) o) by (cbn [lcsLen] in *; lia).
      apply IHo; [|done]. by apply sublist_skip.
Qed.

(** ** The walk *)
Definition after (i j : nat) (p : nat * nat) : Prop := i ≤ p.1 ∧ j ≤ p.2.
Definition pairLt (p q : nat * nat) : Prop := p.1 < q.1 ∧ p.2 < q.2.
Definition matches (base other : list jstr) (p : nat * nat) : Prop :=
  ∃ x, base !! p.1 = Some x ∧ other !! p.2 = Some x.

Lemma walk_sound fuel dp b o i j :
  Forall (after i j) (walk fuel dp b o i j) ∧
  StronglySorted pairLt (walk fuel dp b o i j) ∧
  Forall (matches b o) (walk fuel dp b o i j).
Proof.
  revert i j. induction fuel as [|fuel IH]; intros i j; [repeat constructor|]. simpl.
  destruct (b !! i) as [x|] eqn:Hx; [|repeat constructor].
  destruct (o !! j) as [y|] eqn:Hy; [|repeat constructor].
  destruct (x === y) eqn:Hxy.
  - apply jeq_true in Hxy as ->. destruct (IH (S i) (S j)) as (Ha & Hs & Hm).
    assert (Himp : ∀ P : nat * nat → Prop, (∀ p, after (S i) (S j) p → P p) →
              Forall P (walk fuel dp b o (S i) (S j))) by (intros P HP; eapply Forall_impl; [exact Ha|exact HP]).
    split_and!; constructor; try done;
      first [by exists y | apply Himp; intros [? ?] [? ?]; split; simpl in *; lia].
  - destruct (_ <=? _).
    + destruct (IH (S i) j) as (Ha & Hs & Hm). split_and!; try done.
      eapply Forall_impl; [exact Ha|]. intros [? ?] [? ?]. split; simpl in *; lia.
    + destruct (IH i (S j)) as (Ha & Hs & Hm). split_and!; try done.
      eapply Forall_impl; [exact Ha|]. intros [? ?] [? ?]. split; simpl in *; lia.
Qed.

Lemma walk_length fuel b o i j :
  i ≤ length b → j ≤ length o → (length b - i) + (length o - j) ≤ fuel →
  length (walk fuel (dpTable b o) b o i j) = lcsLen (drop i b) (drop j o).
Proof.
  revert i j. induction fuel as [|fuel IH]; intros i j Hi Hj Hf.
  { rewrite (drop_ge b i) by lia. by destruct (drop j o). }
  simpl. destruct (b !! i) as [x|] eqn:Hx.
  2:{ apply lookup_ge_None in Hx. rewrite (drop_ge b i) by lia. by destruct (drop j o). }
  destruct (o !! j) as [y|] eqn:Hy.
  2:{ apply lookup_ge_None in Hy. rewrite (drop_ge o j) by lia. by rewrite lcsLen_nil_r. }
  pose proof (lookup_lt_Some _ _ _ Hx). pose proof (lookup_lt_Some _ _ _ Hy).
  rewrite (drop_S b x i Hx), (drop_S o y j Hy). cbn [lcsLen].
  destruct (x === y); [simpl; rewrite IH by lia; done|].
  rewrite !dpAt_spec by lia. rewrite (drop_S b x i Hx), (drop_S o y j Hy).
  destruct (Nat.leb_spec (lcsLen (x :: drop (S i) b) (drop (S j) o)) (lcsLen (drop (S i) b) (y :: drop (S j) o))) as [Hle|Hlt];
    cbn [lcsLen] in *; rewrite IH by lia;
    rewrite ?(drop_S b x i Hx), ?(drop_S o y j Hy); cbn [lcsLen]; lia.
Qed.

Lemma lcsPairs_sound b o :
  StronglySorted pairLt (lcsPairs b o) ∧ Forall (matches b o) (lcsPairs b o).
Proof. apply walk_sound. Qed.

Lemma lcsPairs_optimal b o s : s `sublist_of` b → s `sublist_of` o → length s ≤ length (lcsPairs b o).
Proof. intros Hb Ho. unfold lcsPairs. rewrite walk_length by lia. by apply lcsLen_upper. Qed.

(** [lcsPairs] is a longest common subsequence: the pairs are strictly
    increasing on both sides, the paired lines are equal, and no common
    subsequence of the two texts is longer. *)
Theorem lcsPairs_longest base other :
  StronglySorted (λ p q, p.1 < q.1 ∧ p.2 < q.2) (lcsPairs base other) ∧
  Forall (λ p, ∃ x, base !! p.1 = Some x ∧ other !! p.2 = Some x) (lcsPairs base other) ∧
  ∀ s, s `sublist_of` base → s `sublist_of` other → length s ≤ length (lcsPairs base other).
Proof.
  destruct (lcsPairs_sound base other) as [Hs Hm]. split_and!; [exact Hs|exact Hm|].
  apply lcsPairs_optimal.
Qed.
Lemma lcsPairs_longest_witness :
  let a := [js "x"; js "y"; js "z"] in let b := [js "y"; js "q"; js "z"] in
  lcsPairs a b = [(1, 0); (2, 2)] ∧ length [js "y"; js "z"] ≤ length (lcsPairs a b).
Proof.
  split; [vm_compute; reflexivity|].
  apply (lcsPairs_longest [js "x"; js "y"; js "z"] [js "y"; js "q"; js "z"]).
  - by repeat constructor.
  - by repeat constructor.
Defined.

End Align.

Module Merge3.
Import Align.

Section Decode.
(** [new TextDecoder("utf-8", { fatal: true }).decode]: [None] when it throws. *)
Context (decodeUtf8 : list N → option jstr).

Definition TEXT_EXT : list jstr := [js ".md"; js ".markdown"; js ".txt"; js ".canvas"].
Definition isTextExt (path : jstr) : bool :=
  let low := lower path in existsb (λ e, ends_with low e) TEXT_EXT.
Definition strictDecode (bytes : list N) : option jstr := decodeUtf8 bytes.
Definition isMergeable (path : jstr) (bytes : list N) : bool :=
  if isTextExt path then match decodeUtf8 bytes with Some _ => true | None => false end else false.
End Decode.

Definition splitLines (s : jstr) : list jstr := if decide (s = []) then [] else split_on cLF s.
Definition MAX_MERGE_LINES : nat := Z.to_nat 5000.

(** [s.replace(/\r\n/g, "\n")] *)
Fixpoint norm (s : jstr) : jstr :=
  match s with
  | [] => []
  | x :: s' =>
      match s' with
      | y :: _ => if decide (x = cCR ∧ y = cLF) then norm s' else x :: norm s'
      | [] => [x]
      end
  end.

(** [new Map(pairs)]: a later pair wins. *)
Definition mapOf (ps : list (nat * nat)) : gmap nat nat := list_to_map (reverse ps).
(** [a.slice(i, j)] *)
Definition slice {A} (i j : nat) (l : list A) : list A := take (j - i) (drop i l).

Definition anchorsOf (B : list jstr) (lb rb : gmap nat nat) : list (nat * nat * nat) :=
  omap (λ bi, match lb !! bi, rb !! bi with
              | Some li, Some ri => Some (bi, li, ri)
              | _, _ => None
              end) (seq 0 (length B)).

Definition resolveGap (bs ls rs : list jstr) (st : list jstr * bool) : list jstr * bool :=
  let '(out, clean) := st in
  if decide (ls = bs) then (out ++ rs, clean)
  else if decide (rs = bs) then (out ++ ls, clean)
  else if decide (ls = rs) then (out ++ ls, clean)
  else (out ++ ls, false).

#[local] Arguments resolveGap : simpl never.

(** The loop over the anchors; [nb], [nl], [nr] are [pb + 1], [pl + 1], [pr + 1]. *)
Fixpoint mergeFrom (B L R : list jstr) (anchors : list (nat * nat * nat)) (nb nl nr : nat)
    (st : list jstr * bool) : list jstr * bool :=
  match anchors with
  | [] => resolveGap (drop nb B) (drop nl L) (drop nr R) st
  | (bi, li, ri) :: rest =>
      let '(out, clean) := resolveGap (slice nb bi B) (slice nl li L) (slice nr ri R) st in
      mergeFrom B L R rest (S bi) (S li) (S ri) (out ++ option_list (B !! bi), clean)
  end.

Record Merged := { merged : jstr; clean : bool }.
Definition merge3Lines (B L R : list jstr) : list jstr * bool :=
  mergeFrom B L R (anchorsOf B (mapOf (lcsPairs B L)) (mapOf (lcsPairs B R))) 0 0 0 ([], true).
Definition merge3 (base0 local0 remote0 : jstr) : Merged :=
  let base := norm base0 in
  let local := norm local0 in
  let remote := norm remote0 in
  if local === remote then {| merged := local; clean := true |}
  else if base === local then {| merged := remote; clean := true |}
  else if base === remote then {| merged := local; clean := true |}
  else
    let B := splitLines base in
    let L := splitLines local in
    let R := splitLines remote in
    if (MAX_MERGE_LINES <? length B) || (MAX_MERGE_LINES <? length L) || (MAX_MERGE_LINES <? length R)
    then {| merged := local; clean := false |}
    else let '(out, c) := merge3Lines B L R in {| merged := join_with cLF out; clean := c |}.

(** ** The merge as a sequence of regions *)

(** A region of the file: its lines in the base, in each side, and in the
    result. *)
Record Region := { rb : list jstr; rl : list jstr; rr : list jstr; rm : list jstr }.
(** Exactly the changes of one side, of the other, or the change both made. *)
Definition resolved (g : Region) : Prop :=
  (rl g = rb g ∧ rm g = rr g) ∨ (rr g = rb g ∧ rm g = rl g) ∨ (rl g = rr g ∧ rm g = rl g).
Definition conflicting (g : Region) : Prop :=
  rl g ≠ rb g ∧ rr g ≠ rb g ∧ rl g ≠ rr g ∧ rm g = rl g.

Definition gapRegion (bs ls rs : list jstr) : Region :=
  {| rb := bs; rl := ls; rr := rs; rm := (resolveGap bs ls rs ([], true)).1 |}.
Definition gapClean (bs ls rs : list jstr) : bool := (resolveGap bs ls rs ([], true)).2.

Lemma resolveGap_spec bs ls rs out c :
  resolveGap bs ls rs (out, c) = (out ++ rm (gapRegion bs ls rs), c && gapClean bs ls rs).
Proof. unfold gapClean; simpl; unfold resolveGap. repeat case_decide; simpl; by rewrite ?andb_true_r, ?andb_false_r. Qed.
Lemma gapClean_resolved bs ls rs :
  if gapClean bs ls rs then resolved (gapRegion bs ls rs) else conflicting (gapRegion bs ls rs).
Proof.
  unfold gapClean, resolved, conflicting; simpl; unfold resolveGap.
  repeat case_decide; simpl; subst; auto 10.
Qed.

(** Anchors that are increasing on the three sides and pair equal lines. *)
Definition anchor_ok (B L R : list jstr) (nb nl nr : nat) (a : nat * nat * nat) : Prop :=
  let '(bi, li, ri) := a in
  nb ≤ bi ∧ nl ≤ li ∧ nr ≤ ri ∧ ∃ x, B !! bi = Some x ∧ L !! li = Some x ∧ R !! ri = Some x.
Fixpoint anchors_ok (B L R : list jstr) (nb nl nr : nat) (l : list (nat * nat * nat)) : Prop :=
  match l with
  | [] => True
  | (bi, li, ri) :: rest =>
      anchor_ok B L R nb nl nr (bi, li, ri) ∧ anchors_ok B L R (S bi) (S li) (S ri) rest
  end.

Lemma slice_split {A} i j (l : list A) x :
  i ≤ j → l !! j = Some x → drop i l = slice i j l ++ x :: drop (S j) l.
Proof.
  intros Hij Hx. unfold slice. rewrite <- (take_drop (j - i) (drop i l)) at 1. f_equal.
  rewrite drop_drop. replace (i + (j - i)) with j by lia. by apply drop_S.
Qed.

Lemma mergeFrom_regions B L R anchors nb nl nr out c :
  anchors_ok B L R nb nl nr anchors →
  ∃ gs, drop nb B = concat (rb <$> gs) ∧ drop nl L = concat (rl <$> gs) ∧
        drop nr R = concat (rr <$> gs) ∧
        (mergeFrom B L R anchors nb nl nr (out, c)).1 = out ++ concat (rm <$> gs) ∧
        (mergeFrom B L R anchors nb nl nr (out, c)).2 = c && forallb (λ g, gapClean (rb g) (rl g) (rr g)) gs ∧
        Forall (λ g, g = gapRegion (rb g) (rl g) (rr g)) gs.
Proof.
  revert nb nl nr out c.
  induction anchors as [|[[bi li] ri] rest IH]; intros nb nl nr out c Ha.
  - exists [gapRegion (drop nb B) (drop nl L) (drop nr R)]. cbn [mergeFrom]. rewrite resolveGap_spec.
    simpl. rewrite !app_nil_r, andb_true_r. split_and!; try done. by repeat constructor.
  - destruct Ha as [(Hb & Hl & Hr & x & HB & HL & HR) Hrest]. cbn [mergeFrom].
    rewrite resolveGap_spec, HB.
    set (g := gapRegion (slice nb bi B) (slice nl li L) (slice nr ri R)) in *.
    destruct (IH (S bi) (S li) (S ri) ((out ++ rm g) ++ [x])
                (c && gapClean (slice nb bi B) (slice nl li L) (slice nr ri R)) Hrest)
      as (gs & HgB & HgL & HgR & Hm & Hc & Hgs).
    exists (g :: gapRegion [x] [x] [x] :: gs). change (option_list (Some x)) with [x]. rewrite Hm, Hc.
    rewrite (slice_split nb bi B x), (slice_split nl li L x), (slice_split nr ri R x), HgB, HgL, HgR by done.
    simpl. assert (Hx : gapClean [x] [x] [x] = true) by (unfold gapClean, resolveGap; by rewrite decide_True).
    assert (Hrx : (resolveGap [x] [x] [x] ([], true)).1 = [x]) by (unfold resolveGap; by rewrite decide_True).
    rewrite Hx, Hrx, <- !app_assoc. simpl. rewrite andb_assoc. split_and!; try done.
    repeat constructor; done.
Qed.

(** The anchors [merge3] computes are of that kind. *)
Lemma mapOf_lookup B O bi i :
  mapOf (lcsPairs B O) !! bi = Some i → (bi, i) ∈ lcsPairs B O.
Proof.
  unfold mapOf. intros H. apply elem_of_list_to_map_2 in H. by rewrite elem_of_reverse in H.
Qed.
Lemma sorted_pairs_mono (ps : list (nat * nat)) p q :
  StronglySorted pairLt ps → p ∈ ps → q ∈ ps → p.1 < q.1 → p.2 < q.2.
Proof.
  induction 1 as [|x ps Hs IH Hf]; [by intros ?%not_elem_of_nil|].
  rewrite Forall_forall in Hf.
  intros [->|Hp]%elem_of_cons [->|Hq]%elem_of_cons; [lia| | |by apply IH].
  - intros _. by apply Hf.
  - intros ?. apply Hf in Hp as [? ?]. lia.
Qed.

Lemma anchorsOf_ok B L R k n :
  k + n = length B →
  ∀ nl nr, (∀ bi li, k ≤ bi → mapOf (lcsPairs B L) !! bi = Some li → nl ≤ li) →
  (∀ bi ri, k ≤ bi → mapOf (lcsPairs B R) !! bi = Some ri → nr ≤ ri) →
  ∀ nb, nb ≤ k →
  anchors_ok B L R nb nl nr
    (omap (λ bi, match mapOf (lcsPairs B L) !! bi, mapOf (lcsPairs B R) !! bi with
                 | Some li, Some ri => Some (bi, li, ri)
                 | _, _ => None
                 end) (seq k n)).
Proof.
  destruct (lcsPairs_sound B L) as [HsL HmL], (lcsPairs_sound B R) as [HsR HmR].
  rewrite Forall_forall in HmL, HmR.
  revert k. induction n as [|n IH]; intros k Hk nl nr Hnl Hnr nb Hnb; [done|]. cbn [seq omap list_omap].
  destruct (mapOf (lcsPairs B L) !! k) as [li|] eqn:Hl;
    [destruct (mapOf (lcsPairs B R) !! k) as [ri|] eqn:Hr|].
  2,3: apply IH; [lia|intros; eapply Hnl; [|done]; lia|intros; eapply Hnr; [|done]; lia|lia].
  apply mapOf_lookup in Hl as HinL. apply mapOf_lookup in Hr as HinR.
  destruct (HmL _ HinL) as (x & HB & HL). destruct (HmR _ HinR) as (x' & HB' & HR). simpl in *.
  split.
  - split_and!; [done|by eapply Hnl|by eapply Hnr|]. exists x. split_and!; [done..|congruence].
  - apply IH; [lia| | |lia].
    + intros bi li' Hbi Hli'%mapOf_lookup.
      apply (sorted_pairs_mono _ (k, li) (bi, li') HsL) in Hli'; simpl in *; [lia|done|lia].
    + intros bi ri' Hbi Hri'%mapOf_lookup.
      apply (sorted_pairs_mono _ (k, ri) (bi, ri') HsR) in Hri'; simpl in *; [lia|done|lia].
Qed.

Lemma merge3Lines_regions B L R :
  ∃ gs, B = concat (rb <$> gs) ∧ L = concat (rl <$> gs) ∧ R = concat (rr <$> gs) ∧
        (merge3Lines B L R).1 = concat (rm <$> gs) ∧
        (merge3Lines B L R).2 = forallb (λ g, gapClean (rb g) (rl g) (rr g)) gs ∧
        Forall (λ g, g = gapRegion (rb g) (rl g) (rr g)) gs.
Proof.
  apply (mergeFrom_regions B L R _ 0 0 0 [] true), anchorsOf_ok; [done|intros; lia..].
Qed.

Lemma join_splitLines s : join_with cLF (splitLines s) = s.
Proof. unfold splitLines. case_decide; [by subst|]. apply join_split. Qed.

(** C10: A clean merge loses nothing.  When [merge3] reports [clean], the three
    texts and the result cut into the same sequence of line regions, and in every
    region the result is one side's text where the other side left the base
    unchanged, or the change both made. *)
Theorem merge3_clean_keeps_all base local remote :
  clean (merge3 base local remote) = true →
  ∃ gs, norm base = join_with cLF (concat (rb <$> gs)) ∧
        norm local = join_with cLF (concat (rl <$> gs)) ∧
        norm remote = join_with cLF (concat (rr <$> gs)) ∧
        merged (merge3 base local remote) = join_with cLF (concat (rm <$> gs)) ∧
        Forall resolved gs.
Proof.
  unfold merge3. cbv zeta.
  set (b := norm base). set (l := norm local). set (r := norm remote).
  assert (Hone : ∀ m, resolved {| rb := splitLines b; rl := splitLines l; rr := splitLines r; rm := splitLines m |} →
            ∃ gs, b = join_with cLF (concat (rb <$> gs)) ∧ l = join_with cLF (concat (rl <$> gs)) ∧
                  r = join_with cLF (concat (rr <$> gs)) ∧ m = join_with cLF (concat (rm <$> gs)) ∧ Forall resolved gs).
  { intros m Hm. exists [{| rb := splitLines b; rl := splitLines l; rr := splitLines r; rm := splitLines m |}]. cbn [fmap list_fmap concat rb rl rr rm]. rewrite !app_nil_r, !join_splitLines.
    split_and!; [done..|]. by apply Forall_singleton. }
  destruct (l === r) eqn:Hlr; simpl.
  { apply jeq_true in Hlr. intros _. apply Hone. right. right. simpl. by rewrite Hlr. }
  destruct (b === l) eqn:Hbl; simpl.
  { apply jeq_true in Hbl. intros _. apply Hone. left. simpl. by rewrite Hbl. }
  destruct (b === r) eqn:Hbr; simpl.
  { apply jeq_true in Hbr. intros _. apply Hone. right. left. simpl. by rewrite Hbr. }
  case_match; simpl; [done|].
  destruct (merge3Lines_regions (splitLines b) (splitLines l) (splitLines r))
    as (gs & HB & HL & HR & Hm & Hc & Hgs).
  destruct (merge3Lines _ _ _) as [out c]. cbn [fst snd clean merged] in *. intros ->. exists gs.
  rewrite <- HB, <- HL, <- HR, !join_splitLines, Hm. split_and!; [done..|].
  symmetry in Hc. rewrite forallb_forall in Hc. apply Forall_forall. intros g Hg.
  rewrite Forall_forall in Hgs. rewrite (Hgs g Hg).
  pose proof (gapClean_resolved (rb g) (rl g) (rr g)) as Hr.
  rewrite Hc in Hr by (by rewrite <- list_elem_of_In). done.
Qed.
Lemma merge3_clean_keeps_all_witness :
  let base := js "one" ++ [10%N] ++ js "two" ++ [10%N] ++ js "three" in
  let local := js "ONE" ++ [10%N] ++ js "two" ++ [10%N] ++ js "three" in
  let remote := js "one" ++ [10%N] ++ js "two" ++ [10%N] ++ js "THREE" in
  merged (merge3 base local remote) = js "ONE" ++ [10%N] ++ js "two" ++ [10%N] ++ js "THREE" ∧
  ∃ gs, merged (merge3 base local remote) = join_with cLF (concat (rm <$> gs)) ∧ Forall resolved gs.
Proof.
  split; [vm_compute; reflexivity|].
  destruct (merge3_clean_keeps_all (js "one" ++ [10%N] ++ js "two" ++ [10%N] ++ js "three")
    (js "ONE" ++ [10%N] ++ js "two" ++ [10%N] ++ js "three")
    (js "one" ++ [10%N] ++ js "two" ++ [10%N] ++ js "THREE")) as (gs & _ & _ & _ & Hm & Hgs);
    [vm_compute; reflexivity|].
  exists gs. split; [exact Hm|exact Hgs].
Defined.

(** ** The merge does not depend on which device runs it *)

(** Two runs agree on cleanliness, and on the text as long as they are clean. *)
Definition agree (s1 s2 : list jstr * bool) : Prop := s1.2 = s2.2 ∧ (s1.2 = true → s1.1 = s2.1).
Definition swapAnchor (a : nat * nat * nat) : nat * nat * nat := let '(bi, li, ri) := a in (bi, ri, li).

Lemma resolveGap_swap bs ls rs s1 s2 :
  agree s1 s2 → agree (resolveGap bs ls rs s1) (resolveGap bs rs ls s2).
Proof.
  destruct s1 as [o1 c1], s2 as [o2 c2]. intros [Hc Ho]. simpl in *. unfold agree, resolveGap.
  repeat case_decide; simplify_eq/=; split; try done; intros; f_equal; auto.
Qed.
Lemma mergeFrom_swap B L R anchors nb nl nr s1 s2 :
  agree s1 s2 →
  agree (mergeFrom B L R anchors nb nl nr s1) (mergeFrom B R L (swapAnchor <$> anchors) nb nr nl s2).
Proof.
  revert nb nl nr s1 s2. induction anchors as [|[[bi li] ri] rest IH]; intros nb nl nr s1 s2 Hs.
  - by apply resolveGap_swap.
  - cbn [fmap list_fmap swapAnchor mergeFrom].
    pose proof (resolveGap_swap (slice nb bi B) (slice nl li L) (slice nr ri R) _ _ Hs) as [Hc Ho].
    destruct (resolveGap _ _ _ s1) as [o1 c1], (resolveGap _ _ _ s2) as [o2 c2]. simpl in *.
    apply IH. split; simpl; [done|]. intros Hc1. by rewrite Ho.
Qed.
Lemma anchorsOf_swap B lb rb : anchorsOf B rb lb = swapAnchor <$> anchorsOf B lb rb.
Proof.
  unfold anchorsOf. induction (seq 0 (length B)) as [|bi l IH]; [done|]. csimpl.
  destruct (lb !! bi), (rb !! bi); csimpl; by rewrite IH.
Qed.
Lemma merge3Lines_swap B L R : agree (merge3Lines B L R) (merge3Lines B R L).
Proof. unfold merge3Lines. rewrite (anchorsOf_swap B (mapOf (lcsPairs B L))). by apply mergeFrom_swap. Qed.

(** Both devices get the same merge: swapping local and remote changes
    neither whether the merge is clean nor, when it is, the merged text; so two
    devices that merge the same divergence converge instead of conflicting
    again. *)
Theorem merge3_symmetric base local remote :
  clean (merge3 base local remote) = clean (merge3 base remote local) ∧
  (clean (merge3 base local remote) = true →
   merged (merge3 base local remote) = merged (merge3 base remote local)).
Proof.
  unfold merge3. cbv zeta. set (b := norm base). set (l := norm local). set (r := norm remote).
  assert (Hsym : ∀ x y : jstr, (x === y) = (y === x)) by (intros; unfold jeq; apply bool_decide_ext; done).
  rewrite (Hsym r l). destruct (l === r) eqn:Hlr; [apply jeq_true in Hlr; by rewrite Hlr|].
  destruct (b === l) eqn:Hbl, (b === r) eqn:Hbr; try done.
  { apply jeq_true in Hbl, Hbr. apply jeq_false in Hlr. congruence. }
  rewrite <- (orb_comm (MAX_MERGE_LINES <? length (splitLines r))), orb_assoc.
  rewrite (orb_comm (_ <? length (splitLines r)) (_ <? length (splitLines b))).
  destruct (_ || _); [done|].
  pose proof (merge3Lines_swap (splitLines b) (splitLines l) (splitLines r)) as [Hc Ho].
  destruct (merge3Lines _ (splitLines l) _), (merge3Lines _ (splitLines r) _). simpl in *.
  split; [done|]. intros H. by rewrite Ho.
Qed.
Lemma merge3_symmetric_witness :
  let base := js "a" ++ [10%N] ++ js "b" in
  let local := js "a" ++ [10%N] ++ js "B" in
  let remote := js "x" ++ [10%N] ++ js "a" ++ [10%N] ++ js "b" in
  merged (merge3 base local remote) = merged (merge3 base remote local).
Proof. apply (merge3_symmetric (js "a" ++ [10%N] ++ js "b")). vm_compute. reflexivity. Defined.

End Merge3.

Module Preview.
Import Align.

Inductive PushPullOp := OpOverwrite | OpCreate | OpDelete | OpUnchanged.
#[export] Instance PushPullOp_eq_dec : EqDecision PushPullOp.
Proof. solve_decision. Defined.
Inductive PushDirection := DPush | DPull.
Record FileChange := { path : jstr; op : PushPullOp }.
Record SideState := { present : bool; hash : option jstr }.
Record PreviewFile := { f_path : jstr; f_local : SideState; f_server : SideState }.

(** [null] when neither is known; an empty author or device name is falsy but
    not nullish. *)
Definition serverProvenanceWho (author deviceName : option jstr) : option jstr :=
  match author, deviceName with
  | Some a, Some d => if truthy a && truthy d then Some (a ++ [32; 183; 32]%N ++ d) else Some a
  | Some a, None => Some a
  | None, d => d
  end.

Definition provenSame (src tgt : SideState) : bool :=
  match hash src, hash tgt with Some a, Some b => a === b | _, _ => false end.
Definition classifyOne (direction : PushDirection) (f : PreviewFile) : FileChange :=
  let '(src, tgt) := match direction with
                     | DPush => (f_local f, f_server f)
                     | DPull => (f_server f, f_local f)
                     end in
  let o :=
    if present src && negb (present tgt) then OpCreate
    else if negb (present src) && present tgt then OpDelete
    else if present src && present tgt then
      if provenSame src tgt then OpUnchanged else OpOverwrite
    else OpUnchanged in
  {| path := f_path f; op := o |}.
Definition classifyPushPull (files : list PreviewFile) (direction : PushDirection) : list FileChange :=
  classifyOne direction <$> files.

Record ChangeCounts := { overwrite : nat; create : nat; delete : nat; unchanged : nat }.
Definition bump (c : ChangeCounts) (o : PushPullOp) : ChangeCounts :=
  match o with
  | OpOverwrite => {| overwrite := S (overwrite c); create := create c; delete := delete c; unchanged := unchanged c |}
  | OpCreate => {| overwrite := overwrite c; create := S (create c); delete := delete c; unchanged := unchanged c |}
  | OpDelete => {| overwrite := overwrite c; create := create c; delete := S (delete c); unchanged := unchanged c |}
  | OpUnchanged => {| overwrite := overwrite c; create := create c; delete := delete c; unchanged := S (unchanged c) |}
  end.
Definition countChanges (changes : list FileChange) : ChangeCounts :=
  foldl (λ c ch, bump c (op ch)) {| overwrite := 0; create := 0; delete := 0; unchanged := 0 |} changes.
Definition touchedCount (changes : list FileChange) : nat :=
  foldl (λ n ch, n + (if decide (op ch = OpUnchanged) then 0 else 1)) 0 changes.

Record Stamped := { s_path : jstr; s_size : option Z; s_mtime : option Z }.
Definition stampMatches (local : gmap jstr (Z * Z)) (b : Stamped) : bool :=
  match local !! s_path b with
  | None => false
  | Some (size, mtime) =>
      match s_size b, s_mtime b with
      | Some bs, Some bm => (size =? bs)%Z && (mtime =? bm)%Z
      | _, _ => false
      end
  end.
Definition stampsConverged (base : list Stamped) (local : gmap jstr (Z * Z)) : bool :=
  if decide (length base ≠ size local) then false else forallb (stampMatches local) base.

Inductive DiffLine := Add (text : jstr) | Del (text : jstr) | Ctx (text : jstr).
Definition MAX_DIFF_LINES : nat := Z.to_nat 2000.

(** The anchor loop; [ai] and [bi] are the positions reached. *)
Fixpoint diffFrom (A B : list jstr) (pairs : list (nat * nat)) (ai bi : nat) : list DiffLine :=
  match pairs with
  | [] => (Del <$> drop ai A) ++ (Add <$> drop bi B)
  | (a, b) :: rest =>
      (Del <$> Merge3.slice ai a A) ++ (Add <$> Merge3.slice bi b B)
      ++ (Ctx <$> option_list (A !! a)) ++ diffFrom A B rest (S a) (S b)
  end.
Definition textLines (s : jstr) : list jstr := if decide (s = []) then [] else split_on cLF s.
Definition lineDiff (oldText newText : jstr) : option (list DiffLine) :=
  let A := textLines oldText in
  let B := textLines newText in
  if MAX_DIFF_LINES <? length A + length B then None
  else Some (diffFrom A B (lcsPairs A B) 0 0).

(** The lines a diff says the old and the new text have. *)
Definition oldLine (d : DiffLine) : option jstr := match d with Del t | Ctx t => Some t | Add _ => None end.
Definition newLine (d : DiffLine) : option jstr := match d with Add t | Ctx t => Some t | Del _ => None end.
Definition isCtx (d : DiffLine) : bool := match d with Ctx _ => true | _ => false end.

Lemma omap_Del_old (l : list jstr) : omap oldLine (Del <$> l) = l.
Proof. induction l; [done|]. csimpl. congruence. Qed.
Lemma omap_Add_new (l : list jstr) : omap newLine (Add <$> l) = l.
Proof. induction l; [done|]. csimpl. congruence. Qed.
Lemma omap_Add_old (l : list jstr) : omap oldLine (Add <$> l) = [].
Proof. by induction l. Qed.
Lemma omap_Del_new (l : list jstr) : omap newLine (Del <$> l) = [].
Proof. by induction l. Qed.
Lemma filter_ctx_none (f : jstr → DiffLine) (l : list jstr) :
  (∀ t, isCtx (f t) = false) → filter (λ d, isCtx d = true) (f <$> l) = [].
Proof. intros Hf. induction l as [|t l IH]; [done|]. csimpl. rewrite filter_cons, Hf. simpl. done. Qed.

Lemma diffFrom_texts A B pairs ai bi :
  StronglySorted pairLt pairs → Forall (matches A B) pairs → Forall (after ai bi) pairs →
  omap oldLine (diffFrom A B pairs ai bi) = drop ai A ∧
  omap newLine (diffFrom A B pairs ai bi) = drop bi B ∧
  length (filter (λ d, isCtx d = true) (diffFrom A B pairs ai bi)) = length pairs.
Proof.
  intros Hs. revert ai bi. induction Hs as [|[a b] pairs Hs IH Hlt]; intros ai bi Hm Ha.
  - cbn [diffFrom]. rewrite !omap_app, omap_Del_old, omap_Add_old, omap_Del_new, omap_Add_new, app_nil_r.
    rewrite filter_app, !filter_ctx_none by done. done.
  - apply Forall_cons in Hm as [(x & HA & HB) Hm]. apply Forall_cons in Ha as [[Ha1 Ha2] Ha]. simpl in *.
    destruct (IH (S a) (S b) Hm) as (Ho & Hn & Hc).
    { eapply Forall_impl; [exact Hlt|]. intros [? ?] [? ?]. split; simpl in *; lia. }
    rewrite HA. change (Ctx <$> option_list (Some x)) with [Ctx x].
    rewrite !omap_app, omap_Del_old, omap_Add_old, omap_Del_new, omap_Add_new, Ho, Hn.
    rewrite !filter_app, !filter_ctx_none by done. simpl. rewrite Hc.
    rewrite (Merge3.slice_split ai a A x), (Merge3.slice_split bi b B x) by done. done.
Qed.

(** The diff shown before an authoritative overwrite is exact: its context and
    deleted lines spell the old text, its context and added lines the new one, and
    no diff of the two texts marks fewer lines as changed. *)
Theorem lineDiff_exact oldText newText d :
  lineDiff oldText newText = Some d →
  join_with cLF (omap oldLine d) = oldText ∧
  join_with cLF (omap newLine d) = newText ∧
  ∀ kept, kept `sublist_of` omap oldLine d → kept `sublist_of` omap newLine d →
          length kept ≤ length (filter (λ x, isCtx x = true) d).
Proof.
  unfold lineDiff. case_match; [done|]. intros [= <-].
  set (A := textLines oldText). set (B := textLines newText).
  destruct (lcsPairs_sound A B) as (Hs & Hm). pose proof (lcsPairs_optimal A B) as Hopt.
  destruct (diffFrom_texts A B (lcsPairs A B) 0 0 Hs Hm) as (Ho & Hn & Hc).
  { apply Forall_forall. intros [? ?] _. split; simpl; lia. }
  rewrite Ho, Hn, Hc, !drop_0. split_and!; [apply Merge3.join_splitLines..|exact Hopt].
Qed.
Lemma lineDiff_exact_witness :
  let o := js "a" ++ [10%N] ++ js "b" in let n := js "b" ++ [10%N] ++ js "c" in
  lineDiff o n = Some [Del (js "a"); Ctx (js "b"); Add (js "c")] ∧
  join_with cLF (omap newLine [Del (js "a"); Ctx (js "b"); Add (js "c")]) = n.
Proof.
  split; [vm_compute; reflexivity|].
  apply (lineDiff_exact (js "a" ++ [10%N] ++ js "b") (js "b" ++ [10%N] ++ js "c")
           [Del (js "a"); Ctx (js "b"); Add (js "c")]).
  vm_compute. reflexivity.
Defined.

(** Push and Pull grey out only when both are no-ops: for a base without
    repeated paths, the cheap stamp check answers "converged" exactly when local
    and base hold the same paths and every base file carries the size and mtime
    found on disk. *)
Theorem stampsConverged_iff base local :
  NoDup (s_path <$> base) →
  stampsConverged base local = true ↔
  (∀ p, p ∈ dom local ↔ p ∈ s_path <$> base) ∧
  (∀ b, b ∈ base → ∃ sz mt, local !! s_path b = Some (sz, mt) ∧ s_size b = Some sz ∧ s_mtime b = Some mt).
Proof.
  intros Hnd. unfold stampsConverged.
  assert (Hmatch : ∀ b, stampMatches local b = true ↔
            ∃ sz mt, local !! s_path b = Some (sz, mt) ∧ s_size b = Some sz ∧ s_mtime b = Some mt).
  { intros b. unfold stampMatches. destruct (local !! s_path b) as [[sz mt]|]; [|naive_solver].
    destruct (s_size b) as [bs|], (s_mtime b) as [bm|]; try naive_solver.
    rewrite andb_true_iff, !Z.eqb_eq. naive_solver. }
  assert (Hall : forallb (stampMatches local) base = true ↔
            ∀ b, b ∈ base → ∃ sz mt, local !! s_path b = Some (sz, mt) ∧ s_size b = Some sz ∧ s_mtime b = Some mt).
  { rewrite forallb_forall. setoid_rewrite <- list_elem_of_In. by setoid_rewrite Hmatch. }
  assert (Hlen : length base = size (list_to_set (s_path <$> base) : gset jstr)).
  { rewrite size_list_to_set by done. by rewrite length_fmap. }
  assert (Hsub : (∀ b, b ∈ base → ∃ sz mt, local !! s_path b = Some (sz, mt) ∧ s_size b = Some sz ∧ s_mtime b = Some mt) →
            (list_to_set (s_path <$> base) : gset jstr) ⊆ dom local).
  { intros Hb p. rewrite elem_of_list_to_set, list_elem_of_fmap.
    intros (b & -> & (sz & mt & Hl & _)%Hb). apply elem_of_dom. by eexists. }
  case_decide as Hsz.
  - split; [done|]. intros [Hdom Hb]. exfalso. apply Hsz. rewrite Hlen, <- (size_dom local).
    f_equal. apply set_eq. intros p. by rewrite elem_of_list_to_set, Hdom.
  - rewrite Hall. split; [|tauto]. intros Hb. split; [|done]. specialize (Hsub Hb).
    assert (Heq : (list_to_set (s_path <$> base) : gset jstr) = dom local).
    { apply set_subseteq_size_eq; [done|]. rewrite <- Hlen, size_dom. lia. }
    intros p. by rewrite <- Heq, elem_of_list_to_set.
Qed.
Lemma stampsConverged_iff_witness :
  let base := [{| s_path := js "a"; s_size := Some 3%Z; s_mtime := Some 9%Z |}] in
  NoDup (s_path <$> base) ∧
  ∀ p, p ∈ dom ({[ js "a" := (3, 9)%Z ]} : gmap jstr (Z * Z)) ↔ p ∈ s_path <$> base.
Proof.
  assert (Hnd : NoDup (s_path <$> [{| s_path := js "a"; s_size := Some 3%Z; s_mtime := Some 9%Z |}])).
  { apply NoDup_singleton. }
  split; [exact Hnd|].
  apply (proj1 (stampsConverged_iff _ {[ js "a" := (3, 9)%Z ]} Hnd)). vm_compute. reflexivity.
Defined.

(** The preview never under-reports: a file present on a side is shown as
    untouched only when both sides hold it with equal known hashes, and the
    headline number counts the overwritten, created and deleted files. *)
Theorem preview_never_underreports files direction :
  (∀ f, f ∈ files → op (classifyOne direction f) = OpUnchanged →
     present (f_local f) = true ∨ present (f_server f) = true →
     ∃ h, hash (f_local f) = Some h ∧ hash (f_server f) = Some h) ∧
  let c := countChanges (classifyPushPull files direction) in
  touchedCount (classifyPushPull files direction) = overwrite c + create c + delete c ∧
  overwrite c + create c + delete c + unchanged c = length files.
Proof.
  split.
  - intros f _ Hop Hp. unfold classifyOne, provenSame in Hop.
    destruct direction, (present (f_local f)), (present (f_server f)); simplify_eq/=;
      try (destruct Hp; done);
      repeat case_match; simplify_eq; match goal with H : _ === _ = true |- _ => apply jeq_true in H as -> end; eauto.
  - unfold classifyPushPull, countChanges, touchedCount.
    assert (Hgen : ∀ (l : list PreviewFile) n c,
              n = overwrite c + create c + delete c →
              let c' := foldl (λ c ch, bump c (op ch)) c (classifyOne direction <$> l) in
              foldl (λ n ch, n + (if decide (op ch = OpUnchanged) then 0 else 1)) n (classifyOne direction <$> l)
                = overwrite c' + create c' + delete c' ∧
              overwrite c' + create c' + delete c' + unchanged c'
                = overwrite c + create c + delete c + unchanged c + length l).
    { induction l as [|f l IH]; intros n c ->; cbn [fmap list_fmap foldl length]; [lia|].
      generalize (op (classifyOne direction f)). intros o.
      destruct (IH (overwrite c + create c + delete c + (if decide (o = OpUnchanged) then 0 else 1)) (bump c o))
        as [IH1 IH2]; [destruct o; simpl; lia|].
      split; [exact IH1|]. rewrite IH2. destruct o; simpl; lia. }
    by apply (Hgen files 0 {| overwrite := 0; create := 0; delete := 0; unchanged := 0 |}).
Qed.
Lemma preview_never_underreports_witness :
  let f := {| f_path := js "d"; f_local := {| present := true; hash := Some (js "h") |};
              f_server := {| present := true; hash := Some (js "h") |} |} in
  op (classifyOne DPush f) = OpUnchanged ∧
  ∃ h, hash (f_local f) = Some h ∧ hash (f_server f) = Some h.
Proof.
  split; [reflexivity|].
  apply (proj1 (preview_never_underreports
    [{| f_path := js "d"; f_local := {| present := true; hash := Some (js "h") |};
        f_server := {| present := true; hash := Some (js "h") |} |}] DPush));
    [by left|reflexivity|by left].
Defined.

End Preview.
