(* ===== verification/Paths.v ===== *)
(** * Paths: identity, safety, exclusion and mounts

    [client/src/pathidentity.ts] (when two path strings are one file),
    [pathsafe.ts] (the guard on paths taken from the server), [excludedFolders.ts]
    and [mounts.ts] (the path arithmetic and overlap rules of composed vaults).
    [String.prototype.normalize("NFC")] and the full Unicode [toLowerCase] are
    parameters of the definitions that fold names: the theorems hold for any
    folding. *)

From Stdlib Require Import Sorted.
From stdpp Require Import sorting.
From S2P Require Import Prelude.

Module Identity.
Section Identity.
Context (nfc lowerCase : jstr → jstr).

Record PathFs := { caseInsensitive : bool; normInsensitive : bool }.
Definition EXACT_FS : PathFs := {| caseInsensitive := false; normInsensitive := false |}.

Definition identityKey (path : jstr) (fs : PathFs) : jstr :=
  let n := if normInsensitive fs then nfc path else path in
  if caseInsensitive fs then lowerCase n else n.
Definition sameFile (a b : jstr) (fs : PathFs) : bool :=
  (a === b) || (identityKey a fs === identityKey b fs).

(** [if (!m.has(f)) m.set(f, k)] over the keys in order. *)
Definition indexKey (fs : PathFs) (m : gmap jstr jstr) (k : jstr) : gmap jstr jstr :=
  let f := identityKey k fs in
  match m !! f with Some _ => m | None => <[f := k]> m end.
Definition identityIndex (keys : list jstr) (fs : PathFs) : gmap jstr jstr :=
  foldl (indexKey fs) ∅ keys.

(** The map of groups, in insertion order. *)
Fixpoint addToGroup (f k : jstr) (by_ : list (jstr * list jstr)) : list (jstr * list jstr) :=
  match by_ with
  | [] => [(f, [k])]
  | (f', g) :: rest =>
      if f' === f then (f', if bool_decide (k ∈ g) then g else g ++ [k]) :: rest
      else (f', g) :: addToGroup f k rest
  end.
Definition groupBy (keys : list jstr) (fs : PathFs) : list (jstr * list jstr) :=
  foldl (λ m k, addToGroup (identityKey k fs) k m) [] keys.
Definition identityGroups (keys : list jstr) (fs : PathFs) : list (list jstr) :=
  if negb (caseInsensitive fs) && negb (normInsensitive fs) then []
  else filter (λ g, 1 < length g) (snd <$> groupBy keys fs).

(** Violations and their handler; the default handler throws. *)
Inductive PathViolationKind := DuplicateIdentity | AliasCrossedFiles | ListingTwoSpellings.
Record PathViolation := { v_kind : PathViolationKind; v_site : jstr; v_paths : list jstr; v_detail : option jstr }.
Inductive Handled := Reported (v : PathViolation) | Thrown (v : PathViolation).
Definition Handler : Type := PathViolation → Handled.
Definition THROW : Handler := Thrown.
Definition setPathViolationHandler (h : option Handler) (handler : Handler) : Handler * Handler :=
  (handler, default THROW h).
Definition pathViolation (handler : Handler) (v : PathViolation) : Handled := handler v.

Definition group_ok (fs : PathFs) (keys : list jstr) (e : jstr * list jstr) : Prop :=
  NoDup e.2 ∧ e.2 ≠ [] ∧ ∀ p, p ∈ e.2 ↔ p ∈ keys ∧ identityKey p fs = e.1.

Lemma addToGroup_spec fs keys k m :
  NoDup (fst <$> m) → Forall (group_ok fs keys) m →
  (∀ p, p ∈ keys → identityKey p fs ∈ fst <$> m) →
  let m' := addToGroup (identityKey k fs) k m in
  NoDup (fst <$> m') ∧ Forall (group_ok fs (keys ++ [k])) m' ∧
  (∀ f, f ∈ fst <$> m' ↔ f ∈ fst <$> m ∨ f = identityKey k fs).
Proof.
  set (f := identityKey k fs).
  assert (Hkeep : ∀ e, e.1 ≠ f → group_ok fs keys e → group_ok fs (keys ++ [k]) e).
  { intros e Hne (Hn & Hx & He). split_and!; [done..|]. intros p. rewrite He, elem_of_app, list_elem_of_singleton.
    split; [naive_solver|]. intros [[? | ->] ?]; [done|]. done. }
  assert (Hnew : (∀ p, p ∈ keys → identityKey p fs ≠ f) → group_ok fs (keys ++ [k]) (f, [k])).
  { intros Hno. split_and!; [apply NoDup_singleton|done|]. intros p. simpl.
    rewrite elem_of_app, !list_elem_of_singleton. split; [by intros ->; eauto|].
    intros [[Hp | ->] Hf]; [|done]. by apply Hno in Hp. }
  intros Hnd Hok Hcov m'. subst m'.
  assert (Hcov' : ∀ p, p ∈ keys → identityKey p fs = f → f ∈ fst <$> m) by (intros p Hp <-; eauto).
  clear Hcov. revert Hcov' Hnd Hok. induction m as [|[f' g] m IH]; intros Hcov Hnd Hok; simpl.
  - split_and!; [apply NoDup_singleton| |set_solver]. apply Forall_singleton, Hnew.
    intros p Hp Hf. by apply (Hcov p Hp), not_elem_of_nil in Hf.
  - apply Forall_cons in Hok as [(Hn & Hx & Hg) Hok]. apply NoDup_cons in Hnd as [Hf' Hnd]. simpl in *.
    destruct (f' === f) eqn:Hff.
    + apply jeq_true in Hff as ->. split_and!; [by apply NoDup_cons| |set_solver].
      constructor.
      * case_bool_decide as Hk; simpl; split_and!; simpl.
        -- done.
        -- done.
        -- intros p. rewrite Hg, elem_of_app, list_elem_of_singleton. split; [naive_solver|].
           intros [[? | ->] ?]; [done|]. by apply Hg.
        -- apply NoDup_app. split_and!; [done|set_solver|apply NoDup_singleton].
        -- by destruct g.
        -- intros p. rewrite !elem_of_app, !list_elem_of_singleton, Hg. naive_solver.
      * apply Forall_forall. intros e He. rewrite Forall_forall in Hok. apply Hkeep; [|by apply Hok].
        intros Heq. apply Hf'. rewrite <- Heq. by apply list_elem_of_fmap_2.
    + apply jeq_false in Hff. destruct IH as (Hnd2 & Hok2 & Hf2); [|done|done|].
      { intros p Hp Hpf. pose proof (Hcov p Hp Hpf) as [->|]%elem_of_cons; [done|done]. }
      split_and!.
      * simpl. apply NoDup_cons. split; [|done]. rewrite Hf2. naive_solver.
      * constructor; [by apply Hkeep|done].
      * intros f0. simpl. rewrite !elem_of_cons, Hf2. tauto.
Qed.

Lemma groupBy_spec fs keys :
  NoDup (fst <$> groupBy keys fs) ∧ Forall (group_ok fs keys) (groupBy keys fs) ∧
  (∀ f, f ∈ fst <$> groupBy keys fs ↔ ∃ p, p ∈ keys ∧ identityKey p fs = f).
Proof.
  induction keys as [|k keys IH] using rev_ind.
  - split_and!; [constructor|constructor|]. intros f. split; [by intros ?%not_elem_of_nil|].
    by intros (? & ?%not_elem_of_nil & _).
  - destruct IH as (Hnd & Hok & Hf). unfold groupBy in *. rewrite foldl_app. simpl.
    destruct (addToGroup_spec fs keys k _ Hnd Hok) as (Hnd2 & Hok2 & Hf2).
    { intros p Hp. apply Hf. eauto. }
    split_and!; [done..|]. intros f. rewrite Hf2, Hf. set_solver.
Qed.

(** The ambiguity detector is exact: on a folding filesystem the reported
    groups are exactly the sets of two or more distinct spellings that are one
    file; each group lists each of its spellings once, and when nothing is
    reported no two different keys name the same file. *)
Theorem identityGroups_exact keys fs :
  caseInsensitive fs || normInsensitive fs = true →
  (∀ g, g ∈ identityGroups keys fs → NoDup g ∧ 2 ≤ length g ∧
     ∃ f, ∀ p, p ∈ g ↔ p ∈ keys ∧ identityKey p fs = f) ∧
  (∀ a b, a ∈ keys → b ∈ keys → a ≠ b → sameFile a b fs = true →
     ∃ g, g ∈ identityGroups keys fs ∧ a ∈ g ∧ b ∈ g) ∧
  (identityGroups keys fs = [] ↔ ∀ a b, a ∈ keys → b ∈ keys → sameFile a b fs = true → a = b).
Proof.
  intros Hfs. destruct (groupBy_spec fs keys) as (Hnd & Hok & Hf).
  assert (Hgrp : ∀ g, g ∈ identityGroups keys fs → NoDup g ∧ 2 ≤ length g ∧
     ∃ f, ∀ p, p ∈ g ↔ p ∈ keys ∧ identityKey p fs = f).
  { intros g Hg. unfold identityGroups in Hg. case_match; [by apply not_elem_of_nil in Hg|].
    apply list_elem_of_filter in Hg as [Hl ([f g'] & -> & Hin)%list_elem_of_fmap].
    rewrite Forall_forall in Hok. destruct (Hok _ Hin) as (? & ? & ?). simpl in *. split_and!; eauto. }
  assert (Hfind : ∀ a b, a ∈ keys → b ∈ keys → a ≠ b → sameFile a b fs = true →
     ∃ g, g ∈ identityGroups keys fs ∧ a ∈ g ∧ b ∈ g).
  { intros a b Ha Hb Hne Hsame. unfold sameFile in Hsame.
    apply orb_true_iff in Hsame as [?%jeq_true|Hk%jeq_true]; [done|].
    assert (identityKey a fs ∈ fst <$> groupBy keys fs) as ([f g] & Hfg & Hin)%list_elem_of_fmap
      by (apply Hf; eauto).
    rewrite Forall_forall in Hok. destruct (Hok _ Hin) as (Hn & _ & Hg). simpl in *.
    assert (a ∈ g) as Hag by (by apply Hg). assert (b ∈ g) as Hbg by (apply Hg; by rewrite <- Hk).
    exists g. split_and!; [|done..]. unfold identityGroups.
    destruct (negb _ && negb _) eqn:Hneg.
    { apply andb_true_iff in Hneg as [?%negb_true_iff ?%negb_true_iff]. by rewrite H, H0 in Hfs. }
    apply list_elem_of_filter. split; [|apply list_elem_of_fmap; by exists (f, g)].
    destruct g as [|x [|y g]]; simpl; [by apply not_elem_of_nil in Hag| |lia].
    apply list_elem_of_singleton in Hag, Hbg. congruence. }
  split_and!; [done|done|]. split.
  - intros Hnil a b Ha Hb Hsame. destruct (decide (a = b)); [done|].
    destruct (Hfind a b Ha Hb n Hsame) as (g & Hg & _). rewrite Hnil in Hg. by apply not_elem_of_nil in Hg.
  - intros Hinj. destruct (identityGroups keys fs) as [|g gs] eqn:Hgs; [done|].
    destruct (Hgrp g) as (Hn & Hl & f & Hin); [by left|].
    destruct g as [|x [|y g]]; simpl in Hl; try lia. exfalso.
    destruct (proj1 (Hin x)) as [Hx Hxf]; [by left|]. destruct (proj1 (Hin y)) as [Hy Hyf]; [by right; left|].
    apply NoDup_cons in Hn as [Hxy _]. apply Hxy. rewrite (Hinj x y Hx Hy); [by left|].
    unfold sameFile. rewrite Hxf, Hyf, jeq_refl. apply orb_true_r.
Qed.

Lemma identityIndex_acc fs keys m0 f :
  foldl (indexKey fs) m0 keys !! f
  = match m0 !! f with
    | Some p => Some p
    | None => List.find (λ k, identityKey k fs === f) keys
    end.
Proof.
  revert m0. induction keys as [|k keys IH]; intros m0; simpl; [by destruct (m0 !! f)|].
  rewrite IH. unfold indexKey. cbv zeta. destruct (m0 !! identityKey k fs) as [q|] eqn:Hq.
  - destruct (m0 !! f) as [p|] eqn:Hp; [done|].
    assert ((identityKey k fs === f) = false) as -> by (apply jeq_false; congruence). done.
  - destruct (decide (identityKey k fs = f)) as [Heq|Hne].
    + rewrite <- Heq. by rewrite lookup_insert_eq, Hq, jeq_refl.
    + rewrite lookup_insert_ne by done. apply jeq_false in Hne. by rewrite Hne.
Qed.

(** A lookup by identity finds a spelling exactly when one of the keys is the
    same file, and then the first such key. *)
Lemma identityIndex_lookup keys fs path :
  identityIndex keys fs !! identityKey path fs
  = List.find (λ k, sameFile k path fs) keys.
Proof.
  unfold identityIndex. rewrite identityIndex_acc, lookup_empty.
  induction keys as [|k keys IH]; simpl; [done|]. unfold sameFile at 1.
  destruct (k === path) eqn:Hk; [apply jeq_true in Hk as ->; by rewrite jeq_refl|].
  simpl. by rewrite IH.
Qed.

End Identity.

Definition macFs : PathFs := {| caseInsensitive := true; normInsensitive := true |}.
Lemma identityGroups_exact_witness :
  identityGroups id lower [js "4 Archive/x.md"; js "b.md"; js "4 archive/x.md"] macFs
    = [[js "4 Archive/x.md"; js "4 archive/x.md"]] ∧
  ¬ ∀ a b, a ∈ [js "4 Archive/x.md"; js "b.md"; js "4 archive/x.md"] →
           b ∈ [js "4 Archive/x.md"; js "b.md"; js "4 archive/x.md"] →
           sameFile id lower a b macFs = true → a = b.
Proof.
  split; [vm_compute; reflexivity|].
  destruct (identityGroups_exact id lower [js "4 Archive/x.md"; js "b.md"; js "4 archive/x.md"] macFs)
    as (_ & _ & Hiff); [reflexivity|].
  intros Hinj. apply Hiff in Hinj. vm_compute in Hinj. discriminate Hinj.
Defined.

End Identity.

Module Safe.

Definition isReservedWinName (segment : jstr) : bool :=
  let stem := lower (List.hd [] (split_on cDot segment)) in
  if (stem === js "con") || (stem === js "prn") || (stem === js "aux") || (stem === js "nul") then true
  else (starts_with stem (js "com") || starts_with stem (js "lpt"))
       && (length stem =? 4)
       && match stem !! 3 with Some d => bool_decide (49 ≤ d ∧ d ≤ 57)%N | None => false end.

Definition isControl (c : N) : bool := bool_decide (c < 32 ∨ c = 127)%N.
(** [/^[a-zA-Z]:/] *)
Definition driveLetter (path : jstr) : bool :=
  match path with a :: c :: _ => is_alpha a && bool_decide (c = cColon) | _ => false end.
Definition safeSegment (seg : jstr) : bool :=
  if (seg === []) || (seg === js ".") || (seg === js "..") then false
  else if ends_with seg (js ".") || ends_with seg (js " ") then false
  else negb (isReservedWinName seg).
Definition isSafeVaultPath (path : jstr) : bool :=
  if negb (truthy path) || (1024 <? length path) then false
  else if has_unit path cBackslash then false
  else if existsb isControl path then false
  else if starts_with path (js "/") then false
  else if driveLetter path then false
  else forallb safeSegment (split_on cSlash path).
(** The parse into the branded type: the proof is the brand. *)
Definition SafeVaultPath : Type := { p : jstr | isSafeVaultPath p = true }.
Definition asSafeVaultPath (path : jstr) : option SafeVaultPath :=
  match decide (isSafeVaultPath path = true) with left H => Some (exist _ path H) | right _ => None end.

(** What the platforms do with a path joined to the vault folder: the segments
    of a Windows path (both separators), the resolution of [.] and [..] against
    the stack of folders, and the name Windows stores for a segment. *)
Fixpoint winSplit (s : jstr) : list jstr :=
  match s with
  | [] => [[]]
  | x :: s' =>
      if decide (x = cSlash ∨ x = cBackslash) then [] :: winSplit s'
      else match winSplit s' with [] => [[x]] | w :: ws => (x :: w) :: ws end
  end.
Definition resolveSeg (stack : list jstr) (seg : jstr) : list jstr :=
  if decide (seg = [] ∨ seg = js ".") then stack
  else if decide (seg = js "..") then List.removelast stack
  else stack ++ [seg].
Definition nodeJoin (base : list jstr) (segs : list jstr) : list jstr := foldl resolveSeg base segs.
Definition windowsName (seg : jstr) : jstr :=
  reverse (drop_while (λ c, bool_decide (c = cDot ∨ c = cSpace)) (reverse seg)).

Lemma winSplit_no_backslash s : cBackslash ∉ s → winSplit s = split_on cSlash s.
Proof.
  induction s as [|x s IH]; intros Hb; [done|]. rewrite not_elem_of_cons in Hb. destruct Hb as [Hx Hb].
  simpl. rewrite IH by done. repeat case_decide; try done; naive_solver.
Qed.
Lemma nodeJoin_plain base segs :
  Forall (λ seg, seg ≠ [] ∧ seg ≠ js "." ∧ seg ≠ js "..") segs → nodeJoin base segs = base ++ segs.
Proof.
  unfold nodeJoin. revert base. induction segs as [|seg segs IH]; intros base Hs; simpl; [by rewrite app_nil_r|].
  apply Forall_cons in Hs as [(H1 & H2 & H3) Hs]. unfold resolveSeg at 2.
  rewrite decide_False by tauto. rewrite decide_False by done. rewrite IH by done. by rewrite <- app_assoc.
Qed.
Lemma safeSegment_spec seg :
  safeSegment seg = true →
  seg ≠ [] ∧ seg ≠ js "." ∧ seg ≠ js ".." ∧ windowsName seg = seg ∧ isReservedWinName seg = false.
Proof.
  unfold safeSegment. destruct ((seg === []) || _ || _) eqn:H1; [done|].
  destruct (ends_with seg (js ".") || _) eqn:H2; [done|]. intros Hr. bools.
  rewrite !jeq_false in *. split_and!; try done.
  unfold windowsName. induction seg as [|c seg _] using rev_ind; [done|].
  rewrite reverse_snoc. simpl. unfold ends_with in *. bools.
  rewrite bool_decide_eq_false_2; [by rewrite reverse_cons, reverse_involutive|].
  intros [-> | ->];
    match goal with H : ¬ ?k `suffix_of` _ ++ [?c] |- _ => apply H; by exists seg end.
Qed.

(** C40: A server-supplied path that passes the guard cannot leave the vault: on
    POSIX and on Windows it resolves under the vault folder to exactly its own
    segments (nothing is popped), none of which Windows renames or treats as a
    device; it is not absolute and carries no control character. *)
Theorem safe_path_confined base path :
  isSafeVaultPath path = true →
  nodeJoin base (winSplit path) = base ++ split_on cSlash path ∧
  winSplit path = split_on cSlash path ∧
  Forall (λ seg, windowsName seg = seg ∧ isReservedWinName seg = false) (split_on cSlash path) ∧
  starts_with path (js "/") = false ∧ driveLetter path = false ∧
  length path ≤ 1024 ∧ Forall (λ c, isControl c = false) path.
Proof.
  unfold isSafeVaultPath. repeat case_match; try done. intros Hs. bools.
  assert (Hw : winSplit path = split_on cSlash path).
  { apply winSplit_no_backslash. unfold has_unit in *. by bools. }
  rewrite forallb_forall in Hs. setoid_rewrite <- list_elem_of_In in Hs.
  rewrite Hw. split_and!; try done.
  - apply nodeJoin_plain, Forall_forall. intros seg (? & ? & ? & _)%Hs%safeSegment_spec. done.
  - apply Forall_forall. intros seg (_ & _ & _ & ? & ?)%Hs%safeSegment_spec. done.
  - match goal with H : (1024 <? _) = false |- _ => apply Nat.ltb_ge in H end. done.
  - apply Forall_forall. intros c Hc. destruct (isControl c) eqn:Hctl; [|done].
    match goal with H : existsb isControl path = false |- _ => rewrite <- H end.
    symmetry. apply existsb_exists. exists c. by rewrite <- list_elem_of_In.
Qed.
Lemma safe_path_confined_witness :
  isSafeVaultPath (js "Notes/a b.md") = true ∧
  nodeJoin [js "home"; js "vault"] (winSplit (js "Notes/a b.md"))
    = [js "home"; js "vault"; js "Notes"; js "a b.md"].
Proof.
  split; [vm_compute; reflexivity|].
  destruct (safe_path_confined [js "home"; js "vault"] (js "Notes/a b.md")) as [Hj _];
    [vm_compute; reflexivity|].
  rewrite Hj. vm_compute. reflexivity.
Defined.
Example traversal_refused :
  isSafeVaultPath (js "../../.config/autostart/x.desktop") = false ∧
  isSafeVaultPath (js "plugins/a/../self/main.js") = false ∧
  isSafeVaultPath (js "C:/x") = false ∧ isSafeVaultPath (js "a/NUL.txt") = false ∧
  nodeJoin [js "home"; js "vault"] (winSplit (js "../../etc")) = [js "etc"].
Proof. vm_compute. auto. Qed.

End Safe.

Module Excluded.

(** [raw.trim().replace(/\\/g,"/").replace(/\/+/g,"/").replace(/^\/|\/$/g,"")] *)
Definition slashes (s : jstr) : jstr := (λ c, if decide (c = cBackslash) then cSlash else c) <$> s.
Fixpoint collapse (s : jstr) : jstr :=
  match s with
  | x :: (y :: _) as s' => if decide (x = cSlash ∧ y = cSlash) then collapse s' else x :: collapse s'
  | _ => s
  end.
Definition dropEdge (s : jstr) : jstr :=
  let s1 := match s with x :: s' => if decide (x = cSlash) then s' else s | [] => [] end in
  match reverse s1 with x :: r => if decide (x = cSlash) then reverse r else s1 | [] => [] end.
Definition normalizeFolder (raw : jstr) : jstr := dropEdge (collapse (slashes (trim raw))).

Definition addExcluded (l : list jstr) (raw : jstr) : list jstr :=
  let f := normalizeFolder raw in
  if negb (truthy f) then jsort l else jsort (dedup (l ++ [f])).
Definition removeExcluded (l : list jstr) (raw : jstr) : list jstr :=
  let f := normalizeFolder raw in jsort (filter (λ x, x ≠ f) l).
Definition under (p f : jstr) : bool := (p === f) || starts_with p (f ++ js "/").
Definition isExcluded (path : jstr) (l : list jstr) : bool :=
  let p := lower (normalizeFolder path) in
  existsb (λ raw, let f := lower (normalizeFolder raw) in negb (f === []) && under p f) l.
Definition matchFolders (query : jstr) (all : list jstr) : list jstr :=
  let q := lower (trim query) in
  if negb (truthy q) then all
  else filter (λ f, starts_with (lower f) q = true) all
       ++ filter (λ f, starts_with (lower f) q = false ∧ includes (lower f) q = true) all.

(** Settings edits do what they say: after adding a folder every path in it
    is left alone and the other entries stay; after removing it the entry is
    gone and only that one. *)
Theorem excluded_edits l raw path :
  let f := normalizeFolder raw in
  (f ≠ [] → isExcluded path [raw] = true → normalizeFolder f = f → isExcluded path (addExcluded l raw) = true) ∧
  (∀ x, x ∈ addExcluded l raw ↔ x ∈ l ∨ (x = f ∧ f ≠ [])) ∧
  (∀ x, x ∈ removeExcluded l raw ↔ x ∈ l ∧ x ≠ f).
Proof.
  intros f.
  assert (Hadd : ∀ x, x ∈ addExcluded l raw ↔ x ∈ l ∨ (x = f ∧ f ≠ [])).
  { intros x. unfold addExcluded, truthy. fold f. destruct (decide (f = [])) as [->|Hf]; simpl.
    - rewrite jsort_perm. naive_solver.
    - rewrite bool_decide_eq_false_2 by done. simpl.
      rewrite jsort_perm, dedup_elem_of, elem_of_app, list_elem_of_singleton. naive_solver. }
  split_and!; [|exact Hadd|].
  - intros Hf Hex Hnorm. unfold isExcluded in *. simpl in Hex. rewrite orb_false_r in Hex.
    apply existsb_exists. exists f. split; [rewrite <- list_elem_of_In; apply Hadd; by right|].
    by rewrite Hnorm.
  - intros x. unfold removeExcluded. fold f. rewrite jsort_perm, list_elem_of_filter. tauto.
Qed.
Lemma excluded_edits_witness :
  isExcluded (js "WORK/plan.md") (addExcluded [js "Zoo"] (js " /Work/ ")) = true ∧
  addExcluded [js "Zoo"] (js " /Work/ ") = [js "Work"; js "Zoo"].
Proof.
  split; [|vm_compute; reflexivity].
  apply (excluded_edits [js "Zoo"] (js " /Work/ ") (js "WORK/plan.md")).
  - vm_compute. discriminate.
  - vm_compute. reflexivity.
  - vm_compute. reflexivity.
Defined.

End Excluded.

Module Mounts.

Inductive MountDirection := Pull | Sync.
#[export] Instance MountDirection_eq_dec : EqDecision MountDirection.
Proof. solve_decision. Defined.
Record MountSource := { owner : jstr; vaultId : jstr; sourcePath : jstr }.
Record Mount := { source : MountSource; mountPoint : jstr; direction : MountDirection }.

Definition plainSeg (s : jstr) : bool := negb ((s === []) || (s === js ".") || (s === js "..")).
Definition normFolder (p : jstr) : jstr :=
  join_with cSlash (filter (λ s, plainSeg s = true) (split_on cSlash p)).
Definition stripDots (s : jstr) : jstr := reverse (drop_while (λ c, bool_decide (c = cDot)) (reverse s)).
Definition normMountFolder (p : jstr) : jstr :=
  join_with cSlash
    (filter (λ s, plainSeg s = true) ((λ s, stripDots (trim s)) <$> split_on cSlash (Excluded.slashes p))).

Definition segsOf (folder : jstr) : list jstr :=
  filter (λ s, truthy s = true) (split_on cSlash (normFolder folder)).

Section Mounts.
Context (nfc lowerCase : jstr → jstr).

Definition canonSeg (s : jstr) : jstr := lowerCase (nfc s).
Fixpoint everyPrefix (pathSegs prefixSegs : list jstr) : bool :=
  match prefixSegs, pathSegs with
  | [], _ => true
  | s :: prefix', x :: path' => (canonSeg x === canonSeg s) && everyPrefix path' prefix'
  | _ :: _, [] => false
  end.
Definition underOrEqual (pathSegs prefixSegs : list jstr) : bool :=
  if length prefixSegs =? 0 then true
  else if length pathSegs <? length prefixSegs then false
  else everyPrefix pathSegs prefixSegs.
Definition segsEqual (a b : list jstr) : bool := (length a =? length b) && underOrEqual a b.
Definition canonFolder (p : jstr) : jstr := join_with cSlash (canonSeg <$> segsOf p).

Definition claimsLocal (mount : Mount) (localPath : jstr) : bool :=
  let mp := segsOf (mountPoint mount) in
  (0 <? length mp) && underOrEqual (segsOf localPath) mp.
Definition primaryExcludes (mounts : list Mount) (localPath : jstr) : bool :=
  existsb (λ m, claimsLocal m localPath) mounts.
Definition nudgeTarget (mounts : list Mount) (localPath : jstr) (isSelfEcho : jstr → bool) : option Mount :=
  match List.find (λ m, claimsLocal m localPath) mounts with
  | None => None
  | Some claimed => if isSelfEcho localPath then None else Some claimed
  end.

Definition mountRelFromLocal (mount : Mount) (localPath : jstr) : option jstr :=
  let mp := segsOf (mountPoint mount) in
  if length mp =? 0 then None
  else let p := segsOf localPath in
       if underOrEqual p mp then Some (join_with cSlash (drop (length mp) p)) else None.
Definition mountRelFromSource (mount : Mount) (sPath : jstr) : option jstr :=
  let sp := segsOf (sourcePath (source mount)) in
  let p := segsOf sPath in
  if length sp =? 0 then Some (join_with cSlash p)
  else if underOrEqual p sp then Some (join_with cSlash (drop (length sp) p)) else None.
Definition localFromMountRel (mount : Mount) (rel : jstr) : jstr :=
  let mp := normFolder (mountPoint mount) in
  let r := normFolder rel in
  if r === [] then mp else if mp === [] then r else mp ++ cSlash :: r.
Definition sourceFromMountRel (mount : Mount) (rel : jstr) : jstr :=
  let sp := normFolder (sourcePath (source mount)) in
  let r := normFolder rel in
  if sp === [] then r else if r === [] then sp else sp ++ cSlash :: r.

(** The persisted value, as [parseMounts] inspects it: [None] where a field has
    another type; an entry that is not an object is [None]. *)
Record RawSource := { raw_owner : option jstr; raw_vaultId : option jstr; raw_sourcePath : option jstr }.
Record RawMount := { raw_source : option RawSource; raw_mountPoint : option jstr; raw_direction : option jstr }.
Definition rawNoSource : RawSource := {| raw_owner := None; raw_vaultId := None; raw_sourcePath := None |}.
Definition parseMount (e : option RawMount) : option Mount :=
  match e with
  | None => None
  | Some m =>
      let src := default rawNoSource (raw_source m) in
      let vid := default [] (raw_vaultId src) in
      let mp := normMountFolder (default [] (raw_mountPoint m)) in
      if negb (truthy vid) || negb (truthy mp) then None
      else Some {| source := {| owner := default [] (raw_owner src); vaultId := vid;
                                sourcePath := normMountFolder (default [] (raw_sourcePath src)) |};
                   mountPoint := mp;
                   direction := if decide (raw_direction m = Some (js "sync")) then Sync else Pull |}
  end.
(** [None] is a value that is not an array. *)
Definition parseMounts (raw : option (list (option RawMount))) : list Mount :=
  match raw with None => [] | Some l => omap parseMount l end.

Definition inConfig (segs : list jstr) : bool := existsb (λ s, canonSeg s === js ".obsidian") segs.
Inductive MountError :=
| EmptyPoint (i : nat) | PointInConfig (i : nat) | SourceInConfig (i : nat)
| SharedPoint (a b : jstr) | NestedPoint (inner outer : jstr).
Definition entryErrors (i : nat) (m : Mount) : list MountError * option (list jstr) :=
  let mp := segsOf (mountPoint m) in
  if length mp =? 0 then ([EmptyPoint i], None)
  else ((if inConfig mp then [PointInConfig i] else [])
        ++ (if inConfig (segsOf (sourcePath (source m))) then [SourceInConfig i] else []), Some mp).
Definition pairErrors (a b : jstr * option (list jstr)) : list MountError :=
  match a.2, b.2 with
  | Some x, Some y =>
      if segsEqual x y then [SharedPoint a.1 b.1]
      else if underOrEqual x y then [NestedPoint a.1 b.1]
      else if underOrEqual y x then [NestedPoint b.1 a.1]
      else []
  | _, _ => []
  end.
Fixpoint allPairs {A} (f : A → A → list MountError) (l : list A) : list MountError :=
  match l with [] => [] | x :: l' => concat (f x <$> l') ++ allPairs f l' end.
Definition validateMounts (mounts : list Mount) : list MountError :=
  concat (imap (λ i m, (entryErrors i m).1) mounts)
  ++ allPairs pairErrors ((λ m, (mountPoint m, (entryErrors 0 m).2)) <$> mounts).

Definition acceptable (m : Mount) : bool :=
  let mp := segsOf (mountPoint m) in
  negb (length mp =? 0) && negb (inConfig mp) && negb (inConfig (segsOf (sourcePath (source m)))).
Definition overlaps (m o : Mount) : bool :=
  let mp := segsOf (mountPoint m) in
  let op := segsOf (mountPoint o) in
  underOrEqual mp op || underOrEqual op mp.
Definition validMounts (mounts : list Mount) : list Mount :=
  foldl (λ ok m, if negb (acceptable m) then ok
                 else if existsb (overlaps m) ok then ok else ok ++ [m]) [] mounts.

(** ** Segments *)
Definition plain (segs : list jstr) : Prop := Forall (λ s, plainSeg s = true ∧ cSlash ∉ s) segs.

Lemma plainSeg_truthy s : plainSeg s = true → truthy s = true.
Proof.
  unfold plainSeg, truthy, jeq. intros H. bools. by rewrite bool_decide_eq_false_2.
Qed.
Lemma plain_filter_split p : plain (filter (λ s, plainSeg s = true) (split_on cSlash p)).
Proof.
  apply Forall_forall. intros s [Hs Hin]%list_elem_of_filter.
  pose proof (split_on_pieces cSlash p) as Hp. rewrite Forall_forall in Hp. auto.
Qed.
Lemma filter_plain segs : plain segs → filter (λ s, plainSeg s = true) segs = segs.
Proof.
  induction 1 as [|s segs [Hs _] Hall IH]; [done|]. rewrite filter_cons, decide_True by done. by rewrite IH.
Qed.
Lemma segsOf_join segs : plain segs → segsOf (join_with cSlash segs) = segs.
Proof.
  intros Hp. unfold segsOf, normFolder.
  destruct (decide (segs = [])) as [->|Hne]; [done|].
  assert (Hs : split_on cSlash (join_with cSlash segs) = segs).
  { apply split_join; [done|]. eapply Forall_impl; [exact Hp|]. by intros ? [_ ?]. }
  rewrite Hs, (filter_plain segs Hp), Hs.
  induction Hp as [|s segs [Hps _] Hp IH]; [done|].
  rewrite filter_cons, decide_True by (by apply plainSeg_truthy). f_equal.
  destruct (decide (segs = [])) as [->|Hne']; [done|]. apply IH; [done|].
  apply split_join; [done|]. eapply Forall_impl; [exact Hp|]. by intros ? [_ ?].
Qed.
Lemma segsOf_eq p : segsOf p = filter (λ s, plainSeg s = true) (split_on cSlash p).
Proof.
  rewrite <- (segsOf_join (filter _ (split_on cSlash p))) by apply plain_filter_split.
  unfold segsOf. f_equal. f_equal. unfold normFolder at 2.
  destruct (decide (filter (λ s, plainSeg s = true) (split_on cSlash p) = [])) as [He|Hne].
  { unfold normFolder. rewrite He. done. }
  rewrite split_join; [|done|].
  - rewrite filter_plain; [done|apply plain_filter_split].
  - eapply Forall_impl; [apply (plain_filter_split p)|]. by intros ? [_ ?].
Qed.
Lemma segsOf_plain p : plain (segsOf p).
Proof. rewrite segsOf_eq. apply plain_filter_split. Qed.
Lemma normFolder_segs p : normFolder p = join_with cSlash (segsOf p).
Proof. by rewrite segsOf_eq. Qed.
Lemma plain_app a b : plain (a ++ b) ↔ plain a ∧ plain b.
Proof. apply Forall_app. Qed.
Lemma join_app a b : a ≠ [] → b ≠ [] → join_with cSlash (a ++ b) = join_with cSlash a ++ cSlash :: join_with cSlash b.
Proof.
  intros Ha Hb. induction a as [|x a IH]; [done|]. destruct a as [|y a]; simpl.
  - by destruct b.
  - simpl in IH. rewrite IH by done. by rewrite <- app_assoc.
Qed.
Lemma join_plain_nil segs : plain segs → join_with cSlash segs = [] → segs = [].
Proof. intros Hp Hj. pose proof (segsOf_join segs Hp) as Hs. rewrite Hj in Hs. by vm_compute in Hs. Qed.

(** Building a path under a folder: the segments concatenate. *)
Lemma segsOf_under folder rel :
  segsOf (let mp := normFolder folder in let r := normFolder rel in
          if r === [] then mp else if mp === [] then r else mp ++ cSlash :: r)
  = segsOf folder ++ segsOf rel.
Proof.
  cbv zeta. rewrite !normFolder_segs. pose proof (segsOf_plain folder) as Hf. pose proof (segsOf_plain rel) as Hr.
  destruct (_ === []) eqn:H1.
  { apply jeq_true, join_plain_nil in H1 as ->; [|done]. rewrite app_nil_r. by apply segsOf_join. }
  destruct (join_with cSlash (segsOf folder) === []) eqn:H2.
  { apply jeq_true, join_plain_nil in H2 as ->; [|done]. by apply segsOf_join. }
  apply jeq_false in H1, H2. rewrite <- join_app.
  - apply segsOf_join, plain_app. done.
  - intros He. by rewrite He in H2.
  - intros He. by rewrite He in H1.
Qed.
Lemma segsOf_local m rel : segsOf (localFromMountRel m rel) = segsOf (mountPoint m) ++ segsOf rel.
Proof. apply segsOf_under. Qed.
Lemma segsOf_source m rel : segsOf (sourceFromMountRel m rel) = segsOf (sourcePath (source m)) ++ segsOf rel.
Proof.
  rewrite <- segsOf_under. unfold sourceFromMountRel. cbv zeta.
  destruct (normFolder rel === []) eqn:Hr, (normFolder (sourcePath (source m)) === []) eqn:Hs; try done.
  apply jeq_true in Hr, Hs. by rewrite Hr, Hs.
Qed.

(** ** The prefix relation *)
Definition canonPrefix (pre p : list jstr) : Prop := (canonSeg <$> pre) `prefix_of` (canonSeg <$> p).

Lemma everyPrefix_spec p pre : everyPrefix p pre = true ↔ canonPrefix pre p.
Proof.
  unfold canonPrefix. revert p. induction pre as [|s pre IH]; intros p; simpl.
  - split; [intros; apply prefix_nil|by destruct p].
  - destruct p as [|x p]; simpl.
    + split; [done|]. intros H. by apply prefix_nil_not in H.
    + rewrite andb_true_iff, jeq_true, IH. split.
      * intros [-> H]. by apply prefix_cons.
      * intros H. split; [by apply prefix_cons_inv_1 in H|by apply prefix_cons_inv_2 in H].
Qed.
Lemma underOrEqual_spec p pre : underOrEqual p pre = true ↔ canonPrefix pre p.
Proof.
  unfold underOrEqual. destruct pre as [|s pre]; simpl.
  { split; [intros; apply prefix_nil|done]. }
  destruct (length p <? S (length pre)) eqn:Hl; [|apply everyPrefix_spec].
  apply Nat.ltb_lt in Hl. split; [done|]. intros H. apply prefix_length in H.
  rewrite !length_fmap in H. simpl in H. lia.
Qed.
Lemma canonPrefix_comparable a b p : canonPrefix a p → canonPrefix b p → canonPrefix a b ∨ canonPrefix b a.
Proof. intros Ha Hb. unfold canonPrefix in *. eapply prefix_weak_total; done. Qed.
Lemma canonPrefix_app a b : canonPrefix a (a ++ b).
Proof. unfold canonPrefix. rewrite fmap_app. by apply prefix_app_r. Qed.

Lemma claimsLocal_spec m p :
  claimsLocal m p = true ↔ segsOf (mountPoint m) ≠ [] ∧ canonPrefix (segsOf (mountPoint m)) (segsOf p).
Proof.
  unfold claimsLocal. rewrite andb_true_iff, underOrEqual_spec, Nat.ltb_lt.
  destruct (segsOf (mountPoint m)); simpl; naive_solver lia.
Qed.

(** ** The accepted mounts *)
Definition disjoint (ms : list Mount) : Prop :=
  ∀ i j a b, ms !! i = Some a → ms !! j = Some b → i ≠ j → overlaps a b = false.
Lemma overlaps_sym a b : overlaps a b = overlaps b a.
Proof. unfold overlaps. apply orb_comm. Qed.

Lemma validMounts_snoc ms m :
  validMounts (ms ++ [m]) =
  if negb (acceptable m) then validMounts ms
  else if existsb (overlaps m) (validMounts ms) then validMounts ms else validMounts ms ++ [m].
Proof. unfold validMounts. by rewrite foldl_app. Qed.

Lemma validMounts_spec ms :
  validMounts ms `sublist_of` ms ∧ Forall (λ m, acceptable m = true) (validMounts ms) ∧
  disjoint (validMounts ms) ∧
  (∀ m, m ∈ ms → m ∈ validMounts ms ∨ acceptable m = false ∨
        ∃ o, o ∈ validMounts ms ∧ overlaps m o = true).
Proof.
  induction ms as [|m ms (Hs & Ha & Hd & Hc)] using rev_ind.
  { split_and!; [done|constructor|done|]. by intros m ?%not_elem_of_nil. }
  rewrite validMounts_snoc. destruct (acceptable m) eqn:Hm; simpl.
  2:{ split_and!; [by apply sublist_inserts_r|done..|].
      intros o [Ho | ->%list_elem_of_singleton]%elem_of_app; auto. }
  destruct (existsb (overlaps m) (validMounts ms)) eqn:He.
  { split_and!; [by apply sublist_inserts_r|done..|].
    intros o [Ho | ->%list_elem_of_singleton]%elem_of_app; [auto|right; right].
    apply existsb_exists in He as (o & Ho & Hov). rewrite <- list_elem_of_In in Ho. eauto. }
  assert (Hno : ∀ o, o ∈ validMounts ms → overlaps m o = false).
  { intros o Ho. destruct (overlaps m o) eqn:Hov; [|done]. rewrite <- He. symmetry.
    apply existsb_exists. exists o. by rewrite <- list_elem_of_In. }
  split_and!.
  - by apply sublist_app.
  - apply Forall_app. auto.
  - intros i j a b Hi Hj Hij.
    apply lookup_app_Some in Hi as [Hi | [Hli Hi]], Hj as [Hj | [Hlj Hj]].
    + by eapply Hd.
    + apply list_lookup_singleton_Some in Hj as [_ <-]. rewrite overlaps_sym. apply Hno. by eapply list_elem_of_lookup_2.
    + apply list_lookup_singleton_Some in Hi as [_ <-]. apply Hno. by eapply list_elem_of_lookup_2.
    + apply list_lookup_singleton_Some in Hi as [? _], Hj as [? _]. lia.
  - intros o [Ho | ->%list_elem_of_singleton]%elem_of_app; [|left; set_solver].
    destruct (Hc o Ho) as [? | [? | (o' & ? & ?)]]; [left; set_solver|auto|right; right; exists o'; set_solver].
Qed.

(** The boundary between scopes: among the mounts in effect every local path
    belongs to at most one, whatever the user configured; the accepted mounts are
    a sub-sequence of the configured ones, none at the vault root or in the config
    folder; and a dropped mount is dropped only for such a fault or because its
    folder overlaps an accepted one. *)
Theorem mounts_partition mounts path :
  (∀ i j a b, validMounts mounts !! i = Some a → validMounts mounts !! j = Some b →
     claimsLocal a path = true → claimsLocal b path = true → i = j) ∧
  validMounts mounts `sublist_of` mounts ∧
  (∀ m, m ∈ validMounts mounts → segsOf (mountPoint m) ≠ [] ∧ inConfig (segsOf (mountPoint m)) = false) ∧
  (∀ m, m ∈ mounts → m ∉ validMounts mounts →
     acceptable m = false ∨ ∃ o, o ∈ validMounts mounts ∧ overlaps m o = true).
Proof.
  destruct (validMounts_spec mounts) as (Hs & Ha & Hd & Hc). split_and!; [|done| |].
  - intros i j a b Hi Hj [_ Hpa]%claimsLocal_spec [_ Hpb]%claimsLocal_spec.
    destruct (decide (i = j)) as [|Hij]; [done|]. exfalso.
    specialize (Hd i j a b Hi Hj Hij). unfold overlaps in Hd. apply orb_false_iff in Hd as [H1 H2].
    apply not_true_iff_false in H1, H2. rewrite underOrEqual_spec in H1, H2.
    destruct (canonPrefix_comparable _ _ _ Hpa Hpb); auto.
  - intros m Hm. rewrite Forall_forall in Ha. specialize (Ha m Hm). unfold acceptable in Ha. bools.
    split; [|done]. intros He. by rewrite He in *.
  - intros m Hm Hn. destruct (Hc m Hm) as [?|[?|?]]; [done|auto|auto].
Qed.

(** Path translation round-trips through a mount: a mount-relative path of
    plain segments comes back unchanged from the local side and from the source
    side, the local path built for it is claimed by the mount, and a claimed local
    path translated and rebuilt is the same path up to the spelling of the mount
    point. *)
Theorem mount_translation m rel path :
  segsOf (mountPoint m) ≠ [] → normFolder rel = rel →
  mountRelFromLocal m (localFromMountRel m rel) = Some rel ∧
  mountRelFromSource m (sourceFromMountRel m rel) = Some rel ∧
  claimsLocal m (localFromMountRel m rel) = true ∧
  (claimsLocal m path = true → ∃ rel', mountRelFromLocal m path = Some rel' ∧
     canonSeg <$> segsOf (localFromMountRel m rel') = canonSeg <$> segsOf path) ∧
  (claimsLocal m path = false → mountRelFromLocal m path = None).
Proof.
  intros Hmp Hrel.
  assert (Hdrop : ∀ a, join_with cSlash (drop (length a) (a ++ segsOf rel)) = rel).
  { intros a. rewrite drop_app_length. rewrite <- normFolder_segs. done. }
  assert (Hlen : length (segsOf (mountPoint m)) =? 0 = false) by (by destruct (segsOf (mountPoint m))).
  unfold mountRelFromLocal, mountRelFromSource. rewrite Hlen, segsOf_local, segsOf_source.
  assert (Hu : ∀ a b, underOrEqual (a ++ b) a = true) by (intros; apply underOrEqual_spec, canonPrefix_app).
  rewrite !Hu, !Hdrop. split_and!; [done| | | |].
  - destruct (segsOf (sourcePath (source m))) eqn:Hs; simpl; [by rewrite <- normFolder_segs, Hrel|done].
  - apply claimsLocal_spec. rewrite segsOf_local. split; [done|apply canonPrefix_app].
  - intros [_ Hp]%claimsLocal_spec. rewrite (proj2 (underOrEqual_spec _ _) Hp). eexists. split; [done|].
    rewrite segsOf_local, segsOf_join.
    2:{ pose proof (segsOf_plain path) as Hpl. unfold plain in *. by apply Forall_drop. }
    rewrite fmap_app, fmap_drop. unfold canonPrefix in Hp. destruct Hp as [k Hk]. rewrite Hk.
    rewrite <- (length_fmap canonSeg (segsOf (mountPoint m))), drop_app_length. done.
  - intros Hc. destruct (underOrEqual (segsOf path) (segsOf (mountPoint m))) eqn:He; [|done].
    exfalso. apply not_true_iff_false in Hc. apply Hc, claimsLocal_spec. by rewrite <- underOrEqual_spec.
Qed.

(** Pairwise disjoint, in the order of the list. *)
Abbreviation apart := (StronglySorted (λ a b, overlaps a b = false)).

Lemma entryErrors_nil i m : (entryErrors i m).1 = [] ↔ acceptable m = true.
Proof.
  unfold entryErrors, acceptable. destruct (length _ =? 0); simpl; [done|].
  by destruct (inConfig (segsOf (mountPoint m))), (inConfig (segsOf (sourcePath (source m)))).
Qed.
Lemma pairErrors_nil a b :
  acceptable a = true → acceptable b = true →
  pairErrors (mountPoint a, (entryErrors 0 a).2) (mountPoint b, (entryErrors 0 b).2) = []
  ↔ overlaps a b = false.
Proof.
  intros Ha Hb. unfold acceptable, entryErrors, pairErrors, overlaps in *.
  destruct (length (segsOf (mountPoint a)) =? 0); [done|].
  destruct (length (segsOf (mountPoint b)) =? 0); [done|].
  cbn [fst snd]. unfold segsEqual.
  destruct (underOrEqual (segsOf (mountPoint a)) (segsOf (mountPoint b))),
    (underOrEqual (segsOf (mountPoint b)) (segsOf (mountPoint a))), (_ =? _); done.
Qed.
Lemma concat_nil_iff {A} (l : list (list A)) : concat l = [] ↔ Forall (λ x, x = []) l.
Proof.
  induction l as [|x l IH]; simpl; [by split; [constructor|]|].
  rewrite Forall_cons, <- IH. split; [by intros [-> ->]%app_nil|by intros [-> ->]].
Qed.
Lemma entries_nil mounts :
  concat (imap (λ i m, (entryErrors i m).1) mounts) = [] ↔ Forall (λ m, acceptable m = true) mounts.
Proof.
  rewrite concat_nil_iff, !Forall_lookup. split.
  - intros H i m Hm. apply (entryErrors_nil i), (H i). by rewrite list_lookup_imap, Hm.
  - intros H i x Hx. rewrite list_lookup_imap in Hx.
    destruct (mounts !! i) as [m|] eqn:Hm; simplify_eq/=. apply entryErrors_nil. by eapply H.
Qed.
Lemma allPairs_nil mounts :
  Forall (λ m, acceptable m = true) mounts →
  allPairs pairErrors ((λ m, (mountPoint m, (entryErrors 0 m).2)) <$> mounts) = [] ↔ apart mounts.
Proof.
  induction 1 as [|m ms Hm Hms IH]; csimpl; [by split; [constructor|]|].
  rewrite app_nil, IH, concat_nil_iff, !Forall_fmap.
  assert (Hall : Forall ((λ x, x = []) ∘ pairErrors (mountPoint m, (entryErrors 0 m).2) ∘
                         (λ m, (mountPoint m, (entryErrors 0 m).2))) ms
                 ↔ Forall (λ b, overlaps m b = false) ms).
  { rewrite !Forall_forall. rewrite Forall_forall in Hms.
    split; intros H b Hb; apply pairErrors_nil; auto; by apply H. }
  split.
  - intros [H1 H2]. constructor; [done|]. by apply Hall.
  - intros H. inversion H; subst. split; [by apply Hall|done].
Qed.
Lemma validMounts_fix mounts :
  validMounts mounts = mounts ↔ Forall (λ m, acceptable m = true) mounts ∧ apart mounts.
Proof.
  induction mounts as [|m ms IH] using rev_ind.
  { split; [by repeat constructor|done]. }
  assert (Hlen : length (validMounts ms) ≤ length ms) by (by apply sublist_length, validMounts_spec).
  rewrite validMounts_snoc. split.
  - intros Hv. assert (acceptable m = true ∧ existsb (overlaps m) (validMounts ms) = false ∧ validMounts ms = ms)
      as (Ha & He & Hvm).
    { destruct (acceptable m); simpl in Hv.
      2:{ apply (f_equal length) in Hv. rewrite length_app in Hv. simpl in Hv. lia. }
      destruct (existsb _ _); simpl in Hv.
      - apply (f_equal length) in Hv. rewrite length_app in Hv. simpl in Hv. lia.
      - by apply app_inj_2 in Hv as [Hv _]. }
    apply IH in Hvm as Hms. destruct Hms as [Hacc Hap]. split; [apply Forall_app; auto|].
    apply StronglySorted_app_2; [|done|repeat constructor].
    intros a b Hain ->%list_elem_of_singleton. rewrite overlaps_sym.
    destruct (overlaps m a) eqn:Hov; [|done]. rewrite <- He. symmetry. apply existsb_exists.
    exists a. rewrite <- list_elem_of_In, Hvm. done.
  - intros [[Hacc Hm]%Forall_app Hap]. rewrite Forall_singleton in Hm. rewrite Hm. simpl.
    assert (Hvm : validMounts ms = ms) by (apply IH; split; [done|by eapply StronglySorted_app_1_l]).
    rewrite Hvm. destruct (existsb (overlaps m) ms) eqn:He; [|done].
    apply existsb_exists in He as (o & Ho & Hov). rewrite <- list_elem_of_In in Ho.
    pose proof (StronglySorted_app_1_elem_of _ _ _ o m Hap Ho ltac:(by left)) as Hno. simpl in Hno.
    rewrite overlaps_sym in Hno. congruence.
Qed.

(** What the settings screen calls valid is what takes effect: no error is
    reported exactly when every configured mount is in effect. *)
Theorem validate_iff_all_valid mounts :
  validateMounts mounts = [] ↔ validMounts mounts = mounts.
Proof.
  unfold validateMounts. rewrite app_nil, entries_nil, validMounts_fix.
  split; intros [Ha Hp]; (split; [done|]); by apply allPairs_nil.
Qed.

(** An edit is routed to one scope: a mount is nudged exactly when it is the
    first to claim the path and the event is not the echo of its own write, and a
    nudged path is always excluded from the primary scope. *)
Theorem nudge_routes mounts path echo :
  (∀ m, nudgeTarget mounts path echo = Some m →
     m ∈ mounts ∧ claimsLocal m path = true ∧ echo path = false ∧ primaryExcludes mounts path = true) ∧
  (nudgeTarget mounts path echo = None →
     primaryExcludes mounts path = false ∨ echo path = true).
Proof.
  unfold nudgeTarget, primaryExcludes. split.
  - intros m. destruct (List.find _ _) as [c|] eqn:Hf; [|done]. destruct (echo path); [done|]. intros [= ->].
    apply find_some in Hf as [Hin Hc]. rewrite <- list_elem_of_In in Hin. split_and!; [done..|].
    apply existsb_exists. exists m. by rewrite <- list_elem_of_In.
  - destruct (List.find _ _) as [c|] eqn:Hf; [destruct (echo path); [auto|done]|]. intros _. left.
    apply not_true_iff_false. intros (m & Hin & Hc)%existsb_exists.
    by rewrite (find_none _ _ Hf _ Hin) in Hc.
Qed.
End Mounts.

(** ** Witnesses: no normalisation, Latin-1 case folding *)
Definition demoSource : MountSource := {| owner := js "ann"; vaultId := js "v1"; sourcePath := js "Team/Notes" |}.
Definition demoMount : Mount := {| source := demoSource; mountPoint := js "Work/ASI"; direction := Sync |}.
Definition nestedMount : Mount := {| source := demoSource; mountPoint := js "work/asi/x"; direction := Pull |}.

Lemma mounts_partition_witness :
  validMounts id lower [demoMount; nestedMount] = [demoMount] ∧
  (acceptable id lower nestedMount = false ∨
   ∃ o, o ∈ validMounts id lower [demoMount; nestedMount] ∧ overlaps id lower nestedMount o = true).
Proof.
  split; [vm_compute; reflexivity|].
  apply (mounts_partition id lower [demoMount; nestedMount] (js "x")); [right; left|].
  assert (validMounts id lower [demoMount; nestedMount] = [demoMount]) as -> by (vm_compute; reflexivity).
  intros H. apply list_elem_of_singleton in H. discriminate H.
Defined.
Lemma mount_translation_witness :
  mountRelFromLocal id lower demoMount (localFromMountRel demoMount (js "a/b .md")) = Some (js "a/b .md").
Proof.
  apply (mount_translation id lower demoMount (js "a/b .md") (js "")).
  - vm_compute. discriminate.
  - vm_compute. reflexivity.
Defined.
Lemma nudge_routes_witness :
  claimsLocal id lower demoMount (js "WORK/asi/n.md") = true ∧
  primaryExcludes id lower [demoMount] (js "WORK/asi/n.md") = true.
Proof.
  destruct (proj1 (nudge_routes id lower [demoMount] (js "WORK/asi/n.md") (λ _, false)) demoMount)
    as (_ & Hc & _ & Hp); [vm_compute; reflexivity|].
  split; [exact Hc|exact Hp].
Defined.

(** [normMountFolder] trims before it strips the dots, so a trailing "space dot"
    leaves a trailing space: the result still differs from the folder Windows
    creates, and a second pass changes it again. *)
Theorem normMountFolder_leaves_space :
  normMountFolder (js "Work/ASI .") = js "Work/ASI " ∧
  normMountFolder (normMountFolder (js "Work/ASI .")) = js "Work/ASI".
Proof. vm_compute. auto. Qed.

End Mounts.
