(* ===== verification/Jsmap.v ===== *)
(** * Jsmap: the JS [Map]

    A [Map] iterates in insertion order and keeps a key's place when the key is
    set again, which the client relies on (the spelling an index keeps is the
    first one seen).  It is an association list with distinct keys; the
    operations keep the keys distinct. *)

From S2P Require Import Prelude.

Section Jsmap.
Context {V : Type}.
Implicit Types (m : list (jstr * V)) (k : jstr) (v : V).

Fixpoint jget m k : option V :=
  match m with [] => None | (k', v) :: m' => if k' === k then Some v else jget m' k end.
Definition jhas m k : bool := match jget m k with Some _ => true | None => false end.
Fixpoint jset m k v : list (jstr * V) :=
  match m with
  | [] => [(k, v)]
  | (k', v') :: m' => if k' === k then (k', v) :: m' else (k', v') :: jset m' k v
  end.
Fixpoint jdel m k : list (jstr * V) :=
  match m with [] => [] | (k', v') :: m' => if k' === k then m' else (k', v') :: jdel m' k end.
Definition jkeys m : list jstr := fst <$> m.
Definition jwf m : Prop := NoDup (jkeys m).
(** [new Map(entries)] *)
Definition jof (l : list (jstr * V)) : list (jstr * V) := foldl (λ m e, jset m e.1 e.2) [] l.

Lemma jget_set_eq m k v : jget (jset m k v) k = Some v.
Proof.
  induction m as [|[k' v'] m IH]; simpl; [by rewrite jeq_refl|].
  destruct (k' === k) eqn:Hk; simpl; by rewrite Hk.
Qed.
Lemma jget_set_ne m k k2 v : k ≠ k2 → jget (jset m k v) k2 = jget m k2.
Proof.
  intros Hne. induction m as [|[k' v'] m IH]; simpl.
  - apply jeq_false in Hne. by rewrite Hne.
  - destruct (k' === k) eqn:Hk; simpl; [|by rewrite IH].
    apply jeq_true in Hk as ->. apply jeq_false in Hne. by rewrite Hne.
Qed.
Lemma jget_None m k : jget m k = None ↔ k ∉ jkeys m.
Proof.
  unfold jkeys. induction m as [|[k' v] m IH]; simpl; [split; [intros; apply not_elem_of_nil|done]|].
  rewrite not_elem_of_cons. destruct (k' === k) eqn:Hk.
  - apply jeq_true in Hk as ->. naive_solver.
  - apply jeq_false in Hk. rewrite IH. naive_solver.
Qed.
Lemma jget_Some_in m k v : jget m k = Some v → (k, v) ∈ m.
Proof.
  induction m as [|[k' v'] m IH]; simpl; [done|].
  destruct (k' === k) eqn:Hk; [apply jeq_true in Hk as ->; intros [= ->]; by left|right; auto].
Qed.
Lemma jget_in m k v : jwf m → (k, v) ∈ m → jget m k = Some v.
Proof.
  unfold jwf, jkeys. induction m as [|[k' v'] m IH]; intros Hwf Hin; [by apply not_elem_of_nil in Hin|].
  apply NoDup_cons in Hwf as [Hk Hwf]. simpl in *. apply elem_of_cons in Hin as [[= -> ->]|Hin].
  - by rewrite jeq_refl.
  - destruct (k' === k) eqn:Hkk; [|auto]. apply jeq_true in Hkk as ->.
    contradict Hk. by apply (list_elem_of_fmap_2 fst m (k, v)).
Qed.
Lemma jkeys_set m k v : jkeys (jset m k v) = if jhas m k then jkeys m else jkeys m ++ [k].
Proof.
  unfold jkeys, jhas. induction m as [|[k' v'] m IH]; csimpl; [done|].
  destruct (k' === k); csimpl; [done|]. rewrite IH. by destruct (jget m k).
Qed.
Lemma jwf_set m k v : jwf m → jwf (jset m k v).
Proof.
  unfold jwf. intros Hwf. rewrite jkeys_set. unfold jhas. destruct (jget m k) eqn:Hg; [done|].
  apply jget_None in Hg. apply NoDup_app. split_and!; [done| |apply NoDup_singleton].
  intros x Hx ->%list_elem_of_singleton. done.
Qed.
Lemma jkeys_del m k : jwf m → jkeys (jdel m k) = filter (λ x, x ≠ k) (jkeys m).
Proof.
  unfold jwf, jkeys. induction m as [|[k' v'] m IH]; intros Hwf; [done|]. csimpl.
  apply NoDup_cons in Hwf as [Hk Hwf]. simpl in *. rewrite filter_cons.
  destruct (k' === k) eqn:Hkk.
  - apply jeq_true in Hkk as ->. rewrite decide_False by tauto.
    symmetry. apply filter_all, Forall_forall. naive_solver.
  - apply jeq_false in Hkk. rewrite decide_True by done. csimpl. by rewrite IH.
Qed.
Lemma jwf_del m k : jwf m → jwf (jdel m k).
Proof. intros Hwf. unfold jwf. rewrite jkeys_del by done. by apply NoDup_filter. Qed.
Lemma jget_del_eq m k : jwf m → jget (jdel m k) k = None.
Proof. intros Hwf. apply jget_None. rewrite jkeys_del by done. rewrite list_elem_of_filter. tauto. Qed.
Lemma jget_del_ne m k k2 : k ≠ k2 → jget (jdel m k) k2 = jget m k2.
Proof.
  intros Hne. induction m as [|[k' v'] m IH]; simpl; [done|].
  destruct (k' === k) eqn:Hk; simpl; [|by rewrite IH].
  apply jeq_true in Hk as ->. apply jeq_false in Hne. by rewrite Hne.
Qed.
Lemma jhas_keys m k : jhas m k = true ↔ k ∈ jkeys m.
Proof.
  unfold jhas. destruct (jget m k) eqn:Hg.
  - split; [intros _|done]. destruct (decide (k ∈ jkeys m)) as [|Hn]; [done|].
    apply jget_None in Hn. congruence.
  - apply jget_None in Hg. by split.
Qed.
Lemma jset_absent m k v : k ∉ jkeys m → jset m k v = m ++ [(k, v)].
Proof.
  unfold jkeys. induction m as [|[k' v'] m IH]; simpl; [done|]. rewrite not_elem_of_cons. intros [Hk Hm].
  assert ((k' === k) = false) as -> by (by apply jeq_false). by rewrite IH.
Qed.
Lemma jof_wf l : jwf (jof l).
Proof.
  unfold jof. cut (∀ m, jwf m → jwf (foldl (λ m e, jset m e.1 e.2) m l)).
  { intros H. apply H. constructor. }
  induction l as [|e l IH]; intros m Hm; [done|]. by apply IH, jwf_set.
Qed.
Lemma jof_id l : jwf l → jof l = l.
Proof.
  unfold jof. cut (∀ m, jwf (m ++ l) → foldl (λ m e, jset m e.1 e.2) m l = m ++ l).
  { intros H Hl. by apply (H []). }
  induction l as [|[k v] l IH]; intros m Hm; simpl; [by rewrite app_nil_r|].
  rewrite jset_absent.
  - rewrite IH; [by rewrite <- app_assoc|by rewrite <- app_assoc].
  - unfold jwf, jkeys in Hm. rewrite fmap_app in Hm. apply NoDup_app in Hm as (_ & Hd & _).
    intros Hk. apply (Hd k Hk). by left.
Qed.
End Jsmap.

Lemma jkeys_fmap {V W} (f : jstr * V → jstr * W) (m : list (jstr * V)) :
  (∀ e, (f e).1 = e.1) → jkeys (f <$> m) = jkeys m.
Proof. intros Hf. unfold jkeys. induction m as [|e m IH]; [done|]. csimpl. by rewrite Hf, IH. Qed.
