(* ===== verification/Base.v ===== *)
(** * Base: the last-synced store and conflict-copy names ([client/src/base.ts]) *)

From S2P Require Import Prelude Regex Jsmap Paths.
Import Identity.

Module Store.

Record BaseEntry := { hash : jstr; text : option jstr; size : option Z; mtime : option Z }.
(** An entry of [data.json]: as above, with fields older versions wrote. *)
Record RawEntry := { raw_entry : BaseEntry; normHash : option jstr }.

Section Entries.
Context (nfc lowerCase : jstr → jstr).

(** [fold] and [foldFs] are the memo of [foldSibling]. *)
Record BaseStore := { m : list (jstr * BaseEntry); fold : option (gmap jstr jstr); foldFs : option PathFs }.

Definition newStore (initial : list (jstr * RawEntry)) : BaseStore :=
  {| m := jof ((λ '(p, e), (p, raw_entry e)) <$> initial); fold := None; foldFs := None |}.
Definition get (b : BaseStore) (path : jstr) : option BaseEntry := jget (m b) path.
Definition set (b : BaseStore) (path : jstr) (entry : BaseEntry) : BaseStore :=
  {| m := jset (m b) path entry; fold := if jhas (m b) path then fold b else None; foldFs := foldFs b |}.
Definition delete (b : BaseStore) (path : jstr) : BaseStore :=
  {| m := jdel (m b) path; fold := if jhas (m b) path then None else fold b; foldFs := foldFs b |}.
Definition paths (b : BaseStore) : list jstr := jkeys (m b).
Definition sameFs (a b : PathFs) : bool :=
  Bool.eqb (caseInsensitive a) (caseInsensitive b) && Bool.eqb (normInsensitive a) (normInsensitive b).
Definition refold (b : BaseStore) (fs : PathFs) : BaseStore * gmap jstr jstr :=
  let idx := identityIndex nfc lowerCase (paths b) fs in
  ({| m := m b; fold := Some idx; foldFs := Some fs |}, idx).
Definition foldSibling (b : BaseStore) (path : jstr) (fs : PathFs) : BaseStore * option jstr :=
  let '(b', idx) :=
    match fold b, foldFs b with
    | Some idx, Some fs' => if sameFs fs' fs then (b, idx) else refold b fs
    | _, _ => refold b fs
    end in
  (b', idx !! identityKey nfc lowerCase path fs).
Definition stampStat (b : BaseStore) (path : jstr) (sz mt : Z) : BaseStore :=
  match jget (m b) path with
  | Some e => {| m := jset (m b) path {| hash := hash e; text := text e; size := Some sz; mtime := Some mt |};
                 fold := fold b; foldFs := foldFs b |}
  | None => b
  end.
Definition toJSON (b : BaseStore) : list (jstr * RawEntry) :=
  (λ '(p, e), (p, {| raw_entry := e; normHash := None |})) <$> m b.

(** The memo, when there is one, is the index of the current keys. *)
Record wf (b : BaseStore) : Prop := {
  wf_keys : jwf (m b);
  wf_memo : ∀ idx fs, fold b = Some idx → foldFs b = Some fs → idx = identityIndex nfc lowerCase (paths b) fs;
}.

Inductive op := OpSet (p : jstr) (e : BaseEntry) | OpDelete (p : jstr) | OpFold (p : jstr) (fs : PathFs)
              | OpStamp (p : jstr) (sz mt : Z).
Definition apply (b : BaseStore) (o : op) : BaseStore :=
  match o with
  | OpSet p e => set b p e
  | OpDelete p => delete b p
  | OpFold p fs => (foldSibling b p fs).1
  | OpStamp p sz mt => stampStat b p sz mt
  end.

Lemma sameFs_eq a b : sameFs a b = true → a = b.
Proof. destruct a as [[] []], b as [[] []]; done. Qed.
Lemma jset_keys_present {V} (l : list (jstr * V)) p v w : jget l p = Some w → jkeys (jset l p v) = jkeys l.
Proof. intros H. rewrite jkeys_set. unfold jhas. by rewrite H. Qed.
Lemma jdel_absent {V} (l : list (jstr * V)) p : jget l p = None → jdel l p = l.
Proof.
  induction l as [|[k v] l IH]; simpl; [done|]. destruct (k === p); [done|]. intros. by rewrite IH.
Qed.

Lemma new_wf initial : wf (newStore initial).
Proof. split; simpl; [apply jof_wf|done]. Qed.
Lemma apply_wf b o : wf b → wf (apply b o).
Proof.
  intros [Hk Hm]. destruct o as [p e|p|p fs|p sz mt]; simpl.
  - split; simpl; [by apply jwf_set|]. unfold jhas. destruct (jget (m b) p) as [e'|] eqn:Hp; [|done].
    intros idx fs Hf Hfs. rewrite (Hm idx fs Hf Hfs). unfold paths. simpl. by erewrite jset_keys_present.
  - split; simpl; [by apply jwf_del|]. unfold jhas. destruct (jget (m b) p) as [e'|] eqn:Hp; [done|].
    intros idx fs Hf Hfs. rewrite (Hm idx fs Hf Hfs). unfold paths. simpl. by rewrite jdel_absent.
  - unfold foldSibling, refold. repeat case_match; simplify_eq/=; split; try done; simpl; naive_solver.
  - unfold stampStat. destruct (jget (m b) p) as [e'|] eqn:Hp; [|by split]. split; simpl; [by apply jwf_set|].
    intros idx fs Hf Hfs. rewrite (Hm idx fs Hf Hfs). unfold paths. simpl. by erewrite jset_keys_present.
Qed.
Lemma ops_wf initial ops : wf (foldl apply (newStore initial) ops).
Proof.
  cut (∀ b, wf b → wf (foldl apply b ops)); [intros H; apply H, new_wf|].
  induction ops as [|o ops IH]; intros b Hb; [done|]. by apply IH, apply_wf.
Qed.

(** The same-file lookup is never stale: after any sequence of edits, stamps
    and lookups under any filesystem rules, it answers with the first key of the
    store that is the same file, as if nothing were memoised. *)
Theorem foldSibling_fresh initial ops path fs :
  let b := foldl apply (newStore initial) ops in
  (foldSibling b path fs).2 = List.find (λ k, sameFile nfc lowerCase k path fs) (paths b).
Proof.
  intros b. destruct (ops_wf initial ops) as [_ Hm]. fold b in Hm.
  rewrite <- identityIndex_lookup. unfold foldSibling, refold.
  destruct (fold b) as [idx|] eqn:Hf; [|done]. destruct (foldFs b) as [fs'|] eqn:Hfs; [|done].
  destruct (sameFs fs' fs) eqn:Heq; [|done]. apply sameFs_eq in Heq as ->.
  simpl. by rewrite (Hm idx fs).
Qed.

(** The store survives a restart: persisting and reloading gives back every
    entry, hash, ancestor text and scan-skip stamp, in the same order, and legacy
    fields never come back. *)
Theorem persist_roundtrip initial ops :
  let b := foldl apply (newStore initial) ops in
  m (newStore (toJSON b)) = m b ∧ toJSON (newStore (toJSON b)) = toJSON b ∧
  Forall (λ e, normHash e.2 = None) (toJSON b).
Proof.
  intros b. destruct (ops_wf initial ops) as [Hk _]. fold b in Hk.
  assert (Hid : m (newStore (toJSON b)) = m b).
  { unfold newStore, toJSON. simpl. rewrite <- list_fmap_compose.
    rewrite (list_fmap_ext _ id); [by rewrite list_fmap_id, jof_id|]. by intros ? [] _. }
  split_and!; [done| |].
  - unfold toJSON at 1 3. by rewrite Hid.
  - unfold toJSON. apply Forall_fmap, Forall_forall. by intros [].
Qed.
End Entries.

(** ** Names *)
Record UTCDate := { year : N; month : N; day : N; hours : N; minutes : N; seconds : N }.  (* month from 1 *)
Definition pad (n : N) : jstr := let s := num_str n in replicate (2 - length s) 48%N ++ s.
Definition stamp (w : UTCDate) : jstr :=
  num_str (year w) ++ pad (month w) ++ pad (day w) ++ pad (hours w) ++ pad (minutes w) ++ pad (seconds w).

(** The folder part (with its slash), the stem and the extension. *)
Definition splitPath (path : jstr) : jstr * jstr * jstr :=
  let '(dir, name) := match last_index_of cSlash path with
                      | Some i => (take (S i) path, drop (S i) path)
                      | None => ([], path)
                      end in
  match last_index_of cDot name with
  | Some (S d) => (dir, take (S d) name, drop (S d) name)
  | _ => (dir, name, [])
  end.

Definition conflictCopyName (path device : jstr) (when : UTCDate) (tag : jstr) : jstr :=
  let suffix := if truthy tag then js "-" ++ tag else [] in
  let '(dir, stem, ext) := splitPath path in
  dir ++ (stem ++ js " (conflict " ++ device ++ js " " ++ stamp when ++ suffix ++ js ")") ++ ext.

Definition keptBothName (original : jstr) (when : UTCDate) (n : N) : jstr :=
  let '(dir, stem, ext) := splitPath original in
  let dayStr := num_str (year when) ++ js "-" ++ pad (month when) ++ js "-" ++ pad (day when) in
  dir ++ (stem ++ js " (this device's version " ++ dayStr
          ++ (if (n =? 0)%N then [] else js " " ++ num_str (n + 1)%N) ++ js ")") ++ ext.

(** [/^(.* ) \(conflict .+ \d{14}(?:-[0-9a-z]+)?\)$/i]: the greedy group is the
    longest prefix that lets the rest match; [/i] folds ASCII letters only here. *)
Definition asciiLower (s : jstr) : jstr := (λ c, if is_upper c then (c + 32)%N else c) <$> s.
Definition isAlnum (c : N) : bool := is_digit c || is_alpha c.
Definition OPENING : jstr := js " (conflict ".
Definition tailRe : regex :=
  rseqs [rplus RDot; RUnit cSpace; rrep 14 RDigit;
         ropt (RSeq (RUnit 45) (rplus (RClass isAlnum))); RUnit 41].
Definition matchesAt (stem : jstr) (i : nat) : bool :=
  forallb not_eol (take i stem)
  && (asciiLower (take (length OPENING) (drop i stem)) === OPENING)
  && rmatch tailRe (drop (i + length OPENING) stem).
Fixpoint lastMatch (stem : jstr) (i : nat) : option nat :=
  if matchesAt stem i then Some i else match i with 0 => None | S i' => lastMatch stem i' end.
Definition originalOfConflictCopy (path : jstr) : option jstr :=
  let '(dir, stem, ext) := splitPath path in
  match lastMatch stem (length stem) with
  | Some i => Some (dir ++ take i stem ++ ext)
  | None => None
  end.
Definition isConflictCopy (path : jstr) : bool :=
  match originalOfConflictCopy path with Some _ => true | None => false end.

Record NoteConflict := { copy : jstr; original : jstr }.
(** [if (original)]: the empty string is falsy. *)
Definition deriveNoteConflicts (l : list jstr) : list NoteConflict :=
  omap (λ p, match originalOfConflictCopy p with
             | Some o => if truthy o then Some {| copy := p; original := o |} else None
             | None => None
             end) l.

(** ** Taking a path apart and putting it together *)
Definition parts_ok (dir stem ext : jstr) : Prop :=
  (dir = [] ∨ ∃ d, dir = d ++ [cSlash]) ∧ cSlash ∉ stem ++ ext ∧
  ((ext = [] ∧ (last_index_of cDot stem = None ∨ last_index_of cDot stem = Some 0)) ∨
   (stem ≠ [] ∧ ∃ e, ext = cDot :: e ∧ cDot ∉ e)).

Definition splitName (name : jstr) : jstr * jstr :=
  match last_index_of cDot name with
  | Some (S d) => (take (S d) name, drop (S d) name)
  | _ => (name, [])
  end.
Definition splitDir (path : jstr) : jstr * jstr :=
  match last_index_of cSlash path with
  | Some i => (take (S i) path, drop (S i) path)
  | None => ([], path)
  end.
Lemma splitPath_eq path :
  splitPath path = let '(dir, name) := splitDir path in let '(stem, ext) := splitName name in (dir, stem, ext).
Proof.
  unfold splitPath, splitDir, splitName. destruct (last_index_of cSlash path); simpl;
    destruct (last_index_of cDot _) as [[|d]|]; done.
Qed.
Lemma splitDir_spec path dir name :
  splitDir path = (dir, name) → path = dir ++ name ∧ cSlash ∉ name ∧ (dir = [] ∨ ∃ d, dir = d ++ [cSlash]).
Proof.
  unfold splitDir. destruct (last_index_of cSlash path) as [i|] eqn:Hi; intros [= <- <-].
  - destruct (last_index_of_Some _ _ _ Hi) as [Heq Hno]. rewrite take_drop. split_and!; [done..|right].
    exists (take i path). rewrite Heq at 1. rewrite take_app_ge; rewrite length_take.
    + pose proof (last_index_of_lt _ _ _ Hi).
      rewrite Nat.min_l by lia. replace (S i - i) with 1 by lia. done.
    + lia.
  - apply last_index_of_None in Hi. auto.
Qed.
Lemma splitDir_build dir name :
  cSlash ∉ name → (dir = [] ∨ ∃ d, dir = d ++ [cSlash]) → splitDir (dir ++ name) = (dir, name).
Proof.
  intros Hn [->|[d ->]]; unfold splitDir.
  - simpl. apply last_index_of_None in Hn. by rewrite Hn.
  - rewrite <- app_assoc. simpl. rewrite last_index_of_app by done.
    rewrite take_app_ge, drop_app_ge by lia. replace (S (length d) - length d) with 1 by lia. done.
Qed.
Lemma splitName_spec name stem ext :
  splitName name = (stem, ext) → name = stem ++ ext ∧
  ((ext = [] ∧ (last_index_of cDot stem = None ∨ last_index_of cDot stem = Some 0)) ∨
   (stem ≠ [] ∧ ∃ e, ext = cDot :: e ∧ cDot ∉ e)).
Proof.
  unfold splitName. destruct (last_index_of cDot name) as [[|d]|] eqn:Hd; intros [= <- <-].
  - rewrite app_nil_r. auto.
  - destruct (last_index_of_Some _ _ _ Hd) as [Heq Hno]. rewrite take_drop. split; [done|right].
    pose proof (last_index_of_lt _ _ _ Hd) as Hlt.
    split.
    + destruct name; simpl in *; [lia|done].
    + exists (drop (S (S d)) name). split; [|done].
      rewrite Heq at 1. rewrite drop_app_ge; rewrite length_take; [|lia].
      by replace (S d - (S d `min` length name)) with 0 by lia.
  - rewrite app_nil_r. auto.
Qed.
Lemma splitName_build stem ext :
  ((ext = [] ∧ (last_index_of cDot stem = None ∨ last_index_of cDot stem = Some 0)) ∨
   (stem ≠ [] ∧ ∃ e, ext = cDot :: e ∧ cDot ∉ e)) → splitName (stem ++ ext) = (stem, ext).
Proof.
  intros [[-> H]|[Hne (e & -> & He)]]; unfold splitName.
  - rewrite app_nil_r. by destruct H as [-> | ->].
  - rewrite last_index_of_app by done. destruct stem as [|x stem]; [done|].
    change (length (x :: stem)) with (S (length stem)). cbn [length].
    replace (S (length stem)) with (length (x :: stem)) by done. by rewrite take_app_length, drop_app_length.
Qed.
Lemma splitPath_spec path dir stem ext :
  splitPath path = (dir, stem, ext) → path = dir ++ stem ++ ext ∧ parts_ok dir stem ext.
Proof.
  rewrite splitPath_eq. destruct (splitDir path) as [d n] eqn:Hd, (splitName n) as [s e] eqn:Hn.
  intros [= -> -> ->]. apply splitDir_spec in Hd as (-> & Hs & Hdir). apply splitName_spec in Hn as [-> Hn].
  done.
Qed.
Lemma splitPath_build dir stem ext :
  parts_ok dir stem ext → splitPath (dir ++ stem ++ ext) = (dir, stem, ext).
Proof.
  intros (Hd & Hs & He). by rewrite splitPath_eq, splitDir_build, splitName_build.
Qed.

(** ** The round trip *)
Lemma lastMatch_found stem n i :
  i ≤ n → matchesAt stem i = true → (∀ j, i < j → matchesAt stem j = false) → lastMatch stem n = Some i.
Proof.
  intros Hin Hi Hno. induction n as [|n IH].
  - replace i with 0 in * by lia. simpl. by rewrite Hi.
  - cbn [lastMatch]. destruct (decide (i = S n)) as [->|Hne]; [by rewrite Hi|].
    rewrite Hno by lia. apply IH. lia.
Qed.

Lemma matchesAt_paren stem j : matchesAt stem j = true → stem !! S j = Some 40%N.
Proof.
  unfold matchesAt. rewrite !andb_true_iff, jeq_true. intros [[_ Ho] _].
  assert (H1 : asciiLower (take (length OPENING) (drop j stem)) !! 1 = Some 40%N) by (by rewrite Ho).
  unfold asciiLower in H1. rewrite list_lookup_fmap, fmap_Some in H1. destruct H1 as (c & Hc & Hup).
  apply lookup_take_Some in Hc as [Hc _]. rewrite lookup_drop in Hc. rewrite Nat.add_1_r in Hc. rewrite Hc.
  f_equal. unfold is_upper in Hup. destruct (bool_decide (65 ≤ c ∧ c ≤ 90)%N) eqn:Hb; [bools; lia|done].
Qed.

(** A date the name can carry: a four-digit year, two-digit fields. *)
Definition date_ok (w : UTCDate) : Prop :=
  (1000 ≤ year w < 10000 ∧ month w < 100 ∧ day w < 100 ∧ hours w < 100 ∧ minutes w < 100 ∧ seconds w < 100)%N.
(** A device name that does not break the scheme: see [device_name_breaks] for
    what happens otherwise. *)
Definition device_ok (device ext : jstr) : Prop :=
  device ≠ [] ∧ Forall (λ c, not_eol c = true) device ∧ 40%N ∉ device ∧ cSlash ∉ device ∧
  (ext = [] → cDot ∉ device).

Lemma is_digit_N d : (d < 10)%N → is_digit (48 + d) = true.
Proof. intros H. unfold is_digit. apply bool_decide_eq_true_2. lia. Qed.
Lemma pad_ok n : (n < 100)%N → ∃ a b, pad n = [a; b] ∧ is_digit a = true ∧ is_digit b = true.
Proof.
  intros Hn. assert (Hall : forallb (λ k, match pad (N.of_nat k) with [a; b] => is_digit a && is_digit b | _ => false end)
                      (seq 0 100) = true) by (vm_compute; reflexivity).
  rewrite forallb_forall in Hall. specialize (Hall (N.to_nat n)). rewrite N2Nat.id in Hall.
  destruct (pad n) as [|a [|b [|]]]; try (discriminate Hall; apply in_seq; lia);
    try (exfalso; enough (false = true) by done; apply Hall, in_seq; lia).
  exists a, b. split; [done|]. apply andb_true_iff, Hall, in_seq. lia.
Qed.
Lemma num_str_4 n : (1000 ≤ n < 10000)%N →
  ∃ a b c d, num_str n = [a; b; c; d] ∧ is_digit a = true ∧ is_digit b = true ∧ is_digit c = true ∧ is_digit d = true.
Proof.
  intros Hn. unfold num_str.
  assert (∃ f, S (N.size_nat n) = S (S (S (S f)))) as [f ->].
  { exists (N.size_nat n - 3).
    destruct n as [|p]; [lia|]. do 3 (destruct p as [p|p|]; try lia); simpl; lia. }
  cbn [digits_fuel].
  assert (n / 10 ≠ 0 ∧ n / 10 / 10 ≠ 0 ∧ n / 10 / 10 / 10 ≠ 0 ∧ n / 10 / 10 / 10 / 10 = 0)%N as (H1 & H2 & H3 & H4).
  { rewrite !N.Div0.div_div. repeat split; [intros H%N.div_small_iff; lia..|apply N.div_small; lia]. }
  rewrite !decide_False by done. rewrite decide_True by done.
  do 4 eexists. split; [done|]. repeat split; apply is_digit_N, N.mod_lt; lia.
Qed.
Lemma stamp_digits w : date_ok w → length (stamp w) = 14 ∧ Forall (λ c, is_digit c = true) (stamp w).
Proof.
  intros (Hy & Hm & Hd & Hh & Hmi & Hs). unfold stamp.
  destruct (num_str_4 _ Hy) as (? & ? & ? & ? & -> & ? & ? & ? & ?).
  destruct (pad_ok _ Hm) as (? & ? & -> & ? & ?), (pad_ok _ Hd) as (? & ? & -> & ? & ?), (pad_ok _ Hh) as (? & ? & -> & ? & ?),
    (pad_ok _ Hmi) as (? & ? & -> & ? & ?), (pad_ok _ Hs) as (? & ? & -> & ? & ?).
  simpl. split; [done|]. repeat constructor; done.
Qed.

Lemma lang_plus r c s : lang r [c] → Forall (λ x, lang r [x]) s → lang (rplus r) (c :: s).
Proof.
  intros Hc Hs. change (c :: s) with ([c] ++ s). apply lang_seq_inv. exists [c], s. split_and!; [done..|].
  induction Hs as [|x s Hx _ IH]; [constructor|].
  change (x :: s) with ([x] ++ s). by constructor.
Qed.
Lemma lang_rep_class f n s : length s = n → Forall (λ x, f x = true) s → lang (rrep n (RClass f)) s.
Proof.
  intros <-. induction 1 as [|x s Hx _ IH]; simpl; [by apply lang_eps_inv|].
  apply lang_seq_inv. exists [x], s. split_and!; [done| |done]. apply lang_class_inv. eauto.
Qed.

Lemma tailRe_matches device w tag :
  device ≠ [] → Forall (λ c, not_eol c = true) device → date_ok w → Forall (λ c, isAlnum c = true) tag →
  rmatch tailRe (device ++ js " " ++ stamp w ++ (if truthy tag then js "-" ++ tag else []) ++ js ")") = true.
Proof.
  intros Hne Hdev Hw Htag. destruct (stamp_digits w Hw) as [Hlen Hdig]. apply rmatch_spec.
  unfold tailRe, rseqs. simpl foldr.
  apply lang_seq_inv. exists device. eexists. split; [done|]. split.
  { destruct device as [|c device]; [done|]. apply Forall_cons in Hdev as [Hc Hdev].
    apply lang_plus; [by constructor|]. eapply Forall_impl; [exact Hdev|]. intros x Hx. by constructor. }
  apply lang_seq_inv. exists (js " "). eexists. split; [done|]. split.
  { constructor. by apply bool_decide_eq_true_2. }
  apply lang_seq_inv. exists (stamp w). eexists. split; [done|]. split; [by apply (lang_rep_class is_digit 14)|].
  apply lang_seq_inv. exists (if truthy tag then js "-" ++ tag else []). eexists. split; [done|]. split.
  - unfold truthy. case_bool_decide as Ht; simpl; [apply lang_alt_r; constructor|]. apply lang_alt_l.
    destruct tag as [|c tag]; [done|]. apply Forall_cons in Htag as [Hc Htag].
    apply lang_seq_inv. exists [45%N], (c :: tag). split; [done|]. split; [constructor; done|].
    apply lang_plus; [by constructor|]. eapply Forall_impl; [exact Htag|]. intros x Hx. by constructor.
  - apply lang_seq_inv. exists (js ")"), []. split; [done|]. split; [|constructor]. constructor. done.
Qed.

Lemma not_in_class (f : N → bool) (l : jstr) (c : N) : Forall (λ x, f x = true) l → f c = false → c ∉ l.
Proof. intros Hl Hc Hin. rewrite Forall_forall in Hl. apply Hl in Hin. congruence. Qed.

(** Every conflict copy the client names is recognised as one and traced back
    to its note: for a note whose stem has no line break, a device name free of
    [/] and [(] (and of [.] when the note has no extension), a four-digit year
    and an alphanumeric tag, the original of the copy's name is the note. *)
Theorem conflict_copy_roundtrip path device w tag :
  (∀ dir stem ext, splitPath path = (dir, stem, ext) →
     Forall (λ c, not_eol c = true) stem ∧ device_ok device ext) →
  date_ok w → Forall (λ c, isAlnum c = true) tag →
  originalOfConflictCopy (conflictCopyName path device w tag) = Some path.
Proof.
  destruct (splitPath path) as [[dir stem] ext] eqn:Hsp. intros Hok Hw Htag.
  destruct (Hok _ _ _ eq_refl) as (Hstem & Hne & Heol & Hpar & Hslash & Hdot). clear Hok.
  destruct (splitPath_spec _ _ _ _ Hsp) as [-> (Hdir & Hns & Hext)].
  destruct (stamp_digits w Hw) as [_ Hdig].
  unfold conflictCopyName. rewrite Hsp.
  set (sfx := if truthy tag then js "-" ++ tag else []).
  set (rest := device ++ js " " ++ stamp w ++ sfx ++ js ")").
  replace (stem ++ js " (conflict " ++ device ++ js " " ++ stamp w ++ sfx ++ js ")")
    with (stem ++ OPENING ++ rest) by done.
  assert (Hfree : ∀ c, c ∉ device → is_digit c = false → isAlnum c = false →
            c ∉ js " " → c ∉ js "-" → c ∉ js ")" → c ∉ rest).
  { intros c H1 H2 H3 H4 H5 H6. subst rest. rewrite !not_elem_of_app. split_and!; try done.
    - by eapply (not_in_class is_digit).
    - subst sfx. destruct (truthy tag); [|apply not_elem_of_nil]. rewrite not_elem_of_app.
      split; [done|]. by eapply (not_in_class isAlnum). }
  assert (Hslash' : cSlash ∉ rest) by (apply Hfree; try done; vm_compute; set_solver).
  assert (Hpar' : 40%N ∉ rest) by (apply Hfree; try done; vm_compute; set_solver).
  assert (Hdot' : ext = [] → cDot ∉ rest) by (intros He; apply Hfree; auto; vm_compute; set_solver).
  assert (HO : cSlash ∉ OPENING ∧ cDot ∉ OPENING) by (split; vm_compute; set_solver).
  unfold originalOfConflictCopy. rewrite splitPath_build.
  - erewrite lastMatch_found; [by rewrite take_app_length|rewrite length_app; lia| |].
    + unfold matchesAt. rewrite take_app_length, drop_app_length, take_app_length.
      rewrite <- drop_drop, drop_app_length, drop_app_length.
      rewrite !andb_true_iff. split_and!; [|by vm_compute|].
      * apply forallb_forall. intros c Hc. rewrite <- list_elem_of_In in Hc.
        rewrite Forall_forall in Hstem. by apply Hstem.
      * by apply tailRe_matches.
    + intros j Hj. destruct (matchesAt _ j) eqn:Hm; [|done]. exfalso. apply matchesAt_paren in Hm.
      rewrite lookup_app_r in Hm by lia.
      assert (HOp : js " (conflict " = [32%N; 40%N] ++ js "conflict ") by done. rewrite HOp in Hm.
      rewrite <- app_assoc, lookup_app_r in Hm by (simpl; lia).
      apply list_elem_of_lookup_2, elem_of_app in Hm as [Hm|Hm]; [|done]. vm_compute in Hm. set_solver.
  - split_and!; [done| |].
    + rewrite !not_elem_of_app in *. tauto.
    + destruct Hext as [[He Hl]|[Hs He]]; [left|right].
      * split; [done|].
        assert (Hlast : ∀ (a b : jstr), cDot ∉ b → last_index_of cDot (a ++ b) = last_index_of cDot a).
        { intros a b Hb. induction a as [|x a IH]; simpl; [by apply last_index_of_None|]. by rewrite IH. }
        rewrite Hlast; [done|]. rewrite not_elem_of_app. split; [apply HO|by apply Hdot'].
      * split; [by destruct stem|done].
Qed.
Lemma conflict_copy_roundtrip_witness :
  let w := {| year := 2026; month := 9; day := 7; hours := 8; minutes := 5; seconds := 59 |} in
  conflictCopyName (js "Notes/v1.2 plan.md") (js "Pixel 9") w (js "a1b2c3")
    = js "Notes/v1.2 plan (conflict Pixel 9 20260907080559-a1b2c3).md" ∧
  originalOfConflictCopy (conflictCopyName (js "Notes/v1.2 plan.md") (js "Pixel 9") w (js "a1b2c3"))
    = Some (js "Notes/v1.2 plan.md").
Proof.
  split; [vm_compute; reflexivity|].
  apply conflict_copy_roundtrip.
  - assert (splitPath (js "Notes/v1.2 plan.md") = (js "Notes/", js "v1.2 plan", js ".md")) as ->
      by (vm_compute; reflexivity).
    intros dir stem ext [= <- <- <-]. unfold device_ok. split_and!; try (by vm_compute); try discriminate.
    + apply Forall_forall. intros c Hc. vm_compute in Hc. vm_compute. set_solver.
    + apply Forall_forall. intros c Hc. vm_compute in Hc. vm_compute. set_solver.
    + vm_compute. set_solver.
    + vm_compute. set_solver.
  - unfold date_ok. simpl. lia.
  - apply Forall_forall. intros c Hc. vm_compute in Hc. set_solver.
Defined.

(** The device name is free text in the settings: with a [/] in it the copy lands
    in another folder and is not recognised as a conflict copy; with a [.] the
    same holds for a note without extension. *)
Theorem device_name_breaks :
  let w := {| year := 2026; month := 9; day := 7; hours := 8; minutes := 5; seconds := 59 |} in
  originalOfConflictCopy (conflictCopyName (js "plan.md") (js "PC/home") w (js "a1b2c3")) = None ∧
  originalOfConflictCopy (conflictCopyName (js "README") (js "pc.local") w (js "a1b2c3")) = None.
Proof. vm_compute. auto. Qed.

End Store.
