(* ===== verification/Decide.v ===== *)
(** * Decide: the pure core of reconciliation ([client/src/reconcile.ts])

    The decision table for one path, the choice of effect, the merge plan, the
    bulk guards, the scan mode and the cursor rules.  The imperative shell that
    runs them is in [Reconcile]. *)

From Stdlib Require Import SpecFloat.
From S2P Require Import Prelude Regex Jsmap Paths Base.

Module Decide.

(** ** The decision for one path *)
Inductive Action :=
| InSync | Push | Pull | DeleteLocal | DeleteRemote | Merge | ConflictCopy
| EditWinsKeepLocal | EditWinsPull.
#[export] Instance Action_eq_dec : EqDecision Action.
Proof. solve_decision. Defined.

Definition decide_action (L B R : option jstr) : Action :=
  match L, R with
  | None, None => InSync
  | Some l, None =>
      match B with None => Push | Some b => if l === b then DeleteLocal else EditWinsKeepLocal end
  | None, Some r =>
      match B with None => Pull | Some b => if r === b then DeleteRemote else EditWinsPull end
  | Some l, Some r =>
      if l === r then InSync
      else match B with
           | None => ConflictCopy
           | Some b => if b === l then Pull else if b === r then Push else Merge
           end
  end.

(** ** The effect *)
Inductive ReconcileEffect :=
| ENoop | ESetBaseInSync | EClearBase | EReportReadOnly | EReportGuard | EReportReadOnlyCopy
| EReportPushGuard | EPush (version : Z) (allowStamp : bool) | EPull | ERestore
| EKeptAbsentReadOnly | ERemoveLocal | EDeleteRemote (version : Z) | EMergeOrConflict.
#[export] Instance ReconcileEffect_eq_dec : EqDecision ReconcileEffect.
Proof. solve_decision. Defined.

Definition isTransferEffect (e : ReconcileEffect) : bool :=
  match e with
  | EPush _ _ | EPull | ERestore | ERemoveLocal | EDeleteRemote _ | EMergeOrConflict => true
  | _ => false
  end.

Record FinalizeFacts := {
  readOnly : bool; noResurrect : bool; hasTombstone : bool; guardDelete : bool;
  guardBulkPush : bool; isConflictCopy : bool; hasLocalBytes : bool; hasRmeta : bool;
  hasBaseEntry : bool; remoteVersion : Z;
}.

Definition finalize (action : Action) (f : FinalizeFacts) : ReconcileEffect :=
  match action with
  | InSync =>
      if hasLocalBytes f && hasRmeta f then ESetBaseInSync
      else if negb (hasLocalBytes f) && negb (hasRmeta f) && hasBaseEntry f then EClearBase
      else ENoop
  | Push =>
      if readOnly f then (if isConflictCopy f then EReportReadOnlyCopy else EReportReadOnly)
      else if noResurrect f && negb (hasRmeta f) && hasTombstone f then EKeptAbsentReadOnly
      else if noResurrect f && negb (hasRmeta f) && guardBulkPush f then EReportPushGuard
      else EPush (remoteVersion f) true
  | Pull | EditWinsPull => EPull
  | DeleteLocal =>
      if negb (hasTombstone f) then (if readOnly f || noResurrect f then EKeptAbsentReadOnly else ERestore)
      else if guardDelete f then EReportGuard
      else ERemoveLocal
  | DeleteRemote => if readOnly f then EReportReadOnly else EDeleteRemote (remoteVersion f)
  | EditWinsKeepLocal =>
      if readOnly f then EReportReadOnly
      else if noResurrect f then EKeptAbsentReadOnly
      else EPush (remoteVersion f) false
  | Merge | ConflictCopy => EMergeOrConflict
  end.

Inductive MergePlan := AdoptRemote | ReadOnlyKeepCopy | PushMerged | PlanConflictCopy.
Record MergeFacts := {
  cosmetic : bool; m_readOnly : bool; m_action : Action; canMerge : bool; mergeClean : bool;
  firstContactKeepCopy : bool;
}.
Definition planMerge (f : MergeFacts) : MergePlan :=
  if cosmetic f then AdoptRemote
  else if m_readOnly f then
    if bool_decide (m_action f = Merge) || firstContactKeepCopy f then ReadOnlyKeepCopy else AdoptRemote
  else if canMerge f && mergeClean f then PushMerged
  else PlanConflictCopy.

(** ** Cosmetic equality and connection errors *)
(** [.replace(/\r\n?/g, "\n").replace(/\n+$/, "")] *)
Fixpoint eolNorm (s : jstr) : jstr :=
  match s with
  | [] => []
  | x :: s' =>
      if decide (x = cCR) then
        cLF :: match s' with y :: s'' => if decide (y = cLF) then eolNorm s'' else eolNorm s' | [] => [] end
      else x :: eolNorm s'
  end.
Definition stripEol (s : jstr) : jstr := reverse (drop_while (λ c, bool_decide (c = cLF)) (reverse s)).
(** [new TextDecoder().decode] replaces invalid input; it is a parameter. *)
Definition sameIgnoringEol (decodeLossy : list N → jstr) (a b : list N) : bool :=
  stripEol (eolNorm (decodeLossy a)) === stripEol (eolNorm (decodeLossy b)).

Definition CONNECTION_ERRORS : list jstr :=
  [js "unknownhostexception"; js "unable to resolve host"; js "no address associated with hostname";
   js "getaddrinfo"; js "enotfound"; js "eai_again"; js "econnrefused"; js "econnreset";
   js "enetunreach"; js "network is unreachable"; js "failed to fetch"; js "fetch failed";
   js "err_name_not_resolved"; js "err_internet_disconnected"; js "err_connection_refused";
   js "err_connection_reset"; js "err_address_unreachable"].
Definition isConnectionError (message : jstr) : bool :=
  existsb (includes (lower message)) CONNECTION_ERRORS.

(** ** Bulk guards *)
Definition DEFAULT_MAX_SYNC_BYTES : Z := 200 * 1024 * 1024.
Definition BULK_DELETE_MIN : Z := 6.
Definition SHARED_PUSH_FLOOR : Z := 10.

(** JS numbers are binary64; [None] is a value of another type. *)
Definition double : Type := spec_float.
Definition dbl (z : Z) : double := binary_normalize 53 1024 z 0 false.
Definition dgt (a b : double) : bool := SFltb b a.
Definition is_finite (d : double) : bool := match d with S754_zero _ | S754_finite _ _ _ => true | _ => false end.

Inductive BulkDeleteStrategy := SOff | SCount | SPercent.
#[export] Instance BulkDeleteStrategy_eq_dec : EqDecision BulkDeleteStrategy.
Proof. solve_decision. Defined.
Definition strategyActive (s : option BulkDeleteStrategy) : bool :=
  match s with None | Some SOff => false | Some _ => true end.
Definition bulkDeleteHold (strategy : option BulkDeleteStrategy) (threshold : option double)
    (deleteCount baseCount : Z) : bool :=
  if negb (strategyActive strategy) || (deleteCount <=? 0)%Z then false
  else match threshold with
       | None => true
       | Some t =>
           if negb (is_finite t) || SFleb t (dbl 0) then true
           else if decide (strategy = Some SCount) then dgt (dbl deleteCount) t
           else (0 <? baseCount)%Z
                && dgt (SFmul 53 1024 (SFdiv 53 1024 (dbl deleteCount) (dbl baseCount)) (dbl 100)) t
       end.

(** [deletes / universe >= 0.5]: the comparison with one half is exact in
    binary64, so it is [2 * deletes >= universe]. *)
Definition isSuspiciousBulkDelete (universe deletes : Z) (emptyManifest : bool) : bool :=
  (0 <? universe)%Z && (emptyManifest || ((BULK_DELETE_MIN <=? universe) && (universe <=? 2 * deletes))%Z).

Record PushHoldCfg := {
  ph_noResurrect : bool; ph_accepts : jstr → bool;
  ph_strategy : option BulkDeleteStrategy; ph_threshold : option double;
}.
Definition pushCandidates (c : PushHoldCfg) (localKeys : list jstr) (tombstoned : gset jstr) : list jstr :=
  filter (λ p, ph_accepts c p = true ∧ p ∉ tombstoned) localKeys.
Definition hasBase (base : Store.BaseStore) (p : jstr) : bool :=
  match Store.get base p with Some _ => true | None => false end.
Definition wouldPushNew (base : Store.BaseStore) (remoteKeys : gset jstr) (notTombstoned : list jstr) : Z :=
  Z.of_nat (length (filter (λ p, hasBase base p = false ∧ p ∉ remoteKeys) notTombstoned)).
Definition computeBulkPushHold (c : PushHoldCfg) (base : Store.BaseStore) (localKeys : list jstr)
    (remoteKeys tombstoned : gset jstr) : bool :=
  if negb (ph_noResurrect c) then false
  else
    let notTombstoned := pushCandidates c localKeys tombstoned in
    let n := wouldPushNew base remoteKeys notTombstoned in
    let userHold := if strategyActive (ph_strategy c)
                    then bulkDeleteHold (ph_strategy c) (ph_threshold c) n (Z.of_nat (length notTombstoned)) else false in
    userHold || (SHARED_PUSH_FLOOR <? n)%Z.

(** ** Scan mode, retry budget, cursor *)
Inductive ReconcileMode := MNoop | MFull | MDelta | MDeltaConfig.
Record ModeFacts := { forceConfigScan : bool; forceFullScan : bool; reset : bool; noChange : bool }.
Definition decideReconcileMode (o : ModeFacts) : ReconcileMode :=
  if negb (forceConfigScan o) && negb (forceFullScan o) && negb (reset o) && noChange o then MNoop
  else if forceFullScan o || reset o then MFull
  else if forceConfigScan o then MDeltaConfig else MDelta.

Definition MAX_PULL_RETRIES : Z := 5.
Record Budget := { b_version : Z; b_count : Z }.
Definition RetryBudget : Type := option (list (jstr * Budget)).   (* [None]: not wired *)
(** The hold, whether [onPullExhausted] fires, and the budget left. *)
Definition holdForRetry (budget : RetryBudget) (path : jstr) (version : Z) : bool * bool * RetryBudget :=
  match budget with
  | None => (true, false, None)
  | Some m =>
      let count := match jget m path with
                   | Some cur => if (b_version cur =? version)%Z then (b_count cur + 1)%Z else 1%Z
                   | None => 1%Z
                   end in
      let m' := jset m path {| b_version := version; b_count := count |} in
      if (MAX_PULL_RETRIES <=? count)%Z then (false, true, Some m') else (true, false, Some m')
  end.
Definition retryReset (budget : RetryBudget) (path : jstr) : RetryBudget :=
  (λ m, jdel m path) <$> budget.

Definition minList (l : list Z) : option Z :=
  match l with [] => None | x :: l' => Some (foldl Z.min x l') end.
Definition advanceCursor (authoritativeVersion : Z) (failedVersions : list Z) : Z :=
  match minList failedVersions with
  | Some m => Z.min authoritativeVersion (m - 1)
  | None => authoritativeVersion
  end.

Definition FILE_CONCURRENCY : nat := 4.
Definition STREAM_MIN_BYTES : Z := 8 * 1024 * 1024.
Definition MAX_BASE_TEXT_BYTES : Z := 1024 * 1024.

Definition baseStatUnchanged (be : option Store.BaseEntry) (st : option (Z * Z)) : bool :=
  match be, st with
  | Some e, Some (sz, mt) => bool_decide (Store.size e = Some sz) && bool_decide (Store.mtime e = Some mt)
  | _, _ => false
  end.

Definition CONFIG_PREFIX : jstr := js ".obsidian/".
Definition isConfig (path : jstr) : bool := starts_with path CONFIG_PREFIX.
Definition ignorePatternsFor (patterns excludedFolders : option (list jstr)) (path : jstr) : list jstr :=
  match patterns with
  | None | Some [] => []
  | Some ps =>
      if negb (ends_with path (js ".md")) || isConfig path
         || Excluded.isExcluded path (default [] excludedFolders) then []
      else ps
  end.

(** ** What the table guarantees *)
Definition mirror (a : Action) : Action :=
  match a with
  | Push => Pull | Pull => Push
  | DeleteLocal => DeleteRemote | DeleteRemote => DeleteLocal
  | EditWinsKeepLocal => EditWinsPull | EditWinsPull => EditWinsKeepLocal
  | a => a
  end.

(** C9: No decision destroys an unsynced change.  A side is overwritten or deleted
    only when it still holds the last-synced content (or nothing, where nothing was
    synced); when both sides differ from it and from each other the answer is a
    merge or a conflict copy; a deletion never beats an edit; the table is
    symmetric between the two devices. *)
Theorem decide_never_clobbers L B R :
  let a := decide_action L B R in
  (a = Pull → R ≠ None ∧ L = B) ∧
  (a = Push → L ≠ None ∧ R = B) ∧
  (a = DeleteLocal → L ≠ None ∧ L = B ∧ R = None) ∧
  (a = DeleteRemote → R ≠ None ∧ R = B ∧ L = None) ∧
  (L ≠ None → R ≠ None → L ≠ R → L ≠ B → R ≠ B → a = Merge ∨ a = ConflictCopy) ∧
  (a = InSync ↔ L = R) ∧
  (L ≠ None → R = None → B ≠ None → L ≠ B → a = EditWinsKeepLocal) ∧
  decide_action R B L = mirror a.
Proof.
  cbv zeta. unfold decide_action.
  destruct L as [l|], R as [r|], B as [b|]; repeat case_match;
    repeat match goal with
    | H : (_ === _) = true |- _ => apply jeq_true in H; subst
    | H : (_ === _) = false |- _ => apply jeq_false in H
    end; simplify_eq/=; naive_solver.
Qed.
Lemma decide_never_clobbers_witness :
  decide_action (Some (js "mine")) (Some (js "base")) (Some (js "theirs")) = Merge ∧
  (decide_action (Some (js "mine")) (Some (js "base")) (Some (js "theirs")) = Merge ∨
   decide_action (Some (js "mine")) (Some (js "base")) (Some (js "theirs")) = ConflictCopy).
Proof.
  split; [vm_compute; reflexivity|].
  apply (decide_never_clobbers (Some (js "mine")) (Some (js "base")) (Some (js "theirs"))); discriminate.
Defined.

(** The table and the effects, inverted. *)
Lemma decide_table L B R :
  let a := decide_action L B R in
  (a = Pull → R ≠ None ∧ L = B) ∧ (a = Push → L ≠ None ∧ R = B) ∧
  (a = DeleteLocal → L ≠ None ∧ L = B ∧ R = None) ∧
  (a = DeleteRemote → R ≠ None ∧ R = B ∧ L = None) ∧
  (a = EditWinsPull → L = None) ∧
  (L ≠ None → R = None → B ≠ None → L ≠ B → a = EditWinsKeepLocal).
Proof.
  cbv zeta. unfold decide_action.
  destruct L as [l|], R as [r|], B as [b|]; repeat case_match;
    repeat match goal with
    | H : (_ === _) = true |- _ => apply jeq_true in H; subst
    | H : (_ === _) = false |- _ => apply jeq_false in H
    end; simplify_eq/=; naive_solver.
Qed.
Ltac finalize_cases :=
  let a := fresh in intros a; unfold finalize in a; repeat case_match; simplify_eq; bools.
Lemma finalize_push a f v s :
  finalize a f = EPush v s →
  v = remoteVersion f ∧ readOnly f = false ∧
  (noResurrect f = true → hasRmeta f = false →
   a = Push ∧ hasTombstone f = false ∧ guardBulkPush f = false).
Proof.
  finalize_cases; split_and!; try done; intros Hn Hr; rewrite ?Hn, ?Hr in *; simpl in *; done.
Qed.
Lemma finalize_removeLocal a f :
  finalize a f = ERemoveLocal → a = DeleteLocal ∧ hasTombstone f = true ∧ guardDelete f = false.
Proof. finalize_cases; done. Qed.
Lemma finalize_deleteRemote a f v :
  finalize a f = EDeleteRemote v → a = DeleteRemote ∧ readOnly f = false ∧ v = remoteVersion f.
Proof. finalize_cases; done. Qed.
Lemma finalize_restore a f :
  finalize a f = ERestore → a = DeleteLocal ∧ readOnly f = false ∧ noResurrect f = false.
Proof. finalize_cases; done. Qed.
Lemma finalize_pull a f : finalize a f = EPull → a = Pull ∨ a = EditWinsPull.
Proof. finalize_cases; auto. Qed.
Lemma finalize_merge a f : finalize a f = EMergeOrConflict → a = Merge ∨ a = ConflictCopy.
Proof. finalize_cases; auto. Qed.
Lemma decide_keepLocal L B R : decide_action L B R = EditWinsKeepLocal → R = None.
Proof. unfold decide_action. destruct L, R, B; repeat case_match; done. Qed.
Lemma decide_conflictCopy L B R : decide_action L B R = ConflictCopy → B = None.
Proof. unfold decide_action. destruct L, R, B; repeat case_match; done. Qed.

(** The facts the shell computes are those of the three sides. *)
Definition facts_of (f : FinalizeFacts) (L B R : option jstr) : Prop :=
  hasLocalBytes f = bool_decide (L ≠ None) ∧ hasRmeta f = bool_decide (R ≠ None) ∧
  hasBaseEntry f = bool_decide (B ≠ None).

(** The effects are safe end to end.  Decision and choice of effect together:
    the server is never written from a read-only scope; a local file is removed
    only if it is the last-synced content, the server has none and holds a real
    tombstone, and no bulk guard tripped; the server copy is deleted only if it is
    the last-synced version and the file is gone here; on a shared source a path
    the source has deleted, or a mass of new files, is never pushed back. *)
Theorem effects_safe L B R f :
  facts_of f L B R →
  let e := finalize (decide_action L B R) f in
  (readOnly f = true → ∀ v s, e ≠ EPush v s ∧ e ≠ EDeleteRemote v ∧ e ≠ ERestore) ∧
  (e = ERemoveLocal → L ≠ None ∧ L = B ∧ R = None ∧ hasTombstone f = true ∧ guardDelete f = false) ∧
  (∀ v, e = EDeleteRemote v → L = None ∧ R ≠ None ∧ R = B ∧ v = remoteVersion f ∧ readOnly f = false) ∧
  (noResurrect f = true → R = None →
     e ≠ ERestore ∧ (∀ v s, e = EPush v s → hasTombstone f = false ∧ guardBulkPush f = false ∧ B = None)) ∧
  (L ≠ None → L ≠ B → e ≠ ERemoveLocal ∧ (e = EPull → L = None)).
Proof.
  intros (Hl & Hr & Hb) e. subst e.
  destruct (decide_table L B R) as (Hpull & Hpush & Hdl & Hdr & Hew & Hkeep).
  split_and!.
  - intros Hro v s. split_and!; intros He.
    + apply finalize_push in He as (_ & ? & _). congruence.
    + apply finalize_deleteRemote in He as (_ & ? & _). congruence.
    + apply finalize_restore in He as (_ & ? & _). congruence.
  - intros (Ha & Ht & Hg)%finalize_removeLocal. destruct (Hdl Ha) as (? & ? & ?). done.
  - intros v (Ha & Hro & Hv)%finalize_deleteRemote. destruct (Hdr Ha) as (? & ? & ?). done.
  - intros Hn HR. rewrite HR in Hr. split.
    + intros (_ & _ & ?)%finalize_restore. congruence.
    + intros v s (Ha & _ & Hsrc)%finalize_push.
      destruct (Hsrc Hn) as (Ha' & Ht & Hg).
      { rewrite Hr. by rewrite bool_decide_eq_false_2 by auto. }
      destruct (Hpush Ha') as [_ <-]. done.
  - intros HL HLB. split.
    + intros (Ha & _)%finalize_removeLocal. destruct (Hdl Ha) as (_ & ? & _). done.
    + intros [Ha|Ha]%finalize_pull; [destruct (Hpull Ha); done|auto].
Qed.
Definition demoFacts : FinalizeFacts := {|
  readOnly := false; noResurrect := false; hasTombstone := true; guardDelete := false;
  guardBulkPush := false; isConflictCopy := false; hasLocalBytes := true; hasRmeta := false;
  hasBaseEntry := true; remoteVersion := 0 |}.
Lemma effects_safe_witness :
  finalize (decide_action (Some (js "h")) (Some (js "h")) None) demoFacts = ERemoveLocal ∧
  hasTombstone demoFacts = true ∧ guardDelete demoFacts = false.
Proof.
  split; [vm_compute; reflexivity|].
  destruct (effects_safe (Some (js "h")) (Some (js "h")) None demoFacts) as (_ & Hrm & _).
  - unfold facts_of. split_and!; vm_compute; reflexivity.
  - destruct Hrm as (_ & _ & _ & Ht & Hg); [vm_compute; reflexivity|]. split; [exact Ht|exact Hg].
Defined.

(** A diverged local version is never silently replaced: remote content is
    adopted over it only when the two are cosmetically equal, or on a fresh
    read-only share with no common base; a merge is pushed only when it was
    possible and clean. *)
Theorem planMerge_keeps_local f :
  (planMerge f = AdoptRemote →
     cosmetic f = true ∨ (m_readOnly f = true ∧ m_action f ≠ Merge ∧ firstContactKeepCopy f = false)) ∧
  (planMerge f = PushMerged →
     m_readOnly f = false ∧ canMerge f = true ∧ mergeClean f = true ∧ cosmetic f = false) ∧
  (m_readOnly f = true → planMerge f ≠ PushMerged ∧ planMerge f ≠ PlanConflictCopy).
Proof.
  unfold planMerge. destruct (cosmetic f), (m_readOnly f), (canMerge f), (mergeClean f), (firstContactKeepCopy f);
    try case_bool_decide; simpl; split_and!; naive_solver.
Qed.
Lemma planMerge_keeps_local_witness :
  let f := {| cosmetic := false; m_readOnly := true; m_action := ConflictCopy; canMerge := true;
              mergeClean := true; firstContactKeepCopy := true |} in
  planMerge f = ReadOnlyKeepCopy ∧ planMerge f ≠ PushMerged ∧ planMerge f ≠ PlanConflictCopy.
Proof.
  split; [reflexivity|].
  apply (planMerge_keeps_local {| cosmetic := false; m_readOnly := true; m_action := ConflictCopy;
    canMerge := true; mergeClean := true; firstContactKeepCopy := true |}). reflexivity.
Defined.

(** The bulk guards fail closed.  An active incoming-delete gate with a
    missing, non-finite or non-positive threshold holds every deletion batch; an
    inactive one holds none.  On a shared source more than ten unbased local-only
    files are held whatever the settings say, and live-tombstoned or declined
    paths never count. *)
Theorem bulk_guards_fail_closed :
  (∀ s t dc bc, strategyActive s = true → (0 < dc)%Z →
     (∀ x, t = Some x → is_finite x = false ∨ SFleb x (dbl 0) = true) → bulkDeleteHold s t dc bc = true) ∧
  (∀ s t dc bc, strategyActive s = false ∨ (dc ≤ 0)%Z → bulkDeleteHold s t dc bc = false) ∧
  (∀ c base localKeys remoteKeys tombstoned,
     ph_noResurrect c = true →
     (10 < Z.of_nat (length (filter (λ p, (ph_accepts c p = true ∧ p ∉ tombstoned) ∧
                                          hasBase base p = false ∧ p ∉ remoteKeys) localKeys)))%Z →
     computeBulkPushHold c base localKeys remoteKeys tombstoned = true) ∧
  (∀ c base localKeys remoteKeys tombstoned,
     ph_noResurrect c = false → computeBulkPushHold c base localKeys remoteKeys tombstoned = false).
Proof.
  split_and!.
  - intros s t dc bc Hs Hdc Ht. unfold bulkDeleteHold. rewrite Hs. cbn [negb orb].
    destruct (Z.leb_spec dc 0); [lia|]. destruct t as [x|]; [|done].
    destruct (Ht x eq_refl) as [-> | ->]; [done|]. by rewrite orb_true_r.
  - intros s t dc bc [Hs|Hdc]; unfold bulkDeleteHold; [by rewrite Hs|].
    destruct (Z.leb_spec dc 0); [|lia]. by rewrite orb_true_r.
  - intros c base lk rk tb Hn Hlen. unfold computeBulkPushHold. rewrite Hn. cbn [negb].
    unfold wouldPushNew, pushCandidates in *. rewrite list_filter_filter.
    apply orb_true_iff. right. apply Z.ltb_lt. unfold SHARED_PUSH_FLOOR.
    eapply Z.lt_le_trans; [exact Hlen|]. apply Z.eq_le_incl. do 2 f_equal.
    apply list_filter_iff. intros p. tauto.
  - intros c base lk rk tb Hn. unfold computeBulkPushHold. by rewrite Hn.
Qed.
Lemma bulk_guards_fail_closed_witness :
  bulkDeleteHold (Some SCount) (Some S754_nan) 1 500 = true ∧
  bulkDeleteHold (Some SCount) (Some (dbl 25)) 25 500 = false.
Proof.
  split; [|vm_compute; reflexivity].
  apply (proj1 bulk_guards_fail_closed); [reflexivity|reflexivity|].
  intros x [= <-]. left. reflexivity.
Defined.

(** In binary64, 7 of 100 files at a threshold of 7 percent is held, although 7
    percent is not more than 7 percent; 5 of 100 at 5 is not held. *)
Theorem percent_rounding :
  bulkDeleteHold (Some SPercent) (Some (dbl 7)) 7 100 = true ∧
  bulkDeleteHold (Some SPercent) (Some (dbl 5)) 5 100 = false.
Proof. vm_compute. auto. Qed.

(** A pass is skipped only when nothing is due: "noop" exactly when no scan is
    forced, no history was reset and nothing changed; a reset or a due full scan
    always runs the full pass; a due config scan is never dropped. *)
Theorem mode_total o :
  (decideReconcileMode o = MNoop ↔
     forceConfigScan o = false ∧ forceFullScan o = false ∧ reset o = false ∧ noChange o = true) ∧
  (forceFullScan o = true ∨ reset o = true ↔ decideReconcileMode o = MFull) ∧
  (forceConfigScan o = true → decideReconcileMode o = MFull ∨ decideReconcileMode o = MDeltaConfig).
Proof.
  unfold decideReconcileMode.
  destruct (forceConfigScan o), (forceFullScan o), (reset o), (noChange o); simpl; naive_solver.
Qed.
Lemma mode_total_witness :
  let o := {| forceConfigScan := true; forceFullScan := false; reset := false; noChange := true |} in
  decideReconcileMode o = MFull ∨ decideReconcileMode o = MDeltaConfig.
Proof.
  apply (mode_total {| forceConfigScan := true; forceFullScan := false; reset := false; noChange := true |}).
  reflexivity.
Defined.

Lemma minList_spec l m : minList l = Some m → m ∈ l ∧ Forall (λ x, (m ≤ x)%Z) l.
Proof.
  destruct l as [|x l]; [done|]. intros [= <-].
  revert x. induction l as [|y l IH]; intros x; simpl; [split; [by left|by repeat constructor]|].
  destruct (IH (Z.min x y)) as [Hin Hall]. apply Forall_cons in Hall as [Hle Hall]. split.
  - apply elem_of_cons in Hin as [Heq|Hin]; [|by right; right].
    rewrite Heq. destruct (Z.min_spec x y) as [[_ ->]|[_ ->]]; [by left|by right; left].
  - repeat constructor; [lia|lia|done].
Qed.

(** The poll cursor never passes a change that failed: it ends strictly below
    every failed version and never above the server's version, exactly at the
    server's version when nothing failed, and as high as those bounds allow. *)
Theorem cursor_holds v failed :
  (advanceCursor v failed ≤ v)%Z ∧ Forall (λ f, (advanceCursor v failed < f)%Z) failed ∧
  (failed = [] → advanceCursor v failed = v) ∧
  (∀ c, (c ≤ v)%Z → Forall (λ f, (c < f)%Z) failed → (c ≤ advanceCursor v failed)%Z).
Proof.
  unfold advanceCursor. destruct (minList failed) as [m|] eqn:Hm.
  - destruct (minList_spec _ _ Hm) as [Hin Hall]. split_and!.
    + lia.
    + eapply Forall_impl; [exact Hall|]. simpl. lia.
    + by intros ->.
    + intros c Hc Hf. rewrite Forall_forall in Hf. specialize (Hf m Hin). lia.
  - destruct failed; [|done]. split_and!; [lia|constructor|done|intros; lia].
Qed.
Lemma cursor_holds_witness : advanceCursor 90 [47; 42; 60]%Z = 41%Z ∧ advanceCursor 90 [] = 90%Z.
Proof. split; [reflexivity|]. apply (cursor_holds 90 []). reflexivity. Defined.

(** Consecutive failures of one path, at the versions given. *)
Fixpoint failures (budget : RetryBudget) (path : jstr) (versions : list Z) : list bool * RetryBudget :=
  match versions with
  | [] => ([], budget)
  | v :: vs => let '(h, _, b) := holdForRetry budget path v in
               let '(hs, b') := failures b path vs in (h :: hs, b')
  end.
Lemma failures_from m path v k n :
  jget m path = Some {| b_version := v; b_count := k |} →
  (failures (Some m) path (replicate n v)).1 = (λ i, (k + 1 + Z.of_nat i <? 5)%Z) <$> seq 0 n.
Proof.
  revert m k. induction n as [|n IH]; intros m k Hm; [done|].
  cbn [replicate failures]. unfold holdForRetry. rewrite Hm. cbn [b_version b_count]. rewrite Z.eqb_refl.
  set (m' := jset m path _).
  assert (Hm' : jget m' path = Some {| b_version := v; b_count := k + 1 |}) by apply jget_set_eq.
  specialize (IH m' (k + 1)%Z Hm'). unfold MAX_PULL_RETRIES.
  assert (Hshift : (λ i, (k + 1 + 1 + Z.of_nat i <? 5)%Z) <$> seq 0 n = (λ i, (k + 1 + Z.of_nat i <? 5)%Z) <$> seq 1 n).
  { rewrite <- (fmap_S_seq 0 n), <- list_fmap_compose. apply list_fmap_ext. intros i ? _. simpl. f_equal. lia. }
  destruct (Z.leb_spec 5 (k + 1)); destruct (failures _ _ _) as [hs b']; cbn [fst] in *;
    rewrite IH, Hshift; cbn [seq fmap list_fmap]; f_equal; symmetry; first [apply Z.ltb_ge; lia|apply Z.ltb_lt; lia].
Qed.

(** A corrupt server copy cannot pin the cursor forever, and a fixed one is
    retried at once: of any number of consecutive failures at one version the
    first four hold the cursor and the rest let it pass; a failure at a new
    version starts a fresh budget; without a budget every failure holds. *)
Theorem retry_budget m path v n :
  jget m path = None ∨ (∃ b, jget m path = Some b ∧ b_version b ≠ v) →
  (failures (Some m) path (replicate n v)).1 = (λ i, bool_decide (i < 4)) <$> seq 0 n ∧
  (failures None path (replicate n v)).1 = replicate n true.
Proof.
  intros Hfresh. split.
  - destruct n as [|n]; [done|]. cbn [replicate failures]. unfold holdForRetry.
    assert (match jget m path with
            | Some cur => if (b_version cur =? v)%Z then (b_count cur + 1)%Z else 1%Z
            | None => 1%Z end = 1%Z) as ->.
    { destruct Hfresh as [-> | (b & -> & Hb)]; [done|]. by apply Z.eqb_neq in Hb as ->. }
    unfold MAX_PULL_RETRIES. simpl.
    pose proof (failures_from (jset m path {| b_version := v; b_count := 1 |}) path v 1 n (jget_set_eq _ _ _)) as Hf.
    destruct (failures _ _ _) as [hs b']. cbn [fst] in *. rewrite Hf. cbn [seq fmap list_fmap].
    rewrite <- (fmap_S_seq 0 n), <- list_fmap_compose. f_equal. apply list_fmap_ext. intros i x _. cbn [compose].
    destruct (Z.ltb_spec (1 + 1 + Z.of_nat x) 5); case_bool_decide; lia || done.
  - induction n as [|n IH]; [done|]. simpl in *. destruct (failures None path (replicate n v)). simpl in *. by rewrite IH.
Qed.
Lemma retry_budget_witness :
  (failures (Some []) (js "a.md") (replicate 6 17%Z)).1 = [true; true; true; true; false; false].
Proof.
  destruct (retry_budget [] (js "a.md") 17 6) as [H _]; [left; reflexivity|]. rewrite H. reflexivity.
Defined.

End Decide.
