(* ===== verification/Streamhash.v ===== *)
(** * Streamhash: the incremental SHA-256 ([client/src/streamhash.ts])

    Words are 32-bit integers kept as [N] below [2^32], with the wrap-around of
    [| 0] and [>>> 0] written out.  [oneShot] is FIPS 180-4 on a whole message;
    the theorem is that any split into updates computes it. *)

From S2P Require Import Prelude.

Module Sha.

Definition w32 (x : N) : N := N.modulo x 4294967296.
Definition add32 (l : list N) : N := w32 (foldr N.add 0%N l).
Definition not32 (x : N) : N := N.lxor x 4294967295.

(** Words written in hexadecimal, separated by spaces. *)
Definition hexVal (c : N) : N := if (c <? 58)%N then (c - 48)%N else (c - 87)%N.
Definition words (s : string) : list N :=
  foldl (λ acc c, (acc * 16 + hexVal c)%N) 0%N <$> split_on cSpace (js s).
Definition K : list N := Eval vm_compute in
  words "428a2f98 71374491 b5c0fbcf e9b5dba5 3956c25b 59f111f1 923f82a4 ab1c5ed5" ++
  words "d807aa98 12835b01 243185be 550c7dc3 72be5d74 80deb1fe 9bdc06a7 c19bf174" ++
  words "e49b69c1 efbe4786 0fc19dc6 240ca1cc 2de92c6f 4a7484aa 5cb0a9dc 76f988da" ++
  words "983e5152 a831c66d b00327c8 bf597fc7 c6e00bf3 d5a79147 06ca6351 14292967" ++
  words "27b70a85 2e1b2138 4d2c6dfc 53380d13 650a7354 766a0abb 81c2c92e 92722c85" ++
  words "a2bfe8a1 a81a664b c24b8b70 c76c51a3 d192e819 d6990624 f40e3585 106aa070" ++
  words "19a4c116 1e376c08 2748774c 34b0bcb5 391c0cb3 4ed8aa4a 5b9cca4f 682e6ff3" ++
  words "748f82ee 78a5636f 84c87814 8cc70208 90befffa a4506ceb bef9a3f7 c67178f2".
Definition H0 : list N :=
  Eval vm_compute in words "6a09e667 bb67ae85 3c6ef372 a54ff53a 510e527f 9b05688c 1f83d9ab 5be0cd19".

Definition rotr (x n : N) : N := N.lor (N.shiftr x n) (w32 (N.shiftl x (32 - n))).
Definition nthN (l : list N) (i : nat) : N := default 0%N (l !! i).

(** The message schedule: the first 16 words of the block, then [w[i]] from the
    words before it. *)
Definition word (p : list N) (i : nat) : N :=
  N.lor (N.lor (N.shiftl (nthN p (4 * i)) 24) (N.shiftl (nthN p (4 * i + 1)) 16))
        (N.lor (N.shiftl (nthN p (4 * i + 2)) 8) (nthN p (4 * i + 3))).
Definition nextWord (w : list N) (i : nat) : N :=
  let x := nthN w (i - 15) in
  let y := nthN w (i - 2) in
  let s0 := N.lxor (N.lxor (rotr x 7) (rotr x 18)) (N.shiftr x 3) in
  let s1 := N.lxor (N.lxor (rotr y 17) (rotr y 19)) (N.shiftr y 10) in
  add32 [nthN w (i - 16); s0; nthN w (i - 7); s1].
Definition schedule (p : list N) : list N :=
  foldl (λ w i, w ++ [nextWord w i]) (word p <$> seq 0 16) (seq 16 48).

Record Vars := { va : N; vb : N; vc : N; vd : N; ve : N; vf : N; vg : N; vh : N }.
Definition round (w : list N) (s : Vars) (i : nat) : Vars :=
  let S1 := N.lxor (N.lxor (rotr (ve s) 6) (rotr (ve s) 11)) (rotr (ve s) 25) in
  let ch := N.lxor (N.land (ve s) (vf s)) (N.land (not32 (ve s)) (vg s)) in
  let t1 := add32 [vh s; S1; ch; nthN K i; nthN w i] in
  let S0 := N.lxor (N.lxor (rotr (va s) 2) (rotr (va s) 13)) (rotr (va s) 22) in
  let maj := N.lxor (N.lxor (N.land (va s) (vb s)) (N.land (va s) (vc s))) (N.land (vb s) (vc s)) in
  let t2 := add32 [S0; maj] in
  {| vh := vg s; vg := vf s; vf := ve s; ve := add32 [vd s; t1];
     vd := vc s; vc := vb s; vb := va s; va := add32 [t1; t2] |}.
(** [block]: one 64-byte block into the state. *)
Definition block (h p : list N) : list N :=
  let w := schedule p in
  let s := foldl (round w)
             {| va := nthN h 0; vb := nthN h 1; vc := nthN h 2; vd := nthN h 3;
                ve := nthN h 4; vf := nthN h 5; vg := nthN h 6; vh := nthN h 7 |} (seq 0 64) in
  [add32 [nthN h 0; va s]; add32 [nthN h 1; vb s]; add32 [nthN h 2; vc s]; add32 [nthN h 3; vd s];
   add32 [nthN h 4; ve s]; add32 [nthN h 5; vf s]; add32 [nthN h 6; vg s]; add32 [nthN h 7; vh s]].

(** The hasher: [buf] holds the [bufLen] pending bytes. *)
Record Sha256 := { hs : list N; buf : list N; total : N; done : bool }.
Definition newSha256 : Sha256 := {| hs := H0; buf := []; total := 0; done := false |}.

(** [while (off + 64 <= data.length) { block(data, off); off += 64 }]; a turn
    per byte of data is more than enough. *)
Fixpoint blockLoop (fuel : nat) (h data : list N) (off : nat) : list N * nat :=
  match fuel with
  | 0 => (h, off)
  | S fuel =>
      if off + 64 <=? length data
      then blockLoop fuel (block h (take 64 (drop off data))) data (off + 64)
      else (h, off)
  end.
(** [None] is the thrown error of a finalised hasher. *)
Definition update (s : Sha256) (data : list N) : option Sha256 :=
  if done s then None
  else
    let total' := (total s + N.of_nat (length data))%N in
    let '(h1, buf1, off) :=
      if 0 <? length (buf s) then
        let n := Nat.min (64 - length (buf s)) (length data) in
        let b := buf s ++ take n data in
        if length b =? 64 then (block (hs s) b, [], n) else (hs s, b, n)
      else (hs s, buf s, 0) in
    let '(h2, off2) := blockLoop (length data) h1 data off in
    let buf2 := if off2 <? length data then drop off2 data else buf1 in
    Some {| hs := h2; buf := buf2; total := total'; done := false |}.

Definition be32 (x : N) : list N :=
  [N.land (N.shiftr x 24) 255; N.land (N.shiftr x 16) 255; N.land (N.shiftr x 8) 255; N.land x 255]%N.
Definition padTail (bufLen : nat) (total : N) : list N :=
  let bitLen := (total * 8)%N in
  let padLen := if bufLen <? 56 then 56 - bufLen else 120 - bufLen in
  128%N :: replicate (padLen - 1) 0%N ++ be32 (w32 (bitLen / 4294967296)) ++ be32 (w32 bitLen).
Definition hexDigit (d : N) : N := if (d <? 10)%N then (48 + d)%N else (87 + d)%N.
Definition hex32 (x : N) : jstr :=
  (λ k, hexDigit (N.land (N.shiftr x (4 * k)) 15)) <$> [7; 6; 5; 4; 3; 2; 1; 0]%N.
Definition hexDigest (s : Sha256) : option (jstr * Sha256) :=
  if done s then None
  else match update s (padTail (length (buf s)) (total s)) with
       | None => None
       | Some s' => Some (concat (hex32 <$> hs s'),
                          {| hs := hs s'; buf := buf s'; total := total s'; done := true |})
       end.

(** ** FIPS 180-4 on a whole message *)
Fixpoint absorb (fuel : nat) (h l : list N) : list N * list N :=
  match fuel with
  | 0 => (h, l)
  | S fuel => if 64 <=? length l then absorb fuel (block h (take 64 l)) (drop 64 l) else (h, l)
  end.
Definition absorbAll (h l : list N) : list N * list N := absorb (length l) h l.
(** The message, a one bit, the least number of zeros, the 64-bit length. *)
Definition padding (msg : list N) : list N :=
  let n := length msg in
  let zeros := (64 - (n + 9) mod 64) mod 64 in
  128%N :: replicate zeros 0%N
  ++ be32 (w32 (N.of_nat n * 8 / 4294967296)) ++ be32 (w32 (N.of_nat n * 8)).
Definition oneShot (msg : list N) : jstr := concat (hex32 <$> (absorbAll H0 (msg ++ padding msg)).1).

(** Published vectors. *)
Example vector_empty : oneShot [] = js "e3b0c44298fc1c149afbf4c8996fb92427ae41e4649b934ca495991b7852b855".
Proof. vm_compute. reflexivity. Qed.
Example vector_abc : oneShot (js "abc") = js "ba7816bf8f01cfea414140de5dae2223b00361a396177a9cb410ff61f20015ad".
Proof. vm_compute. reflexivity. Qed.

(** ** Any split computes the one-shot digest *)
#[local] Arguments block : simpl never.
Lemma absorb_short fuel h l : length l < 64 → absorb fuel h l = (h, l).
Proof. intros Hl. destruct fuel; [done|]. cbn [absorb]. destruct (Nat.leb_spec 64 (length l)); [lia|done]. Qed.
Lemma absorb_fuel fuel h l : length l ≤ fuel → absorb fuel h l = absorbAll h l.
Proof.
  unfold absorbAll. cut (∀ f1 f2 h l, length l ≤ f1 → length l ≤ f2 → absorb f1 h l = absorb f2 h l).
  { intros H Hl. by apply H. }
  clear. induction f1 as [|f1 IH]; intros f2 h l H1 H2.
  - rewrite (absorb_short f2) by lia. done.
  - destruct (Nat.leb_spec 64 (length l)) as [Hge|Hlt].
    + destruct f2 as [|f2]; [lia|]. cbn [absorb]. destruct (Nat.leb_spec 64 (length l)); [|lia].
      apply IH; rewrite length_drop; lia.
    + by rewrite !absorb_short.
Qed.
Lemma absorbAll_block h b l : length b = 64 → absorbAll h (b ++ l) = absorbAll (block h b) l.
Proof.
  intros Hb. unfold absorbAll at 1.
  destruct (length (b ++ l)) as [|m] eqn:Hm; rewrite length_app, Hb in Hm; [done|].
  cbn [absorb].
  destruct (Nat.leb_spec 64 (length (b ++ l))) as [_|Hlt]; [|rewrite length_app in Hlt; lia].
  rewrite take_app_length', drop_app_length' by done. apply absorb_fuel. lia.
Qed.
Lemma absorbAll_rest h l : length (absorbAll h l).2 < 64.
Proof.
  remember (length l) as n eqn:Hn. revert h l Hn. induction n as [n IH] using lt_wf_ind. intros h l Hn.
  destruct (Nat.leb_spec 64 (length l)) as [Hge|Hlt].
  - rewrite <- (take_drop 64 l), absorbAll_block by (rewrite length_take; lia).
    eapply IH; [|done]. rewrite length_drop. lia.
  - unfold absorbAll. by rewrite absorb_short.
Qed.
Lemma absorbAll_app h a b :
  absorbAll h (a ++ b) = let '(h1, rest) := absorbAll h a in absorbAll h1 (rest ++ b).
Proof.
  remember (length a) as n eqn:Hn. revert h a Hn. induction n as [n IH] using lt_wf_ind. intros h a Hn.
  destruct (Nat.leb_spec 64 (length a)) as [Hge|Hlt].
  - assert (Ht : length (take 64 a) = 64) by (rewrite length_take; lia).
    rewrite <- (take_drop 64 a), <- app_assoc, !(absorbAll_block h (take 64 a)) by done.
    apply (IH (length (drop 64 a))); [rewrite length_drop; lia|done].
  - unfold absorbAll at 2. by rewrite absorb_short.
Qed.

Lemma blockLoop_absorb fuel h data off :
  off ≤ length data → length data - off ≤ fuel →
  let '(h', off') := blockLoop fuel h data off in
  absorbAll h (drop off data) = (h', drop off' data) ∧ off' ≤ length data ∧ length (drop off' data) < 64.
Proof.
  revert h off. induction fuel as [|fuel IH]; intros h off Ho Hf.
  - cbn [blockLoop]. unfold absorbAll. rewrite absorb_short by (rewrite length_drop; lia).
    rewrite length_drop. split_and!; [done|lia..].
  - cbn [blockLoop]. destruct (Nat.leb_spec (off + 64) (length data)) as [Hle|Hlt].
    + specialize (IH (block h (take 64 (drop off data))) (off + 64) Hle ltac:(lia)).
      destruct (blockLoop _ _ _ _) as [h2 off2]. destruct IH as [IH Hr]. split; [|done].
      rewrite <- IH, <- (take_drop 64 (drop off data)) at 1.
      rewrite absorbAll_block, drop_drop by (rewrite length_take, length_drop; lia). done.
    + unfold absorbAll. rewrite absorb_short by (rewrite length_drop; lia).
      rewrite length_drop. split_and!; [done|lia..].
Qed.

Lemma blockLoop_stop fuel h data off : length data < off + 64 → blockLoop fuel h data off = (h, off).
Proof.
  intros Hl. destruct fuel; [done|]. cbn [blockLoop].
  destruct (Nat.leb_spec (off + 64) (length data)); [lia|done].
Qed.

(** What a hasher that has been fed [msg] holds. *)
Definition fed (s : Sha256) (msg : list N) : Prop :=
  absorbAll H0 msg = (hs s, buf s) ∧ total s = N.of_nat (length msg) ∧ done s = false.

Lemma fed_new : fed newSha256 [].
Proof. done. Qed.
Lemma update_absorb s data :
  done s = false → length (buf s) < 64 →
  ∃ s', update s data = Some s' ∧ done s' = false ∧ total s' = (total s + N.of_nat (length data))%N ∧
        absorbAll (hs s) (buf s ++ data) = (hs s', buf s').
Proof.
  intros Hd Hb. unfold update. rewrite Hd.
  set (n := Nat.min (64 - length (buf s)) (length data)).
  destruct (Nat.ltb_spec 0 (length (buf s))) as [Hpos|Hz].
  - destruct (Nat.eqb_spec (length (buf s ++ take n data)) 64) as [H64|Hn64].
    + pose proof (blockLoop_absorb (length data) (block (hs s) (buf s ++ take n data)) data n
                    ltac:(lia) ltac:(lia)) as Hl.
      destruct (blockLoop _ _ _ _) as [h2 off2]. destruct Hl as (Ha & Ho & Hr).
      eexists. split; [done|]. split_and!; [done..|]. cbn [hs buf].
      rewrite <- (take_drop n data) at 1. rewrite app_assoc, absorbAll_block, Ha by done.
      destruct (Nat.ltb_spec off2 (length data)); [done|]. by rewrite (drop_ge data off2) by lia.
    + rewrite length_app, length_take in Hn64. assert (Hn : n = length data) by lia.
      pose proof (blockLoop_absorb (length data) (hs s) data n ltac:(lia) ltac:(lia)) as Hl.
      destruct (blockLoop _ _ _ _) as [h2 off2] eqn:Hloop.
      rewrite blockLoop_stop in Hloop by lia. injection Hloop as <- <-.
      eexists. split; [done|]. split_and!; [done..|]. cbn [hs buf].
      destruct (Nat.ltb_spec n (length data)); [lia|]. rewrite Hn, firstn_all.
      unfold absorbAll. rewrite absorb_short; [done|]. rewrite length_app. lia.
  - assert (Hnil : buf s = []) by (destruct (buf s); [done|simpl in Hz; lia]). rewrite Hnil in *.
    pose proof (blockLoop_absorb (length data) (hs s) data 0 ltac:(lia) ltac:(lia)) as Hl.
    destruct (blockLoop _ _ _ _) as [h2 off2]. destruct Hl as (Ha & Ho & Hr). rewrite drop_0 in Ha.
    eexists. split; [done|]. split_and!; [done..|]. cbn [hs buf app]. rewrite Ha.
    destruct (Nat.ltb_spec off2 (length data)); [done|]. by rewrite (drop_ge data off2) by lia.
Qed.

Lemma update_fed s msg data : fed s msg → ∃ s', update s data = Some s' ∧ fed s' (msg ++ data).
Proof.
  intros (Ha & Ht & Hd). pose proof (absorbAll_rest H0 msg) as Hr. rewrite Ha in Hr.
  destruct (update_absorb s data Hd Hr) as (s' & Hu & Hd' & Ht' & Ha').
  exists s'. split; [done|]. split_and!; [|by rewrite Ht', Ht, length_app; lia|done].
  by rewrite absorbAll_app, Ha.
Qed.

Fixpoint updates (s : Sha256) (parts : list (list N)) : option Sha256 :=
  match parts with
  | [] => Some s
  | p :: ps => match update s p with Some s' => updates s' ps | None => None end
  end.
Lemma updates_fed s msg parts : fed s msg → ∃ s', updates s parts = Some s' ∧ fed s' (msg ++ concat parts).
Proof.
  revert s msg. induction parts as [|p parts IH]; intros s msg Hs; simpl.
  - exists s. by rewrite app_nil_r.
  - destruct (update_fed s msg p Hs) as (s1 & -> & H1). destruct (IH s1 _ H1) as (s2 & Hu & H2).
    exists s2. by rewrite app_assoc.
Qed.

Lemma absorbAll_rest_length h l : length (absorbAll h l).2 = length l mod 64.
Proof.
  remember (length l) as n eqn:Hn. revert h l Hn. induction n as [n IH] using lt_wf_ind. intros h l Hn.
  destruct (Nat.leb_spec 64 (length l)) as [Hge|Hlt].
  - rewrite <- (take_drop 64 l) at 1. rewrite absorbAll_block by (rewrite length_take; lia).
    rewrite (IH (n - 64)) by (rewrite ?length_drop; lia).
    pose proof (Nat.Div0.mod_add (n - 64) 1 64) as Hm. rewrite <- Hm. f_equal. lia.
  - unfold absorbAll. rewrite absorb_short by done. cbn [snd]. rewrite Nat.mod_small by lia. done.
Qed.
Lemma padTail_padding msg : padTail (length msg mod 64) (N.of_nat (length msg)) = padding msg.
Proof.
  unfold padTail, padding. do 2 f_equal.
  pose proof (Nat.mod_upper_bound (length msg) 64 ltac:(lia)) as Hb.
  set (b := length msg mod 64) in *.
  assert (Hm : (length msg + 9) mod 64 = (b + 9) mod 64) by (unfold b; by rewrite Nat.Div0.add_mod_idemp_l).
  rewrite Hm. f_equal. destruct (Nat.ltb_spec b 56).
  - destruct (Nat.eq_dec b 55) as [->|]; [done|]. rewrite (Nat.mod_small (b + 9)) by lia.
    rewrite Nat.mod_small by lia. lia.
  - replace (b + 9) with ((b + 9 - 64) + 1 * 64) by lia. rewrite Nat.Div0.mod_add, (Nat.mod_small (b + 9 - 64)) by lia.
    rewrite Nat.mod_small by lia. lia.
Qed.

(** C35: Streaming changes nothing: whatever pieces a message arrives in, no update
    fails and the digest is the FIPS 180-4 SHA-256 of the whole message; after
    that the hasher refuses every further update or digest. *)
Theorem stream_is_sha256 parts :
  ∃ s s', updates newSha256 parts = Some s ∧ hexDigest s = Some (oneShot (concat parts), s') ∧
    (∀ data, update s' data = None) ∧ hexDigest s' = None.
Proof.
  destruct (updates_fed newSha256 [] parts fed_new) as (s & Hs & Hfed). exists s. simpl in Hfed.
  pose proof Hfed as (Ha & Ht & Hd).
  assert (Hlen : length (buf s) = length (concat parts) mod 64).
  { rewrite <- (absorbAll_rest_length H0), Ha. done. }
  destruct (update_fed s _ (padding (concat parts)) Hfed) as (s2 & Hu & Ha2 & _ & _).
  exists {| hs := hs s2; buf := buf s2; total := total s2; done := true |}.
  split; [done|]. unfold hexDigest. rewrite Hd, Hlen, Ht, padTail_padding, Hu.
  split; [|split; [intros; reflexivity|reflexivity]]. unfold oneShot. by rewrite Ha2.
Qed.

End Sha.
