(* ===== verification/Chunker.v ===== *)
(** * Chunker: content-defined chunking ([client/src/chunker.ts])

    Bytes are [N] below 256, the rolling hash an [N] below [2^32].  The digest of
    a slice is WebCrypto's, a parameter of [chunk]. *)

From S2P Require Import Prelude.

Module Cdc.

Definition MIN : N := 2048.
Definition AVG_MASK : N := 16383.
Definition MAX : N := 65536.

(** [GEAR]: the linear congruential table every client shares. *)
Definition lcg (s : N) : N := N.modulo (s * 1103515245 + 12345) 4294967296.
Fixpoint gearTable (n : nat) (s : N) : list N :=
  match n with
  | 0 => []
  | S n => lcg s :: gearTable n (lcg s)
  end.
Definition GEAR : list N := gearTable 256 19088743.
Definition rollHash (h b : N) : N := N.modulo (N.shiftl h 1 + default 0%N (GEAR !! N.to_nat b)) 4294967296.
(** The cut test on the byte just consumed: [len] includes it. *)
Definition cutHere (h len : N) : bool :=
  ((MIN <=? len) && ((N.land h AVG_MASK =? 0) || (MAX <=? len)))%N.

(** The boundary scan, phase 1 of [chunk]; [cur] is the slice under way, latest
    byte first, [len] its length, and the result is the finished slices with the
    open one. *)
Fixpoint scan (bytes : list N) (h len : N) (cur : list N) : list (list N) * list N :=
  match bytes with
  | [] => ([], rev cur)
  | b :: bytes =>
      let h := rollHash h b in
      if cutHere h (N.succ len)
      then let '(slices, last) := scan bytes 0%N 0%N [] in (rev (b :: cur) :: slices, last)
      else scan bytes h (N.succ len) (b :: cur)
  end.
Definition slicesOf (bytes : list N) : list (list N) :=
  let '(slices, last) := scan bytes 0%N 0%N [] in
  match last, slices with
  | _ :: _, _ => slices ++ [last]
  | [], [] => [[]]
  | [], _ :: _ => slices
  end.

Record Chunk := { hash : jstr; bytes : list N }.

Section Chunk.
Context (sha256hex : list N → jstr).
Definition chunk (b : list N) : list Chunk :=
  (λ s, {| hash := sha256hex s; bytes := s |}) <$> slicesOf b.
End Chunk.

(** [sha256hex]'s last step: two lower-case hex digits per digest byte. *)
Definition hexDigit (d : N) : N := if (d <? 10)%N then (48 + d)%N else (87 + d)%N.
Definition HEX (b : N) : list N := [hexDigit (N.div b 16); hexDigit (N.modulo b 16)].
Definition toHex (digest : list N) : jstr := concat (HEX <$> digest).

(** ** The scan *)
#[local] Arguments rollHash : simpl never.
#[local] Arguments cutHere : simpl never.

Lemma scan_concat bs h len cur :
  let '(slices, last) := scan bs h len cur in concat slices ++ last = rev cur ++ bs.
Proof.
  revert h len cur. induction bs as [|b bs IH]; intros h len cur; cbn [scan].
  - by rewrite app_nil_r.
  - destruct (cutHere _ _).
    + specialize (IH 0%N 0%N []). destruct (scan bs 0%N 0%N []) as [sl la].
      cbn [concat rev app] in *. by rewrite <- !app_assoc, IH.
    + specialize (IH (rollHash h b) (N.succ len) (b :: cur)).
      destruct (scan _ _ _ _) as [sl la]. rewrite IH. simpl. by rewrite <- app_assoc.
Qed.

(** A finished slice is between [MIN] and [MAX] bytes; the open one is below [MAX]. *)
Definition lenN (l : list N) : N := N.of_nat (length l).
Lemma lenN_cons b l : lenN (b :: l) = N.succ (lenN l).
Proof. unfold lenN. cbn [length]. lia. Qed.
Lemma lenN_rev l : lenN (rev l) = lenN l.
Proof. unfold lenN. by rewrite length_rev. Qed.
Lemma scan_sizes bs h len cur :
  lenN cur = len → (len < MAX)%N →
  let '(slices, last) := scan bs h len cur in
  Forall (λ s, (MIN ≤ lenN s ≤ MAX)%N) slices ∧ (lenN last < MAX)%N.
Proof.
  revert h len cur. induction bs as [|b bs IH]; intros h len cur Hc Hl; cbn [scan].
  - rewrite lenN_rev. split; [constructor|lia].
  - destruct (cutHere (rollHash h b) (N.succ len)) eqn:Hcut.
    + specialize (IH 0%N 0%N [] eq_refl eq_refl). destruct (scan bs 0%N 0%N []) as [sl la].
      destruct IH as [Hf Hla]. split; [|done]. constructor; [|done].
      rewrite lenN_rev, lenN_cons, Hc. unfold cutHere in Hcut.
      apply andb_prop in Hcut as [Hmin%N.leb_le _]. lia.
    + apply IH; [by rewrite lenN_cons, Hc|]. unfold cutHere in Hcut.
      apply andb_false_iff in Hcut as [Hm%N.leb_gt | Hx].
      * unfold MIN, MAX in *. lia.
      * apply orb_false_iff in Hx as [_ Hx%N.leb_gt]. lia.
Qed.

(** What one byte does to the loop's variables. *)
Definition advance (st : N * N * list N) (x : N) : N * N * list N :=
  let '(h, len, cur) := st in
  let h := rollHash h x in
  if cutHere h (N.succ len) then (0%N, 0%N, []) else (h, N.succ len, x :: cur).
Lemma advance_eq h len cur x :
  advance (h, len, cur) x =
  if cutHere (rollHash h x) (N.succ len) then (0%N, 0%N, []) else (rollHash h x, N.succ len, x :: cur).
Proof. done. Qed.
#[local] Arguments advance : simpl never.

(** The scan restarts from nothing at every cut, so what follows a boundary is
    cut the same whatever precedes it. *)
Lemma scan_app a b h len cur :
  scan (a ++ b) h len cur =
  match scan a h len cur with
  | (sl, _) =>
      let st := foldl advance (h, len, cur) a in
      let '(sl', la') := scan b st.1.1 st.1.2 st.2 in (sl ++ sl', la')
  end.
Proof.
  revert h len cur. induction a as [|x a IH]; intros h len cur; cbn [app scan foldl].
  - cbn [fst snd]. by destruct (scan b h len cur).
  - rewrite advance_eq. destruct (cutHere _ _); rewrite IH.
    + destruct (scan a 0%N 0%N []) as [sl la]. cbn zeta. by destruct (scan b _ _ _).
    + by destruct (scan a _ _ _).
Qed.
Lemma scan_last_open a h len cur :
  (scan a h len cur).2 =
  rev (foldl advance (h, len, cur) a).2.
Proof.
  revert h len cur. induction a as [|x a IH]; intros h len cur; cbn [scan foldl]; [done|].
  rewrite advance_eq. destruct (cutHere _ _); [|by apply IH].
  specialize (IH 0%N 0%N []). by destruct (scan a 0%N 0%N []).
Qed.
(** When nothing is open the accumulated hash and length are zero. *)
Lemma scan_state a h len cur :
  lenN cur = len → (cur = [] → h = 0%N) →
  let st := foldl advance (h, len, cur) a in
  lenN st.2 = st.1.2 ∧ (st.2 = [] → st.1.1 = 0%N).
Proof.
  revert h len cur. induction a as [|x a IH]; intros h len cur Hl Hh; cbn [foldl]; [done|].
  rewrite advance_eq. destruct (cutHere _ _); apply IH; try done. by rewrite lenN_cons, Hl.
Qed.
Lemma scan_boundary a b :
  (scan a 0%N 0%N []).2 = [] →
  scan (a ++ b) 0%N 0%N [] = ((scan a 0%N 0%N []).1 ++ (scan b 0%N 0%N []).1, (scan b 0%N 0%N []).2).
Proof.
  intros Ha. rewrite scan_app. rewrite scan_last_open in Ha.
  pose proof (scan_state a 0%N 0%N [] eq_refl (λ _, eq_refl)) as [Hlen Hz].
  set (st := foldl _ _ a) in *. destruct st as [[h' len'] cur']. cbn [fst snd] in *.
  assert (cur' = []) as -> by (destruct cur' as [|y ?]; [done|]; by apply (f_equal length) in Ha; rewrite length_rev in Ha).
  rewrite Hz by done. change (lenN []) with 0%N in Hlen. subst len'.
  destruct (scan a 0%N 0%N []) as [sl la]. destruct (scan b 0%N 0%N []). done.
Qed.

Lemma slicesOf_scan bs :
  slicesOf bs = (scan bs 0%N 0%N []).1
                ++ (if decide ((scan bs 0%N 0%N []).2 = [] ∧ (scan bs 0%N 0%N []).1 ≠ []) then []
                    else [(scan bs 0%N 0%N []).2]).
Proof.
  unfold slicesOf. destruct (scan bs 0%N 0%N []) as [sl la]. cbn [fst snd].
  destruct la, sl; cbn [app]; try (rewrite decide_False by naive_solver; by rewrite ?app_nil_r).
  rewrite decide_True by done. by rewrite app_nil_r.
Qed.

(** C36: The chunks of a file are its bytes, in order and complete: every slice but
    the last holds between [MIN] and [MAX] bytes and the last at most [MAX], each
    is listed under its own digest, and an empty file is one empty chunk. *)
Theorem chunk_partitions sha256hex bs :
  concat (bytes <$> chunk sha256hex bs) = bs ∧
  Forall (λ c, hash c = sha256hex (bytes c)) (chunk sha256hex bs) ∧
  ∃ init last, bytes <$> chunk sha256hex bs = init ++ [last] ∧
    Forall (λ s, (MIN ≤ lenN s ≤ MAX)%N) init ∧ (lenN last ≤ MAX)%N ∧ (last = [] ↔ bs = []).
Proof.
  assert (Hm : bytes <$> chunk sha256hex bs = slicesOf bs).
  { unfold chunk. rewrite <- list_fmap_compose. apply list_fmap_id. }
  pose proof (scan_concat bs 0%N 0%N []) as Hc. pose proof (scan_sizes bs 0%N 0%N [] eq_refl eq_refl) as Hs.
  rewrite Hm, slicesOf_scan. destruct (scan bs 0%N 0%N []) as [sl la]. cbn [fst snd rev app] in *.
  destruct Hs as [Hsl Hla]. split; [|split].
  - rewrite concat_app. destruct (decide _) as [[-> _]|]; simpl; rewrite ?app_nil_r in *; done.
  - unfold chunk. by apply Forall_fmap, Forall_true.
  - destruct (decide _) as [[-> Hne]|Hn].
    + destruct (exists_last Hne) as (init & lst & ->). rewrite app_nil_r in *. exists init, lst.
      apply Forall_app in Hsl as [Hi Hl]. rewrite Forall_singleton in Hl.
      cbv beta in Hl. split_and!; [done..|lia|].
      rewrite concat_app in Hc. simpl in Hc. split.
      * intros ->. unfold MIN, lenN in Hl. cbn in Hl. lia.
      * intros ->. apply app_eq_nil in Hc as [_ Hc]. rewrite app_nil_r in Hc. done.
    + exists sl, la. split_and!; [done..|lia|]. split.
      * intros ->. destruct sl; [done|]. exfalso. by apply Hn.
      * intros ->. by apply app_eq_nil in Hc as [_ ->].
Qed.

(** Chunking is local, which is what deduplication rests on: where a file's own
    chunks end exactly with it (the scan left nothing open), appending to it keeps
    every one of them and chunks the rest as if it were a file of its own, so two
    files that share a tail after such a point share that tail's chunks. *)
Theorem chunk_resyncs sha256hex a b :
  a ≠ [] → b ≠ [] → (scan a 0%N 0%N []).2 = [] →
  chunk sha256hex (a ++ b) = chunk sha256hex a ++ chunk sha256hex b.
Proof.
  intros Hna Hnb Ha. unfold chunk. rewrite <- fmap_app. f_equal.
  pose proof (scan_concat a 0 0 []) as Hca. pose proof (scan_concat b 0 0 []) as Hcb.
  rewrite !slicesOf_scan, (scan_boundary a b Ha). rewrite Ha in *.
  destruct (scan a 0%N 0%N []) as [sla laa]. destruct (scan b 0%N 0%N []) as [slb lab]. cbn [fst snd rev app] in *. subst laa.
  rewrite app_nil_r in Hca.
  assert (Hsla : sla ≠ []) by (intros ->; by simpl in Hca; subst).
  rewrite (decide_True (P := _ ∧ sla ≠ [])) by done. rewrite app_nil_r, <- app_assoc. f_equal. f_equal.
  destruct (decide (lab = [] ∧ slb ≠ [])) as [[-> Hs]|Hs].
  - rewrite decide_True; [done|]. split; [done|]. intros Hx%app_eq_nil. naive_solver.
  - rewrite decide_False; [done|]. intros [-> _]. apply Hs. split; [done|].
    intros ->. by simpl in Hcb; subst.
Qed.
(** The least content the scan cuts after: [MIN] bytes with a zero window. *)
Definition page : list N := replicate 2045 7%N ++ [0; 113; 54]%N.
Lemma chunk_resyncs_witness :
  chunk (λ s, []) (page ++ [1; 2]%N) = chunk (λ s, []) page ++ chunk (λ s, []) [1; 2]%N.
Proof. apply (chunk_resyncs (λ s, []) page [1; 2]%N); [discriminate|discriminate|]. vm_compute. reflexivity. Defined.

End Cdc.
