(* ===== verification/Foreigntools.v ===== *)
(** * Foreigntools: other sync tools on the same folder ([client/src/foreigntools.ts],
    [client/src/flipguard.ts])

    [Foreign] recognises the artefacts of other tools; [Flip] is the guard that
    stops the client from amplifying a rewrite loop. *)

From S2P Require Import Prelude Regex Jsmap.

Module Foreign.

Inductive ForeignTool := Syncthing | Dropbox | Nextcloud | ResilioSync | ICloudDrive | Office.
#[export] Instance ForeignTool_eq_dec : EqDecision ForeignTool.
Proof. solve_decision. Defined.
Inductive ArtefactKind := ConflictCopy | Marker | Versions | Placeholder | Lock.
Record ForeignArtefact := { tool : ForeignTool; kind : ArtefactKind }.

Definition upperOrDigit (c : N) : bool := is_upper c || is_digit c.
Definition digits (n : nat) : regex := rrep n RDigit.
(** [/\.sync-conflict-\d{8}-\d{6}-[A-Z0-9]{7}(\.|$)/] *)
Definition SYNCTHING_HEAD : regex :=
  rseqs [rlit (js ".sync-conflict-"); digits 8; rlit (js "-"); digits 6; rlit (js "-"); rrep 7 (RClass upperOrDigit)].
Definition SYNCTHING_CONFLICT (s : jstr) : bool :=
  rtest (RSeq SYNCTHING_HEAD (rlit (js "."))) s || rtest_end SYNCTHING_HEAD s.
(** The name part in brackets before [conflicted copy], its date and its time. *)
Definition notParen (c : N) : bool := negb (bool_decide (c ∈ [40; 41]%N)).
Definition CONFLICTED_COPY : regex :=
  rseqs [rlit (js " ("); ropt (RSeq (RStar (RClass notParen)) (rlit (js " ")));
         rlit (js "conflicted copy");
         ropt (rseqs [rlit (js " "); digits 4; rlit (js "-"); digits 2; rlit (js "-"); digits 2;
                      ropt (RSeq (rlit (js " ")) (digits 6))]);
         rlit (js ")")].
Definition timed : regex := rseqs [rlit (js " "); digits 6; rlit (js ")")].
Definition ICLOUD_PLACEHOLDER : regex := rseqs [rlit (js "."); rplus RDot; rlit (js ".icloud")].
Definition LOCKFILE : regex := rseqs [rlit (js ".~lock."); rplus RDot; rlit (js "#")].

Definition markerSeg (seg : jstr) : option ForeignArtefact :=
  if seg === js ".stfolder" then Some {| tool := Syncthing; kind := Marker |}
  else if seg === js ".stignore" then Some {| tool := Syncthing; kind := Marker |}
  else if seg === js ".stversions" then Some {| tool := Syncthing; kind := Versions |}
  else if seg === js ".dropbox" then Some {| tool := Dropbox; kind := Marker |}
  else if seg === js ".dropbox.cache" then Some {| tool := Dropbox; kind := Versions |}
  else if seg === js ".sync" then Some {| tool := ResilioSync; kind := Marker |}
  else None.
Definition foreignArtefact (path : jstr) : option ForeignArtefact :=
  let segs := filter (λ s, truthy s = true) (split_on cSlash path) in
  match last segs with
  | None => None
  | Some base =>
      match omap markerSeg segs with
      | a :: _ => Some a
      | [] =>
          if SYNCTHING_CONFLICT base then Some {| tool := Syncthing; kind := ConflictCopy |}
          else if rtest CONFLICTED_COPY base
          then Some {| tool := if rtest timed base then Nextcloud else Dropbox; kind := ConflictCopy |}
          else if rmatch ICLOUD_PLACEHOLDER base then Some {| tool := ICloudDrive; kind := Placeholder |}
          else if starts_with base (js "~$") || rmatch LOCKFILE base then Some {| tool := Office; kind := Lock |}
          else None
      end
  end.
Definition isForeignArtefact (path : jstr) : bool :=
  match foreignArtefact path with Some _ => true | None => false end.
Definition FOREIGN_ROOT_MARKERS : list jstr :=
  [js ".stfolder"; js ".stignore"; js ".stversions"; js ".dropbox"; js ".dropbox.cache"; js ".sync"].

Definition toolName (t : ForeignTool) : jstr :=
  match t with
  | Syncthing => js "Syncthing" | Dropbox => js "Dropbox" | Nextcloud => js "Nextcloud"
  | ResilioSync => js "Resilio Sync" | ICloudDrive => js "iCloud Drive" | Office => js "Office"
  end.
Record ForeignSummary := { tools : list jstr; skipped : nat; byTool : list (jstr * nat) }.
Definition countTool (m : list (jstr * nat)) (p : jstr) : list (jstr * nat) :=
  match foreignArtefact p with
  | None => m
  | Some a => jset m (toolName (tool a)) (default 0 (jget m (toolName (tool a))) + 1)
  end.
Definition summarizeForeign (paths : list jstr) : ForeignSummary :=
  let m := foldl countTool [] paths in
  {| tools := jsort (jkeys m); skipped := length (filter (λ p, isForeignArtefact p = true) paths); byTool := m |}.
Definition joinComma (l : list jstr) : jstr :=
  match l with [] => [] | x :: l => foldl (λ acc y, acc ++ js ", " ++ y) x l end.
Definition describeForeign (s : ForeignSummary) : jstr :=
  match tools s with
  | [] => []
  | _ =>
      let part t := let n := default 0 (jget (byTool s) t) in
        t ++ js " (" ++ num_str (N.of_nat n) ++ js " file" ++ (if n =? 1 then [] else js "s") ++ js ")" in
      joinComma (part <$> tools s) ++ js " detected " ++ [8212%N] ++ js " "
      ++ (if skipped s =? 1 then js "its file is" else js "their files are")
      ++ js " left to that tool and not synced"
  end.

(** A marker anywhere in a path puts the whole path out of scope. *)
Lemma marker_tree_foreign path seg a :
  seg ∈ split_on cSlash path → markerSeg seg = Some a → isForeignArtefact path = true.
Proof.
  intros Hin Hm. unfold isForeignArtefact, foreignArtefact.
  set (segs := filter _ _).
  assert (Hseg : seg ∈ segs).
  { apply list_elem_of_filter. split; [|done]. destruct seg; [|done]. by vm_compute in Hm. }
  destruct (last segs) eqn:Hlast; [|apply last_None in Hlast; by rewrite Hlast in Hseg; apply not_elem_of_nil in Hseg].
  destruct (omap markerSeg segs) eqn:Ho; [|done].
  assert (a ∈ omap markerSeg segs) as Ha by (apply list_elem_of_omap; by exists seg).
  rewrite Ho in Ha. by apply not_elem_of_nil in Ha.
Qed.
Lemma countTool_total paths m :
  sum_list (snd <$> foldl countTool m paths) =
  sum_list (snd <$> m) + length (filter (λ p, isForeignArtefact p = true) paths).
Proof.
  assert (Hset : ∀ (m : list (jstr * nat)) k, sum_list (snd <$> jset m k (default 0 (jget m k) + 1)) = sum_list (snd <$> m) + 1).
  { clear. induction m as [|[k' v] m IH]; intros k; simpl; [done|].
    destruct (k' === k) eqn:Hk; csimpl; [lia|]. rewrite IH. lia. }
  revert m. induction paths as [|p paths IH]; intros m; [simpl; lia|]. cbn [foldl]. rewrite IH.
  rewrite filter_cons. unfold countTool, isForeignArtefact. destruct (foreignArtefact p); [|by rewrite decide_False].
  rewrite Hset, decide_True by done. cbn [length]. lia.
Qed.

End Foreign.

Module Flip.

Record Seen := { sn_hash : jstr; sn_shape : option jstr; sn_at : Z }.
Record Entry := { hashes : list Seen; last : option jstr; flips : list Z; releasedHash : option jstr }.
Definition newEntry : Entry := {| hashes := []; last := None; flips := []; releasedHash := None |}.
Record FlipVerdict := { hold : bool; verdictFlips : nat }.
(** The guard: one entry per path, in the [Map]'s order. *)
Record FlipGuard := { limit : nat; windowMs : Z; seen : list (jstr * Entry) }.
Definition newFlipGuard : FlipGuard := {| limit := 6; windowMs := 600000; seen := [] |}.

Definition returning (e : list Seen) (hash : jstr) (shape : option jstr) : bool :=
  existsb (λ h, (sn_hash h === hash) || (if shape is Some s then bool_decide (sn_shape h = Some s) else false)) e.
Definition recordEntry (limit : nat) (windowMs : Z) (e : Entry) (hash : jstr) (now : Z) (shape : option jstr)
    : Entry * FlipVerdict :=
  let cutoff := (now - windowMs)%Z in
  let hs := filter (λ h, (cutoff ≤ sn_at h)%Z) (hashes e) in
  let fl := filter (λ f, (cutoff ≤ f)%Z) (flips e) in
  let e1 :=
    if decide (Some hash = last e) then {| hashes := hs; last := last e; flips := fl; releasedHash := releasedHash e |}
    else
      let fl' := if returning hs hash shape then fl ++ [now]
                 else if last e is Some _ then [] else fl in
      {| hashes := hs ++ [{| sn_hash := hash; sn_shape := shape; sn_at := now |}];
         last := Some hash; flips := fl'; releasedHash := releasedHash e |} in
  let e2 := if length (flips e1) =? 0
            then {| hashes := hashes e1; last := last e1; flips := flips e1; releasedHash := None |} else e1 in
  (e2, {| hold := (limit <=? length (flips e2)) && negb (bool_decide (releasedHash e2 = Some hash));
          verdictFlips := length (flips e2) |}).
Definition record (g : FlipGuard) (path hash : jstr) (now : Z) (shape : option jstr) : FlipGuard * FlipVerdict :=
  let e := default newEntry (jget (seen g) path) in
  let '(e', v) := recordEntry (limit g) (windowMs g) e hash now shape in
  ({| limit := limit g; windowMs := windowMs g; seen := jset (seen g) path e' |}, v).
Definition release (g : FlipGuard) (path : jstr) : FlipGuard :=
  match jget (seen g) path with
  | Some e =>
      match last e with
      | Some l => {| limit := limit g; windowMs := windowMs g;
                     seen := jset (seen g) path {| hashes := hashes e; last := last e; flips := flips e; releasedHash := Some l |} |}
      | None => g
      end
  | None => g
  end.
Definition held (g : FlipGuard) (now : Z) : list jstr :=
  jsort (omap (λ pe : jstr * Entry,
    if (limit g <=? length (filter (λ f, (now - windowMs g ≤ f)%Z) (flips pe.2)))
       && negb (bool_decide (releasedHash pe.2 = last pe.2)) then Some pe.1 else None) (seen g)).

(** A run of pushes of one path: each with its content, its shape and its time. *)
Fixpoint recordAll (lim : nat) (win : Z) (e : Entry) (l : list (jstr * option jstr * Z)) : Entry * list FlipVerdict :=
  match l with
  | [] => (e, [])
  | (h, sh, t) :: l =>
      let '(e1, v) := recordEntry lim win e h t sh in
      let '(e2, vs) := recordAll lim win e1 l in (e2, v :: vs)
  end.

(** Two writers bouncing a note between [a] and [b]: [n] pushes. *)
Fixpoint bounce (a b : jstr) (t : Z) (n : nat) : list (jstr * option jstr * Z) :=
  match n with 0 => [] | S n => (a, None, t) :: bounce b a t n end.

Lemma recordEntry_repeat lim win e h t sh :
  last e = Some h → (recordEntry lim win e h t sh).1.(last) = Some h ∧
  length (flips (recordEntry lim win e h t sh).1) ≤ length (flips e).
Proof.
  intros Hl. unfold recordEntry. rewrite decide_True by done. cbn [hashes last flips releasedHash].
  case_match; cbn [fst last flips]; (split; [done|]; apply length_filter).
Qed.

(** The bounce invariant: both contents are on record, the other one last, and
    [k] returns have been counted. *)
Definition bouncing (e : Entry) (a b : jstr) (t : Z) (k : nat) : Prop :=
  last e = Some b ∧ releasedHash e = None ∧ flips e = replicate k t ∧
  Forall (λ s, sn_at s = t) (hashes e) ∧ existsb (λ s, sn_hash s === a) (hashes e) = true ∧
  existsb (λ s, sn_hash s === b) (hashes e) = true.
Lemma bouncing_step lim win e a b t k :
  a ≠ b → (0 ≤ win)%Z → bouncing e a b t k →
  bouncing (recordEntry lim win e a t None).1 b a t (S k) ∧
  hold (recordEntry lim win e a t None).2 = (lim <=? S k).
Proof.
  intros Hne Hw (Hl & Hr & Hf & Hat & Ha & Hb). unfold recordEntry.
  assert (Hhs : filter (λ h, (t - win ≤ sn_at h)%Z) (hashes e) = hashes e).
  { apply filter_all. eapply Forall_impl; [exact Hat|]. intros s ->. lia. }
  assert (Hfl : filter (λ f, (t - win ≤ f)%Z) (flips e) = flips e).
  { apply filter_all. rewrite Hf. apply Forall_replicate. lia. }
  rewrite Hhs, Hfl, decide_False by (rewrite Hl; congruence).
  assert (Hret : returning (hashes e) a None = true).
  { unfold returning. apply existsb_exists in Ha as (s & Hs & Hsa). apply existsb_exists.
    exists s. by rewrite Hsa. }
  rewrite Hret. cbn [flips hashes last releasedHash].
  rewrite length_app, Hf, length_replicate. rewrite Nat.add_1_r. cbn [Nat.eqb fst snd hold flips releasedHash].
  rewrite length_app, length_replicate, Nat.add_1_r, Hr. split.
  - split_and!; cbn [last releasedHash flips hashes]; try done.
    + change [t] with (replicate 1 t). rewrite <- replicate_add. f_equal. lia.
    + apply Forall_app. split; [done|]. by constructor.
    + by rewrite existsb_app, Hb.
    + by rewrite existsb_app, Ha.
  - by rewrite andb_true_r.
Qed.
Lemma bouncing_run lim win e a b t k n :
  a ≠ b → (0 ≤ win)%Z → bouncing e a b t k →
  hold <$> (recordAll lim win e (bounce a b t n)).2 = (λ i, lim <=? S (k + i)) <$> seq 0 n.
Proof.
  revert e a b k. induction n as [|n IH]; intros e a b k Hne Hw Hb; [done|]. cbn [bounce recordAll].
  destruct (bouncing_step lim win e a b t k Hne Hw Hb) as [Hb' Hh].
  destruct (recordEntry lim win e a t None) as [e1 v]. cbn [fst snd] in *.
  specialize (IH e1 b a (S k) ltac:(done) Hw Hb'). destruct (recordAll lim win e1 _) as [e2 vs].
  cbn [snd] in *. csimpl. rewrite IH, Hh, Nat.add_0_r. f_equal.
  rewrite <- (fmap_S_seq 0 n), <- list_fmap_compose. apply list_fmap_ext. intros ? i _. simpl. do 2 f_equal. lia.
Qed.

(** The rewrite-loop breaker is exact on a two-writer loop inside the window:
    of the pushes that bounce a path between two contents, the first [limit + 1]
    pass and every later one is held, so the client stops amplifying the loop
    after a bounded number of pushes and never holds before it. *)
Theorem loop_is_broken lim win a b t n :
  a ≠ b → (0 ≤ win)%Z →
  hold <$> (recordAll (S lim) win newEntry (bounce a b t (2 + n))).2 =
  false :: false :: ((λ i, lim <=? i) <$> seq 0 n).
Proof.
  intros Hne Hw. cbn [Nat.add bounce recordAll].
  assert (H1 : recordEntry (S lim) win newEntry a t None =
    ({| hashes := [{| sn_hash := a; sn_shape := None; sn_at := t |}]; last := Some a; flips := []; releasedHash := None |},
     {| hold := false; verdictFlips := 0 |})) by (unfold recordEntry; done).
  rewrite H1. set (e1 := {| hashes := _ |}).
  assert (H2 : recordEntry (S lim) win e1 b t None =
    ({| hashes := [{| sn_hash := a; sn_shape := None; sn_at := t |}; {| sn_hash := b; sn_shape := None; sn_at := t |}];
        last := Some b; flips := []; releasedHash := None |}, {| hold := false; verdictFlips := 0 |})).
  { unfold recordEntry. subst e1. cbn [hashes last flips releasedHash].
    rewrite (filter_all _ [_]) by (constructor; [simpl; lia|constructor]).
    rewrite decide_False by congruence. unfold returning. cbn [existsb sn_hash].
    assert (Hab : (a === b) = false) by (by apply jeq_false). rewrite Hab. done. }
  rewrite H2. set (e2 := {| hashes := _ |}).
  pose proof (bouncing_run (S lim) win e2 a b t 0 n Hne Hw) as Hrun.
  destruct (recordAll (S lim) win e2 (bounce a b t n)) as [e3 vs]. cbn [snd] in *. csimpl.
  rewrite Hrun; [done|]. subst e2. unfold bouncing. cbn [last releasedHash flips hashes existsb sn_hash].
  rewrite !jeq_refl, orb_true_r. split_and!; try done. repeat constructor.
Qed.
Lemma loop_is_broken_witness :
  hold <$> (recordAll 6 600000 newEntry (bounce (js "x") (js "y") 1000 (2 + 7))).2 =
  [false; false; false; false; false; false; false; true; true].
Proof. apply (loop_is_broken 5 600000 (js "x") (js "y") 1000 7); [discriminate|lia]. Defined.

End Flip.
