(* ===== verification/Json.v ===== *)
(** * Json: the part of JSON the client parses and prints

    [JSON.parse] on full JSON texts (numbers keep their source text: no theorem
    computes with them) and [JSON.stringify(ids, null, 2)] on an array of
    strings.  Strings are UTF-16; [stringify] escapes what ES2019 escapes, lone
    surrogates included.  [parse_stringify] is the round trip. *)

From S2P Require Import Prelude.

Inductive json : Type :=
| JNull | JBool (b : bool) | JNum (raw : jstr) | JStr (s : jstr)
| JArr (l : list json) | JObj (l : list (jstr * json)).

(** ** Strings *)
Definition hexVal (c : N) : option N :=
  if is_digit c then Some (c - 48)%N
  else if bool_decide (97 ≤ c ∧ c ≤ 102)%N then Some (c - 87)%N
  else if bool_decide (65 ≤ c ∧ c ≤ 70)%N then Some (c - 55)%N
  else None.
Definition hex4 (a b c d : N) : option N :=
  match hexVal a, hexVal b, hexVal c, hexVal d with
  | Some x, Some y, Some z, Some w => Some (x * 4096 + y * 256 + z * 16 + w)%N
  | _, _, _, _ => None
  end.
Definition simpleEscape (e : N) : option N :=
  if decide (e = 34)%N then Some 34%N else if decide (e = 92)%N then Some 92%N
  else if decide (e = 47)%N then Some 47%N else if decide (e = 98)%N then Some 8%N
  else if decide (e = 102)%N then Some 12%N else if decide (e = 110)%N then Some 10%N
  else if decide (e = 114)%N then Some 13%N else if decide (e = 116)%N then Some 9%N
  else None.
(** The rest of a string literal, after its opening quote. *)
Fixpoint strBody (s : jstr) : option (jstr * jstr) :=
  match s with
  | [] => None
  | c :: s =>
      if decide (c = 34)%N then Some ([], s)
      else if decide (c = 92)%N then
        match s with
        | e :: s =>
            if decide (e = 117)%N then
              match s with
              | a :: b :: c :: d :: s =>
                  match hex4 a b c d, strBody s with
                  | Some u, Some (t, r) => Some (u :: t, r)
                  | _, _ => None
                  end
              | _ => None
              end
            else match simpleEscape e, strBody s with
                 | Some u, Some (t, r) => Some (u :: t, r)
                 | _, _ => None
                 end
        | [] => None
        end
      else if (c <? 32)%N then None
      else match strBody s with Some (t, r) => Some (c :: t, r) | None => None end
  end.

Definition hexLow (d : N) : N := if (d <? 10)%N then (48 + d)%N else (87 + d)%N.
Definition uEscape (u : N) : jstr :=
  [92; 117; hexLow (u / 4096 mod 16); hexLow (u / 256 mod 16); hexLow (u / 16 mod 16); hexLow (u mod 16)]%N.
Definition quoteUnit (c : N) : jstr :=
  if decide (c = 34)%N then [92; 34]%N else if decide (c = 92)%N then [92; 92]%N
  else if decide (c = 8)%N then [92; 98]%N else if decide (c = 12)%N then [92; 102]%N
  else if decide (c = 10)%N then [92; 110]%N else if decide (c = 13)%N then [92; 114]%N
  else if decide (c = 9)%N then [92; 116]%N
  else if (c <? 32)%N then uEscape c else [c].
Definition isHigh (c : N) : bool := bool_decide (55296 ≤ c ∧ c ≤ 56319)%N.
Definition isLow (c : N) : bool := bool_decide (56320 ≤ c ∧ c ≤ 57343)%N.
(** A surrogate is printed raw in a pair and escaped alone. *)
Fixpoint quoteBody (s : jstr) : jstr :=
  match s with
  | [] => []
  | c :: s' =>
      if isHigh c then
        match s' with
        | d :: s'' => if isLow d then c :: d :: quoteBody s'' else uEscape c ++ quoteBody s'
        | [] => uEscape c
        end
      else if isLow c then uEscape c ++ quoteBody s'
      else quoteUnit c ++ quoteBody s'
  end.
Definition quote (s : jstr) : jstr := 34%N :: quoteBody s ++ [34%N].

(** ** Values *)
Definition isJws (c : N) : bool := bool_decide (c ∈ [9; 10; 13; 32]%N).
Definition skip (s : jstr) : jstr := drop_while isJws s.
Fixpoint takeDigits (s : jstr) : jstr * jstr :=
  match s with
  | c :: s' => if is_digit c then let '(d, r) := takeDigits s' in (c :: d, r) else ([], s)
  | [] => ([], [])
  end.
(** A number: sign, integer without leading zeros, fraction, exponent. *)
Definition numInt (s : jstr) : option (jstr * jstr) :=
  match s with
  | 48%N :: r => Some ([48%N], r)
  | c :: _ => if is_digit c then Some (takeDigits s) else None
  | [] => None
  end.
Definition numFrac (s : jstr) : option (jstr * jstr) :=
  match s with
  | 46%N :: r => match takeDigits r with ([], _) => None | (d, r) => Some (46%N :: d, r) end
  | _ => Some ([], s)
  end.
Definition numExp (s : jstr) : option (jstr * jstr) :=
  match s with
  | c :: r =>
      if bool_decide (c ∈ [69; 101]%N) then
        let '(sg, r) := match r with x :: r' => if bool_decide (x ∈ [43; 45]%N) then ([x], r') else ([], r) | [] => ([], []) end in
        match takeDigits r with ([], _) => None | (d, r) => Some (c :: sg ++ d, r) end
      else Some ([], s)
  | [] => Some ([], [])
  end.
Definition number (s : jstr) : option (jstr * jstr) :=
  let '(sg, r) := match s with 45%N :: r => ([45%N], r) | _ => ([], s) end in
  match numInt r with
  | None => None
  | Some (i, r) =>
      match numFrac r with
      | None => None
      | Some (f, r) => match numExp r with None => None | Some (e, r) => Some (sg ++ i ++ f ++ e, r) end
      end
  end.

Definition word (w : jstr) (v : json) (s : jstr) : option (json * jstr) :=
  if starts_with s w then Some (v, drop (length w) s) else None.

(** [value] reads one value; [elems] and [members] what follows a value in an
    array or object.  Every call eats a unit, so the length of the text is
    enough fuel. *)
Fixpoint value (fuel : nat) (s : jstr) : option (json * jstr) :=
  match fuel with
  | 0 => None
  | S fuel =>
      match skip s with
      | [] => None
      | c :: r =>
          if decide (c = 34)%N then match strBody r with Some (t, r) => Some (JStr t, r) | None => None end
          else if decide (c = 91)%N then
            match skip r with
            | 93%N :: r => Some (JArr [], r)
            | r => match elems fuel r with Some (l, r) => Some (JArr l, r) | None => None end
            end
          else if decide (c = 123)%N then
            match skip r with
            | 125%N :: r => Some (JObj [], r)
            | r => match members fuel r with Some (l, r) => Some (JObj l, r) | None => None end
            end
          else if decide (c = 116)%N then word (js "true") (JBool true) (c :: r)
          else if decide (c = 102)%N then word (js "false") (JBool false) (c :: r)
          else if decide (c = 110)%N then word (js "null") JNull (c :: r)
          else match number (c :: r) with Some (n, r) => Some (JNum n, r) | None => None end
      end
  end
with elems (fuel : nat) (s : jstr) : option (list json * jstr) :=
  match fuel with
  | 0 => None
  | S fuel =>
      match value fuel s with
      | None => None
      | Some (v, r) =>
          match skip r with
          | 93%N :: r => Some ([v], r)
          | 44%N :: r => match elems fuel r with Some (l, r) => Some (v :: l, r) | None => None end
          | _ => None
          end
      end
  end
with members (fuel : nat) (s : jstr) : option (list (jstr * json) * jstr) :=
  match fuel with
  | 0 => None
  | S fuel =>
      match skip s with
      | 34%N :: r =>
          match strBody r with
          | None => None
          | Some (k, r) =>
              match skip r with
              | 58%N :: r =>
                  match value fuel r with
                  | None => None
                  | Some (v, r) =>
                      match skip r with
                      | 125%N :: r => Some ([(k, v)], r)
                      | 44%N :: r => match members fuel r with Some (l, r) => Some ((k, v) :: l, r) | None => None end
                      | _ => None
                      end
                  end
              | _ => None
              end
          end
      | _ => None
      end
  end.

(** [JSON.parse]; [None] is the SyntaxError. *)
Definition parse (s : jstr) : option json :=
  match value (S (2 * length s)) s with
  | Some (v, r) => match skip r with [] => Some v | _ :: _ => None end
  | None => None
  end.

(** [JSON.stringify(l)] on an array of strings. *)
Definition stringifyFlat (l : list jstr) : jstr := 91%N :: join_with 44%N (quote <$> l) ++ [93%N].
(** [JSON.stringify(ids, null, 2)] *)
Fixpoint lines (l : list jstr) : jstr :=
  match l with
  | [] => []
  | [x] => js "  " ++ quote x ++ [cLF]
  | x :: l => js "  " ++ quote x ++ [44%N; cLF] ++ lines l
  end.
Definition stringifyIds (l : list jstr) : jstr :=
  match l with [] => js "[]" | _ :: _ => js "[" ++ [cLF] ++ lines l ++ js "]" end.

Example parse_sample :
  parse (js "[1, -2.5e+3, [true], {}, null] ") =
  Some (JArr [JNum (js "1"); JNum (js "-2.5e+3"); JArr [JBool true]; JObj []; JNull]) ∧
  parse (js "[1,]") = None ∧ parse (js "[01]") = None.
Proof. vm_compute. done. Qed.

(** ** The round trip *)
Definition utf16 (s : jstr) : Prop := Forall (λ c, (c < 65536)%N) s.

Lemma hexVal_hexLow d : (d < 16)%N → hexVal (hexLow d) = Some d.
Proof.
  intros Hd. assert (Hall : Forall (λ d, hexVal (hexLow d) = Some d) (N.of_nat <$> seq 0 16)) by (repeat constructor).
  rewrite Forall_forall in Hall. apply Hall. apply list_elem_of_fmap. exists (N.to_nat d).
  rewrite elem_of_seq. lia.
Qed.
Lemma strBody_uEscape c r s t :
  (c < 65536)%N → strBody r = Some (s, t) → strBody (uEscape c ++ r) = Some (c :: s, t).
Proof.
  intros Hc Hr. unfold uEscape. cbn [app strBody].
  rewrite decide_False, !decide_True by done.
  unfold hex4. rewrite !hexVal_hexLow by (apply N.mod_lt; done). rewrite Hr. do 3 f_equal.
  pose proof (N.div_mod' c 16). pose proof (N.div_mod' (c / 16) 16). pose proof (N.div_mod' (c / 256) 16).
  pose proof (N.Div0.div_div c 16 16) as H4. pose proof (N.Div0.div_div c 256 16) as H5.
  change (16 * 16)%N with 256%N in H4. change (256 * 16)%N with 4096%N in H5. rewrite H4, H5 in *.
  assert (c / 4096 < 16)%N by (apply N.Div0.div_lt_upper_bound; lia).
  rewrite (N.mod_small (c / 4096)) by done. lia.
Qed.
Lemma strBody_plain c r s t :
  c ≠ 34%N → c ≠ 92%N → (32 ≤ c)%N → strBody r = Some (s, t) → strBody (c :: r) = Some (c :: s, t).
Proof.
  intros H1 H2 H3 Hr. cbn [strBody]. rewrite !decide_False by done.
  destruct (N.ltb_spec c 32); [lia|]. by rewrite Hr.
Qed.
Lemma strBody_quoteUnit c r s t :
  (c < 65536)%N → strBody r = Some (s, t) → strBody (quoteUnit c ++ r) = Some (c :: s, t).
Proof.
  intros Hc Hr. unfold quoteUnit.
  repeat match goal with |- context [decide (?x = ?y)] =>
    destruct (decide (x = y)) as [->|]; [cbn [app strBody]; rewrite !decide_False, ?decide_True by done; cbn; by rewrite Hr|] end.
  destruct (N.ltb_spec c 32); [by apply strBody_uEscape|]. by apply strBody_plain.
Qed.
Lemma isHigh_big c : isHigh c = true → (55296 ≤ c)%N.
Proof. unfold isHigh. intros H. bools. lia. Qed.
Lemma isLow_big c : isLow c = true → (55296 ≤ c)%N.
Proof. unfold isLow. intros H. bools. lia. Qed.

Lemma strBody_quote s r : utf16 s → strBody (quoteBody s ++ 34%N :: r) = Some (s, r).
Proof.
  remember (length s) as n eqn:Hn. revert s Hn. induction n as [n IH] using lt_wf_ind.
  intros s Hn Hs. destruct s as [|c s]; [done|]. apply Forall_cons in Hs as [Hc Hs].
  assert (Hrec : strBody (quoteBody s ++ 34%N :: r) = Some (s, r)) by (eapply IH; [|done|done]; simpl in Hn; lia).
  cbn [quoteBody]. destruct (isHigh c) eqn:Hh.
  - apply isHigh_big in Hh. destruct s as [|d s]; [by apply strBody_uEscape|].
    destruct (isLow d) eqn:Hl; [|rewrite <- app_assoc; by apply strBody_uEscape].
    apply isLow_big in Hl. apply Forall_cons in Hs as [Hd Hs].
    rewrite <- !app_comm_cons. apply strBody_plain; [lia..|]. apply strBody_plain; [lia..|].
    eapply IH; [|done|done]. simpl in Hn. lia.
  - destruct (isLow c); rewrite <- app_assoc; [by apply strBody_uEscape|by apply strBody_quoteUnit].
Qed.

Lemma value_str fuel pre s r :
  utf16 s → Forall (λ c, isJws c = true) pre → value (S fuel) (pre ++ quote s ++ r) = Some (JStr s, r).
Proof.
  intros Hs Hpre. cbn [value].
  assert (skip (pre ++ quote s ++ r) = quote s ++ r) as ->.
  { unfold skip. clear Hs. induction Hpre as [|c pre Hc _ IH]; [done|]. simpl. by rewrite Hc. }
  unfold quote. rewrite <- app_comm_cons, <- app_assoc. rewrite decide_True by done. cbn [app].
  by rewrite strBody_quote.
Qed.
Lemma elems_lines l fuel r :
  l ≠ [] → Forall utf16 l → length l < fuel →
  elems fuel (lines l ++ 93%N :: r) = Some (JStr <$> l, r).
Proof.
  revert fuel. induction l as [|x l IH]; intros fuel Hne Hall Hf; [done|].
  apply Forall_cons in Hall as [Hx Hall]. simpl in Hf.
  destruct fuel as [|[|fuel]]; [lia..|]. cbn [elems].
  assert (Hsp : Forall (λ c, isJws c = true) (js "  ")) by (repeat constructor).
  destruct l as [|y l].
  - cbn [lines]. rewrite <- !app_assoc. rewrite value_str by done. cbn. done.
  - change (lines (x :: y :: l)) with (js "  " ++ quote x ++ [44%N; cLF] ++ lines (y :: l)).
    rewrite <- !app_assoc. rewrite value_str by done. cbn [app skip drop_while].
    change (isJws 44) with false. cbn iota.
    specialize (IH (S fuel) ltac:(done) Hall ltac:(simpl in *; lia)).
    cbn [elems] in IH. destruct fuel as [|fuel]; [simpl in Hf; lia|].
    cbn [value] in IH |- *. change (skip (cLF :: ?z)) with (skip z). by rewrite IH.
Qed.

Lemma lines_length l : length l ≤ length (lines l).
Proof. induction l as [|x [|y l] IH]; [done|simpl; lia|]. cbn [lines] in *. rewrite !length_app. cbn [length] in *. lia. Qed.

Lemma value_lines fuel l :
  l ≠ [] → Forall utf16 l → length l < fuel →
  value (S fuel) (js "[" ++ [cLF] ++ lines l ++ js "]") = Some (JArr (JStr <$> l), []).
Proof.
  intros Hne Hl Hf. change (js "[") with [91%N]. change (js "]") with [93%N]. cbn [app value].
  change (skip (91%N :: ?z)) with (91%N :: z). cbn iota. rewrite decide_False, decide_True by done.
  assert (Hskip : ∃ z, skip (cLF :: lines l ++ [93%N]) = 34%N :: z ∧
            elems fuel (34%N :: z) = elems fuel (lines l ++ [93%N])).
  { destruct l as [|x l]; [done|]. destruct fuel as [|[|f]]; [simpl in Hf; lia..|].
    destruct l as [|y l]; cbn [lines]; rewrite <- !app_assoc; eexists; (split; [reflexivity|]);
      cbn [elems value]; reflexivity. }
  destruct Hskip as (z & -> & He). cbn iota. rewrite He. by rewrite elems_lines.
Qed.
Lemma parse_stringify l : Forall utf16 l → parse (stringifyIds l) = Some (JArr (JStr <$> l)).
Proof.
  intros Hl. destruct l as [|x l]; [vm_compute; reflexivity|].
  unfold stringifyIds, parse. rewrite value_lines; [done|done|done|].
  rewrite !length_app. pose proof (lines_length (x :: l)). simpl (length [cLF]). lia.
Qed.

(** ** The flat form is injective *)
Lemma quote_inj_app s s' r r' : utf16 s → utf16 s' → quote s ++ r = quote s' ++ r' → s = s' ∧ r = r'.
Proof.
  intros Hs Hs' H. unfold quote in H. cbn in H. injection H as H. rewrite <- !app_assoc in H.
  pose proof (strBody_quote s r Hs) as H1. pose proof (strBody_quote s' r' Hs') as H2.
  cbn in H. rewrite H in H1. rewrite H1 in H2. by simplify_eq.
Qed.
Lemma join_quote_inj l l' :
  Forall utf16 l → Forall utf16 l' → length l = length l' →
  join_with 44%N (quote <$> l) ++ [93%N] = join_with 44%N (quote <$> l') ++ [93%N] → l = l'.
Proof.
  intros Hl. revert l'. induction Hl as [|s l Hs Hl IH]; intros [|s' l'] Hl' Hlen H; try done.
  apply Forall_cons in Hl' as [Hs' Hl'].
  destruct l as [|t l], l' as [|t' l']; try done.
  - cbn in H. apply quote_inj_app in H as [-> _]; done.
  - cbn [fmap list_fmap join_with] in H. rewrite <- !app_assoc in H. apply quote_inj_app in H as [-> H]; [|done..].
    cbn [app] in H. injection H as H. f_equal. apply IH; [done|cbn in *; lia|done].
Qed.
Lemma stringifyFlat_inj l l' :
  Forall utf16 l → Forall utf16 l' → length l = length l' → stringifyFlat l = stringifyFlat l' → l = l'.
Proof. intros Hl Hl' Hlen [= H]. by apply join_quote_inj. Qed.
