(* ===== verification/Utf8.v ===== *)
(** * Utf8: encoding and decoding of UTF-8 (the web platform's encoder and decoder)

    [encode] turns a JS string into bytes, a lone surrogate becoming U+FFFD;
    [decode] is the WHATWG decoder, which replaces every malformed part by
    U+FFFD.  [decode_encode] is the round trip on well-formed strings. *)

From S2P Require Import Prelude Json.

Definition bmp (c : N) : list N :=
  if (c <? 128)%N then [c]
  else if (c <? 2048)%N then [192 + c / 64; 128 + c mod 64]%N
  else [224 + c / 4096; 128 + c / 64 mod 64; 128 + c mod 64]%N.
Definition astral (p : N) : list N :=
  [240 + p / 262144; 128 + p / 4096 mod 64; 128 + p / 64 mod 64; 128 + p mod 64]%N.
Definition pair (hi lo : N) : N := (65536 + (hi - 55296) * 1024 + (lo - 56320))%N.
Definition replacement : N := 65533%N.

Fixpoint encode (s : jstr) : list N :=
  match s with
  | [] => []
  | c :: s' =>
      if isHigh c then
        match s' with
        | d :: s'' => if isLow d then astral (pair c d) ++ encode s'' else bmp replacement ++ encode s'
        | [] => bmp replacement
        end
      else if isLow c then bmp replacement ++ encode s'
      else bmp c ++ encode s'
  end.

(** The decoder's state: continuation bytes still needed, the code point so far
    and the range of the next byte. *)
Record st := { need : nat; cp : N; lo : N; hi : N }.
Definition init : st := {| need := 0; cp := 0; lo := 128; hi := 191 |}.
Definition units (p : N) : jstr :=
  if (p <? 65536)%N then [p] else [55296 + (p - 65536) / 1024; 56320 + (p - 65536) mod 1024]%N.
(** A byte at the start of a sequence. *)
Definition lead (b : N) : jstr * st :=
  if (b <? 128)%N then ([b], init)
  else if bool_decide (194 ≤ b ∧ b ≤ 223)%N then ([], {| need := 1; cp := b - 192; lo := 128; hi := 191 |})
  else if bool_decide (224 ≤ b ∧ b ≤ 239)%N then
    ([], {| need := 2; cp := b - 224; lo := if (b =? 224)%N then 160 else 128; hi := if (b =? 237)%N then 159 else 191 |})
  else if bool_decide (240 ≤ b ∧ b ≤ 244)%N then
    ([], {| need := 3; cp := b - 240; lo := if (b =? 240)%N then 144 else 128; hi := if (b =? 244)%N then 143 else 191 |})
  else ([replacement], init).
Fixpoint decodeFrom (x : st) (bs : list N) : jstr :=
  match bs with
  | [] => match need x with 0 => [] | S _ => [replacement] end
  | b :: bs =>
      match need x with
      | 0 => let '(o, x) := lead b in o ++ decodeFrom x bs
      | S n =>
          if bool_decide (lo x ≤ b ∧ b ≤ hi x)%N then
            let p := (cp x * 64 + (b - 128))%N in
            match n with
            | 0 => units p ++ decodeFrom init bs
            | S _ => decodeFrom {| need := n; cp := p; lo := 128; hi := 191 |} bs
            end
          else let '(o, x) := lead b in replacement :: o ++ decodeFrom x bs
      end
  end.
Definition decode (bs : list N) : jstr := decodeFrom init bs.

(** No lone surrogate, and every unit is one. *)
Fixpoint wellFormed (s : jstr) : bool :=
  match s with
  | [] => true
  | c :: s' =>
      (c <? 65536)%N &&
      if isHigh c then match s' with d :: s'' => isLow d && wellFormed s'' | [] => false end
      else negb (isLow c) && wellFormed s'
  end.

Ltac euclid := zify; Z.to_euclidean_division_equations; lia.
Ltac decide_range :=
  match goal with
  | |- context [bool_decide ?P] => first [rewrite (bool_decide_eq_true_2 P) by euclid | rewrite (bool_decide_eq_false_2 P) by euclid]
  | |- context [(?a <? ?b)%N] => first [rewrite (proj2 (N.ltb_lt a b)) by euclid | rewrite (proj2 (N.ltb_ge a b)) by euclid]
  end.
Lemma isHigh_spec c : isHigh c = true ↔ (55296 ≤ c ∧ c ≤ 56319)%N.
Proof. apply bool_decide_eq_true. Qed.
Lemma isLow_spec c : isLow c = true ↔ (56320 ≤ c ∧ c ≤ 57343)%N.
Proof. apply bool_decide_eq_true. Qed.

Lemma decode_bmp c r :
  (c < 65536)%N → isHigh c = false → isLow c = false → decode (bmp c ++ r) = c :: decode r.
Proof.
  intros Hc Hh Hl. apply bool_decide_eq_false in Hh, Hl. unfold decode, bmp.
  destruct (c <? 128)%N eqn:H1; [|destruct (c <? 2048)%N eqn:H2].
  - cbn [app decodeFrom need init]. unfold lead. by rewrite H1.
  - apply N.ltb_ge in H1. apply N.ltb_lt in H2. cbn [app decodeFrom need init]. unfold lead. repeat decide_range.
    cbn [app decodeFrom need lo hi cp]. decide_range. unfold units. decide_range. cbn [app]. f_equal. euclid.
  - apply N.ltb_ge in H1, H2. cbn [app decodeFrom need init]. unfold lead. repeat decide_range.
    cbn [app decodeFrom need lo hi cp].
    rewrite (bool_decide_eq_true_2 (_ ∧ _)).
    2: { destruct (_ =? 224)%N eqn:Ha, (_ =? 237)%N eqn:Hb; rewrite ?N.eqb_eq, ?N.eqb_neq in *; euclid. }
    cbn [decodeFrom need lo hi cp]. decide_range. unfold units. decide_range. cbn [app]. f_equal. euclid.
Qed.
Lemma decode_astral h l r :
  isHigh h = true → isLow l = true → decode (astral (pair h l) ++ r) = h :: l :: decode r.
Proof.
  intros [Hh1 Hh2]%isHigh_spec [Hl1 Hl2]%isLow_spec. unfold decode, astral.
  assert (Hp : (65536 ≤ pair h l < 1114112)%N) by (unfold pair; lia).
  assert (Hu : units (pair h l) = [h; l]).
  { unfold units. decide_range. unfold pair in *. repeat f_equal; euclid. }
  revert Hp Hu. generalize (pair h l). intros p Hp Hu.
  cbn [app decodeFrom need init]. unfold lead. repeat decide_range.
  cbn [app decodeFrom need lo hi cp].
  rewrite (bool_decide_eq_true_2 (_ ∧ _)).
  2: { destruct (_ =? 240)%N eqn:Ha, (_ =? 244)%N eqn:Hb; rewrite ?N.eqb_eq, ?N.eqb_neq in *; euclid. }
  cbn [decodeFrom need lo hi cp]. decide_range. cbn [decodeFrom need lo hi cp]. decide_range.
  match goal with |- units ?q ++ _ = _ => replace q with p by euclid end. by rewrite Hu.
Qed.
Lemma decode_encode s : wellFormed s = true → decode (encode s) = s.
Proof.
  induction s as [s IH] using (well_founded_induction (Wf_nat.well_founded_ltof _ (@length N))).
  destruct s as [|c s']; [done|]. cbn [wellFormed encode]. intros [Hc H]%andb_true_iff. apply N.ltb_lt in Hc.
  destruct (isHigh c) eqn:Hh.
  - destruct s' as [|d s'']; [done|]. apply andb_true_iff in H as [Hd H]. rewrite Hd, decode_astral by done.
    f_equal. f_equal. apply IH; [|done]. unfold Wf_nat.ltof. cbn. lia.
  - apply andb_true_iff in H as [Hl H]. apply negb_true_iff in Hl. rewrite Hl, decode_bmp by done.
    f_equal. apply IH; [|done]. unfold Wf_nat.ltof. cbn. lia.
Qed.
Lemma encode_ascii s : Forall (λ c, (c < 128)%N) s → encode s = s.
Proof.
  induction 1 as [|c s Hc Hs IH]; [done|]. cbn [encode]. unfold isHigh, isLow. repeat decide_range.
  unfold bmp. decide_range. cbn. by rewrite IH.
Qed.
Lemma encode_bytes s : utf16 s → Forall (λ b, (b < 256)%N) (encode s).
Proof.
  assert (Hbmp : ∀ c, (c < 65536)%N → Forall (λ b, (b < 256)%N) (bmp c)).
  { intros c Hc. unfold bmp. destruct (c <? 128)%N eqn:H1; [apply N.ltb_lt in H1; repeat constructor; lia|].
    destruct (c <? 2048)%N eqn:H2; [apply N.ltb_lt in H2|]; repeat constructor; euclid. }
  induction s as [s IH] using (well_founded_induction (Wf_nat.well_founded_ltof _ (@length N))).
  destruct s as [|c s']; [constructor|]. intros Hu. apply Forall_cons in Hu as [Hc Hs]. cbn [encode].
  assert (Hrest : Forall (λ b, (b < 256)%N) (encode s')) by (apply IH; [unfold Wf_nat.ltof; cbn; lia|done]).
  destruct (isHigh c) eqn:Hh; [|destruct (isLow c); apply Forall_app; split; auto; by apply Hbmp].
  destruct s' as [|d s'']; [by apply Hbmp|]. apply isHigh_spec in Hh.
  destruct (isLow d) eqn:Hd; [|apply Forall_app; split; [by apply Hbmp|done]]. apply isLow_spec in Hd.
  apply Forall_app. split; [|apply IH; [unfold Wf_nat.ltof; cbn; lia|by apply Forall_cons in Hs as [_ ?]]].
  unfold astral. assert (Hp : (pair c d < 1114112)%N) by (unfold pair; lia). repeat constructor; euclid.
Qed.
Example utf8_sample :
  encode [233; 8364; 55357; 56832]%N = [195; 169; 226; 130; 172; 240; 159; 152; 128]%N ∧
  decode [195; 169; 255; 226; 130]%N = [233; 65533; 65533]%N.
Proof. vm_compute. auto. Qed.
