(* ===== verification/Jsonprint.v ===== *)
(** * Jsonprint: [JSON.stringify] on a value without numbers

    The compact form.  [parse_stringify_value] is its round trip and [stringify_wellFormed]
    says that the text has no lone surrogate, whatever the strings hold. *)

From S2P Require Import Prelude Json Utf8.

Fixpoint stringify (v : json) : jstr :=
  match v with
  | JNull => js "null"
  | JBool b => if b then js "true" else js "false"
  | JNum raw => raw
  | JStr s => quote s
  | JArr l => 91%N :: join_with 44%N (stringify <$> l) ++ [93%N]
  | JObj l => 123%N :: join_with 44%N ((λ e, quote e.1 ++ 58%N :: stringify e.2) <$> l) ++ [125%N]
  end.

(** Strings are UTF-16 and there is no number. *)
Fixpoint printable (v : json) : Prop :=
  match v with
  | JNum _ => False
  | JStr s => utf16 s
  | JArr l => (fix all l := match l with [] => True | v :: l => printable v ∧ all l end) l
  | JObj l => (fix all l := match l with [] => True | e :: l => (utf16 e.1 ∧ printable e.2) ∧ all l end) l
  | _ => True
  end.

Section Induction.
Context (P : json → Prop) (Hnull : P JNull) (Hbool : ∀ b, P (JBool b)) (Hnum : ∀ s, P (JNum s)) (Hstr : ∀ s, P (JStr s)).
Context (Harr : ∀ l, Forall P l → P (JArr l)) (Hobj : ∀ l, Forall (λ e, P e.2) l → P (JObj l)).
Fixpoint json_ind' (v : json) : P v :=
  match v with
  | JNull => Hnull | JBool b => Hbool b | JNum s => Hnum s | JStr s => Hstr s
  | JArr l => Harr l ((fix all l := match l return Forall P l with [] => Forall_nil_2 _ | v :: l => Forall_cons_2 _ _ _ (json_ind' v) (all l) end) l)
  | JObj l =>
      Hobj l ((fix all l := match l return Forall (λ e : jstr * json, P e.2) l with
                            | [] => Forall_nil_2 _ | e :: l => Forall_cons_2 _ _ _ (json_ind' e.2) (all l) end) l)
  end.
End Induction.
Lemma printable_arr l : printable (JArr l) ↔ Forall printable l.
Proof. induction l as [|v l IH]; [by split|]. rewrite Forall_cons, <- IH. done. Qed.
Lemma printable_obj l : printable (JObj l) ↔ Forall (λ e, utf16 e.1 ∧ printable e.2) l.
Proof. induction l as [|v l IH]; [by split|]. rewrite Forall_cons, <- IH. done. Qed.

(** The first unit of a value: not white space and not a closing bracket. *)
Definition opens (c : N) : Prop := isJws c = false ∧ c ≠ 93%N ∧ c ≠ 125%N.
Lemma stringify_head v : printable v → ∃ c t, stringify v = c :: t ∧ opens c.
Proof.
  destruct v as [|[]| | | |]; intros Hp; try done; cbn [stringify quote];
    (eexists _, _; split; [reflexivity|]); repeat split; try done.
Qed.
Lemma skip_opens c t : opens c → skip (c :: t) = c :: t.
Proof. intros [Hc _]. unfold skip. cbn. by rewrite Hc. Qed.
Lemma skip_value v r : printable v → skip (stringify v ++ r) = stringify v ++ r.
Proof. intros Hp. destruct (stringify_head v Hp) as (c & t & -> & Hc). cbn [app]. by apply skip_opens. Qed.

(** [value] reads back what [v] prints when its fuel is twice the text. *)
Definition readsBack (v : json) : Prop :=
  ∀ fuel r, 2 * length (stringify v) ≤ fuel → value fuel (stringify v ++ r) = Some (v, r).
Lemma join_cons {A} (f : A → jstr) x y l :
  join_with 44%N (f <$> x :: y :: l) = f x ++ 44%N :: join_with 44%N (f <$> y :: l).
Proof. done. Qed.
Lemma elems_reads l fuel r :
  l ≠ [] → Forall readsBack l → 2 * length (join_with 44%N (stringify <$> l)) < fuel →
  elems fuel (join_with 44%N (stringify <$> l) ++ 93%N :: r) = Some (l, r).
Proof.
  intros Hne Hl. revert fuel Hne. induction Hl as [|v l Hv Hl IH]; intros fuel Hne Hf; [done|].
  destruct fuel as [|fuel]; [lia|]. cbn [elems]. destruct l as [|w l].
  - cbn [fmap list_fmap join_with] in *. rewrite Hv by lia. done.
  - rewrite join_cons, length_app in Hf. cbn [length] in Hf. rewrite join_cons, <- app_assoc. rewrite Hv by lia.
    cbn [app]. rewrite skip_opens by done. rewrite IH; [done|done|lia].
Qed.
Definition member (e : jstr * json) : jstr := quote e.1 ++ 58%N :: stringify e.2.
Lemma members_reads l fuel r :
  l ≠ [] → Forall (λ e, utf16 e.1 ∧ readsBack e.2) l → 2 * length (join_with 44%N (member <$> l)) < fuel →
  members fuel (join_with 44%N (member <$> l) ++ 125%N :: r) = Some (l, r).
Proof.
  intros Hne Hl. revert fuel Hne. induction Hl as [|[k v] l [Hk Hv] Hl IH]; intros fuel Hne Hf; [done|].
  destruct fuel as [|fuel]; [lia|]. cbn [fst snd] in *.
  assert (Hm : ∀ z, 2 * length (member (k, v)) ≤ fuel →
    members (S fuel) (member (k, v) ++ z) =
    match skip z with
    | 125%N :: r => Some ([(k, v)], r)
    | 44%N :: r => match members fuel r with Some (l, r) => Some ((k, v) :: l, r) | None => None end
    | _ => None
    end).
  { intros z Hz. unfold member in *. cbn [fst snd] in *. rewrite length_app in Hz. cbn [length] in Hz.
    cbn [members]. unfold quote at 1. rewrite <- !app_comm_cons, <- !app_assoc. rewrite skip_opens by done.
    cbn [app]. rewrite strBody_quote by done. rewrite skip_opens by done. rewrite Hv by lia. done. }
  destruct l as [|w l].
  - change (join_with 44%N (member <$> [(k, v)])) with (member (k, v)) in *. rewrite Hm by lia. done.
  - rewrite join_cons, length_app in Hf. cbn [length] in Hf. rewrite join_cons, <- app_assoc, Hm by lia.
    cbn [app]. rewrite skip_opens by done. rewrite IH; [done|done|lia].
Qed.
Lemma array_starts fuel c t :
  c ≠ 93%N →
  match c :: t with
  | 93%N :: r => Some (JArr [], r)
  | r => match elems fuel r with Some (l, r) => Some (JArr l, r) | None => None end
  end = match elems fuel (c :: t) with Some (l, r) => Some (JArr l, r) | None => None end.
Proof. intros Hc. destruct c as [|p]; [done|]. do 7 (try destruct p as [p|p|]); done. Qed.
Lemma stringify_reads v : printable v → readsBack v.
Proof.
  induction v as [|b|s|s|l IH|l IH] using json_ind'; intros Hp fuel r Hf.
  - destruct fuel; [cbn in Hf; lia|]. done.
  - destruct fuel; [destruct b; cbn in Hf; lia|]. by destruct b.
  - done.
  - destruct fuel; [cbn in Hf; lia|]. by apply (value_str fuel []).
  - apply printable_arr in Hp. cbn [stringify] in *. cbn [length] in Hf. rewrite length_app in Hf. cbn [length] in Hf.
    destruct fuel as [|fuel]; [lia|]. cbn [value]. rewrite <- app_comm_cons, <- app_assoc, skip_opens by done.
    rewrite decide_False, decide_True by done. destruct l as [|v l]; [done|].
    assert (Hh : ∀ z, skip (join_with 44%N (stringify <$> v :: l) ++ z) = join_with 44%N (stringify <$> v :: l) ++ z ∧
                      ∃ c t, join_with 44%N (stringify <$> v :: l) ++ z = c :: t ∧ opens c).
    { intros z. apply Forall_cons in Hp as [Hv _]. destruct (stringify_head v Hv) as (c & t & Hc & Ho).
      assert (∃ u, join_with 44%N (stringify <$> v :: l) = c :: u) as [u ->].
      { destruct l; cbn [fmap list_fmap join_with]; rewrite Hc; by eexists. }
      split; [by apply skip_opens|by exists c, (u ++ z)]. }
    change ([93%N] ++ r) with (93%N :: r). destruct (Hh (93%N :: r)) as [-> (c & t & Hc & Ho)].
    assert (Hv : elems fuel (c :: t) = Some (v :: l, r)).
    { rewrite <- Hc. apply elems_reads; [done| |lia]. rewrite Forall_forall in IH, Hp |- *. auto. }
    rewrite Hc, array_starts by apply Ho. by rewrite Hv.
  - apply printable_obj in Hp. change (stringify (JObj l)) with (123%N :: join_with 44%N (member <$> l) ++ [125%N]) in *.
    cbn [length] in Hf. rewrite length_app in Hf. cbn [length] in Hf.
    destruct fuel as [|fuel]; [lia|]. cbn [value]. rewrite <- app_comm_cons, <- app_assoc, skip_opens by done.
    rewrite !decide_False, decide_True by done. destruct l as [|e l]; [done|].
    assert (∃ t, join_with 44%N (member <$> e :: l) ++ 125%N :: r = 34%N :: t) as [t Ht]
      by (destruct l; cbn [fmap list_fmap join_with]; by eexists).
    change ([125%N] ++ r) with (125%N :: r). rewrite Ht, skip_opens by done. cbn iota.
    rewrite <- Ht, members_reads; [done|done| |lia]. rewrite Forall_forall in IH, Hp |- *.
    intros x Hx. destruct (Hp x Hx) as [Hk Hv]. split; [done|by apply IH].
Qed.
Lemma parse_stringify_value v : printable v → parse (stringify v) = Some v.
Proof.
  intros Hp. unfold parse. pose proof (stringify_reads v Hp (S (2 * length (stringify v))) [] ltac:(lia)) as H.
  rewrite app_nil_r in H. by rewrite H.
Qed.

(** ** The text is well formed *)
Lemma wellFormed_app a b : wellFormed a = true → wellFormed b = true → wellFormed (a ++ b) = true.
Proof.
  intros Ha Hb. revert Ha. induction a as [a IH] using (well_founded_induction (Wf_nat.well_founded_ltof _ (@length N))).
  destruct a as [|c a]; [done|]. cbn [wellFormed app]. intros [-> H]%andb_true_iff. cbn [andb]. destruct (isHigh c).
  - destruct a as [|d a]; [done|]. cbn [app]. apply andb_true_iff in H as [-> H]. cbn [andb]. apply IH; [|done].
    unfold Wf_nat.ltof. cbn. lia.
  - apply andb_true_iff in H as [-> H]. cbn [andb]. apply IH; [|done]. unfold Wf_nat.ltof. cbn. lia.
Qed.
Lemma wellFormed_small s : Forall (λ c, (c < 55296)%N) s → wellFormed s = true.
Proof.
  induction 1 as [|c s Hc _ IH]; [done|]. cbn [wellFormed]. rewrite IH.
  destruct (isHigh c) eqn:Hh; [apply isHigh_big in Hh; lia|]. destruct (isLow c) eqn:Hl; [apply isLow_big in Hl; lia|].
  destruct (N.ltb_spec c 65536); [done|lia].
Qed.
Lemma hexLow_small d : (d < 16)%N → (hexLow d < 55296)%N.
Proof. unfold hexLow. destruct (N.ltb_spec d 10); lia. Qed.
Lemma uEscape_wellFormed c : wellFormed (uEscape c) = true.
Proof. apply wellFormed_small. unfold uEscape. repeat constructor; apply hexLow_small, N.mod_lt; done. Qed.
Lemma wellFormed_one c : (c < 65536)%N → isHigh c = false → isLow c = false → wellFormed [c] = true.
Proof. intros Hc Hh Hl. cbn. rewrite Hh, Hl. by destruct (N.ltb_spec c 65536); [|lia]. Qed.
Lemma quoteUnit_wellFormed c : (c < 65536)%N → isHigh c = false → isLow c = false → wellFormed (quoteUnit c) = true.
Proof.
  intros Hc Hh Hl. unfold quoteUnit. repeat case_decide; try done. case_match; [apply uEscape_wellFormed|by apply wellFormed_one].
Qed.
Lemma quoteBody_wellFormed s : utf16 s → wellFormed (quoteBody s) = true.
Proof.
  induction s as [s IH] using (well_founded_induction (Wf_nat.well_founded_ltof _ (@length N))).
  intros Hs. destruct s as [|c s]; [done|]. apply Forall_cons in Hs as [Hc Hs].
  assert (Hrec : wellFormed (quoteBody s) = true) by (apply IH; [unfold Wf_nat.ltof; cbn; lia|done]).
  cbn [quoteBody]. destruct (isHigh c) eqn:Hh.
  - destruct s as [|d s]; [apply uEscape_wellFormed|].
    destruct (isLow d) eqn:Hl; [|apply wellFormed_app; [apply uEscape_wellFormed|done]].
    apply Forall_cons in Hs as [Hd Hs]. apply (wellFormed_app [c; d]).
    + cbn. rewrite Hh, Hl. by destruct (N.ltb_spec c 65536); [|lia].
    + apply IH; [unfold Wf_nat.ltof; cbn; lia|done].
  - destruct (isLow c) eqn:Hl; apply wellFormed_app; try done; [apply uEscape_wellFormed|by apply quoteUnit_wellFormed].
Qed.
Lemma quote_wellFormed s : utf16 s → wellFormed (quote s) = true.
Proof.
  intros Hs. apply (wellFormed_app [34%N]); [done|]. apply wellFormed_app; [by apply quoteBody_wellFormed|done].
Qed.
Lemma join_wellFormed l : Forall (λ s, wellFormed s = true) l → wellFormed (join_with 44%N l) = true.
Proof.
  induction 1 as [|s l Hs Hl IH]; [done|]. destruct l as [|t l]; [done|].
  change (join_with 44%N (s :: t :: l)) with (s ++ [44%N] ++ join_with 44%N (t :: l)).
  apply wellFormed_app; [done|]. by apply wellFormed_app.
Qed.
Lemma stringify_wellFormed v : printable v → wellFormed (stringify v) = true.
Proof.
  induction v as [|[]|s|s|l IH|l IH] using json_ind'; intros Hp; try done.
  - by apply quote_wellFormed.
  - apply printable_arr in Hp. apply (wellFormed_app [91%N]); [done|]. apply wellFormed_app; [|done].
    apply join_wellFormed, Forall_fmap. rewrite Forall_forall in IH, Hp |- *. intros x Hx. cbn. by apply IH, Hp.
  - apply printable_obj in Hp. apply (wellFormed_app [123%N]); [done|]. apply wellFormed_app; [|done].
    apply join_wellFormed, Forall_fmap. rewrite Forall_forall in IH, Hp |- *. intros x Hx. cbn.
    destruct (Hp x Hx) as [Hk Hv]. apply wellFormed_app; [by apply quote_wellFormed|].
    apply (wellFormed_app [58%N]); [done|by apply IH].
Qed.
