(* ===== verification/Links.v ===== *)
(** * Links: setup, share and invite links
    ([client/src/connstr.ts], [sharelink.ts], [invitelink.ts])

    [Form] is the web platform's form encoding ([URLSearchParams]) and
    [encodeURIComponent]; [Links] the three codecs, the cleartext verdict, the
    share grant and the redeem check.  The URL parser is a parameter. *)

From S2P Require Import Prelude Jsmap Json Utf8 Effects.

Module Form.

Definition hexUp (d : N) : N := if (d <? 10)%N then (48 + d)%N else (55 + d)%N.
Definition percent (b : N) : jstr := [37; hexUp (b / 16); hexUp (b mod 16)]%N.
Definition cAmp : N := 38%N.
Definition cEq : N := 61%N.
Definition cPlus : N := 43%N.
Definition cQuery : N := 63%N.
(** [encodeURIComponent]; [None] is the URIError on a lone surrogate. *)
Definition unreserved (c : N) : bool := is_digit c || is_alpha c || bool_decide (c ∈ [45; 95; 46; 33; 126; 42; 39; 40; 41]%N).
Definition componentByte (b : N) : jstr := if unreserved b then [b] else percent b.
Definition component (s : jstr) : jstr := concat (componentByte <$> encode s).
Definition encodeURIComponent (s : jstr) : option jstr := if wellFormed s then Some (component s) else None.
(** The form serializer. *)
Definition formSafe (c : N) : bool := is_digit c || is_alpha c || bool_decide (c ∈ [42; 45; 46; 95]%N).
Definition formByte (b : N) : jstr := if (b =? 32)%N then [cPlus] else if formSafe b then [b] else percent b.
Definition formEncode (s : jstr) : jstr := concat (formByte <$> encode s).
Definition field (e : jstr * jstr) : jstr := formEncode e.1 ++ cEq :: formEncode e.2.
Definition toString (l : list (jstr * jstr)) : jstr := join_with cAmp (field <$> l).
(** The parser. *)
Definition hexByte (a b : N) : option N :=
  match hexVal a, hexVal b with Some x, Some y => Some (x * 16 + y)%N | _, _ => None end.
Fixpoint percentDecode (s : list N) : list N :=
  match s with
  | [] => []
  | c :: s' =>
      if (c =? 37)%N then
        match s' with
        | a :: b :: s'' => match hexByte a b with Some x => x :: percentDecode s'' | None => c :: percentDecode s' end
        | _ => c :: percentDecode s'
        end
      else c :: percentDecode s'
  end.
Definition plusToSpace (s : list N) : list N := (λ c, if (c =? cPlus)%N then 32%N else c) <$> s.
Definition formDecode (s : list N) : jstr := decode (percentDecode (plusToSpace s)).
Definition pieceOf (p : list N) : jstr * jstr :=
  match index_of cEq p with
  | Some i => (formDecode (take i p), formDecode (drop (S i) p))
  | None => (formDecode p, [])
  end.
Definition parseForm (s : jstr) : list (jstr * jstr) :=
  let s := match s with c :: s' => if (c =? cQuery)%N then s' else s | [] => [] end in
  pieceOf <$> filter (λ p, p ≠ []) (split_on cAmp (encode s)).
Definition getParam (l : list (jstr * jstr)) (k : jstr) : option jstr := snd <$> List.find (λ e, e.1 === k) l.
(** [params.set(k, v)] *)
Definition setParam (l : list (jstr * jstr)) (k v : jstr) : list (jstr * jstr) :=
  match List.find (λ e, e.1 === k) l with
  | None => l ++ [(k, v)]
  | Some _ =>
      (fix go (done : bool) (l : list (jstr * jstr)) :=
         match l with
         | [] => []
         | e :: l => if e.1 === k then (if done then go true l else (k, v) :: go true l) else e :: go done l
         end) false l
  end.

Lemma hexVal_hexUp d : (d < 16)%N → hexVal (hexUp d) = Some d.
Proof.
  intros Hd. unfold hexUp, hexVal, is_digit. destruct (d <? 10)%N eqn:H; [apply N.ltb_lt in H|apply N.ltb_ge in H].
  - decide_range. f_equal. lia.
  - repeat decide_range. f_equal. lia.
Qed.
(** Encoded bytes use only digits, letters, the percent sign and marks. *)
Definition quiet (c : N) : Prop := (c < 128)%N ∧ c ≠ cAmp ∧ c ≠ cEq ∧ c ≠ cQuery ∧ is_ws c = false.
Lemma below_in n b : (b < N.of_nat n)%N → b ∈ N.of_nat <$> seq 0 n.
Proof. intros Hb. apply list_elem_of_fmap. exists (N.to_nat b). split; [lia|]. apply elem_of_seq. lia. Qed.
Lemma quiet_digit d : (d < 16)%N → quiet (hexUp d).
Proof.
  intros Hd. assert (Hall : Forall (λ d, quiet (hexUp d)) (N.of_nat <$> seq 0 16)).
  { unfold quiet. repeat constructor; vm_compute; done. }
  rewrite Forall_forall in Hall. apply Hall, below_in. lia.
Qed.
Lemma quiet_percent b : (b < 256)%N → Forall quiet (percent b).
Proof.
  intros Hb. repeat constructor; try done; apply quiet_digit; euclid.
Qed.
(** A byte and its encoding, seen by the decoder. *)
Definition decodes (f : N → jstr) : Prop :=
  ∀ b r, (b < 256)%N → Forall quiet (f b) ∧ f b ≠ [] ∧
    percentDecode (plusToSpace (f b ++ r)) = b :: percentDecode (plusToSpace r).
Lemma small_bytes (P : N → bool) : forallb P (N.of_nat <$> seq 0 256) = true → ∀ b, (b < 256)%N → P b = true.
Proof. intros H b Hb. rewrite forallb_forall in H. by apply H, list_elem_of_In, (below_in 256). Qed.
Lemma plain_decodes b r :
  (b < 256)%N → b ≠ 37%N → b ≠ cPlus → percentDecode (plusToSpace ([b] ++ r)) = b :: percentDecode (plusToSpace r).
Proof.
  intros Hb H1 H2. cbn. rewrite (proj2 (N.eqb_neq b cPlus)) by done. by rewrite (proj2 (N.eqb_neq b 37)).
Qed.
Lemma percent_decodes b r : (b < 256)%N → percentDecode (plusToSpace (percent b ++ r)) = b :: percentDecode (plusToSpace r).
Proof.
  intros Hb. assert (H1 : (b / 16 < 16)%N) by euclid. assert (H2 : (b mod 16 < 16)%N) by euclid.
  assert (Hp : ∀ d, (d < 16)%N → (hexUp d =? cPlus)%N = false).
  { intros d Hd. apply N.eqb_neq. unfold hexUp, cPlus. destruct (d <? 10)%N; lia. }
  cbn. rewrite !Hp by done. unfold hexByte. rewrite !hexVal_hexUp by done. f_equal. euclid.
Qed.
Definition quietb (c : N) : bool :=
  (c <? 128)%N && negb (c =? cAmp)%N && negb (c =? cEq)%N && negb (c =? cQuery)%N && negb (is_ws c).
Lemma quietb_spec c : quietb c = true → quiet c.
Proof. unfold quietb, quiet. intros H. bools. rewrite N.ltb_lt, !N.eqb_neq in *. done. Qed.
Lemma form_decodes : decodes formByte.
Proof.
  intros b r Hb. unfold formByte. destruct (b =? 32)%N eqn:H32.
  { apply N.eqb_eq in H32 as ->. split_and!; [|done|done]. repeat constructor; done. }
  destruct (formSafe b) eqn:Hs; [|split_and!; [by apply quiet_percent|done|by apply percent_decodes]].
  pose proof (small_bytes (λ b, negb (formSafe b) || (quietb b && negb (b =? 37)%N && negb (b =? cPlus)%N))
    eq_refl b Hb) as H. cbv beta in H. rewrite Hs in H. cbn in H. bools. rewrite !N.eqb_neq in *.
  split_and!; [|done|by apply plain_decodes]. constructor; [by apply quietb_spec|constructor].
Qed.
Lemma component_decodes : decodes componentByte.
Proof.
  intros b r Hb. unfold componentByte.
  destruct (unreserved b) eqn:Hs; [|split_and!; [by apply quiet_percent|done|by apply percent_decodes]].
  pose proof (small_bytes (λ b, negb (unreserved b) || (quietb b && negb (b =? 37)%N && negb (b =? cPlus)%N))
    eq_refl b Hb) as H. cbv beta in H. rewrite Hs in H. cbn in H. bools. rewrite !N.eqb_neq in *.
  split_and!; [|done|by apply plain_decodes]. constructor; [by apply quietb_spec|constructor].
Qed.
Lemma encoded_quiet f bs : decodes f → Forall (λ b, (b < 256)%N) bs → Forall quiet (concat (f <$> bs)).
Proof. intros Hf. induction 1 as [|b bs Hb _ IH]; [constructor|]. cbn. apply Forall_app. split; [by apply (Hf b [])|done]. Qed.
Lemma encoded_decodes f bs :
  decodes f → Forall (λ b, (b < 256)%N) bs → percentDecode (plusToSpace (concat (f <$> bs))) = bs.
Proof. intros Hf. induction 1 as [|b bs Hb _ IH]; [done|]. rewrite fmap_cons. cbn [concat]. destruct (Hf b (concat (f <$> bs)) Hb) as (_ & _ & ->). by rewrite IH. Qed.

Lemma wellFormed_utf16 s : wellFormed s = true → utf16 s.
Proof.
  induction s as [s IH] using (well_founded_induction (Wf_nat.well_founded_ltof _ (@length N))).
  destruct s as [|c s']; [constructor|]. cbn [wellFormed]. intros [Hc H]%andb_true_iff. apply N.ltb_lt in Hc.
  assert (Hsmall : ∀ t, length t < S (length s') → wellFormed t = true → utf16 t) by (intros t Ht; by apply IH).
  constructor; [done|]. destruct (isHigh c).
  - destruct s' as [|d s'']; [done|]. apply andb_true_iff in H as [Hd%isLow_spec H].
    constructor; [lia|]. apply Hsmall; [cbn; lia|done].
  - apply andb_true_iff in H as [_ H]. apply Hsmall; [cbn; lia|done].
Qed.
(** A well-formed value survives either encoding. *)
Lemma formDecode_encoded f s :
  decodes f → wellFormed s = true → formDecode (concat (f <$> encode s)) = s.
Proof.
  intros Hf Hs. unfold formDecode. rewrite encoded_decodes by (done || by apply encode_bytes, wellFormed_utf16).
  by apply decode_encode.
Qed.
Lemma encoded_word f s : decodes f → wellFormed s = true → Forall quiet (concat (f <$> encode s)).
Proof. intros Hf Hs. apply encoded_quiet; [done|]. by apply encode_bytes, wellFormed_utf16. Qed.

Lemma index_of_app c a b : c ∉ a → index_of c (a ++ c :: b) = Some (length a).
Proof.
  induction a as [|x a IH]; intros Ha; cbn; [by rewrite decide_True|].
  rewrite not_elem_of_cons in Ha. rewrite decide_False by (intros ->; naive_solver). by rewrite IH by naive_solver.
Qed.
Lemma quiet_no c s : (c = cAmp ∨ c = cEq) → Forall quiet s → c ∉ s.
Proof. intros Hc Hs Hin. rewrite Forall_forall in Hs. destruct (Hs c Hin) as (_ & ? & ? & _). naive_solver. Qed.
Lemma pieceOf_pair f g k v :
  decodes f → decodes g → wellFormed k = true → wellFormed v = true →
  pieceOf (concat (f <$> encode k) ++ cEq :: concat (g <$> encode v)) = (k, v).
Proof.
  intros Hf Hg Hk Hv. unfold pieceOf. rewrite index_of_app by (eapply quiet_no; [by right|by apply encoded_word]).
  rewrite take_app_length, drop_app, drop_ge, Nat.sub_succ_l, Nat.sub_diag by lia. cbn [app]. rewrite skipn_cons, drop_0.
  by rewrite !formDecode_encoded.
Qed.
(** A query made of such pieces parses to what it was made of. *)
Record piece (p : jstr) (kv : jstr * jstr) : Prop := {
  p_ascii : Forall (λ c, (c < 128)%N) p; p_amp : cAmp ∉ p; p_query : head p ≠ Some cQuery; p_full : p ≠ [];
  p_means : pieceOf p = kv
}.
Lemma parse_pieces ps l : ps ≠ [] → Forall2 piece ps l → parseForm (join_with cAmp ps) = l.
Proof.
  intros Hne Hps. unfold parseForm.
  assert (Hhead : head (join_with cAmp ps) ≠ Some cQuery).
  { destruct Hps as [|p kv ps l Hp Hps]; [done|]. destruct Hp. destruct ps, p; done. }
  assert (Hstrip : (match join_with cAmp ps with c :: s' => if (c =? cQuery)%N then s' else join_with cAmp ps | [] => [] end)
    = join_with cAmp ps).
  { destruct (join_with cAmp ps) as [|c s]; [done|]. rewrite (proj2 (N.eqb_neq c cQuery)); [done|]. intros ->. done. }
  rewrite Hstrip, encode_ascii.
  2: { clear -Hps. induction Hps as [|p kv ps l Hp _ IH]; [constructor|]. destruct ps; [apply Hp|].
       cbn [join_with]. apply Forall_app. split; [apply Hp|]. constructor; [done|exact IH]. }
  rewrite split_join; [|done|].
  2: { apply Forall_forall. intros p Hp. apply list_elem_of_lookup in Hp as [i Hi].
       eapply Forall2_lookup_l in Hi as (kv & _ & Hp); [|done]. apply Hp. }
  rewrite filter_all.
  2: { apply Forall_forall. intros p Hp. apply list_elem_of_lookup in Hp as [i Hi].
       eapply Forall2_lookup_l in Hi as (kv & _ & Hp); [|done]. apply Hp. }
  clear -Hps. induction Hps as [|p kv ps l Hp _ IH]; [done|]. cbn. f_equal; [apply Hp|exact IH].
Qed.
Lemma piece_pair f g k v :
  decodes f → decodes g → wellFormed k = true → wellFormed v = true → k ≠ [] →
  piece (concat (f <$> encode k) ++ cEq :: concat (g <$> encode v)) (k, v).
Proof.
  intros Hf Hg Hk Hv Hne. pose proof (encoded_word f k Hf Hk) as Hqk. pose proof (encoded_word g v Hg Hv) as Hqv.
  assert (Hkne : concat (f <$> encode k) ≠ []).
  { intros Hz. pose proof (formDecode_encoded f k Hf Hk) as Hd. rewrite Hz in Hd. by rewrite <- Hd in Hne. }
  split.
  - apply Forall_app. split; [|constructor; [done|]]; (eapply Forall_impl; [eassumption|]); by intros ? [? _].
  - rewrite not_elem_of_app, not_elem_of_cons. split_and!; [|done|]; (eapply quiet_no; [by left|done]).
  - destruct (concat (f <$> encode k)) as [|c t]; [done|]. cbn. intros [= ->].
    apply Forall_cons in Hqk as [(_ & _ & _ & Hq & _) _]. done.
  - by destruct (concat (f <$> encode k)).
  - by apply pieceOf_pair.
Qed.
(** [URLSearchParams] reads back what it printed. *)
Lemma parse_toString l :
  l ≠ [] → Forall (λ e, wellFormed e.1 = true ∧ wellFormed e.2 = true ∧ e.1 ≠ []) l → parseForm (toString l) = l.
Proof.
  intros Hne Hl. unfold toString. apply parse_pieces; [by destruct l|].
  clear Hne. induction Hl as [|[k v] l (Hk & Hv & Hn) _ IH]; constructor; [|done].
  by apply piece_pair; [apply form_decodes..| | |].
Qed.
End Form.

Module Links.
Import Form.

(** What [new URL(s)] gives; the parser is the platform's. *)
Record URL := { protocol : jstr; host : jstr; hostname : jstr }.
Inductive LinkError := InvalidURL | NotHttp | UsernameRequired | TokenRequired | NotALink | MissingParts.
Record ServerOrigin := { href : jstr; insecureRemote : bool }.
Record SetupLink := { sl_server : jstr; sl_user : jstr; sl_vault : option jstr }.
Record TokenLink := { tl_server : jstr; tl_token : jstr }.
Record Grant := { g_owner : jstr; g_vault : jstr; g_perm : jstr }.
Inductive ShareGrantStatus := NotShared | Revoked | Active (readOnly : bool).
Inductive RedeemError := SetUpFirst (server : jstr) | BadAddress | OtherServer (link device : jstr).

Section Links.
Context (lowerCase : jstr → jstr) (parseURL : jstr → option URL).

Definition urlIsInsecureRemote (u : URL) : bool :=
  if negb (protocol u === js "http:") then false
  else
    let h := lowerCase (hostname u) in
    negb ((h === js "localhost") || (h === js "127.0.0.1") || (h === js "::1") || ends_with h (js ".localhost")).
Definition parseServerOrigin (server : jstr) : res LinkError ServerOrigin :=
  match parseURL server with
  | None => Throw InvalidURL
  | Some u =>
      if negb (protocol u === js "http:") && negb (protocol u === js "https:") then Throw NotHttp
      else Ok {| href := protocol u ++ js "//" ++ host u; insecureRemote := urlIsInsecureRemote u |}
  end.
Definition normalizeServer (server : jstr) : res LinkError jstr :=
  match parseServerOrigin server with Ok o => Ok (href o) | Throw e => Throw e end.
Definition isInsecureRemote (server : jstr) : bool :=
  match parseURL server with Some u => urlIsInsecureRemote u | None => false end.

(** [scheme] with a verb and the parameters after a question mark. *)
Definition linkText (scheme verb : jstr) (p : list (jstr * jstr)) : jstr := scheme ++ verb ++ cQuery :: toString p.
(** The parameters after the first question mark. *)
Definition paramsOf (trimmed : jstr) : list (jstr * jstr) :=
  parseForm (match index_of cQuery trimmed with Some i => drop (S i) trimmed | None => [] end).

(** ** The setup link *)
Definition SETUP : jstr := js "selfsync://".
Definition encodeSetupLink (l : SetupLink) : res LinkError jstr :=
  if negb (truthy (sl_user l)) then Throw UsernameRequired
  else
    match normalizeServer (sl_server l) with
    | Throw e => Throw e
    | Ok server =>
        let p := [(js "server", server); (js "user", sl_user l)] in
        let p := match sl_vault l with Some v => if truthy v then setParam p (js "vault") v else p | None => p end in
        Ok (linkText SETUP (js "connect") p)
    end.
Definition parseSetupLink (s : jstr) : res LinkError SetupLink :=
  let trimmed := trim s in
  if negb (starts_with trimmed SETUP) then Throw NotALink
  else
    let params := paramsOf trimmed in
    let server := default [] (getParam params (js "server")) in
    let user := default [] (getParam params (js "user")) in
    let vault := getParam params (js "vault") in
    if negb (truthy server) || negb (truthy user) then Throw MissingParts
    else
      match normalizeServer server with
      | Throw e => Throw e
      | Ok server =>
          Ok {| sl_server := server; sl_user := user;
                sl_vault := match vault with Some v => if truthy v then Some v else None | None => None end |}
      end.

(** ** Links that carry a token *)
Definition SHARE : jstr := js "selfsync-share://".
Definition INVITE : jstr := js "selfsync-invite://".
Definition encodeTokenLink (scheme verb : jstr) (l : TokenLink) : res LinkError jstr :=
  if negb (truthy (tl_token l)) then Throw TokenRequired
  else match normalizeServer (tl_server l) with
       | Throw e => Throw e
       | Ok server => Ok (linkText scheme verb [(js "server", server); (js "token", tl_token l)])
       end.
Definition parseTokenLink (scheme : jstr) (s : jstr) : res LinkError TokenLink :=
  let trimmed := trim s in
  if negb (starts_with trimmed scheme) then Throw NotALink
  else
    let params := paramsOf trimmed in
    let server := default [] (getParam params (js "server")) in
    let token := default [] (getParam params (js "token")) in
    if negb (truthy server) || negb (truthy token) then Throw MissingParts
    else match normalizeServer server with
         | Throw e => Throw e
         | Ok server => Ok {| tl_server := server; tl_token := token |}
         end.
Definition encodeShareLink : TokenLink → res LinkError jstr := encodeTokenLink SHARE (js "redeem").
Definition parseShareLink : jstr → res LinkError TokenLink := parseTokenLink SHARE.
Definition isShareLink (s : jstr) : bool := starts_with (trim s) SHARE.
Definition encodeInviteLink : TokenLink → res LinkError jstr := encodeTokenLink INVITE (js "register").
Definition parseInviteLink : jstr → res LinkError TokenLink := parseTokenLink INVITE.
Definition isInviteLink (s : jstr) : bool := starts_with (trim s) INVITE.

(** ** Grants *)
Definition resolveShareGrant (grants : list Grant) (owner vault : jstr) : ShareGrantStatus :=
  if negb (truthy owner) then NotShared
  else match List.find (λ g, (g_owner g === owner) && (g_vault g === vault)) grants with
       | None => Revoked
       | Some g => Active (negb (g_perm g === js "readWrite"))
       end.
Definition redeemTargetError (linkServer deviceServer : jstr) : option RedeemError :=
  if negb (truthy deviceServer) then Some (SetUpFirst linkServer)
  else match normalizeServer linkServer, normalizeServer deviceServer with
       | Ok a, Ok b => if negb (a === b) then Some (OtherServer a b) else None
       | _, _ => Some BadAddress
       end.

(** ** Round trips *)
(** The canonical origin of an origin is itself, and it is plain text. *)
Context (origin_stable : ∀ s o, normalizeServer s = Ok o → normalizeServer o = Ok o ∧ wellFormed o = true).

Lemma trim_plain s : Forall (λ c, is_ws c = false) s → trim s = s.
Proof.
  intros Hs. assert (Hd : ∀ t, Forall (λ c, is_ws c = false) t → drop_while is_ws t = t).
  { intros t Ht. destruct Ht as [|c t Hc _]; [done|]. cbn. by rewrite Hc. }
  unfold trim, trim_end, trim_start. rewrite (Hd s Hs), Hd by (by apply Forall_reverse). apply reverse_involutive.
Qed.
Lemma toString_quiet l :
  Forall (λ e, wellFormed e.1 = true ∧ wellFormed e.2 = true) l → Forall (λ c, is_ws c = false) (toString l).
Proof.
  unfold toString. induction 1 as [|[k v] l [Hk Hv] _ IH]; [constructor|].
  assert (Hf : Forall (λ c, is_ws c = false) (field (k, v))).
  { unfold field. apply Forall_app. split; [|constructor; [done|]];
      (eapply Forall_impl; [by apply (encoded_word formByte); [apply form_decodes|]|]); by intros ? (_ & _ & _ & _ & ?). }
  destruct l as [|e l]; [exact Hf|]. rewrite fmap_cons. cbn [join_with]. apply Forall_app. split; [exact Hf|].
  constructor; [done|exact IH].
Qed.
Definition wfParams (l : list (jstr * jstr)) : Prop :=
  l ≠ [] ∧ Forall (λ e, wellFormed e.1 = true ∧ wellFormed e.2 = true ∧ e.1 ≠ []) l.
Definition plainText (s : jstr) : bool := forallb (λ c, negb (is_ws c) && negb (c =? cQuery)%N) s.
Lemma linkText_reads scheme verb l :
  plainText (scheme ++ verb) = true → wfParams l →
  let s := linkText scheme verb l in trim s = s ∧ starts_with s scheme = true ∧ paramsOf s = l.
Proof.
  intros Hp [Hne Hl]. cbv zeta. unfold linkText. split_and!.
  - apply trim_plain. rewrite app_assoc. apply Forall_app. split.
    + unfold plainText in Hp. rewrite forallb_forall in Hp. apply Forall_forall. intros c Hc%list_elem_of_In.
      apply Hp in Hc. by bools.
    + constructor; [done|]. apply toString_quiet. eapply Forall_impl; [exact Hl|]. naive_solver.
  - apply starts_with_app.
  - unfold paramsOf. rewrite app_assoc, index_of_app.
    + rewrite drop_app, drop_ge, Nat.sub_succ_l, Nat.sub_diag by lia. cbn [app]. rewrite skipn_cons, drop_0.
      by apply parse_toString.
    + unfold plainText in Hp. rewrite forallb_forall in Hp. intros Hin%list_elem_of_In. apply Hp in Hin. bools. done.
Qed.
Lemma origin_nonempty s o : normalizeServer s = Ok o → o ≠ [].
Proof.
  unfold normalizeServer, parseServerOrigin. destruct (parseURL s) as [u|]; [|done].
  destruct (_ && _); [done|]. intros [= <-]. cbn. by destruct (protocol u).
Qed.

(** A setup link reads back as what it was made of, whatever characters the
    user name and the vault contain: the canonical server, the user and the
    vault, an empty vault name being no vault. *)
Theorem setup_link_roundtrip l s :
  wellFormed (sl_user l) = true → (∀ v, sl_vault l = Some v → wellFormed v = true) →
  encodeSetupLink l = Ok s →
  ∃ origin, normalizeServer (sl_server l) = Ok origin ∧
    parseSetupLink s = Ok {| sl_server := origin; sl_user := sl_user l;
      sl_vault := match sl_vault l with Some v => if truthy v then Some v else None | None => None end |}.
Proof using origin_stable.
  intros Hu Hv. unfold encodeSetupLink. destruct (truthy (sl_user l)) eqn:Htu; [|done]. cbn [negb].
  destruct (normalizeServer (sl_server l)) as [o|e] eqn:Ho; [|done]. intros [= <-]. exists o. split; [done|].
  destruct (origin_stable _ _ Ho) as [Hoo Hwo]. pose proof (origin_nonempty _ _ Ho) as Hone.
  set (vault := match sl_vault l with Some v => if truthy v then Some v else None | None => None end).
  set (p := match sl_vault l with Some v => _ | None => _ end).
  assert (Hp : p = [(js "server", o); (js "user", sl_user l)] ++ match vault with Some v => [(js "vault", v)] | None => [] end).
  { subst p vault. destruct (sl_vault l) as [v|]; [|done]. by destruct (truthy v). }
  assert (Hwf : Forall (λ e, wellFormed e.1 = true ∧ wellFormed e.2 = true ∧ e.1 ≠ []) p).
  { rewrite Hp. apply Forall_app. split; [repeat constructor; done|]. subst vault.
    destruct (sl_vault l) as [v|] eqn:He; [|constructor]. destruct (truthy v); [|constructor].
    specialize (Hv v eq_refl). repeat constructor; done. }
  assert (Hne : p ≠ []) by (by rewrite Hp).
  destruct (linkText_reads SETUP (js "connect") p eq_refl (conj Hne Hwf)) as (Htrim & Hstart & Hparams).
  unfold parseSetupLink. rewrite Htrim, Hstart, Hparams. cbn [negb]. cbv zeta.
  assert (Hget : getParam p (js "server") = Some o ∧ getParam p (js "user") = Some (sl_user l) ∧ getParam p (js "vault") = vault).
  { rewrite Hp. split_and!; [done|done|]. by destruct vault. }
  destruct Hget as (-> & -> & ->). cbn [from_option id]. rewrite (proj2 (truthy_true o)), Htu by done. cbn [negb orb]. rewrite Hoo.
  do 2 f_equal. subst vault. destruct (sl_vault l) as [v|]; [|done]. destruct (truthy v) eqn:Hv'; [by rewrite Hv'|done].
Qed.
Lemma token_link_reads scheme verb l s :
  plainText (scheme ++ verb) = true → wellFormed (tl_token l) = true → encodeTokenLink scheme verb l = Ok s →
  trim s = s ∧ starts_with s scheme = true ∧
  ∃ origin, normalizeServer (tl_server l) = Ok origin ∧
    parseTokenLink scheme s = Ok {| tl_server := origin; tl_token := tl_token l |}.
Proof using origin_stable.
  intros Hs Ht. unfold encodeTokenLink. destruct (truthy (tl_token l)) eqn:Htt; [|done]. cbn [negb].
  destruct (normalizeServer (tl_server l)) as [o|e] eqn:Ho; [|done]. intros [= <-].
  destruct (origin_stable _ _ Ho) as [Hoo Hwo]. pose proof (origin_nonempty _ _ Ho) as Hone.
  set (p := [(js "server", o); (js "token", tl_token l)]).
  assert (Hwf : wfParams p) by (split; [done|]; repeat constructor; done).
  destruct (linkText_reads scheme verb p Hs Hwf) as (Htrim & Hstart & Hparams). split_and!; [done..|].
  exists o. split; [done|]. unfold parseTokenLink. rewrite Htrim, Hstart, Hparams. cbn [negb]. cbv zeta.
  assert (Hget : getParam p (js "server") = Some o ∧ getParam p (js "token") = Some (tl_token l)) by done.
  destruct Hget as (-> & ->). cbn [from_option id]. by rewrite (proj2 (truthy_true o)), Htt, Hoo by done.
Qed.
Lemma other_scheme a b s : starts_with s a = true → starts_with s b = true → a `prefix_of` b ∨ b `prefix_of` a.
Proof. intros H1%bool_decide_eq_true H2%bool_decide_eq_true. eapply prefix_weak_total; done. Qed.

(** A share link and an invite link read back as the canonical server and the
    token they were made of, whatever the token contains, and neither is ever
    taken for the other kind or for a setup link: pasting one routes only to its
    own flow. *)
Theorem token_links_roundtrip l s :
  wellFormed (tl_token l) = true →
  (encodeShareLink l = Ok s →
     isShareLink s = true ∧ isInviteLink s = false ∧ parseSetupLink s = Throw NotALink ∧
     ∃ origin, normalizeServer (tl_server l) = Ok origin ∧ parseShareLink s = Ok {| tl_server := origin; tl_token := tl_token l |}) ∧
  (encodeInviteLink l = Ok s →
     isInviteLink s = true ∧ isShareLink s = false ∧ parseSetupLink s = Throw NotALink ∧
     ∃ origin, normalizeServer (tl_server l) = Ok origin ∧ parseInviteLink s = Ok {| tl_server := origin; tl_token := tl_token l |}).
Proof using origin_stable.
  assert (Hdiff : ∀ a b, bool_decide (a `prefix_of` b ∨ b `prefix_of` a) = false → starts_with s a = true → starts_with s b = false).
  { intros a b Hd Ha. apply bool_decide_eq_false in Hd. destruct (starts_with s b) eqn:Hb; [|done].
    exfalso. apply Hd. by eapply other_scheme. }
  intros Ht. split; intros Hs; apply token_link_reads in Hs as (Htrim & Hstart & Hread); try done;
    unfold isShareLink, isInviteLink, parseSetupLink; rewrite Htrim, Hstart.
  - rewrite (Hdiff SHARE INVITE eq_refl Hstart), (Hdiff SHARE SETUP eq_refl Hstart). split_and!; [done..|exact Hread].
  - rewrite (Hdiff INVITE SHARE eq_refl Hstart), (Hdiff INVITE SETUP eq_refl Hstart). split_and!; [done..|exact Hread].
Qed.

(** The read-only flag of a shared vault fails closed: the plugin may write to
    a vault shared by someone else only when the first grant the server lists
    for exactly that owner and vault says readWrite; without a grant the share
    is revoked, any other permission is read-only, and only an own vault needs
    no grant. *)
Theorem share_grant_fails_closed grants owner vault :
  (resolveShareGrant grants owner vault = Active false ↔
     owner ≠ [] ∧ ∃ i g, grants !! i = Some g ∧ g_owner g = owner ∧ g_vault g = vault ∧ g_perm g = js "readWrite" ∧
       ∀ j g', j < i → grants !! j = Some g' → ¬ (g_owner g' = owner ∧ g_vault g' = vault)) ∧
  (resolveShareGrant grants owner vault = Revoked ↔
     owner ≠ [] ∧ ∀ g, g ∈ grants → ¬ (g_owner g = owner ∧ g_vault g = vault)) ∧
  (resolveShareGrant grants owner vault = NotShared ↔ owner = []).
Proof.
  unfold resolveShareGrant. set (m := λ g, (g_owner g === owner) && (g_vault g === vault)).
  assert (Hm : ∀ g, m g = true ↔ g_owner g = owner ∧ g_vault g = vault).
  { intros g. unfold m. by rewrite andb_true_iff, !jeq_true. }
  assert (Hfind : match List.find m grants with
    | Some g => ∃ i, grants !! i = Some g ∧ m g = true ∧ ∀ j g', j < i → grants !! j = Some g' → m g' = false
    | None => ∀ g, g ∈ grants → m g = false end).
  { clearbody m. induction grants as [|g gs IH]; cbn; [intros g Hg; by apply not_elem_of_nil in Hg|].
    destruct (m g) eqn:Hg; [exists 0; split_and!; [done|done|intros; lia]|].
    destruct (List.find m gs) as [x|].
    - destruct IH as (i & Hi & Hx & Hb). exists (S i). split_and!; [done|done|]. intros [|j] g' Hj; cbn; [naive_solver|].
      apply Hb. lia.
    - intros x [->|Hx]%elem_of_cons; auto. }
  destruct owner as [|c t]; [cbn; naive_solver|]. cbn [truthy negb].
  change (negb (truthy (c :: t))) with false. cbv iota. set (owner := c :: t) in *.
  assert (Hown : owner ≠ []) by done.
  destruct (List.find m grants) as [g|].
  - destruct Hfind as (i & Hi & Hg & Hb). split_and!.
    + split.
      * intros [= Hp]. apply negb_false_iff, jeq_true in Hp. split; [done|]. apply Hm in Hg as [? ?]. exists i, g.
        split_and!; try done. intros j g' Hj Hg'. specialize (Hb j g' Hj Hg'). rewrite <- Hm. by rewrite Hb.
      * intros (_ & i' & g' & Hi' & Ho & Hv & Hp & Hb'). assert (i' = i) as ->.
        { destruct (Nat.lt_trichotomy i i') as [Hlt|[->|Hlt]]; [|done|].
          - exfalso. apply (Hb' i g Hlt Hi). by apply Hm.
          - specialize (Hb i' g' Hlt Hi'). assert (m g' = true) by (by apply Hm). congruence. }
        simplify_eq. rewrite Hp. done.
    + split; [done|]. intros [_ H]. exfalso. apply (H g); [by eapply list_elem_of_lookup_2|]. by apply Hm.
    + done.
  - split_and!; [|split; [|done]|done].
    + split; [done|]. intros (_ & i & g & Hi & Ho & Hv & _). exfalso.
      assert (m g = true) by (by apply Hm). rewrite Hfind in H; [done|by eapply list_elem_of_lookup_2].
    + intros _. split; [done|]. intros g Hg. rewrite <- Hm. by rewrite (Hfind g Hg).
Qed.
End Links.

(** ** Witnesses: a parser that accepts https origins *)
Definition toyURL (s : jstr) : option URL :=
  if starts_with s (js "https://") then
    let h := take (default (length (drop 8 s)) (index_of cSlash (drop 8 s))) (drop 8 s) in
    if wellFormed h then Some {| protocol := js "https:"; host := h; hostname := h |} else None
  else None.
Lemma index_of_None c s : c ∉ s → index_of c s = None.
Proof.
  induction s as [|x s IH]; [done|]. rewrite not_elem_of_cons. intros [Hx Hs]. cbn.
  rewrite decide_False by congruence. by rewrite IH.
Qed.
Lemma index_of_before c s : c ∉ take (default (length s) (index_of c s)) s.
Proof.
  induction s as [|x s IH]; cbn; [apply not_elem_of_nil|]. destruct (decide (x = c)) as [->|Hne]; [apply not_elem_of_nil|].
  destruct (index_of c s); cbn in *; rewrite not_elem_of_cons; (split; [congruence|exact IH]).
Qed.
Lemma toy_stable s o : normalizeServer id toyURL s = Ok o → normalizeServer id toyURL o = Ok o ∧ wellFormed o = true.
Proof.
  unfold normalizeServer, parseServerOrigin, toyURL at 1. destruct (starts_with s (js "https://")); [|done].
  pose proof (index_of_before cSlash (drop 8 s)) as Hno.
  set (h := take _ _) in *. destruct (wellFormed h) eqn:Hw; [|done]. intros Heq.
  assert (Ho : o = js "https://" ++ h) by (by inversion Heq). clear Heq. subst o.
  assert (Hd : drop 8 (js "https://" ++ h) = h) by done.
  split; [|exact Hw]. unfold toyURL.
  rewrite starts_with_app, Hd, index_of_None by exact Hno. cbn [from_option id]. by rewrite firstn_all, Hw.
Qed.
Definition demoLink : SetupLink :=
  {| sl_server := js "https://sync.example/x"; sl_user := js "ann & bob"; sl_vault := Some (js "a=b?") |}.
Lemma setup_link_roundtrip_witness :
  ∃ s, encodeSetupLink id toyURL demoLink = Ok s ∧
    parseSetupLink id toyURL s = Ok {| sl_server := js "https://sync.example"; sl_user := js "ann & bob"; sl_vault := Some (js "a=b?") |}.
Proof.
  destruct (encodeSetupLink id toyURL demoLink) as [s|e] eqn:Hs; [|exfalso; vm_compute in Hs; discriminate Hs].
  exists s. split; [reflexivity|].
  destruct (setup_link_roundtrip id toyURL toy_stable demoLink s) as (o & Ho & Hp);
    [vm_compute; reflexivity|intros v [= <-]; vm_compute; reflexivity|exact Hs|].
  assert (o = js "https://sync.example") as -> by (vm_compute in Ho; injection Ho as <-; reflexivity). exact Hp.
Defined.
Lemma token_links_roundtrip_witness :
  ∃ s, encodeShareLink id toyURL {| tl_server := js "https://h"; tl_token := js "t+/=" |} = Ok s ∧ isInviteLink s = false.
Proof.
  destruct (encodeShareLink id toyURL {| tl_server := js "https://h"; tl_token := js "t+/=" |}) as [s|e] eqn:Hs;
    [|exfalso; vm_compute in Hs; discriminate Hs].
  exists s. split; [reflexivity|].
  destruct (token_links_roundtrip id toyURL toy_stable {| tl_server := js "https://h"; tl_token := js "t+/=" |} s) as [H _];
    [vm_compute; reflexivity|]. apply (H Hs).
Defined.

(** [URL.hostname] of an IPv6 address keeps its brackets, so the allowlist's
    [::1] never matches: loopback over http is refused for [http://[::1]]. *)
Theorem ipv6_loopback_refused :
  urlIsInsecureRemote lower {| protocol := js "http:"; host := js "[::1]:8080"; hostname := js "[::1]" |} = true ∧
  urlIsInsecureRemote lower {| protocol := js "http:"; host := js "127.0.0.1:8080"; hostname := js "127.0.0.1" |} = false.
Proof. vm_compute. auto. Qed.
End Links.
