(* ===== verification/Recipe.v ===== *)
(** * Recipe: sharing a composition ([client/src/composition-recipe.ts])

    A recipe carries mounts as text: the codec, and the planner with which a
    reader imports them.  [lowerCase] and [nfc] are the runtime's, [parseURL] the
    URL parser: parameters. *)

From S2P Require Import Prelude Effects Paths Json Utf8 Jsonprint Links.

Module Recipe.
Import Paths.Mounts.

Inductive RecipeError := NoMounts | SignInFirst | BadServer (e : Links.LinkError) | NotARecipe | Malformed | NoValidMounts | TooLarge.
Record ParsedRecipe := { server : jstr; mounts : list Mount }.
Inductive RecipeItemStatus := Ready | NoAccess | SelfPrimary | Duplicate.
Record RecipePlanItem := {
  recipe : Mount; localSource : MountSource; status : RecipeItemStatus; writable : bool; suggestedDirection : MountDirection
}.
Record RecipeReaderContext := {
  myAccount : jstr; primaryOwner : jstr; primaryVault : jstr; grants : list Links.Grant; existingMounts : list Mount
}.

Definition SCHEME : jstr := js "selfsync-recipe://".
Definition MAX_MOUNTS : nat := 200.

Section Recipe.
Context (nfc lowerCase : jstr → jstr) (parseURL : jstr → option Links.URL).

(** ** The codec *)
Definition canonAccount (s : jstr) : jstr := lowerCase (trim s).
Definition orElse (a b : jstr) : jstr := if truthy a then a else b.
Definition directionName (d : MountDirection) : jstr := match d with Sync => js "sync" | Pull => js "pull" end.
Definition payload (selfAccount : jstr) (m : Mount) : json :=
  JObj [(js "owner", JStr (canonAccount (orElse (owner (source m)) selfAccount)));
        (js "vaultId", JStr (vaultId (source m)));
        (js "sourcePath", JStr (sourcePath (source m)));
        (js "mountPoint", JStr (mountPoint m));
        (js "direction", JStr (directionName (direction m)))].
Definition encodeCompositionRecipe (ms : list Mount) (server selfAccount : jstr) : res RecipeError jstr :=
  let payloads := payload selfAccount <$> ms in
  if length payloads =? 0 then Throw NoMounts
  else if negb (truthy selfAccount) then Throw SignInFirst
  else match Links.normalizeServer lowerCase parseURL server with
       | Throw e => Throw (BadServer e)
       | Ok server => Ok (Links.linkText SCHEME (js "import") [(js "server", server); (js "mounts", stringify (JArr payloads))])
       end.
Definition isCompositionRecipe (s : jstr) : bool := starts_with (trim s) SCHEME.
(** A property of a parsed object: of a repeated key the last counts. *)
Definition prop (l : list (jstr * json)) (k : jstr) : option json := snd <$> List.find (λ e, e.1 === k) (reverse l).
Definition strProp (l : list (jstr * json)) (k : jstr) : jstr := match prop l k with Some (JStr s) => s | _ => [] end.
Definition recipeMountFrom (e : json) : option Mount :=
  match e with
  | JObj m =>
      let own := strProp m (js "owner") in
      let vault := strProp m (js "vaultId") in
      let mp := normMountFolder (strProp m (js "mountPoint")) in
      if negb (truthy own) || negb (truthy vault) || negb (truthy mp) then None
      else Some {| source := {| owner := own; vaultId := vault; sourcePath := normMountFolder (strProp m (js "sourcePath")) |};
                   mountPoint := mp;
                   direction := match prop m (js "direction") with
                                | Some (JStr d) => if d === js "sync" then Sync else Pull
                                | _ => Pull
                                end |}
  | _ => None
  end.
Definition recipeMountsFrom (raw : json) : list Mount := match raw with JArr l => omap recipeMountFrom l | _ => [] end.
Definition parseCompositionRecipe (s : jstr) : res RecipeError ParsedRecipe :=
  let trimmed := trim s in
  if negb (starts_with trimmed SCHEME) then Throw NotARecipe
  else
    let params := Links.paramsOf trimmed in
    let server := default [] (Form.getParam params (js "server")) in
    match parse (default [] (Form.getParam params (js "mounts"))) with
    | None => Throw Malformed
    | Some raw =>
        let ms := recipeMountsFrom raw in
        if length ms =? 0 then Throw NoValidMounts
        else if MAX_MOUNTS <? length ms then Throw TooLarge
        else if truthy server then
               match Links.normalizeServer lowerCase parseURL server with
               | Ok o => Ok {| server := o; mounts := ms |} | Throw e => Throw (BadServer e) end
             else Ok {| server := []; mounts := ms |}
    end.

(** ** The import planner *)
Definition isOwn (ctx : RecipeReaderContext) (m : Mount) : bool :=
  truthy (canonAccount (myAccount ctx)) && (canonAccount (owner (source m)) === canonAccount (myAccount ctx)).
Definition grantOf (ctx : RecipeReaderContext) (m : Mount) : option Links.Grant :=
  List.find (λ g, (canonAccount (Links.g_owner g) === canonAccount (owner (source m))) && (Links.g_vault g === vaultId (source m)))
    (grants ctx).
Definition sameMount (local : MountSource) (m o : Mount) : bool :=
  (canonAccount (owner (source o)) === owner local) && (vaultId (source o) === vaultId local) &&
  (canonFolder nfc lowerCase (sourcePath (source o)) === canonFolder nfc lowerCase (sourcePath local)) &&
  (canonFolder nfc lowerCase (mountPoint o) === canonFolder nfc lowerCase (mountPoint m)).
Definition planItem (ctx : RecipeReaderContext) (m : Mount) : RecipePlanItem :=
  let own := isOwn ctx m in
  let localOwner := if own then [] else canonAccount (owner (source m)) in
  let local := {| owner := localOwner; vaultId := vaultId (source m); sourcePath := sourcePath (source m) |} in
  let g := grantOf ctx m in
  let accessible := own || bool_decide (is_Some g) in
  let writable := own || match g with Some g => Links.g_perm g === js "readWrite" | None => false end in
  {| recipe := m; localSource := local; writable := writable;
     suggestedDirection := if own && bool_decide (direction m = Sync) then Sync else Pull;
     status :=
       if negb accessible then NoAccess
       else if (localOwner === canonAccount (primaryOwner ctx)) && (vaultId (source m) === primaryVault ctx) then SelfPrimary
       else if existsb (sameMount local m) (existingMounts ctx) then Duplicate
       else Ready |}.
Definition planRecipeImport (ms : list Mount) (ctx : RecipeReaderContext) : list RecipePlanItem := planItem ctx <$> ms.
Definition mountFromPlanItem (item : RecipePlanItem) (mp : jstr) (d : MountDirection) : Mount :=
  {| source := {| owner := owner (localSource item); vaultId := vaultId (localSource item);
                  sourcePath := normMountFolder (sourcePath (localSource item)) |};
     mountPoint := normMountFolder mp;
     direction := if bool_decide (d = Sync) && writable item then Sync else Pull |}.

(** ** What a reader may import *)
Definition mayWrite (ctx : RecipeReaderContext) (m : Mount) : Prop :=
  isOwn ctx m = true ∨ ∃ g, grantOf ctx m = Some g ∧ Links.g_perm g = js "readWrite".
Definition mayRead (ctx : RecipeReaderContext) (m : Mount) : Prop :=
  isOwn ctx m = true ∨ is_Some (grantOf ctx m).
Lemma writable_spec ctx m : writable (planItem ctx m) = true ↔ mayWrite ctx m.
Proof.
  cbn. unfold mayWrite. rewrite orb_true_iff. f_equiv. destruct (grantOf ctx m) as [g|]; [|naive_solver].
  rewrite jeq_true. naive_solver.
Qed.

(** C31: Importing a recipe fails closed: an entry is offered only when its source is
    the reader's own or was granted to the reader, is not the primary vault and
    duplicates no mount; a source of someone else is offered read-only whatever
    the recipe asks; and however the reader edits the entry, the mount that
    results writes to its source only if it is the reader's own or granted
    readWrite.  Nothing but the source, the folder and the direction of the entry
    enters the mount. *)
Theorem import_fails_closed ctx ms item mp d :
  item ∈ planRecipeImport ms ctx →
  ∃ m, m ∈ ms ∧ recipe item = m ∧
    (status item = Ready → mayRead ctx m ∧
       ¬ (owner (localSource item) = canonAccount (primaryOwner ctx) ∧ vaultId (source m) = primaryVault ctx) ∧
       ∀ o, o ∈ existingMounts ctx → sameMount (localSource item) m o = false) ∧
    (suggestedDirection item = Sync → isOwn ctx m = true ∧ direction m = Sync) ∧
    (direction (mountFromPlanItem item mp d) = Sync → d = Sync ∧ mayWrite ctx m).
Proof.
  unfold planRecipeImport. intros (m & -> & Hm)%list_elem_of_fmap. exists m. split_and!; [done|done| | |].
  - cbn. destruct (negb _) eqn:Ha; [done|]. destruct (_ && _) eqn:Hp; [done|]. destruct (existsb _ _) eqn:Hd; [done|].
    intros _. split_and!.
    + apply negb_false_iff, orb_true_iff in Ha. unfold mayRead. rewrite bool_decide_eq_true in Ha. exact Ha.
    + intros [Ho Hv]. apply andb_false_iff in Hp. rewrite !jeq_false in Hp. by destruct Hp.
    + intros o Ho. destruct (sameMount _ _ _) eqn:Hs; [|done]. rewrite <- Hd. symmetry. apply existsb_exists.
      exists o. split; [by apply list_elem_of_In|done].
  - cbn. destruct (isOwn ctx m); [|done]. by case_bool_decide.
  - unfold mountFromPlanItem. cbn [direction]. case_bool_decide; [|done]. cbn [andb].
    destruct (writable (planItem ctx m)) eqn:Hw; [|done]. by rewrite writable_spec in Hw.
Qed.

(** ** The round trip *)
Context (origin_stable : ∀ s o, Links.normalizeServer lowerCase parseURL s = Ok o → Links.normalizeServer lowerCase parseURL o = Ok o ∧ wellFormed o = true).
(** The mount as the recipe carries it: its owner spelled out. *)
Definition absolute (selfAccount : jstr) (m : Mount) : Mount :=
  {| source := {| owner := canonAccount (orElse (owner (source m)) selfAccount);
                  vaultId := vaultId (source m); sourcePath := sourcePath (source m) |};
     mountPoint := mountPoint m; direction := direction m |}.
(** What the settings hold: folders in normal form, a source, text. *)
Record sound (selfAccount : jstr) (m : Mount) : Prop := {
  sound_owner : canonAccount (orElse (owner (source m)) selfAccount) ≠ [];
  sound_vault : vaultId (source m) ≠ [];
  sound_folder : normMountFolder (mountPoint m) = mountPoint m ∧ mountPoint m ≠ [];
  sound_path : normMountFolder (sourcePath (source m)) = sourcePath (source m);
  sound_text : utf16 (canonAccount (orElse (owner (source m)) selfAccount)) ∧ utf16 (vaultId (source m)) ∧
               utf16 (sourcePath (source m)) ∧ utf16 (mountPoint m)
}.
Lemma payload_reads self m : sound self m → recipeMountFrom (payload self m) = Some (absolute self m).
Proof.
  intros [Ho Hv [Hf Hne] Hp _]. unfold payload, recipeMountFrom. cbv zeta.
  set (l := [_; _; _; _; _]).
  assert (strProp l (js "owner") = canonAccount (orElse (owner (source m)) self)) as -> by done.
  assert (strProp l (js "vaultId") = vaultId (source m)) as -> by done.
  assert (strProp l (js "mountPoint") = mountPoint m) as -> by done.
  assert (strProp l (js "sourcePath") = sourcePath (source m)) as -> by done.
  assert (prop l (js "direction") = Some (JStr (directionName (direction m)))) as -> by done.
  rewrite Hf, Hp. rewrite !(proj2 (truthy_true _)) by done. cbn [negb orb]. unfold absolute. do 2 f_equal.
  by destruct (direction m).
Qed.
Lemma payload_printable self m : sound self m → printable (payload self m).
Proof.
  intros [_ _ _ _ (H1 & H2 & H3 & H4)].
  assert (Hlit : ∀ s, forallb (λ c, (c <? 65536)%N) s = true → utf16 s).
  { intros s Hs. rewrite forallb_forall in Hs. apply Forall_forall. intros c Hc%list_elem_of_In. apply N.ltb_lt. by apply Hs. }
  cbn. split_and!; try done; try (by apply Hlit). by destruct (direction m); apply Hlit.
Qed.
Lemma omap_fmap {A B C} (f : B → option C) (g : A → B) (h : A → C) l :
  Forall (λ x, f (g x) = Some (h x)) l → omap f (g <$> l) = h <$> l.
Proof. induction 1 as [|x l Hx _ IH]; [done|]. cbn. by rewrite Hx, IH. Qed.

Lemma parse_encoded ms server_ self s :
  Forall (sound self) ms → encodeCompositionRecipe ms server_ self = Ok s →
  isCompositionRecipe s = true ∧
  ∃ origin, Links.normalizeServer lowerCase parseURL server_ = Ok origin ∧
    parseCompositionRecipe s =
      if MAX_MOUNTS <? length ms then Throw TooLarge else Ok {| server := origin; mounts := absolute self <$> ms |}.
Proof using origin_stable.
  intros Hs. unfold encodeCompositionRecipe. cbv zeta. rewrite length_fmap.
  destruct (Nat.eqb_spec (length ms) 0) as [|Hne]; [done|]. destruct (negb (truthy self)); [done|].
  destruct (Links.normalizeServer lowerCase parseURL server_) as [o|] eqn:Ho; [|done]. intros Heq.
  assert (s = Links.linkText SCHEME (js "import") [(js "server", o); (js "mounts", stringify (JArr (payload self <$> ms)))])
    as -> by congruence. clear Heq.
  destruct (origin_stable _ _ Ho) as [Hoo Hwo]. pose proof (Links.origin_nonempty lowerCase parseURL _ _ Ho) as Hone.
  assert (Hpr : printable (JArr (payload self <$> ms))).
  { apply printable_arr, Forall_fmap. eapply Forall_impl; [exact Hs|]. intros m. apply payload_printable. }
  set (text := stringify (JArr (payload self <$> ms))). assert (Hwf : Links.wfParams [(js "server", o); (js "mounts", text)]).
  { split; [done|]. repeat constructor; try done. by apply stringify_wellFormed. }
  destruct (Links.linkText_reads lowerCase parseURL origin_stable SCHEME (js "import") _ eq_refl Hwf) as (Htrim & Hstart & Hparams).
  unfold isCompositionRecipe, parseCompositionRecipe. cbv zeta. rewrite Htrim, Hstart, Hparams. split; [done|].
  exists o. split; [done|]. cbn [negb].
  assert (Form.getParam [(js "server", o); (js "mounts", text)] (js "server") = Some o) as -> by done.
  assert (Form.getParam [(js "server", o); (js "mounts", text)] (js "mounts") = Some text) as -> by done.
  cbn [from_option id]. unfold text. rewrite Jsonprint.parse_stringify_value by done.
  assert (Hms : recipeMountsFrom (JArr (payload self <$> ms)) = absolute self <$> ms).
  { apply omap_fmap. eapply Forall_impl; [exact Hs|]. apply payload_reads. }
  rewrite Hms, length_fmap. destruct (Nat.eqb_spec (length ms) 0); [done|].
  destruct (MAX_MOUNTS <? length ms); [done|]. by rewrite (proj2 (truthy_true o)), Hoo by done.
Qed.

(** C30: A recipe reads back as the mounts it was made of: for any composition of at
    most 200 mounts as the settings hold them, whatever characters their names
    contain, the text the plugin prints is recognised as a recipe and parses to
    the canonical server and exactly those mounts, in order, with the owner of an
    own vault spelled out; it contains nothing else. *)
Theorem recipe_roundtrip ms server_ self s :
  Forall (sound self) ms → length ms ≤ MAX_MOUNTS →
  encodeCompositionRecipe ms server_ self = Ok s →
  isCompositionRecipe s = true ∧
  ∃ origin, Links.normalizeServer lowerCase parseURL server_ = Ok origin ∧
    parseCompositionRecipe s = Ok {| server := origin; mounts := absolute self <$> ms |}.
Proof using origin_stable.
  intros Hs Hmax He. destruct (parse_encoded ms server_ self s Hs He) as (Hi & o & Ho & Hp). split; [done|].
  exists o. split; [done|]. rewrite Hp. by destruct (Nat.ltb_spec MAX_MOUNTS (length ms)); [lia|].
Qed.
(** The encoder has no limit: a recipe of more than 200 mounts is printed and
    cannot be read. *)
Lemma large_recipe_unreadable ms server_ self s :
  Forall (sound self) ms → MAX_MOUNTS < length ms → encodeCompositionRecipe ms server_ self = Ok s →
  parseCompositionRecipe s = Throw TooLarge.
Proof using origin_stable.
  intros Hs Hmax He. destruct (parse_encoded ms server_ self s Hs He) as (_ & o & _ & ->).
  by destruct (Nat.ltb_spec MAX_MOUNTS (length ms)); [|lia].
Qed.

(** ** The reader who is the writer *)
Context (lower_idem : ∀ s, lowerCase (lowerCase s) = lowerCase s) (lower_trim : ∀ s, trim s = s → trim (lowerCase s) = lowerCase s).
Lemma canonAccount_idem s : canonAccount (canonAccount s) = canonAccount s.
Proof using lower_idem lower_trim. unfold canonAccount. by rewrite lower_trim, lower_idem by apply trim_trim. Qed.

(** A composition of own vaults survives the journey to another device of the
    same account, whatever the case its user typed the account name in: every
    entry of the parsed recipe is accessible and writable, its source is the
    reader's own vault again, the direction offered is the original one, and
    applying the entry unedited gives back the mount itself. *)
Theorem own_import_restores self ctx m :
  sound self m → owner (source m) = [] →
  canonAccount (myAccount ctx) = canonAccount self →
  let item := planItem ctx (absolute self m) in
  status item ≠ NoAccess ∧ writable item = true ∧ localSource item = source m ∧ suggestedDirection item = direction m ∧
  mountFromPlanItem item (mountPoint m) (suggestedDirection item) = m.
Proof using lower_idem lower_trim.
  intros [Ho Hv [Hf Hne] Hp _] Hown Hacc. cbv zeta. unfold orElse in Ho. rewrite Hown in Ho. cbn in Ho.
  assert (Hi : isOwn ctx (absolute self m) = true).
  { unfold isOwn, absolute. cbn [source owner]. unfold orElse. rewrite Hown. cbn [truthy]. rewrite Hacc.
    rewrite canonAccount_idem. rewrite (proj2 (truthy_true _)) by done. by apply jeq_true. }
  unfold mountFromPlanItem, planItem. cbv zeta. rewrite Hi. cbn [status writable localSource suggestedDirection orb negb andb].
  cbn [absolute source vaultId sourcePath direction owner mountPoint] in *. rewrite Hf, Hp.
  destruct m as [[w v p] mp d]. cbn in *. subst w. split_and!; try done; [|by destruct d|].
  - repeat case_match; done.
  - f_equal. by destruct d.
Qed.
End Recipe.

(** ** Witnesses *)
Definition ownMount : Mount :=
  {| source := {| owner := []; vaultId := js "v & 1"; sourcePath := js "A+B" |}; mountPoint := js "Work/ASI"; direction := Sync |}.
(** Its vault's name ends in a lone surrogate. *)
Definition oddMount : Mount :=
  {| source := {| owner := js "ann"; vaultId := js "a=" ++ [55296%N]; sourcePath := [] |}; mountPoint := js "Team"; direction := Pull |}.
Definition demoMounts : list Mount := [ownMount; oddMount].
Lemma utf16_dec s : forallb (λ c, (c <? 65536)%N) s = true → utf16 s.
Proof. intros Hs. rewrite forallb_forall in Hs. apply Forall_forall. intros c Hc%list_elem_of_In. by apply N.ltb_lt, Hs. Qed.
Lemma demo_sound : Forall (sound id (js "bob")) demoMounts.
Proof.
  repeat constructor; try (vm_compute; discriminate); try (apply utf16_dec; vm_compute; reflexivity);
    try (apply (bool_decide_unpack _); vm_compute; exact Logic.I).
Qed.
Lemma recipe_roundtrip_witness : ∃ s,
  encodeCompositionRecipe id Links.toyURL demoMounts (js "https://sync.example/x") (js "bob") = Ok s ∧
  parseCompositionRecipe id Links.toyURL s = Ok {| server := js "https://sync.example"; mounts := absolute id (js "bob") <$> demoMounts |}.
Proof.
  destruct (encodeCompositionRecipe id Links.toyURL demoMounts (js "https://sync.example/x") (js "bob")) as [s|e] eqn:Hs;
    [|exfalso; vm_compute in Hs; discriminate Hs].
  exists s. split; [reflexivity|].
  destruct (recipe_roundtrip id Links.toyURL Links.toy_stable demoMounts (js "https://sync.example/x") (js "bob") s demo_sound) as (_ & o & Ho & Hp);
    [vm_compute; lia|exact Hs|].
  assert (o = js "https://sync.example") as -> by (vm_compute in Ho; injection Ho as <-; reflexivity). exact Hp.
Defined.
Definition demoReader : RecipeReaderContext :=
  {| myAccount := js "bob"; primaryOwner := []; primaryVault := js "main";
     grants := [{| Links.g_owner := js "ann"; Links.g_vault := js "a=" ++ [55296%N]; Links.g_perm := js "read" |}]; existingMounts := [] |}.
Definition demoItem : RecipePlanItem := planItem id id demoReader (absolute id (js "bob") ownMount).
Lemma import_fails_closed_witness :
  direction (mountFromPlanItem demoItem (js "Here") Sync) = Sync ∧ mayWrite id demoReader (absolute id (js "bob") ownMount).
Proof.
  split; [vm_compute; reflexivity|].
  destruct (import_fails_closed id id demoReader (absolute id (js "bob") <$> demoMounts) demoItem (js "Here") Sync)
    as (m & _ & Hm & _ & _ & Hw); [left|]. rewrite <- Hm in Hw. apply Hw. vm_compute. reflexivity.
Defined.
Lemma own_import_restores_witness :
  mountFromPlanItem demoItem (js "Work/ASI") (suggestedDirection demoItem) = ownMount.
Proof.
  destruct (own_import_restores id id (λ _, eq_refl) (λ _ H, H) (js "bob") demoReader ownMount) as (_ & _ & _ & _ & H).
  - apply Forall_inv with (l := [oddMount]). exact demo_sound.
  - reflexivity.
  - reflexivity.
  - exact H.
Defined.
End Recipe.
