(* ===== verification/Configsync.v ===== *)
(** * Configsync: which paths sync ([client/src/configsync.ts] and the scope gates
    of [client/src/main.ts])

    [Config] decides per path; [Scope] composes it with the mount boundary and
    the foreign artefacts, as the vault adapter and the reconciler ask it. *)

From S2P Require Import Prelude Regex Jsmap Json Paths Foreigntools.

Module Config.

Inductive ConfigDirection := Download | Upload.
Record ConfigSyncSelection := {
  enabled : bool; core : bool; community : bool; appearance : bool; snippets : bool; hotkeys : bool;
  pluginAllow : list jstr; pluginDir : list (jstr * ConfigDirection)
}.
Definition DEFAULT_CONFIG_SYNC : ConfigSyncSelection :=
  {| enabled := false; core := true; hotkeys := true; appearance := true; snippets := true;
     community := false; pluginAllow := []; pluginDir := [] |}.
Definition CONFIG_PREFIX : jstr := js ".obsidian/".
Definition LEGACY_SELF_IDS : list jstr := [js "new-livesync"].
(** [s.slice(p.length)] after [s.startsWith(p)]; [None] when it does not. *)
Definition after (p s : jstr) : option jstr := if starts_with s p then Some (drop (length p) s) else None.
(** [s.split("/")[0]] *)
Definition firstSeg (s : jstr) : jstr := default [] (head (split_on cSlash s)).

Definition known : list (jstr * jstr) := [
  (js "community-plugins.json", js "Enabled community plugins");
  (js "core-plugins.json", js "Enabled core plugins");
  (js "app.json", js "App settings");
  (js "appearance.json", js "Appearance & theme");
  (js "hotkeys.json", js "Hotkeys");
  (js "graph.json", js "Graph settings");
  (js "canvas.json", js "Canvas settings")].
Definition configFileLabel (path : jstr) : jstr :=
  let rel := default path (after CONFIG_PREFIX path) in
  match jget known rel with
  | Some l => l
  | None =>
      match after (js "themes/") rel with
      | Some r => js "Theme: " ++ firstSeg r
      | None => match after (js "snippets/") rel with
                | Some r => js "CSS snippet: " ++ r
                | None => rel
                end
      end
  end.
Definition pluginIdOf (path : jstr) : option jstr :=
  match after CONFIG_PREFIX path with
  | None => None
  | Some rest =>
      match after (js "plugins/") rest with
      | None => None
      | Some r => let id := firstSeg r in if truthy id then Some id else None
      end
  end.

Record ConflictGroup := { gkey : jstr; glabel : jstr; gpaths : list jstr }.
Definition groupKey (p : jstr) : jstr * jstr :=
  match pluginIdOf p with
  | Some id => (js "plugin:" ++ id, js "Plugin: " ++ id)
  | None => (js "file:" ++ p, configFileLabel p)
  end.
Definition addConflict (m : list (jstr * ConflictGroup)) (p : jstr) : list (jstr * ConflictGroup) :=
  let '(key, label) := groupKey p in
  let g := default {| gkey := key; glabel := label; gpaths := [] |} (jget m key) in
  jset m key {| gkey := gkey g; glabel := glabel g; gpaths := gpaths g ++ [p] |}.
(** [sort] is stable; [localeCompare] is the engine's collation. *)
Section Sorted.
Context (localeCompare : jstr → jstr → Z).
Fixpoint insertGroup (g : ConflictGroup) (l : list ConflictGroup) : list ConflictGroup :=
  match l with
  | [] => [g]
  | h :: l' => if (localeCompare (glabel g) (glabel h) <=? 0)%Z then g :: l else h :: insertGroup g l'
  end.
Definition groupConfigConflicts (paths : list jstr) : list ConflictGroup :=
  foldr insertGroup [] (snd <$> foldl addConflict [] paths).
End Sorted.

Inductive ConfigSurface := Core | Hotkeys | Appearance | Snippets | Community.
Definition configSurfaceOf (path : jstr) : option ConfigSurface :=
  match after CONFIG_PREFIX path with
  | None => None
  | Some p =>
      if (p === js "app.json") || (p === js "core-plugins.json") then Some Core
      else if p === js "hotkeys.json" then Some Hotkeys
      else if (p === js "appearance.json") || starts_with p (js "themes/") then Some Appearance
      else if starts_with p (js "snippets/") then Some Snippets
      else if (p === js "community-plugins.json") || starts_with p (js "plugins/") then Some Community
      else None
  end.

Inductive Side := Local | Remote.
Inductive ConfigAdjudication := Auto (choice : Side) | Manual.
Definition configAutoResolveChoice (reason : jstr) (surface : option ConfigSurface) (dir : option ConfigDirection)
    : option Side :=
  if negb (reason === js "conflict-copy") then None
  else match surface, dir with
       | Some _, Some Download => Some Remote
       | Some _, Some Upload => Some Local
       | _, _ => None
       end.
Definition adjudicateConfigConflict (reason : jstr) (surface : option ConfigSurface) (dir : option ConfigDirection)
    : ConfigAdjudication :=
  match configAutoResolveChoice reason surface dir with Some c => Auto c | None => Manual end.

Definition isEnabledListConfig (path : jstr) : bool := path === CONFIG_PREFIX ++ js "community-plugins.json".
(** The array of strings a body holds, when it holds one. *)
Definition idOf (v : json) : option jstr := match v with JStr s => Some s | _ => None end.
Definition ids (s : jstr) : option (list jstr) :=
  let t := trim s in
  match parse (if truthy t then t else js "[]") with
  | Some (JArr l) => mapM idOf l
  | _ => None
  end.
Definition mergeEnabledPluginsJson (localJson remoteJson : jstr) : option jstr :=
  match ids localJson, ids remoteJson with
  | Some l, Some r => Some (stringifyIds (jsort (dedup (l ++ r))))
  | _, _ => None
  end.

Definition isJunkFile (path : jstr) : bool :=
  ends_with path (js ".selfsync-part") || ends_with path (js ".selfsync-tmp")
  || existsb (λ seg, (seg === js ".DS_Store") || (seg === js "Thumbs.db") || (seg === js "desktop.ini") || (seg === js ".git"))
       (split_on cSlash path).
Definition isSelfPluginId (id selfPluginId : jstr) : bool :=
  let idLc := lower id in
  existsb (λ s, lower s === idLc) (filter (λ s, truthy s = true) (selfPluginId :: LEGACY_SELF_IDS)).
Definition pluginFilePaths (localPaths serverPaths : list jstr) (id : jstr) : list jstr :=
  let prefix := CONFIG_PREFIX ++ js "plugins/" ++ id ++ js "/" in
  jsort (dedup (filter (λ p, starts_with p prefix = true ∧ isJunkFile p = false) (localPaths ++ serverPaths))).

Definition shouldSync (path : jstr) (sel : ConfigSyncSelection) (selfPluginId : jstr) : bool :=
  if isJunkFile path then false
  else match after CONFIG_PREFIX path with
  | None => true
  | Some p =>
      if negb (enabled sel) then false
      else if match after (js "plugins/") (lower p) with
              | Some r => isSelfPluginId (firstSeg r) selfPluginId
              | None => false
              end then false
      else if (p === js "app.json") || (p === js "core-plugins.json") then core sel
      else if p === js "hotkeys.json" then hotkeys sel
      else if (p === js "appearance.json") || starts_with p (js "themes/") then appearance sel
      else if starts_with p (js "snippets/") then snippets sel
      else if p === js "community-plugins.json" then community sel
      else match after (js "plugins/") p with
           | None => false
           | Some r =>
               if negb (community sel) then false
               else let id := firstSeg r in
                    if negb (truthy id) then false else bool_decide (id ∈ pluginAllow sel)
           end
  end.

(** ** Whose change it was *)
Record ChangeProvenance := { author : option jstr; deviceId : option jstr; deviceName : option jstr }.
Inductive NotifyMode := User | UserDevice.
Record SelfIdentity := { user : jstr; selfDeviceId : jstr }.
Definition sameUser (a b : option jstr) : bool := lower (default [] a) === lower (default [] b).
Definition shouldNotifyConfigChange (p : ChangeProvenance) (self : SelfIdentity) (mode : NotifyMode) : bool :=
  if negb (otruthy (author p)) then true
  else if negb (sameUser (author p) (Some (user self))) then true
  else match mode with
       | User => false
       | UserDevice => if negb (otruthy (deviceId p)) then true
                       else negb (default [] (deviceId p) === selfDeviceId self)
       end.
Definition changeSourceLabel (p : ChangeProvenance) (self : SelfIdentity) : jstr :=
  let other := match author p with
               | Some a => if truthy a && negb (sameUser (Some a) (Some (user self))) then Some a else None
               | None => None
               end in
  match deviceName p with
  | Some n => if truthy n then match other with Some o => o ++ js " (" ++ n ++ js ")" | None => n end
              else default (js "another device") other
  | None => default (js "another device") other
  end.

(** ** Lemmas *)
Lemma after_app p s : after p (p ++ s) = Some s.
Proof. unfold after. by rewrite starts_with_app, drop_app_length. Qed.
Lemma after_Some p s r : after p s = Some r ↔ s = p ++ r.
Proof.
  unfold after. destruct (starts_with s p) eqn:Hs; split.
  - intros [= <-]. apply starts_with_spec in Hs as [k ->]. by rewrite drop_app_length.
  - intros ->. by rewrite drop_app_length.
  - done.
  - intros ->. by rewrite starts_with_app in Hs.
Qed.
Lemma firstSeg_app seg tl : cSlash ∉ seg → (tl = [] ∨ ∃ t, tl = cSlash :: t) → firstSeg (seg ++ tl) = seg.
Proof.
  intros Hs [-> | [t ->]]; unfold firstSeg.
  - by rewrite app_nil_r, split_on_no_sep.
  - by rewrite split_on_app.
Qed.
Lemma lower_unit_slash c : lower_unit c = cSlash ↔ c = cSlash.
Proof. unfold lower_unit, cSlash. repeat case_decide; lia. Qed.
Lemma lower_no_slash s : cSlash ∉ s → cSlash ∉ lower s.
Proof.
  intros Hs (c & Hc & Hin)%list_elem_of_fmap. symmetry in Hc. by apply lower_unit_slash in Hc as ->.
Qed.

Lemma plugins_neq r w : head w ≠ Some 112%N → (js "plugins/" ++ r === w) = false.
Proof. intros Hw. apply jeq_false. by intros <-. Qed.
Lemma plugins_other r w : w ≠ [] → head w ≠ Some 112%N → starts_with (js "plugins/" ++ r) w = false.
Proof.
  intros Hne Hw. unfold starts_with. apply bool_decide_eq_false. intros [k Hk].
  destruct w as [|c w]; [done|]. by injection Hk as <- _.
Qed.

(** The toggle a surface answers to. *)
Definition toggle (sel : ConfigSyncSelection) (s : ConfigSurface) : bool :=
  match s with
  | Core => core sel | Hotkeys => hotkeys sel | Appearance => appearance sel
  | Snippets => snippets sel | Community => community sel
  end.
Lemma shouldSync_surface path sel self p :
  after CONFIG_PREFIX path = Some p → shouldSync path sel self = true →
  enabled sel = true ∧ ∃ s, configSurfaceOf path = Some s ∧ toggle sel s = true.
Proof.
  intros Hp. unfold shouldSync, configSurfaceOf. rewrite Hp. destruct (isJunkFile path); [done|].
  destruct (enabled sel); simpl; [|done].
  destruct (match after (js "plugins/") (lower p) with Some _ => _ | None => _ end); [done|].
  intros H. split; [done|].
  destruct ((p === js "app.json") || _); [by exists Core|].
  destruct (p === js "hotkeys.json"); [by exists Hotkeys|].
  destruct ((p === js "appearance.json") || _); [by exists Appearance|].
  destruct (starts_with p (js "snippets/")); [by exists Snippets|].
  destruct (p === js "community-plugins.json"); [by exists Community|].
  destruct (after (js "plugins/") p) as [r|] eqn:Hr; [|done]. apply after_Some in Hr as ->.
  rewrite starts_with_app. exists Community. split; [done|]. simpl. by destruct (community sel).
Qed.

(** The client's own plugin folder never syncs: whatever the selection, no path
    inside [.obsidian/plugins/<self>/] or a former self folder passes, in any
    spelling of [plugins] and of the id; and what does pass below [.obsidian/]
    needs the master switch and the toggle of the surface
    [configSurfaceOf] names, community plugins their place on the allow list. *)
Theorem self_never_syncs sel self path :
  (∀ plug seg tl,
     path = CONFIG_PREFIX ++ plug ++ js "/" ++ seg ++ tl →
     lower plug = js "plugins" → cSlash ∉ seg → (tl = [] ∨ ∃ t, tl = cSlash :: t) →
     isSelfPluginId seg self = true → shouldSync path sel self = false) ∧
  (∀ p, path = CONFIG_PREFIX ++ p → shouldSync path sel self = true →
     enabled sel = true ∧ (∃ s, configSurfaceOf path = Some s ∧ toggle sel s = true) ∧
     (∀ id, pluginIdOf path = Some id → id ∈ pluginAllow sel)).
Proof.
  split.
  - intros plug seg tl -> Hplug Hseg Htl Hself. unfold shouldSync.
    destruct (isJunkFile _); [done|]. rewrite after_app. destruct (enabled sel); simpl negb; [|done]. cbn iota.
    rewrite !lower_app, Hplug. change (lower (js "/")) with (js "/").
    change (js "plugins" ++ js "/" ++ lower seg ++ lower tl) with (js "plugins/" ++ lower seg ++ lower tl).
    rewrite after_app, firstSeg_app; [| by apply lower_no_slash |].
    + unfold isSelfPluginId in *. rewrite lower_idem. by rewrite Hself.
    + destruct Htl as [-> | [t ->]]; [by left|]. right. by exists (lower t).
  - intros p Hp Hs. pose proof Hs as Hs'.
    apply (shouldSync_surface _ _ _ p) in Hs as [He Ht]; [|by apply after_Some].
    split_and!; [done|done|]. intros id Hid. revert Hs'. subst path. unfold shouldSync, pluginIdOf in *.
    rewrite after_app in *. destruct (isJunkFile _); [done|]. rewrite He. cbn [negb].
    destruct (match after (js "plugins/") (lower p) with Some _ => _ | None => _ end); [done|].
    destruct (after (js "plugins/") p) as [r|] eqn:Hr; [|done]. apply after_Some in Hr as ->.
    destruct (truthy (firstSeg r)) eqn:Htr; [|done]. injection Hid as <-.
    rewrite !plugins_neq, !plugins_other by done. cbn [orb].
    destruct (community sel); cbn [negb]; [|done]. by rewrite bool_decide_eq_true.
Qed.
Lemma self_never_syncs_witness :
  shouldSync (js ".obsidian/Plugins/Obsidian-SelfSync/data.json")
    {| enabled := true; core := true; community := true; appearance := true; snippets := true; hotkeys := true;
       pluginAllow := [js "Obsidian-SelfSync"]; pluginDir := [] |} (js "obsidian-selfsync") = false ∧
  js "dataview" ∈ pluginAllow {| enabled := true; core := true; community := true; appearance := true; snippets := true;
       hotkeys := true; pluginAllow := [js "dataview"]; pluginDir := [] |}.
Proof.
  split.
  - eapply (proj1 (self_never_syncs _ _ _) (js "Plugins") (js "Obsidian-SelfSync") (js "/data.json"));
      [vm_compute; reflexivity|vm_compute; reflexivity| |right; eexists; reflexivity|vm_compute; reflexivity].
    vm_compute. intros Hin. repeat (apply elem_of_cons in Hin as [Hin|Hin]; [discriminate Hin|]).
    by apply not_elem_of_nil in Hin.
  - eapply (proj2 (self_never_syncs _ (js "obsidian-selfsync") (js ".obsidian/plugins/dataview/main.js")));
      [reflexivity|vm_compute; reflexivity|vm_compute; reflexivity].
Defined.

(** The exclusion tests the folder below [.obsidian/] in every spelling, but
    [.obsidian] itself in one: on a file system that ignores case the path below
    is this device's credential file, and it passes as an ordinary note. *)
Lemma self_exclusion_prefix_case :
  let path := js ".Obsidian/plugins/obsidian-selfsync/data.json" in
  lower path = js ".obsidian/plugins/obsidian-selfsync/data.json" ∧
  shouldSync path DEFAULT_CONFIG_SYNC (js "obsidian-selfsync") = true ∧ Safe.isSafeVaultPath path = true.
Proof. vm_compute. done. Qed.

(** ** Enabled plugins only grow *)
Lemma mapM_idOf l : mapM idOf (JStr <$> l) = Some l.
Proof. apply mapM_Some. induction l as [|x l IH]; constructor; done. Qed.
Lemma stringifyIds_trim l : truthy (trim (stringifyIds l)) = true ∧ trim (stringifyIds l) = stringifyIds l.
Proof.
  cut (trim (stringifyIds l) = stringifyIds l); [intros ->; by destruct l|].
  unfold trim, trim_start. assert (drop_while is_ws (stringifyIds l) = stringifyIds l) as -> by (by destruct l).
  unfold trim_end. assert (∃ z, stringifyIds l = z ++ [93%N]) as [z ->].
  { destruct l as [|x l]; [by exists [91%N]|]. exists (js "[" ++ [cLF] ++ lines (x :: l)).
    unfold stringifyIds. by rewrite <- !app_assoc. }
  rewrite reverse_app. simpl. by rewrite reverse_cons, reverse_involutive.
Qed.

(** Syncing the enabled-plugin list never disables a plugin: when both bodies
    are arrays of strings the merged body parses back to exactly the ids of either
    side, once each and in order, and in any other case nothing is merged. *)
Theorem enabled_plugins_grow localJson remoteJson :
  match ids localJson, ids remoteJson with
  | Some l, Some r =>
      Forall utf16 (l ++ r) →
      ∃ out merged, mergeEnabledPluginsJson localJson remoteJson = Some out ∧ ids out = Some merged ∧
        NoDup merged ∧ StronglySorted (λ a b, jle a b = true) merged ∧ (∀ x, x ∈ merged ↔ x ∈ l ∨ x ∈ r)
  | _, _ => mergeEnabledPluginsJson localJson remoteJson = None
  end.
Proof.
  unfold mergeEnabledPluginsJson. destruct (ids localJson) as [l|]; [|done].
  destruct (ids remoteJson) as [r|]; [|done]. intros Hu.
  exists (stringifyIds (jsort (dedup (l ++ r)))), (jsort (dedup (l ++ r))). split; [done|].
  assert (Hin : ∀ x, x ∈ jsort (dedup (l ++ r)) ↔ x ∈ l ++ r).
  { intros x. by rewrite jsort_perm, dedup_elem_of. }
  split_and!.
  - unfold ids. destruct (stringifyIds_trim (jsort (dedup (l ++ r)))) as [Ht ->]. rewrite <- (proj2 (stringifyIds_trim _)), Ht.
    rewrite (proj2 (stringifyIds_trim _)), parse_stringify; [apply mapM_idOf|].
    rewrite Forall_forall in Hu |- *. intros x Hx. by apply Hu, Hin.
  - rewrite jsort_perm. apply dedup_NoDup.
  - apply jsort_sorted.
  - intros x. by rewrite Hin, elem_of_app.
Qed.
Definition bodyA : jstr := js "[" ++ quote (js "b") ++ js "]".
Definition bodyB : jstr := js "[ " ++ quote (js "a") ++ js "," ++ quote (js "b") ++ js "]".
Lemma enabled_plugins_grow_witness :
  ∃ out merged, mergeEnabledPluginsJson bodyA bodyB = Some out ∧ ids out = Some merged ∧
    NoDup merged ∧ StronglySorted (λ a b, jle a b = true) merged ∧
    (∀ x, x ∈ merged ↔ x ∈ [js "b"] ∨ x ∈ [js "a"; js "b"]).
Proof.
  pose proof (enabled_plugins_grow bodyA bodyB) as H.
  assert (ids bodyA = Some [js "b"]) as Ha by (vm_compute; reflexivity).
  assert (ids bodyB = Some [js "a"; js "b"]) as Hb by (vm_compute; reflexivity).
  rewrite Ha, Hb in H. apply H. repeat constructor.
Defined.

(** ** Grouping *)
Lemma insertGroup_perm lc g l : insertGroup lc g l ≡ₚ g :: l.
Proof.
  induction l as [|h l IH]; simpl; [done|]. case_match; [done|]. rewrite IH. apply Permutation_swap.
Qed.
Lemma groupConfigConflicts_perm lc paths :
  groupConfigConflicts lc paths ≡ₚ (snd <$> foldl addConflict [] paths).
Proof.
  unfold groupConfigConflicts. induction (snd <$> _) as [|g l IH]; simpl; [done|]. by rewrite insertGroup_perm, IH.
Qed.
Definition gpathsOf (e : jstr * ConflictGroup) : list jstr := gpaths e.2.
Lemma addConflict_paths m p :
  jwf m → concat (gpathsOf <$> addConflict m p) ≡ₚ p :: concat (gpathsOf <$> m) ∧ jwf (addConflict m p).
Proof.
  intros Hwf. unfold addConflict. destruct (groupKey p) as [key label]. split; [|by apply jwf_set].
  clear Hwf. induction m as [|[k g] m IH]; csimpl; [done|].
  destruct (k === key) eqn:Hk; csimpl.
  - unfold gpathsOf. csimpl. rewrite <- app_assoc. simpl. by rewrite <- Permutation_middle.
  - rewrite IH. by rewrite <- Permutation_middle.
Qed.
(** Every divergent path lands in exactly one group. *)
Lemma groupConfigConflicts_partition lc paths :
  concat (gpaths <$> groupConfigConflicts lc paths) ≡ₚ paths.
Proof.
  assert (H : ∀ ps m, jwf m → concat (gpathsOf <$> foldl addConflict m ps) ≡ₚ ps ++ concat (gpathsOf <$> m)).
  { induction ps as [|p ps IH]; intros m Hwf; [done|]. simpl.
    destruct (addConflict_paths m p Hwf) as [Hp Hwf']. rewrite IH by done. rewrite Hp. by rewrite Permutation_middle. }
  specialize (H paths [] (NoDup_nil_2)). simpl in H. rewrite app_nil_r in H.
  rewrite groupConfigConflicts_perm, <- list_fmap_compose. exact H.
Qed.

End Config.

Module Scope.
Import Config.

(** What the gates read of the plugin's settings. *)
Record Settings := {
  configSync : ConfigSyncSelection; skipForeignArtefacts : bool; excludedFolders : list jstr;
  mounts : list Mounts.Mount; vaultOwner : jstr; vaultId : jstr; selfFolderId : jstr
}.

Section Scope.
Context (nfc lowerCase : jstr → jstr).

Definition activeMounts (s : Settings) : list Mounts.Mount :=
  filter (λ m, ¬ (Mounts.owner (Mounts.source m) = vaultOwner s ∧ Mounts.vaultId (Mounts.source m) = vaultId s))
    (Mounts.validMounts nfc lowerCase (mounts s)).

Definition isConfigPath (p : jstr) : bool := (p === js ".obsidian") || starts_with p (js ".obsidian/").
(** [ObsidianVaultIo.passes] *)
Definition passes (s : Settings) (forMount : bool) (path : jstr) : bool :=
  if skipForeignArtefacts s && Foreign.isForeignArtefact path then false
  else if forMount then negb (isConfigPath path)
  else negb (Mounts.primaryExcludes nfc lowerCase (activeMounts s) path)
       && shouldSync path (configSync s) (selfFolderId s).
Definition inPrimaryScopeUncached (s : Settings) (p : jstr) : bool :=
  negb (Mounts.primaryExcludes nfc lowerCase (activeMounts s) p)
  && shouldSync p (configSync s) (selfFolderId s)
  && negb (skipForeignArtefacts s && Foreign.isForeignArtefact p).

(** The memo of [inPrimaryScope]: the last path asked about and the signature of
    the settings. *)
Definition Sig : Type := (bool * bool * list jstr * nat)%type.
Record ScopeMemo := { m_path : jstr; m_sig : Sig; m_in : bool }.
Definition sigOf (s : Settings) : Sig :=
  (enabled (configSync s), skipForeignArtefacts s, excludedFolders s, length (mounts s)).
Definition inPrimaryScope (s : Settings) (memo : option ScopeMemo) (p : jstr) : bool * option ScopeMemo :=
  let sig := sigOf s in
  let verdict := inPrimaryScopeUncached s p in
  match memo with
  | Some m => if (m_path m === p) && bool_decide (m_sig m = sig) then (m_in m, memo)
              else (verdict, Some {| m_path := p; m_sig := sig; m_in := verdict |})
  | None => (verdict, Some {| m_path := p; m_sig := sig; m_in := verdict |})
  end.

(** The adapter's guards on a path: what it does before it touches the disk.
    [Refuse] throws, [Skip] returns. *)
Inductive Guard := Refuse | Skip | Go.
Definition guardRead (s : Settings) (forMount : bool) (path : jstr) : Guard :=
  if forMount && negb (passes s forMount path) then Refuse
  else if Safe.isSafeVaultPath path then Go else Refuse.
Definition guardExists (s : Settings) (forMount : bool) (path : jstr) : Guard :=
  if forMount && negb (passes s forMount path) then Skip
  else if Safe.isSafeVaultPath path then Go else Skip.
Definition guardWrite (s : Settings) (forMount : bool) (path : jstr) : Guard :=
  if negb (Safe.isSafeVaultPath path) then Refuse
  else if negb (passes s forMount path) then Skip else Go.
Definition guardAppend (s : Settings) (forMount : bool) (path : jstr) : Guard :=
  if negb (passes s forMount path) then Refuse
  else if Safe.isSafeVaultPath path then Go else Refuse.

(** A path is written or removed only inside the vault and in scope; a mount
    adapter never touches the configuration; and the adapter's gate is the
    reconciler's. *)
Lemma guards_agree s forMount path :
  (guardWrite s forMount path = Go ↔ Safe.isSafeVaultPath path = true ∧ passes s forMount path = true) ∧
  (guardAppend s forMount path = Go ↔ guardWrite s forMount path = Go) ∧
  (guardRead s true path = Go → isConfigPath path = false) ∧
  passes s false path = inPrimaryScopeUncached s path.
Proof.
  unfold guardRead, guardWrite, guardAppend, passes, inPrimaryScopeUncached.
  destruct (Safe.isSafeVaultPath path), forMount, (skipForeignArtefacts s && _), (isConfigPath path),
    (negb (Mounts.primaryExcludes _ _ _ _)), (shouldSync _ _ _); simpl; naive_solver.
Qed.
(** Asked twice under one signature and one scope, the memo is right. *)
Lemma memo_sound s memo p :
  match memo with
  | Some m => m_path m = p → m_sig m = sigOf s → m_in m = inPrimaryScopeUncached s p
  | None => True
  end →
  (inPrimaryScope s memo p).1 = inPrimaryScopeUncached s p.
Proof.
  unfold inPrimaryScope. destruct memo as [m|]; [|done]. intros H.
  destruct (m_path m === p) eqn:Hp; simpl; [|done]. case_bool_decide; simpl; [|done].
  apply jeq_true in Hp. auto.
Qed.
End Scope.

(** The signature leaves out inputs of the verdict: switching a category off while
    the last question was about one of its files leaves the old answer standing. *)
Definition withCore (b : bool) : Settings :=
  {| configSync := {| enabled := true; core := b; community := false; appearance := true; snippets := true;
                      hotkeys := true; pluginAllow := []; pluginDir := [] |};
     skipForeignArtefacts := true; excludedFolders := []; mounts := []; vaultOwner := []; vaultId := [];
     selfFolderId := js "obsidian-selfsync" |}.
Lemma scope_memo_stale nfc lc :
  let p := js ".obsidian/app.json" in
  let '(_, memo) := inPrimaryScope nfc lc (withCore true) None p in
  (inPrimaryScope nfc lc (withCore false) memo p).1 = true ∧
  inPrimaryScopeUncached nfc lc (withCore false) p = false ∧ passes nfc lc (withCore false) false p = false.
Proof. vm_compute. done. Qed.

End Scope.
