(* ===== verification/Frontmatter.v ===== *)
(** * Frontmatter: content identity of notes ([client/src/frontmatter.ts])

    Line-based handling of the YAML block, the recognition of timestamp values,
    and the normalisation under which a change of line ends, of the BOM or of an
    ignored date is no change.  [normalize("NFC")] and the digest are parameters. *)

From S2P Require Import Prelude Regex.

Module Front.

Definition BOM : N := 65279%N.
Definition isBlank (c : N) : bool := bool_decide (c ∈ [cSpace; cTab]).
Definition FENCE_RE : regex := RSeq (rlit (js "---")) (RStar (RClass isBlank)).
Definition DEFAULT_IGNORED_TIMESTAMP_KEYS : list jstr :=
  [js "created"; js "updated"; js "modified"; js "created-*"; js "updated-*"; js "modified-*";
   js "date created"; js "date modified"].

(** [A-Za-z0-9_.-] *)
Definition keyUnit (c : N) : bool := is_alpha c || is_digit c || bool_decide (c ∈ js "_.-").
Definition TS_KEY_RE : regex :=
  rseqs [rplus (RClass keyUnit); RStar (RSeq (rlit (js " ")) (rplus (RClass keyUnit))); ropt (rlit (js "*"))].
Inductive KeyCheck := Key (key : jstr) | EmptyField | HasColon | BadShape | AlreadyListed (key : jstr).
Definition validateTimestampKey (raw : jstr) (existing : list jstr) : KeyCheck :=
  let key := trim raw in
  if negb (truthy key) then EmptyField
  else if has_unit key cColon then HasColon
  else if negb (rmatch TS_KEY_RE key) then BadShape
  else if existsb (λ k, lower k === lower key) existing then AlreadyListed key
  else Key key.

Record Parsed := { bom : bool; eol : jstr; lines : list jstr; fm : option nat }.
(** [fm] is [Some close] when [hasFm]; [open] is then 0. *)
Definition CRLF : jstr := [cCR; cLF].
Definition detectEol (text : jstr) : jstr :=
  match index_of cLF text with
  | Some (S i) => if bool_decide (text !! i = Some cCR) then CRLF else [cLF]
  | _ => [cLF]
  end.
(** [text.split(/\r?\n/)]: one CR before each LF goes with it. *)
Definition dropCR (s : jstr) : jstr :=
  match reverse s with c :: r => if decide (c = cCR) then reverse r else s | [] => s end.
Fixpoint dropCRs (l : list jstr) : list jstr :=
  match l with [] => [] | [w] => [w] | w :: l' => dropCR w :: dropCRs l' end.
Definition splitLines (text : jstr) : list jstr := dropCRs (split_on cLF text).
Fixpoint findFence (l : list jstr) (i : nat) : option nat :=
  match l with [] => None | x :: l => if rmatch FENCE_RE x then Some i else findFence l (S i) end.
Definition dropBom (s : jstr) : jstr := match s with c :: r => if decide (c = BOM) then r else s | [] => s end.
Definition parse (raw : jstr) : Parsed :=
  let b := starts_with raw [BOM] in
  let text := dropBom raw in
  let ls := splitLines text in
  {| bom := b; eol := detectEol text; lines := ls;
     fm := match ls with
           | l0 :: rest => if rmatch FENCE_RE l0 then findFence rest 1 else None
           | [] => None
           end |}.

(** [/^([A-Za-z0-9_.-][A-Za-z0-9_. -]*?)[ \t]*:.*$/]: the class holds no colon, so
    the colon is the line's first; the lazy capture leaves the blanks before it
    out. *)
Definition dropEnd (f : N → bool) (s : jstr) : jstr := reverse (drop_while f (reverse s)).
Definition keyOf (line : jstr) : option jstr :=
  match index_of cColon line with
  | None => None
  | Some i =>
      match dropEnd isBlank (take i line) with
      | [] => None
      | c :: r =>
          if keyUnit c && forallb (λ d, keyUnit d || bool_decide (d = cSpace)) r && forallb not_eol (drop (S i) line)
          then Some (c :: r) else None
      end
  end.
(** [line.slice(line.indexOf(":") + 1).trim()], for a line with a colon. *)
Definition colonAt (line : jstr) : nat := default 0 (index_of cColon line).
Definition valueOf (line : jstr) : jstr := trim (drop (S (colonAt line)) line).

Definition hasFrontmatter (text : jstr) : bool := bool_decide (is_Some (fm (parse text))).
Fixpoint joinStr (sep : jstr) (l : list jstr) : jstr :=
  match l with [] => [] | [w] => w | w :: l' => w ++ sep ++ joinStr sep l' end.
Definition reassemble (p : Parsed) (ls : list jstr) : jstr :=
  (if bom p then [BOM] else []) ++ joinStr (eol p) ls.

(** The lines strictly between the fences. *)
Definition inner (p : Parsed) : list jstr :=
  match fm p with Some close => drop 1 (take close (lines p)) | None => [] end.
Definition getManagedValue (text key : jstr) : option jstr :=
  match filter (λ l, keyOf l = Some key) (inner (parse text)) with
  | [] => None
  | l :: _ => if truthy (valueOf l) then Some (valueOf l) else None
  end.

(** ** Timestamp values *)
Definition digits (n : nat) : regex := rrep n RDigit.
Definition dateRe : regex := rseqs [digits 4; rlit (js "-"); digits 2; rlit (js "-"); digits 2].
Definition signRe : regex := RClass (λ c, bool_decide (c ∈ js "+-")).
Definition CANON_TS_RE : regex :=
  rseqs [dateRe; rlit (js "T"); digits 2; rlit (js ":"); digits 2; rlit (js ":"); digits 2; signRe; digits 2;
         rlit (js ":"); digits 2].
Definition isCanonicalTimestamp (v : jstr) : bool := rmatch CANON_TS_RE (trim v).
Definition unquote (s : jstr) : jstr :=
  let t := trim s in
  match t, last t with
  | a :: b :: r, Some z =>
      if bool_decide ((a = 34 ∧ z = 34) ∨ (a = 39 ∧ z = 39))%N then trim (removelast (b :: r)) else t
  | _, _ => t
  end.
Definition ISO_DATE_RE : regex := dateRe.
Definition ISO_DATETIME_RE : regex :=
  rseqs [dateRe; RClass (λ c, bool_decide (c ∈ js " T")); digits 2; rlit (js ":"); digits 2;
         ropt (RSeq (rlit (js ":")) (digits 2));
         ropt (rseqs [rlit (js "."); RDigit; ropts 8 RDigit]);
         RStar (RClass is_ws);
         ropt (RAlt (rlit (js "Z")) (rseqs [signRe; digits 2; ropt (rlit (js ":")); digits 2]))].
Definition isTimestampValue (v : jstr) : bool :=
  let t := unquote v in rmatch ISO_DATE_RE t || rmatch ISO_DATETIME_RE t.
Definition keyMatchesPattern (key pattern : jstr) : bool :=
  let k := lower key in
  let p := lower pattern in
  if ends_with p (js "*") then starts_with k (removelast p) else k === p.
Definition isIgnoredKey (key : jstr) (patterns : list jstr) : bool := existsb (keyMatchesPattern key) patterns.

(** An ignored key with a timestamp value. *)
Definition masked (patterns : list jstr) (line : jstr) : bool :=
  match keyOf line with
  | Some k => isIgnoredKey k patterns && isTimestampValue (valueOf line)
  | None => false
  end.

(** ** Anchoring timestamps for the three-way merge *)
Definition TS_SENTINEL : jstr := [0; 116; 115; 0]%N.
(** [`${line.slice(0, idx)}: ${v}`] *)
Definition withValue (line v : jstr) : jstr := take (colonAt line) line ++ js ": " ++ v.
(** The map over all lines that changes only those between the fences. *)
Definition mapInner (p : Parsed) (f : jstr → list jstr) : list jstr :=
  match fm p with
  | None => lines p
  | Some close => take 1 (lines p) ++ concat (f <$> inner p) ++ drop close (lines p)
  end.
Definition neutralizeTimestamps (text : jstr) (patterns : list jstr) : jstr :=
  match patterns with
  | [] => text
  | _ =>
      let p := parse text in
      match fm p with
      | None => text
      | Some _ => reassemble p (mapInner p (λ l, [if masked patterns l then withValue l TS_SENTINEL else l]))
      end
  end.
Definition restoreTimestamps (merged local : jstr) (patterns : list jstr) : jstr :=
  match patterns with
  | [] => merged
  | _ =>
      let pm := parse merged in
      match fm pm with
      | None => merged
      | Some _ =>
          reassemble pm (mapInner pm (λ l,
            match keyOf l with
            | Some k =>
                if valueOf l === TS_SENTINEL
                then match getManagedValue local k with Some lv => [withValue l lv] | None => [] end
                else [l]
            | None => [l]
            end))
      end
  end.

(** ** Identity *)
(** [replace(/\r\n?/g, "\n")] *)
Fixpoint toLF (s : jstr) : jstr :=
  match s with
  | [] => []
  | c :: r =>
      if decide (c = cCR)
      then cLF :: match r with d :: r' => if decide (d = cLF) then toLF r' else toLF r | [] => [] end
      else c :: toLF r
  end.
Definition trimTrailing (s : jstr) : jstr := dropEnd (λ c, bool_decide (c = cLF)) s.
(** A line at column 0 loses its trailing blanks. *)
Definition foldLine (line : jstr) : jstr :=
  match line with
  | c :: _ => if isBlank c then line else dropEnd isBlank line
  | [] => []
  end.
Definition ignoredTimestampKeysPresent (text : jstr) (patterns : list jstr) : jstr :=
  match patterns with
  | [] => []
  | _ => join_with 44%N (jsort (omap (λ l, if masked patterns l then lower <$> keyOf l else None) (inner (parse (toLF text)))))
  end.
(** [normalizedContent] after the text-level folding. *)
Definition identityOf (patterns : list jstr) (lf : jstr) : jstr :=
  let p := parse lf in
  match fm p with
  | None => trimTrailing lf
  | Some close =>
      trimTrailing (join_with cLF
        ((foldLine <$> take 1 (lines p))
         ++ filter (λ l, masked patterns l = false) (foldLine <$> inner p)
         ++ (foldLine <$> take 1 (drop close (lines p))) ++ drop (S close) (lines p)))
  end.
Section Identity.
Context (nfc : jstr → jstr).
Definition normalizedContent (text : jstr) (patterns : list jstr) : jstr :=
  identityOf patterns (nfc (dropBom (toLF text))).
Definition PLACEHOLDER : jstr := [10216%N] ++ js "ignored timestamp" ++ [10217%N].
Definition maskLine (patterns : list jstr) (line : jstr) : jstr :=
  if masked patterns line then take (S (colonAt line)) line ++ js " " ++ PLACEHOLDER else line.
Definition maskedForDisplay (text : jstr) (patterns : list jstr) : jstr :=
  let lf := dropBom (toLF (nfc text)) in
  let p := parse lf in
  match fm p with
  | None => lf
  | Some close =>
      join_with cLF ((foldLine <$> take 1 (lines p))
        ++ (maskLine patterns ∘ foldLine <$> inner p)
        ++ (foldLine <$> take 1 (drop close (lines p))) ++ drop (S close) (lines p))
  end.
(** [TextDecoder] with [fatal] and [TextEncoder] are UTF-8. *)
Context (decode : list N → option jstr) (encode : jstr → list N) (sha256hex : list N → jstr).
Definition normalizedHash (bytes : list N) (patterns : list jstr) : jstr :=
  match decode bytes with
  | None => sha256hex bytes
  | Some text => sha256hex (encode (normalizedContent text patterns))
  end.
End Identity.

Example masked_date : masked DEFAULT_IGNORED_TIMESTAMP_KEYS (js "Updated-laptop : 2026-09-18T10:11:12+02:00") = true ∧
  masked DEFAULT_IGNORED_TIMESTAMP_KEYS (js "updated: reviewed by Bob") = false ∧
  masked DEFAULT_IGNORED_TIMESTAMP_KEYS (js "created: 2020") = false ∧
  masked DEFAULT_IGNORED_TIMESTAMP_KEYS (js "  updated: 2026-09-18") = false.
Proof. vm_compute. done. Qed.

(** ** Parsing a note with a block *)
Definition plainLine (l : jstr) : Prop := cLF ∉ l ∧ cCR ∉ l.
Lemma dropCR_plain l : cCR ∉ l → dropCR l = l.
Proof.
  intros Hl. unfold dropCR. destruct (reverse l) as [|c r] eqn:Hr; [done|].
  rewrite decide_False; [done|]. intros ->. apply Hl. rewrite <- elem_of_reverse, Hr. by left.
Qed.
Lemma dropCRs_plain ls : Forall (λ l, cCR ∉ l) ls → dropCRs ls = ls.
Proof.
  induction 1 as [|l ls Hl _ IH]; [done|]. destruct ls; [done|].
  cbn [dropCRs] in *. by rewrite dropCR_plain, IH.
Qed.
Lemma splitLines_join ls : ls ≠ [] → Forall plainLine ls → splitLines (join_with cLF ls) = ls.
Proof.
  intros Hne Hp. unfold splitLines. rewrite split_join; [|done|].
  - apply dropCRs_plain. eapply Forall_impl; [exact Hp|]. by intros l [_ ?].
  - eapply Forall_impl; [exact Hp|]. by intros l [? _].
Qed.
Lemma fence_head l : rmatch FENCE_RE l = true → ∃ r, l = 45%N :: r.
Proof.
  destruct l as [|c l]; [done|]. intros Hm. destruct (decide (c = 45%N)) as [->|Hne]; [by exists l|].
  apply rmatch_spec, lang_seq_inv in Hm as (a & b & Hs & Ha%lang_lit & _). subst a. by injection Hs as ->.
Qed.
Lemma dropBom_fence l rest : rmatch FENCE_RE l = true → dropBom (join_with cLF (l :: rest)) = join_with cLF (l :: rest) ∧
  starts_with (join_with cLF (l :: rest)) [BOM] = false.
Proof.
  intros (r & ->)%fence_head. destruct rest; cbn [join_with app dropBom];
    (split; [by rewrite decide_False|apply bool_decide_eq_false; by intros [k Hk]]).
Qed.
Lemma findFence_app a l b i :
  Forall (λ l, rmatch FENCE_RE l = false) a → rmatch FENCE_RE l = true → findFence (a ++ l :: b) i = Some (i + length a).
Proof.
  intros Ha Hl. revert i. induction Ha as [|x a Hx _ IH]; intros i; cbn [app findFence].
  - by rewrite Hl, Nat.add_0_r.
  - rewrite Hx, IH. f_equal. cbn [length]. lia.
Qed.

(** A note: an opening fence, the block, a closing fence and the body. *)
Record Note := { n_open : jstr; n_block : list jstr; n_close : jstr; n_body : list jstr }.
Definition noteLines (n : Note) : list jstr := n_open n :: n_block n ++ n_close n :: n_body n.
Definition noteText (n : Note) : jstr := join_with cLF (noteLines n).
Definition note_ok (n : Note) : Prop :=
  Forall plainLine (noteLines n) ∧ rmatch FENCE_RE (n_open n) = true ∧ rmatch FENCE_RE (n_close n) = true ∧
  Forall (λ l, rmatch FENCE_RE l = false) (n_block n).
Lemma parse_note n :
  note_ok n →
  parse (noteText n) = {| bom := false; eol := [cLF]; lines := noteLines n; fm := Some (S (length (n_block n))) |}.
Proof.
  intros (Hp & Ho & Hc & Hb). unfold parse, noteText.
  destruct (dropBom_fence (n_open n) (n_block n ++ n_close n :: n_body n) Ho) as [Hd Hs].
  unfold noteLines in *. rewrite Hd, Hs. rewrite splitLines_join by done. rewrite Ho, findFence_app by done.
  f_equal. unfold detectEol. set (text := join_with _ _) in *.
  assert (Hcr : cCR ∉ text).
  { subst text. clear -Hp. induction Hp as [|l ls [_ Hl] _ IH]; [apply not_elem_of_nil|].
    destruct ls; [done|]. cbn [join_with] in *. rewrite not_elem_of_app, not_elem_of_cons. done. }
  destruct (index_of cLF text) as [[|i]|]; [done| |done].
  rewrite bool_decide_eq_false_2; [done|]. intros Hi. apply Hcr. by eapply list_elem_of_lookup_2.
Qed.
Lemma inner_note n : note_ok n → inner (parse (noteText n)) = n_block n.
Proof.
  intros Hn. rewrite parse_note by done. unfold inner, noteLines. cbn [fm lines take drop].
  by rewrite drop_0, take_app_length.
Qed.

(** Identity sees exactly the edits: for a note with a block, the normalised text
    is its lines with column-0 blanks folded at the end of block lines and only
    the ignored timestamp lines left out; body lines are kept verbatim.  Hence two
    notes that differ in ignored dates alone are one identity, and a value that
    is no date, a nested line or the body always counts. *)
Theorem identity_exact patterns n :
  note_ok n →
  identityOf patterns (noteText n) =
    trimTrailing (noteText {| n_open := foldLine (n_open n);
      n_block := filter (λ l, masked patterns l = false) (foldLine <$> n_block n);
      n_close := foldLine (n_close n); n_body := n_body n |}) ∧
  (∀ a b l v, n_block n = a ++ l :: b → masked patterns (foldLine l) = true →
     masked patterns (foldLine v) = true → plainLine v → rmatch FENCE_RE v = false →
     identityOf patterns (noteText {| n_open := n_open n; n_block := a ++ v :: b; n_close := n_close n; n_body := n_body n |})
       = identityOf patterns (noteText n)).
Proof.
  assert (Hmain : ∀ n, note_ok n → identityOf patterns (noteText n) =
    trimTrailing (noteText {| n_open := foldLine (n_open n);
      n_block := filter (λ l, masked patterns l = false) (foldLine <$> n_block n);
      n_close := foldLine (n_close n); n_body := n_body n |})).
  { clear n. intros n Hn. unfold identityOf. rewrite inner_note, parse_note by done. cbn [fm lines].
    unfold noteText, noteLines. cbn [n_open n_block n_close n_body]. do 2 f_equal.
    change (take 1 (n_open n :: _)) with [n_open n]. cbn [drop]. rewrite drop_app_length.
    rewrite drop_app_ge by lia. replace (S (length (n_block n)) - length (n_block n)) with 1 by lia. done. }
  intros Hn. split; [by apply Hmain|].
  intros a b l v Hb Hl Hv Hp Hf. rewrite !Hmain; [|done|].
  - cbn [n_open n_block n_close n_body]. rewrite Hb, !fmap_app, !fmap_cons, !filter_app, !filter_cons.
    rewrite Hl, Hv. by rewrite !decide_False.
  - destruct Hn as (Hpl & Ho & Hc & Hbl). unfold note_ok, noteLines in *. cbn [n_open n_block n_close n_body] in *.
    rewrite Hb in Hpl, Hbl. rewrite Forall_cons, !Forall_app, !Forall_cons in *. naive_solver.
Qed.
Definition sample (v : jstr) : Note :=
  {| n_open := js "---"; n_block := [js "title: x "; js "updated: " ++ v]; n_close := js "---";
     n_body := [js "body  "] |}.
Lemma sample_ok : note_ok (sample (js "2026-09-18")).
Proof.
  split_and!; [|vm_compute; reflexivity|vm_compute; reflexivity|repeat constructor].
  assert (H : forallb (λ l, negb (has_unit l cLF) && negb (has_unit l cCR)) (noteLines (sample (js "2026-09-18"))) = true)
    by (vm_compute; reflexivity).
  rewrite forallb_forall in H. apply Forall_forall. intros l Hl%list_elem_of_In. specialize (H l Hl).
  unfold has_unit in H. bools. by split.
Defined.
Lemma identity_exact_witness :
  identityOf DEFAULT_IGNORED_TIMESTAMP_KEYS (noteText (sample (js "2026-09-18"))) =
  trimTrailing (noteText {| n_open := js "---"; n_block := [js "title: x"]; n_close := js "---"; n_body := [js "body  "] |}).
Proof.
  pose proof (proj1 (identity_exact DEFAULT_IGNORED_TIMESTAMP_KEYS (sample (js "2026-09-18")) sample_ok)) as H.
  etransitivity; [exact H|vm_compute; reflexivity].
Defined.

(** ** Encodings *)
Definition withEol (e : jstr) (s : jstr) : jstr := concat ((λ c, if decide (c = cLF) then e else [c]) <$> s).
Lemma toLF_crlf s : cCR ∉ s → toLF (withEol CRLF s) = s.
Proof.
  unfold withEol. induction s as [|c s IH]; intros Hs; [done|]. rewrite not_elem_of_cons in Hs. destruct Hs as [Hc Hs].
  csimpl. destruct (decide (c = cLF)) as [->|Hne]; cbn [app CRLF toLF].
  - rewrite !decide_True by done. by rewrite IH.
  - rewrite decide_False by done. by rewrite IH.
Qed.
Lemma toLF_cr s : cCR ∉ s → toLF (withEol [cCR] s) = s.
Proof.
  unfold withEol. induction s as [|c s IH]; intros Hs; [done|]. rewrite not_elem_of_cons in Hs. destruct Hs as [Hc Hs].
  csimpl. destruct (decide (c = cLF)) as [->|Hne]; cbn [app toLF].
  - rewrite decide_True by done. f_equal. specialize (IH Hs).
    destruct (concat _) as [|d r] eqn:Hr; [done|]. rewrite decide_False; [done|].
    intros ->. clear -Hr. destruct s as [|x s]; [done|]. simpl in Hr. destruct (decide (x = cLF)); by injection Hr.
  - rewrite decide_False by done. by rewrite IH.
Qed.
Lemma toLF_plain s : cCR ∉ s → toLF s = s.
Proof.
  induction s as [|c s IH]; [done|]. rewrite not_elem_of_cons. intros [Hc Hs]. cbn [toLF].
  rewrite decide_False by done. by rewrite IH.
Qed.
Lemma join_snoc l : l ≠ [] → join_with cLF (l ++ [[]]) = join_with cLF l ++ [cLF].
Proof.
  induction l as [|w l IH]; intros Hne; [done|]. destruct l as [|v l]; [done|].
  cbn [app join_with] in *. rewrite IH by done. by rewrite <- app_assoc.
Qed.
Lemma split_on_snoc s : split_on cLF (s ++ [cLF]) = split_on cLF s ++ [[]].
Proof.
  induction s as [|c s IH]; [done|]. cbn [app split_on]. rewrite IH. destruct (decide (c = cLF)); [done|].
  pose proof (split_on_not_nil cLF s). by destruct (split_on cLF s).
Qed.
Lemma trimTrailing_snoc s : trimTrailing (s ++ [cLF]) = trimTrailing s.
Proof. unfold trimTrailing, dropEnd. rewrite reverse_app. done. Qed.
Lemma splitLines_nocr s : cCR ∉ s → splitLines s = split_on cLF s.
Proof.
  intros Hs. unfold splitLines. apply dropCRs_plain. revert Hs.
  induction s as [|c s IH]; cbn [split_on]; [intros _; repeat constructor; apply not_elem_of_nil|].
  rewrite not_elem_of_cons. intros [Hc Hs]. specialize (IH Hs).
  destruct (decide (c = cLF)); [constructor; [apply not_elem_of_nil|done]|].
  destruct (split_on cLF s) as [|w ws]; [repeat constructor; rewrite not_elem_of_cons; split; [done|apply not_elem_of_nil]|].
  apply Forall_cons in IH as [Hw Hws]. constructor; [by rewrite not_elem_of_cons|done].
Qed.
Lemma findFence_snoc l i : findFence (l ++ [[]]) i = findFence l i.
Proof. revert i. induction l as [|x l IH]; intros i; [done|]. cbn [app findFence]. by rewrite IH. Qed.
Lemma findFence_bound l i j : findFence l i = Some j → i ≤ j < i + length l.
Proof.
  revert i. induction l as [|x l IH]; intros i; cbn [findFence length]; [done|].
  destruct (rmatch _ _); [intros [= <-]; lia|]. intros H%IH. lia.
Qed.
Lemma parse_close_bound s close : fm (parse s) = Some close → 0 < close < length (lines (parse s)).
Proof.
  unfold parse. cbn [fm lines]. destruct (splitLines _) as [|l0 rest]; [done|].
  destruct (rmatch _ _); [|done]. intros H%findFence_bound. cbn [length]. lia.
Qed.
Lemma dropBom_nocr s : cCR ∉ s → cCR ∉ dropBom s.
Proof. intros Hs. destruct s as [|c s]; [done|]. rewrite not_elem_of_cons in Hs. simpl. case_decide; [tauto|]. by rewrite not_elem_of_cons. Qed.
Lemma parse_snoc s : cCR ∉ s → s ≠ [] → 
  lines (parse (s ++ [cLF])) = lines (parse s) ++ [[]] ∧ fm (parse (s ++ [cLF])) = fm (parse s).
Proof.
  intros Hs Hne. unfold parse. cbn [lines fm].
  assert (Hb : dropBom (s ++ [cLF]) = dropBom s ++ [cLF]) by (destruct s; [done|]; cbn [app dropBom]; by case_decide).
  assert (H2 : cCR ∉ dropBom s ++ [cLF]).
  { rewrite not_elem_of_app, list_elem_of_singleton. split; [by apply dropBom_nocr|done]. }
  rewrite Hb, !splitLines_nocr, split_on_snoc by (done || by apply dropBom_nocr). split; [done|].
  pose proof (split_on_not_nil cLF (dropBom s)). destruct (split_on cLF (dropBom s)) as [|l0 rest]; [done|].
  cbn [app]. by rewrite findFence_snoc.
Qed.
Lemma identityOf_snoc patterns s : cCR ∉ s → identityOf patterns (s ++ [cLF]) = identityOf patterns s.
Proof.
  intros Hs. destruct (decide (s = [])) as [->|Hne]; [vm_compute; reflexivity|].
  unfold identityOf. destruct (parse_snoc s Hs Hne) as [Hl Hf]. rewrite Hf.
  destruct (fm (parse s)) as [close|] eqn:Hfm; [|apply trimTrailing_snoc].
  pose proof (parse_close_bound s close Hfm) as Hb. unfold inner. rewrite Hf, Hfm, Hl.
  rewrite !take_app_le by lia. rewrite !drop_app_le by lia. rewrite take_app_le by (rewrite length_drop; lia).
  rewrite !app_assoc, join_snoc; [apply trimTrailing_snoc|].
  destruct (lines (parse s)); [simpl in Hb; lia|done].
Qed.

(** Re-encoding a note is no edit: CRLF and lone-CR line ends, a leading BOM and
    any number of final newlines leave the identity, and so the identity hash,
    unchanged. *)
Theorem encoding_is_no_edit (nfc : jstr → jstr) patterns text k :
  (∀ s, nfc (s ++ [cLF]) = nfc s ++ [cLF]) → (∀ s, cCR ∉ s → cCR ∉ nfc s) →
  cCR ∉ text → head text ≠ Some BOM →
  normalizedContent nfc (withEol CRLF text) patterns = normalizedContent nfc text patterns ∧
  normalizedContent nfc (withEol [cCR] text) patterns = normalizedContent nfc text patterns ∧
  normalizedContent nfc (BOM :: text) patterns = normalizedContent nfc text patterns ∧
  normalizedContent nfc (text ++ replicate k cLF) patterns = normalizedContent nfc text patterns.
Proof.
  intros Hnfc Hcr Ht Hb. unfold normalizedContent.
  assert (Hnb : ∀ z, dropBom (text ++ z) = dropBom text ++ z ∨ text = []).
  { intros z. destruct text as [|c t]; [by right|left]. cbn [app dropBom]. by case_decide. }
  split_and!.
  - by rewrite toLF_crlf, (toLF_plain text).
  - by rewrite toLF_cr, (toLF_plain text).
  - cbn [toLF]. rewrite decide_False by done. cbn [dropBom]. rewrite decide_True by done.
    rewrite toLF_plain by done. destruct text as [|c t]; [done|]. cbn [dropBom].
    rewrite decide_False; [done|]. intros ->. by apply Hb.
  - assert (Hk : ∀ k, cCR ∉ replicate k cLF) by (intros j; rewrite elem_of_replicate; intros [? _]; done).
    rewrite !toLF_plain by (done || (rewrite not_elem_of_app; done)).
    assert (Hd : dropBom (text ++ replicate k cLF) = dropBom text ++ replicate k cLF).
    { destruct (Hnb (replicate k cLF)) as [ | ->]; [done|]. by destruct k. }
    rewrite Hd. pose proof (dropBom_nocr _ Ht) as Hdb. generalize (dropBom text), Hdb. clear -Hnfc Hcr Hk.
    intros t Htc. induction k as [|k IH]; [by rewrite app_nil_r|].
    rewrite replicate_S_end, app_assoc, Hnfc, identityOf_snoc; [exact IH|].
    apply Hcr. by rewrite not_elem_of_app.
Qed.
Lemma encoding_is_no_edit_witness :
  normalizedContent (λ s, s) (withEol CRLF (noteText (sample (js "2026-09-18")))) [js "updated"] =
  normalizedContent (λ s, s) (noteText (sample (js "2026-09-18"))) [js "updated"].
Proof.
  apply (encoding_is_no_edit (λ s, s) [js "updated"] (noteText (sample (js "2026-09-18"))) 0); [done|done| |discriminate].
  apply (bool_decide_eq_false_1 (cCR ∈ noteText (sample (js "2026-09-18")))). vm_compute. reflexivity.
Defined.

End Front.
