(* ===== verification/Settings.v ===== *)
(** * Settings: what the device remembers ([client/src/settings.ts])

    [parseSettings] turns whatever is in the saved data into settings.  A value is
    parsed JSON; a property that is absent is [undefined].  Numbers keep their
    text, as in [Json]; what [Math.floor(Number(x))] makes of a value is an
    argument. *)

From S2P Require Import Prelude Jsmap Json Paths Frontmatter Configsync.

Module Settings.

Abbreviation Object := (list (jstr * json)).

(** ** Objects *)
Definition field (v : option json) (k : string) : option json :=
  match v with Some (JObj l) => jget (jof l) (js k) | _ => None end.
Definition nullish (v : option json) : bool := match v with None | Some JNull => true | _ => false end.
Definition indexed {A} (f : A → json) (l : list A) : Object := jof (imap (λ i x, (num_str (N.of_nat i), f x)) l).
(** [{ ...v }] *)
Definition props (v : option json) : Object :=
  match v with
  | Some (JObj l) => jof l
  | Some (JArr l) => indexed id l
  | Some (JStr s) => indexed (λ c, JStr [c]) s
  | _ => []
  end.
(** [Object.assign(o, p)] *)
Definition assign (o p : Object) : Object := foldl (λ m e, jset m e.1 e.2) o p.
(** The code points of a string, each as a string. *)
Fixpoint codePoints (s : jstr) : list jstr :=
  match s with
  | [] => []
  | c :: s' =>
      match s' with
      | d :: s'' => if isHigh c && bool_decide (56320 ≤ d ∧ d ≤ 57343)%N then [c; d] :: codePoints s'' else [c] :: codePoints s'
      | [] => [[c]]
      end
  end.
(** [[...v]]; [None] when [v] cannot be iterated, which throws. *)
Definition iterate (v : json) : option (list json) :=
  match v with JArr l => Some l | JStr s => Some (JStr <$> codePoints s) | _ => None end.
(** A number whose digits before the exponent are all zero. *)
Fixpoint zeroText (raw : jstr) : bool :=
  match raw with
  | [] => true
  | c :: r => if bool_decide (c ∈ js "eE") then true else bool_decide (c ∈ js "-0.") && zeroText r
  end.
Definition truthyValue (v : option json) : bool :=
  match v with
  | None | Some JNull | Some (JBool false) => false
  | Some (JStr s) => truthy s
  | Some (JNum raw) => negb (zeroText raw)
  | _ => true
  end.
(** [new Set]: objects and arrays are distinct values. *)
Definition sameValue (a b : json) : bool :=
  match a, b with
  | JNull, JNull => true
  | JBool x, JBool y => Bool.eqb x y
  | JNum x, JNum y | JStr x, JStr y => x === y
  | _, _ => false
  end.
Definition setOf (l : list json) : list json :=
  foldl (λ acc x, if existsb (sameValue x) acc then acc else acc ++ [x]) [] l.
Definition elements (v : option json) : list json := match v with Some (JArr l) => l | _ => [] end.
Definition strings (l : list json) : list jstr := omap (λ v, match v with JStr s => Some s | _ => None end) l.

(** ** Defaults *)
Definition none : list json := [].
Definition DEFAULT_CONFIG_SYNC : Object :=
  [(js "enabled", JBool false); (js "core", JBool true); (js "hotkeys", JBool true); (js "appearance", JBool true);
   (js "snippets", JBool true); (js "community", JBool false); (js "pluginAllow", JArr none)].
Definition DEFAULT_KEYS : list json := JStr <$> Front.DEFAULT_IGNORED_TIMESTAMP_KEYS.
Definition DEFAULT_SETTINGS : Object :=
  [(js "serverUrl", JStr []); (js "username", JStr []); (js "password", JStr []); (js "deviceName", JStr []);
   (js "vaultId", JStr (js "default")); (js "configSync", JObj DEFAULT_CONFIG_SYNC); (js "configChangeNotify", JStr (js "user"));
   (js "autoSyncNewPlugins", JBool false); (js "editorStatus", JBool false); (js "logLevel", JStr (js "info"));
   (js "sizeSkipNotice", JStr (js "never")); (js "vaultReadOnly", JBool false); (js "storePassword", JBool false);
   (js "maxSyncMB", JNum (js "200")); (js "bulkDeleteStrategy", JStr (js "count")); (js "bulkDeleteThreshold", JNum (js "10"));
   (js "skipForeignArtefacts", JBool true); (js "configConflicts", JArr none); (js "ignoreTimestampChanges", JBool true);
   (js "ignoredTimestampKeys", JArr DEFAULT_KEYS); (js "excludedFolders", JArr none)].

(** ** Mounts, as they are saved *)
Definition strOf (v : option json) : option jstr := match v with Some (JStr s) => Some s | _ => None end.
Definition isObject (v : option json) : bool := match v with Some (JObj _) | Some (JArr _) => true | _ => false end.
Definition rawMount (e : json) : option Mounts.RawMount :=
  if isObject (Some e) then
    let src := field (Some e) "source" in
    Some {| Mounts.raw_source :=
              if isObject src then
                Some {| Mounts.raw_owner := strOf (field src "owner"); Mounts.raw_vaultId := strOf (field src "vaultId");
                        Mounts.raw_sourcePath := strOf (field src "sourcePath") |}
              else None;
            Mounts.raw_mountPoint := strOf (field (Some e) "mountPoint");
            Mounts.raw_direction := strOf (field (Some e) "direction") |}
  else None.
Definition parseMounts (v : option json) : list Mounts.Mount :=
  Mounts.parseMounts (match v with Some (JArr l) => Some (rawMount <$> l) | _ => None end).
Definition mountValue (m : Mounts.Mount) : json :=
  JObj [(js "source", JObj [(js "owner", JStr (Mounts.owner (Mounts.source m)));
                            (js "vaultId", JStr (Mounts.vaultId (Mounts.source m)));
                            (js "sourcePath", JStr (Mounts.sourcePath (Mounts.source m)))]);
        (js "mountPoint", JStr (Mounts.mountPoint m));
        (js "direction", JStr (js match Mounts.direction m with Mounts.Sync => "sync" | Mounts.Pull => "pull" end))].

(** ** Parsing *)
Section Parse.
Context (lowerCase : jstr → jstr) (floorNumber : option json → option Z).

Definition configSync (s : option json) (allow : list json) : Object :=
  let c := field s "configSync" in
  jset (jset (assign DEFAULT_CONFIG_SYNC (props c)) (js "pluginAllow") (JArr allow))
    (js "pluginDir") (JObj (props (field c "pluginDir"))).
Definition isStr (v : option json) (t : string) : bool := match v with Some (JStr x) => x === js t | _ => false end.
Definition threshold (v : option json) : Z := match floorNumber v with Some n => if (0 <? n)%Z then n else 10 | None => 10 end%Z.
Definition ignoredKeys (s : option json) : list json :=
  match elements (field s "ignoredTimestampKeys") with
  | [] =>
      let legacy k := if truthyValue (field s k) then option_list (field s k) else [] in
      setOf (legacy "timestampCreatedKey" ++ legacy "timestampUpdatedKey" ++ DEFAULT_KEYS)
  | l => l
  end.
Definition retired : list string :=
  ["embeddedTimestamps"; "timestampCreatedKey"; "timestampUpdatedKey"; "driveFsTimes"; "timestampBackfill"]%string.
(** The fields that are rebuilt; [None] is [undefined]. *)
Definition rebuilt (s : option json) (allow : list json) : list (jstr * option json) :=
  [(js "configSync", Some (JObj (configSync s allow)));
   (js "configConflicts", Some (JArr (elements (field s "configConflicts"))));
   (js "excludedFolders", Some (JArr (elements (field s "excludedFolders"))));
   (js "deviceId", match field s "deviceId" with Some (JStr d) => if truthy d then Some (JStr d) else None | _ => None end);
   (js "configChangeNotify", Some (JStr (js (if isStr (field s "configChangeNotify") "userDevice" then "userDevice" else "user"))));
   (js "username", match jget (assign DEFAULT_SETTINGS (props s)) (js "username") with
                   | Some (JStr u) => Some (JStr (lowerCase (trim u))) | v => v end);
   (js "bulkDeleteStrategy",
      Some (JStr (js (if isStr (field s "bulkDeleteStrategy") "off" then "off"
                      else if isStr (field s "bulkDeleteStrategy") "percent" then "percent" else "count"))));
   (js "bulkDeleteThreshold", Some (JNum (num_str (Z.to_N (threshold (field s "bulkDeleteThreshold"))))));
   (js "skipForeignArtefacts", Some (JBool match field s "skipForeignArtefacts" with Some (JBool false) => false | _ => true end));
   (js "autoSyncNewPlugins", Some (JBool match field s "autoSyncNewPlugins" with Some (JBool true) => true | _ => false end));
   (js "autopilotSeen", match field s "autopilotSeen" with Some (JArr l) => Some (JArr (JStr <$> dedup (strings l))) | _ => None end);
   (js "mounts", match parseMounts (field s "mounts") with [] => None | ms => Some (JArr (mountValue <$> ms)) end);
   (js "ignoreTimestampChanges", Some (JBool match field s "ignoreTimestampChanges" with Some (JBool b) => b | _ => true end));
   (js "ignoredTimestampKeys", Some (JArr (ignoredKeys s)))]
  ++ ((λ k, (js k, None)) <$> retired).
Definition put (o : Object) (e : jstr * option json) : Object :=
  match e.2 with Some v => jset o e.1 v | None => jdel o e.1 end.
(** [raw && typeof raw === "object" ? raw : {}] *)
Definition root (raw : option json) : option json := if isObject raw then raw else Some (JObj []).
(** [None]: the spread of [pluginAllow] throws. *)
Definition parseSettings (raw : option json) : option Object :=
  let s := root raw in
  let allow := field (field s "configSync") "pluginAllow" in
  match (if nullish allow then Some [] else allow ≫= iterate) with
  | None => None
  | Some l => Some (foldl put (assign DEFAULT_SETTINGS (props s)) (rebuilt s l))
  end.

#[local] Instance JStr_inj : Inj (=) (=) JStr.
Proof using. by intros ?? [= ->]. Qed.
(** ** Lookups *)
Lemma jget_assign o p k : jwf p → jget (assign o p) k = match jget p k with Some v => Some v | None => jget o k end.
Proof using.
  unfold assign. revert o. induction p as [|[x v] p IH]; intros o Hp; [done|]. cbn [foldl].
  unfold jwf, jkeys in Hp. apply NoDup_cons in Hp as [Hx Hp]. rewrite IH by done. cbn [jget fst snd].
  destruct (x === k) eqn:Hk.
  - apply jeq_true in Hk as ->. destruct (jget p k) eqn:Hg; [|by rewrite jget_set_eq].
    exfalso. apply Hx. apply jget_Some_in in Hg. by apply (list_elem_of_fmap_2 fst p (k, j)).
  - apply jeq_false in Hk. by rewrite jget_set_ne.
Qed.
Lemma jwf_props v : jwf (props v).
Proof using. destruct v as [[]|]; cbn [props]; first [apply jof_wf|constructor]. Qed.
Lemma jwf_assign o p : jwf o → jwf (assign o p).
Proof using. unfold assign. revert o. induction p as [|e p IH]; intros o Ho; [done|]. by apply IH, jwf_set. Qed.
Lemma jwf_put o e : jwf o → jwf (put o e).
Proof using. intros Ho. unfold put. destruct e.2; [by apply jwf_set|by apply jwf_del]. Qed.
Lemma puts_spec l o k :
  jwf o → NoDup l.*1 →
  jwf (foldl put o l) ∧
  jget (foldl put o l) k = match List.find (λ e, e.1 === k) l with Some e => e.2 | None => jget o k end.
Proof using.
  revert o. induction l as [|e l IH]; intros o Ho Hl; [done|]. cbn [foldl List.find].
  apply NoDup_cons in Hl as [He Hl]. destruct (IH (put o e) (jwf_put _ _ Ho) Hl) as [Hw Hg].
  split; [exact Hw|]. rewrite Hg. destruct (e.1 === k) eqn:Hk.
  - apply jeq_true in Hk as <-. destruct (List.find _ l) as [e'|] eqn:Hf.
    + exfalso. apply find_some in Hf as [Hin Heq%jeq_true]. apply He. rewrite <- Heq.
      apply list_elem_of_fmap_2. by apply list_elem_of_In.
    + unfold put. destruct e.2; [apply jget_set_eq|by apply jget_del_eq].
  - apply jeq_false in Hk. destruct (List.find _ l); [done|]. unfold put. destruct e.2; [by apply jget_set_ne|by apply jget_del_ne].
Qed.
Lemma rebuilt_keys s allow : (rebuilt s allow).*1 = (rebuilt None []).*1.
Proof using. done. Qed.
Lemma defaults_wf : jwf DEFAULT_SETTINGS ∧ jwf DEFAULT_CONFIG_SYNC.
Proof using. clear. split_and!; apply (bool_decide_unpack _); vm_compute; exact I. Qed.
Lemma rebuilt_distinct s allow : NoDup (rebuilt s allow).*1.
Proof using.
  rewrite rebuilt_keys. apply (bool_decide_unpack _). vm_compute. exact I.
Qed.
(** What the parsed settings hold under a key. *)
Lemma parse_get raw out k :
  parseSettings raw = Some out →
  ∃ allow, jwf out ∧
    (if nullish (field (field (root raw) "configSync") "pluginAllow") then Some []
     else field (field (root raw) "configSync") "pluginAllow" ≫= iterate) = Some allow ∧
    jget out k = match List.find (λ e, e.1 === k) (rebuilt (root raw) allow) with
                 | Some e => e.2
                 | None => match jget (props (root raw)) k with Some v => Some v | None => jget DEFAULT_SETTINGS k end
                 end.
Proof using.
  unfold parseSettings. destruct (if nullish _ then _ else _) as [allow|]; [|done]. intros Hout. apply (inj Some) in Hout as <-.
  exists allow. destruct defaults_wf as [Hd _].
  destruct (puts_spec (rebuilt (root raw) allow) (assign DEFAULT_SETTINGS (props (root raw))) k) as [Hw Hg].
  - by apply jwf_assign.
  - apply rebuilt_distinct.
  - split_and!; [done..|]. rewrite Hg, jget_assign by apply jwf_props. done.
Qed.
(** What every reader of the settings relies on. *)
Definition typed (o : Object) : Prop :=
  jwf o ∧
  (∃ c allow dir, jget o (js "configSync") = Some (JObj c) ∧ jget c (js "pluginAllow") = Some (JArr allow) ∧
     jget c (js "pluginDir") = Some (JObj dir) ∧ ∀ k, k ∈ jkeys DEFAULT_CONFIG_SYNC → is_Some (jget c k)) ∧
  (∃ l, jget o (js "configConflicts") = Some (JArr l)) ∧ (∃ l, jget o (js "excludedFolders") = Some (JArr l)) ∧
  (∃ l, jget o (js "ignoredTimestampKeys") = Some (JArr l) ∧ l ≠ []) ∧
  (∃ b, jget o (js "skipForeignArtefacts") = Some (JBool b)) ∧ (∃ b, jget o (js "autoSyncNewPlugins") = Some (JBool b)) ∧
  (∃ b, jget o (js "ignoreTimestampChanges") = Some (JBool b)) ∧
  (jget o (js "configChangeNotify") = Some (JStr (js "user")) ∨ jget o (js "configChangeNotify") = Some (JStr (js "userDevice"))) ∧
  (∃ m, jget o (js "bulkDeleteStrategy") = Some (JStr m) ∧ m ∈ [js "off"; js "count"; js "percent"]) ∧
  (∃ n, jget o (js "bulkDeleteThreshold") = Some (JNum (num_str n)) ∧ (0 < n)%N) ∧
  (∀ v, jget o (js "deviceId") = Some v → ∃ d, v = JStr d ∧ d ≠ []) ∧
  (∀ v, jget o (js "autopilotSeen") = Some v → ∃ l, v = JArr (JStr <$> l) ∧ NoDup l) ∧
  (∀ v, jget o (js "mounts") = Some v → ∃ ms, v = JArr (mountValue <$> ms) ∧ ms ≠ [] ∧
     Forall (λ m, Mounts.vaultId (Mounts.source m) ≠ [] ∧ Mounts.mountPoint m ≠ []) ms) ∧
  (∀ k, k ∈ retired → jget o (js k) = None) ∧
  (∀ k, k ∈ jkeys DEFAULT_SETTINGS → is_Some (jget o k)).
Lemma jhas_set (o : Object) k v x : is_Some (jget o x) → is_Some (jget (jset o k v) x).
Proof using.
  destruct (decide (k = x)) as [-> | ]; [by rewrite jget_set_eq|by rewrite jget_set_ne].
Qed.
Lemma defaults_kept (o p : Object) k : jwf p → k ∈ jkeys o → is_Some (jget (assign o p) k).
Proof using.
  intros Hp Hk. rewrite jget_assign by done. destruct (jget p k); [done|].
  destruct (jget o k) eqn:Hg; [done|]. by apply jget_None in Hg.
Qed.
Lemma setOf_nonempty l : l ≠ [] → setOf l ≠ [].
Proof using.
  unfold setOf. destruct l as [|x l]; [done|]. intros _. cbn [foldl existsb app].
  assert (H : ∀ acc, acc ≠ [] → foldl (λ acc x, if existsb (sameValue x) acc then acc else acc ++ [x]) acc l ≠ []).
  { clear x. induction l as [|y l IH]; intros acc Ha; [done|]. cbn [foldl]. apply IH. destruct (existsb _ acc); [done|]. by destruct acc. }
  by apply H.
Qed.
Lemma ignoredKeys_nonempty s : ignoredKeys s ≠ [].
Proof using.
  unfold ignoredKeys. destruct (elements _); [|done]. apply setOf_nonempty. intros [_ [_ H]%app_eq_nil]%app_eq_nil. done.
Qed.
Lemma parseMounts_spec v m : m ∈ parseMounts v → Mounts.vaultId (Mounts.source m) ≠ [] ∧ Mounts.mountPoint m ≠ [].
Proof using.
  unfold parseMounts, Mounts.parseMounts. destruct v as [[]|]; try by intros Hm%elem_of_nil.
  intros (e & _ & He)%list_elem_of_omap. unfold Mounts.parseMount in He. destruct e as [e|]; [|done]. cbv zeta in He.
  destruct (truthy (default [] (Mounts.raw_vaultId _))) eqn:Hv; [|done]. destruct (truthy (Mounts.normMountFolder _)) eqn:Hp; [|done].
  injection He as <-. cbn [Mounts.source Mounts.vaultId Mounts.mountPoint]. by split; intros Hn; rewrite Hn in *.
Qed.
Ltac at_key H k :=
  let allow := fresh "allow" in let Hw := fresh "Hw" in let Ha := fresh "Ha" in let Hk := fresh "Hk" in
  destruct (parse_get _ _ (js k) H) as (allow & Hw & Ha & Hk);
  match type of Hk with _ = match ?f with Some _ => _ | None => _ end => let f' := eval hnf in f in change f with f' in Hk end;
  cbn [snd] in Hk; rewrite Hk; clear Ha Hk.
Lemma configSync_typed s allow : ∃ c dir, configSync s allow = c ∧ jget c (js "pluginAllow") = Some (JArr allow) ∧
  jget c (js "pluginDir") = Some (JObj dir) ∧ ∀ k, k ∈ jkeys DEFAULT_CONFIG_SYNC → is_Some (jget c k).
Proof using.
  exists (configSync s allow), (props (field (field s "configSync") "pluginDir")). split_and!; [done|..].
  - unfold configSync. cbv zeta. rewrite jget_set_ne by done. apply jget_set_eq.
  - unfold configSync. cbv zeta. apply jget_set_eq.
  - intros k Hk. unfold configSync. cbv zeta. apply jhas_set, jhas_set, defaults_kept; [apply jwf_props|done].
Qed.
Lemma retired_gone raw out k : parseSettings raw = Some out → k ∈ retired → jget out (js k) = None.
Proof using.
  intros H Hk. unfold retired in Hk.
  repeat (apply elem_of_cons in Hk as [-> | Hk]; [match goal with |- jget _ (js ?k) = _ => by at_key H k end|]). by apply elem_of_nil in Hk.
Qed.
Lemma default_present raw out k : parseSettings raw = Some out → k ∈ jkeys DEFAULT_SETTINGS → is_Some (jget out k).
Proof using.
  intros H Hk. destruct (parse_get raw out k H) as (allow & _ & _ & Hg). rewrite Hg.
  destruct (List.find _ _) as [[k' v]|] eqn:Hf.
  - apply find_some in Hf as [Hin Heq%jeq_true]. cbn [fst] in Heq. subst k'. cbn [snd].
    destruct v as [v|]; [done|]. exfalso. revert Hk. assert (Hu : is_Some (jget (assign DEFAULT_SETTINGS (props (root raw))) (js "username"))).
    { apply defaults_kept; [apply jwf_props|by right; left]. }
    destruct Hu as [u Hu].
    assert (Hnone : k ∈ js <$> ["deviceId"; "autopilotSeen"; "mounts"]%string ++ retired).
    { cbn [rebuilt app fmap list_fmap retired] in Hin. rewrite Hu in Hin.
      destruct Hin as [[=]|[[=]|[[=]|[[= <- _]|[[=]|[Hin|[[=]|[[=]|[[=]|[[=]|[[= <- _]|[[= <- _]|[[=]|[[=]|Hin]]]]]]]]]]]]]];
        try (by apply (bool_decide_unpack _); vm_compute).
      - destruct u; done.
      - apply list_elem_of_fmap. destruct Hin as [[= <-]|[[= <-]|[[= <-]|[[= <-]|[[= <-]|[]]]]]]; eexists; (split; [reflexivity|]); apply (bool_decide_unpack _); vm_compute; done. }
    clear -Hnone. intros Hk. revert Hk. assert (Hd : Forall (λ x, x ∉ jkeys DEFAULT_SETTINGS) (js <$> ["deviceId"; "autopilotSeen"; "mounts"]%string ++ retired)).
    { apply (bool_decide_unpack _). vm_compute. done. }
    rewrite Forall_forall in Hd. by apply Hd.
  - destruct (jget (props _) k); [done|]. destruct (jget DEFAULT_SETTINGS k) eqn:Hd; [done|]. by apply jget_None in Hd.
Qed.
(** C29: Whatever the saved data held, settings that were parsed have the shape
    their readers rely on: the configuration selection is complete with its two
    collections, the queues are arrays, the list of ignored keys is a non-empty
    array, the three safety switches are booleans, the notify mode and the
    deletion strategy are known ones, the deletion threshold is a positive whole
    number, the device id is a non-empty string or absent, the observed plugins
    are distinct strings, every mount names a vault and a folder, the retired
    fields are gone, and every field with a default is there. *)
Theorem settings_well_typed raw out : parseSettings raw = Some out → typed out.
Proof using.
  intros H. unfold typed. split_and!.
  - by destruct (parse_get raw out [] H) as (? & ? & _).
  - at_key H "configSync"%string. destruct (configSync_typed (root raw) allow) as (c & dir & <- & ?). eauto 8.
  - at_key H "configConflicts"%string. eauto.
  - at_key H "excludedFolders"%string. eauto.
  - at_key H "ignoredTimestampKeys"%string. eexists. split; [done|apply ignoredKeys_nonempty].
  - at_key H "skipForeignArtefacts"%string. eauto.
  - at_key H "autoSyncNewPlugins"%string. eauto.
  - at_key H "ignoreTimestampChanges"%string. eauto.
  - at_key H "configChangeNotify"%string. destruct (isStr _ _); auto.
  - at_key H "bulkDeleteStrategy"%string. eexists. split; [done|]. destruct (isStr _ "off"%string); [|destruct (isStr _ _)]; rewrite !elem_of_cons; tauto.
  - at_key H "bulkDeleteThreshold"%string. eexists. split; [done|]. unfold threshold.
    destruct (floorNumber _) as [n|]; [|done]. destruct (0 <? n)%Z eqn:Hn; [|done]. lia.
  - intros v. at_key H "deviceId"%string. destruct (field _ _) as [[| | |d| |]|]; try done. destruct (truthy d) eqn:Hs; [|done].
    intros [= <-]. exists d. split; [done|]. by apply truthy_true.
  - intros v. at_key H "autopilotSeen"%string. destruct (field _ _) as [[]|]; try done. intros [= <-].
    eexists. split; [done|apply dedup_NoDup].
  - intros v. at_key H "mounts"%string. destruct (parseMounts _) as [|m ms] eqn:Hms; [done|]. intros [= <-].
    exists (m :: ms). split_and!; [done..|]. apply Forall_forall. intros x Hx. rewrite <- Hms in Hx. by eapply parseMounts_spec.
  - intros k. by eapply retired_gone.
  - intros k. by eapply default_present.
Qed.

(** ** Parsing what was parsed *)
Lemma jmap_ext (m1 m2 : Object) : jwf m1 → jkeys m1 = jkeys m2 → (∀ k, jget m1 k = jget m2 k) → m1 = m2.
Proof using.
  clear lowerCase floorNumber.
  unfold jwf, jkeys. revert m2. induction m1 as [|[k v] m1 IH]; intros [|[k' v'] m2] Hw Hk Hg; try done.
  cbn in Hk. injection Hk as <- Hk. apply NoDup_cons in Hw as [Hn Hw].
  pose proof (Hg k) as Hv. cbn in Hv. rewrite jeq_refl in Hv. injection Hv as <-. f_equal. apply IH; [done..|].
  intros x. specialize (Hg x). cbn in Hg. destruct (k === x) eqn:Hx; [|done]. apply jeq_true in Hx as <-.
  assert (jget m1 k = None) as -> by (by apply jget_None). symmetry. apply jget_None. unfold jkeys. by rewrite <- Hk.
Qed.
Lemma filter_absent (o : list jstr) k (l : list jstr) : k ∉ l → filter (λ x, x ∉ o ++ [k]) l = filter (λ x, x ∉ o) l.
Proof using.
  clear lowerCase floorNumber.
  induction l as [|x l IH]; intros Hk; [done|]. rewrite not_elem_of_cons in Hk. destruct Hk as [Hx Hk].
  rewrite !filter_cons, IH by done. destruct (decide (x ∉ o)) as [Ho|Ho].
  - rewrite decide_True; [done|]. rewrite elem_of_app, list_elem_of_singleton. intros [ | ->]; done.
  - rewrite decide_False; [done|]. rewrite elem_of_app. tauto.
Qed.
Lemma jkeys_assign (o p : Object) : jwf p → jkeys (assign o p) = jkeys o ++ filter (λ k, k ∉ jkeys o) (jkeys p).
Proof using.
  clear lowerCase floorNumber.
  unfold assign. revert o. induction p as [|[k v] p IH]; intros o Hp.
  { cbn [foldl]. change (jkeys []) with (@nil jstr). by rewrite filter_nil, app_nil_r. }
  apply NoDup_cons in Hp as [Hk Hp]. cbn [foldl fst snd]. rewrite IH, jkeys_set by done.
  change (jkeys ((k, v) :: p)) with (k :: jkeys p). rewrite filter_cons. destruct (jhas o k) eqn:Hh.
  - apply jhas_keys in Hh. by rewrite decide_False by tauto.
  - assert (Hno : k ∉ jkeys o) by (rewrite <- jhas_keys, Hh; done). rewrite decide_True by done.
    rewrite <- (assoc_L (++)). by rewrite filter_absent.
Qed.
(** An object that starts with the keys of another holds its own values. *)
Lemma assign_fix (o c : Object) rest : jwf o → jwf c → jkeys c = jkeys o ++ rest → assign o c = c.
Proof using.
  clear lowerCase floorNumber.
  intros Ho Hc Hk. assert (Hr : filter (λ k, k ∉ jkeys o) (jkeys c) = rest).
  { unfold jwf in Hc. rewrite Hk in Hc |- *. apply NoDup_app in Hc as (_ & Hd & _). rewrite filter_app.
    assert (filter (λ k, k ∉ jkeys o) (jkeys o) = []) as ->.
    { apply elem_of_nil_inv. intros x [Hx Hin]%list_elem_of_filter. done. }
    cbn [app]. apply filter_all, Forall_forall. intros x Hx Hin. by apply (Hd x). }
  apply jmap_ext; [by apply jwf_assign|by rewrite jkeys_assign, Hr|].
  intros k. rewrite jget_assign by done. destruct (jget c k) eqn:Hg; [done|].
  apply jget_None in Hg. apply jget_None. intros Hin. apply Hg. rewrite Hk. apply elem_of_app. by left.
Qed.
Lemma dedup_id (l : list jstr) : NoDup l → dedup l = l.
Proof using.
  clear lowerCase floorNumber. unfold dedup.
  cut (∀ acc, NoDup (acc ++ l) → foldl (λ acc x, if decide (x ∈ acc) then acc else acc ++ [x]) acc l = acc ++ l).
  { intros H Hl. by apply (H []). }
  induction l as [|x l IH]; intros acc Hn; cbn [foldl]; [by rewrite app_nil_r|].
  rewrite decide_False.
  - rewrite IH; rewrite <- (assoc_L (++)); [done|exact Hn].
  - intros Hin. apply NoDup_app in Hn as (_ & Hd & _). apply (Hd x Hin). by left.
Qed.
Lemma strings_inj (l : list jstr) : strings (JStr <$> l) = l.
Proof using. clear. unfold strings. induction l as [|x l IH]; [done|]. cbn. by rewrite IH. Qed.
Lemma configSync_keys s allow : ∃ rest, jkeys (configSync s allow) = jkeys DEFAULT_CONFIG_SYNC ++ rest.
Proof using.
  clear lowerCase floorNumber.
  unfold configSync. cbv zeta. rewrite !jkeys_set, jkeys_assign by apply jwf_props.
  destruct (jhas _ _), (jhas _ _); rewrite <- ?(assoc_L (++)); eauto.
Qed.
Lemma configSync_wf s allow : jwf (configSync s allow).
Proof using. clear lowerCase floorNumber. unfold configSync. cbv zeta. apply jwf_set, jwf_set, jwf_assign, defaults_wf. Qed.
Lemma jset_same (o : Object) k v : jwf o → jget o k = Some v → jset o k v = o.
Proof using.
  clear lowerCase floorNumber.
  intros Ho Hg. apply jmap_ext; [by apply jwf_set| |].
  - rewrite jkeys_set. unfold jhas. by rewrite Hg.
  - intros x. destruct (decide (k = x)) as [<- | ]; [by rewrite jget_set_eq|by rewrite jget_set_ne].
Qed.
(** The selection that was parsed is parsed to itself. *)
Lemma configSync_again s allow s' :
  field s' "configSync" = Some (JObj (configSync s allow)) → configSync s' allow = configSync s allow.
Proof using.
  clear lowerCase floorNumber.
  intros Hf. unfold configSync at 1. cbv zeta. rewrite Hf. cbn [props].
  destruct (configSync_typed s allow) as (c & dir & Hc & Ha & Hd & _). rewrite <- Hc in Ha, Hd.
  pose proof (configSync_wf s allow) as Hw. destruct (configSync_keys s allow) as [rest Hk].
  cbn [field]. rewrite jof_id, Hd by done. rewrite (assign_fix _ _ rest) by (done || apply defaults_wf).
  rewrite (jset_same _ (js "pluginAllow") (JArr allow)) by done. cbn [props]. apply jset_same; [done|].
  assert (jof dir = dir) as ->; [|done].
  unfold configSync in Hd. cbv zeta in Hd. rewrite jget_set_eq in Hd. injection Hd as <-. apply jof_id, jwf_props.
Qed.
Lemma configSync_allow s allow s' :
  field s' "configSync" = Some (JObj (configSync s allow)) → field (field s' "configSync") "pluginAllow" = Some (JArr allow).
Proof using.
  clear lowerCase floorNumber.
  intros ->. cbn [field]. rewrite jof_id by apply configSync_wf.
  destruct (configSync_typed s allow) as (c & dir & -> & Ha & _). exact Ha.
Qed.
Lemma parse_total raw :
  parseSettings raw = None ↔
  ∃ v, field (field (root raw) "configSync") "pluginAllow" = Some v ∧ v ≠ JNull ∧ iterate v = None.
Proof using.
  unfold parseSettings. destruct (field (field _ _) _) as [v|] eqn:Hv.
  - assert (Hv' : nullish (Some v) = false ∧ v ≠ JNull ∨ v = JNull) by (destruct v; auto; by left).
    destruct Hv' as [[-> Hne] | ->].
    + cbn [mbind option_bind]. destruct (iterate v) eqn:Hi; split; try done.
      * intros (v' & [= <-] & _ & Hi'). congruence.
      * intros _. by exists v.
    + split; [done|]. by intros (v' & [= <-] & Hne & _).
  - split; [done|]. by intros (v & ? & _).
Qed.

Context (lower_again : ∀ x, lowerCase (trim (lowerCase (trim x))) = lowerCase (trim x)).
Context (number_again : ∀ n, (0 < n)%N → floorNumber (Some (JNum (num_str n))) = Some (Z.of_N n)).
Lemma root_out out : root (Some (JObj out)) = Some (JObj out).
Proof using. done. Qed.
Lemma parse_again raw out : parseSettings raw = Some out → is_Some (parseSettings (Some (JObj out))).
Proof using.
  intros H. destruct (parseSettings (Some (JObj out))) eqn:Hp; [done|]. exfalso.
  apply parse_total in Hp as (v & Hv & _ & Hi). destruct (parse_get raw out (js "configSync") H) as (allow & Hw & Ha & Hk).
  rewrite root_out in Hv.
  assert (Hc : field (Some (JObj out)) "configSync" = Some (JObj (configSync (root raw) allow))).
  { cbn [field]. rewrite jof_id by done. exact Hk. }
  apply configSync_allow in Hc. rewrite Hc in Hv. by injection Hv as <-.
Qed.
(** The second parse reads a field of the first. *)
Lemma field_out raw out k : parseSettings raw = Some out → field (Some (JObj out)) k = jget out (js k).
Proof using. intros H. destruct (parse_get raw out [] H) as (_ & Hw & _). cbn [field]. by rewrite jof_id. Qed.
Ltac second H k := rewrite (field_out _ _ k H); at_key H k.
Section Again.
Context (raw : option json) (out out' : Object).
Context (H : parseSettings raw = Some out) (H' : parseSettings (Some (JObj out)) = Some out').
Ltac again k := at_key H' k; rewrite root_out, (field_out _ _ k H); at_key H k.
Lemma again_configSync : jget out' (js "configSync") = jget out (js "configSync").
Proof using H H' lowerCase floorNumber.
  destruct (parse_get raw out (js "configSync") H) as (allow & Hw & _ & Hk).
  destruct (parse_get (Some (JObj out)) out' (js "configSync") H') as (allow' & _ & Ha' & Hk').
  rewrite Hk'. change (jget out (js "configSync") = Some (JObj (configSync (root raw) allow))) in Hk.
  assert (Hc : field (Some (JObj out)) "configSync" = Some (JObj (configSync (root raw) allow))) by (by rewrite (field_out _ _ _ H)).
  rewrite root_out, (configSync_allow _ _ _ Hc) in Ha'. cbn in Ha'. injection Ha' as <-.
  rewrite root_out. change (Some (JObj (configSync (Some (JObj out)) allow)) = jget out (js "configSync")).
  rewrite Hk. do 2 f_equal. by apply configSync_again.
Qed.
Lemma again_username : jget out' (js "username") = jget out (js "username").
Proof using H H' lowerCase floorNumber lower_again.
  destruct (default_present raw out (js "username") H) as [v Hv]; [by right; left|].
  at_key H' "username"%string. rewrite root_out, jget_assign by apply jwf_props. cbn [props].
  destruct (parse_get raw out [] H) as (_ & Hwo & _). rewrite jof_id, Hv by done.
  destruct v as [| | |u| |]; try done. do 2 f_equal.
  destruct (parse_get raw out (js "username") H) as (allow0 & _ & _ & Hk). rewrite Hv in Hk.
  change (Some (JStr u) = match jget (assign DEFAULT_SETTINGS (props (root raw))) (js "username") with
                          | Some (JStr u) => Some (JStr (lowerCase (trim u))) | v => v end) in Hk.
  destruct (jget (assign _ _) _) as [[| | |w| |]|]; try done. apply (inj Some), (inj JStr) in Hk as ->. apply lower_again.
Qed.
Lemma again_rebuilt k : k ≠ js "mounts" → k ∈ (rebuilt None []).*1 → jget out' k = jget out k.
Proof using H H' lowerCase floorNumber lower_again number_again.
  intros Hm Hin.
  change (k ∈ (js <$> ["configSync"; "configConflicts"; "excludedFolders"; "deviceId"; "configChangeNotify"; "username";
    "bulkDeleteStrategy"; "bulkDeleteThreshold"; "skipForeignArtefacts"; "autoSyncNewPlugins"; "autopilotSeen"; "mounts";
    "ignoreTimestampChanges"; "ignoredTimestampKeys"]%string) ++ (js <$> retired)) in Hin.
  apply elem_of_app in Hin as [Hin|(k' & -> & Hin)%list_elem_of_fmap];
    [|by rewrite (retired_gone _ _ _ H), (retired_gone _ _ _ H') by done].
  cbn [fmap list_fmap] in Hin. repeat (apply elem_of_cons in Hin as [-> | Hin]); [..|by apply elem_of_nil in Hin].
  - apply again_configSync.
  - by again "configConflicts"%string.
  - by again "excludedFolders"%string.
  - again "deviceId"%string. destruct (field _ _) as [[| | |d| |]|]; try done. destruct (truthy d) eqn:Hd; [|done]. by rewrite Hd.
  - again "configChangeNotify"%string. by destruct (isStr (field _ _) _).
  - apply again_username.
  - again "bulkDeleteStrategy"%string.
    destruct (isStr (field _ _) "off"%string); [done|]. by destruct (isStr (field _ _) _).
  - again "bulkDeleteThreshold"%string. unfold threshold at 1. rewrite number_again.
    + destruct (0 <? _)%Z eqn:Hz; [by rewrite N2Z.id|]. exfalso. unfold threshold in Hz. destruct (floorNumber _); [|done].
      destruct (0 <? z)%Z eqn:Hz'; [|done]. rewrite Z2N.id in Hz by lia. congruence.
    + unfold threshold. destruct (floorNumber _); [|done]. destruct (0 <? z)%Z eqn:Hz'; [lia|done].
  - again "skipForeignArtefacts"%string. by destruct (field _ _) as [[|[]| | | |]|].
  - again "autoSyncNewPlugins"%string. by destruct (field _ _) as [[|[]| | | |]|].
  - again "autopilotSeen"%string. destruct (field _ _) as [[| | | |l|]|]; try done. do 3 f_equal.
    rewrite strings_inj. apply dedup_id, dedup_NoDup.
  - done.
  - again "ignoreTimestampChanges"%string. by destruct (field _ _) as [[| | | | |]|].
  - at_key H' "ignoredTimestampKeys"%string. rewrite root_out. unfold ignoredKeys at 1. rewrite (field_out _ _ _ H).
    at_key H "ignoredTimestampKeys"%string. cbn [elements]. pose proof (ignoredKeys_nonempty (root raw)) as Hne. by destruct (ignoredKeys (root raw)).
Qed.
Lemma again_other k : k ∉ (rebuilt None []).*1 → jget out' k = jget out k.
Proof using H H' lowerCase floorNumber.
  intros Hk. destruct (parse_get (Some (JObj out)) out' k H') as (allow & _ & _ & ->). rewrite root_out.
  destruct (List.find _ _) as [e|] eqn:Hf.
  { exfalso. apply find_some in Hf as [Hin Heq%jeq_true]. apply Hk. rewrite <- (rebuilt_keys (Some (JObj out)) allow), <- Heq.
    apply list_elem_of_fmap_2. by apply list_elem_of_In. }
  cbn [props]. destruct (parse_get raw out [] H) as (_ & Hwo & _). rewrite jof_id by done.
  destruct (jget out k) eqn:Hg; [done|]. destruct (jget DEFAULT_SETTINGS k) eqn:Hd; [|done].
  destruct (default_present raw out k H) as [v Hv]; [|by rewrite Hg in Hv].
  destruct (decide (k ∈ jkeys DEFAULT_SETTINGS)) as [|Hn]; [done|]. apply jget_None in Hn. congruence.
Qed.
End Again.
(** Reading settings back changes nothing.  Settings that were parsed, saved
    and read again are parsed without an error, and every field but the mounts has
    the value it had. *)
Theorem settings_stable raw out :
  parseSettings raw = Some out →
  ∃ out', parseSettings (Some (JObj out)) = Some out' ∧ ∀ k, k ≠ js "mounts" → jget out' k = jget out k.
Proof using lower_again number_again.
  intros H. destruct (parse_again raw out H) as [out' H']. exists out'. split; [done|]. intros k Hk.
  destruct (decide (k ∈ (rebuilt None []).*1)); [by eapply again_rebuilt|by eapply again_other].
Qed.
End Parse.

(** ** Concrete settings *)
(** The number a text of decimal digits denotes. *)
Definition digitsValue (s : jstr) : N := foldl (λ a c, a * 10 + (c - 48))%N 0%N s.
Lemma size_nat_bound n : (n < 2 ^ N.of_nat (N.size_nat n))%N.
Proof.
  destruct n as [|p]; [done|]. cbn [N.size_nat]. induction p as [p IH|p IH|]; [| |done];
    cbn [Pos.size_nat]; rewrite Nat2N.inj_succ, N.pow_succ_r'; lia.
Qed.
Lemma digits_value fuel n acc :
  (n < 10 ^ N.of_nat fuel)%N →
  foldl (λ a c, a * 10 + (c - 48))%N 0%N (digits_fuel fuel n acc) = foldl (λ a c, a * 10 + (c - 48))%N n acc.
Proof.
  revert n acc. induction fuel as [|fuel IH]; intros n acc Hn.
  { change (10 ^ N.of_nat 0)%N with 1%N in Hn. apply N.lt_1_r in Hn as ->. done. }
  cbn [digits_fuel]. pose proof (N.Div0.div_mod n 10) as Hd. pose proof (N.mod_lt n 10 ltac:(done)) as Hm. destruct (decide (n / 10 = 0)%N) as [Hz|Hz].
  - cbn [foldl]. f_equal. lia.
  - rewrite IH.
    + cbn [foldl]. f_equal. rewrite (N.add_comm 48), N.add_sub. lia.
    + rewrite Nat2N.inj_succ, N.pow_succ_r' in Hn. apply N.Div0.div_lt_upper_bound. lia.
Qed.
Lemma digitsValue_str n : digitsValue (num_str n) = n.
Proof.
  unfold digitsValue, num_str. rewrite digits_value; [done|].
  eapply N.lt_le_trans; [apply size_nat_bound|]. etransitivity; [apply (N.pow_le_mono_r 2 _ (N.of_nat (S (N.size_nat n)))); lia|].
  apply N.pow_le_mono_l. lia.
Qed.
Definition floorDigits (v : option json) : option Z := match v with Some (JNum raw) => Some (Z.of_N (digitsValue raw)) | _ => None end.
Definition parseHere : option json → option Object := parseSettings lower floorDigits.
Definition saved : json :=
  JObj [(js "serverUrl", JStr (js "https://h")); (js "username", JStr (js " Me ")); (js "bulkDeleteThreshold", JNum (js "3"));
        (js "timestampCreatedKey", JStr (js "made")); (js "mounts", JArr [JNull; JObj [(js "mountPoint", JStr (js "Work/ASI ."));
          (js "source", JObj [(js "vaultId", JStr (js "v"))])]]);
        (js "configSync", JObj [(js "enabled", JBool true); (js "pluginAllow", JStr (js "ab"))])].
Definition get (o : option Object) (k : string) : option json := o ≫= λ o, jget o (js k).
Example saved_parses :
  get (parseHere (Some saved)) "username" = Some (JStr (js "me")) ∧
  get (parseHere (Some saved)) "bulkDeleteThreshold" = Some (JNum (js "3")) ∧
  get (parseHere (Some saved)) "ignoredTimestampKeys" = Some (JArr (JStr (js "made") :: DEFAULT_KEYS)) ∧
  get (parseHere (Some saved)) "timestampCreatedKey" = None ∧
  field (get (parseHere (Some saved)) "configSync") "pluginAllow" = Some (JArr [JStr (js "a"); JStr (js "b")]) ∧
  get (parseHere None) "vaultId" = Some (JStr (js "default")).
Proof. vm_compute. done. Qed.
Lemma settings_well_typed_witness : ∃ out, parseHere (Some saved) = Some out ∧ typed out.
Proof.
  destruct (parseHere (Some saved)) as [out|] eqn:H; [|vm_compute in H; discriminate].
  exists out. split; [reflexivity|]. exact (settings_well_typed lower floorDigits (Some saved) out H).
Defined.
Lemma lower_trim_again x : lower (trim (lower (trim x))) = lower (trim x).
Proof. by rewrite trim_lower, trim_trim, lower_idem. Qed.
Lemma settings_stable_witness : ∃ out out', parseHere (Some saved) = Some out ∧ parseHere (Some (JObj out)) = Some out' ∧
  jget out' (js "username") = jget out (js "username").
Proof.
  destruct (parseHere (Some saved)) as [out|] eqn:H; [|vm_compute in H; discriminate].
  destruct (settings_stable lower floorDigits lower_trim_again
    (λ n _, f_equal (λ x, Some (Z.of_N x)) (digitsValue_str n)) (Some saved) out H) as (out' & H' & Hk).
  exists out, out'. split; [reflexivity|]. split; [exact H'|]. apply Hk. discriminate.
Defined.

(** ** What modelling showed *)
(** A number where the list of synced plugins should be throws, outside the guard
    of [loadSettings]: the plugin does not load. *)
Lemma settings_can_throw :
  parseHere (Some (JObj [(js "configSync", JObj [(js "pluginAllow", JNum (js "5"))])])) = None.
Proof. vm_compute. done. Qed.
(** Fields without a guard of their own keep a value of any type. *)
Lemma settings_keep_wrong_types :
  let out := parseHere (Some (JObj [(js "serverUrl", JNum (js "5")); (js "maxSyncMB", JStr (js "x"));
    (js "configConflicts", JArr [JNull]); (js "configSync", JStr (js "ab"))])) in
  get out "serverUrl" = Some (JNum (js "5")) ∧ get out "maxSyncMB" = Some (JStr (js "x")) ∧
  get out "configConflicts" = Some (JArr [JNull]) ∧ field (get out "configSync") "0" = Some (JStr (js "a")).
Proof. vm_compute. done. Qed.
(** A mount folder changes from one load to the next. *)
Lemma mounts_not_stable :
  let once := parseHere (Some saved) in
  let twice := once ≫= λ o, parseHere (Some (JObj o)) in
  (Mounts.mountPoint <$> parseMounts (get once "mounts")) = [js "Work/ASI"] ∧
  get once "mounts" ≠ get twice "mounts".
Proof. vm_compute. split; [done|]. intros H. discriminate H. Qed.
End Settings.
