(* ===== verification/Protocol.v ===== *)
(** * Protocol: the wire records and their validation ([client/src/protocol.ts])

    Responses arrive as JS values; a number is kept as its integer value, or as
    [VNum None] when it is no integer.  [Throw] carries the field the message
    names. *)

From S2P Require Import Prelude Jsmap Effects.

Module Wire.

Record FileMeta := {
  path : jstr; hash : jstr; size : Z; mtime : Z; version : Z; chunks : list jstr;
  author : option jstr; deviceId : option jstr; deviceName : option jstr
}.
Record Deletion := {
  d_path : jstr; d_version : Z; d_author : option jstr; d_deviceId : option jstr; d_deviceName : option jstr
}.
Record ChangesResponse := {
  r_version : Z; upserts : list FileMeta; deletes : list Deletion; history_floor : option Z
}.
Record CommitRequest := {
  c_path : jstr; c_hash : jstr; c_size : Z; c_mtime : Z; c_chunks : list jstr; c_expected : option Z
}.
Record StatusResponse := {
  status : jstr; detail : jstr; s_version : Z; apiVersion : option Z; schemaHash : option jstr
}.

Inductive jsval : Type :=
| VUndef | VNull | VBool (b : bool) | VNum (n : option Z) | VStr (s : jstr)
| VArr (l : list jsval) | VObj (l : list (jstr * jsval)).
(** [o.f] on an object; a property read of another value is [undefined] here,
    since the code tests for an object first ([x?.f] for a deletion). *)
Definition prop (o : jsval) (f : jstr) : jsval :=
  match o with VObj l => default VUndef (jget l f) | _ => VUndef end.
(** [!o || typeof o !== "object"] *)
Definition isObject (o : jsval) : bool := match o with VArr _ | VObj _ => true | _ => false end.
Definition absent (v : jsval) : bool := match v with VUndef | VNull => true | _ => false end.

Inductive Malformed := Field (f : jstr) | NotObject (what : jstr).

Definition asStr (v : jsval) (f : jstr) : res Malformed jstr :=
  match v with VStr s => Ok s | _ => Throw (Field f) end.
Definition asNum (v : jsval) (f : jstr) : res Malformed Z :=
  match v with
  | VNum (Some z) => if (z <? 0)%Z then Throw (Field f) else Ok z
  | _ => Throw (Field f)
  end.
Definition asOptStr (v : jsval) (f : jstr) : res Malformed (option jstr) :=
  if absent v then Ok None
  else match asStr v f with Ok s => Ok (Some s) | Throw e => Throw e end.
Definition asOptNum (v : jsval) (f : jstr) : res Malformed (option Z) :=
  if absent v then Ok None
  else match asNum v f with Ok z => Ok (Some z) | Throw e => Throw e end.

Definition rbind {E A B} (f : A → res E B) (m : res E A) : res E B :=
  match m with Ok a => f a | Throw e => Throw e end.
Fixpoint rmap {E A B} (f : A → res E B) (l : list A) : res E (list B) :=
  match l with
  | [] => Ok []
  | x :: l => rbind (λ y, rbind (λ ys, Ok (y :: ys)) (rmap f l)) (f x)
  end.

Definition strOf (v : jsval) : option jstr := match v with VStr s => Some s | _ => None end.
(** [c.every(x => typeof x === "string")] gives the strings. *)
Definition stringArray (v : jsval) : option (list jstr) :=
  match v with VArr l => mapM strOf l | _ => None end.

Definition validateFileMeta (o : jsval) : res Malformed FileMeta :=
  if negb (isObject o) then Throw (NotObject (js "FileMeta"))
  else match stringArray (prop o (js "chunks")) with
  | None => Throw (Field (js "FileMeta.chunks"))
  | Some cs =>
      rbind (λ p, rbind (λ h, rbind (λ sz, rbind (λ mt, rbind (λ v,
      rbind (λ a, rbind (λ di, rbind (λ dn,
        Ok {| path := p; hash := h; size := sz; mtime := mt; version := v; chunks := cs;
              author := a; deviceId := di; deviceName := dn |})
      (asOptStr (prop o (js "device_name")) (js "device_name")))
      (asOptStr (prop o (js "device_id")) (js "device_id")))
      (asOptStr (prop o (js "author")) (js "author")))
      (asNum (prop o (js "version")) (js "version")))
      (asNum (prop o (js "mtime")) (js "mtime")))
      (asNum (prop o (js "size")) (js "size")))
      (asStr (prop o (js "hash")) (js "hash")))
      (asStr (prop o (js "path")) (js "path"))
  end.
Definition validateStatus (o : jsval) : res Malformed StatusResponse :=
  if negb (isObject o) then Throw (NotObject (js "StatusResponse"))
  else
    rbind (λ st, rbind (λ v, rbind (λ av,
      Ok {| status := st;
            detail := default [] (strOf (prop o (js "detail")));
            s_version := v; apiVersion := av; schemaHash := strOf (prop o (js "schema_hash")) |})
    (asOptNum (prop o (js "api_version")) (js "api_version")))
    (asNum (prop o (js "version")) (js "version")))
    (asStr (prop o (js "status")) (js "status")).
Definition validateDeletion (x : jsval) : res Malformed Deletion :=
  rbind (λ p, rbind (λ v, rbind (λ a, rbind (λ di, rbind (λ dn,
    Ok {| d_path := p; d_version := v; d_author := a; d_deviceId := di; d_deviceName := dn |})
  (asOptStr (prop x (js "device_name")) (js "delete.device_name")))
  (asOptStr (prop x (js "device_id")) (js "delete.device_id")))
  (asOptStr (prop x (js "author")) (js "delete.author")))
  (asNum (prop x (js "version")) (js "delete.version")))
  (asStr (prop x (js "path")) (js "delete.path")).
Definition validateChanges (c : jsval) : res Malformed ChangesResponse :=
  if negb (isObject c) then Throw (NotObject (js "ChangesResponse"))
  else
    rbind (λ v,
      match prop c (js "upserts"), prop c (js "deletes") with
      | VArr us, VArr ds =>
          rbind (λ us, rbind (λ ds, rbind (λ fl,
            Ok {| r_version := v; upserts := us; deletes := ds; history_floor := fl |})
          (asOptNum (prop c (js "history_floor")) (js "history_floor")))
          (rmap validateDeletion ds))
          (rmap validateFileMeta us)
      | _, _ => Throw (Field (js "upserts/deletes"))
      end)
    (asNum (prop c (js "version")) (js "version")).

(** ** What a validated response is *)
Definition optVal (o : option jstr) : jsval := match o with Some s => VStr s | None => VNull end.
Definition encodeFileMeta (m : FileMeta) : jsval :=
  VObj [(js "path", VStr (path m)); (js "hash", VStr (hash m)); (js "size", VNum (Some (size m)));
        (js "mtime", VNum (Some (mtime m))); (js "version", VNum (Some (version m)));
        (js "chunks", VArr (VStr <$> chunks m)); (js "author", optVal (author m));
        (js "device_id", optVal (deviceId m)); (js "device_name", optVal (deviceName m))].
Definition encodeDeletion (d : Deletion) : jsval :=
  VObj [(js "path", VStr (d_path d)); (js "version", VNum (Some (d_version d)));
        (js "author", optVal (d_author d)); (js "device_id", optVal (d_deviceId d));
        (js "device_name", optVal (d_deviceName d))].
Definition encodeChanges (c : ChangesResponse) : jsval :=
  VObj ([(js "version", VNum (Some (r_version c))); (js "upserts", VArr (encodeFileMeta <$> upserts c));
         (js "deletes", VArr (encodeDeletion <$> deletes c))]
        ++ match history_floor c with Some f => [(js "history_floor", VNum (Some f))] | None => [] end).
Definition meta_ok (m : FileMeta) : Prop := (0 ≤ size m ∧ 0 ≤ mtime m ∧ 0 ≤ version m)%Z.
Definition deletion_ok (d : Deletion) : Prop := (0 ≤ d_version d)%Z.
Definition changes_ok (c : ChangesResponse) : Prop :=
  (0 ≤ r_version c)%Z ∧ Forall meta_ok (upserts c) ∧ Forall deletion_ok (deletes c) ∧
  (∀ f, history_floor c = Some f → (0 ≤ f)%Z).

Lemma rbind_Ok {E A B} (f : A → res E B) m b : rbind f m = Ok b ↔ ∃ a, m = Ok a ∧ f a = Ok b.
Proof. destruct m; simpl; naive_solver. Qed.
Lemma asNum_Ok v f z : asNum v f = Ok z ↔ v = VNum (Some z) ∧ (0 ≤ z)%Z.
Proof.
  destruct v as [| | |[n|]| | |]; simpl; try naive_solver.
  destruct (Z.ltb_spec n 0); naive_solver lia.
Qed.
Lemma asOptNum_Ok v f o : asOptNum v f = Ok o → ∀ z, o = Some z → (0 ≤ z)%Z.
Proof.
  unfold asOptNum. destruct (absent v); [by intros [= <-]|].
  destruct (asNum v f) as [n|] eqn:Hn; [|done]. apply asNum_Ok in Hn as [_ Hn]. intros [= <-]. naive_solver.
Qed.
Lemma rmap_Forall {E A B} (f : A → res E B) (P : B → Prop) l ys :
  (∀ x y, f x = Ok y → P y) → rmap f l = Ok ys → Forall P ys.
Proof.
  intros Hf. revert ys. induction l as [|x l IH]; simpl; intros ys.
  - intros [= <-]. constructor.
  - intros (y & Hy & (zs & Hz & [= <-])%rbind_Ok)%rbind_Ok. constructor; eauto.
Qed.
Lemma rmap_encode {E A B} (f : A → res E B) (e : B → A) (P : B → Prop) l :
  (∀ y, P y → f (e y) = Ok y) → Forall P l → rmap f (e <$> l) = Ok l.
Proof. intros Hf. induction 1 as [|y l Hy _ IH]; [done|]. csimpl. by rewrite Hf, IH. Qed.
Lemma validateFileMeta_ok o m : validateFileMeta o = Ok m → meta_ok m.
Proof.
  unfold validateFileMeta. destruct (isObject o); simpl; [|done].
  destruct (stringArray _) as [cs|]; [|done].
  intros (p & _ & (hh & _ & (sz & Hsz & (mt & Hmt & (v & Hv & (a & _ & (di & _ & (dn & _ & [= <-])%rbind_Ok)%rbind_Ok)%rbind_Ok)%rbind_Ok)%rbind_Ok)%rbind_Ok)%rbind_Ok)%rbind_Ok.
  apply asNum_Ok in Hsz as [_ ?], Hmt as [_ ?], Hv as [_ ?]. done.
Qed.
Lemma validateDeletion_ok o d : validateDeletion o = Ok d → deletion_ok d.
Proof.
  unfold validateDeletion.
  intros (p & _ & (v & Hv & (a & _ & (di & _ & (dn & _ & [= <-])%rbind_Ok)%rbind_Ok)%rbind_Ok)%rbind_Ok)%rbind_Ok.
  by apply asNum_Ok in Hv as [_ ?].
Qed.
Lemma mapM_strOf l : mapM strOf (VStr <$> l) = Some l.
Proof. apply mapM_Some. induction l; constructor; done. Qed.
Lemma asOptStr_optVal o f : asOptStr (optVal o) f = Ok o.
Proof. by destruct o. Qed.
Lemma asNum_nonneg z f : (0 ≤ z)%Z → asNum (VNum (Some z)) f = Ok z.
Proof. intros Hz. by apply asNum_Ok. Qed.
Lemma validateFileMeta_encode m : meta_ok m → validateFileMeta (encodeFileMeta m) = Ok m.
Proof.
  intros (Hs & Hm & Hv). unfold validateFileMeta. change (isObject (encodeFileMeta m)) with true.
  change (prop (encodeFileMeta m) (js "chunks")) with (VArr (VStr <$> chunks m)).
  change (prop (encodeFileMeta m) (js "path")) with (VStr (path m)).
  change (prop (encodeFileMeta m) (js "hash")) with (VStr (hash m)).
  change (prop (encodeFileMeta m) (js "size")) with (VNum (Some (size m))).
  change (prop (encodeFileMeta m) (js "mtime")) with (VNum (Some (mtime m))).
  change (prop (encodeFileMeta m) (js "version")) with (VNum (Some (version m))).
  change (prop (encodeFileMeta m) (js "author")) with (optVal (author m)).
  change (prop (encodeFileMeta m) (js "device_id")) with (optVal (deviceId m)).
  change (prop (encodeFileMeta m) (js "device_name")) with (optVal (deviceName m)).
  unfold stringArray. rewrite mapM_strOf, !asNum_nonneg, !asOptStr_optVal by done. by destruct m.
Qed.
Lemma validateDeletion_encode d : deletion_ok d → validateDeletion (encodeDeletion d) = Ok d.
Proof.
  intros Hv. unfold validateDeletion.
  change (prop (encodeDeletion d) (js "path")) with (VStr (d_path d)).
  change (prop (encodeDeletion d) (js "version")) with (VNum (Some (d_version d))).
  change (prop (encodeDeletion d) (js "author")) with (optVal (d_author d)).
  change (prop (encodeDeletion d) (js "device_id")) with (optVal (d_deviceId d)).
  change (prop (encodeDeletion d) (js "device_name")) with (optVal (d_deviceName d)).
  rewrite asNum_nonneg, !asOptStr_optVal by done. by destruct d.
Qed.

(** A change list is trusted only when it is well formed: every number of a
    validated response is a non-negative integer, so neither the poll cursor nor a
    version can be driven to a value the server would not parse; and every
    well-formed response survives its wire form unchanged. *)
Theorem changes_validated c o :
  (validateChanges o = Ok c → changes_ok c) ∧
  (changes_ok c → validateChanges (encodeChanges c) = Ok c).
Proof.
  split.
  - unfold validateChanges. destruct (isObject o); simpl; [|done].
    intros (v & Hv & H)%rbind_Ok. apply asNum_Ok in Hv as [_ Hv].
    destruct (prop o (js "upserts")), (prop o (js "deletes")); try done.
    apply rbind_Ok in H as (us & Hus & (ds & Hds & (fl & Hfl & [= <-])%rbind_Ok)%rbind_Ok).
    split_and!; simpl; [done|..].
    + eapply rmap_Forall; [exact validateFileMeta_ok|exact Hus].
    + eapply rmap_Forall; [exact validateDeletion_ok|exact Hds].
    + by eapply asOptNum_Ok.
  - intros (Hv & Hu & Hd & Hf). destruct c as [v us ds fl]. cbn [r_version upserts deletes history_floor] in *.
    set (c := {| r_version := v; upserts := us; deletes := ds; history_floor := fl |}).
    unfold validateChanges. change (isObject (encodeChanges c)) with true.
    change (prop (encodeChanges c) (js "version")) with (VNum (Some v)).
    change (prop (encodeChanges c) (js "upserts")) with (VArr (encodeFileMeta <$> us)).
    change (prop (encodeChanges c) (js "deletes")) with (VArr (encodeDeletion <$> ds)).
    rewrite asNum_nonneg by done. cbn [negb rbind].
    rewrite (rmap_encode _ _ meta_ok) by (done || exact validateFileMeta_encode).
    rewrite (rmap_encode _ _ deletion_ok) by (done || exact validateDeletion_encode). cbn [rbind].
    destruct fl as [z|]; [|done].
    change (prop (encodeChanges c) (js "history_floor")) with (VNum (Some z)).
    unfold asOptNum. cbn [absent]. by rewrite asNum_nonneg by (apply Hf; done).
Qed.
Definition sampleChanges : ChangesResponse :=
  {| r_version := 7;
     upserts := [{| path := js "a.md"; hash := js "ff"; size := 3; mtime := 1; version := 7; chunks := [js "ff"];
                    author := Some (js "bob"); deviceId := None; deviceName := None |}];
     deletes := [{| d_path := js "b.md"; d_version := 6; d_author := None; d_deviceId := None; d_deviceName := None |}];
     history_floor := Some 1%Z |}.
Lemma changes_validated_witness :
  validateChanges (encodeChanges sampleChanges) = Ok sampleChanges ∧ changes_ok sampleChanges ∧
  validateChanges (VObj [(js "version", VNum (Some (-1)%Z))]) = Throw (Field (js "version")).
Proof.
  assert (Hok : changes_ok sampleChanges).
  { split_and!; [done|repeat constructor; done|repeat constructor; done|]. intros f [= <-]. done. }
  split; [apply (proj2 (changes_validated sampleChanges VNull)); exact Hok|]. split; [exact Hok|reflexivity].
Defined.

End Wire.
