(* ===== verification/Wiresig.v ===== *)
(** * Wiresig: compatibility of the wire contract ([client/src/wiresignature.ts])

    The client compares the server's declared signature with the one it was
    built against.  [diffSignature] and [signatureVerdict] are the field by field
    comparison, [hashCheck] the cheap gate and [checkWireCompat] the whole gate
    of a connect ([main.ts]).  [Compatible] is the contract they implement: what
    the client reads must still be guaranteed, what it sends must still be
    enough. *)

From Stdlib Require Import SpecFloat.
From S2P Require Import Prelude Jsmap Base Decide.

Module Wiresig.

Record SigField := { f_name : jstr; f_type : jstr; required : bool }.
Record Signature := {
  sig_version : Decide.double; api_version : Decide.double; endpoints : list jstr; types : list (jstr * list SigField)
}.
Record SchemaResponse := { sr_hash : jstr; signature : Signature }.
Inductive TypeRole := Request | Response.
#[export] Instance TypeRole_eq_dec : EqDecision TypeRole.
Proof. solve_decision. Defined.
Definition TYPE_ROLES : list (jstr * TypeRole) :=
  [(js "FileMeta", Response); (js "Deletion", Response); (js "ChangesResponse", Response); (js "LoginResponse", Response);
   (js "MissingResponse", Response); (js "VaultListResponse", Response); (js "StatusResponse", Response);
   (js "SharedVault", Response); (js "VaultShares", Response); (js "GrantView", Response); (js "LinkInfo", Response);
   (js "LoginRequest", Request); (js "ChangePasswordRequest", Request); (js "CommitRequest", Request);
   (js "MissingRequest", Request); (js "RegisterRequest", Request); (js "CreateVaultRequest", Request)].
Definition NON_GATING_TYPES : list jstr := [js "SharedVault"; js "VaultShares"; js "GrantView"; js "LinkInfo"].
Definition isNonGatingEndpoint (entry : jstr) : bool :=
  let path := default [] (split_on cSpace entry !! 1) in
  starts_with path (js "/api/share") || starts_with path (js "/api/admin").

(** Each constructor of [Reason] is one of the sentences of the source, with
    what it quotes. *)
Inductive Reason :=
| EpochChanged (embedded server : Decide.double)
| EndpointGone (e : jstr)
| TypeGone (t : jstr)
| FieldDropped (t f : jstr)
| Retyped (t f from to : jstr) (role : TypeRole)
| MayOmit (t f : jstr)
| NowRequires (t f : jstr).
Inductive Side := SServer | SPlugin.
#[export] Instance Side_eq_dec : EqDecision Side.
Proof. solve_decision. Defined.
Record Delta := { breaking : bool; reason : Reason; older : option Side }.

Definition byName (fields : list SigField) : list (jstr * SigField) := jof ((λ f, (f_name f, f)) <$> fields).
Definition roleOf (t : jstr) : TypeRole := default Response (jget TYPE_ROLES t).
Definition gating (t : jstr) : bool := negb (bool_decide (t ∈ NON_GATING_TYPES)).

(** A field the client reads. *)
Definition readDelta (t : jstr) (sMap : list (jstr * SigField)) (e : jstr * SigField) : list Delta :=
  let ef := e.2 in
  match jget sMap e.1 with
  | None => if required ef then [{| breaking := true; older := Some SServer; reason := FieldDropped t e.1 |}] else []
  | Some sf =>
      if negb (f_type sf === f_type ef)
      then [{| breaking := true; older := None; reason := Retyped t e.1 (f_type ef) (f_type sf) Response |}]
      else if required ef && negb (required sf)
      then [{| breaking := true; older := Some SPlugin; reason := MayOmit t e.1 |}]
      else []
  end.
(** A field the server wants. *)
Definition sendDelta (t : jstr) (eMap : list (jstr * SigField)) (s : jstr * SigField) : list Delta :=
  let sf := s.2 in
  let ef := jget eMap s.1 in
  if required sf && match ef with Some ef => negb (required ef) | None => true end
  then [{| breaking := true; older := Some SPlugin; reason := NowRequires t s.1 |}]
  else match ef with
       | Some ef =>
           if negb (f_type sf === f_type ef)
           then [{| breaking := true; older := None; reason := Retyped t s.1 (f_type ef) (f_type sf) Request |}]
           else []
       | None => []
       end.
Definition typeDeltas (server : Signature) (e : jstr * list SigField) : list Delta :=
  let t := e.1 in
  if negb (gating t) then []
  else
    match jget (types server) t with
    | None => [{| breaking := true; older := Some SServer; reason := TypeGone t |}]
    | Some sFields =>
        match roleOf t with
        | Response => concat (readDelta t (byName sFields) <$> byName e.2)
        | Request => concat (sendDelta t (byName e.2) <$> byName sFields)
        end
    end.
Definition endpointDelta (server : Signature) (e : jstr) : list Delta :=
  if isNonGatingEndpoint e then []
  else if bool_decide (e ∈ endpoints server) then []
  else [{| breaking := true; older := Some SServer; reason := EndpointGone e |}].
Definition epochDelta (embedded server : Signature) : list Delta :=
  if SFeqb (api_version embedded) (api_version server) then []
  else [{| breaking := true; reason := EpochChanged (api_version embedded) (api_version server);
           older := Some (if Decide.dgt (api_version server) (api_version embedded) then SPlugin else SServer) |}].
Definition diffSignature (embedded server : Signature) : list Delta :=
  epochDelta embedded server ++ concat (endpointDelta server <$> endpoints embedded)
  ++ concat (typeDeltas server <$> types embedded).

Inductive SignatureVerdict := Compatible_ | Incompatible (reasons : list Reason) (older : option Side).
(** [None] is the source's "either". *)
Definition olderSide (l : list Delta) : option Side :=
  if forallb (λ d, bool_decide (older d = Some SServer)) l then Some SServer
  else if forallb (λ d, bool_decide (older d = Some SPlugin)) l then Some SPlugin else None.
Definition signatureVerdict (embedded server : Signature) : SignatureVerdict :=
  match filter (λ d, breaking d = true) (diffSignature embedded server) with
  | [] => Compatible_
  | b => Incompatible (reason <$> b) (olderSide b)
  end.

Inductive HashCheck := HCompatible | NeedsDiff | FailClosed.
Definition hashCheck (serverHash verifiedHash : option jstr) : HashCheck :=
  if negb (otruthy serverHash) then FailClosed
  else if bool_decide (is_Some verifiedHash ∧ serverHash = verifiedHash) then HCompatible else NeedsDiff.

(** ** The gate of a connect

    [schema] is the answer of GET /schema, [None] when it failed or was
    malformed; the result is the decision and the verified hash afterwards. *)
Inductive Refusal := NoSignature | Unavailable | HashSkew (fetched : jstr) (advertised : option jstr)
| IncompatibleContract (reasons : list Reason) (older : option Side).
Definition checkWireCompat (embedded : Signature) (verified serverHash : option jstr) (schema : option SchemaResponse)
    : option Refusal * option jstr :=
  match hashCheck serverHash verified with
  | HCompatible => (None, verified)
  | FailClosed => (Some NoSignature, verified)
  | NeedsDiff =>
      match schema with
      | None => (Some Unavailable, verified)
      | Some sr =>
          if negb (bool_decide (serverHash = Some (sr_hash sr))) then (Some (HashSkew (sr_hash sr) serverHash), verified)
          else match signatureVerdict embedded (signature sr) with
               | Compatible_ => (None, serverHash)
               | Incompatible reasons older => (Some (IncompatibleContract reasons older), verified)
               end
      end
  end.

(** ** Validation

    The value as [validateSignature] inspects it: [None] where a part has the
    wrong type. *)
Record RawField := { raw_name : option jstr; raw_type : option jstr; raw_required : option bool }.
Record RawSignature := {
  raw_version : option Decide.double; raw_api : option Decide.double; raw_endpoints : option (list (option jstr));
  raw_types : option (list (jstr * option (list RawField)))
}.
Definition fieldOf (f : RawField) : option SigField :=
  match raw_name f, raw_type f, raw_required f with
  | Some n, Some t, Some r => Some {| f_name := n; f_type := t; required := r |}
  | _, _, _ => None
  end.
Definition typeOf (e : jstr * option (list RawField)) : option (jstr * list SigField) :=
  match e.2 with Some fs => (e.1,.) <$> mapM fieldOf fs | None => None end.
Definition validateSignature (o : option RawSignature) : option Signature :=
  match o with
  | None => None
  | Some s =>
      match raw_version s, raw_api s, raw_endpoints s ≫= mapM id, raw_types s ≫= mapM typeOf with
      | Some v, Some a, Some es, Some ts => Some {| sig_version := v; api_version := a; endpoints := es; types := ts |}
      | _, _, _, _ => None
      end
  end.
Record RawSchema := { raw_hash : option jstr; raw_signature : option RawSignature }.
Definition validateSchemaResponse (o : option RawSchema) : option SchemaResponse :=
  match o with
  | None => None
  | Some r =>
      match raw_hash r, validateSignature (raw_signature r) with
      | Some h, Some s => if negb (truthy h) then None else Some {| sr_hash := h; signature := s |}
      | _, _ => None
      end
  end.

(** ** The contract *)
Definition fieldIn (fields : list SigField) (n : jstr) : option SigField := jget (byName fields) n.
Definition reads (efields sfields : list SigField) : Prop :=
  ∀ n ef, fieldIn efields n = Some ef →
    match fieldIn sfields n with
    | None => required ef = false
    | Some sf => f_type sf = f_type ef ∧ (required ef = true → required sf = true)
    end.
Definition sends (efields sfields : list SigField) : Prop :=
  ∀ n sf, fieldIn sfields n = Some sf →
    match fieldIn efields n with
    | None => required sf = false
    | Some ef => f_type sf = f_type ef ∧ (required sf = true → required ef = true)
    end.
Definition Compatible (embedded server : Signature) : Prop :=
  SFeqb (api_version embedded) (api_version server) = true ∧
  (∀ e, e ∈ endpoints embedded → isNonGatingEndpoint e = false → e ∈ endpoints server) ∧
  (∀ t efields, (t, efields) ∈ types embedded → gating t = true →
     ∃ sfields, jget (types server) t = Some sfields ∧
       match roleOf t with Response => reads efields sfields | Request => sends efields sfields end).

Lemma concat_fmap_nil {A B} (f : A → list B) l : concat (f <$> l) = [] ↔ ∀ x, x ∈ l → f x = [].
Proof.
  induction l as [|x l IH]; cbn; [split; [intros _ x Hx; by apply not_elem_of_nil in Hx|done]|].
  rewrite app_nil, IH. split.
  - intros [H1 H2] y [->|Hy]%elem_of_cons; auto.
  - intros H. split; [apply H; left|]. intros y Hy. apply H. by right.
Qed.
Lemma byName_wf fields : jwf (byName fields).
Proof. apply jof_wf. Qed.
Lemma byName_in fields n f : (n, f) ∈ byName fields ↔ fieldIn fields n = Some f.
Proof. split; [apply jget_in, byName_wf|apply jget_Some_in]. Qed.
Lemma readDelta_nil t sfields n ef :
  readDelta t (byName sfields) (n, ef) = [] ↔
  match fieldIn sfields n with
  | None => required ef = false
  | Some sf => f_type sf = f_type ef ∧ (required ef = true → required sf = true)
  end.
Proof.
  unfold readDelta, fieldIn. cbn [fst snd]. destruct (jget _ n) as [sf|]; [|by destruct (required ef)].
  destruct (f_type sf === f_type ef) eqn:Ht; cbn; [apply jeq_true in Ht|apply jeq_false in Ht; naive_solver].
  destruct (required ef), (required sf); cbn; naive_solver.
Qed.
Lemma sendDelta_nil t efields n sf :
  sendDelta t (byName efields) (n, sf) = [] ↔
  match fieldIn efields n with
  | None => required sf = false
  | Some ef => f_type sf = f_type ef ∧ (required sf = true → required ef = true)
  end.
Proof.
  unfold sendDelta, fieldIn. cbn [fst snd]. destruct (jget _ n) as [ef|]; [|by destruct (required sf)].
  destruct (f_type sf === f_type ef) eqn:Ht; [apply jeq_true in Ht|apply jeq_false in Ht];
    destruct (required sf), (required ef); cbn; naive_solver.
Qed.
Lemma typeDeltas_nil server t efields :
  typeDeltas server (t, efields) = [] ↔
  (gating t = true → ∃ sfields, jget (types server) t = Some sfields ∧
     match roleOf t with Response => reads efields sfields | Request => sends efields sfields end).
Proof.
  unfold typeDeltas. cbn [fst snd]. destruct (gating t); cbn [negb]; [|naive_solver].
  destruct (jget (types server) t) as [sfields|]; [|naive_solver].
  transitivity (match roleOf t with Response => reads efields sfields | Request => sends efields sfields end); [|naive_solver].
  destruct (roleOf t); rewrite concat_fmap_nil; unfold reads, sends; split.
  - intros H n sf Hn. apply (sendDelta_nil t), H, byName_in, Hn.
  - intros H [n sf] Hn. apply sendDelta_nil, H, byName_in, Hn.
  - intros H n ef Hn. apply (readDelta_nil t), H, byName_in, Hn.
  - intros H [n ef] Hn. apply readDelta_nil, H, byName_in, Hn.
Qed.
Lemma diff_nil embedded server : diffSignature embedded server = [] ↔ Compatible embedded server.
Proof.
  unfold diffSignature, Compatible. rewrite !app_nil, !concat_fmap_nil. f_equiv; [|f_equiv].
  - unfold epochDelta. by destruct (SFeqb _ _).
  - apply forall_proper. intros e. unfold endpointDelta. destruct (isNonGatingEndpoint e); [naive_solver|].
    case_bool_decide; naive_solver.
  - split.
    + intros H t ef Hin. by apply typeDeltas_nil, H.
    + intros H [t ef] Hin. apply typeDeltas_nil. by apply H.
Qed.
Lemma deltas_break embedded server : Forall (λ d, breaking d = true) (diffSignature embedded server).
Proof.
  unfold diffSignature. rewrite !Forall_app. split_and!.
  - unfold epochDelta. destruct (SFeqb _ _); repeat constructor.
  - apply Forall_concat, Forall_fmap, Forall_true. intros e. cbn. unfold endpointDelta.
    destruct (isNonGatingEndpoint e); [constructor|]. case_bool_decide; repeat constructor.
  - apply Forall_concat, Forall_fmap, Forall_true. intros [t ef]. cbn. unfold typeDeltas. cbn [fst snd].
    destruct (negb _); [constructor|]. destruct (jget (types server) t); [|repeat constructor].
    destruct (roleOf _); apply Forall_concat, Forall_fmap, Forall_true; intros [n f]; cbn.
    + unfold sendDelta. cbn. repeat (case_match; try by repeat constructor).
    + unfold readDelta. cbn. repeat (case_match; try by repeat constructor).
Qed.

Lemma accepted_compatible embedded server :
  signatureVerdict embedded server = Compatible_ → Compatible embedded server.
Proof.
  rewrite <- diff_nil. unfold signatureVerdict. rewrite filter_all by apply deltas_break.
  by destruct (diffSignature embedded server).
Qed.
(** C33: The verdict is exact: a server is accepted if and only if its epoch is the
    one the plugin was built against, it exposes every endpoint the plugin needs
    outside the share and admin routes, and for every other wire type it still
    defines: each field the plugin reads has the type it expects and is
    guaranteed where the plugin needs it (a field it reads as optional may be
    missing), and each field the server wants of what the plugin sends has that
    type and is required only if the plugin always sends it. *)
Theorem verdict_exact embedded server :
  signatureVerdict embedded server = Compatible_ ↔
  SFeqb (api_version embedded) (api_version server) = true ∧
  (∀ e, e ∈ endpoints embedded → isNonGatingEndpoint e = false → e ∈ endpoints server) ∧
  (∀ t efields, (t, efields) ∈ types embedded → gating t = true →
     ∃ sfields, jget (types server) t = Some sfields ∧
       match roleOf t with Response => reads efields sfields | Request => sends efields sfields end).
Proof.
  fold (Compatible embedded server). rewrite <- diff_nil. unfold signatureVerdict.
  rewrite filter_all by apply deltas_break. by destruct (diffSignature embedded server).
Qed.

(** A contract is compatible with itself, so a release that changes no type is
    never refused. *)
Lemma identical_compatible s :
  SFeqb (api_version s) (api_version s) = true → jwf (types s) → Compatible s s.
Proof.
  intros He Hwf. split_and!; [done|done|]. intros t fields Hin _. exists fields. split; [by apply jget_in|].
  destruct (roleOf t); intros n f Hf; by rewrite Hf.
Qed.

(** ** Several connects *)
Section Session.
Context (embedded : Signature).
Definition attempt : Type := option jstr * option SchemaResponse.
Definition session (l : list attempt) : option jstr :=
  foldl (λ v a, (checkWireCompat embedded v a.1 a.2).2) None l.
(** Some connect of the session fetched a compatible signature that carries the
    advertised hash. *)
Definition vouched (l : list attempt) (h : jstr) : Prop :=
  ∃ sr, (Some h, Some sr) ∈ l ∧ sr_hash sr = h ∧ Compatible embedded (signature sr).
Lemma gate_cases v sh schema r v' :
  checkWireCompat embedded v sh schema = (r, v') →
  (v' = v ∨ (v' = sh ∧ r = None)) ∧
  (r = None → ∃ h, sh = Some h ∧ h ≠ [] ∧
     (v = Some h ∨ ∃ sr, schema = Some sr ∧ sr_hash sr = h ∧ Compatible embedded (signature sr) ∧ v' = Some h)).
Proof.
  unfold checkWireCompat, hashCheck. destruct sh as [h|]; cbn [otruthy]; [|intros [= <- <-]; split; [by left|done]].
  destruct (truthy h) eqn:Hh; cbn [negb]; [|intros [= <- <-]; split; [by left|done]]. apply truthy_true in Hh.
  case_bool_decide as Hv; [intros [= <- <-]; split; [by left|]; intros _; exists h; destruct Hv as [_ <-]; auto|].
  destruct schema as [sr|]; [|intros [= <- <-]; split; [by left|done]].
  case_bool_decide as Hs; cbn [negb]; [|intros [= <- <-]; split; [by left|done]].
  destruct (signatureVerdict embedded (signature sr)) eqn:Hver; [|intros [= <- <-]; split; [by left|done]].
  intros [= <- <-]. split; [by right|]. intros _. exists h. split_and!; [done|done|]. right. exists sr.
  apply accepted_compatible in Hver. split_and!; [done|by simplify_eq|exact Hver|done].
Qed.

(** C34: Only a verified contract is ever trusted: over any sequence of connects, a
    connect is let through only when the server advertised a non-empty hash for
    which some connect of this session, this one included, fetched a signature
    that carries that very hash and is compatible; anything absent, unfetchable,
    malformed or skewed is refused. *)
Theorem gate_fails_closed l sh schema :
  (checkWireCompat embedded (session l) sh schema).1 = None →
  ∃ h, sh = Some h ∧ h ≠ [] ∧ vouched (l ++ [(sh, schema)]) h.
Proof.
  assert (Hsession : ∀ h, session l = Some h → vouched l h).
  { induction l as [|[sh' sc'] l IH] using rev_ind; [done|]. intros h. unfold session. rewrite foldl_snoc. cbn [fst snd].
    fold (session l). destruct (checkWireCompat embedded (session l) sh' sc') as [r v'] eqn:Hg. cbn.
    apply gate_cases in Hg as [Hv Hr]. intros ->.
    assert (Hold : session l = Some h → vouched (l ++ [(sh', sc')]) h).
    { intros Hs. destruct (IH h Hs) as (sr & Hin & H). exists sr. rewrite elem_of_app. auto. }
    destruct Hv as [Hv|[Hv ->]]; [by apply Hold|].
    destruct (Hr eq_refl) as (h' & -> & _ & [Hs|(sr & -> & Hh & Hc & _)]); injection Hv as <-; [by apply Hold|].
    exists sr. rewrite elem_of_app, list_elem_of_singleton. auto. }
  destruct (checkWireCompat embedded (session l) sh schema) as [r v'] eqn:Hg. cbn. intros ->.
  apply gate_cases in Hg as [_ Hr]. destruct (Hr eq_refl) as (h & -> & Hne & Hcase).
  exists h. split_and!; [done|done|]. destruct Hcase as [Hs|(sr & -> & Hh & Hc & _)].
  - destruct (Hsession h Hs) as (sr & Hin & H). exists sr. rewrite elem_of_app. auto.
  - exists sr. rewrite elem_of_app, list_elem_of_singleton. auto.
Qed.
End Session.

(** ** Witnesses *)
Definition demoSig (fields : list SigField) : Signature :=
  {| sig_version := Decide.dbl 1; api_version := Decide.dbl 1; endpoints := [js "GET /api/v/:vault/changes"];
     types := [(js "Deletion", fields)] |}.
Definition demoPath : SigField := {| f_name := js "path"; f_type := js "string"; required := true |}.
Definition demoAuthor : SigField := {| f_name := js "author"; f_type := js "string"; required := false |}.
(** A plugin that reads an optional field accepts an older server without it,
    and refuses one that may omit a required field. *)
Example optional_field_is_additive :
  signatureVerdict (demoSig [demoPath; demoAuthor]) (demoSig [demoPath]) = Compatible_ ∧
  signatureVerdict (demoSig [demoPath]) (demoSig [{| f_name := js "path"; f_type := js "string"; required := false |}])
    = Incompatible [MayOmit (js "Deletion") (js "path")] (Some SPlugin).
Proof. vm_compute. auto. Qed.
Lemma gate_fails_closed_witness :
  vouched (demoSig [demoPath]) [(Some (js "h1"), Some {| sr_hash := js "h1"; signature := demoSig [demoPath; demoAuthor] |});
    (Some (js "h1"), None)] (js "h1").
Proof.
  destruct (gate_fails_closed (demoSig [demoPath])
    [(Some (js "h1"), Some {| sr_hash := js "h1"; signature := demoSig [demoPath; demoAuthor] |})] (Some (js "h1")) None)
    as (h & Hh & _ & Hv); [vm_compute; reflexivity|].
  injection Hh as <-. exact Hv.
Defined.
End Wiresig.
