(* ===== verification/Sync.v ===== *)
(** * Sync: the transfer layer ([client/src/sync.ts])

    [Iface] is what the client calls: the vault adapter, the server, the clock
    and the plugin's callbacks, with the client's mutable objects.  [Transfer] is
    chunk transfer: the bounded worker pool, verified download, streamed download
    and content-addressed upload. *)

From S2P Require Import Prelude Jsmap Effects Paths Base Decide Streamhash Chunker Protocol.

Module Iface.

Definition bytes : Type := list N.
Definition len (b : bytes) : Z := Z.of_nat (length b).

Inductive Err : Type :=
| ErrMsg (message : jstr)
| CommitConflictError (message : jstr)
| CommitRejectedError (message : jstr) (status : Z)
| StreamRaceAbort.
Definition message (e : Err) : jstr :=
  match e with
  | ErrMsg m | CommitConflictError m | CommitRejectedError m _ => m
  | StreamRaceAbort => js "stream race: config adjudication"
  end.

Record Stat := { st_size : Z; st_mtime : Z }.
Record RemotePlugin := { rp_id : jstr; rp_author : option jstr }.

(** The callbacks of [ReconcileDeps] that only report. *)
Inductive Notice : Type :=
| NConflict (path copy : jstr) | NBaseChanged | NGuard (path : jstr) | NFlipHeld (path : jstr)
| NPushGuard (path : jstr) | NSkip (path : jstr) (size : Z) | NReadOnly (path : jstr)
| NReadOnlyCopy (path : jstr) | NProgress (pending : Z) | NPathWork (busy failed : bool)
| NPathSettled (path : jstr) | NDecision (path : jstr) (action : Decide.Action) (effect : Decide.ReconcileEffect)
| NStage (stage : jstr) | NConfigConflict (path : jstr) (reason : jstr) | NConfigResolved (path : jstr)
| NRemoteConfig (path : jstr) (meta : Wire.FileMeta)
| NRemoteConfigDelete (path : jstr) (author deviceId deviceName : option jstr)
| NFileError (path : jstr) (e : Err) | NPushHeld (path : jstr) | NPathAliased (localPath canonicalPath : jstr)
| NDeclined (paths : list jstr) | NRemotePlugins (l : list RemotePlugin) | NKeptAbsent (path : jstr)
| NPullExhausted (path : jstr).

(** Every call that leaves the client. *)
Inductive Op : Type :=
| IoList | IoRead (path : jstr) | IoWrite (path : jstr) (b : bytes) | IoRemove (path : jstr)
| IoExists (path : jstr)
| AppendOpen (path : jstr) | AppendChunk (path : jstr) (b : bytes) | AppendClose (path : jstr) | AppendAbort (path : jstr)
| ApiChanges (since : Z) | ApiFileMeta (path : jstr) | ApiMissing (hashes : list jstr)
| ApiGetChunk (hash : jstr) | ApiPutChunk (hash : jstr) (b : bytes)
| ApiCommit (req : Wire.CommitRequest) | ApiDelete (path : jstr) (expectedVersion : option Z)
| NowUtc | NowMs | Alive | LocalSizeOf (path : jstr) | StatOf (path : jstr)
| FlipHold (path hash : jstr) (b : option bytes)
| Say (n : Notice) | Violation (v : Identity.PathViolation).
Definition Ans (o : Op) : Type :=
  match o with
  | IoList => res Err (list (jstr * Stat))
  | IoRead _ | ApiGetChunk _ => res Err bytes
  | IoExists _ => res Err bool
  | ApiChanges _ => res Err Wire.ChangesResponse
  | ApiFileMeta _ => res Err (option Wire.FileMeta)
  | ApiMissing _ => res Err (list jstr)
  | ApiCommit _ => res Err Wire.FileMeta
  | IoWrite _ _ | IoRemove _ | AppendOpen _ | AppendChunk _ _ | AppendClose _ | AppendAbort _
  | ApiPutChunk _ _ | ApiDelete _ _ | Violation _ => res Err unit
  | NowUtc => Store.UTCDate
  | NowMs | LocalSizeOf _ => Z
  | Alive | FlipHold _ _ _ => bool
  | StatOf _ => option Stat
  | Say _ => unit
  end.

(** The objects the reconciler shares and mutates; [None] is a map that is not
    wired.  The last record holds the locals its workers share. *)
Record Pass := { connAbort : option Err; failed : list Z; pending : Z; examined : nat; signalled : bool }.
Record State := {
  base : Store.BaseStore; version : Z; cache : list (jstr * bytes);
  rejected : option (list (jstr * jstr)); ambiguous : option (list jstr); budget : Decide.RetryBudget;
  pass : Pass
}.
Definition setB (b : Store.BaseStore) (s : State) : State :=
  {| base := b; version := version s; cache := cache s; rejected := rejected s; ambiguous := ambiguous s;
     budget := budget s; pass := pass s |}.
Definition setVersion (v : Z) (s : State) : State :=
  {| base := base s; version := v; cache := cache s; rejected := rejected s; ambiguous := ambiguous s;
     budget := budget s; pass := pass s |}.
Definition setCache (c : list (jstr * bytes)) (s : State) : State :=
  {| base := base s; version := version s; cache := c; rejected := rejected s; ambiguous := ambiguous s;
     budget := budget s; pass := pass s |}.
Definition setRejected (r : option (list (jstr * jstr))) (s : State) : State :=
  {| base := base s; version := version s; cache := cache s; rejected := r; ambiguous := ambiguous s;
     budget := budget s; pass := pass s |}.
Definition setAmbiguous (a : option (list jstr)) (s : State) : State :=
  {| base := base s; version := version s; cache := cache s; rejected := rejected s; ambiguous := a;
     budget := budget s; pass := pass s |}.
Definition setBudget (b : Decide.RetryBudget) (s : State) : State :=
  {| base := base s; version := version s; cache := cache s; rejected := rejected s; ambiguous := ambiguous s;
     budget := b; pass := pass s |}.
Definition setPass (p : Pass) (s : State) : State :=
  {| base := base s; version := version s; cache := cache s; rejected := rejected s; ambiguous := ambiguous s;
     budget := budget s; pass := p |}.

Abbreviation Client := (M Ans State Err).
Abbreviation History := (hist Ans State Err).
(** A call whose error answer is thrown. *)
Definition await {A} (o : Op) (view : Ans o → res Err A) : Client A := callE o view.
Definition say (n : Notice) : Client unit := bindM (call (Say n)) (λ _, mret' tt).
Definition read (p : jstr) : Client bytes := await (IoRead p) id.
Definition write (p : jstr) (b : bytes) : Client unit := await (IoWrite p b) id.
Definition remove (p : jstr) : Client unit := await (IoRemove p) id.
Definition exists_ (p : jstr) : Client bool := await (IoExists p) id.
Definition listing : Client (list (jstr * Stat)) := await IoList id.
Definition changes (v : Z) : Client Wire.ChangesResponse := await (ApiChanges v) id.
Definition fileMeta (p : jstr) : Client (option Wire.FileMeta) := await (ApiFileMeta p) id.
Definition deleteFile (p : jstr) (v : option Z) : Client unit := await (ApiDelete p v) id.
Definition violation (v : Identity.PathViolation) : Client unit := await (Violation v) id.

End Iface.
Export Iface.

Module Transfer.

Definition MAX_CACHE_ENTRIES : nat := 512.
Definition MISSING_BATCH : nat := 5000.
Definition TRANSFER_CONCURRENCY : nat := 6.

Definition cachePut (cache : list (jstr * bytes)) (hash : jstr) (b : bytes) : list (jstr * bytes) :=
  if jhas cache hash then cache
  else jset (if MAX_CACHE_ENTRIES <=? length cache then tail cache else cache) hash b.

(** ** [mapPool]

    [limit] workers claim indices from a shared counter; an error stops the
    claims and is the pool's result, the first one in time. *)
Definition newPool : Client nat := do NewPool.
(** [next++] and [aborted] *)
Definition nextItem (id : nat) : Client (nat * bool) := do (NextItem id).
Definition stopPool (id : nat) (e : Err) : Client unit := do (StopPool id e).
Definition poolError (id : nat) : Client (option Err) := do (PoolError id).
Section Pool.
Context {A R : Type} (items : list A) (f : A → nat → Client R).
Fixpoint worker (id : nat) (fuel : nat) (acc : list (nat * R)) : Client (list (nat * R)) :=
  match fuel with
  | 0 => mret' acc
  | S fuel =>
      let* ' (i, aborted) := nextItem id in
      match items !! i with
      | Some x =>
          if aborted then mret' acc
          else
            let* r := try_catch (f x i) (λ e, stopPool id e ;; throw e) in
            worker id fuel ((i, r) :: acc)
      | None => mret' acc
      end
  end.
Definition firstThrow (rs : list (res Err (list (nat * R)))) : option Err :=
  head (omap (λ r, match r with Throw e => Some e | Ok _ => None end) rs).
Definition resultAt (rs : list (res Err (list (nat * R)))) (i : nat) : option R :=
  head (omap (λ ir : nat * R, if decide (ir.1 = i) then Some ir.2 else None)
          (concat ((λ r, match r with Ok l => l | Throw _ => [] end) <$> rs))).
Definition mapPool (limit : nat) : Client (list R) :=
  let* id := newPool in
  io_bind (λ rs,
    match firstThrow rs with
    | Some e => let* first := poolError id in throw (default e first)
    | None => mret' (omap (resultAt rs) (seq 0 (length items)))
    end)
  (par_list (replicate (Nat.min (Nat.max 1 limit) (length items)) (worker id (S (length items)) []))).
End Pool.

Section Transfer.
Context (sha256hex : bytes → jstr).

Definition short (h : jstr) (n : nat) : jstr := take n h.
Definition chunkError (hash : jstr) : Err :=
  ErrMsg (js "chunk " ++ short hash 8 ++ js " failed content verification").
Definition getVerifiedChunk (hash : jstr) : Client bytes :=
  let* hit := gets (λ s, jget (cache s) hash) in
  match hit with
  | Some b => mret' b
  | None =>
      let* b := await (ApiGetChunk hash) id in
      if negb (sha256hex b === hash) then throw (chunkError hash)
      else modify (λ s, setCache (cachePut (cache s) hash b) s) ;; mret' b
  end.
Definition fetchFileBytes (chunks : list jstr) : Client bytes :=
  let* parts := mapPool chunks (λ h _, getVerifiedChunk h) TRANSFER_CONCURRENCY in
  mret' (concat parts).

Definition dash : jstr := js " " ++ [8212%N] ++ js " not applying (bad chunk manifest?)".
Definition sizeError (path : jstr) (written expected : Z) : Err :=
  ErrMsg (js "streamed reassembly of '" ++ path ++ js "' is " ++ num_str (Z.to_N written) ++ js " bytes, expected "
          ++ num_str (Z.to_N expected) ++ dash).
Definition hashError (path got expected : jstr) : Err :=
  ErrMsg (js "streamed reassembly of '" ++ path ++ js "' failed the whole-file hash (got " ++ short got 12
          ++ js ", expected " ++ short expected 12 ++ js ")" ++ dash).
Definition finalizedError : Err := ErrMsg (js "Sha256: update() after hexDigest()").
(** The loop of [streamFileToDisk]: each verified chunk is appended and hashed. *)
Fixpoint streamChunks (path : jstr) (chunks : list jstr) (written : Z) (hasher : Sha.Sha256) : Client (Z * Sha.Sha256) :=
  match chunks with
  | [] => mret' (written, hasher)
  | h :: chunks =>
      let* b := getVerifiedChunk h in
      await (AppendChunk path b) id ;;
      match Sha.update hasher b with
      | Some hasher => streamChunks path chunks (written + len b) hasher
      | None => throw finalizedError
      end
  end.
(** [false] when the adapter cannot append. *)
Definition streamFileToDisk (hasAppend : bool) (path : jstr) (chunks : list jstr) (expectedSize : Z)
    (expectedHash : jstr) (beforeRename : option (Client unit)) : Client bool :=
  if negb hasAppend then mret' false
  else
    await (AppendOpen path) id ;;
    try_catch
      (let* ' (written, hasher) := streamChunks path chunks 0 Sha.newSha256 in
       if negb (written =? expectedSize)%Z then throw (sizeError path written expectedSize)
       else match Sha.hexDigest hasher with
            | None => throw finalizedError
            | Some (got, _) =>
                if negb (got === expectedHash) then throw (hashError path got expectedHash)
                else (match beforeRename with Some m => m | None => mret' tt end) ;;
                     await (AppendClose path) id ;;
                     mret' true
            end)
      (λ e, try_catch (await (AppendAbort path) id) (λ _, mret' tt) ;; throw e).

(** ** Upload *)
Record PushResult := { pr_hash : jstr; pr_bytes : bytes }.
Fixpoint batches {T} (n fuel : nat) (l : list T) : list (list T) :=
  match fuel, l with
  | S fuel, _ :: _ => take n l :: batches n fuel (drop n l)
  | _, _ => []
  end.
Definition commitBytes (path : jstr) (b : bytes) (expectedVersion : option Z) : Client PushResult :=
  let chunks := Cdc.chunk sha256hex b in
  modify (λ s, setCache (foldl (λ c ch, cachePut c (Cdc.hash ch) (Cdc.bytes ch)) (cache s) chunks) s) ;;
  let hashes := Cdc.hash <$> chunks in
  let* answers := map_each (batches MISSING_BATCH (length hashes) hashes) (λ hs, await (ApiMissing hs) id) in
  let missing := concat answers in
  let toPush := filter (λ c, Cdc.hash c ∈ missing) chunks in
  mapPool toPush (λ c _, await (ApiPutChunk (Cdc.hash c) (Cdc.bytes c)) id) TRANSFER_CONCURRENCY ;;
  let fileHash := sha256hex b in
  let* now := call NowMs in
  await (ApiCommit {| Wire.c_path := path; Wire.c_hash := fileHash; Wire.c_size := len b; Wire.c_mtime := now;
                      Wire.c_chunks := hashes; Wire.c_expected := expectedVersion |}) id ;;
  mret' {| pr_hash := fileHash; pr_bytes := b |}.
Definition pushBytes (path : jstr) (b : bytes) (expectedVersion : option Z) : Client PushResult :=
  write path b ;;
  commitBytes path b expectedVersion.
Definition pushFile (path : jstr) (expectedVersion : option Z) : Client PushResult :=
  let* b := read path in
  commitBytes path b expectedVersion.
End Transfer.

End Transfer.
