(* ===== verification/Conflicts.v ===== *)
(** * Conflicts: resolving the conflicts of notes
    ([client/src/noteconflict.ts], [client/src/main.ts])

    [Diff] is the comparison the user is shown, [Resolution] what happens to the
    two files when the user picks a side, keeps both, or when the plugin itself
    clears a conflict whose sides are the same content, and the state machine the
    window drives meanwhile. *)

From S2P Require Import Prelude Jsmap Effects Fsm Lifecycle Merge Frontmatter Base Sync.

Module Diff.
Import Merge.Align Merge.Preview.

(** ** Characters that cannot be seen *)
Definition NBSP : N := 160%N.
(** [[\u200B-\u200D\uFEFF]] *)
Definition zeroWidth (c : N) : bool := bool_decide ((8203 ≤ c ∧ c ≤ 8205) ∨ c = 65279)%N.
Definition ARROW : N := 8594%N.
Definition OPENBOX : N := 9021%N.
Definition EMPTYSET : N := 8709%N.
Definition MIDDOT : N := 183%N.
(** The first three replacements, unit by unit. *)
Definition revealUnit (c : N) : N :=
  if decide (c = cTab) then ARROW else if decide (c = NBSP) then OPENBOX else if zeroWidth c then EMPTYSET else c.
Definition trailing (f : N → bool) (s : jstr) : nat := length s - length (Front.dropEnd f s).
Definition revealInvisible (text : jstr) : jstr :=
  let s := revealUnit <$> text in
  let n := trailing (λ c, bool_decide (c = cSpace)) s in
  take (length s - n) s ++ replicate n MIDDOT.

Section Invisible.
Context (nfc : jstr → jstr).
Definition foldInvisible (s : jstr) : jstr :=
  let blank := (λ c, if bool_decide (c = cTab ∨ c = NBSP) then cSpace else c) <$> s in
  nfc (trim_end (filter (λ c, zeroWidth c = false) blank)).
Definition minusLines (l : list DiffLine) : list jstr := omap (λ d, match d with Del t => Some t | _ => None end) l.
Definition plusLines (l : list DiffLine) : list jstr := omap (λ d, match d with Add t => Some t | _ => None end) l.
Definition invisibleOnlyDifference (lines : list DiffLine) : bool :=
  let minus := jsort (foldInvisible <$> minusLines lines) in
  let plus := jsort (foldInvisible <$> plusLines lines) in
  if (length minus =? 0) && (length plus =? 0) then false
  else (length minus =? length plus) && bool_decide (minus = plus).
End Invisible.

(** ** The diff *)
Definition MAX_DIFF_CELLS : Z := 2000000.
Definition normEol (s : jstr) : jstr := Front.trimTrailing (Front.toLF s).
Fixpoint common (A B : list jstr) : nat :=
  match A, B with
  | a :: A, b :: B => if a === b then S (common A B) else 0
  | _, _ => 0
  end.
Definition middle (midA midB : list jstr) : list DiffLine :=
  if (MAX_DIFF_CELLS <? Z.of_nat (length midA) * Z.of_nat (length midB))%Z
  then (Del <$> midA) ++ (Add <$> midB)
  else diffFrom midA midB (lcsPairs midA midB) 0 0.
Definition lineDiffOf (A B : list jstr) : list DiffLine :=
  let pre := common A B in
  let suf := common (reverse (drop pre A)) (reverse (drop pre B)) in
  let midA := take (length A - suf - pre) (drop pre A) in
  let midB := take (length B - suf - pre) (drop pre B) in
  (Ctx <$> take pre A) ++ middle midA midB ++ (Ctx <$> drop (length A - suf) A).
Definition unifiedLineDiff (theirs mine : jstr) : list DiffLine :=
  lineDiffOf (split_on cLF (normEol theirs)) (split_on cLF (normEol mine)).

(** ** Cutting off what both sides share *)
Lemma common_split A B : ∃ P A' B', A = P ++ A' ∧ B = P ++ B' ∧ length P = common A B.
Proof.
  revert B. induction A as [|a A IH]; intros [|b B]; cbn [common]; try (by exists [], [], []); try (by eexists [], _, _).
  destruct (a === b) eqn:Hab; [|by eexists [], _, _]. apply jeq_true in Hab as <-.
  destruct (IH B) as (P & A' & B' & -> & -> & Hl). exists (a :: P), A', B'. cbn. by rewrite Hl.
Qed.
Lemma cut_middle (A B : list jstr) :
  let pre := common A B in
  let suf := common (reverse (drop pre A)) (reverse (drop pre B)) in
  ∃ P MA MB Q, A = P ++ MA ++ Q ∧ B = P ++ MB ++ Q ∧ length P = pre ∧ length Q = suf.
Proof.
  cbv zeta. destruct (common_split A B) as (P & A' & B' & HA & HB & HP).
  rewrite <- HP, HA, HB, !drop_app_length.
  destruct (common_split (reverse A') (reverse B')) as (R & RA & RB & HRA & HRB & HR).
  exists P, (reverse RA), (reverse RB), (reverse R).
  rewrite <- !reverse_app, <- HRA, <- HRB, !reverse_involutive, length_reverse. auto.
Qed.
Lemma lineDiffOf_cut A B : ∃ P MA MB Q, A = P ++ MA ++ Q ∧ B = P ++ MB ++ Q ∧
  lineDiffOf A B = (Ctx <$> P) ++ middle MA MB ++ (Ctx <$> Q).
Proof.
  destruct (cut_middle A B) as (P & MA & MB & Q & HA & HB & HP & HQ). exists P, MA, MB, Q. split_and!; [done..|].
  unfold lineDiffOf. rewrite <- HP in *. rewrite <- HQ. clear HP HQ. rewrite HA, HB, !drop_app_length, take_app_length, !length_app.
  replace (length P + (length MA + length Q) - length Q - length P) with (length MA) by lia.
  replace (length P + (length MB + length Q) - length Q - length P) with (length MB) by lia.
  replace (length P + (length MA + length Q) - length Q) with (length (P ++ MA)) by (rewrite length_app; lia).
  rewrite !take_app_length, (app_assoc P MA Q), drop_app_length. done.
Qed.
(** A line both sides begin (or end) with is in some longest common subsequence. *)
Lemma sublist_head (x : jstr) A B s :
  s `sublist_of` x :: A → s `sublist_of` x :: B →
  ∃ s', s' `sublist_of` A ∧ s' `sublist_of` B ∧ length s ≤ S (length s').
Proof.
  intros HA HB. apply sublist_cons_r in HA as [HA|(s1 & -> & HA)]; apply sublist_cons_r in HB as [HB|(s2 & Hs & HB)].
  - exists s. split_and!; [done..|lia].
  - subst s. exists s2. split_and!; [|done|done]. etransitivity; [|exact HA]. by apply sublist_cons.
  - exists s1. split_and!; [done| |done]. etransitivity; [|exact HB]. by apply sublist_cons.
  - injection Hs as <-. by exists s1.
Qed.
Lemma sublist_prefix (P A B s : list jstr) :
  s `sublist_of` P ++ A → s `sublist_of` P ++ B →
  ∃ s', s' `sublist_of` A ∧ s' `sublist_of` B ∧ length s ≤ length P + length s'.
Proof.
  revert s. induction P as [|x P IH]; intros s HA HB; [exists s; auto|].
  destruct (sublist_head x _ _ s HA HB) as (s1 & H1 & H2 & Hl). destruct (IH s1 H1 H2) as (s' & ? & ? & ?).
  exists s'. cbn. split_and!; [done..|lia].
Qed.
Lemma sublist_rev (s l : list jstr) : s `sublist_of` l → reverse s `sublist_of` reverse l.
Proof.
  induction 1 as [|x s l _ IH|x s l _ IH]; [done|..]; rewrite ?reverse_cons.
  - by apply sublist_app.
  - by apply sublist_inserts_r.
Qed.
Lemma sublist_suffix (A B Q s : list jstr) :
  s `sublist_of` A ++ Q → s `sublist_of` B ++ Q →
  ∃ s', s' `sublist_of` A ∧ s' `sublist_of` B ∧ length s ≤ length s' + length Q.
Proof.
  intros HA%sublist_rev HB%sublist_rev. rewrite !reverse_app in HA, HB.
  destruct (sublist_prefix _ _ _ _ HA HB) as (s' & H1%sublist_rev & H2%sublist_rev & Hl).
  rewrite !reverse_involutive in H1, H2. exists (reverse s'). rewrite !length_reverse in *. split_and!; [done..|lia].
Qed.

(** ** The diff is exact *)
Definition kept (d : list DiffLine) : nat := length (filter (λ x, isCtx x = true) d).
Lemma ctx_lines (l : list jstr) : omap oldLine (Ctx <$> l) = l ∧ omap newLine (Ctx <$> l) = l ∧ kept (Ctx <$> l) = length l.
Proof. unfold kept. induction l as [|t l (IH1 & IH2 & IH3)]; [done|]. csimpl. by rewrite IH1, IH2, IH3. Qed.
Lemma kept_app a b : kept (a ++ b) = kept a + kept b.
Proof. unfold kept. by rewrite filter_app, length_app. Qed.
Lemma middle_exact A B :
  omap oldLine (middle A B) = A ∧ omap newLine (middle A B) = B ∧
  ((Z.of_nat (length A) * Z.of_nat (length B) ≤ MAX_DIFF_CELLS)%Z →
   ∀ s, s `sublist_of` A → s `sublist_of` B → length s ≤ kept (middle A B)).
Proof.
  unfold middle. destruct (_ <? _)%Z eqn:Hc.
  - rewrite !omap_app, omap_Del_old, omap_Add_old, omap_Del_new, omap_Add_new, app_nil_r.
    split_and!; [done..|]. intros Hle. apply Z.ltb_lt in Hc. lia.
  - destruct (lcsPairs_sound A B) as (Hs & Hm).
    destruct (diffFrom_texts A B (lcsPairs A B) 0 0 Hs Hm) as (Ho & Hn & Hk).
    { apply Forall_forall. intros [? ?] _. split; cbn; lia. }
    rewrite Ho, Hn, !drop_0. split_and!; [done..|]. intros _ s HA HB. unfold kept. rewrite Hk. by apply lcsPairs_optimal.
Qed.

(** The comparison shown for a conflict hides nothing: its context and
    removed lines spell the other device's text, its context and added lines
    this device's, both as they are apart from line ends and blank lines at the
    end; and no comparison of the two shows fewer changed lines, unless the parts
    that differ are larger than the bound. *)
Theorem review_diff_exact theirs mine :
  let d := unifiedLineDiff theirs mine in
  join_with cLF (omap oldLine d) = normEol theirs ∧
  join_with cLF (omap newLine d) = normEol mine ∧
  ((Z.of_nat (length (split_on cLF (normEol theirs))) * Z.of_nat (length (split_on cLF (normEol mine))) ≤ MAX_DIFF_CELLS)%Z →
   ∀ s, s `sublist_of` omap oldLine d → s `sublist_of` omap newLine d → length s ≤ kept d).
Proof.
  cbv zeta. unfold unifiedLineDiff. set (A := split_on cLF (normEol theirs)). set (B := split_on cLF (normEol mine)).
  destruct (lineDiffOf_cut A B) as (P & MA & MB & Q & HA & HB & ->).
  destruct (middle_exact MA MB) as (Ho & Hn & Hopt). destruct (ctx_lines P) as (HP1 & HP2 & HP3).
  destruct (ctx_lines Q) as (HQ1 & HQ2 & HQ3).
  rewrite !omap_app, HP1, HP2, HQ1, HQ2, Ho, Hn, <- HA, <- HB, !kept_app, HP3, HQ3.
  split_and!; [apply join_split..|]. intros Hle s HsA HsB. rewrite HA in HsA. rewrite HB in HsB.
  destruct (sublist_prefix _ _ _ _ HsA HsB) as (s1 & H1 & H2 & Hl1).
  destruct (sublist_suffix _ _ _ _ H1 H2) as (s2 & H3 & H4 & Hl2).
  specialize (Hopt ltac:(rewrite HA, HB, !length_app in Hle; nia) s2 H3 H4). lia.
Qed.

(** Cutting off the common lines first can align the rest differently from the
    comparison of the whole texts; the number of changed lines is the same. *)
Lemma cut_can_realign :
  let A := [js "p"; js "a"] in let B := [js "q"; js "a"; js "a"] in
  lineDiffOf A B = [Del (js "p"); Add (js "q"); Add (js "a"); Ctx (js "a")] ∧
  diffFrom A B (lcsPairs A B) 0 0 = [Del (js "p"); Add (js "q"); Ctx (js "a"); Add (js "a")].
Proof. vm_compute. done. Qed.
Example reveal_example : revealInvisible (js "tags:  ") = js "tags:" ++ [183; 183]%N ∧
  invisibleOnlyDifference id [Del (js "tags:"); Add (js "tags: ")] = true ∧
  invisibleOnlyDifference id [Del (js "a"); Add (js "b")] = false.
Proof. vm_compute. done. Qed.
End Diff.

Module Resolution.
Import Iface Lifecycle.Resolve.

(** ** The calls *)
Inductive Choice := Mine | Theirs | Manual | Both.
Inductive Verdict := Match | Changed | Unreadable.
#[export] Instance Verdict_eq_dec : EqDecision Verdict.
Proof. solve_decision. Defined.
Inductive ROp : Type :=
| GetFiles | Read (p : jstr) | Write (p : jstr) (b : bytes) | Remove (p : jstr) | Exists (p : jstr)
| PatternsFor (p : jstr) | Today | ShouldContinue
| OpenLink (p : jstr) (split : bool) | OnStep (s : ResolveStep) | Enqueue (p : jstr) (size : Z)
| RefreshUi | NoticeStale (v : Verdict) (p : jstr).
Definition RAns (o : ROp) : Type :=
  match o with
  | GetFiles => list jstr
  | Read _ => res Err bytes
  | Exists _ => res Err bool
  | Write _ _ | Remove _ | OpenLink _ _ => res Err unit
  | PatternsFor _ => list jstr
  | Today => Store.UTCDate
  | ShouldContinue => bool
  | _ => unit
  end.
Abbreviation R := (M RAns unit Err).
Abbreviation RHistory := (hist RAns unit Err).
Definition tell (o : ROp) : R unit := bindM (call o) (λ _, mret' tt).
Notation need o := (callE o id) (only parsing).

Section Resolution.
Context (nfc : jstr → jstr) (decodeUtf8 : bytes → option jstr) (decodeLossy : bytes → jstr).
(** Whether the adapter can answer [exists]. *)
Context (hasExists : bool).

Definition same (patterns : list jstr) (a b : jstr) : bool :=
  Front.normalizedContent nfc a patterns === Front.normalizedContent nfc b patterns.
Definition readBytesOrNull (p : jstr) : R (option bytes) :=
  try_catch (let* b := need (Read p) in mret' (Some b)) (λ _, mret' None).
Definition previewStillCurrent (original previewedOther : jstr) : R Verdict :=
  let* b := readBytesOrNull original in
  match b with
  | None => mret' Unreadable
  | Some b =>
      let* pats := call (PatternsFor original) in
      mret' (if same pats (decodeLossy b) previewedOther then Match else Changed)
  end.
(** The guard runs only when the window showed the other version. *)
Definition preview (original : jstr) (previewedOther : option jstr) : R Verdict :=
  match previewedOther with None => mret' Match | Some t => previewStillCurrent original t end.
Definition present (p : jstr) (otherwise : bool) : R bool :=
  if hasExists then need (Exists p) else mret' otherwise.

(** ** Keeping both *)
(** The loop over names; [togo] counts down from 99. *)
Fixpoint freeName (original : jstr) (togo : nat) (name : jstr) : R jstr :=
  let* there := present name false in
  match togo with
  | S togo =>
      if (there : bool) then
        let* w := call Today in freeName original togo (Store.keptBothName original w (N.of_nat (99 - togo)))
      else mret' name
  | 0 => mret' name
  end.
Definition keepBoth (copy original : jstr) : R bool :=
  tell (OnStep KeepingBoth) ;;
  let* there := present copy true in
  if negb there then mret' true
  else
    let* w := call Today in
    let* name := freeName original 99 (Store.keptBothName original w 0) in
    let* b := need (Read copy) in
    need (Write name b) ;;
    tell (Enqueue name (len b)) ;;
    tell (OnStep RemovingCopy) ;;
    need (Remove copy) ;;
    tell (Enqueue copy 0) ;;
    tell RefreshUi ;;
    mret' true.

(** ** Taking one side *)
Definition dropCopy (copy : jstr) : R bool :=
  tell (OnStep RemovingCopy) ;;
  need (Remove copy) ;;
  tell (Enqueue copy 0) ;;
  tell RefreshUi ;;
  mret' true.
Definition refuse (v : Verdict) (original : jstr) : R bool := tell (NoticeStale v original) ;; mret' false.
Definition takeMine (copy original : jstr) (previewedOther : option jstr) : R bool :=
  tell (OnStep Checking) ;;
  let* pre1 := preview original previewedOther in
  if negb (bool_decide (pre1 = Match)) then refuse pre1 original
  else
    let* there := present copy true in
    if negb there then mret' true
    else
      tell (OnStep Reading) ;;
      let* b := need (Read copy) in
      let* pre2 := preview original previewedOther in
      if negb (bool_decide (pre2 = Match)) then refuse pre2 original
      else
        tell (OnStep Writing) ;;
        need (Write original b) ;;
        tell (Enqueue original (len b)) ;;
        dropCopy copy.
Definition resolveNoteConflict (copy original : jstr) (choice : Choice) (previewedOther : option jstr) : R bool :=
  match choice with
  | Manual => need (OpenLink original false) ;; need (OpenLink copy true) ;; mret' true
  | Both => keepBoth copy original
  | Mine => takeMine copy original previewedOther
  | Theirs => dropCopy copy
  end.

(** ** Clearing conflicts that are none *)
Definition listNoteConflicts : R (list Store.NoteConflict) :=
  let* paths := call GetFiles in
  mret' (filter (λ c, Store.original c ∈ paths) (Store.deriveNoteConflicts paths)).
(** One candidate: whether it went. *)
Definition sweepOne (c : Store.NoteConflict) : R bool :=
  let copy := Store.copy c in
  let original := Store.original c in
  io_bind (λ r,
    match r with
    | (Ok mineB, Ok theirsB) =>
        match mineB, theirsB with
        | Some mineB, Some theirsB =>
            match Merge3.strictDecode decodeUtf8 mineB, Merge3.strictDecode decodeUtf8 theirsB with
            | Some mineT, Some theirsT =>
                let* pats := call (PatternsFor original) in
                if negb (same pats mineT theirsT) then mret' false
                else if negb (Front.ignoredTimestampKeysPresent mineT pats === Front.ignoredTimestampKeysPresent theirsT pats)
                then mret' false
                else resolveNoteConflict copy original Theirs (Some theirsT)
            | _, _ => mret' false
            end
        | _, _ => mret' false
        end
    | (Throw e, _) | (_, Throw e) => throw e
    end) (par (readBytesOrNull copy) (readBytesOrNull original)).
(** A worker counts what went; a claim past the end, or the end of the wish to go
    on, stops it, so one turn more than there are candidates is enough. *)
Fixpoint sweepWorker (candidates : list Store.NoteConflict) (id fuel : nat) : R nat :=
  match fuel with
  | 0 => mret' 0
  | S fuel =>
      let* i := do (NextItem id) in
      match candidates !! i.1 with
      | None => mret' 0
      | Some c =>
          let* goOn := call ShouldContinue in
          if negb goOn then mret' 0
          else
            let* gone := try_catch (sweepOne c) (λ _, mret' false) in
            let* n := sweepWorker candidates id fuel in
            mret' ((if (gone : bool) then 1 else 0) + n)
      end
  end.
Definition dismissCosmeticConflicts : R nat :=
  let* all := listNoteConflicts in
  let candidates := filter (λ c, Merge3.isTextExt (Store.copy c) = true ∧ Merge3.isTextExt (Store.original c) = true) all in
  if length candidates =? 0 then mret' 0
  else
    let* id := do NewPool in
    io_bind (λ rs, mret' (sum_list ((λ r, match r with Ok n => n | Throw _ => 0 end) <$> rs)))
      (par_list (replicate (Nat.min 8 (length candidates)) (sweepWorker candidates id (S (length candidates))))).

(** ** What a resolution may do *)
Implicit Types (h : RHistory).
Definition touches (c : cmd ROp unit Err) : bool := match c with Call (Write _ _ | Remove _) => true | _ => false end.
Definition untouched h : Prop := Forall (λ e, touches (projT1 e) = false) h.
(** Nothing was removed: every removal that was tried failed. *)
Definition removal (e : event (cmd ROp unit Err) (cans (Ans := RAns))) : bool :=
  match projT1 e as c return cans c → bool with
  | Call (Remove _) => λ r, match r with Ok _ => true | Throw _ => false end
  | _ => λ _, false
  end (projT2 e).
Definition intact h : Prop := Forall (λ e, removal e = false) h.
Section Spec.
Context (copy original : jstr) (choice : Choice) (previewedOther : option jstr).
(** The original was read again after the copy, and is what the window showed. *)
Definition stillShown h : Prop :=
  ∀ t, previewedOther = Some t → ∃ b pats, called h (Read original) (Ok b) ∧ called h (PatternsFor original) pats ∧
    same pats (decodeLossy b) t = true.
Definition checkedAfter h (b : bytes) : Prop :=
  ∃ h1 h2, h = h1 ++ h2 ∧ called h1 (Read copy) (Ok b) ∧ stillShown h2.
(** A name for the second note, free when it was asked about, or the last tried. *)
Definition fresh h (q : jstr) : Prop :=
  ∃ w n, q = Store.keptBothName original w n ∧ (n ≤ 99)%N ∧ (hasExists = true → called h (Exists q) (Ok false) ∨ n = 99%N).
Definition allowed h (o : ROp) : Prop :=
  match o with
  | Write q b =>
      untouched h ∧ called h (Read copy) (Ok b) ∧
      match choice with Mine => q = original ∧ checkedAfter h b | Both => fresh h q | _ => False end
  | Remove q =>
      q = copy ∧
      match choice with
      | Theirs => True
      | Mine => ∃ b, called h (Read copy) (Ok b) ∧ called h (Write original b) (Ok tt)
      | Both => ∃ name b, fresh h name ∧ called h (Read copy) (Ok b) ∧ called h (Write name b) (Ok tt)
      | Manual => False
      end
  | _ => True
  end.
Definition outcome (r : res Err bool) h : Prop :=
  match r with
  | Ok false => choice = Mine ∧ untouched h
  | Ok true =>
      called h (Remove copy) (Ok tt) ∨
      untouched h ∧ (choice = Manual ∨ choice ≠ Theirs ∧ called h (Exists copy) (Ok false))
  | Throw _ => intact h
  end.

Lemma called_l h h' o r : called h o r → called (h ++ h') o r.
Proof. unfold called. rewrite elem_of_app. auto. Qed.
Lemma called_r h h' o r : called h' o r → called (h ++ h') o r.
Proof. unfold called. rewrite elem_of_app. auto. Qed.
Lemma untouched_intact h : untouched h → intact h.
Proof. intros H. eapply Forall_impl; [exact H|]. intros [[[]| | | | | |] r]; done. Qed.
Lemma untouched_app h h' : untouched h → untouched h' → untouched (h ++ h').
Proof. intros. by apply Forall_app. Qed.
Lemma fresh_app h h' q : fresh h q → fresh (h ++ h') q.
Proof.
  intros (w & n & -> & Hn & Hf). exists w, n. split_and!; [done..|]. intros Hex. destruct (Hf Hex) as [?|?]; [left; by apply called_l|by right].
Qed.

(** Steps that touch no file. *)
Ltac quietly := repeat (apply Forall_app; split); try done; repeat (constructor; [done|]); try constructor; try done.
Ltac name_history h := match goal with |- safe _ _ _ ?x => set (h := x) | |- wp _ _ _ ?x => set (h := x) end.
Ltac go r := split; [done|]; intros r; cbn [io_bind id wp bindM].
Lemma preview_spec J h (Q : res Err Verdict → RHistory → Prop) :
  (∀ o, match o with Read _ | PatternsFor _ => ∀ h', J h' o | _ => True end) →
  (∀ v h2, untouched h2 → (v = Match → stillShown h2) → Q (Ok v) (h ++ h2)) →
  safe J (preview original previewedOther) Q h.
Proof.
  intros HJ HQ. unfold preview, stillShown in *. destruct previewedOther as [t|].
  2: { apply safe_ret. rewrite <- (app_nil_r h). apply HQ; [constructor|done]. }
  split; [apply (HJ (Read original))|]. intros [b|e]; cbn [io_bind id].
  2: { apply safe_ret, HQ; [by repeat constructor|done]. }
  split; [apply (HJ (PatternsFor original))|]. intros pats. cbn [io_bind]. rewrite <- app_assoc.
  apply safe_ret, HQ; [by repeat constructor|]. destruct (same pats (decodeLossy b) t) eqn:Hs; [|done].
  intros _ t' [= <-]. exists b, pats. split_and!; [left|right; left|done].
Qed.
Lemma present_spec J p b h (Q : res Err bool → RHistory → Prop) :
  (∀ h', J h' (Exists p)) →
  (∀ r h2, untouched h2 → (hasExists = true → ∀ x, r = Ok x → called h2 (Exists p) (Ok x)) →
           (hasExists = false → r = Ok b) → Q r (h ++ h2)) →
  safe J (present p b) Q h.
Proof.
  intros HJ HQ. unfold present in *. destruct hasExists.
  - split; [apply HJ|]. intros r. cbn [id]. apply HQ; [by repeat constructor| |done]. intros _ x ->. left.
  - apply safe_ret. rewrite <- (app_nil_r h). apply HQ; [constructor|done|done].
Qed.

Abbreviation J := allowed.
Lemma freeName_spec togo n h (Q : res Err jstr → RHistory → Prop) w :
  togo ≤ 99 → n = N.of_nat (99 - togo) →
  (∀ q h2, untouched h2 → fresh (h ++ h2) q → Q (Ok q) (h ++ h2)) →
  (∀ e h2, untouched h2 → Q (Throw e) (h ++ h2)) →
  safe J (freeName original togo (Store.keptBothName original w n)) Q h.
Proof.
  revert n h Q w. induction togo as [|togo IH]; intros n h Q w Hle -> HQ HT; cbn [freeName];
    apply safe_bind, present_spec; try done; intros [x|e] h2 Hu Hc Hno Hs; try (by apply HT).
  - apply safe_ret, HQ; [done|]. exists w, 99%N. split_and!; [done..|]. by right.
  - destruct x.
    + apply safe_bind. go w'. intros _. apply IH; [lia|done|..].
      * intros q h3 Hu3 Hf. rewrite <- !app_assoc in *. apply HQ; [|done]. apply untouched_app; [done|].
        apply untouched_app; [by repeat constructor|done].
      * intros e h3 Hu3. rewrite <- !app_assoc. apply HT. apply untouched_app; [done|].
        apply untouched_app; [by repeat constructor|done].
    + apply safe_ret, HQ; [done|]. exists w, (N.of_nat (99 - S togo)). split_and!; [done|lia|].
      intros Hex. left. by apply called_r, Hc.
Qed.
Lemma dropCopy_spec h : J h (Remove copy) → intact h → safe J (dropCopy copy) outcome h.
Proof.
  intros HJ Hi. unfold dropCopy, tell. go u. split.
  { destruct HJ as [_ Hc]. split; [done|]. destruct choice; try done.
    - destruct Hc as (b & ? & ?). exists b. split; by apply called_l.
    - destruct Hc as (name & b & Hf & ? & ?). exists name, b. split_and!; [by apply fresh_app|by apply called_l..]. }
  intros [[]|e]; cbn [io_bind id]; [|cbn; unfold intact in *; quietly].
  go u1. go u2. left. do 2 apply called_l. unfold called. rewrite elem_of_app. right. left.
Qed.

Lemma keepBoth_spec : choice = Both → safe J (keepBoth copy original) outcome [].
Proof.
  intros Hch. unfold keepBoth, tell. go u. apply safe_bind, present_spec; [done|].
  intros [x|e] h2 Hu Hc Hno _; [|by apply untouched_intact, untouched_app; [repeat constructor|]].
  destruct x; cbn [negb].
  2: { apply safe_ret. right. split; [apply untouched_app; [by repeat constructor|done]|]. right. split; [by rewrite Hch|].
       apply called_r. destruct hasExists eqn:Hex; [by apply Hc|]. by specialize (Hno eq_refl). }
  name_history h. assert (Huh : untouched h) by (by apply untouched_app; [repeat constructor|]).
  apply safe_bind. go w. intros _. apply safe_bind, freeName_spec; [lia|done|..].
  2: { intros e h3 Hu3 _. by apply untouched_intact, untouched_app; [apply untouched_app; [|repeat constructor]|]. }
  intros q h3 Hu3 Hf _. match goal with H : fresh ?x _ |- _ => set (h' := x) in * end.
  assert (Hu' : untouched h') by (by apply untouched_app; [apply untouched_app; [|repeat constructor]|]).
  clearbody h'. clear -Hf Hu' Hch. split; [done|]. intros [b|e]; cbn [io_bind id];
    [|by apply untouched_intact, untouched_app; [|repeat constructor]].
  name_history h1. assert (Hcb : called h1 (Read copy) (Ok b)) by (apply called_r; left).
  assert (Hu1 : untouched h1) by (by apply untouched_app; [|repeat constructor]).
  split. { cbn. rewrite Hch. split_and!; [done|done|by apply fresh_app]. }
  intros [[]|e]; cbn [io_bind id]; [|apply Forall_app; split; [by apply untouched_intact|by repeat constructor]].
  go u1. apply dropCopy_spec.
  - split; [done|]. rewrite Hch. exists q, b. split_and!; [by do 3 apply fresh_app|by do 2 apply called_l|].
    apply called_l, called_r. left.
  - apply Forall_app; split; [|by repeat constructor]. apply Forall_app; split; [by apply untouched_intact|by repeat constructor].
Qed.
Lemma takeMine_spec : choice = Mine → safe J (takeMine copy original previewedOther) outcome [].
Proof.
  intros Hch. unfold takeMine, tell. go u. apply safe_bind, preview_spec; [by intros []|].
  intros v h1 Hu1 _ _. name_history h. assert (Huh : untouched h) by (by apply untouched_app; [repeat constructor|]).
  clearbody h. clear u h1 Hu1.
  assert (Hrefuse : ∀ v h, untouched h → safe J (refuse v original) outcome h).
  { intros v' h' Hu'. unfold refuse, tell. go u. cbn. split; [done|]. by apply untouched_app; [|repeat constructor]. }
  destruct (decide (v = Match)) as [->|Hv]; [rewrite bool_decide_eq_true_2 by done|rewrite bool_decide_eq_false_2 by done; by apply Hrefuse].
  cbn [negb]. apply safe_bind, present_spec; [done|]. intros [x|e] h2 Hu2 Hc Hno _; [|by apply untouched_intact, untouched_app].
  destruct x; cbn [negb].
  2: { apply safe_ret. right. split; [by apply untouched_app|]. right. split; [by rewrite Hch|].
       apply called_r. destruct hasExists eqn:Hex; [by apply Hc|]. by specialize (Hno eq_refl). }
  go u1. split; [done|]. intros [b|e]; cbn [io_bind id];
    [|by apply untouched_intact; repeat apply untouched_app; try done; repeat constructor].
  name_history h3.
  assert (Hu3 : untouched h3) by (by repeat apply untouched_app; try done; repeat constructor).
  assert (Hc3 : called h3 (Read copy) (Ok b)) by (apply called_r; left).
  clearbody h3. clear - Hch Hu3 Hc3 Hrefuse. apply safe_bind, preview_spec; [by intros []|].
  intros v h4 Hu4 Hm _.
  destruct (decide (v = Match)) as [->|Hv];
    [rewrite bool_decide_eq_true_2 by done|rewrite bool_decide_eq_false_2 by done; by apply Hrefuse, untouched_app].
  specialize (Hm eq_refl). cbn [negb]. go u2. split.
  { cbn. rewrite Hch. split_and!; [by repeat apply untouched_app; try done; repeat constructor|by do 2 apply called_l|done|].
    exists h3, (h4 ++ [ev (Call (OnStep Writing)) u2]). rewrite app_assoc. split_and!; [done..|].
    intros t Ht. destruct (Hm t Ht) as (b0 & pats & ? & ? & ?). exists b0, pats. split_and!; [by apply called_l..|done]. }
  intros [[]|e]; cbn [io_bind id].
  2: { apply Forall_app; split; [apply untouched_intact; by repeat apply untouched_app; try done; repeat constructor|by repeat constructor]. }
  go u3. apply dropCopy_spec.
  - split; [done|]. rewrite Hch. exists b. split; [by do 4 apply called_l|]. apply called_l, called_r. left.
  - apply Forall_app; split; [|by repeat constructor]. apply Forall_app; split; [|by repeat constructor].
    apply untouched_intact. by repeat apply untouched_app; try done; repeat constructor.
Qed.
Lemma resolve_spec : safe J (resolveNoteConflict copy original choice previewedOther) outcome [].
Proof.
  destruct choice eqn:Hch; cbn [resolveNoteConflict].
  - by apply takeMine_spec.
  - apply dropCopy_spec; [unfold allowed; by rewrite Hch|constructor].
  - split; [done|]. intros [[]|e]; cbn [io_bind id]; [|by repeat constructor].
    split; [done|]. intros [[]|e]; cbn [io_bind id]; [|by repeat constructor].
    right. split; [by repeat constructor|]. left. exact Hch.
  - by apply keepBoth_spec.
Qed.
End Spec.


(** ** The sweep *)
Definition harmless h (q : jstr) : Prop :=
  ∃ original paths mineB theirsB mineT theirsT pats,
    called h GetFiles paths ∧ q ∈ paths ∧ original ∈ paths ∧ Store.originalOfConflictCopy q = Some original ∧
    Merge3.isTextExt q = true ∧ Merge3.isTextExt original = true ∧
    called h (Read q) (Ok mineB) ∧ called h (Read original) (Ok theirsB) ∧
    decodeUtf8 mineB = Some mineT ∧ decodeUtf8 theirsB = Some theirsT ∧ called h (PatternsFor original) pats ∧
    same pats mineT theirsT = true ∧
    Front.ignoredTimestampKeysPresent mineT pats = Front.ignoredTimestampKeysPresent theirsT pats.
Definition sweepable h (o : ROp) : Prop :=
  match o with Write _ _ => False | Remove q => harmless h q | _ => True end.
#[local] Instance sweepable_justified : Justified sweepable.
Proof.
  intros h h' o Hs. destruct o; cbn; try done. unfold harmless.
  intros (original & paths & mineB & theirsB & mineT & theirsT & pats & ?). exists original, paths, mineB, theirsB, mineT, theirsT, pats.
  destruct_and!. split_and!; try done; by eapply called_mono.
Qed.
Definition listedConflict h (c : Store.NoteConflict) : Prop :=
  ∃ paths, called h GetFiles paths ∧ Store.copy c ∈ paths ∧ Store.original c ∈ paths ∧
    Store.originalOfConflictCopy (Store.copy c) = Some (Store.original c).
Lemma sweep_tell o h (Q : res Err unit → RHistory → Prop) :
  sweepable h o → (∀ h', h ⊑ h' → Q (Ok tt) h') → safe sweepable (tell o) Q h.
Proof. intros Ho HQ. apply safe_bind, safe_call; [done|]. intros r h' Hs _ _. by apply safe_ret, HQ. Qed.
Lemma safe_readBytesOrNull p h (Q : res Err (option bytes) → RHistory → Prop) :
  (∀ b h', h ⊑ h' → called h' (Read p) (Ok b) → Q (Ok (Some b)) h') → (∀ h', h ⊑ h' → Q (Ok None) h') →
  safe sweepable (readBytesOrNull p) Q h.
Proof.
  intros HS HN. unfold readBytesOrNull. apply safe_try, safe_bind, safe_callE; [done|].
  intros [b|e] h' Hs Hc _; cbn [id].
  - apply safe_ret. intros _. by apply HS.
  - intros _. by apply safe_ret, HN.
Qed.
Lemma sweepOne_safe c h : listedConflict h c → Merge3.isTextExt (Store.copy c) = true → Merge3.isTextExt (Store.original c) = true →
  safe sweepable (sweepOne c) (λ _ _, True) h.
Proof.
  intros (paths & Hfiles & Hcopy & Horig & Hname) Ht1 Ht2. unfold sweepOne, safe. cbv zeta. apply wp_bind.
  pose (Q p := λ (r : res Err (option bytes)) h', ∀ b, r = Ok (Some b) → called h' (Read p) (Ok b)).
  eapply (safe_mono sweepable); [|eapply (safe_par sweepable _ _ _ _ (Q (Store.copy c)) (Q (Store.original c)) h h h); [done|done|..]];
    [|apply safe_readBytesOrNull; [by intros b h' _ Hc b' [= <-]|done]..].
  intros [r1 r2] h1 Hs1 [(ha & Hsa & Ha) (hb & Hsb & Hb)].
  destruct r1 as [[mineB|]|e], r2 as [[theirsB|]|e2]; try done.
  specialize (Ha mineB eq_refl). specialize (Hb theirsB eq_refl). unfold Merge3.strictDecode.
  destruct (decodeUtf8 mineB) as [mineT|] eqn:Hd1; [|done]. destruct (decodeUtf8 theirsB) as [theirsT|] eqn:Hd2; [|done].
  apply (safe_bind sweepable), safe_call; [done|]. intros pats h2 Hs2 Hp _.
  destruct (same pats mineT theirsT) eqn:Hsame; [|done]. cbn [negb].
  destruct (_ === _) eqn:Hkeys; [|done]. apply jeq_true in Hkeys. cbn [negb resolveNoteConflict]. unfold dropCopy.
  apply (safe_bind sweepable), sweep_tell; [done|]. intros h3 Hs3 _. apply (safe_bind sweepable), safe_callE.
  - exists (Store.original c), paths, mineB, theirsB, mineT, theirsT, pats.
    split_and!; try done; (eapply called_mono; [|eassumption]); chain.
  - intros [[]|e] h4 Hs4 _ _; cbn [id]; [|done]. apply (safe_bind sweepable), sweep_tell; [done|]. intros h5 Hs5 _.
    apply (safe_bind sweepable), sweep_tell; [done|]. done.
Qed.
Lemma sweepWorker_safe l id fuel h :
  (∀ c, c ∈ l → listedConflict h c ∧ Merge3.isTextExt (Store.copy c) = true ∧ Merge3.isTextExt (Store.original c) = true) →
  safe sweepable (sweepWorker l id fuel) (λ _ _, True) h.
Proof.
  revert h. induction fuel as [|fuel IH]; intros h Hl; [done|]. cbn [sweepWorker].
  apply (safe_bind sweepable). split; [done|]. intros [i stop]. intros _. cbn [fst].
  destruct (l !! i) as [c|] eqn:Hc; [|done]. apply list_elem_of_lookup_2 in Hc.
  apply (safe_bind sweepable), safe_call; [done|]. intros goOn h2 Hs2 _ _. destruct goOn; [|done]. cbn [negb].
  assert (Hl2 : ∀ c, c ∈ l → listedConflict h2 c ∧ Merge3.isTextExt (Store.copy c) = true ∧ Merge3.isTextExt (Store.original c) = true).
  { intros c' Hin. destruct (Hl c' Hin) as ((paths & Hf & ?) & ?). split; [|done]. exists paths. split; [|done].
    eapply called_mono; [|exact Hf]. etransitivity; [|exact Hs2]. by apply sublist_inserts_r. }
  destruct (Hl2 c Hc) as (Hlc & Ht1 & Ht2). apply (safe_bind sweepable), safe_try.
  eapply (safe_mono sweepable); [|by apply sweepOne_safe].
  intros r h3 Hs3 _ _. assert (Hnext : ∀ (g : bool) h4, h3 ⊑ h4 → safe sweepable
    (let* n := sweepWorker l id fuel in mret' ((if g then 1 else 0) + n)) (λ _ _, True) h4).
  { intros g h4 Hs4. apply (safe_bind sweepable). eapply (safe_mono sweepable); [|apply IH].
    - intros [n|e] h5 Hs5 _ _; [by apply safe_ret|done].
    - intros c' Hin. destruct (Hl2 c' Hin) as ((paths & Hf & ?) & ?). split; [|done]. exists paths. split; [|done].
      eapply called_mono; [|exact Hf]. chain. }
  destruct r as [g|e]; [intros _; by apply Hnext|apply safe_ret; intros _; exact (Hnext false h3 (reflexivity h3))].
Qed.
Lemma derived_copy paths c : c ∈ Store.deriveNoteConflicts paths →
  Store.copy c ∈ paths ∧ Store.originalOfConflictCopy (Store.copy c) = Some (Store.original c).
Proof.
  intros (p & Hp & Hc)%list_elem_of_omap. destruct (Store.originalOfConflictCopy p) as [o|] eqn:Ho; [|done].
  destruct (truthy o); [|done]. by injection Hc as <-.
Qed.
Lemma sweep_spec h : safe sweepable dismissCosmeticConflicts (λ _ _, True) h.
Proof.
  unfold dismissCosmeticConflicts, listNoteConflicts. apply (safe_bind sweepable), safe_bind, safe_call; [done|].
  intros paths h1 Hs1 Hf _. apply safe_ret. intros _. cbv zeta.
  set (l := filter _ (filter _ _)). destruct (length l =? 0); [done|].
  apply (safe_bind sweepable). split; [done|]. intros id _. unfold safe. apply wp_bind.
  eapply wp_mono; [|apply safe_par_list; [exact _|]]; [done|]. apply Forall_forall. intros m Hm.
  apply elem_of_replicate_inv in Hm as ->. apply sweepWorker_safe.
  intros c (Ht & (Ho & Hc)%list_elem_of_filter)%list_elem_of_filter. apply derived_copy in Hc as [Hc Hn].
  split; [|done]. exists paths. split_and!; [|done..]. eapply called_mono; [|exact Hf]. by apply sublist_inserts_r.
Qed.


(** ** The window *)
(** The events a resolution sends to the state machine of its window. *)
Definition steps h : list ResolveEvent :=
  omap (λ e, match projT1 e with Call (OnStep s) => Some (EvStep s) | _ => None end) h.
Definition ending (r : res Err bool) : ResolveEvent :=
  match r with Ok true => EvLocalDone | Ok false => EvStale | Throw e => EvError (message e) end.
Definition events h (r : res Err bool) : list ResolveEvent := EvStart :: steps h ++ [ending r].
(** A press of a button starts a resolution unless one is in flight or a pass runs. *)
Definition mayResolve (s : ResolveState) (busy : bool) : bool := negb (resolveInFlight s) && negb busy.
Definition CAP_MS : Z := 8000.
Definition isUploading (s : ResolveState) : bool := match s with RUploading _ => true | _ => false end.
(** One look at the engine and the clock; once the state is left none follows. *)
Definition tick (busy : bool) (elapsed : Z) (s : ResolveState) : ResolveState :=
  match s with
  | RUploading sawBusy =>
      let s' := if busy then resolveNext s EvEngineBusy
                else if sawBusy then resolveNext s EvEngineIdle
                else if (600 <? elapsed)%Z then resolveNext s EvGraceElapsed
                else s in
      if isUploading s' && (CAP_MS <? elapsed)%Z then resolveNext s' EvCapElapsed else s'
  | _ => s
  end.
Definition ticks (s : ResolveState) (l : list (bool * Z)) : ResolveState := foldl (λ s t, tick t.1 t.2 s) s l.
Lemma steps_local h st : ∃ st', Fsm.run resolveMachine (RLocal st) (steps h) = RLocal st'.
Proof.
  revert st. induction h as [|e h IH]; intros st; [by exists st|]. unfold steps. cbn [omap list_omap].
  destruct (projT1 e) as [[]| | | | | |]; apply IH.
Qed.
Lemma ticks_done l : ticks RDone l = RDone.
Proof. by induction l as [|[] l IH]. Qed.
Lemma ticks_cons s b z l : ticks s ((b, z) :: l) = ticks (tick b z s) l.
Proof. done. Qed.
Lemma tick_capped b z s : (CAP_MS < z)%Z → tick b z (RUploading s) = RDone.
Proof.
  unfold tick, CAP_MS. intros Hz. rewrite (proj2 (Z.ltb_lt 8000 z) Hz), (proj2 (Z.ltb_lt 600 z)) by lia. by destruct b, s.
Qed.
Lemma tick_uploading b z s : (∃ s', tick b z (RUploading s) = RUploading s') ∨ tick b z (RUploading s) = RDone.
Proof. unfold tick. destruct b, s, (600 <? z)%Z, (CAP_MS <? z)%Z; try (by right); left; by eexists. Qed.

(** The window that shows a resolution always finishes and tells the truth:
    from rest, the steps of any execution lead the machine to outdated exactly
    when nothing was applied, to failed when it threw, and otherwise to waiting for
    the upload, which ends in done by the first look at the clock after eight
    seconds, whatever the engine does. *)
Theorem window_settles copy original choice previewedOther h r l :
  reach (resolveNoteConflict copy original choice previewedOther) h (Ret r) →
  let s := Fsm.run resolveMachine RIdle (events h r) in
  match r with
  | Ok true => s = RUploading false ∧
      (ticks s l = RDone ∨ ∃ b, ticks s l = RUploading b) ∧
      ((∃ t, t ∈ l ∧ (CAP_MS < t.2)%Z) → ticks s l = RDone)
  | Ok false => s = RStale ∧ untouched h
  | Throw e => s = RFailed (message e)
  end.
Proof.
  intros Hr. pose proof (wp_adequacy _ _ _ _ (resolve_spec copy original choice previewedOther) _ _ Hr) as Ho. cbv zeta.
  assert (Hs : ∃ st, Fsm.run resolveMachine RIdle (events h r) = resolveNext (RLocal st) (ending r)).
  { unfold events. destruct (steps_local h Checking) as [st Hst]. exists st.
    cbn [Fsm.run fold_left]. unfold Fsm.run in *. rewrite fold_left_app.
    change (next resolveMachine RIdle EvStart) with (RLocal Checking). by rewrite Hst. }
  destruct Hs as [st ->]. destruct r as [[|]|e]; [|split; [done|by apply Ho]|done].
  change (resolveNext (RLocal st) (ending (Ok true))) with (RUploading false). split; [done|].
  generalize false. clear. intros b. split.
  - revert b. induction l as [|[c z] l IH]; intros b; [right; by eexists|]. rewrite ticks_cons.
    destruct (tick_uploading c z b) as [[s ->]| ->]; [apply IH|left; apply ticks_done].
  - intros (t & Ht & Hz). revert b. induction l as [|[c z] l IH]; intros b; [by apply not_elem_of_nil in Ht|].
    rewrite ticks_cons. apply elem_of_cons in Ht as [->|Ht]; [rewrite tick_capped by done; apply ticks_done|].
    destruct (tick_uploading c z b) as [[s ->]| ->]; [by apply IH|apply ticks_done].
Qed.
End Resolution.

(** ** A disk for the witnesses *)
Definition Disk : Type := list (jstr * bytes).
Definition disk (d : Disk) (o : ROp) : RAns o * Disk :=
  match o return RAns o * Disk with
  | GetFiles => (jkeys d, d)
  | Read p => (match jget d p with Some b => Ok b | None => Throw (ErrMsg (js "gone")) end, d)
  | Write p b => (Ok tt, jset d p b)
  | Remove p => (Ok tt, jdel d p)
  | Exists p => (Ok (jhas d p), d)
  | OpenLink _ _ => (Ok tt, d)
  | PatternsFor _ => (Front.DEFAULT_IGNORED_TIMESTAMP_KEYS, d)
  | Today => ({| Store.year := 2026; Store.month := 1; Store.day := 2; Store.hours := 3; Store.minutes := 4;
                 Store.seconds := 5 |}, d)
  | ShouldContinue => (true, d)
  | OnStep _ | Enqueue _ _ | RefreshUi | NoticeStale _ _ => (tt, d)
  end.
Definition noteCopy : jstr := js "a (conflict pc 20260102030405).md".
Definition two : Disk := [(js "a.md", js "theirs"); (noteCopy, js "mine")].
Definition runOn {A} (m : R A) (d : Disk) : res Err A * Disk :=
  let '(r, c) := Effects.run disk (λ _, true) m (Conf d tt [] 0) in (r, cw c).
Definition resolveDemo (choice : Choice) (shown : option jstr) : R bool :=
  resolveNoteConflict id id true noteCopy (js "a.md") choice shown.
Definition sweepDemo : R nat := dismissCosmeticConflicts id (λ b, Some b) id true.
Example resolve_runs :
  runOn (resolveDemo Mine (Some (js "theirs"))) two = (Ok true, [(js "a.md", js "mine")]) ∧
  runOn (resolveDemo Mine (Some (js "older"))) two = (Ok false, two) ∧
  runOn (resolveDemo Theirs None) two = (Ok true, [(js "a.md", js "theirs")]) ∧
  runOn (resolveDemo Both None) two =
    (Ok true, [(js "a.md", js "theirs"); (js "a (this device's version 2026-01-02).md", js "mine")]) ∧
  runOn sweepDemo two = (Ok 0, two) ∧
  runOn sweepDemo [(js "a.md", js "same"); (noteCopy, js "same" ++ [10%N])] = (Ok 1, [(js "a.md", js "same")]).
Proof. vm_compute. done. Qed.
Definition sameTwice : Disk := [(js "a.md", js "same"); (noteCopy, js "same" ++ [10%N])].
Lemma window_settles_witness : ∃ h,
  reach (resolveDemo Theirs None) h (Ret (Ok true)) ∧
  ticks (Fsm.run resolveMachine RIdle (events h (Ok true))) [(true, 200%Z); (true, 8001%Z)] = RDone.
Proof.
  destruct (run_reach disk (λ _, true) (resolveDemo Theirs None) (Conf two tt [] 0)) as [h Hr].
  replace (Effects.run _ _ _ _).1 with (Ok (E := Err) true) in Hr by (vm_compute; reflexivity). exists h. split; [exact Hr|].
  apply (window_settles id id true noteCopy (js "a.md") Theirs None h (Ok true) [(true, 200%Z); (true, 8001%Z)] Hr).
  exists (true, 8001%Z). split; [apply elem_of_cons; right; apply elem_of_cons; left; reflexivity|vm_compute; reflexivity].
Defined.

(** ** What modelling showed *)
(** Keeping the other version does not look at it again: when the note was
    deleted while the window was open, the copy was the only version left. *)
Lemma theirs_is_not_checked :
  runOn (resolveDemo Theirs (Some (js "theirs"))) [(noteCopy, js "mine")] = (Ok true, []).
Proof. vm_compute. done. Qed.
(** The sweep takes two notes for the same whose ignored dates have different
    values; the copy's dates go with it. *)
Definition dated (d : string) : jstr :=
  js "---" ++ [10%N] ++ js "created: " ++ js d ++ [10%N] ++ js "---" ++ [10%N] ++ js "x".
Lemma sweep_drops_dates :
  runOn sweepDemo [(js "a.md", dated "2026-01-02"); (noteCopy, dated "2019-05-06")] = (Ok 1, [(js "a.md", dated "2026-01-02")]).
Proof. vm_compute. done. Qed.
(** After a hundred names the last one is used although it is taken. *)
Definition taken : Disk :=
  (λ n, (Store.keptBothName (js "a.md") (disk [] Today).1 (N.of_nat n), js "old")) <$> seq 0 100.
Lemma last_name_is_overwritten :
  let d := (runOn (resolveDemo Both None) ((noteCopy, js "mine") :: taken)).2 in
  length d = 100 ∧ length (filter (λ e, e.2 = js "old") d) = 99.
Proof. vm_compute. done. Qed.
End Resolution.
