(* ===== verification/Transport.v ===== *)
(** * Transport: the HTTP client ([client/src/transport.ts])

    Every call builds one request and reads one response: [exchange] pairs them,
    [perform] sends it through the one gate that refuses cleartext to a remote
    host.  The network is an argument; bodies are the JS values that
    [JSON.stringify] prints.  [syncApi] are the calls of the sync interface,
    [accountCall] the static calls, [validate*] what a sharing response must look
    like. *)

From S2P Require Import Prelude Jsmap Json Utf8 Connstate Effects Links Protocol Sync.

Module Transport.
Import Wire Form.

Record Request := {
  r_url : jstr; r_method : jstr; r_token : option jstr; r_json : option jsval; r_bytes : option bytes
}.
(** [json] is [None] when the body is not JSON. *)
Record Response := { st : Z; text : jstr; json : option jsval; arrayBuffer : bytes }.
Inductive exchange (A : Type) : Type :=
| Fail (e : Err)
| Exchange (req : Request) (view : Response → res Err A).
Arguments Fail {A} e.
Arguments Exchange {A} req view.

Record HttpTransport := {
  baseUrl : jstr; token : jstr; vault : jstr; owner : jstr; deviceId : jstr; deviceName : jstr
}.
Definition cTrim (s : jstr) : jstr := reverse (drop_while (λ c, bool_decide (c = cSlash)) (reverse s)).
Definition normBase (url : jstr) : jstr := cTrim url.
Definition zstr (z : Z) : jstr := if (z <? 0)%Z then 45%N :: num_str (Z.to_N (- z)) else num_str (Z.to_N z).
Definition errText (r : Response) (fallback : jstr) : jstr :=
  let t := trim (text r) in
  if truthy t && (length t <=? 300) then t else fallback.
Definition tryJson (r : Response) : jsval := default VUndef (json r).
Definition httpStatus (label : jstr) (r : Response) : jstr := label ++ js ": HTTP " ++ zstr (st r).
(** The message of an error response; its classifier tags are [Connstate]'s. *)
Definition httpFail (r : Response) (label : jstr) : Err := ErrMsg (errText r (httpStatus label r)).
Definition uriError : Err := ErrMsg (js "URI malformed").
Definition notJson : Err := ErrMsg (js "Unexpected token in JSON").
(** [undefined.f] and [null.f] *)
Definition noProperty (f : jstr) : Err := ErrMsg (js "Cannot read properties of undefined (reading " ++ f ++ js ")").
(** The message names the field (an array's index in it is left out here). *)
Definition malformed {A} (m : res Malformed A) : res Err A :=
  match m with
  | Ok a => Ok a
  | Throw (Field f) => Throw (ErrMsg (js "malformed response: " ++ f))
  | Throw (NotObject f) => Throw (ErrMsg (js "malformed " ++ f ++ js ": not an object"))
  end.
Definition apiJson {A} (req : Request) (label : jstr) (view : jsval → res Err A) : exchange A :=
  Exchange req (λ r, if (st r =? 200)%Z then view (tryJson r) else Throw (httpFail r label)).
Definition withPart {A} (s : jstr) (k : jstr → exchange A) : exchange A :=
  match encodeURIComponent s with Some x => k x | None => Fail uriError end.

(** ** The sync interface *)
Section Sync.
Context (t : HttpTransport).
(** [this.v(suffix)]: [None] when a name cannot be encoded. *)
Definition scope : option jstr :=
  if truthy (owner t) then
    match encodeURIComponent (owner t), encodeURIComponent (vault t) with
    | Some o, Some v => Some (js "/api/u/" ++ o ++ js "/" ++ v)
    | _, _ => None
    end
  else match encodeURIComponent (vault t) with Some v => Some (js "/api/v/" ++ v) | None => None end.
Definition atVault {A} (suffix : jstr) (k : jstr → exchange A) : exchange A :=
  match scope with Some s => k (baseUrl t ++ s ++ suffix) | None => Fail uriError end.
Definition get (url : jstr) : Request :=
  {| r_url := url; r_method := js "GET"; r_token := Some (token t); r_json := None; r_bytes := None |}.
Definition post (url : jstr) (body : jsval) : Request :=
  {| r_url := url; r_method := js "POST"; r_token := Some (token t); r_json := Some body; r_bytes := None |}.
Definition numVal (z : Z) : jsval := VNum (Some z).

Definition status : exchange StatusResponse :=
  atVault (js "/status") (λ url, apiJson (get url) (js "status") (λ v, malformed (validateStatus v))).
Definition changes (since : Z) : exchange ChangesResponse :=
  atVault (js "/changes?since=" ++ zstr since) (λ url, apiJson (get url) (js "changes") (λ v, malformed (validateChanges v))).
Definition fileMeta (p : jstr) : exchange (option FileMeta) :=
  withPart p (λ enc, atVault (js "/meta?path=" ++ enc) (λ url,
    Exchange (get url) (λ r,
      if (st r =? 404)%Z then Ok None
      else if negb (st r =? 200)%Z then Throw (httpFail r (js "meta"))
      else match json r with
           | Some v => match malformed (validateFileMeta v) with Ok m => Ok (Some m) | Throw e => Throw e end
           | None => Throw notJson
           end))).
Definition missing (hashes : list jstr) : exchange (list jstr) :=
  atVault (js "/chunks/missing") (λ url,
    apiJson (post url (VObj [(js "hashes", VArr (VStr <$> hashes))])) (js "missing") (λ v,
      if absent v then Throw (noProperty (js "missing"))
      else match stringArray (prop v (js "missing")) with
           | Some l => Ok l
           | None => Throw (ErrMsg (js "missing: malformed response"))
           end)).
Definition getChunk (hash : jstr) : exchange bytes :=
  atVault (js "/chunk/" ++ hash) (λ url,
    Exchange (get url) (λ r, if (st r =? 200)%Z then Ok (arrayBuffer r) else Throw (httpFail r (js "getChunk")))).
Definition putChunk (hash : jstr) (b : bytes) : exchange unit :=
  atVault (js "/chunk/" ++ hash) (λ url,
    Exchange {| r_url := url; r_method := js "PUT"; r_token := Some (token t); r_json := None; r_bytes := Some b |}
      (λ r, if (st r =? 200)%Z then Ok tt else Throw (httpFail r (js "putChunk")))).
Definition commitBody (r : CommitRequest) : jsval :=
  VObj ([(js "path", VStr (c_path r)); (js "hash", VStr (c_hash r)); (js "size", numVal (c_size r));
         (js "mtime", numVal (c_mtime r)); (js "chunks", VArr (VStr <$> c_chunks r))]
        ++ match c_expected r with Some v => [(js "expected_version", numVal v)] | None => [] end
        ++ (if truthy (deviceId t) then [(js "device_id", VStr (deviceId t))] else [])
        ++ (if truthy (deviceName t) then [(js "device_name", VStr (deviceName t))] else [])).
Definition commitView (p : jstr) (r : Response) : res Err FileMeta :=
  if (st r =? 409)%Z then Throw (CommitConflictError (js "commit conflict on '" ++ p ++ js "' (server version advanced)"))
  else if (st r =? 404)%Z then
    Throw (CommitConflictError (js "commit for '" ++ p ++ js "' referenced a missing chunk (will re-upload)"))
  else if ((400 <=? st r) && (st r <? 500))%Z then Throw (CommitRejectedError (errText r (httpStatus (js "commit") r)) (st r))
  else if negb (st r =? 200)%Z then Throw (httpFail r (js "commit"))
  else match json r with Some v => malformed (validateFileMeta v) | None => Throw notJson end.
Definition commit (r : CommitRequest) : exchange FileMeta :=
  atVault (js "/commit") (λ url, Exchange (post url (commitBody r)) (commitView (c_path r))).
(** The query of a delete, parameter by parameter. *)
Definition deleteParams (p : jstr) (v : option Z) : list (jstr * jstr) :=
  [(js "path", p)]
  ++ match v with Some v => [(js "expected_version", zstr v)] | None => [] end
  ++ (if truthy (deviceId t) then [(js "device_id", deviceId t)] else [])
  ++ (if truthy (deviceName t) then [(js "device_name", deviceName t)] else []).
Definition deleteView (p : jstr) (r : Response) : res Err unit :=
  if (st r =? 409)%Z then Throw (CommitConflictError (js "delete conflict on '" ++ p ++ js "' (server version advanced)"))
  else if negb (st r =? 200)%Z && negb (st r =? 404)%Z then Throw (httpFail r (js "deleteFile"))
  else Ok tt.
(** Each parameter is encoded on its own, names are literal. *)
Definition queryText (l : list (jstr * jstr)) : jstr := join_with cAmp ((λ e, e.1 ++ cEq :: component e.2) <$> l).
Definition deleteFile (p : jstr) (v : option Z) : exchange unit :=
  if forallb (λ e, wellFormed e.2) (deleteParams p v)
  then atVault (js "/file?" ++ queryText (deleteParams p v)) (λ url,
         Exchange {| r_url := url; r_method := js "DELETE"; r_token := Some (token t); r_json := None; r_bytes := None |}
           (deleteView p))
  else Fail uriError.
End Sync.

(** ** The account calls *)
Inductive Account :=
| Health | Banner | Login (username password : jstr) | Register (username password invite : jstr)
| ListVaults | CreateVault (name : jstr) | ListShared | LeaveShare (owner vault : jstr)
| ChangePassword (current newPassword : jstr) | MyVaults | ShareDelete (vault grantee : jstr)
| CreateShareLink (vault perm label : jstr) (ttlSecs : option Z) | ListShareLinks | RevokeShareLink (id : jstr)
| RedeemShareLink (linkToken : jstr) | RedeemRegister (linkToken username password : jstr).
Definition plainReq (url method : jstr) (token : option jstr) (body : option jsval) : option Request :=
  Some {| r_url := url; r_method := method; r_token := token; r_json := body; r_bytes := None |}.
Definition strs (l : list (jstr * jstr)) : option jsval := Some (VObj ((λ e, (e.1, VStr e.2)) <$> l)).
(** The request of a call; [None] when a name cannot be encoded. *)
Definition accountRequest (base tok : jstr) (a : Account) : option Request :=
  let at_ p := normBase base ++ js p in
  let GET := js "GET" in let POST := js "POST" in let DELETE := js "DELETE" in
  match a with
  | Health | Banner => plainReq (at_ "/health") GET None None
  | Login u p => plainReq (at_ "/api/login") POST None (strs [(js "username", u); (js "password", p)])
  | Register u p i => plainReq (at_ "/api/register") POST None (strs [(js "username", u); (js "password", p); (js "invite", i)])
  | ListVaults => plainReq (at_ "/api/vaults") GET (Some tok) None
  | CreateVault n => plainReq (at_ "/api/vaults") POST (Some tok) (strs [(js "name", n)])
  | ListShared => plainReq (at_ "/api/shared") GET (Some tok) None
  | LeaveShare o v => plainReq (at_ "/api/shared") DELETE (Some tok) (strs [(js "owner", o); (js "vault", v)])
  | ChangePassword c n => plainReq (at_ "/api/password") POST (Some tok) (strs [(js "current", c); (js "new_password", n)])
  | MyVaults => plainReq (at_ "/api/admin/vaults") GET (Some tok) None
  | ShareDelete v g => plainReq (at_ "/api/admin/shares") DELETE (Some tok) (strs [(js "vault", v); (js "grantee", g)])
  | CreateShareLink v p l ttl =>
      plainReq (at_ "/api/share-links") POST (Some tok)
        (Some (VObj [(js "vault", VStr v); (js "perm", VStr p); (js "label", VStr l);
                     (js "ttl_secs", match ttl with Some z => numVal z | None => VNull end)]))
  | ListShareLinks => plainReq (at_ "/api/share-links") GET (Some tok) None
  | RevokeShareLink id =>
      match encodeURIComponent id with
      | Some x => plainReq (at_ "/api/share-links/" ++ x) DELETE (Some tok) None
      | None => None
      end
  | RedeemShareLink l => plainReq (at_ "/api/share-redeem") POST (Some tok) (strs [(js "token", l)])
  | RedeemRegister l u p =>
      plainReq (at_ "/api/share-redeem-register") POST None (strs [(js "token", l); (js "username", u); (js "password", p)])
  end.
(** The calls that carry a password check the base address themselves. *)
Definition guarded (a : Account) : bool :=
  match a with Login _ _ | Register _ _ _ | RedeemRegister _ _ _ => true | _ => false end.

(** ** What a sharing response must look like *)
Inductive SharePerm := PRead | PReadWrite.
Record SharedVaultRef := { sv_owner : jstr; sv_vault : jstr; sv_perm : SharePerm }.
Record VaultGrant := { vg_grantee : jstr; vg_perm : SharePerm }.
Record VaultShares := { vs_vault : jstr; vs_grants : list VaultGrant }.
Record ShareLinkInfo := {
  li_id : jstr; li_vault : jstr; li_perm : SharePerm; li_label : jstr; li_expires : option Z; li_redeemed : option jstr
}.
Definition asArray (v : jsval) (f : jstr) : res Malformed (list jsval) :=
  match v with VArr l => Ok l | _ => Throw (Field f) end.
Definition asPerm (v : jsval) : SharePerm :=
  match v with VStr s => if s === js "readWrite" then PReadWrite else PRead | _ => PRead end.
Definition asSharedVaultRef (x : jsval) : res Malformed SharedVaultRef :=
  rbind (λ o, rbind (λ v, Ok {| sv_owner := o; sv_vault := v; sv_perm := asPerm (prop x (js "perm")) |})
    (asStr (prop x (js "vault")) (js "vault"))) (asStr (prop x (js "owner")) (js "owner")).
Definition validateSharedVaults (o : jsval) : res Malformed (list SharedVaultRef) :=
  rbind (rmap asSharedVaultRef) (asArray o (js "shared")).
Definition validateRedeemedRegister (o : jsval) : res Malformed (SharedVaultRef * jstr) :=
  rbind (λ r, rbind (λ t, Ok (r, t)) (asStr (prop o (js "token")) (js "redeem.token"))) (asSharedVaultRef o).
Definition validateGrant (g : jsval) : res Malformed VaultGrant :=
  rbind (λ n, Ok {| vg_grantee := n; vg_perm := asPerm (prop g (js "perm")) |}) (asStr (prop g (js "grantee")) (js "grantee")).
Definition validateVaultShares (o : jsval) : res Malformed (list VaultShares) :=
  rbind (rmap (λ x,
    rbind (λ gs, rbind (λ v, Ok {| vs_vault := v; vs_grants := gs |}) (asStr (prop x (js "vault")) (js "vault")))
      (rbind (rmap validateGrant) (asArray (prop x (js "grants")) (js "grants"))))) (asArray o (js "my vaults")).
Definition validateShareLink (x : jsval) : res Malformed ShareLinkInfo :=
  rbind (λ i, rbind (λ v, rbind (λ l, rbind (λ e, rbind (λ r,
    Ok {| li_id := i; li_vault := v; li_perm := asPerm (prop x (js "perm")); li_label := l; li_expires := e; li_redeemed := r |})
  (asOptStr (prop x (js "redeemed_by")) (js "redeemed_by")))
  (asOptNum (prop x (js "expires_at")) (js "expires_at")))
  (asStr (prop x (js "label")) (js "label")))
  (asStr (prop x (js "vault")) (js "vault")))
  (asStr (prop x (js "id")) (js "id")).
Definition validateShareLinks (o : jsval) : res Malformed (list ShareLinkInfo) :=
  rbind (rmap validateShareLink) (asArray o (js "share links")).

(** ** What an account call makes of its response *)
Inductive Returned :=
| RBool (b : bool) | RVoid | RText (s : jstr) | RValue (v : jsval) | RLogin (token : jsval) (mustChange : bool)
| RShared (l : list SharedVaultRef) | RShares (l : list VaultShares) | RLinks (l : list ShareLinkInfo)
| RVault (r : SharedVaultRef) | RRegistered (r : SharedVaultRef) (token : jstr).
(** [Boolean(v)] *)
Definition toBoolean (v : jsval) : bool :=
  match v with
  | VUndef | VNull => false
  | VBool b => b
  | VNum (Some z) => negb (z =? 0)%Z
  | VNum None => true
  | VStr s => truthy s
  | VArr _ | VObj _ => true
  end.
(** [(v as {f}).f], an unchecked cast. *)
Definition field (v : jsval) (f : jstr) : res Err jsval := if absent v then Throw (noProperty f) else Ok (prop v f).
Definition bannerOf (r : Response) : jstr := match prop (tryJson r) (js "banner") with VStr s => s | _ => [] end.
Definition accountLabel (a : Account) : jstr :=
  match a with
  | Health | Banner => []
  | Login _ _ => js "login" | Register _ _ _ => js "register" | ListVaults => js "vaults" | CreateVault _ => js "create vault"
  | ListShared => js "shared" | LeaveShare _ _ => js "leave share" | ChangePassword _ _ => js "change password"
  | MyVaults => js "my vaults" | ShareDelete _ _ => js "unshare"
  | CreateShareLink _ _ _ _ => js "share link" | ListShareLinks => js "share links"
  | RevokeShareLink _ => js "revoke share link" | RedeemShareLink _ => js "redeem"
  | RedeemRegister _ _ _ => js "redeem & register"
  end.
Definition accountOk (a : Account) (v : jsval) : res Err Returned :=
  match a with
  | Health | Banner => Ok RVoid
  | Login _ _ => rbind (λ t, Ok (RLogin t (toBoolean (prop v (js "must_change_password"))))) (field v (js "token"))
  | ListVaults => rbind (λ l, Ok (RValue l)) (field v (js "vaults"))
  | ListShared => rbind (λ l, Ok (RShared l)) (malformed (validateSharedVaults v))
  | ChangePassword _ _ | CreateShareLink _ _ _ _ => rbind (λ t, Ok (RValue t)) (field v (js "token"))
  | MyVaults => rbind (λ l, Ok (RShares l)) (malformed (validateVaultShares v))
  | ListShareLinks => rbind (λ l, Ok (RLinks l)) (malformed (validateShareLinks v))
  | RedeemShareLink _ => rbind (λ r, Ok (RVault r)) (malformed (asSharedVaultRef v))
  | RedeemRegister _ _ _ => rbind (λ r, Ok (RRegistered r.1 r.2)) (malformed (validateRedeemedRegister v))
  | Register _ _ _ | CreateVault _ | LeaveShare _ _ | ShareDelete _ _ | RevokeShareLink _ => Ok RVoid
  end.
Definition accountView (a : Account) (r : Response) : res Err Returned :=
  match a with
  | Health => Ok (RBool (st r =? 200)%Z)
  | Banner => Ok (RText (bannerOf r))
  | ChangePassword _ _ =>
      if (st r =? 401)%Z then Throw (ErrMsg (js "current password is incorrect"))
      else if (st r =? 200)%Z then accountOk a (tryJson r)
      else Throw (ErrMsg (errText r (httpStatus (accountLabel a) r)))
  | _ => if (st r =? 200)%Z then accountOk a (tryJson r) else Throw (httpFail r (accountLabel a))
  end.
(** The probes turn every failure into an answer. *)
Definition accountFails (a : Account) (e : Err) : res Err Returned :=
  match a with Health => Ok (RBool false) | Banner => Ok (RText []) | _ => Throw e end.

(** ** The gate *)
Section Gate.
Context (lowerCase : jstr → jstr) (parseURL : jstr → option Links.URL).
Let insecure := Links.isInsecureRemote lowerCase parseURL.

(** The constructor; [None] when it refuses. *)
Definition newTransport (base token vault owner deviceId deviceName : jstr) : option HttpTransport :=
  if insecure base then None
  else Some {| baseUrl := normBase base; token := token; vault := vault; owner := owner; deviceId := deviceId;
               deviceName := deviceName |}.
Definition cleartext : Err :=
  ErrMsg (js "Refusing to send a request over an unencrypted http:// connection to a remote server "
          ++ [8212%N] ++ js " use an https:// address.").
(** The request that leaves, if any; and the outcome. *)
Definition sent {A} (x : exchange A) : option Request :=
  match x with
  | Fail _ => None
  | Exchange req _ => if insecure (r_url req) then None else Some req
  end.
Definition perform {A} (net : Request → res Err Response) (x : exchange A) : res Err A :=
  match x with
  | Fail e => Throw e
  | Exchange req view =>
      if insecure (r_url req) then Throw cleartext
      else match net req with Ok r => view r | Throw e => Throw e end
  end.
(** The calls of the sync interface. *)
Definition syncApi (t : HttpTransport) (net : Request → res Err Response) (o : Op) : option (Ans o) :=
  match o return option (Ans o) with
  | ApiChanges v => Some (perform net (changes t v))
  | ApiFileMeta p => Some (perform net (fileMeta t p))
  | ApiMissing hs => Some (perform net (missing t hs))
  | ApiGetChunk h => Some (perform net (getChunk t h))
  | ApiPutChunk h b => Some (perform net (putChunk t h b))
  | ApiCommit r => Some (perform net (commit t r))
  | ApiDelete p v => Some (perform net (deleteFile t p v))
  | _ => None
  end.
Definition syncSent (t : HttpTransport) (o : Op) : option Request :=
  match o with
  | ApiChanges v => sent (changes t v)
  | ApiFileMeta p => sent (fileMeta t p)
  | ApiMissing hs => sent (missing t hs)
  | ApiGetChunk h => sent (getChunk t h)
  | ApiPutChunk h b => sent (putChunk t h b)
  | ApiCommit r => sent (commit t r)
  | ApiDelete p v => sent (deleteFile t p v)
  | _ => None
  end.
(** The request of an account call that leaves. *)
Definition accountSent (base tok : jstr) (a : Account) : option Request :=
  if guarded a && insecure base then None
  else match accountRequest base tok a with
       | Some req => if insecure (r_url req) then None else Some req
       | None => None
       end.

(** The message of the early refusal. *)
Definition refusal (a : Account) : Err :=
  match a with
  | Login _ _ =>
      ErrMsg (js "Refusing to send your password over an unencrypted http:// connection to a remote server "
              ++ [8212%N] ++ js " anyone on the network could read it. Use an https:// address (put the server behind a TLS reverse proxy).")
  | _ => ErrMsg (js "Refusing to send a new password over an unencrypted http:// connection to a remote server. Use an https:// address.")
  end.
Definition accountCall (base tok : jstr) (net : Request → res Err Response) (a : Account) : res Err Returned :=
  if guarded a && insecure base then Throw (refusal a)
  else match accountRequest base tok a with
       | None => Throw uriError
       | Some req =>
           if insecure (r_url req) then accountFails a cleartext
           else match net req with Ok r => accountView a r | Throw e => accountFails a e end
       end.

(** ** What leaves *)
Lemma sent_spec {A} (x : exchange A) req :
  sent x = Some req → insecure (r_url req) = false ∧ ∃ view, x = Exchange req view.
Proof. destruct x as [e|r view]; [done|]. cbn. destruct (insecure (r_url r)) eqn:H; [done|]. intros [= <-]. eauto. Qed.
Lemma perform_insecure {A} net (x : exchange A) :
  sent x = None → ∃ e, ∀ net', perform net' x = Throw e ∧ perform net x = Throw e.
Proof. destruct x as [e|r view]; cbn; [by exists e|]. destruct (insecure (r_url r)); [by exists cleartext|done]. Qed.
Lemma atVault_spec {A} t suffix (k : jstr → exchange A) req view :
  atVault t suffix k = Exchange req view → ∃ s, scope t = Some s ∧ k (baseUrl t ++ s ++ suffix) = Exchange req view.
Proof. unfold atVault. destruct (scope t) as [s|]; [|done]. eauto. Qed.
Lemma withPart_spec {A} s (k : jstr → exchange A) req view :
  withPart s k = Exchange req view → wellFormed s = true ∧ k (component s) = Exchange req view.
Proof. unfold withPart, encodeURIComponent. by destruct (wellFormed s). Qed.


(** ** What the server reads *)
Lemma pieces_piece (l : list (jstr * jstr)) :
  Forall (λ e, forallb unreserved e.1 = true ∧ e.1 ≠ [] ∧ wellFormed e.2 = true) l →
  Forall2 piece ((λ e, e.1 ++ cEq :: component e.2) <$> l) l.
Proof.
  induction 1 as [|[k v] l (Hk & Hne & Hv) _ IH]; constructor; [|exact IH]. cbn [fst snd] in *.
  assert (Hchars : Forall (λ c, c < 128 ∧ unreserved c = true)%N k).
  { apply Forall_forall. intros c Hc%list_elem_of_In. rewrite forallb_forall in Hk. specialize (Hk c Hc). split; [|done].
    unfold unreserved, is_digit, is_alpha, is_lower, is_upper in Hk.
    destruct (decide (c < 128)%N) as [|Hb]; [done|]. exfalso. repeat apply orb_true_iff in Hk as [Hk|Hk];
      apply bool_decide_eq_true in Hk; [lia|lia|lia|]. set_solver. }
  assert (Hascii : encode k = k) by (apply encode_ascii; eapply Forall_impl; [exact Hchars|]; by intros ? [? _]).
  assert (Hid : concat (componentByte <$> encode k) = k).
  { rewrite Hascii. clear -Hchars. induction Hchars as [|c k [_ Hc] _ IH]; [done|]. rewrite fmap_cons. cbn [concat].
    unfold componentByte at 1. by rewrite Hc, IH. }
  assert (Hwf : wellFormed k = true).
  { clear -Hchars. induction Hchars as [|c k [Hc _] _ IH]; [done|]. cbn [wellFormed]. unfold isHigh, isLow.
    rewrite (proj2 (N.ltb_lt _ _)), !bool_decide_eq_false_2 by lia. cbn. exact IH. }
  rewrite <- Hid at 1. apply piece_pair; try done; apply component_decodes.
Qed.

(** The server reads exactly what the client means: the query of a metadata
    request parses to the one parameter path, and the query of a delete to path,
    the expected version when there is one and the device when it has a name;
    whatever characters the path contains, it can neither add a parameter nor
    change another, and a path that is no well-formed text is never sent. *)
Theorem query_carries_path t p v req :
  (sent (fileMeta t p) = Some req →
     ∃ s q, scope t = Some s ∧ r_url req = baseUrl t ++ s ++ js "/meta?" ++ q ∧ parseForm q = [(js "path", p)]) ∧
  (sent (deleteFile t p v) = Some req →
     ∃ s q, scope t = Some s ∧ r_url req = baseUrl t ++ s ++ js "/file?" ++ q ∧
       parseForm q = [(js "path", p)]
         ++ match v with Some v => [(js "expected_version", zstr v)] | None => [] end
         ++ (if truthy (deviceId t) then [(js "device_id", deviceId t)] else [])
         ++ (if truthy (deviceName t) then [(js "device_name", deviceName t)] else [])).
Proof.
  split; intros H.
  - apply sent_spec in H as [_ [view Hx]]. apply withPart_spec in Hx as [Hw Hx].
    apply atVault_spec in Hx as (s & Hs & [= <- _]). exists s, (js "path=" ++ component p). split_and!; [done|done|].
    change (js "path=" ++ component p) with (join_with cAmp ((λ e : jstr * jstr, e.1 ++ cEq :: component e.2) <$> [(js "path", p)])).
    apply parse_pieces; [done|]. apply pieces_piece. by repeat constructor.
  - apply sent_spec in H as [_ [view Hx]]. unfold deleteFile in Hx. destruct (forallb _ _) eqn:Hall; [|done].
    apply atVault_spec in Hx as (s & Hs & [= <- _]). exists s, (queryText (deleteParams t p v)). split_and!; [done|done|].
    fold (deleteParams t p v). unfold queryText. apply parse_pieces; [by destruct (deleteParams t p v) eqn:He|].
    apply pieces_piece. rewrite forallb_forall in Hall. apply Forall_forall. intros e He.
    assert (Hk : forallb unreserved e.1 = true ∧ e.1 ≠ []).
    { unfold deleteParams in He. repeat (apply elem_of_app in He as [He|He]);
        try (destruct v); try case_match; try (apply list_elem_of_singleton in He as ->); try (by apply not_elem_of_nil in He);
        split; try done; vm_compute; done. }
    split_and!; [apply Hk..|]. apply Hall. by apply list_elem_of_In.
Qed.

(** ** Vaults do not collide *)
Lemma component_inj a b : wellFormed a = true → wellFormed b = true → component a = component b → a = b.
Proof.
  intros Ha Hb H. rewrite <- (formDecode_encoded componentByte a component_decodes Ha).
  rewrite <- (formDecode_encoded componentByte b component_decodes Hb). unfold component in H. by rewrite H.
Qed.
Lemma component_no_slash s : wellFormed s = true → cSlash ∉ component s.
Proof.
  intros Hs. unfold component. pose proof (encode_bytes s (wellFormed_utf16 s Hs)) as Hb. intros Hin.
  revert Hb Hin. generalize (encode s). intros bs Hb. induction Hb as [|b bs Hb _ IH]; [apply not_elem_of_nil|].
  rewrite fmap_cons. cbn [concat]. rewrite elem_of_app. intros [Hin|Hin]; [|by apply IH].
  pose proof (small_bytes (λ b, negb (bool_decide (cSlash ∈ componentByte b))) eq_refl b Hb) as H. cbv beta in H.
  apply negb_true_iff, bool_decide_eq_false in H. done.
Qed.

(** A piece without the separator is read off unambiguously. *)
Lemma first_piece_inj (c : N) (a b x y : jstr) : c ∉ a → c ∉ b → a ++ c :: x = b ++ c :: y → a = b ∧ x = y.
Proof.
  revert b. induction a as [|u a IH]; intros [|w b] Ha Hb H; cbn in H; injection H.
  - done.
  - intros _ <-. exfalso. apply Hb. left.
  - intros _ ->. exfalso. apply Ha. left.
  - clear H. intros H Hu. rewrite not_elem_of_cons in Ha, Hb. destruct (IH b (proj2 Ha) (proj2 Hb) H) as [-> ->]. by subst u.
Qed.
Lemma truthy_false (s : jstr) : truthy s = false → s = [].
Proof. by destruct s. Qed.

(** Two transports on one server share an address space only when they are
    bound to the same vault: the scope of a request determines the owner and the
    vault, whatever characters their names contain, so no request of one vault
    can land in another. *)
Theorem scopes_are_disjoint a b s :
  scope a = Some s → scope b = Some s → owner a = owner b ∧ vault a = vault b.
Proof.
  unfold scope, encodeURIComponent. destruct (wellFormed (vault a)) eqn:Hva, (wellFormed (vault b)) eqn:Hvb,
    (truthy (owner a)) eqn:Hoa, (truthy (owner b)) eqn:Hob, (wellFormed (owner a)) eqn:Hwa, (wellFormed (owner b)) eqn:Hwb;
    try done; intros Ha Hb; rewrite <- Hb in Ha; apply (inj Some) in Ha; clear Hb;
    rewrite ?(truthy_false _ Hoa), ?(truthy_false _ Hob).
  all: try (apply (f_equal (take 7)) in Ha; discriminate Ha).
  all: apply app_inv_head in Ha.
  all: try (apply first_piece_inj in Ha as [Ho Hv]; [|by apply component_no_slash..]).
  all: split; first [done|by apply component_inj].
Qed.
(** ** Errors *)
(** What the reconciler is told about a commit. *)
Inductive Outcome (r : Response) (p : jstr) : res Err FileMeta → Prop :=
| Committed m : st r = 200%Z → (∃ v, json r = Some v ∧ validateFileMeta v = Ok m) → Outcome r p (Ok m)
| Conflicted e : st r = 409%Z ∨ st r = 404%Z → Outcome r p (Throw (CommitConflictError e))
| Rejected e : (400 ≤ st r < 500)%Z → st r ≠ 409%Z → st r ≠ 404%Z → Outcome r p (Throw (CommitRejectedError e (st r)))
| Failed e : ¬ (400 ≤ st r < 500)%Z → Outcome r p (Throw (ErrMsg e)).
Lemma malformed_message {A} (m : res Malformed A) e : malformed m = Throw e → ∃ t, e = ErrMsg t.
Proof. destruct m as [|[]]; [done|..]; intros [= <-]; eauto. Qed.
Lemma malformed_Ok {A} (m : res Malformed A) a : malformed m = Ok a ↔ m = Ok a.
Proof. destruct m as [b|[]]; split; intros H; by simplify_eq/=. Qed.

(** A commit is reported for what it is: the reconciler is told "committed"
    only for a 200 whose body is a well-formed record, "conflict" exactly for 409
    and for 404 (a chunk was reclaimed), "rejected" exactly for the other 4xx
    with that status, and everything else, 5xx and malformed bodies included, is
    an ordinary error. *)
Theorem commit_outcome r p : Outcome r p (commitView p r).
Proof.
  unfold commitView. repeat case_match; repeat match goal with
    | H : (_ =? _)%Z = true |- _ => apply Z.eqb_eq in H
    | H : (_ =? _)%Z = false |- _ => apply Z.eqb_neq in H
    | H : negb (_ =? _)%Z = true |- _ => apply negb_true_iff, Z.eqb_neq in H
    | H : negb (_ =? _)%Z = false |- _ => apply negb_false_iff, Z.eqb_eq in H
    | H : (_ && _) = true |- _ => apply andb_true_iff in H as [?%Z.leb_le ?%Z.ltb_lt]
    | H : (_ && _) = false |- _ => apply andb_false_iff in H
    end.
  - apply Conflicted. by left.
  - apply Conflicted. by right.
  - by apply Rejected.
  - apply Failed. destruct H1 as [?%Z.leb_gt|?%Z.ltb_ge]; lia.
  - destruct (malformed _) as [m|e] eqn:Hm.
    + apply malformed_Ok in Hm. apply Committed; eauto.
    + apply malformed_message in Hm as [t ->]. apply Failed. lia.
  - apply Failed. lia.
Qed.

Lemma asPerm_exact v : asPerm v = PReadWrite ↔ v = VStr (js "readWrite").
Proof.
  destruct v; try done. unfold asPerm, jeq. destruct (bool_decide_reflect (s = js "readWrite")) as [->|Hne]; [done|].
  split; [done|]. intros H. exfalso. apply Hne. congruence.
Qed.
Definition refOf (x : jsval) (r : SharedVaultRef) : Prop :=
  prop x (js "owner") = VStr (sv_owner r) ∧ prop x (js "vault") = VStr (sv_vault r) ∧
  (sv_perm r = PReadWrite ↔ prop x (js "perm") = VStr (js "readWrite")).
Lemma asStr_Ok v f s : asStr v f = Ok s → v = VStr s.
Proof. destruct v; try done. by intros [= ->]. Qed.
Lemma asSharedVaultRef_Ok x r : asSharedVaultRef x = Ok r → refOf x r.
Proof.
  unfold asSharedVaultRef. intros (o & Ho%asStr_Ok & (v & Hv%asStr_Ok & [= <-])%rbind_Ok)%rbind_Ok.
  split_and!; [done..|]. apply asPerm_exact.
Qed.
Lemma rmap_Forall2 {E A B} (f : A → res E B) (R : A → B → Prop) l ys :
  (∀ x y, f x = Ok y → R x y) → rmap f l = Ok ys → Forall2 R l ys.
Proof.
  intros Hf. revert ys. induction l as [|x l IH]; simpl; intros ys.
  - intros [= <-]. constructor.
  - intros (y & Hy & (zs & Hz & [= <-])%rbind_Ok)%rbind_Ok. constructor; eauto.
Qed.
Lemma shared_total xs :
  Forall (λ x, ∃ o w, prop x (js "owner") = VStr o ∧ prop x (js "vault") = VStr w) xs → ∃ l, rmap asSharedVaultRef xs = Ok l.
Proof.
  induction 1 as [|x xs (o & w & Ho & Hw) _ IH]; [by exists []|]. destruct IH as [ys IH].
  assert (∃ r, asSharedVaultRef x = Ok r) as [r Hr] by (unfold asSharedVaultRef; rewrite Ho, Hw; cbn; eauto).
  exists (r :: ys). simpl. rewrite Hr. simpl. by rewrite IH.
Qed.
Definition grantOf (g : jsval) (v : VaultGrant) : Prop :=
  prop g (js "grantee") = VStr (vg_grantee v) ∧ (vg_perm v = PReadWrite ↔ prop g (js "perm") = VStr (js "readWrite")).

(** What the server says about sharing is never read as more than it is: the
    accepted list of shared vaults matches the response entry by entry, owner and
    vault are its strings, and write access is granted exactly where the entry
    says the literal "readWrite": a missing, unknown or ill-typed permission
    reads as read-only and never rejects the list.  The same holds for the
    grants of one's own vaults. *)
Theorem share_permissions_exact v :
  (∀ l, validateSharedVaults v = Ok l → ∃ xs, v = VArr xs ∧ Forall2 refOf xs l) ∧
  (∀ l, validateVaultShares v = Ok l → ∃ xs, v = VArr xs ∧
     Forall2 (λ x s, prop x (js "vault") = VStr (vs_vault s) ∧
                     ∃ gs, prop x (js "grants") = VArr gs ∧ Forall2 grantOf gs (vs_grants s)) xs l) ∧
  (∀ xs, v = VArr xs →
     Forall (λ x, ∃ o w, prop x (js "owner") = VStr o ∧ prop x (js "vault") = VStr w) xs → ∃ l, validateSharedVaults v = Ok l).
Proof.
  assert (Harr : ∀ f xs, asArray v f = Ok xs → v = VArr xs) by (intros f xs; destruct v; try done; by intros [= ->]).
  split_and!.
  - intros l (xs & Hx%Harr & H)%rbind_Ok. exists xs. split; [done|]. eapply rmap_Forall2; [exact asSharedVaultRef_Ok|exact H].
  - intros l (xs & Hx%Harr & H)%rbind_Ok. exists xs. split; [done|]. eapply rmap_Forall2; [|exact H].
    intros x y (gs & (ga & Hg & Hgs)%rbind_Ok & (w & Hw%asStr_Ok & [= <-])%rbind_Ok)%rbind_Ok. split; [done|].
    exists ga. split; [destruct (prop x (js "grants")); try done; by injection Hg as ->|].
    eapply rmap_Forall2; [|exact Hgs]. intros g z (n & Hn%asStr_Ok & [= <-])%rbind_Ok. split; [done|]. apply asPerm_exact.
  - intros xs -> Hl. by apply shared_total.
Qed.

(** ** Witnesses *)
Definition demoTransport (owner vault : jstr) : HttpTransport :=
  {| baseUrl := js "https://notes.example"; token := js "t0k"; vault := vault; owner := owner; deviceId := js "d1"; deviceName := [] |}.
Example scopes_are_disjoint_witness :
  scope (demoTransport (js "anna") (js "a/b & c")) = Some (js "/api/u/anna/a%2Fb%20%26%20c") ∧
  (owner (demoTransport (js "anna") (js "a/b & c")) = js "anna" ∧
   vault (demoTransport (js "anna") (js "a/b & c")) = js "a/b & c").
Proof.
  split; [vm_compute; reflexivity|].
  apply (scopes_are_disjoint _ (demoTransport (js "anna") (js "a/b & c")) (js "/api/u/anna/a%2Fb%20%26%20c"));
    vm_compute; reflexivity.
Defined.
End Gate.
End Transport.
