(* ===== verification/Plugins.v ===== *)
(** * Plugins: community plugins that arrive by sync ([client/src/main.ts])

    Which plugins this device starts to sync on its own ([runPluginAutopilot]),
    when code that arrived is run without a restart ([applyPluginCodeChange]), what
    the user is told about synced configuration, and the explicit operations on one
    plugin.  The plugin's records are read by [Look] and written by [Put*]; every
    other task may change them between two reads. *)

From S2P Require Import Prelude Regex Jsmap Effects Configsync Protocol Sync Transport.

Module Plugins.
Import Config Iface.

#[local] Instance surface_eq_dec : EqDecision ConfigSurface.
Proof. solve_decision. Defined.

(** ** The plugin's records *)
Record Snap := {
  online : bool; busy : bool; autoSync : bool; readOnly : bool; vaultOwner : option jstr; vaultId : jstr;
  username : jstr; device : jstr; selfFolder : jstr; mode : NotifyMode;
  cs : ConfigSyncSelection; installed : list jstr; running : list jstr; hotApi : bool;
  serverIds : list jstr; authors : list (jstr * option jstr); private : bool;
  observed : list jstr; toasted : list jstr; surfaceDir : list (ConfigSurface * ConfigDirection); conflicts : list jstr;
  written : list jstr; provenance : list (jstr * ChangeProvenance); deletions : list (jstr * ChangeProvenance)
}.
Inductive News : Type :=
| PeerPlugin (id who : jstr)
| HotAdded (ids : list jstr) (who : option jstr) | CodeChanged (ids : list jstr) (who : option jstr)
| CssChanged (who : option jstr) | CoreChanged (who : option jstr) | ConfigApplied (n : nat)
| ConfigRemoved (total : nat) (who : list (jstr * nat)) (restart : bool) | OwnRemoved (n : nat)
| HotFailed (id : jstr) | Refused | Stopped (completed total : nat) | Forced (n : nat)
| FirstContact (path : jstr) (choice : Side) | Differs (path reason : jstr).
Inductive POp : Type :=
| Look | PutBusy (b : bool) | PutDir (id : jstr) (d : ConfigDirection) | PutAllow (l : list jstr)
| PutObserved (l : list jstr) | PutPending (l : list (jstr * jstr)) | PutToasted (id : jstr) | PutPrivate (b : bool)
| ClearWritten | ClearProvenance | ClearDeletions
| ApplyConfigSync | SaveSettings | Refresh | Tell (n : News)
| MyVaultShares | ListShareLinks | LoadManifests | EnablePlugin (id : jstr)
| PutServer (ids : list jstr) | PutAuthors (l : list (jstr * option jstr)) | DropDir (id : jstr)
| PutSurface (s : ConfigSurface) (on : bool) | PutSurfaceDir (s : ConfigSurface) (d : option ConfigDirection)
| PutConflicts (l : list jstr) | DropBase (path : jstr) | Persist
| ListLocal | ServerChanges | Resolve (path : jstr) (choice : Side) | ResolveLater (path : jstr) (choice : Side)
| DeleteFile (path : jstr).
Definition PAns (o : POp) : Type :=
  match o with
  | Look => Snap
  | MyVaultShares => res Err (list Transport.VaultShares)
  | ListShareLinks => res Err (list Transport.ShareLinkInfo)
  | LoadManifests | EnablePlugin _ | Resolve _ _ | DeleteFile _ => res Err unit
  | ListLocal => res Err (list jstr)
  | ServerChanges => res Err Wire.ChangesResponse
  | _ => unit
  end.
Abbreviation P := (M PAns unit Err).
Abbreviation PHistory := (hist PAns unit Err).
Definition look : P Snap := call Look.
Definition tell (o : POp) : P unit := bindM (call o) (λ _, mret' tt).
Notation need o := (callE o id) (only parsing).

Section Plugins.
Context (lowerCase : jstr → jstr).

(** ** Whose vault, whose code *)
Definition isOwnAccount (s : Snap) (owner : option jstr) : bool :=
  let a := lowerCase (trim (default [] owner)) in truthy a && (a === lowerCase (trim (username s))).
Definition isWrite (p : Transport.SharePerm) : bool := match p with Transport.PReadWrite => true | Transport.PRead => false end.
Definition rwGrant (vault : jstr) (l : list Transport.VaultShares) : bool :=
  match List.find (λ v, Transport.vs_vault v === vault) l with
  | Some v => existsb (λ g, isWrite (Transport.vg_perm g)) (Transport.vs_grants v)
  | None => false
  end.
Definition rwLink (vault : jstr) (l : list Transport.ShareLinkInfo) : bool :=
  existsb (λ x, (Transport.li_vault x === vault) && isWrite (Transport.li_perm x)) l.
(** The settings are read again after each answer. *)
Definition refreshVaultPrivacy : P unit :=
  let* s := look in
  if otruthy (vaultOwner s) then tell (PutPrivate false)
  else
    try_catch
      (let* shares := need MyVaultShares in
       let* s := look in
       let hasRwGrant := rwGrant (vaultId s) shares in
       let* links := need ListShareLinks in
       let* s := look in
       tell (PutPrivate (negb hasRwGrant && negb (rwLink (vaultId s) links))))
      (λ _, tell (PutPrivate false)).
Definition authorOf (s : Snap) (id : jstr) : option jstr := default None (jget (authors s) id).
Definition mine (s : Snap) (id : jstr) : bool :=
  isOwnAccount s (authorOf s id) || (negb (otruthy (authorOf s id)) && private s).

(** ** The autopilot *)
Definition mayRun (s : Snap) : bool := autoSync s && online s && negb (busy s) && community (cs s).
Definition ownIds (s : Snap) (l : list jstr) : list jstr := filter (λ id, isSelfPluginId id (selfFolder s) = false) l.
(** The plugins installed here that are new. *)
Definition newLocal (s : Snap) : list jstr :=
  filter (λ id, id ∉ dedup (pluginAllow (cs s)) ∧ id ∉ observed s) (dedup (ownIds s (installed s))).
Definition localDir (s : Snap) : ConfigDirection := if readOnly s then Download else Upload.
Record Pass := { allow : list jstr; seen : list jstr; pending : list (jstr * jstr); adopted : list jstr }.
Definition someoneElse : jstr := js "someone else".
(** The turn of the loop over the server's plugins. *)
Definition classify (s : Snap) (p : Pass) (id : jstr) : Pass :=
  if bool_decide (id ∈ allow p) then p
  else if mine s id then
    let new := bool_decide (id ∉ seen p) in
    {| allow := if new then allow p ++ [id] else allow p; seen := dedup (seen p ++ [id]); pending := pending p;
       adopted := if new then adopted p ++ [id] else adopted p |}
  else
    {| allow := allow p; seen := seen p; pending := jset (pending p) id (default someoneElse (authorOf s id));
       adopted := adopted p |}.
Definition passFrom (s1 s2 : Snap) : Pass :=
  foldl (classify s2)
    {| allow := dedup (pluginAllow (cs s1)) ++ newLocal s1; seen := dedup (observed s1); pending := []; adopted := [] |}
    (ownIds s1 (serverIds s1)).
Definition autopilotBody (s1 : Snap) : P unit :=
  for_each (newLocal s1) (λ id, tell (PutDir id (localDir s1))) ;;
  let before := dedup (pluginAllow (cs s1)) in
  let* s2 :=
    (if existsb (λ id, negb (bool_decide (id ∈ before ++ newLocal s1)) && negb (otruthy (authorOf s1 id)))
          (ownIds s1 (serverIds s1))
     then refreshVaultPrivacy ;; look else mret' s1) in
  let p := passFrom s1 s2 in
  for_each (adopted p) (λ id, tell (PutDir id Download)) ;;
  for_each (filter (λ e, e.1 ∉ toasted s2) (pending p)) (λ e, tell (PutToasted e.1) ;; tell (Tell (PeerPlugin e.1 e.2))) ;;
  tell (PutPending (pending p)) ;;
  tell (PutObserved (dedup (seen p ++ ownIds s1 (installed s1)))) ;;
  (if length (allow p) =? length before then tell SaveSettings
   else tell (PutAllow (allow p)) ;; tell ApplyConfigSync) ;;
  tell Refresh.
Definition runPluginAutopilot : P unit :=
  let* s := look in
  if negb (mayRun s) then mret' tt
  else tell (PutBusy true) ;; finally (autopilotBody s) (λ _, tell (PutBusy false)).

(** ** Configuration that arrived: notices, and code run without a restart *)
Definition selfIdentity (s : Snap) : SelfIdentity := {| user := username s; selfDeviceId := device s |}.
Definition noProvenance : ChangeProvenance :=
  {| Config.author := None; Config.deviceId := None; Config.deviceName := None |}.
Definition notifies (s : Snap) (p : ChangeProvenance) : bool := shouldNotifyConfigChange p (selfIdentity s) (mode s).
Definition notifiableConfigSource (s : Snap) (paths : list jstr) : option ChangeProvenance :=
  List.find (notifies s) ((λ p, default noProvenance (jget (provenance s) p)) <$> paths).
Definition sourceLabel (s : Snap) (paths : list jstr) : option jstr :=
  (λ p, changeSourceLabel p (selfIdentity s)) <$> notifiableConfigSource s paths.

Definition isRunning (s : Snap) (id : jstr) : bool := bool_decide (id ∈ running s).
Definition hotLoadable (s : Snap) (ids : list jstr) : list jstr := if private s then filter (λ id, mine s id = true) ids else [].
(** The plugins that started, and those that did not. *)
Fixpoint enableAll (ids : list jstr) : P (list jstr * list jstr) :=
  match ids with
  | [] => mret' ([], [])
  | id :: l =>
      let* good := try_catch (need (EnablePlugin id) ;; mret' true) (λ _, tell (Tell (HotFailed id)) ;; mret' false) in
      let* r := enableAll l in
      mret' (if good then (id :: r.1, r.2) else (r.1, id :: r.2))
  end.
Definition hotLoad (s : Snap) (ids : list jstr) : P (list jstr * list jstr) :=
  match ids with
  | [] => mret' ([], [])
  | _ => if hotApi s then try_catch (need LoadManifests ;; enableAll ids) (λ _, mret' ([], ids)) else mret' ([], ids)
  end.
Definition applyPluginCodeChange (ids paths : list jstr) : P unit :=
  let* s1 := look in
  let newlyArrived := filter (λ id, isRunning s1 id = false) ids in
  let* s2 := (if negb (length newlyArrived =? 0) && hotApi s1 then refreshVaultPrivacy ;; look else mret' s1) in
  let hot := hotLoadable s2 newlyArrived in
  let* p := hotLoad s2 hot in
  let needRestart := filter (λ id, isRunning s1 id = true) ids ++ filter (λ id, id ∉ hot) newlyArrived ++ p.2 in
  let* s3 := look in
  let who := sourceLabel s3 paths in
  (whenM negb (length p.1 =? 0) then (tell Refresh ;; tell (Tell (HotAdded p.1 who)))) ;;
  (whenM negb (length needRestart =? 0) then tell (Tell (CodeChanged (jsort (dedup needRestart)) who))).

Definition isCss (p : jstr) : bool :=
  (p === js "appearance.json") || ends_with p (js "/appearance.json") || Prelude.includes p (js "/themes/")
  || Prelude.includes p (js "/snippets/").
Definition isCore (p : jstr) : bool :=
  existsb (λ n, ends_with p (n ++ js ".json")) [js "app"; js "core-plugins"; js "community-plugins"; js "hotkeys"].
Definition foreignPlugin (s : Snap) (p : jstr) : option jstr :=
  match pluginIdOf p with Some id => if id === selfFolder s then None else Some id | None => None end.
Definition flushConfigReload : P unit :=
  let* s := look in
  match written s with
  | [] => mret' tt
  | _ =>
      let paths := written s in
      tell ClearWritten ;;
      let cssPaths := filter (λ p, isCss p = true) paths in
      let pluginPaths := filter (λ p, is_Some (foreignPlugin s p)) paths in
      let corePaths := filter (λ p, isCore p = true) paths in
      let pluginIds := dedup (omap (foreignPlugin s) pluginPaths) in
      (if negb (length pluginIds =? 0) then applyPluginCodeChange pluginIds pluginPaths
       else if negb (length cssPaths =? 0) then tell (Tell (CssChanged (sourceLabel s cssPaths)))
       else if negb (length corePaths =? 0) then tell (Tell (CoreChanged (sourceLabel s corePaths)))
       else tell (Tell (ConfigApplied (length paths)))) ;;
      tell ClearProvenance
  end.
Definition countSource (s : Snap) (m : list (jstr * nat)) (p : ChangeProvenance) : list (jstr * nat) :=
  let l := changeSourceLabel p (selfIdentity s) in jset m l (default 0 (jget m l) + 1).
Definition restartHint (p : jstr) : bool :=
  Prelude.includes p (js "/plugins/") || Prelude.includes p (js "/snippets/") || Prelude.includes p (js "/themes/").
Definition flushConfigDeletions : P unit :=
  let* s := look in
  match deletions s with
  | [] => mret' tt
  | _ =>
      let entries := deletions s in
      tell ClearDeletions ;;
      let notifying := filter (λ e, notifies s e.2 = true) entries in
      match notifying with
      | [] => tell (Tell (OwnRemoved (length entries)))
      | _ => tell (Tell (ConfigRemoved (length notifying) (foldl (countSource s) [] (snd <$> notifying))
                           (existsb (λ e, restartHint e.1) notifying)))
      end
  end.

(** ** Explicit choices *)
Definition setServerPlugins (plugins : list (jstr * option jstr)) : P unit :=
  let* s := look in
  let held := filter (λ e, truthy e.1 = true ∧ e.1 ≠ selfFolder s) plugins in
  let next := dedup held.*1 in
  tell (PutAuthors (jof held)) ;;
  if (length next =? length (serverIds s)) && forallb (λ id, bool_decide (id ∈ serverIds s)) next then mret' tt
  else tell (PutServer next) ;; tell Refresh.
Definition setAdd (l : list jstr) (id : jstr) : list jstr := if bool_decide (id ∈ dedup l) then dedup l else dedup l ++ [id].
Definition surfaceDirOf (s : Snap) (x : ConfigSurface) : option ConfigDirection :=
  snd <$> List.find (λ e, bool_decide (e.1 = x)) (surfaceDir s).
Definition markPendingConfigDir (surface : ConfigSurface) (d : ConfigDirection) : P unit :=
  let* s := look in tell (PutSurfaceDir surface (Some (if readOnly s then Download else d))).
Definition setConfigSurface (surface : ConfigSurface) (on : bool) (d : option ConfigDirection) : P unit :=
  tell (PutSurface surface on) ;;
  match d with
  | Some d => if on then markPendingConfigDir surface d else tell (PutSurfaceDir surface None)
  | None => tell (PutSurfaceDir surface None)
  end ;;
  tell ApplyConfigSync.
Definition setPluginSync (id : jstr) (on : bool) (d : option ConfigDirection) : P unit :=
  let* s := look in
  tell (PutAllow (if on then setAdd (pluginAllow (cs s)) id else filter (λ x, x ≠ id) (dedup (pluginAllow (cs s))))) ;;
  (whenM on then tell (PutDir id
     (if readOnly s then Download else
      match d, surfaceDirOf s Community with Some d, _ => d | None, Some d => d | None, None => Download end))) ;;
  tell ApplyConfigSync.
Definition installAllServerPlugins : P unit :=
  let* s := look in for_each (serverIds s) (λ id, setPluginSync id true (Some Download)).

(** [/^[A-Za-z0-9][A-Za-z0-9._-]*$/] *)
Definition alnum (c : N) : bool := is_alpha c || is_digit c.
Definition idTail (c : N) : bool := alnum c || bool_decide (c = 46 ∨ c = 95 ∨ c = 45)%N.
Definition pluginIdRe : regex := RSeq (RClass alnum) (RStar (RClass idTail)).
Definition validPluginId (id : jstr) : bool := rmatch pluginIdRe id.
Definition pluginPrefix (id : jstr) : jstr := js ".obsidian/plugins/" ++ id ++ js "/".
(** The resolved files are counted; the first failure ends the loop. *)
Fixpoint resolveAll (paths : list jstr) (choice : Side) (n : nat) : P (nat * bool) :=
  match paths with
  | [] => mret' (n, true)
  | p :: l =>
      let* good := try_catch (need (Resolve p choice) ;; mret' true) (λ _, mret' false) in
      if good then resolveAll l choice (S n) else mret' (n, false)
  end.
Definition forcePlugin (id : jstr) (choice : Side) : P nat :=
  let* s := look in
  if negb (online s) then (tell (Tell Refused) ;; mret' 0)
  else if match choice with Local => readOnly s | Remote => false end then (tell (Tell Refused) ;; mret' 0)
  else if negb (validPluginId id) then (tell (Tell Refused) ;; mret' 0)
  else if isSelfPluginId id (selfFolder s) then (tell (Tell Refused) ;; mret' 0)
  else
    let* here := need ListLocal in
    let* server := need ServerChanges in
    let paths := pluginFilePaths here (Wire.path <$> Wire.upserts server) id in
    let* r := resolveAll paths choice 0 in
    tell Persist ;; tell Refresh ;;
    if r.2 then (tell (Tell (Forced (length paths))) ;; mret' r.1)
    else (tell (Tell (Stopped r.1 (length paths))) ;; mret' r.1).
Definition removePluginFromServer (id : jstr) : P nat :=
  let* s := look in
  if negb (online s) then (tell (Tell Refused) ;; mret' 0)
  else if negb (validPluginId id) then (tell (Tell Refused) ;; mret' 0)
  else
    let* manifest := need ServerChanges in
    let paths := filter (λ p, starts_with p (pluginPrefix id) = true) (Wire.path <$> Wire.upserts manifest) in
    for_each paths (λ p, need (DeleteFile p) ;; tell (DropBase p)) ;;
    let* s := look in
    tell (PutAllow (filter (λ x, x ≠ id) (pluginAllow (cs s)))) ;; tell (DropDir id) ;;
    tell (PutServer (filter (λ x, x ≠ id) (serverIds s))) ;; tell Persist ;; tell SaveSettings ;; tell Refresh ;;
    mret' (length paths).

(** ** Differences that wait for a decision *)
Definition directionFor (s : Snap) (path : jstr) : option ConfigDirection :=
  let d := configSurfaceOf path ≫= surfaceDirOf s in
  let d := match pluginIdOf path ≫= jget (pluginDir (cs s)) with Some x => Some x | None => d end in
  match d with Some _ => if readOnly s then Some Download else d | None => None end.
Definition recordConfigConflict (path reason : jstr) : P unit :=
  let* s := look in
  match adjudicateConfigConflict reason (configSurfaceOf path) (directionFor s path) with
  | Auto c => tell (ResolveLater path c) ;; tell (Tell (FirstContact path c))
  | Manual =>
      if bool_decide (path ∈ conflicts s) then mret' tt
      else tell (PutConflicts (conflicts s ++ [path])) ;; tell SaveSettings ;; tell (Tell (Differs path reason)) ;; tell Refresh
  end.
Definition clearConfigConflict (path : jstr) : P unit :=
  let* s := look in
  if negb (bool_decide (path ∈ conflicts s)) then mret' tt
  else tell (PutConflicts (filter (λ p, p ≠ path) (conflicts s))) ;; tell SaveSettings ;; tell Refresh.
Definition resolveConfigGroup (paths : list jstr) (choice : Side) : P unit :=
  for_each paths (λ p, need (Resolve p choice)) ;;
  let* s := look in
  tell (PutConflicts (filter (λ p, p ∉ paths) (conflicts s))) ;; tell SaveSettings ;; tell Refresh.

(** ** Trust *)
Implicit Types (h : PHistory).
Lemma tell_safe (J : PHistory → POp → Prop) o h (Q : res Err unit → PHistory → Prop) :
  J h o → (∀ h', h ⊑ h' → Q (Ok tt) h') → safe J (tell o) Q h.
Proof. intros Ho HQ. apply (safe_bind J), safe_call; [done|]. intros r h' Hs _ _. by apply safe_ret, HQ. Qed.
Lemma look_safe (J : PHistory → POp → Prop) h (Q : res Err Snap → PHistory → Prop) :
  J h Look → (∀ s h', h ⊑ h' → called h' Look s → Q (Ok s) h') → safe J look Q h.
Proof. intros HJ HQ. by apply safe_call. Qed.
(** Nobody else was found to be able to write to the vault. *)
Definition noOtherWriter h : Prop :=
  ∃ s1 s2 s3 shares links,
    called h Look s1 ∧ otruthy (vaultOwner s1) = false ∧
    called h MyVaultShares (Ok shares) ∧ called h Look s2 ∧ rwGrant (vaultId s2) shares = false ∧
    called h ListShareLinks (Ok links) ∧ called h Look s3 ∧ rwLink (vaultId s3) links = false.
(** The records were read after the privacy of the vault was established again. *)
Definition fresh h (s : Snap) : Prop :=
  ∃ b r, [ev (Ans := cans) (Call (PutPrivate b)) r; ev (Ans := cans) (Call Look) s] ⊑ h.
(** Code of this account, or code of nobody in particular in a private vault. *)
Definition ownCode (s : Snap) (id : jstr) : Prop :=
  isOwnAccount s (authorOf s id) = true ∨ otruthy (authorOf s id) = false ∧ private s = true.
Definition trusted h (o : POp) : Prop :=
  match o with
  | PutPrivate true => noOtherWriter h
  | PutAllow l =>
      ∃ s1 s2, called h Look s1 ∧ called h Look s2 ∧ mayRun s1 = true ∧
        (∀ id, id ∈ pluginAllow (cs s1) → id ∈ l) ∧
        ∀ id, id ∈ l → id ∉ pluginAllow (cs s1) →
          isSelfPluginId id (selfFolder s1) = false ∧ id ∉ observed s1 ∧
          (id ∈ installed s1 ∨
           id ∈ serverIds s1 ∧ ownCode s2 id ∧ (otruthy (authorOf s2 id) = false → fresh h s2))
  | EnablePlugin id =>
      ∃ s1 s2, called h Look s1 ∧ id ∉ running s1 ∧ fresh h s2 ∧ private s2 = true ∧ ownCode s2 id ∧
        called h LoadManifests (Ok tt)
  | Resolve _ _ | DeleteFile _ | ResolveLater _ _ => False
  | _ => True
  end.
Lemma fresh_mono h h' s : h ⊑ h' → fresh h s → fresh h' s.
Proof. intros Hs (b & r & Hf). exists b, r. by etransitivity. Qed.
#[local] Instance trusted_justified : Justified trusted.
Proof.
  intros h h' o Hs. destruct o; cbn; try done.
  - intros (s1 & s2 & H1 & H2 & ? & ? & Hl). exists s1, s2. split_and!; try done; try by eapply called_mono.
    intros x Hx Hn. destruct (Hl x Hx Hn) as (? & ? & [ | (? & ? & Hf)]); split_and!; auto.
    right. split_and!; auto. intros Ha. eapply fresh_mono; eauto.
  - destruct b; [|done]. intros (s1 & s2 & s3 & shares & links & ?). exists s1, s2, s3, shares, links.
    destruct_and!. split_and!; try done; by eapply called_mono.
  - intros (s1 & s2 & ? & ? & ? & ? & ? & ?). exists s1, s2. split_and!; try done; try by eapply called_mono.
    by eapply fresh_mono.
Qed.
Lemma mine_own s id : mine s id = true ↔ ownCode s id.
Proof. unfold mine, ownCode. rewrite orb_true_iff, andb_true_iff, negb_true_iff. done. Qed.
(** A refresh records its verdict, whatever the server answered. *)
Definition recorded h : Prop := ∃ b r, called h (PutPrivate b) r.
Lemma tell_private b h (Q : res Err unit → PHistory → Prop) :
  trusted h (PutPrivate b) → (∀ h', h ⊑ h' → recorded h' → Q (Ok tt) h') → safe trusted (tell (PutPrivate b)) Q h.
Proof.
  intros Ho HQ. apply (safe_bind trusted), safe_call; [done|]. intros r h' Hs Hc _.
  apply safe_ret, HQ; [done|]. by exists b, r.
Qed.
Lemma refresh_spec h (Q : res Err unit → PHistory → Prop) :
  (∀ h', h ⊑ h' → recorded h' → Q (Ok tt) h') → safe trusted refreshVaultPrivacy Q h.
Proof.
  intros HQ. apply (safe_bind trusted), look_safe; [done|]. intros s1 h1 Hs1 Hl1 _.
  destruct (otruthy (vaultOwner s1)) eqn:Ho.
  { apply tell_private; [done|]. intros h' Hs' Hr. apply HQ; [chain|done]. }
  assert (HF : ∀ h2, h1 ⊑ h2 → safe trusted (tell (PutPrivate false)) Q h2).
  { intros h2 Hs2. apply tell_private; [done|]. intros h' Hs' Hr. apply HQ; [chain|done]. }
  apply safe_try, safe_bind, safe_callE; [done|]. intros [shares|e] h2 Hs2 Hc2 _; cbn [id]; [|intros _; apply HF; chain].
  apply (safe_bind trusted), look_safe; [done|]. intros s2 h3 Hs3 Hl3 _.
  apply (safe_bind trusted), safe_callE; [done|]. intros [links|e] h4 Hs4 Hc4 _; cbn [id]; [|intros _; apply HF; chain].
  apply (safe_bind trusted), look_safe; [done|]. intros s3 h5 Hs5 Hl5 _.
  apply tell_private.
  - destruct (negb _ && negb _) eqn:Hp; [|done]. apply andb_true_iff in Hp as [Hg Hk].
    apply negb_true_iff in Hg, Hk. exists s1, s2, s3, shares, links.
    split_and!; try done; (eapply called_mono; [|eassumption]); chain.
  - intros h' Hs' Hr _. apply HQ; [chain|done].
Qed.
(** [refreshVaultPrivacy] and the read that follows it. *)
Lemma refreshed_spec h (Q : res Err Snap → PHistory → Prop) :
  (∀ s h', h ⊑ h' → called h' Look s → fresh h' s → Q (Ok s) h') → safe trusted (refreshVaultPrivacy ;; look) Q h.
Proof.
  intros HQ. apply (safe_bind trusted), refresh_spec. intros h1 Hs1 (b & r & Hr) _.
  split; [done|]. intros s. apply HQ; [by etransitivity; [|apply sublist_inserts_r]|apply called_snoc|].
  exists b, r. apply (sublist_app [_] _ [_] [_]); [|done]. by apply singleton_sublist_l.
Qed.

(** *** The autopilot *)
Lemma classify_allow s p id x :
  x ∈ allow (classify s p id) → x ∈ allow p ∨ x = id ∧ ownCode s id ∧ id ∉ seen p.
Proof.
  unfold classify. case_bool_decide; [by left|]. destruct (mine s id) eqn:Hm; [|by left]. cbn [allow].
  case_bool_decide; [|by left]. intros [ | ->%list_elem_of_singleton]%elem_of_app; [by left|].
  right. by rewrite <- mine_own.
Qed.
Lemma classify_grows s p id x :
  (x ∈ allow p → x ∈ allow (classify s p id)) ∧ (x ∈ seen p → x ∈ seen (classify s p id)).
Proof.
  unfold classify. case_bool_decide; [done|]. destruct (mine s id); [|done]. cbn [allow seen]. split.
  - case_bool_decide; [|done]. intros Hx. apply elem_of_app. by left.
  - intros Hx. apply dedup_elem_of, elem_of_app. by left.
Qed.
Lemma classify_fold s l p x :
  (x ∈ allow p → x ∈ allow (foldl (classify s) p l)) ∧
  (x ∈ allow (foldl (classify s) p l) → x ∈ allow p ∨ x ∈ l ∧ ownCode s x ∧ x ∉ seen p).
Proof.
  revert p. induction l as [|id l IH]; intros p; [by split; [|left]|]. cbn [foldl].
  destruct (IH (classify s p id)) as [IH1 IH2]. split.
  - intros Hx. by apply IH1, classify_grows.
  - intros [Hx|(Hl & Ho & Hn)]%IH2.
    + destruct (classify_allow s p id x Hx) as [ | (-> & ? & ?)]; [by left|]. right. split_and!; [by left|done..].
    + right. split_and!; [by right|done|]. intros Hs. by apply Hn, classify_grows.
Qed.
(** What a pass over the plugins adds, where it read what. *)
Lemma passFrom_allow h s1 s2 :
  called h Look s1 → called h Look s2 → mayRun s1 = true →
  (∀ id, id ∈ ownIds s1 (serverIds s1) → id ∉ pluginAllow (cs s1) → id ∉ newLocal s1 → ownCode s2 id →
     otruthy (authorOf s2 id) = false → fresh h s2) →
  trusted h (PutAllow (allow (passFrom s1 s2))).
Proof.
  intros H1 H2 Hr Hf. exists s1, s2. unfold passFrom.
  set (p0 := {| allow := dedup (pluginAllow (cs s1)) ++ newLocal s1; seen := _; pending := _; adopted := _ |}).
  split_and!; try done.
  - intros id Hid. apply classify_fold. cbn [allow p0]. apply elem_of_app. left. by apply dedup_elem_of.
  - intros id Hid Hn. apply classify_fold in Hid as [Hid|(Hid & Ho & Hs)].
    + apply elem_of_app in Hid as [Hid|Hid]; [rewrite dedup_elem_of in Hid; tauto|].
      unfold newLocal, ownIds in Hid. apply list_elem_of_filter in Hid as [[_ Hs] Hid].
      rewrite dedup_elem_of in Hid. apply list_elem_of_filter in Hid as [Hself Hin]. split_and!; auto.
    + cbn [seen p0] in Hs. rewrite dedup_elem_of in Hs. pose proof Hid as Hown.
      apply list_elem_of_filter in Hid as [Hself Hin]. split_and!; [done..|].
      destruct (decide (id ∈ newLocal s1)) as [Hl|Hl].
      * left. unfold newLocal, ownIds in Hl. apply list_elem_of_filter in Hl as [_ Hl]. rewrite dedup_elem_of in Hl.
        by apply list_elem_of_filter in Hl as [_ Hl].
      * right. split_and!; [done..|]. intros Ha. by eapply (Hf id).
Qed.
Lemma trusted_for_each A (l : list A) (f : A → P unit) h (Q : res Err unit → PHistory → Prop) :
  (∀ x h', x ∈ l → h ⊑ h' → safe trusted (f x) (λ r _, r = Ok tt) h') → (∀ h', h ⊑ h' → Q (Ok tt) h') →
  safe trusted (for_each l f) Q h.
Proof.
  revert h. induction l as [|x l IH]; intros h Hf HQ; [by apply HQ|]. cbn [for_each].
  apply (safe_bind trusted). eapply (safe_mono trusted); [|apply Hf; [by left|done]].
  intros r h1 Hs1 -> _. apply IH.
  - intros y h2 Hy Hs2. apply Hf; [by right|chain].
  - intros h2 Hs2. apply HQ. chain.
Qed.
Ltac said := apply tell_safe; [done|]; intros ? ?.
Lemma autopilotBody_spec s1 h :
  called h Look s1 → mayRun s1 = true → safe trusted (autopilotBody s1) (λ _ _, True) h.
Proof.
  intros H1 Hr. unfold autopilotBody. apply (safe_bind trusted), trusted_for_each.
  { intros x h' _ _. by said. }
  intros h1 Hs1 _. cbv zeta.
  apply (safe_bind trusted), (safe_mono trusted _ _ (λ r h', ∃ s2, r = Ok s2 ∧ trusted h' (PutAllow (allow (passFrom s1 s2))))).
  2: { destruct (existsb _ _) eqn:Hex.
       - apply refreshed_spec. intros s2 h2 Hs2 Hl Hf. exists s2. split; [done|].
         apply passFrom_allow; try done. eapply called_mono; [|exact H1]. chain.
       - apply safe_ret. exists s1. split; [done|].
         assert (called h1 Look s1) by (by eapply called_mono).
         apply passFrom_allow; try done. intros id Hid Ha Hl _ Hau. exfalso.
         enough (existsb (λ id, negb (bool_decide (id ∈ dedup (pluginAllow (cs s1)) ++ newLocal s1)) && negb (otruthy (authorOf s1 id)))
           (ownIds s1 (serverIds s1)) = true) by congruence.
         apply existsb_exists. exists id. split; [by apply list_elem_of_In|].
         rewrite Hau, andb_true_r, negb_true_iff. apply bool_decide_eq_false. rewrite elem_of_app, dedup_elem_of. tauto. }
  intros ? h2 Hs2 (s2 & -> & Hput) _. set (p := passFrom s1 s2) in *.
  apply (safe_bind trusted), trusted_for_each; [intros x h' _ _; by said|]. intros h3 Hs3 _.
  apply (safe_bind trusted), trusted_for_each.
  { intros x h' _ _. apply (safe_bind trusted). said. intros _. by said. }
  intros h4 Hs4 _. apply (safe_bind trusted). said. intros _. apply (safe_bind trusted). said. intros _.
  apply (safe_bind trusted). destruct (length (allow p) =? _).
  - said. intros _. by said.
  - apply (safe_bind trusted), tell_safe.
    { eapply trusted_justified; [|exact Hput]. chain. }
    intros h7 Hs7 _. said. intros _. by said.
Qed.
Lemma autopilot_spec h : safe trusted runPluginAutopilot (λ _ _, True) h.
Proof.
  unfold runPluginAutopilot. apply (safe_bind trusted), look_safe; [done|]. intros s h1 Hs1 Hl _.
  destruct (mayRun s) eqn:Hr; cbn [negb]; [|done]. apply (safe_bind trusted). said. intros _.
  apply safe_finally. eapply (safe_mono trusted); [|apply autopilotBody_spec; [|exact Hr]].
  - intros r h2 Hs2 _ _. by said.
  - eapply called_mono; [|exact Hl]. chain.
Qed.

(** *** Code run without a restart *)
Lemma enableAll_spec ids h :
  Forall (λ x, trusted h (EnablePlugin x)) ids → safe trusted (enableAll ids) (λ _ _, True) h.
Proof.
  revert h. induction ids as [|i ids IH]; intros h Hall; [done|]. cbn [enableAll].
  apply Forall_cons in Hall as [Hid Hall]. apply (safe_bind trusted), safe_try, safe_bind, safe_callE; [done|].
  assert (HN : ∀ (g : bool) h', h ⊑ h' → safe trusted
    (let* r := enableAll ids in mret' (if g then (i :: r.1, r.2) else (r.1, i :: r.2))) (λ _ _, True) h').
  { intros g h' Hs. apply (safe_bind trusted). eapply (safe_mono trusted); [|apply IH].
    - by intros [r|e] h'' _ _ _.
    - eapply Forall_impl; [exact Hall|]. intros x Hx. by eapply trusted_justified. }
  intros [r|e] h1 Hs1 _ _; cbn [id].
  - apply safe_ret. intros _ _. apply (HN true). chain.
  - intros _. apply (safe_bind trusted). said. intros _. apply safe_ret. intros _. apply (HN false). chain.
Qed.
Lemma hotLoad_spec s ids h :
  (∀ h', h ⊑ h' → called h' LoadManifests (Ok tt) → Forall (λ id, trusted h' (EnablePlugin id)) ids) →
  safe trusted (hotLoad s ids) (λ _ _, True) h.
Proof.
  intros Hall. unfold hotLoad. destruct ids as [|id ids]; [done|]. destruct (hotApi s); [|done].
  apply safe_try, safe_bind, safe_callE; [done|]. intros [[]|e] h1 Hs1 Hc1 _; [|done].
  eapply (safe_mono trusted); [|apply enableAll_spec, Hall; [exact Hs1|exact Hc1]]. by intros [r|e] h2 _ _ _.
Qed.
Lemma applyPluginCodeChange_spec ids paths h : safe trusted (applyPluginCodeChange ids paths) (λ _ _, True) h.
Proof.
  unfold applyPluginCodeChange. apply (safe_bind trusted), look_safe; [done|]. intros s1 h1 Hs1 H1 _. cbv zeta.
  set (newly := filter _ ids).
  apply (safe_bind trusted), (safe_mono trusted _ _ (λ r h', ∃ s2, r = Ok s2 ∧
    (fresh h' s2 ∨ newly = [] ∨ s2 = s1 ∧ hotApi s1 = false))).
  2: { destruct newly as [|x l]; [apply safe_ret; eauto|]. destruct (hotApi s1) eqn:Hapi; [|apply safe_ret; eauto 6].
       apply refreshed_spec. intros s2 h2 Hs2 _ Hf. eauto. }
  intros ? h2 Hs2 (s2 & -> & Hf) _. cbv zeta.
  apply (safe_bind trusted), (safe_mono trusted _ _ (λ _ _, True)).
  - intros [r|e] h3 Hs3 _ _; [|done]. apply (safe_bind trusted), look_safe; [done|]. intros s3 h4 Hs4 _ _.
    apply (safe_bind trusted), (safe_mono trusted _ _ (λ r _, r = Ok tt)).
    + intros ? h5 Hs5 -> _. destruct (negb _); [|done]. by said.
    + destruct (negb _); [|done]. apply (safe_bind trusted). said. intros _. by said.
  - destruct Hf as [Hf|[-> | [-> Hapi]]].
    + apply hotLoad_spec. intros h3 Hs3 Hm. apply Forall_forall. intros x Hx.
      unfold hotLoadable in Hx. destruct (private s2) eqn:Hp; [|by apply elem_of_nil in Hx].
      apply list_elem_of_filter in Hx as [Hmine Hx]. apply list_elem_of_filter in Hx as [Hrun Hx].
      exists s1, s2. split_and!; try done.
      * eapply called_mono; [|exact H1]. chain.
      * unfold isRunning in Hrun. by apply bool_decide_eq_false in Hrun.
      * eapply fresh_mono; eauto.
      * by apply mine_own.
    + unfold hotLoadable. destruct (private s2); [|done]. by rewrite filter_nil.
    + unfold hotLoad. rewrite Hapi. by destruct (hotLoadable s1 newly).
Qed.
Lemma flush_spec h : safe trusted flushConfigReload (λ _ _, True) h.
Proof.
  unfold flushConfigReload. apply (safe_bind trusted), look_safe; [done|]. intros s h1 Hs1 _ _.
  destruct (written s) as [|p0 l]; [done|]. apply (safe_bind trusted). said. intros _. cbv zeta.
  apply (safe_bind trusted), (safe_mono trusted _ _ (λ _ _, True)).
  - intros [r|e] h2 Hs2 _ _; [|done]. by said.
  - repeat (case_match; try by said). apply applyPluginCodeChange_spec.
Qed.


(** *** Explicit operations stay in one plugin's folder *)
(** What the push, the pull and the purge of the plugin [x] may touch. *)
Definition confinedTo (x : jstr) h (o : POp) : Prop :=
  match o with
  | Resolve p choice =>
      ∃ s here server, called h Look s ∧ online s = true ∧ (choice = Local → readOnly s = false) ∧
        isSelfPluginId x (selfFolder s) = false ∧ called h ListLocal (Ok here) ∧ called h ServerChanges (Ok server) ∧
        p ∈ here ++ (Wire.path <$> Wire.upserts server) ∧ isJunkFile p = false ∧ pluginIdOf p = Some x
  | DeleteFile p => ∃ server, called h ServerChanges (Ok server) ∧ p ∈ Wire.path <$> Wire.upserts server ∧ pluginIdOf p = Some x
  | DropBase p => pluginIdOf p = Some x ∧ called h (DeleteFile p) (Ok tt)
  | PutAllow l => ∃ s, called h Look s ∧ l = filter (λ y, y ≠ x) (pluginAllow (cs s))
  | EnablePlugin _ | PutPrivate _ | ResolveLater _ _ => False
  | _ => True
  end.
#[local] Instance confinedTo_justified x : Justified (confinedTo x).
Proof.
  intros h h' o Hs. destruct o; cbn; try done.
  - intros (s & ? & ?). exists s. split; [by eapply called_mono|done].
  - intros [? ?]. split; [done|by eapply called_mono].
  - intros (s & here & server & ?). exists s, here, server. destruct_and!. split_and!; try done; by eapply called_mono.
  - intros (server & ? & ?). exists server. split; [by eapply called_mono|done].
Qed.
Lemma star_class_all f s : lang (RStar (RClass f)) s → Forall (λ c, f c = true) s.
Proof.
  remember (RStar (RClass f)) as r eqn:Hr. induction 1; try done; injection Hr as ->.
  apply Forall_app. split; [|by apply IHlang2].
  apply lang_class_inv in H as (c & -> & Hc). by repeat constructor.
Qed.
Lemma validPluginId_spec x : validPluginId x = true → truthy x = true ∧ cSlash ∉ x.
Proof.
  unfold validPluginId, pluginIdRe. rewrite rmatch_spec, lang_seq_inv. intros (s1 & s2 & -> & (c & -> & Hc)%lang_class_inv & Hs).
  split; [done|]. apply star_class_all in Hs. intros Hin. apply elem_of_app in Hin as [<-%list_elem_of_singleton|Hin]; [done|].
  rewrite Forall_forall in Hs. by apply Hs in Hin.
Qed.
(** A path under the folder of a valid id belongs to that plugin. *)
Lemma prefix_owner x p : validPluginId x = true → starts_with p (pluginPrefix x) = true → pluginIdOf p = Some x.
Proof.
  intros [Ht Hs]%validPluginId_spec (r & ->)%starts_with_spec. unfold pluginPrefix, pluginIdOf.
  change (js ".obsidian/plugins/") with (CONFIG_PREFIX ++ js "plugins/"). rewrite <- !(assoc_L (++)).
  rewrite after_app. rewrite after_app. rewrite (firstSeg_app x (js "/" ++ r) Hs (or_intror (ex_intro _ r eq_refl))). by rewrite Ht.
Qed.
Lemma pluginFilePaths_spec here server x p :
  p ∈ pluginFilePaths here server x →
  p ∈ here ++ server ∧ isJunkFile p = false ∧ starts_with p (pluginPrefix x) = true.
Proof using.
  clear.
  unfold pluginFilePaths. rewrite jsort_perm, dedup_elem_of, list_elem_of_filter.
  unfold pluginPrefix. change (js ".obsidian/plugins/") with (CONFIG_PREFIX ++ js "plugins/"). rewrite <- (assoc_L (++)). tauto.
Qed.
Lemma resolveAll_spec x paths choice n h :
  Forall (λ p, confinedTo x h (Resolve p choice)) paths →
  safe (confinedTo x) (resolveAll paths choice n) (λ r _, ∃ m b, r = Ok (m, b) ∧ n ≤ m ∧ (b = true → m = n + length paths)) h.
Proof.
  revert n h. induction paths as [|p l IH]; intros n h Hall; cbn [resolveAll].
  { apply safe_ret. exists n, true. split_and!; [done|lia|]. intros _. cbn. lia. }
  apply Forall_cons in Hall as [Hp Hall]. apply (safe_bind (confinedTo x)), safe_try, safe_bind, safe_callE; [done|].
  intros [r|e] h1 Hs1 _ _; cbn [id].
  - apply safe_ret. intros _ _. eapply (safe_mono (confinedTo x)); [|apply IH].
    + intros ? h2 _ (m & b & -> & Hm & Hb). exists m, b. split_and!; [done|lia|]. intros Ht. cbn [length]. specialize (Hb Ht). lia.
    + eapply Forall_impl; [exact Hall|]. intros q Hq. by eapply confinedTo_justified.
  - intros _. apply safe_ret. intros _. apply safe_ret. exists n, false. split_and!; [done|lia|done].
Qed.
Ltac state := apply tell_safe; [done|]; intros ? ?.
Lemma forcePlugin_spec x choice h : safe (confinedTo x) (forcePlugin x choice) (λ _ _, True) h.
Proof.
  unfold forcePlugin. apply (safe_bind (confinedTo x)), look_safe; [done|]. intros s h1 Hs1 Hl _.
  assert (HR : ∀ h', safe (confinedTo x) (tell (Tell Refused) ;; mret' 0) (λ _ _, True) h').
  { intros h'. apply (safe_bind (confinedTo x)). state. by intros _. }
  destruct (online s) eqn:Hon; [|apply HR]. cbn [negb].
  destruct (match choice with Local => readOnly s | Remote => false end) eqn:Hro; [apply HR|].
  destruct (validPluginId x) eqn:Hv; [|apply HR]. cbn [negb].
  destruct (isSelfPluginId x (selfFolder s)) eqn:Hself; [apply HR|].
  apply (safe_bind (confinedTo x)), safe_callE; [done|]. intros [here|e] h2 Hs2 H2 _; cbn [id]; [|done].
  apply (safe_bind (confinedTo x)), safe_callE; [done|]. intros [server|e] h3 Hs3 H3 _; cbn [id]; [|done]. cbv zeta.
  apply (safe_bind (confinedTo x)). eapply (safe_mono (confinedTo x)); [|apply resolveAll_spec].
  - intros ? h4 Hs4 (m & b & -> & _ & _) _. cbn [fst snd].
    apply (safe_bind (confinedTo x)). state. intros _. apply (safe_bind (confinedTo x)). state. intros _.
    destruct b; apply (safe_bind (confinedTo x)); state; by intros _.
  - apply Forall_forall. intros p (Hin & Hj & Hp)%pluginFilePaths_spec. exists s, here, server.
    split_and!; try done; try (by apply prefix_owner).
    + eapply called_mono; [|exact Hl]. chain.
    + intros ->. done.
    + eapply called_mono; [|exact H2]. chain.
Qed.
Lemma removePlugin_spec x h : safe (confinedTo x) (removePluginFromServer x) (λ _ _, True) h.
Proof.
  unfold removePluginFromServer. apply (safe_bind (confinedTo x)), look_safe; [done|]. intros s h1 Hs1 Hl _.
  assert (HR : ∀ h', safe (confinedTo x) (tell (Tell Refused) ;; mret' 0) (λ _ _, True) h').
  { intros h'. apply (safe_bind (confinedTo x)). state. by intros _. }
  destruct (online s); [|apply HR]. cbn [negb]. destruct (validPluginId x) eqn:Hv; [|apply HR]. cbn [negb].
  apply (safe_bind (confinedTo x)), safe_callE; [done|]. intros [server|e] h2 Hs2 H2 _; cbn [id]; [|done]. cbv zeta.
  apply (safe_bind (confinedTo x)), safe_for_each.
  - intros p h3 [Hp Hin]%list_elem_of_filter Hs3. apply (safe_bind (confinedTo x)), safe_callE.
    + exists server. split_and!; [by eapply called_mono|done|by apply prefix_owner].
    + intros [[]|e] h4 Hs4 H4 _; cbn [id]; [|done]. apply tell_safe; [|done].
      split; [by apply prefix_owner|done].
  - intros [r|e] h3 Hs3 _; [|done]. apply (safe_bind (confinedTo x)), look_safe; [done|]. intros s' h4 Hs4 H4 _.
    apply (safe_bind (confinedTo x)), tell_safe; [by exists s'|]. intros h5 Hs5 _.
    do 5 (apply (safe_bind (confinedTo x)); state; intros _). done.
Qed.
(** Pushing, pulling and purging a plugin stay inside its folder: every file
    resolved or deleted belongs to exactly that plugin, was listed here or on the
    server, and is not an artefact of another tool; a push happens only online and
    to a vault that is not read-only, never to this plugin's own folder; a purge
    drops a file from the base only after the server took its deletion, and from
    the list of synced plugins only that id. *)
Theorem plugin_operations_confined x choice h o k :
  (reach (forcePlugin x choice) h (Vis (Call o) k) ∨ reach (removePluginFromServer x) h (Vis (Call o) k)) →
  confinedTo x h o.
Proof.
  intros [Hr|Hr].
  - by apply (wp_adequacy _ _ _ _ (forcePlugin_spec x choice []) h _ Hr).
  - by apply (wp_adequacy _ _ _ _ (removePlugin_spec x []) h _ Hr).
Qed.

(** *** Notices and waiting differences *)
Lemma sum_jset (m : list (jstr * nat)) l :
  sum_list (jset m l (default 0 (jget m l) + 1)).*2 = sum_list m.*2 + 1.
Proof.
  induction m as [|[k v] m IH]; [done|]. cbn. destruct (k === l) eqn:Hk; cbn; [lia|].
  rewrite IH. lia.
Qed.
Lemma countSource_total s l m : sum_list (foldl (countSource s) m l).*2 = sum_list m.*2 + length l.
Proof.
  revert m. induction l as [|p l IH]; intros m; cbn [foldl length]; [lia|].
  rewrite IH. unfold countSource. rewrite sum_jset. lia.
Qed.
(** What a removal notice may say, and what happens to a difference. *)
Definition accounted h (o : POp) : Prop :=
  match o with
  | Tell (ConfigRemoved n who r) =>
      sum_list who.*2 = n ∧ ∃ s, called h Look s ∧ n = length (filter (λ e, notifies s e.2 = true) (deletions s)) ∧ 0 < n ∧
        (r = true ↔ ∃ e, e ∈ deletions s ∧ notifies s e.2 = true ∧ restartHint e.1 = true)
  | Tell (OwnRemoved n) =>
      ∃ s, called h Look s ∧ n = length (deletions s) ∧ ∀ e, e ∈ deletions s → notifies s e.2 = false
  | ResolveLater p c => ∃ s, called h Look s ∧ is_Some (configSurfaceOf p) ∧ is_Some (directionFor s p) ∧ (readOnly s = true → c = Remote)
  | PutConflicts l => ∃ s p, called h Look s ∧ p ∉ conflicts s ∧ l = conflicts s ++ [p]
  | _ => True
  end.
Lemma deletions_spec h : safe accounted flushConfigDeletions (λ _ _, True) h.
Proof.
  unfold flushConfigDeletions. apply (safe_bind accounted), look_safe; [done|]. intros s h1 Hs1 Hl _.
  destruct (deletions s) as [|d0 l0] eqn:Hd; [done|]. rewrite <- Hd. apply (safe_bind accounted), tell_safe; [done|].
  intros h2 Hs2 _. cbv zeta. assert (Hl2 : called h2 Look s) by (by eapply called_mono).
  destruct (filter _ (deletions s)) as [|e0 n0] eqn:Hn; apply tell_safe; try done.
  - exists s. split_and!; [done..|]. intros e He. destruct (notifies s e.2) eqn:Hx; [|done].
    exfalso. by eapply (filter_nil_not_elem_of _ _ e Hn).
  - rewrite <- Hn. split.
    + rewrite countSource_total, length_fmap. done.
    + exists s. split_and!; [done..|rewrite Hn; cbn; lia|]. rewrite existsb_exists. split.
      * intros (e & [Hx He]%list_elem_of_In%list_elem_of_filter & Hr). eauto.
      * intros (e & He & Hx & Hr). exists e. split; [|done]. by apply list_elem_of_In, list_elem_of_filter.
Qed.
Lemma record_spec path reason h : safe accounted (recordConfigConflict path reason) (λ _ _, True) h.
Proof.
  unfold recordConfigConflict. apply (safe_bind accounted), look_safe; [done|]. intros s h1 Hs1 Hl _.
  destruct (adjudicateConfigConflict _ _ _) as [c|] eqn:Ha.
  - apply (safe_bind accounted), tell_safe; [|intros h2 _ _; by apply tell_safe].
    exists s. split; [done|]. unfold adjudicateConfigConflict, configAutoResolveChoice in Ha.
    destruct (reason === _); [|done]. destruct (configSurfaceOf path); [|done]. cbn [negb] in Ha.
    split; [done|]. destruct (directionFor s path) as [d|] eqn:Hd; [|done]. split; [done|]. intros Hro.
    unfold directionFor in Hd. rewrite Hro in Hd. destruct (match _ with Some x => Some x | None => _ end); [|done].
    injection Hd as <-. by injection Ha as <-.
  - case_bool_decide as Hin; [done|]. apply (safe_bind accounted), tell_safe; [by exists s, path|]. intros h2 _ _.
    do 2 (apply (safe_bind accounted), tell_safe; [done|]; intros ? _ _). by apply tell_safe.
Qed.
(** Removals and differences are accounted for.  A notice about removed
    configuration counts every removal by somebody else exactly once, under the
    sources it names, and asks for a restart exactly when one of them was code or
    style; it is left out only when every removal was this user's own.  A
    difference is settled without asking only for a kind of file that was switched
    on with a direction, and by the copy of the server when the vault is read-only;
    otherwise it is queued, once. *)
Theorem config_changes_accounted path reason h o k :
  (reach flushConfigDeletions h (Vis (Call o) k) ∨ reach (recordConfigConflict path reason) h (Vis (Call o) k)) →
  accounted h o.
Proof.
  intros [Hr|Hr].
  - by apply (wp_adequacy _ _ _ _ (deletions_spec []) h _ Hr).
  - by apply (wp_adequacy _ _ _ _ (record_spec path reason []) h _ Hr).
Qed.
End Plugins.

(** ** Concrete runs *)
Definition selection (allowed : list jstr) : ConfigSyncSelection :=
  {| enabled := true; core := true; community := true; appearance := true; snippets := true; hotkeys := true;
     pluginAllow := allowed; pluginDir := [] |}.
Definition written_by (who : string) : ChangeProvenance :=
  {| Config.author := Some (js who); Config.deviceId := None; Config.deviceName := None |}.
(** An account's own vault with three plugins on the server: its own, somebody
    else's and one without an author; one more is installed here. *)
Definition records (allowed obs files : list jstr) (prov : list (jstr * ChangeProvenance)) (p : bool) (owner : option jstr)
    (vault : jstr) : Snap :=
  {| online := true; busy := false; autoSync := true; readOnly := false; vaultOwner := owner; vaultId := vault;
     username := js "me"; device := js "d1"; selfFolder := js "obsidian-selfsync"; mode := User;
     cs := selection allowed; installed := [js "here"]; running := [js "here"]; hotApi := true;
     serverIds := [js "own"; js "peers"; js "anon"];
     authors := [(js "own", Some (js "me")); (js "peers", Some (js "bob")); (js "anon", None)];
     private := p; observed := obs; toasted := []; surfaceDir := []; conflicts := [];
     written := files; provenance := prov; deletions := [] |}.
Definition putAllow (s : Snap) (l : list jstr) : Snap :=
  records l (observed s) (written s) (provenance s) (private s) (vaultOwner s) (vaultId s).
Definition putPrivate (s : Snap) (b : bool) : Snap :=
  records (pluginAllow (cs s)) (observed s) (written s) (provenance s) b (vaultOwner s) (vaultId s).
Definition putObserved (s : Snap) (l : list jstr) : Snap :=
  records (pluginAllow (cs s)) l (written s) (provenance s) (private s) (vaultOwner s) (vaultId s).
Definition putVault (s : Snap) (o : option jstr) (v : jstr) : Snap :=
  records (pluginAllow (cs s)) (observed s) (written s) (provenance s) (private s) o v.
Definition emptyChanges (paths : list jstr) : Wire.ChangesResponse :=
  {| Wire.r_version := 1%Z;
     Wire.upserts := (λ p, {| Wire.path := p; Wire.hash := []; Wire.size := 0%Z; Wire.mtime := 0%Z; Wire.version := 1%Z;
       Wire.chunks := []; Wire.author := None; Wire.deviceId := None; Wire.deviceName := None |}) <$> paths;
     Wire.deletes := []; Wire.history_floor := None |}.
(** A server without shares or links, on which [other] is what other tasks do to
    the records while the shares are asked for. *)
Definition world (other : Snap → Snap) (w : Snap * list News) (o : POp) : PAns o * (Snap * list News) :=
  match o return PAns o * (Snap * list News) with
  | Look => (w.1, w)
  | PutAllow l => (tt, (putAllow w.1 l, w.2))
  | PutObserved l => (tt, (putObserved w.1 l, w.2))
  | PutPrivate b => (tt, (putPrivate w.1 b, w.2))
  | Tell n => (tt, (w.1, w.2 ++ [n]))
  | MyVaultShares => (Ok [], (other w.1, w.2))
  | ListShareLinks => (Ok [], w)
  | LoadManifests | EnablePlugin _ | Resolve _ _ | DeleteFile _ => (Ok tt, w)
  | ListLocal => (Ok [js "a.md"; js ".obsidian/plugins/own/main.js"], w)
  | ServerChanges => (Ok (emptyChanges [js "b.md"; js ".obsidian/plugins/own/data.json"; js ".obsidian/plugins/anon/main.js"]), w)
  | _ => (tt, w)
  end.
Definition runOn {A} (other : Snap → Snap) (m : P A) (s : Snap) : res Err A * (Snap * list News) :=
  let '(r, c) := Effects.run (world other) (λ _, true) m (Conf (s, []) tt [] 0) in (r, cw c).
Definition start (allowed files : list jstr) (prov : list (jstr * ChangeProvenance)) : Snap :=
  records allowed [] files prov false None (js "v1").
Definition arrived : list jstr := [js ".obsidian/plugins/anon/main.js"].
Example autopilot_runs :
  (runOn id (runPluginAutopilot id) (start [js "old"] [] [])).2 =
    (records [js "old"; js "here"; js "own"; js "anon"] [js "own"; js "anon"; js "here"] [] [] true None (js "v1"),
     [PeerPlugin (js "peers") (js "bob")]) ∧
  (runOn id (flushConfigReload id) (start [] arrived [])).2.2 = [HotAdded [js "anon"] (Some (js "another device"))] ∧
  (runOn id (forcePlugin (js "own") Local) (start [] [] [])).1 = Ok 2.
Proof. vm_compute. done. Qed.
Definition startsPlugin (o : POp) : bool := match o with EnablePlugin _ => true | _ => false end.
Lemma plugin_operations_confined_witness : ∃ h k,
  reach (forcePlugin (js "own") Local) h (Vis (Call (Resolve (js ".obsidian/plugins/own/data.json") Local)) k) ∧
  confinedTo (js "own") h (Resolve (js ".obsidian/plugins/own/data.json") Local).
Proof.
  destruct (picked_reach (world id) (λ _, true) (λ o, match o with Resolve _ _ => true | _ => false end)
    (forcePlugin (js "own") Local) (Conf (start [] [] [], []) tt [] 0) (Resolve (js ".obsidian/plugins/own/data.json") Local))
    as (h & k & Hr); [vm_compute; reflexivity|].
  exists h, k. split; [exact Hr|]. apply (plugin_operations_confined (js "own") Local h _ k). left. exact Hr.
Defined.
Lemma config_changes_accounted_witness : ∃ h k,
  reach (recordConfigConflict (js ".obsidian/app.json") (js "conflict-copy")) h (Vis (Call (PutConflicts [js ".obsidian/app.json"])) k) ∧
  accounted h (PutConflicts [js ".obsidian/app.json"]).
Proof.
  destruct (picked_reach (world id) (λ _, true) (λ o, match o with PutConflicts _ => true | _ => false end)
    (recordConfigConflict (js ".obsidian/app.json") (js "conflict-copy")) (Conf (start [] [] [], []) tt [] 0)
    (PutConflicts [js ".obsidian/app.json"])) as (h & k & Hr); [vm_compute; reflexivity|].
  exists h, k. split; [exact Hr|].
  apply (config_changes_accounted (js ".obsidian/app.json") (js "conflict-copy") h _ k). right. exact Hr.
Defined.

(** ** What modelling showed *)
(** A plugin un-ticked while the autopilot asks for the shares is ticked again. *)
Lemma untick_is_undone :
  pluginAllow (cs (runOn (λ s, putAllow s []) (runPluginAutopilot id) (start [js "old"] [] [])).2.1) =
  [js "old"; js "here"; js "own"; js "anon"].
Proof. vm_compute. done. Qed.
(** A plugin of the user's that was ticked by hand is not marked as observed, so
    the next pass after it was un-ticked adopts it again. *)
Lemma manual_untick_is_undone :
  let s := (runOn id (runPluginAutopilot id) (start [js "own"] [] [])).2.1 in
  js "own" ∉ observed s ∧
  js "own" ∈ pluginAllow (cs (runOn id (runPluginAutopilot id) (putAllow s [js "here"; js "anon"])).2.1).
Proof. vm_compute. split; [intros H; repeat (apply elem_of_cons in H as [H|H]; [done|]); by apply elem_of_nil in H|]. repeat constructor. Qed.
(** A flush with a plugin file in it says nothing about the style sheet somebody
    else changed. *)
Lemma mixed_flush_hides_css :
  let css := js ".obsidian/snippets/x.css" in
  (runOn id (flushConfigReload id) (start [] [css] [(css, written_by "bob")])).2.2 = [CssChanged (Some (js "bob"))] ∧
  let mineToo := js ".obsidian/plugins/here/data.json" in
  (runOn id (flushConfigReload id) (start [] [mineToo; css] [(mineToo, written_by "me"); (css, written_by "bob")])).2.2 =
    [CodeChanged [js "here"] None].
Proof. vm_compute. done. Qed.
(** Code whose arrival names somebody else is run when the last full pass named
    this account as the author of an older version. *)
Lemma arrival_author_ignored :
  let main := js ".obsidian/plugins/own/main.js" in
  (runOn id (flushConfigReload id) (start [] [main] [(main, written_by "bob")])).2.2 = [HotAdded [js "own"] (Some (js "bob"))].
Proof. vm_compute. done. Qed.
(** A switch to a shared vault while the shares are asked for leaves the shared
    vault recorded as private. *)
Lemma switch_reads_as_private :
  let s := (runOn (λ s, putVault s (Some (js "bob")) (js "v2")) refreshVaultPrivacy (start [] [] [])).2.1 in
  private s = true ∧ vaultOwner s = Some (js "bob").
Proof. vm_compute. done. Qed.
End Plugins.
