(* ===== verification/Mountio.v ===== *)
(** * Mountio: the two adapters of a mount ([client/src/mountio.ts])

    [MountedIo] and [MountedApi] stand between a reconciliation that works in
    mount-relative paths and the two real endpoints: the vault (prefixing the
    mount point) and the source vault (prefixing the source path).  [handle] is
    what they do with one call; [interp] runs a whole client over them. *)

From S2P Require Import Prelude Jsmap Effects Paths Protocol Sync.

Module Mountio.
Import Mounts.

Section Mountio.
Context (nfc lowerCase : jstr → jstr) (mount : Mount).

Definition isDataPath (rel : jstr) : bool :=
  match filter (λ s, truthy s = true) (split_on cSlash rel) with
  | [] => false
  | s :: _ => negb (lowerCase s === js ".obsidian")
  end.

(** ** [MountedIo]

    [realMountPoint] is the spelling of the mount point learned from the first
    listing that shows one. *)
Definition local (real : option jstr) (rel : jstr) : jstr :=
  localFromMountRel
    match real with
    | Some r => if truthy r then {| source := source mount; mountPoint := r; direction := direction mount |} else mount
    | None => mount
    end rel.
Definition stripSlashes (s : jstr) : jstr := reverse (drop_while (λ c, bool_decide (c = cSlash)) (reverse s)).
(** The mount-relative path of a listed file, when the mount lists it. *)
Definition listed (p : jstr) : option jstr :=
  match mountRelFromLocal nfc lowerCase mount p with
  | Some rel => if (rel === []) || negb (isDataPath rel) then None else Some rel
  | None => None
  end.
Definition learnOne (real : option jstr) (p : jstr) : option jstr :=
  match real, listed p with
  | None, Some rel => if length rel <? length p then Some (stripSlashes (take (length p - length rel) p)) else None
  | _, _ => real
  end.
Definition relistOne (out : list (jstr * Stat)) (e : jstr * Stat) : list (jstr * Stat) :=
  match listed e.1 with Some rel => jset out rel e.2 | None => out end.
Definition relist (l : list (jstr * Stat)) : list (jstr * Stat) := foldl relistOne [] l.
Definition learn (real : option jstr) (l : list (jstr * Stat)) : option jstr := foldl learnOne real l.*1.

(** ** [MountedApi] *)
Definition withPath (m : Wire.FileMeta) (p : jstr) : Wire.FileMeta :=
  {| Wire.path := p; Wire.hash := Wire.hash m; Wire.size := Wire.size m; Wire.mtime := Wire.mtime m;
     Wire.version := Wire.version m; Wire.chunks := Wire.chunks m; Wire.author := Wire.author m;
     Wire.deviceId := Wire.deviceId m; Wire.deviceName := Wire.deviceName m |}.
Definition toRel (m : Wire.FileMeta) : option Wire.FileMeta :=
  withPath m <$> mountRelFromSource nfc lowerCase mount (Wire.path m).
Definition dataMeta (m : Wire.FileMeta) : option Wire.FileMeta :=
  match toRel m with Some m => if isDataPath (Wire.path m) then Some m else None | None => None end.
Definition dataDeletion (d : Wire.Deletion) : option Wire.Deletion :=
  match mountRelFromSource nfc lowerCase mount (Wire.d_path d) with
  | Some rel =>
      if isDataPath rel
      then Some {| Wire.d_path := rel; Wire.d_version := Wire.d_version d; Wire.d_author := Wire.d_author d;
                   Wire.d_deviceId := Wire.d_deviceId d; Wire.d_deviceName := Wire.d_deviceName d |}
      else None
  | None => None
  end.
Definition relChanges (r : Wire.ChangesResponse) : Wire.ChangesResponse :=
  {| Wire.r_version := Wire.r_version r; Wire.upserts := omap dataMeta (Wire.upserts r);
     Wire.deletes := omap dataDeletion (Wire.deletes r); Wire.history_floor := Wire.history_floor r |}.
Definition atSource (r : Wire.CommitRequest) : Wire.CommitRequest :=
  {| Wire.c_path := sourceFromMountRel mount (Wire.c_path r); Wire.c_hash := Wire.c_hash r; Wire.c_size := Wire.c_size r;
     Wire.c_mtime := Wire.c_mtime r; Wire.c_chunks := Wire.c_chunks r; Wire.c_expected := Wire.c_expected r |}.
Definition refusal (s : string) : Err := ErrMsg (js "MountedApi: refusing to " ++ js s).
Definition pullWrite : Err := refusal "write to a pull (read-only) mount source".
Definition configWrite : Err := refusal "write a non-data (config) path across a mount boundary".
Definition pullDelete : Err := refusal "delete on a pull (read-only) mount source".
Definition configDelete : Err := refusal "delete a non-data (config) path across a mount boundary".
Definition pullPut : Err := refusal "putChunk on a pull (read-only) mount source".
Definition isPull : bool := bool_decide (direction mount = Pull).
Definition resMap {A B} (f : A → B) (r : res Err A) : res Err B :=
  match r with Ok a => Ok (f a) | Throw e => Throw e end.

(** ** One call

    An adapter answers a call itself, or makes one call [c'] underneath, shows
    the caller [view] of its answer and may learn the mount point's spelling. *)
Inductive route (c : cmd Op State Err) : Type :=
| Answer (r : cans (Ans := Ans) c)
| Forward (c' : cmd Op State Err) (view : cans (Ans := Ans) c' → cans (Ans := Ans) c)
          (next : cans (Ans := Ans) c' → option jstr).
Arguments Answer {c} r.
Arguments Forward {c} c' view next.
Definition forward (real : option jstr) (o o' : Op) (view : Ans o' → Ans o) : route (Call o) :=
  Forward (c := Call o) (Call o') view (λ _, real).
Definition handleOp (real : option jstr) (o : Op) : route (Call o) :=
  match o return route (Call o) with
  | IoList =>
      Forward (c := Call IoList) (Call IoList) (resMap relist)
        (λ r, match r with Ok l => learn real l | Throw _ => real end)
  | IoRead p => forward real (IoRead p) (IoRead (local real p)) id
  | IoWrite p b => forward real (IoWrite p b) (IoWrite (local real p) b) id
  | IoRemove p => forward real (IoRemove p) (IoRemove (local real p)) id
  | IoExists p => forward real (IoExists p) (IoExists (local real p)) id
  | AppendOpen p => forward real (AppendOpen p) (AppendOpen (local real p)) id
  | AppendChunk p b => forward real (AppendChunk p b) (AppendChunk (local real p) b) id
  | AppendClose p => forward real (AppendClose p) (AppendClose (local real p)) id
  | AppendAbort p => forward real (AppendAbort p) (AppendAbort (local real p)) id
  | ApiChanges v => forward real (ApiChanges v) (ApiChanges v) (resMap relChanges)
  | ApiFileMeta p =>
      if negb (isDataPath p) then Answer (c := Call (ApiFileMeta p)) (Ok None)
      else forward real (ApiFileMeta p) (ApiFileMeta (sourceFromMountRel mount p))
             (resMap (fmap (λ m, withPath m p)))
  | ApiCommit r =>
      if isPull then Answer (c := Call (ApiCommit r)) (Throw pullWrite)
      else if negb (isDataPath (Wire.c_path r)) then Answer (c := Call (ApiCommit r)) (Throw configWrite)
      else forward real (ApiCommit r) (ApiCommit (atSource r)) (resMap (λ m, withPath m (Wire.c_path r)))
  | ApiDelete p v =>
      if isPull then Answer (c := Call (ApiDelete p v)) (Throw pullDelete)
      else if negb (isDataPath p) then Answer (c := Call (ApiDelete p v)) (Throw configDelete)
      else forward real (ApiDelete p v) (ApiDelete (sourceFromMountRel mount p) v) id
  | ApiPutChunk h b =>
      if isPull then Answer (c := Call (ApiPutChunk h b)) (Throw pullPut)
      else forward real (ApiPutChunk h b) (ApiPutChunk h b) id
  | o => forward real o o id
  end.
Definition handle (real : option jstr) (c : cmd Op State Err) : route c :=
  match c return route c with
  | Call o => handleOp real o
  | c => Forward (c := c) c id (λ _, real)
  end.

(** ** A whole client over the adapters *)
Fixpoint interp {A} (real : option jstr) (m : io (cmd Op State Err) cans A)
    : io (cmd Op State Err) cans (A * option jstr) :=
  match m with
  | Ret a => Ret (a, real)
  | Vis c k =>
      match handle real c with
      | Answer r => interp real (k r)
      | Forward c' view next => Vis c' (λ r, interp (next r) (k (view r)))
      end
  end.

(** The client's history and the history underneath it. *)
Inductive carries : option jstr → History → History → option jstr → Prop :=
| carries_nil real : carries real [] [] real
| carries_answer real c r hm hb real' :
    handle real c = Answer r → carries real hm hb real' → carries real (ev c r :: hm) hb real'
| carries_forward real c c' view next r hm hb real' :
    handle real c = Forward c' view next → carries (next r) hm hb real' →
    carries real (ev c (view r) :: hm) (ev c' r :: hb) real'.

(** Every step underneath is the adapters' handling of a step of the client. *)
Lemma interp_steps {A} (m : io (cmd Op State Err) cans A) real hb x :
  reach (interp real m) hb x →
  ∃ hm m' real', reach m hm m' ∧ carries real hm hb real' ∧
    match x with
    | Ret (a, r) => m' = Ret a ∧ real' = r
    | Vis c' _ => ∃ c k view next, m' = Vis c k ∧ handle real' c = Forward c' view next
    end.
Proof.
  revert real hb. induction m as [a|c k IH]; intros real hb Hr.
  - apply reach_inv in Hr as [[-> ->]|[]]. exists [], (Ret a), real. split_and!; constructor; done.
  - cbn [interp] in Hr. destruct (handle real c) as [r|c' view next] eqn:Hh.
    + destruct (IH r _ _ Hr) as (hm & m' & real' & Hm & Hc & Hx).
      exists (ev c r :: hm), m', real'. split_and!; [by constructor|by constructor|done].
    + apply reach_inv in Hr as [[-> ->]|(r & h & -> & Hk)].
      * exists [], (Vis c k), real. split_and!; [constructor..|]. by exists c, k, view, next.
      * apply IH in Hk as (hm & m' & real' & Hm & Hc & Hx).
        exists (ev c (view r) :: hm), m', real'. split_and!; [by constructor|by econstructor|done].
Qed.

(** The call underneath a call of the client, when there is one. *)
Definition underCall (real : option jstr) (o : Op) : option Op :=
  match handleOp real o with Forward (Call o') _ _ => Some o' | _ => None end.
Lemma interp_call {A} (m : io (cmd Op State Err) cans A) real hb o' k' :
  reach (interp real m) hb (Vis (Call o') k') →
  ∃ hm o k real', reach m hm (Vis (Call o) k) ∧ carries real hm hb real' ∧ underCall real' o = Some o'.
Proof.
  intros Hr. apply interp_steps in Hr as (hm & m' & real' & Hm & Hc & c & k & view & next & -> & Hh).
  destruct c as [o| | | | | |]; cbn in Hh; [|discriminate Hh..].
  exists hm, o, k, real'. split_and!; [done..|]. unfold underCall. by rewrite Hh.
Qed.

(** ** The learned spelling *)
Definition canonEq (a b : list jstr) : Prop := canonSeg nfc lowerCase <$> a = canonSeg nfc lowerCase <$> b.
Definition realOk (real : option jstr) : Prop :=
  ∀ r, real = Some r → truthy r = true → canonEq (segsOf r) (segsOf (mountPoint mount)).
Definition normal (p : jstr) : Prop := normFolder p = p.
(** The vault lists normalised paths. *)
Definition normalAnswer (c : cmd Op State Err) : cans (Ans := Ans) c → Prop :=
  match c return cans c → Prop with
  | Call o =>
      match o return Ans o → Prop with
      | IoList => λ r, match r with Ok l => Forall normal l.*1 | Throw _ => True end
      | _ => λ _, True
      end
  | _ => λ _, True
  end.
Definition normalListings (h : History) : Prop := Forall (λ e, normalAnswer (projT1 e) (projT2 e)) h.

Lemma segsOf_local_real real rel : ∃ d, segsOf (local real rel) = d ++ segsOf rel ∧
  (realOk real → canonEq d (segsOf (mountPoint mount))).
Proof.
  unfold local. destruct real as [r|]; [destruct (truthy r) eqn:Ht|]; rewrite segsOf_local; eexists; split;
    try done; intros H; by apply H.
Qed.
Lemma local_claimed real rel :
  segsOf (mountPoint mount) ≠ [] → realOk real → claimsLocal nfc lowerCase mount (local real rel) = true.
Proof.
  intros Hmp Hreal. apply claimsLocal_spec. split; [done|].
  destruct (segsOf_local_real real rel) as (d & -> & Hd). unfold canonPrefix.
  rewrite fmap_app, (Hd Hreal). by apply prefix_app_r.
Qed.

Lemma stripSlashes_app a s : s ≠ [] → cSlash ∉ s → stripSlashes (a ++ s ++ [cSlash]) = a ++ s.
Proof.
  intros Hs Hin. unfold stripSlashes. rewrite !reverse_app. destruct (reverse s) as [|c r] eqn:Hr.
  { exfalso. apply Hs. by rewrite <- (reverse_involutive s), Hr. }
  assert (Hc : c ≠ cSlash).
  { intros ->. apply Hin. rewrite <- elem_of_reverse, Hr. left. }
  transitivity (reverse ((c :: r) ++ reverse a)); [|by rewrite <- Hr, reverse_app, !reverse_involutive].
  f_equal. change (reverse [cSlash]) with [cSlash]. cbn [app drop_while].
  by rewrite bool_decide_eq_true_2, bool_decide_eq_false_2.
Qed.
Lemma stripSlashes_join segs : plain segs → segs ≠ [] → stripSlashes (join_with cSlash segs ++ [cSlash]) = join_with cSlash segs.
Proof.
  intros Hp Hne. destruct segs as [|x a] using rev_ind; [done|]. clear IHa.
  apply plain_app in Hp as [Ha [Hx Hin]%Forall_singleton].
  assert (Hx' : x ≠ []) by (intros ->; done).
  destruct (decide (a = [])) as [->|Hane]; [by apply (stripSlashes_app [])|].
  rewrite join_app by done. cbn [join_with].
  change (join_with cSlash a ++ cSlash :: x) with (join_with cSlash a ++ [cSlash] ++ x).
  rewrite app_assoc, <- app_assoc. by rewrite stripSlashes_app.
Qed.

(** What a listed path looks like, and what it teaches. *)
Lemma listed_split p rel :
  normal p → listed p = Some rel →
  ∃ d, p = d ++ cSlash :: rel ∧ normal d ∧ d ≠ [] ∧ canonEq (segsOf d) (segsOf (mountPoint mount)) ∧
       learnOne None p = Some d ∧ normal rel ∧ isDataPath rel = true ∧ segsOf (mountPoint mount) ≠ [].
Proof.
  intros Hn Hl. unfold learnOne. rewrite Hl. unfold listed, mountRelFromLocal in Hl. cbv zeta in Hl.
  destruct (length (segsOf (mountPoint mount)) =? 0) eqn:Hmp; [done|]. apply Nat.eqb_neq in Hmp.
  destruct (underOrEqual _ _ _ _) eqn:Hu; [|done]. apply underOrEqual_spec in Hu.
  set (n := length (segsOf (mountPoint mount))) in *. set (s := segsOf p) in *.
  destruct (_ === []) eqn:He; [done|]. destruct (isDataPath _) eqn:Hd; [|done]. cbn in Hl. injection Hl as <-.
  apply jeq_false in He.
  pose proof (segsOf_plain p) as Hp. fold s in Hp. rewrite <- (take_drop n s), plain_app in Hp. destruct Hp as [Ht Hdr].
  assert (Hle : n ≤ length s).
  { apply prefix_length in Hu. rewrite !length_fmap in Hu. done. }
  assert (Htake : take n s ≠ []).
  { intros Hz. apply (f_equal length) in Hz. rewrite length_take in Hz. cbn in Hz. lia. }
  assert (Hdrop : drop n s ≠ []) by (intros Hz; by rewrite Hz in He).
  assert (Hsplit : p = join_with cSlash (take n s) ++ cSlash :: join_with cSlash (drop n s)).
  { rewrite <- join_app, take_drop by done. unfold normal in Hn. by rewrite normFolder_segs in Hn. }
  exists (join_with cSlash (take n s)). split_and!; try done.
  - unfold normal. by rewrite normFolder_segs, segsOf_join.
  - intros Hz%join_plain_nil; done.
  - unfold canonEq. rewrite segsOf_join by done. destruct Hu as [t Ht']. fold s in Ht'.
    rewrite fmap_take, Ht', take_app_length'; [done|]. by rewrite length_fmap.
  - assert (Hlen : length p = length (join_with cSlash (take n s)) + S (length (join_with cSlash (drop n s))))
      by (rewrite Hsplit at 1; by rewrite length_app).
    rewrite (proj2 (Nat.ltb_lt _ _)) by lia. f_equal. rewrite Hlen.
    replace (_ + S _ - _) with (S (length (join_with cSlash (take n s)))) by lia.
    rewrite Hsplit at 1. rewrite take_app, firstn_all2 by lia.
    replace (S _ - _) with 1 by lia. cbn [take]. by apply stripSlashes_join.
  - unfold normal. by rewrite normFolder_segs, segsOf_join.
  - intros Hz. apply Hmp. unfold n. by rewrite Hz.
Qed.
Lemma learn_ok real l : Forall normal l.*1 → realOk real → realOk (learn real l).
Proof.
  unfold learn. revert real. induction l.*1 as [|p ps IH]; intros real Hl Hr; [done|].
  apply Forall_cons in Hl as [Hp Hps]. cbn [foldl]. apply IH; [done|].
  destruct real as [r|]; [done|]. destruct (listed p) as [rel|] eqn:Hli.
  - destruct (listed_split p rel Hp Hli) as (d & _ & _ & _ & Hd & -> & _). intros r [= <-] _. done.
  - unfold learnOne. by rewrite Hli.
Qed.
(** What [handle] does, stated on its result. *)
Definition onRoute {c} (P : cmd Op State Err → Prop) (x : route c) : Prop :=
  match x with Answer _ => True | Forward c' _ _ => P c' end.
Ltac case_if :=
  match goal with |- context [if ?b then _ else _] => destruct b eqn:? end.
Lemma handle_next real c :
  match handle real c with
  | Answer _ => True
  | Forward c' view next => ∀ r,
      normalAnswer c' r → realOk real → realOk (next r)
  end.
Proof.
  destruct c as [o| | | | | |]; [|by cbn; intros r _ Hr..]. destruct o; cbn; try (by intros r _ Hr).
  1: { intros [l|e] Hl Hr; [|done]. by apply learn_ok. }
  all: unfold forward; repeat (case_if; [done|]); cbn; by intros r _ Hr.
Qed.
Lemma carries_ok real hm hb real' :
  carries real hm hb real' → normalListings hb → realOk real → realOk real'.
Proof.
  induction 1 as [| |real c c' view next r hm hb real' Hh Hc IH]; [done|auto|].
  intros [Hn Hns]%Forall_cons Hr. apply IH; [done|].
  pose proof (handle_next real c) as H. rewrite Hh in H. by apply H.
Qed.

(** ** What reaches the endpoints *)
Definition localPathOf (o : Op) : option jstr :=
  match o with
  | IoRead p | IoWrite p _ | IoRemove p | IoExists p | AppendOpen p | AppendChunk p _ | AppendClose p | AppendAbort p =>
      Some p
  | _ => None
  end.
Definition sourcePathOf (o : Op) : option jstr :=
  match o with
  | ApiFileMeta p | ApiDelete p _ => Some p
  | ApiCommit r => Some (Wire.c_path r)
  | _ => None
  end.
Definition writesSource (o : Op) : bool :=
  match o with ApiCommit _ | ApiDelete _ _ | ApiPutChunk _ _ => true | _ => false end.
(** A local call stays under the mount point, a source call under the source
    path and on data, and only a two-way mount writes to the source. *)
Definition confined (real : option jstr) (o : Op) : Prop :=
  (∀ p, localPathOf o = Some p → ∃ rel, p = local real rel) ∧
  (∀ p, sourcePathOf o = Some p → ∃ rel, p = sourceFromMountRel mount rel ∧ isDataPath rel = true) ∧
  (writesSource o = true → direction mount = Sync).
Lemma handle_confined real c :
  onRoute (λ c', match c' with Call o => confined real o | _ => True end) (handle real c).
Proof.
  destruct c as [o| | | | | |]; [|by cbn..].
  assert (Hpull : isPull = false → direction mount = Sync).
  { unfold isPull. destruct (direction mount); [done|done]. }
  destruct o; cbn; unfold forward; repeat (case_if; [done|]); bools; unfold onRoute, confined; cbn;
    split_and!; try done; auto; intros ? [= <-]; eauto.
Qed.

(** C17: over the adapters of a mount, whatever client runs and whatever the two
    endpoints answer, every vault call stays under the mount point, every call
    that names a source path names one under the source path whose relative
    path is data, and only a two-way mount writes to the source; the vault
    lists normalised paths. *)
Theorem mount_confined {A} (m : io (cmd Op State Err) cans A) h o k :
  segsOf (mountPoint mount) ≠ [] →
  normalListings h →
  reach (interp None m) h (Vis (Call o) k) →
  (∀ p, localPathOf o = Some p → claimsLocal nfc lowerCase mount p = true) ∧
  (∀ p, sourcePathOf o = Some p → underOrEqual nfc lowerCase (segsOf p) (segsOf (sourcePath (source mount))) = true ∧
     ∃ rel, p = sourceFromMountRel mount rel ∧ isDataPath rel = true) ∧
  (writesSource o = true → direction mount = Sync).
Proof.
  intros Hmp Hn Hr. apply interp_steps in Hr as (hm & m' & real' & _ & Hc & c & k' & view & next & _ & Hh).
  apply carries_ok in Hc; [|done|done]. pose proof (handle_confined real' c) as Hconf. rewrite Hh in Hconf.
  destruct Hconf as (Hl & Hs & Hw). split_and!; [..|done].
  - intros p Hp. destruct (Hl p Hp) as [rel ->]. by apply local_claimed.
  - intros p Hp. destruct (Hs p Hp) as (rel & -> & Hd). split; [|by exists rel].
    apply underOrEqual_spec. rewrite segsOf_source. apply canonPrefix_app.
Qed.

(** A read-only mount never writes to its source: no commit, no delete and
    no chunk upload reaches it, whatever client runs over the adapters. *)
Theorem pull_mount_never_writes {A} (m : io (cmd Op State Err) cans A) real h o k :
  direction mount = Pull → reach (interp real m) h (Vis (Call o) k) → writesSource o = false.
Proof.
  intros Hd Hr. apply interp_steps in Hr as (hm & m' & real' & _ & _ & c & k' & view & next & _ & Hh).
  pose proof (handle_confined real' c) as Hconf. rewrite Hh in Hconf. destruct Hconf as (_ & _ & Hw).
  destruct (writesSource o); [|done]. rewrite Hw in Hd; done.
Qed.

(** ** The listing *)
Lemma relist_listed l out rel :
  jhas (foldl relistOne out l) rel = true → jhas out rel = true ∨ ∃ p, p ∈ l.*1 ∧ listed p = Some rel.
Proof.
  revert out. induction l as [|[p st] l IH]; intros out H; [by left|]. cbn [foldl] in H.
  apply IH in H as [H|(p' & Hin & Hl)]; [|right; exists p'; split; [by right|done]].
  unfold relistOne in H. cbn in H. destruct (listed p) as [r|] eqn:Hp; [|by left].
  destruct (decide (rel = r)) as [->|Hne]; [right; exists p; split; [left|done]|].
  left. unfold jhas in *. by rewrite jget_set_ne in H by done.
Qed.
Lemma learn_first d ps :
  Forall normal ps → (∀ p rel, p ∈ ps → listed p = Some rel → p = d ++ cSlash :: rel) →
  (∃ p rel, p ∈ ps ∧ listed p = Some rel) → foldl learnOne None ps = Some d.
Proof.
  induction ps as [|p ps IH]; intros Hn Hd (p' & rel & Hin & Hl); [by apply not_elem_of_nil in Hin|].
  apply Forall_cons in Hn as [Hp Hps]. cbn [foldl]. destruct (listed p) as [r|] eqn:Hpl.
  - destruct (listed_split p r Hp Hpl) as (d' & Hpd & _ & _ & _ & -> & _).
    assert (d' = d) as ->.
    { eapply app_inv_tail. rewrite <- Hpd. apply Hd; [left|done]. }
    clear. induction ps as [|q ps IH]; [done|]. cbn [foldl]. done.
  - unfold learnOne at 2. rewrite Hpl. apply IH; [done|intros q s Hq; apply Hd; by right|].
    exists p', rel. split; [|done]. apply elem_of_cons in Hin as [->|Hin]; [congruence|done].
Qed.

(** Every file a mount lists is read, written and removed at its own path
    on disk: when the listing spells the mount's folder one way, whatever that
    spelling is, translating a listed relative path back gives a listed path. *)
Theorem mount_reads_what_it_lists l d rel :
  Forall normal l.*1 →
  (∀ p r, p ∈ l.*1 → listed p = Some r → p = d ++ cSlash :: r) →
  jhas (relist l) rel = true →
  local (learn None l) rel = d ++ cSlash :: rel ∧ d ++ cSlash :: rel ∈ l.*1.
Proof.
  intros Hn Hd Hrel. apply relist_listed in Hrel as [Hrel|(p & Hin & Hl)]; [done|].
  pose proof (Hd _ _ Hin Hl) as Hp. rewrite <- Hp. split; [|done].
  assert (Hlearn : learn None l = Some d).
  { apply learn_first; [done..|]. by exists p, rel. }
  rewrite Hlearn. pose proof Hn as Hn'. rewrite Forall_forall in Hn'.
  destruct (listed_split p rel (Hn' _ Hin) Hl) as (d' & Hpd & Hnd & Hdne & _ & _ & Hnr & Hdata & _).
  assert (d' = d) as ->. { eapply app_inv_tail. by rewrite <- Hpd, Hp. }
  unfold local. rewrite (proj2 (truthy_true d)) by done. unfold localFromMountRel. cbn [mountPoint]. cbv zeta.
  unfold normal in Hnd, Hnr. rewrite Hnd, Hnr.
  rewrite (proj2 (jeq_false rel [])) by (by intros ->). rewrite (proj2 (jeq_false d [])) by done. by rewrite Hp.
Qed.
End Mountio.

(** ** Witnesses: a case-sensitive disk that spells the mount point its own way *)
Definition demoStat : Stat := {| st_size := 3; st_mtime := 0 |}.
Definition demoListing : list (jstr * Stat) :=
  [(js "home.md", demoStat); (js "work/asi/a.md", demoStat); (js "work/asi/.obsidian/app.json", demoStat)].
Definition demoClient : io (cmd Op State Err) (cans (Ans := Ans)) unit :=
  Vis (Call IoList) (λ _, Vis (Call (IoRead (js "a.md"))) (λ _, Vis (Call (ApiFileMeta (js "a.md"))) (λ _, Ret tt))).
Definition demoHistory : History := [ev (Call IoList) (Ok demoListing)].

Lemma demo_listing_normal : Forall normal demoListing.*1.
Proof. repeat constructor. Qed.
Lemma demo_reads :
  ∃ k, reach (interp id lower demoMount None demoClient) demoHistory (Vis (Call (IoRead (js "work/asi/a.md"))) k).
Proof. eexists. apply (reach_step (Call IoList) _ (Ok demoListing)). apply reach_refl. Qed.
Lemma mount_confined_witness : claimsLocal id lower demoMount (js "work/asi/a.md") = true.
Proof.
  destruct demo_reads as [k Hk].
  destruct (mount_confined id lower demoMount demoClient demoHistory _ k) as [H _].
  - vm_compute. discriminate.
  - repeat constructor.
  - exact Hk.
  - apply H. reflexivity.
Defined.
Definition pullMount : Mount := {| source := demoSource; mountPoint := js "Work/ASI"; direction := Pull |}.
Definition demoWriter : io (cmd Op State Err) (cans (Ans := Ans)) unit :=
  Vis (Call (ApiPutChunk (js "h") (js "x"))) (λ _, Vis (Call (ApiDelete (js "a.md") None)) (λ _,
    Vis (Call (IoRemove (js "a.md"))) (λ _, Ret tt))).
Lemma pull_mount_never_writes_witness : ∃ k,
  reach (interp id lower pullMount None demoWriter) [] (Vis (Call (IoRemove (js "Work/ASI/a.md"))) k) ∧
  writesSource (IoRemove (js "Work/ASI/a.md")) = false.
Proof.
  eexists. assert (Hr : reach (interp id lower pullMount None demoWriter) []
    (interp id lower pullMount None demoWriter)) by apply reach_refl.
  split; [exact Hr|]. eapply (pull_mount_never_writes id lower pullMount demoWriter); [reflexivity|exact Hr].
Defined.
Lemma mount_reads_what_it_lists_witness :
  local demoMount (learn id lower demoMount None demoListing) (js "a.md") = js "work/asi/a.md" ∧
  js "work/asi/a.md" ∈ demoListing.*1.
Proof.
  apply (mount_reads_what_it_lists id lower demoMount demoListing (js "work/asi") (js "a.md")).
  - apply demo_listing_normal.
  - intros p r Hp. cbn in Hp. repeat (apply elem_of_cons in Hp as [->|Hp]); [vm_compute; naive_solver..|].
    by apply not_elem_of_nil in Hp.
  - vm_compute. reflexivity.
Defined.

(** [isDataPath] looks at the first non-empty segment, [sourceFromMountRel]
    drops the dot segments: the path [./.obsidian/app.json] passes as data and
    is committed as [.obsidian/app.json]. *)
Definition wholeSource : Mount :=
  {| source := {| owner := js "ann"; vaultId := js "v1"; sourcePath := [] |}; mountPoint := js "Work"; direction := Sync |}.
Theorem dot_segment_is_data :
  isDataPath lower (js "./.obsidian/app.json") = true ∧
  sourceFromMountRel wholeSource (js "./.obsidian/app.json") = js ".obsidian/app.json" ∧
  isDataPath lower (js ".obsidian/app.json") = false.
Proof. vm_compute. auto. Qed.

End Mountio.
