(* ===== verification/Reconcile.v ===== *)
(** * Reconcile: one path ([client/src/reconcile.ts], the imperative shell)

    [One] runs a decision: reading the local file, pulling with the race guard,
    merging or keeping both versions, pushing with the version the decision was
    based on.  The definitions follow the source call by call; what they promise
    is in [Safety]. *)

From S2P Require Import Prelude Jsmap Effects Paths Base Merge Decide Protocol Sync Configsync Frontmatter.

Module One.
#[local] Existing Instance Decide.Action_eq_dec.

(** [ReconcileDeps]: the configuration, and which optional calls are wired. *)
Record Deps := {
  device : jstr;
  ignorePatterns : option (list jstr); excludedFolders : option (list jstr);
  maxSyncBytes : option Z;
  readOnly : bool; noResurrect : bool; preserveLocalFirstContact : bool;
  accepts : jstr → bool;
  bulkDeleteStrategy : option Decide.BulkDeleteStrategy; bulkDeleteThreshold : option Decide.double;
  caseInsensitivePaths : bool; normalizationInsensitivePaths : bool;
  hasExists : bool; hasAppend : bool; hasAlive : bool; hasFlip : bool; hasLocalSizeOf : bool; hasStatOf : bool;
  hasPathWork : bool; hasRemotePlugins : bool
}.

Definition pathFs (d : Deps) : Identity.PathFs :=
  {| Identity.caseInsensitive := caseInsensitivePaths d; Identity.normInsensitive := normalizationInsensitivePaths d |}.
Definition aliasing (fs : Identity.PathFs) : bool := Identity.caseInsensitive fs || Identity.normInsensitive fs.

Section One.
Context (nfc lowerCase : jstr → jstr) (decodeUtf8 : bytes → option jstr) (decodeLossy : bytes → jstr)
        (encodeUtf8 : jstr → bytes) (sha256hex : bytes → jstr).

Definition key (d : Deps) (path : jstr) : jstr := Identity.identityKey nfc lowerCase path (pathFs d).
Definition isMergeable (path : jstr) (b : bytes) : bool := Merge3.isMergeable decodeUtf8 path b.
Definition normalizedHash (b : bytes) (patterns : list jstr) : jstr :=
  Front.normalizedHash nfc decodeUtf8 encodeUtf8 sha256hex b patterns.
Definition patternsFor (d : Deps) (path : jstr) : list jstr :=
  Decide.ignorePatternsFor (ignorePatterns d) (excludedFolders d) path.
Definition acceptedBasePaths (d : Deps) (s : State) : list jstr :=
  filter (λ p, accepts d p = true) (Store.paths (base s)).

Definition baseOf (path : jstr) : Client (option Store.BaseEntry) := gets (λ s, Store.get (base s) path).
Definition baseSet (path : jstr) (e : Store.BaseEntry) : Client unit := modify (λ s, setB (Store.set (base s) path e) s).
Definition baseDelete (path : jstr) : Client unit := modify (λ s, setB (Store.delete (base s) path) s).
Definition baseStamp (path : jstr) (st : Stat) : Client unit :=
  modify (λ s, setB (Store.stampStat (base s) path (st_size st) (st_mtime st)) s).
Definition entry (h : jstr) (t : option jstr) : Store.BaseEntry :=
  {| Store.hash := h; Store.text := t; Store.size := None; Store.mtime := None |}.
Definition textOf (path : jstr) (b : bytes) : option jstr :=
  if isMergeable path b && (len b <=? Decide.MAX_BASE_TEXT_BYTES)%Z then Some (decodeLossy b) else None.
Definition setBase (path : jstr) (b : bytes) (h : jstr) : Client unit :=
  baseSet path (entry h (textOf path b)) ;; say NBaseChanged.

Definition readOrNull (p : jstr) : Client (option bytes) :=
  try_catch (let* b := read p in mret' (Some b)) (λ _, mret' None).
Inductive LocalContent := LPresent (b : bytes) | LAbsent | LUnreadable.
Definition readLocalContent (p : jstr) (reportedPresent : option bool) : Client LocalContent :=
  let* b := readOrNull p in
  mret' match b with
        | Some b => LPresent b
        | None => if default false reportedPresent then LUnreadable else LAbsent
        end.
Inductive ProbedPresence := PPresent | PAbsent | PIndeterminate.
#[export] Instance ProbedPresence_eq_dec : EqDecision ProbedPresence.
Proof. solve_decision. Defined.
Definition probePresence (d : Deps) (p : jstr) : Client ProbedPresence :=
  try_catch
    (if hasExists d then let* e := exists_ p in mret' (if (e : bool) then PPresent else PAbsent)
     else let* b := readOrNull p in mret' (match b with Some _ => PPresent | None => PAbsent end))
    (λ _, mret' PIndeterminate).

Definition baseNormHash (d : Deps) (path : jstr) (e : option Store.BaseEntry) : option jstr :=
  match e with
  | Some e => (λ t, normalizedHash (encodeUtf8 t) (patternsFor d path)) <$> Store.text e
  | None => None
  end.

(** ** Pulling *)
Inductive RaceOutcome := RNone_ | RConfigRace | RCopy (path : jstr).
(** Re-read just before the overwrite: an edit made since the decision is kept as
    a conflict copy. *)
Definition conflictCopyIfRaced (d : Deps) (path : jstr) (expectLocalHash : option jstr) : Client RaceOutcome :=
  let* cur := readOrNull path in
  match cur with
  | None => mret' RNone_
  | Some cur =>
      let curHash := sha256hex cur in
      if bool_decide (expectLocalHash = Some curHash) then mret' RNone_
      else
        let* be := baseOf path in
        if negb (Decide.isConfig path) && isMergeable path cur
           && (match baseNormHash d path be with
               | Some bn => normalizedHash cur (patternsFor d path) === bn
               | None => false
               end) then mret' RNone_
        else if Decide.isConfig path then
          say (NConfigConflict path (js "local edit raced a pull")) ;; mret' RConfigRace
        else
          let* now := call NowUtc in
          let copy := Store.conflictCopyName path (device d) now (take 6 curHash) in
          write copy cur ;;
          say (NConflict path copy) ;;
          mret' (RCopy copy)
  end.

Definition notApplying (what : string) : jstr :=
  js " " ++ [8212%N] ++ js " not applying (" ++ js what ++ js ")".
Definition integrityError (path got expected : jstr) : Err :=
  ErrMsg (js "integrity check failed for '" ++ path ++ js "': got " ++ take 12 got ++ js ", expected "
          ++ take 12 expected ++ notApplying "corrupt download?").
Definition declaredSizeError (path : jstr) (got declared : Z) : Err :=
  ErrMsg (js "integrity check failed for '" ++ path ++ js "': size " ++ num_str (Z.to_N got) ++ js " != declared "
          ++ num_str (Z.to_N declared) ++ notApplying "inconsistent server metadata?").
Definition fetchVerified (meta : Wire.FileMeta) : Client bytes :=
  let* b := Transfer.fetchFileBytes sha256hex (Wire.chunks meta) in
  let got := sha256hex b in
  if negb (got === Wire.hash meta) then throw (integrityError (Wire.path meta) got (Wire.hash meta))
  else if negb (len b =? Wire.size meta)%Z then throw (declaredSizeError (Wire.path meta) (len b) (Wire.size meta))
  else mret' b.

(** The buffered tail of [applyPull]. *)
Definition bufferedPull (d : Deps) (path : jstr) (rmeta : Wire.FileMeta) (expect : option jstr) (guardRace : bool)
    : Client unit :=
  let* b := fetchVerified rmeta in
  let* race := if guardRace then conflictCopyIfRaced d path expect else mret' RNone_ in
  match race with
  | RConfigRace => mret' tt
  | _ =>
      try_catch (write path b)
        (λ e, (match race with
               | RCopy c => try_catch (remove c) (λ _, mret' tt)
               | _ => mret' tt
               end) ;; throw e) ;;
      setBase path b (Wire.hash rmeta)
  end.
Definition applyPull (d : Deps) (path : jstr) (rmeta : Wire.FileMeta) (expect : option jstr) (guardRace : bool)
    : Client unit :=
  (whenM starts_with path Decide.CONFIG_PREFIX then say (NRemoteConfig path rmeta)) ;;
  if (Decide.STREAM_MIN_BYTES <=? Wire.size rmeta)%Z && hasAppend d then
    let seam :=
      if guardRace then
        Some (let* race := conflictCopyIfRaced d path expect in
              match race with RConfigRace => throw StreamRaceAbort | _ => mret' tt end)
      else None in
    let* streamed :=
      try_catch
        (let* ok := Transfer.streamFileToDisk sha256hex (hasAppend d) path (Wire.chunks rmeta) (Wire.size rmeta)
                      (Wire.hash rmeta) seam in
         (whenM (ok : bool) then baseSet path (entry (Wire.hash rmeta) None) ;; say NBaseChanged) ;;
         mret' ok)
        (λ e, match e with StreamRaceAbort => mret' true | _ => throw e end) in
    if streamed : bool then mret' tt else bufferedPull d path rmeta expect guardRace
  else bufferedPull d path rmeta expect guardRace.

Definition invariantError (action : Decide.Action) : Err :=
  ErrMsg (js "reconcile invariant: decide() requires a remote file, but none was present").
Definition requireRemote (rmeta : option Wire.FileMeta) (action : Decide.Action) : Client Wire.FileMeta :=
  match rmeta with Some m => mret' m | None => throw (invariantError action) end.

(** ** The enabled-plugin list *)
Definition reconcileEnabledPluginList (d : Deps) (path : jstr) (rmeta : Wire.FileMeta) (action : Decide.Action)
    (onWork : Client unit) : Client bool :=
  if negb (bool_decide (action ∈ [Decide.Pull; Decide.Merge; Decide.ConflictCopy; Decide.EditWinsPull]))
  then mret' false
  else
    let* remoteBytes := fetchVerified rmeta in
    let remoteStr := decodeLossy remoteBytes in
    let* liveLocal := readOrNull path in
    let localStr := match liveLocal with Some b => decodeLossy b | None => [] end in
    match Config.mergeEnabledPluginsJson localStr remoteStr with
    | None => mret' false
    | Some merged =>
        onWork ;;
        say (NRemoteConfig path rmeta) ;;
        let localIds := default [] (Config.ids localStr) in
        let remoteIds := default [] (Config.ids remoteStr) in
        let localHasExtra := existsb (λ id, negb (bool_decide (id ∈ remoteIds))) localIds in
        (if negb localHasExtra then
           write path remoteBytes ;;
           setBase path remoteBytes (Wire.hash rmeta)
         else
           let mergedBytes := encodeUtf8 merged in
           write path mergedBytes ;;
           if readOnly d then setBase path remoteBytes (Wire.hash rmeta)
           else
             let* r := Transfer.pushBytes sha256hex path mergedBytes (Some (Wire.version rmeta)) in
             setBase path (Transfer.pr_bytes r) (Transfer.pr_hash r)) ;;
        say (NConfigResolved path) ;;
        mret' true
    end.

(** ** Merging *)
Definition flipHeld (d : Deps) (path hash : jstr) (b : option bytes) : Client bool :=
  if hasFlip d then
    let* hold := call (FlipHold path hash b) in
    if (hold : bool) then say (NFlipHeld path) ;; mret' true else mret' false
  else mret' false.
Definition adoptRemote (path : jstr) (remoteBytes : bytes) (rmeta : Wire.FileMeta) : Client unit :=
  write path remoteBytes ;;
  setBase path remoteBytes (Wire.hash rmeta).
Definition keysPresent (d : Deps) (path : jstr) (text : jstr) : jstr :=
  Front.ignoredTimestampKeysPresent text (patternsFor d path).
(** The three-way merge of [mergeOrConflict], timestamps anchored. *)
Definition mergeTexts (patterns : list jstr) (baseText localText remoteText : jstr) : Merge3.Merged :=
  let raw := Merge3.merge3 (Front.neutralizeTimestamps baseText patterns)
               (Front.neutralizeTimestamps localText patterns) (Front.neutralizeTimestamps remoteText patterns) in
  {| Merge3.merged := Front.restoreTimestamps (Merge3.merged raw) localText patterns; Merge3.clean := Merge3.clean raw |}.

Inductive EarlyMerge := TakeRemote | PushLocal | NoShortcut.
(** The identity shortcuts, lines 1238-1273: equal identities, or one side equal to
    the base's. *)
Definition earlyMerge (d : Deps) (path : jstr) (action : Decide.Action) (be : option Store.BaseEntry)
    (liveLocal remoteBytes : bytes) : EarlyMerge :=
  if isMergeable path liveLocal && isMergeable path remoteBytes then
    let keysL := keysPresent d path (decodeLossy liveLocal) in
    let keysR := keysPresent d path (decodeLossy remoteBytes) in
    let localNorm := normalizedHash liveLocal (patternsFor d path) in
    let remoteNorm := normalizedHash remoteBytes (patternsFor d path) in
    if (localNorm === remoteNorm) && (keysL === keysR) then TakeRemote
    else match action, be with
    | Decide.Merge, Some e =>
        match baseNormHash d path (Some e) with
        | Some bnorm =>
            let keysB := keysPresent d path <$> Store.text e in
            let sameKeys k := match keysB with Some kb => k === kb | None => true end in
            if (localNorm === bnorm) && negb (remoteNorm === bnorm) && sameKeys keysL then TakeRemote
            else if (remoteNorm === bnorm) && negb (localNorm === bnorm) && negb (readOnly d) && sameKeys keysR
            then PushLocal
            else NoShortcut
        | None => NoShortcut
        end
    | _, _ => NoShortcut
    end
  else NoShortcut.
(** The divergence once both versions are in hand (lines 1230-1340). *)
Definition mergeLive (d : Deps) (path : jstr) (rmeta : Wire.FileMeta) (action : Decide.Action)
    (be : option Store.BaseEntry) (remoteBytes liveLocal : bytes) : Client unit :=
  let liveLocalHash := sha256hex liveLocal in
  match earlyMerge d path action be liveLocal remoteBytes with
  | TakeRemote => adoptRemote path remoteBytes rmeta
  | PushLocal =>
      let* held := flipHeld d path liveLocalHash (Some liveLocal) in
      if (held : bool) then mret' tt
      else
        let* r := Transfer.pushBytes sha256hex path liveLocal (Some (Wire.version rmeta)) in
        setBase path (Transfer.pr_bytes r) (Transfer.pr_hash r)
  | NoShortcut =>
      let both := isMergeable path liveLocal && isMergeable path remoteBytes in
      let cosmetic := both && Decide.sameIgnoringEol decodeLossy liveLocal remoteBytes in
      let baseText := match be with Some e => Store.text e | None => None end in
      let canMerge := negb cosmetic && negb (readOnly d) && bool_decide (action = Decide.Merge) && both
                      && bool_decide (is_Some baseText) in
      let result := if canMerge
                    then Some (mergeTexts (patternsFor d path) (default [] baseText) (decodeLossy liveLocal)
                                 (decodeLossy remoteBytes))
                    else None in
      match Decide.planMerge {| Decide.cosmetic := cosmetic; Decide.m_readOnly := readOnly d;
              Decide.m_action := action; Decide.canMerge := canMerge;
              Decide.mergeClean := match result with Some r => Merge3.clean r | None => false end;
              Decide.firstContactKeepCopy := preserveLocalFirstContact d |} with
      | Decide.AdoptRemote => adoptRemote path remoteBytes rmeta
      | Decide.ReadOnlyKeepCopy =>
          let* now := call NowUtc in
          let copy := Store.conflictCopyName path (device d) now (take 6 liveLocalHash) in
          write copy liveLocal ;;
          say (NConflict path copy) ;;
          write path remoteBytes ;;
          setBase path remoteBytes (Wire.hash rmeta)
      | Decide.PushMerged =>
          let mergedBytes := encodeUtf8 (match result with Some r => Merge3.merged r | None => [] end) in
          let* held := flipHeld d path (sha256hex mergedBytes) (Some mergedBytes) in
          if (held : bool) then mret' tt
          else
            let* r := Transfer.pushBytes sha256hex path mergedBytes (Some (Wire.version rmeta)) in
            setBase path (Transfer.pr_bytes r) (Transfer.pr_hash r)
      | Decide.PlanConflictCopy =>
          let* now := call NowUtc in
          let copy := Store.conflictCopyName path (device d) now (take 6 liveLocalHash) in
          write copy liveLocal ;;
          say (NConflict path copy) ;;
          write path remoteBytes ;;
          let* r := Transfer.pushFile sha256hex copy None in
          let cb := Transfer.pr_bytes r in
          baseSet copy (entry (Transfer.pr_hash r) (if isMergeable copy cb then Some (decodeLossy cb) else None)) ;;
          setBase path remoteBytes (Wire.hash rmeta)
      end
  end.
Definition reconcileMergeOrConflict (d : Deps) (path : jstr) (rmeta : Wire.FileMeta) (action : Decide.Action)
    (be : option Store.BaseEntry) (localBytes : option bytes) : Client unit :=
  let* remoteBytes := fetchVerified rmeta in
  let* reread := readOrNull path in
  match (match reread with Some b => Some b | None => localBytes end) with
  | None => throw (ErrMsg (js "TypeError"))
  | Some liveLocal => mergeLive d path rmeta action be remoteBytes liveLocal
  end.

(** ** One path *)
Record Opts := {
  o_onWork : Client unit; o_rmeta : option Wire.FileMeta; o_guardDelete : bool; o_guardBulkPush : bool;
  o_localSize : Z; o_hasTombstone : jstr → bool; o_deletionOf : jstr → option Wire.Deletion;
  o_locallyPresent : option bool; o_localStat : option Stat; o_caseRenamed : bool
}.
Definition maxOf (d : Deps) : Z := default Decide.DEFAULT_MAX_SYNC_BYTES (maxSyncBytes d).
Definition unreadableError (path : jstr) : Err :=
  ErrMsg (js "'" ++ path ++ js "' is present but couldn't be read right now " ++ [8212%N]
          ++ js " skipping (won't be treated as deleted)").
(** [localHash && m?.get(k) === localHash] *)
Definition isRejected (d : Deps) (path : jstr) (localHash : option jstr) : Client bool :=
  gets (λ s, match localHash, rejected s with
             | Some h, Some m => truthy h && bool_decide (jget m (key d path) = Some h)
             | _, _ => false
             end).
Definition flipHeldLocal (d : Deps) (path : jstr) (localHash : option jstr) (localBytes : option bytes) : Client bool :=
  match localHash with
  | Some h => if truthy h then flipHeld d path h localBytes else mret' false
  | None => mret' false
  end.
(** The push of the [push] and [restore] effects: a rejected content is remembered,
    an accepted one forgotten. *)
Definition guardedPush (d : Deps) (path : jstr) (version : Z) (localHash : option jstr) : Client Transfer.PushResult :=
  let* r := try_catch (Transfer.pushFile sha256hex path (Some version))
    (λ e, (match e, localHash with
           | CommitRejectedError _ _, Some h =>
               if truthy h then modify (λ s, setRejected ((λ m, jset m (key d path) h) <$> rejected s) s) else mret' tt
           | _, _ => mret' tt
           end) ;; throw e) in
  modify (λ s, setRejected ((λ m, jdel m (key d path)) <$> rejected s) s) ;;
  mret' r.
Definition stampIf (b : bool) (path : jstr) (st : option Stat) : Client unit :=
  match st with Some st => if b then baseStamp path st else mret' tt | None => mret' tt end.

(** The effects, lines 1497-1589. *)
Definition execute (d : Deps) (path : jstr) (o : Opts) (action : Decide.Action) (eff : Decide.ReconcileEffect)
    (be : option Store.BaseEntry) (localBytes : option bytes) (localHash : option jstr) : Client unit :=
  match eff with
  | Decide.ENoop => mret' tt
  | Decide.ESetBaseInSync =>
      match localBytes, o_rmeta o with
      | Some b, Some m => setBase path b (Wire.hash m) ;; stampIf true path (o_localStat o)
      | _, _ => throw (ErrMsg (js "TypeError"))
      end
  | Decide.EClearBase => baseDelete path ;; say NBaseChanged
  | Decide.EReportReadOnly => say (NReadOnly path)
  | Decide.EReportReadOnlyCopy => say (NReadOnlyCopy path)
  | Decide.EReportGuard => say (NGuard path)
  | Decide.EReportPushGuard => say (NPushGuard path)
  | Decide.EPush version allowStamp =>
      let* rej := isRejected d path localHash in
      if (rej : bool) then say (NPushHeld path)
      else
        let* held := flipHeldLocal d path localHash localBytes in
        if (held : bool) then mret' tt
        else
          o_onWork o ;;
          let* r := guardedPush d path version localHash in
          setBase path (Transfer.pr_bytes r) (Transfer.pr_hash r) ;;
          stampIf allowStamp path (o_localStat o)
  | Decide.EPull =>
      o_onWork o ;;
      let* m := requireRemote (o_rmeta o) action in
      applyPull d path m localHash true
  | Decide.ERestore =>
      say (NKeptAbsent path) ;;
      let* rej := isRejected d path localHash in
      if (rej : bool) then say (NPushHeld path)
      else
        let* held := flipHeldLocal d path localHash localBytes in
        if (held : bool) then mret' tt
        else
          o_onWork o ;;
          let* r := guardedPush d path 0 localHash in
          setBase path (Transfer.pr_bytes r) (Transfer.pr_hash r)
  | Decide.EKeptAbsentReadOnly => say (NKeptAbsent path)
  | Decide.ERemoveLocal =>
      if o_caseRenamed o then baseDelete path ;; say NBaseChanged
      else
        o_onWork o ;;
        remove path ;;
        baseDelete path ;; say NBaseChanged ;;
        if Decide.isConfig path then
          let del := o_deletionOf o path in
          say (NRemoteConfigDelete path (del ≫= Wire.d_author) (del ≫= Wire.d_deviceId) (del ≫= Wire.d_deviceName))
        else mret' tt
  | Decide.EDeleteRemote version =>
      let* probed := probePresence d path in
      match probed with
      | PAbsent =>
          o_onWork o ;;
          deleteFile path (Some version) ;;
          baseDelete path ;; say NBaseChanged
      | _ => mret' tt
      end
  | Decide.EMergeOrConflict =>
      o_onWork o ;;
      let* m := requireRemote (o_rmeta o) action in
      reconcileMergeOrConflict d path m action be localBytes
  end.

Definition actionName (a : Decide.Action) : jstr :=
  js match a with
     | Decide.InSync => "in-sync" | Decide.Push => "push" | Decide.Pull => "pull"
     | Decide.DeleteLocal => "delete-local" | Decide.DeleteRemote => "delete-remote"
     | Decide.Merge => "merge" | Decide.ConflictCopy => "conflict-copy"
     | Decide.EditWinsKeepLocal => "edit-wins-keep-local" | Decide.EditWinsPull => "edit-wins-pull"
     end.
Definition isBothChanged (a : Decide.Action) : bool :=
  match a with Decide.Merge | Decide.ConflictCopy | Decide.EditWinsPull | Decide.EditWinsKeepLocal => true | _ => false end.
Definition statZ (st : option Stat) : option (Z * Z) := (λ st, (st_size st, st_mtime st)) <$> st.
Definition factsOf (d : Deps) (path : jstr) (o : Opts) (be : option Store.BaseEntry) (localBytes : option bytes)
    : Decide.FinalizeFacts :=
  {| Decide.readOnly := readOnly d; Decide.noResurrect := noResurrect d;
     Decide.hasTombstone := o_hasTombstone o path; Decide.guardDelete := o_guardDelete o;
     Decide.guardBulkPush := o_guardBulkPush o; Decide.isConflictCopy := Store.isConflictCopy path;
     Decide.hasLocalBytes := bool_decide (is_Some localBytes);
     Decide.hasRmeta := bool_decide (is_Some (o_rmeta o)); Decide.hasBaseEntry := bool_decide (is_Some be);
     Decide.remoteVersion := match o_rmeta o with Some m => Wire.version m | None => 0%Z end |}.
(** [localHash ? { hash } : null] *)
Definition presence (h : option jstr) : option jstr :=
  match h with Some h => if truthy h then Some h else None | None => None end.

(** After the decision: the identity override, the enabled-plugin list, the
    configuration gate and the effect. *)
Definition dispatch (d : Deps) (path : jstr) (o : Opts) (be : option Store.BaseEntry)
    (localBytes : option bytes) (localHash : option jstr) (action0 : Decide.Action) : Client unit :=
  let cosmetic :=
    negb (Decide.isConfig path) && bool_decide (action0 = Decide.Push ∨ action0 = Decide.EditWinsKeepLocal)
    && (match localBytes, be with
        | Some b, Some e =>
            match baseNormHash d path (Some e) with
            | Some bn => normalizedHash b (patternsFor d path) === bn
            | None => false
            end
        | _, _ => false
        end) in
  if cosmetic && bool_decide (action0 = Decide.Push) then stampIf true path (o_localStat o)
  else
    let action := if cosmetic then Decide.DeleteLocal else action0 in
    let* merged :=
      match o_rmeta o with
      | Some m => if Config.isEnabledListConfig path
                  then reconcileEnabledPluginList d path m action (o_onWork o) else mret' false
      | None => mret' false
      end in
    if (merged : bool) then mret' tt
    else if Decide.isConfig path && isBothChanged action
    then say (NConfigConflict path (actionName action))
    else
      (whenM Decide.isConfig path then say (NConfigResolved path)) ;;
      let eff := Decide.finalize action (factsOf d path o be localBytes) in
      say (NDecision path action eff) ;;
      execute d path o action eff be localBytes localHash.

Definition reconcileOne (d : Deps) (path : jstr) (o : Opts) : Client unit :=
  if negb (accepts d path) then mret' tt
  else
    let max := maxOf d in
    let remoteSize := match o_rmeta o with Some m => Wire.size m | None => 0%Z end in
    let streamable := ((Decide.STREAM_MIN_BYTES <=? remoteSize)%Z && (o_localSize o =? 0)%Z && hasAppend d) in
    if (max <? o_localSize o)%Z || ((max <? remoteSize)%Z && negb streamable)
    then say (NSkip path (Z.max (o_localSize o) remoteSize))
    else
      let* be := baseOf path in
      let scanHit := default false (o_locallyPresent o) && bool_decide (is_Some (o_rmeta o))
                     && Decide.baseStatUnchanged be (statZ (o_localStat o)) in
      let* ' (localBytes, localHash) :=
        if scanHit then mret' (None, Store.hash <$> be)
        else
          let* local := readLocalContent path (o_locallyPresent o) in
          match local, be with
          | LUnreadable, Some _ => throw (unreadableError path)
          | LPresent b, _ => mret' (Some b, Some (sha256hex b))
          | _, _ => mret' (None, None)
          end in
      let action := Decide.decide_action (presence localHash) (Store.hash <$> be) (Wire.hash <$> o_rmeta o) in
      dispatch d path o be localBytes localHash action.
End One.
(** The message of an integrity failure quotes the path, and a connection failure
    is recognised anywhere in a message: the corrupt download of a file whose name
    contains such a word is read as an outage, which aborts the pass it should
    only be isolated in. *)
Lemma integrity_reads_as_outage :
  Decide.isConnectionError (message (integrityError (js "ECONNRESET.md") (js "00ff") (js "11ee"))) = true ∧
  Decide.isConnectionError (message (integrityError (js "note.md") (js "00ff") (js "11ee"))) = false.
Proof. vm_compute. auto. Qed.
End One.
