(* ===== verification/Pass.v ===== *)
(** * Pass: whole reconciliations ([client/src/reconcile.ts])

    [Pass] holds the loops over paths: the full pass, the delta, one path, the
    configuration scan, the held batches and the vault switch; with the worker
    pool's error isolation, the identity rules for aliased spellings, the bulk
    guards and the cursor. *)

From S2P Require Import Prelude Jsmap Effects Paths Base Decide Protocol Sync Reconcile.

Module Pass.
Import One.

Section Pass.
Context (nfc lowerCase : jstr → jstr) (decodeUtf8 : bytes → option jstr) (decodeLossy : bytes → jstr)
        (encodeUtf8 : jstr → bytes) (sha256hex : bytes → jstr).
Let key := key nfc lowerCase.
Let reconcileOne := reconcileOne nfc lowerCase decodeUtf8 decodeLossy encodeUtf8 sha256hex.
Let setBase := setBase decodeUtf8 decodeLossy.

Definition startPass (n : Z) : Client unit :=
  modify (setPass {| connAbort := None; failed := []; pending := n; examined := 0; signalled := false |}).
Definition onPass (f : Pass → Pass) : Client unit := modify (λ s, setPass (f (pass s)) s).
Definition setConnAbort (e : Err) (p : Pass) : Pass :=
  {| connAbort := Some e; failed := failed p; pending := pending p; examined := examined p; signalled := signalled p |}.
Definition addFailed (v : Z) (p : Pass) : Pass :=
  {| connAbort := connAbort p; failed := failed p ++ [v]; pending := pending p; examined := examined p; signalled := signalled p |}.
Definition takePending (p : Pass) : Pass :=
  {| connAbort := connAbort p; failed := failed p; pending := pending p - 1; examined := examined p; signalled := signalled p |}.
Definition bumpExamined (p : Pass) : Pass :=
  {| connAbort := connAbort p; failed := failed p; pending := pending p; examined := S (examined p); signalled := signalled p |}.
Definition setSignalled (b : bool) (p : Pass) : Pass :=
  {| connAbort := connAbort p; failed := failed p; pending := pending p; examined := examined p; signalled := b |}.

Definition isConn (e : Err) : bool := Decide.isConnectionError (message e).
Definition hold (path : jstr) (v : Z) : Client bool :=
  let* b := gets budget in
  let '(held, exhausted, b') := Decide.holdForRetry b path v in
  modify (setBudget b') ;;
  (whenM (exhausted : bool) then say (NPullExhausted path)) ;;
  mret' held.
Definition forget (path : jstr) : Client unit := modify (λ s, setBudget (Decide.retryReset (budget s) path) s).
Definition advance (authoritative : Z) (failedVersions : list Z) : Client unit :=
  modify (setVersion (Decide.advanceCursor authoritative failedVersions)).

(** ** [isolatedPass] *)
Section Isolated.
Context (d : Deps) (runOne : jstr → Client unit) (versionOf : jstr → option Z) (onDone : jstr → Client unit).
Definition passItem (p : jstr) : Client unit :=
  let* abort := gets (λ s, connAbort (pass s)) in
  match abort with
  | Some e => throw e
  | None =>
      let* alive := (if hasAlive d then call Alive else mret' true : Client bool) in
      if negb alive then mret' tt
      else
        finally
          (try_catch (runOne p ;; forget p)
             (λ e,
                if isConn e then onPass (setConnAbort e) ;; throw e
                else
                  say (NFileError p e) ;;
                  match versionOf p with
                  | Some v => let* h := hold p v in if (h : bool) then onPass (addFailed v) else mret' tt
                  | None => mret' tt
                  end))
          (λ _, onDone p)
  end.
Definition isolatedPass (items : list jstr) : Client unit :=
  Transfer.mapPool items (λ p _, passItem p) Decide.FILE_CONCURRENCY ;;
  mret' tt.
End Isolated.

(** ** Spellings of one file *)
Definition jsetOf (l : list jstr) : list jstr := dedup l.
Definition caseRenamedTombstones (d : Deps) (tombstoned remoteKeys : list jstr) : list jstr :=
  let fs := pathFs d in
  if negb (aliasing fs) then []
  else
    let idx := Identity.identityIndex nfc lowerCase remoteKeys fs in
    filter (λ p, match idx !! key d p with Some k => truthy k && negb (k === p) | None => false end = true) tombstoned.
Definition twoSpellings (p k : jstr) : Identity.PathViolation :=
  {| Identity.v_kind := Identity.ListingTwoSpellings; Identity.v_site := js "aliasLocalPaths";
     Identity.v_paths := [p; k]; Identity.v_detail := None |}.
(** The loop over the listing; [out] is the re-keyed copy, made at the first
    re-keying. *)
Fixpoint aliasLoop (d : Deps) (local : list (jstr * Stat)) (exact : list jstr) (idx : gmap jstr jstr)
    (todo : list (jstr * Stat)) (out : option (list (jstr * Stat))) : Client (list (jstr * Stat)) :=
  match todo with
  | [] => mret' (default local out)
  | (p, v) :: todo =>
      if bool_decide (p ∈ exact) then aliasLoop d local exact idx todo out
      else match idx !! key d p with
      | Some k =>
          if negb (truthy k) || (k === p) then aliasLoop d local exact idx todo out
          else if jhas local k then
            violation (twoSpellings p k) ;;
            aliasLoop d local exact idx todo out
          else
            let out' := jset (jdel (default local out) p) k v in
            say (NPathAliased p k) ;;
            aliasLoop d local exact idx todo (Some out')
      | None => aliasLoop d local exact idx todo out
      end
  end.
Definition aliasLocalPaths (d : Deps) (local : list (jstr * Stat)) (canonical : list jstr)
    : Client (list (jstr * Stat)) :=
  let fs := pathFs d in
  if negb (aliasing fs) then mret' local
  else
    let exact := dedup canonical in
    aliasLoop d local exact (Identity.identityIndex nfc lowerCase exact fs) local None.
Definition canonicalLocalPath (d : Deps) (path : jstr) : Client jstr :=
  let fs := pathFs d in
  let* be := baseOf path in
  if negb (aliasing fs) || bool_decide (is_Some be) then mret' path
  else
    let* sibling := gets (λ s, (Store.foldSibling nfc lowerCase (base s) path fs).2) in
    modify (λ s, setB (Store.foldSibling nfc lowerCase (base s) path fs).1 s) ;;
    match sibling with
    | Some k => if negb (truthy k) || (k === path) then mret' path
                else say (NPathAliased path k) ;; mret' k
    | None => mret' path
    end.
Definition duplicateIdentity (site : jstr) (g : list jstr) : Identity.PathViolation :=
  {| Identity.v_kind := Identity.DuplicateIdentity; Identity.v_site := site; Identity.v_paths := g;
     Identity.v_detail := None |}.
(** Adds every identity with several spellings to [into]. *)
Fixpoint holdGroups (d : Deps) (site : jstr) (groups : list (list jstr)) (into : list jstr) : Client (list jstr) :=
  match groups with
  | [] => mret' into
  | g :: groups =>
      let id := key d (default [] (head g)) in
      if bool_decide (id ∈ into) then holdGroups d site groups into
      else
        violation (duplicateIdentity site g) ;;
        holdGroups d site groups (into ++ [id])
  end.
Definition holdAmbiguous (d : Deps) (site : jstr) (keys into : list jstr) : Client (list jstr) :=
  holdGroups d site (Identity.identityGroups nfc lowerCase keys (pathFs d)) into.
Definition isHeldAmbiguous (d : Deps) (held : list jstr) (path : jstr) : bool := bool_decide (key d path ∈ held).

(** ** The full pass *)
Definition remoteMap (l : list Wire.FileMeta) : list (jstr * Wire.FileMeta) :=
  jof ((λ f, (Wire.path f, f)) <$> l).
Definition pluginOf (p : jstr) : option jstr :=
  match split_on cSlash p with
  | a :: b :: id :: _ :: _ => if (a === js ".obsidian") && (b === js "plugins") && truthy id then Some id else None
  | _ => None
  end.
Definition addPlugin (m : list (jstr * option jstr)) (e : jstr * Wire.FileMeta) : list (jstr * option jstr) :=
  match pluginOf e.1 with
  | None => m
  | Some id =>
      let m := if jhas m id then m else jset m id None in
      if e.1 === js ".obsidian/plugins/" ++ id ++ js "/main.js" then jset m id (Wire.author e.2) else m
  end.
Definition remotePlugins (remote : list (jstr * Wire.FileMeta)) : list RemotePlugin :=
  (λ e, {| rp_id := e.1; rp_author := e.2 |}) <$> foldl addPlugin [] remote.
Definition pushHoldCfg (d : Deps) : Decide.PushHoldCfg :=
  {| Decide.ph_noResurrect := noResurrect d; Decide.ph_accepts := accepts d;
     Decide.ph_strategy := bulkDeleteStrategy d; Decide.ph_threshold := bulkDeleteThreshold d |}.
Definition gset_of (l : list jstr) : gset jstr := list_to_set l.
(** The paths this pass will act on, for the progress count. *)
Definition isPending (s : State) (remote : list (jstr * Wire.FileMeta)) (local : list (jstr * Stat))
    (tombstoned : list jstr) (p : jstr) : bool :=
  let b := Store.get (base s) p in
  match jget remote p with
  | Some r => negb (bool_decide (Store.hash <$> b = Some (Wire.hash r)))
  | None => jhas local p && (bool_decide (p ∈ tombstoned) || bool_decide (b = None))
  end.
Definition delBy (l : list Wire.Deletion) (p : jstr) : option Wire.Deletion :=
  jget (jof ((λ x, (Wire.d_path x, x)) <$> l)) p.
Definition versionOf (remote : list (jstr * Wire.FileMeta)) (deletes : list Wire.Deletion) (p : jstr) : option Z :=
  match jget remote p with
  | Some r => Some (Wire.version r)
  | None => Wire.d_version <$> List.find (λ x, Wire.d_path x === p) deletes
  end.
Definition keepAmbiguous (held : list jstr) : Client unit :=
  modify (λ s, match ambiguous s with Some _ => setAmbiguous (Some held) s | None => s end).
Definition stageChecked (examined total : nat) : jstr :=
  js "checked " ++ num_str (N.of_nat examined) ++ js "/" ++ num_str (N.of_nat total) ++ js " files".

Definition reconcileAll (d : Deps) : Client Wire.ChangesResponse :=
  say (NStage (js "fetching changes from the server")) ;;
  let* resp := changes 0 in
  let remote := remoteMap (Wire.upserts resp) in
  (whenM hasRemotePlugins d then say (NRemotePlugins (remotePlugins remote))) ;;
  let tombstoned := Wire.d_path <$> Wire.deletes resp in
  let* s0 := getS in
  let* held := holdAmbiguous d (js "reconcileAll")
                 (jkeys remote ++ filter (λ p, p ∉ tombstoned) (Store.paths (base s0))) [] in
  keepAmbiguous held ;;
  say (NStage (js "scanning local files")) ;;
  let* listed := listing in
  let* s1 := getS in
  let* local := aliasLocalPaths d listed (jkeys remote ++ Store.paths (base s1)) in
  let* s := getS in
  let basePaths := acceptedBasePaths d s in
  let wouldDelete := length (filter (λ p, p ∈ tombstoned ∧ jhas local p = true) basePaths) in
  let guardBulkDelete := Decide.bulkDeleteHold (bulkDeleteStrategy d) (bulkDeleteThreshold d)
                           (Z.of_nat wouldDelete) (Z.of_nat (length basePaths)) in
  let guardBulkPush := Decide.computeBulkPushHold (pushHoldCfg d) (base s) (jkeys local)
                         (gset_of (jkeys remote)) (gset_of tombstoned) in
  let paths := filter (λ p, isHeldAmbiguous d held p = false)
                 (dedup (jkeys local ++ jkeys remote ++ Store.paths (base s))) in
  let pendingPaths := filter (λ p, accepts d p = true ∧ isPending s remote local tombstoned p = true) paths in
  let declined := filter (λ p, accepts d p = false ∧ jhas remote p = true) paths in
  (whenM negb (length declined =? 0) then say (NDeclined declined)) ;;
  startPass (Z.of_nat (length pendingPaths)) ;;
  say (NProgress (Z.of_nat (length pendingPaths))) ;;
  say (NStage (js "checking " ++ num_str (N.of_nat (length paths)) ++ js " files for changes")) ;;
  let caseRenamed := caseRenamedTombstones d tombstoned (jkeys remote) in
  isolatedPass d
    (λ p, reconcileOne d p
       {| o_onWork := mret' tt; o_rmeta := jget remote p; o_guardDelete := guardBulkDelete;
          o_guardBulkPush := guardBulkPush;
          o_localSize := match jget local p with Some st => st_size st | None => 0%Z end;
          o_hasTombstone := λ p, bool_decide (p ∈ tombstoned); o_deletionOf := delBy (Wire.deletes resp);
          o_locallyPresent := Some (jhas local p); o_localStat := jget local p;
          o_caseRenamed := bool_decide (p ∈ caseRenamed) |})
    (versionOf remote (Wire.deletes resp))
    (λ p,
       (whenM bool_decide (p ∈ pendingPaths) then
          onPass takePending ;; let* n := gets (λ s, pending (pass s)) in say (NProgress n)) ;;
       onPass bumpExamined ;;
       let* n := gets (λ s, examined (pass s)) in
       whenM (n mod 250 =? 0) then say (NStage (stageChecked n (length paths))))
    paths ;;
  let* failedVersions := gets (λ s, failed (pass s)) in
  advance (Wire.r_version resp) failedVersions ;;
  mret' resp.

(** ** The delta pass *)
Definition reconcileDelta (d : Deps) (delta : Wire.ChangesResponse) : Client unit :=
  let remote := remoteMap (Wire.upserts delta) in
  let tombstoned := dedup (Wire.d_path <$> Wire.deletes delta) in
  let* s := getS in
  let baseSet := acceptedBasePaths d s in
  let wouldDelete := length (filter (λ p, p ∈ baseSet) tombstoned) in
  let guardBulkDelete := Decide.bulkDeleteHold (bulkDeleteStrategy d) (bulkDeleteThreshold d)
                           (Z.of_nat wouldDelete) (Z.of_nat (length (dedup baseSet))) in
  let changedAll := dedup (jkeys remote ++ tombstoned) in
  let* held := holdAmbiguous d (js "reconcileDelta")
                 (jkeys remote ++ filter (λ p, p ∉ tombstoned) (Store.paths (base s)))
                 (default [] (ambiguous s)) in
  modify (λ s, match ambiguous s with Some a => setAmbiguous (Some (dedup (a ++ held))) s | None => s end) ;;
  let changed := filter (λ p, accepts d p = true ∧ isHeldAmbiguous d held p = false) changedAll in
  let caseRenamed := caseRenamedTombstones d tombstoned (jkeys remote) in
  startPass (Z.of_nat (length changed)) ;;
  say (NProgress (Z.of_nat (length changed))) ;;
  isolatedPass d
    (λ p,
       let* present := (if hasExists d then exists_ p else mret' true : Client bool) in
       let* size := (if hasLocalSizeOf d then call (LocalSizeOf p) else mret' 0%Z : Client Z) in
       reconcileOne d p
         {| o_onWork := mret' tt; o_rmeta := jget remote p; o_guardDelete := guardBulkDelete;
            o_guardBulkPush := false; o_localSize := size;
            o_hasTombstone := λ p, bool_decide (p ∈ tombstoned); o_deletionOf := delBy (Wire.deletes delta);
            o_locallyPresent := Some present; o_localStat := None;
            o_caseRenamed := bool_decide (p ∈ caseRenamed) |})
    (versionOf remote (Wire.deletes delta))
    (λ p, onPass takePending ;; let* n := gets (λ s, pending (pass s)) in say (NProgress n))
    changed ;;
  let* failedVersions := gets (λ s, failed (pass s)) in
  advance (Wire.r_version delta) failedVersions.

(** ** One path *)
Definition settled (path reported : jstr) : Client unit :=
  say (NPathSettled path) ;;
  if reported === path then mret' tt else say (NPathSettled reported).
(** The attempt: a commit conflict is reported, anything else is thrown on. *)
Definition runPath (d : Deps) (path reported : jstr) (o : Opts) : Client unit :=
  onPass (setSignalled false) ;;
  finally
    (try_catch (reconcileOne d path o)
       (λ e, match e with
             | CommitConflictError _ => say (NFileError path e)
             | _ => throw e
             end))
    (λ r,
       let wasFailed := match r with Ok _ => false | Throw _ => true end in
       let* sig := gets (λ s, signalled (pass s)) in
       (whenM (sig : bool) then say (NPathWork false wasFailed)) ;;
       (whenM negb wasFailed then settled path reported)).
Definition reconcilePath (d : Deps) (reported : jstr) (localSize : Z) : Client unit :=
  let* path := canonicalLocalPath d reported in
  let* amb := gets ambiguous in
  if (match amb with Some a => isHeldAmbiguous d a path | None => false end) then settled path reported
  else
    let* rmeta := fileMeta path in
    let* liveSize := (if hasLocalSizeOf d then call (LocalSizeOf path) else mret' localSize : Client Z) in
    let* be := baseOf path in
    let* ' (guardDelete, deletes) :=
      match rmeta, be with
      | None, Some _ =>
          let* manifest := changes 0 in
          let* s := getS in
          let remoteSet := Wire.path <$> Wire.upserts manifest in
          let basePaths := acceptedBasePaths d s in
          let wouldDelete := length (filter (λ p, p ∉ remoteSet) basePaths) in
          mret' (Decide.isSuspiciousBulkDelete (Z.of_nat (length basePaths)) (Z.of_nat wouldDelete)
                   (bool_decide (remoteSet = [])), Wire.deletes manifest)
      | _, _ => mret' (false, [])
      end in
    let* locallyPresent :=
      (match rmeta with
       | Some _ => if hasExists d then let* e := exists_ path in mret' (Some (e : bool)) else mret' None
       | None => mret' None
       end : Client (option bool)) in
    let* stat := (if hasStatOf d then call (StatOf path) else mret' None : Client (option Stat)) in
    runPath d path reported
      {| o_onWork := if hasPathWork d then onPass (setSignalled true) ;; say (NPathWork true false) else mret' tt;
         o_rmeta := rmeta; o_guardDelete := guardDelete; o_guardBulkPush := false; o_localSize := liveSize;
         o_hasTombstone := λ p, bool_decide (p ∈ Wire.d_path <$> deletes); o_deletionOf := delBy deletes;
         o_locallyPresent := locallyPresent; o_localStat := stat; o_caseRenamed := false |}.

(** ** The configuration scan *)
Definition reconcileLocalConfig (d : Deps) : Client unit :=
  let* listed := listing in
  let* s0 := getS in
  let* local := aliasLocalPaths d listed (Store.paths (base s0)) in
  let* s1 := getS in
  let candidates := dedup (filter (λ p, Decide.isConfig p = true) (jkeys local ++ Store.paths (base s1))) in
  for_each candidates (λ p,
    if negb (accepts d p) then mret' tt
    else
      let* be := baseOf p in
      let st := jget local p in
      if Decide.baseStatUnchanged be (statZ st) then mret' tt
      else
        let* cur := readOrNull p in
        let curHash := sha256hex <$> cur in
        if bool_decide (curHash = Store.hash <$> be)
        then match st, cur with Some st, Some _ => baseStamp p st | _, _ => mret' tt end
        else
          try_catch
            (let* rmeta := fileMeta p in
             reconcileOne d p
               {| o_onWork := mret' tt; o_rmeta := rmeta; o_guardDelete := false; o_guardBulkPush := false;
                  o_localSize := match cur with Some b => len b | None => 0%Z end;
                  o_hasTombstone := λ _, false; o_deletionOf := λ _, None;
                  o_locallyPresent := Some (jhas local p); o_localStat := None; o_caseRenamed := false |})
            (λ e, if isConn e then throw e else say (NFileError p e))).

(** ** Held batches, after the user's answer *)
Definition reportErrors (p : jstr) (m : Client unit) : Client unit := try_catch m (λ e, say (NFileError p e)).
Definition changedIfAny (paths : list jstr) : Client unit :=
  match paths with [] => mret' tt | _ :: _ => say NBaseChanged end.
Definition applyHeldDeletions (paths : list jstr) : Client unit :=
  for_each paths (λ p, reportErrors p (remove p ;; baseDelete p)) ;; changedIfAny paths.
Definition keepHeldDeletions (paths : list jstr) : Client unit :=
  for_each paths (λ p, baseDelete p) ;; changedIfAny paths.
Definition applyHeldPushes (paths : list jstr) : Client unit :=
  for_each paths (λ p, reportErrors p
    (let* r := Transfer.pushFile sha256hex p (Some 0%Z) in
     setBase p (Transfer.pr_bytes r) (Transfer.pr_hash r))) ;; changedIfAny paths.
Definition keepHeldPushes (paths : list jstr) : Client unit :=
  let* tombstoned :=
    try_catch (let* r := changes 0 in mret' (Wire.d_path <$> Wire.deletes r)) (λ _, mret' paths) in
  for_each paths (λ p,
    if bool_decide (p ∈ tombstoned) then mret' tt
    else reportErrors p
      (let* b := readOrNull p in
       match b with Some b => setBase p b (sha256hex b) | None => mret' tt end)) ;; changedIfAny paths.

(** ** Adjudication and the vault switch *)
Definition resolveConfigConflict (d : Deps) (path : jstr) (choice : Configsync.Config.Side) : Client unit :=
  match choice with
  | Configsync.Config.Local =>
      let* b := readOrNull path in
      match b with
      | None => deleteFile path None ;; baseDelete path ;; say NBaseChanged
      | Some _ =>
          let* r := Transfer.pushFile sha256hex path None in
          setBase path (Transfer.pr_bytes r) (Transfer.pr_hash r)
      end
  | Configsync.Config.Remote =>
      let* rmeta := fileMeta path in
      match rmeta with
      | None => remove path ;; baseDelete path ;; say NBaseChanged
      | Some m => applyPull nfc decodeUtf8 decodeLossy encodeUtf8 sha256hex d path m None false
      end
  end.

Inductive SwitchMode := SDownload | SUpload | SMerge.
Definition switchDownload (d : Deps) (remote : list (jstr * Wire.FileMeta)) (local : list (jstr * Stat))
    (oldBase : list (jstr * Store.BaseEntry)) (max : Z) : Client unit :=
  say (NProgress (Z.of_nat (length remote))) ;;
  onPass (λ p, {| connAbort := connAbort p; failed := []; pending := Z.of_nat (length remote);
                  examined := examined p; signalled := signalled p |}) ;;
  let step := onPass takePending ;; let* n := gets (λ s, pending (pass s)) in say (NProgress n) in
  for_each remote (λ '(p, meta),
    let streamable := (Decide.STREAM_MIN_BYTES <=? Wire.size meta)%Z && hasAppend d in
    if (max <? Wire.size meta)%Z && negb streamable then say (NSkip p (Wire.size meta)) ;; step
    else
      try_catch (applyPull nfc decodeUtf8 decodeLossy encodeUtf8 sha256hex d p meta None false ;; forget p)
        (λ e,
           if isConn e then throw e
           else
             say (NFileError p e) ;;
             (match jget oldBase p with Some prev => baseSet p prev | None => mret' tt end) ;;
             let* h := hold p (Wire.version meta) in
             if (h : bool) then onPass (addFailed (Wire.version meta)) else mret' tt) ;;
      step) ;;
  let acceptedLocal := filter (λ p, accepts d p = true) (jkeys local) in
  let toRemove := filter (λ p, jhas remote p = false) acceptedLocal in
  let guardMassDelete := Decide.isSuspiciousBulkDelete (Z.of_nat (length acceptedLocal))
                           (Z.of_nat (length toRemove)) (length remote =? 0) in
  for_each toRemove (λ p,
    if guardMassDelete then say (NGuard p)
    else
      let size := match jget local p with Some st => st_size st | None => 0%Z end in
      if (max <? size)%Z then say (NSkip p size)
      else try_catch (remove p) (λ e, say (NFileError p e))).
Definition switchUpload (d : Deps) (remote : list (jstr * Wire.FileMeta)) (local : list (jstr * Stat)) (max : Z)
    : Client unit :=
  let n := Z.of_nat (length (filter (λ e, accepts d e.1 = true ∧ (st_size e.2 ≤ max)%Z) local)) in
  onPass (λ p, {| connAbort := connAbort p; failed := failed p; pending := n; examined := examined p; signalled := signalled p |}) ;;
  say (NProgress n) ;;
  for_each local (λ '(p, info),
    if negb (accepts d p) then mret' tt
    else if (max <? st_size info)%Z then say (NSkip p (st_size info))
    else
      try_catch
        (let* r := Transfer.pushFile sha256hex p None in
         setBase p (Transfer.pr_bytes r) (Transfer.pr_hash r))
        (λ e, if isConn e then throw e else say (NFileError p e)) ;;
      onPass takePending ;; let* n := gets (λ s, pending (pass s)) in say (NProgress n)) ;;
  for_each (jkeys remote) (λ p,
    if jhas local p then mret' tt
    else
      let* probed := probePresence d p in
      match probed with
      | PAbsent => try_catch (deleteFile p None) (λ e, if isConn e then throw e else say (NFileError p e))
      | _ => mret' tt
      end).
Definition switchTo (d : Deps) (mode : SwitchMode) : Client unit :=
  let* s := getS in
  let oldBase := omap (λ p, (p,.) <$> Store.get (base s) p) (Store.paths (base s)) in
  for_each (Store.paths (base s)) (λ p, baseDelete p) ;;
  modify (λ s, setBudget ((λ _, []) <$> budget s) s) ;;
  say NBaseChanged ;;
  match mode with
  | SUpload => if readOnly d then throw (ErrMsg (js "refusing to upload to a read-only shared vault")) else mret' tt
  | _ => mret' tt
  end ;;
  match mode with
  | SMerge => reconcileAll d ;; mret' tt
  | _ =>
      let* resp := changes 0 in
      let remote := jof ((λ f, (Wire.path f, f)) <$> filter (λ f, accepts d (Wire.path f) = true) (Wire.upserts resp)) in
      let* local := listing in
      onPass (λ p, {| connAbort := connAbort p; failed := []; pending := pending p; examined := examined p; signalled := signalled p |}) ;;
      (match mode with
       | SDownload => switchDownload d remote local oldBase (maxOf d)
       | _ => switchUpload d remote local (maxOf d)
       end) ;;
      let* failedVersions := gets (λ s, failed (pass s)) in
      advance (Wire.r_version resp) failedVersions
  end.
End Pass.
End Pass.
