(* ===== verification/Demo.v ===== *)
(** * Demo: a concrete world to run the client against

    A vault and a server as association lists, answering every call of the
    interface.  The witnesses of the effectful theorems execute the client
    against it. *)

From S2P Require Import Prelude Jsmap Effects Paths Base Decide Protocol Sync Reconcile Pass.

Module Demo.
Import One Pass.

(** The parameters: text is its own encoding, a digest is the content, tagged. *)
Definition sha (b : bytes) : jstr := 35%N :: b.
Definition dec (b : bytes) : option jstr := Some b.
Lemma sha_nonempty b : sha b ≠ [].
Proof. done. Qed.

Record World := { files : list (jstr * bytes); server : Wire.ChangesResponse; blobs : list (jstr * bytes) }.
Definition setFiles (f : list (jstr * bytes)) (w : World) : World :=
  {| files := f; server := server w; blobs := blobs w |}.
Definition setBlobs (b : list (jstr * bytes)) (w : World) : World :=
  {| files := files w; server := server w; blobs := b |}.
Definition setServer (r : Wire.ChangesResponse) (w : World) : World :=
  {| files := files w; server := r; blobs := blobs w |}.
Definition remoteFiles (w : World) : list (jstr * Wire.FileMeta) := remoteMap (Wire.upserts (server w)).
Definition meta (p : jstr) (b : bytes) (v : Z) : Wire.FileMeta :=
  {| Wire.path := p; Wire.hash := sha b; Wire.size := len b; Wire.mtime := 0; Wire.version := v;
     Wire.chunks := [sha b]; Wire.author := None; Wire.deviceId := None; Wire.deviceName := None |}.
Definition enoent : Err := ErrMsg (js "ENOENT").
Definition found {A} (o : option A) : res Err A := match o with Some a => Ok a | None => Throw enoent end.
(** A commit against an older version is refused; an accepted one is the next version. *)
Definition accepted (w : World) (r : Wire.CommitRequest) : res Err Wire.FileMeta * World :=
  let v := (Wire.r_version (server w) + 1)%Z in
  let m := {| Wire.path := Wire.c_path r; Wire.hash := Wire.c_hash r; Wire.size := Wire.c_size r;
              Wire.mtime := Wire.c_mtime r; Wire.version := v; Wire.chunks := Wire.c_chunks r;
              Wire.author := None; Wire.deviceId := None; Wire.deviceName := None |} in
  (Ok m, setServer {| Wire.r_version := v; Wire.upserts := (jset (remoteFiles w) (Wire.c_path r) m).*2;
                      Wire.deletes := Wire.deletes (server w); Wire.history_floor := None |} w).
Definition commitAt (w : World) (r : Wire.CommitRequest) : res Err Wire.FileMeta * World :=
  let current := match jget (remoteFiles w) (Wire.c_path r) with Some m => Wire.version m | None => 0%Z end in
  match Wire.c_expected r with
  | Some v => if (v =? current)%Z then accepted w r else (Throw (CommitConflictError (js "conflict")), w)
  | None => accepted w r
  end.
Definition deleted (w : World) (p : jstr) : World :=
  let v := (Wire.r_version (server w) + 1)%Z in
  setServer {| Wire.r_version := v; Wire.upserts := (jdel (remoteFiles w) p).*2;
               Wire.deletes := Wire.deletes (server w)
                 ++ [{| Wire.d_path := p; Wire.d_version := v; Wire.d_author := None; Wire.d_deviceId := None;
                        Wire.d_deviceName := None |}];
               Wire.history_floor := None |} w.
(** A file, or a folder some file is in; paths are compared exactly. *)
Definition onDisk (w : World) (p : jstr) : bool :=
  jhas (files w) p || (p === []) || existsb (λ e, starts_with e.1 (p ++ js "/")) (files w).
Definition world (w : World) (o : Op) : Ans o * World :=
  match o return Ans o * World with
  | IoList => (Ok ((λ e, (e.1, {| st_size := len e.2; st_mtime := 0 |})) <$> files w), w)
  | IoRead p => (found (jget (files w) p), w)
  | IoWrite p b => (Ok tt, setFiles (jset (files w) p b) w)
  | IoRemove p => (Ok tt, setFiles (jdel (files w) p) w)
  | IoExists p => (Ok (onDisk w p), w)
  | ApiChanges _ => (Ok (server w), w)
  | ApiFileMeta p => (Ok (jget (remoteFiles w) p), w)
  | ApiMissing hs => (Ok (filter (λ x, jhas (blobs w) x = false) hs), w)
  | ApiGetChunk x => (found (jget (blobs w) x), w)
  | ApiPutChunk x b => (Ok tt, setBlobs (jset (blobs w) x b) w)
  | ApiCommit r => commitAt w r
  | ApiDelete p _ => (Ok tt, deleted w p)
  | NowUtc => ({| Store.year := 2026; Store.month := 1; Store.day := 2; Store.hours := 3; Store.minutes := 4;
                  Store.seconds := 5 |}, w)
  | NowMs => (0%Z, w)
  | Alive => (true, w)
  | LocalSizeOf p => (match jget (files w) p with Some b => len b | None => 0%Z end, w)
  | StatOf _ => (None, w)
  | FlipHold _ _ _ => (false, w)
  | Say _ => (tt, w)
  | AppendOpen _ | AppendChunk _ _ | AppendClose _ | AppendAbort _ | Violation _ => (Ok tt, w)
  end.

Definition deps : Deps := {|
  device := js "pc"; ignorePatterns := None; excludedFolders := None; maxSyncBytes := None; readOnly := false;
  noResurrect := false; preserveLocalFirstContact := false; accepts := λ _, true; bulkDeleteStrategy := None;
  bulkDeleteThreshold := None; caseInsensitivePaths := false; normalizationInsensitivePaths := false;
  hasExists := true; hasAppend := false; hasAlive := true; hasFlip := false; hasLocalSizeOf := false;
  hasStatOf := false; hasPathWork := false; hasRemotePlugins := false |}.
Definition state (b : list (jstr * Store.BaseEntry)) : State := {|
  base := {| Store.m := b; Store.fold := None; Store.foldFs := None |}; version := 0; cache := [];
  rejected := None; ambiguous := None; budget := None;
  pass := {| connAbort := None; failed := []; pending := 0; examined := 0; signalled := false |} |}.
Definition full : Client Wire.ChangesResponse := reconcileAll id id dec id id sha deps.
Definition start (w : World) (b : list (jstr * Store.BaseEntry)) : conf State Err World := Conf w (state b) [] 0.
(** The scheduler that always lets the first runnable task go. *)
Definition greedy (n : nat) : bool := true.
Definition fair (n : nat) : bool := Nat.even n.
Definition changes_of (l : list Wire.FileMeta) (dels : list jstr) (v : Z) : Wire.ChangesResponse :=
  {| Wire.r_version := v; Wire.upserts := l;
     Wire.deletes := (λ p, {| Wire.d_path := p; Wire.d_version := v; Wire.d_author := None; Wire.d_deviceId := None;
                              Wire.d_deviceName := None |}) <$> dels;
     Wire.history_floor := None |}.

(** Both sides edited [a.md]; [new.md] is new here, [old.md] was deleted remotely
    and [gone.md] here. *)
Definition base0 : list (jstr * Store.BaseEntry) :=
  [(js "a.md", entry (sha (js "one")) (Some (js "one"))); (js "old.md", entry (sha (js "old")) (Some (js "old")));
   (js "gone.md", entry (sha (js "gone")) (Some (js "gone")))].
Definition world0 : World := {|
  files := [(js "a.md", js "mine"); (js "new.md", js "fresh"); (js "old.md", js "old")];
  server := changes_of [meta (js "a.md") (js "theirs") 4; meta (js "gone.md") (js "gone") 2] [js "old.md"] 5;
  blobs := [(sha (js "theirs"), js "theirs"); (sha (js "gone"), js "gone")] |}.
Definition final (sched : nat → bool) : World := cw (run world sched full (start world0 base0)).2.
Definition serverState (w : World) : list (jstr * jstr) := (λ m, (Wire.path m, Wire.hash m)) <$> Wire.upserts (server w).

End Demo.
