(* ===== verification/Safety.v ===== *)
(** * Safety: what every automatic reconciliation promises

    The four passes the engine runs by itself (full, delta, one path, the
    configuration scan) are safe whatever the vault, the server and the other
    workers do in between: [allowed] says what must have happened in a task's own
    history before it may overwrite, remove, upload or delete, and
    [job_safe] shows that no execution ever does otherwise.  The properties are
    its readings. *)

From S2P Require Import Prelude Jsmap Effects Paths Base Merge Decide Streamhash Chunker Protocol.
From S2P Require Import Sync Configsync Frontmatter Reconcile Pass Demo.

Module Safety.
Import One Pass.

Section Safety.
Context (nfc lowerCase : jstr → jstr) (decodeUtf8 : bytes → option jstr) (decodeLossy : bytes → jstr)
        (encodeUtf8 : jstr → bytes) (sha256hex : bytes → jstr).
(** A digest is never the empty string. *)
Context (sha_nonempty : ∀ b, sha256hex b ≠ []).
Context (d : Deps).
Implicit Types (h : History).

(** ** Evidence in a task's own history *)
Definition copyOf (p q : jstr) : Prop := ∃ when_ tag, q = Store.conflictCopyName p (device d) when_ tag.
(** The last answer a read of [p] got. *)
Definition freshRead h (p : jstr) (r : res Err bytes) : Prop :=
  ∃ h1 h2, h = h1 ++ ev (Ans := cans) (Call (IoRead p)) r :: h2 ∧
           ∀ r', ev (Ans := cans) (Call (IoRead p)) r' ∉ h2.
Definition sameNote (p : jstr) (a b : bytes) : Prop :=
  normalizedHash nfc decodeUtf8 encodeUtf8 sha256hex a (patternsFor d p)
    = normalizedHash nfc decodeUtf8 encodeUtf8 sha256hex b (patternsFor d p).
(** The content is the last-synced one, exactly or under content identity. *)
Definition synced h (p : jstr) (c : bytes) : Prop :=
  ∃ s e, saw h s ∧ Store.get (base s) p = Some e ∧
    (sha256hex c = Store.hash e ∨ ∃ t, Store.text e = Some t ∧ sameNote p c (encodeUtf8 t)).
Definition merged h (p : jstr) (c b : bytes) : Prop :=
  ∃ s e t remote, saw h s ∧ Store.get (base s) p = Some e ∧ Store.text e = Some t ∧
    let m := mergeTexts (patternsFor d p) t (decodeLossy c) (decodeLossy remote) in
    Merge3.clean m = true ∧ b = encodeUtf8 (Merge3.merged m).
(** Writing [b] (or a streamed download) over the content [c] loses nothing. *)
Definition keeps h (p : jstr) (c : bytes) (b : option bytes) : Prop :=
  synced h p c ∨ (∃ q, copyOf p q ∧ called h (IoWrite q c) (Ok tt)) ∨
  (readOnly d = true ∧ preserveLocalFirstContact d = false ∧ ∃ s, saw h s ∧ Store.get (base s) p = None) ∨
  match b with
  | Some b => c = b ∨ (sameNote p c b ∧ keysPresent d p (decodeLossy c) = keysPresent d p (decodeLossy b))
              ∨ (isMergeable decodeUtf8 p c = true ∧ Decide.sameIgnoringEol decodeLossy c b = true) ∨ merged h p c b
  | None => False
  end.
Definition kept h (p : jstr) (b : option bytes) : Prop :=
  ∃ r, freshRead h p r ∧ match r with Throw _ => True | Ok c => keeps h p c b end.
Definition heard (given : list Wire.ChangesResponse) h (r : Wire.ChangesResponse) : Prop :=
  r ∈ given ∨ ∃ n, called h (ApiChanges n) (Ok r).
Definition remoteIs (given : list Wire.ChangesResponse) h (p : jstr) (m : Wire.FileMeta) : Prop :=
  (∃ r, heard given h r ∧ jget (remoteMap (Wire.upserts r)) p = Some m) ∨ called h (ApiFileMeta p) (Ok (Some m)).
Definition remoteAbsent (given : list Wire.ChangesResponse) h (p : jstr) : Prop :=
  (∃ r, heard given h r ∧ jget (remoteMap (Wire.upserts r)) p = None) ∨ called h (ApiFileMeta p) (Ok None).
Definition tombstoned (given : list Wire.ChangesResponse) h (p : jstr) : Prop :=
  ∃ r, heard given h r ∧ p ∈ Wire.d_path <$> Wire.deletes r.
Definition gone h (p : jstr) : Prop :=
  if hasExists d then called h (IoExists p) (Ok false) else ∃ e, called h (IoRead p) (Throw e).

Section Given.
Context (given : list Wire.ChangesResponse).

(** Where a written content comes from: a verified download, the file itself, a
    clean merge, or the union of the two enabled-plugin lists. *)
Definition verified (m : Wire.FileMeta) (b : bytes) : Prop :=
  sha256hex b = Wire.hash m ∧ len b = Wire.size m.
Definition source h (p : jstr) (b : bytes) : Prop :=
  (∃ m, remoteIs given h p m ∧ verified m b) ∨ called h (IoRead p) (Ok b) ∨
  (∃ c, called h (IoRead p) (Ok c) ∧ merged h p c b) ∨ Config.isEnabledListConfig p = true.
(** A commit describes one content, which the vault holds. *)
Definition describes h (r : Wire.CommitRequest) : Prop :=
  ∃ b, (called h (IoRead (Wire.c_path r)) (Ok b) ∨ called h (IoWrite (Wire.c_path r) b) (Ok tt)) ∧
    Wire.c_hash r = sha256hex b ∧ Wire.c_size r = len b ∧ Wire.c_chunks r = Cdc.hash <$> Cdc.chunk sha256hex b.
Definition allowed h (o : Op) : Prop :=
  match o with
  | IoWrite p b =>
      (∃ q, accepts d q = true ∧ copyOf q p ∧ called h (IoRead q) (Ok b)) ∨
      (accepts d p = true ∧ source h p b ∧ (Decide.isConfig p = true ∨ kept h p (Some b)))
  | IoRemove p =>
      (∃ q b, accepts d q = true ∧ copyOf q p ∧ called h (IoWrite p b) (Ok tt)) ∨
      (accepts d p = true ∧ tombstoned given h p ∧ ∃ c, called h (IoRead p) (Ok c) ∧ synced h p c)
  | AppendOpen p | AppendChunk p _ | AppendAbort p => accepts d p = true
  | AppendClose p => accepts d p = true ∧ (Decide.isConfig p = true ∨ kept h p None)
  | ApiPutChunk _ _ => readOnly d = false
  | ApiCommit r =>
      readOnly d = false ∧ describes h r ∧
      ((∃ q, accepts d q = true ∧ copyOf q (Wire.c_path r) ∧ Wire.c_expected r = None) ∨
       (accepts d (Wire.c_path r) = true ∧ ∃ v, Wire.c_expected r = Some v ∧
          ((v = 0%Z ∧ remoteAbsent given h (Wire.c_path r)) ∨
           ∃ m, remoteIs given h (Wire.c_path r) m ∧ Wire.version m = v)))
  | ApiDelete p v =>
      readOnly d = false ∧ accepts d p = true ∧ gone h p ∧
      ∃ s e m, saw h s ∧ Store.get (base s) p = Some e ∧ remoteIs given h p m ∧
        Store.hash e = Wire.hash m ∧ v = Some (Wire.version m)
  | _ => True
  end.
(** In an interleaving the task's own history is a part of the global one. *)
Definition I h (o : Op) : Prop := ∃ h0, h0 ⊑ h ∧ allowed h0 o.
#[local] Instance I_justified : Justified I.
Proof. intros h h' o Hs (h0 & Hh & Ho). exists h0. split; [by etransitivity|done]. Qed.
Lemma I_own h o : allowed h o → I h o.
Proof. intros Ho. by exists h. Qed.

(** ** Evidence lasts *)
Lemma heard_mono h h' r : h ⊑ h' → heard given h r → heard given h' r.
Proof. intros Hs [?|[n Hn]]; [by left|right]. exists n. by eapply called_mono. Qed.
Lemma remoteIs_mono h h' p m : h ⊑ h' → remoteIs given h p m → remoteIs given h' p m.
Proof.
  intros Hs [(r & Hr & Hm)|Hc]; [left; exists r; split; [by eapply heard_mono|done]|right; by eapply called_mono].
Qed.
Lemma remoteAbsent_mono h h' p : h ⊑ h' → remoteAbsent given h p → remoteAbsent given h' p.
Proof.
  intros Hs [(r & Hr & Hm)|Hc]; [left; exists r; split; [by eapply heard_mono|done]|right; by eapply called_mono].
Qed.
Lemma tombstoned_mono h h' p : h ⊑ h' → tombstoned given h p → tombstoned given h' p.
Proof. intros Hs (r & Hr & Hp). exists r. split; [by eapply heard_mono|done]. Qed.
Lemma merged_mono h h' p c b : h ⊑ h' → merged h p c b → merged h' p c b.
Proof. intros Hs (s & e & t & rem & Hsaw & ?). exists s, e, t, rem. split; [by eapply saw_mono|done]. Qed.
Lemma source_mono h h' p b : h ⊑ h' → source h p b → source h' p b.
Proof.
  intros Hs [(m & Hm & Hv)|[Hr|[(c & Hc & Hm)|?]]].
  - left. exists m. split; [by eapply remoteIs_mono|done].
  - right; left. by eapply called_mono.
  - right; right; left. exists c. split; [by eapply called_mono|by eapply merged_mono].
  - by right; right; right.
Qed.
Lemma synced_mono h h' p c : h ⊑ h' → synced h p c → synced h' p c.
Proof. intros Hs (s & e & Hsaw & ?). exists s, e. split; [by eapply saw_mono|done]. Qed.
Lemma snoc_sub h (e : event (cmd Op State Err) cans) : h ⊑ h ++ [e].
Proof. by apply sublist_inserts_r. Qed.
Lemma keeps_mono h h' p c b : h ⊑ h' → keeps h p c b → keeps h' p c b.
Proof.
  intros Hs [H|[(q & Hq & Hc)|[H|H]]].
  - left. by eapply synced_mono.
  - right; left. exists q. split; [done|by eapply called_mono].
  - right; right; left. destruct H as (? & ? & s & Hsaw & ?). split_and!; [done..|].
    exists s. split; [by eapply saw_mono|done].
  - right; right; right. destruct b as [b|]; [|done].
    destruct H as [?|[?|[?|?]]]; [by left|by right; left|by right; right; left|].
    right; right; right. by eapply merged_mono.
Qed.
Lemma fresh_now h p r : freshRead (h ++ [ev (Ans := cans) (Call (IoRead p)) r]) p r.
Proof. exists h, []. split; [done|]. intros r'. apply not_elem_of_nil. Qed.
Lemma fresh_snoc h p r c x :
  freshRead h p r → c ≠ Call (IoRead p) → freshRead (h ++ [ev (Ans := cans) c x]) p r.
Proof.
  intros (h1 & h2 & -> & Hno) Hc. exists h1, (h2 ++ [ev (Ans := cans) c x]). split; [by rewrite <- app_assoc|].
  intros r'. rewrite elem_of_app, list_elem_of_singleton. intros [Hin|Heq]; [by apply (Hno r')|].
  apply Hc. by apply (f_equal (projT1 (P := cans))) in Heq.
Qed.

(** ** Code that only asks and reports *)
Definition Neutral {A} (m : io (cmd Op State Err) cans A) : Prop :=
  ∀ h (Q : A → History → Prop), (∀ r h', h ⊑ h' → Q r h') → safe I m Q h.
Definition quiet (o : Op) : Prop :=
  match o with
  | IoWrite _ _ | IoRemove _ | AppendOpen _ | AppendChunk _ _ | AppendClose _ | AppendAbort _
  | ApiPutChunk _ _ | ApiCommit _ | ApiDelete _ _ => False
  | _ => True
  end.
Lemma quiet_I h o : quiet o → I h o.
Proof. intros Hq. apply I_own. by destruct o. Qed.
Lemma neutral_ret {A} (a : A) : Neutral (mret' a).
Proof. intros h Q HQ. apply safe_ret, HQ. done. Qed.
Lemma neutral_throw {A} e : Neutral (throw (A := A) e).
Proof. intros h Q HQ. apply safe_throw, HQ. done. Qed.
Lemma neutral_bind {A B} (m : Client A) (f : A → Client B) :
  Neutral m → (∀ a, Neutral (f a)) → Neutral (bindM m f).
Proof.
  intros Hm Hf h Q HQ. apply safe_bind, Hm. intros [a|e] h' Hs _; [|by apply HQ].
  apply Hf. intros r h'' Hs'. apply HQ. by etransitivity.
Qed.
Lemma neutral_try {A} (m : Client A) f : Neutral m → (∀ e, Neutral (f e)) → Neutral (try_catch m f).
Proof.
  intros Hm Hf h Q HQ. apply safe_try, Hm. intros [a|e] h' Hs _; [by apply HQ|].
  apply Hf. intros r h'' Hs'. apply HQ. by etransitivity.
Qed.
Lemma neutral_do (c : cmd Op State Err) : (∀ h, lift I h c) → Neutral (do c).
Proof. intros Hc h Q HQ. apply safe_do; [done|]. intros r. apply HQ, snoc_sub. Qed.
Lemma neutral_call o : quiet o → Neutral (call (E := Err) (S := State) o).
Proof. intros Ho. apply (neutral_do (Call o)). intros h. by apply quiet_I. Qed.
Lemma neutral_await {A} o (view : Ans o → res Err A) : quiet o → Neutral (await o view).
Proof. intros Ho h Q HQ. apply safe_callE; [by apply quiet_I|]. intros r h' Hs _. by apply HQ. Qed.
Lemma neutral_get : Neutral (getS (E := Err) (Op := Op) (Ans := Ans) (S := State)).
Proof. by apply (neutral_do (Upd id)). Qed.
Lemma neutral_gets {A} (f : State → A) : Neutral (gets f : Client A).
Proof. apply neutral_bind; [apply neutral_get|intros; apply neutral_ret]. Qed.
Lemma neutral_modify f : Neutral (modify f : Client unit).
Proof. apply neutral_bind; [by apply (neutral_do (Upd f))|intros; apply neutral_ret]. Qed.
Lemma neutral_say n : Neutral (say n).
Proof. apply neutral_bind; [by apply neutral_call|intros; apply neutral_ret]. Qed.
Lemma neutral_read p : Neutral (read p).
Proof. by apply neutral_await. Qed.
Lemma neutral_readOrNull p : Neutral (readOrNull p).
Proof.
  apply neutral_try; [|intros; apply neutral_ret].
  apply neutral_bind; [apply neutral_read|intros; apply neutral_ret].
Qed.
Lemma neutral_for_each {A} (l : list A) (f : A → Client unit) : (∀ x, Neutral (f x)) → Neutral (for_each l f).
Proof. intros Hf. induction l as [|x l IH]; [apply neutral_ret|]. by apply neutral_bind. Qed.
Lemma neutral_map_each {A B} (l : list A) (f : A → Client B) : (∀ x, Neutral (f x)) → Neutral (map_each l f).
Proof.
  intros Hf. induction l as [|x l IH]; [apply neutral_ret|]. apply neutral_bind; [done|].
  intros y. apply neutral_bind; [done|]. intros ys. apply neutral_ret.
Qed.

(** ** The pool: safe when each item's task is *)
Lemma safe_worker {A R} (items : list A) (f : A → nat → Client R) id fuel acc h :
  (∀ x i h', x ∈ items → h ⊑ h' → safe I (f x i) (λ _ _, True) h') →
  safe I (Transfer.worker items f id fuel acc) (λ _ _, True) h.
Proof.
  revert acc h. induction fuel as [|fuel IH]; intros acc h Hf; [done|]. cbn [Transfer.worker].
  apply safe_bind, (safe_do I (NextItem id)); [done|]. intros [i aborted] Hs.
  destruct (items !! i) as [x|] eqn:Hx; [|done]. destruct aborted; [done|].
  apply safe_bind, safe_try.
  eapply safe_mono; [|apply Hf; [by eapply list_elem_of_lookup_2|done]].
  intros [r|e] h' Hs' _ Hs''.
  - intros _. apply IH. intros y j h'' Hy Hsub. apply Hf; [done|]. etransitivity; [exact Hs|]. by etransitivity.
  - apply safe_bind, (safe_do I (StopPool id e)); [done|]. intros r _. by apply safe_throw.
Qed.
Lemma safe_mapPool {A R} (items : list A) (f : A → nat → Client R) limit h (Q : res Err (list R) → History → Prop) :
  (∀ x i h', x ∈ items → h ⊑ h' → safe I (f x i) (λ _ _, True) h') →
  (∀ r h', h ⊑ h' → Q r h') → safe I (Transfer.mapPool items f limit) Q h.
Proof.
  intros Hf HQ. unfold Transfer.mapPool. apply safe_bind, (safe_do I NewPool); [done|]. intros id Hs.
  unfold safe. apply wp_bind. eapply (safe_mono I); [|apply safe_par_list; [apply I_justified|]].
  - intros rs h' Hs' _. destruct (Transfer.firstThrow rs); [|apply safe_ret, HQ; by etransitivity].
    apply safe_bind, (safe_do I (PoolError id)); [done|]. intros fst_ _. apply safe_throw, HQ.
    etransitivity; [exact Hs|]. etransitivity; [exact Hs'|apply snoc_sub].
  - apply Forall_replicate, safe_worker. intros x i h' Hx Hsub. apply Hf; [done|]. by etransitivity.
Qed.
Lemma neutral_mapPool {A R} (items : list A) (f : A → nat → Client R) limit :
  (∀ x i, Neutral (f x i)) → Neutral (Transfer.mapPool items f limit).
Proof. intros Hf h Q HQ. apply safe_mapPool; [|done]. intros x i h' _ _. by apply Hf. Qed.

Lemma neutral_getVerifiedChunk hash : Neutral (Transfer.getVerifiedChunk sha256hex hash).
Proof.
  apply neutral_bind; [apply neutral_gets|]. intros [b|]; [apply neutral_ret|].
  apply neutral_bind; [by apply neutral_await|]. intros b. destruct (negb _); [apply neutral_throw|].
  apply neutral_bind; [apply neutral_modify|intros; apply neutral_ret].
Qed.
Lemma safe_fetchVerified m h (Q : res Err bytes → History → Prop) :
  (∀ b h', h ⊑ h' → verified m b → Q (Ok b) h') → (∀ e h', h ⊑ h' → Q (Throw e) h') →
  safe I (fetchVerified sha256hex m) Q h.
Proof.
  intros HO HT. apply safe_bind.
  assert (Hn : Neutral (Transfer.fetchFileBytes sha256hex (Wire.chunks m))).
  { apply neutral_bind; [|intros; apply neutral_ret]. apply neutral_mapPool. intros; apply neutral_getVerifiedChunk. }
  apply Hn. intros [b|e] h' Hs _; [|by apply HT]. cbv zeta.
  destruct (negb _) eqn:H1; [by apply safe_throw, HT|]. destruct (negb (_ =? _)%Z) eqn:H2; [by apply safe_throw, HT|].
  apply safe_ret, HO; [done|]. apply negb_false_iff in H1, H2. split; [by apply jeq_true|by apply Z.eqb_eq].
Qed.
Lemma neutral_setBase p b x : Neutral (setBase decodeUtf8 decodeLossy p b x).
Proof. apply neutral_bind; [apply neutral_modify|intros; apply neutral_say]. Qed.

(** ** Uploads *)
Definition mayCommit h (p : jstr) (v : option Z) : Prop :=
  readOnly d = false ∧
  ((∃ q, accepts d q = true ∧ copyOf q p ∧ v = None) ∨
   (accepts d p = true ∧ ∃ n, v = Some n ∧
      ((n = 0%Z ∧ remoteAbsent given h p) ∨ ∃ m, remoteIs given h p m ∧ Wire.version m = n))).
Lemma mayCommit_mono h h' p v : h ⊑ h' → mayCommit h p v → mayCommit h' p v.
Proof.
  intros Hs [Hro [H|(Ha & n & Hn & Hv)]]; (split; [done|]); [by left|right].
  split; [done|]. exists n. split; [done|]. destruct Hv as [[? ?]|(m & Hm & ?)]; [left; split; [done|by eapply remoteAbsent_mono]|right].
  exists m. split; [by eapply remoteIs_mono|done].
Qed.
Definition onDisk h (p : jstr) (b : bytes) : Prop := called h (IoRead p) (Ok b) ∨ called h (IoWrite p b) (Ok tt).
Lemma safe_commitBytes p b v h (Q : res Err Transfer.PushResult → History → Prop) :
  onDisk h p b → mayCommit h p v → (∀ r h', h ⊑ h' → Q r h') → safe I (Transfer.commitBytes sha256hex p b v) Q h.
Proof.
  intros Hd Hc HQ. unfold Transfer.commitBytes. cbv zeta.
  apply safe_bind, neutral_modify. intros [_|e] h1 Hs1 _; [|by apply HQ].
  apply safe_bind. apply neutral_map_each; [intros; by apply neutral_await|].
  intros [answers|e] h2 Hs2 _; [|apply HQ; by etransitivity].
  apply safe_bind, safe_mapPool.
  { intros x i h' _ _. apply safe_callE; [|done]. apply I_own. apply Hc. }
  intros [u|e] h3 Hs3 _; [|apply HQ; by repeat (etransitivity; [done|])].
  assert (Hs : h ⊑ h3) by (by repeat (etransitivity; [done|])).
  apply safe_bind, neutral_call; [done|]. intros [now|e] h4 Hs4 _; [|apply HQ; by etransitivity].
  apply safe_bind, safe_callE.
  { apply I_own. assert (Hsub : h ⊑ h4) by (by etransitivity).
    split; [apply Hc|]. split; [|by apply (mayCommit_mono h)]. exists b. split; [|done].
    destruct Hd; [left|right]; by eapply called_mono. }
  intros [m|e] h5 Hs5 _ _; [apply safe_ret|]; apply HQ; etransitivity; [exact Hs| |exact Hs|]; by etransitivity.
Qed.
Lemma safe_pushBytes p b v h (Q : res Err Transfer.PushResult → History → Prop) :
  I h (IoWrite p b) → mayCommit h p v → (∀ r h', h ⊑ h' → Q r h') → safe I (Transfer.pushBytes sha256hex p b v) Q h.
Proof.
  intros Hw Hc HQ. apply safe_bind, safe_callE; [done|].
  intros [[]|e] h' Hs Hw' _; [|by apply HQ].
  apply safe_commitBytes; [by right|by eapply mayCommit_mono|]. intros r h'' Hs'. apply HQ. by etransitivity.
Qed.
Lemma safe_pushFile p v h (Q : res Err Transfer.PushResult → History → Prop) :
  mayCommit h p v → (∀ r h', h ⊑ h' → Q r h') → safe I (Transfer.pushFile sha256hex p v) Q h.
Proof.
  intros Hc HQ. apply safe_bind, safe_callE; [by apply quiet_I|]. intros [b|e] h' Hs Hr _; [|by apply HQ].
  apply safe_commitBytes; [by left|by eapply mayCommit_mono|]. intros r h'' Hs'. apply HQ. by etransitivity.
Qed.

(** ** Steps that keep the evidence of a fresh read *)
Definition later h h' : Prop := h ⊑ h' ∧ ∀ p r, freshRead h p r → freshRead h' p r.
Lemma later_refl h : later h h.
Proof. by split. Qed.
Lemma later_trans h1 h2 h3 : later h1 h2 → later h2 h3 → later h1 h3.
Proof. intros [Hs1 Hk1] [Hs2 Hk2]. split; [by etransitivity|]. intros p b Hk. by apply Hk2, Hk1. Qed.
Definition reads (c : cmd Op State Err) : Prop := match c with Call (IoRead _) => True | _ => False end.
Lemma later_snoc h c x : ¬ reads c → later h (h ++ [ev (Ans := cans) c x]).
Proof.
  intros Hc. split; [apply snoc_sub|]. intros p r Hk. apply fresh_snoc; [done|]. by intros ->.
Qed.
Lemma kept_later h h' p b : later h h' → kept h p b → kept h' p b.
Proof.
  intros [Hs Hf] (r & Hr & Hk). exists r. split; [by apply Hf|]. destruct r; [|done]. by eapply keeps_mono.
Qed.
Definition Steady {A} (m : io (cmd Op State Err) cans A) : Prop :=
  ∀ h (Q : A → History → Prop), (∀ r h', later h h' → Q r h') → safe I m Q h.
Lemma steady_ret {A} (a : A) : Steady (mret' a).
Proof. intros h Q HQ. apply safe_ret, HQ, later_refl. Qed.
Lemma steady_bind {A B} (m : Client A) (f : A → Client B) :
  Steady m → (∀ a, Steady (f a)) → Steady (bindM m f).
Proof.
  intros Hm Hf h Q HQ. apply safe_bind, Hm. intros [a|e] h' Hl _; [|by apply HQ].
  apply Hf. intros r h'' Hl'. apply HQ. by eapply later_trans.
Qed.
Lemma steady_do (c : cmd Op State Err) : (∀ h, lift I h c) → ¬ reads c → Steady (do c).
Proof. intros Hc Hr h Q HQ. apply safe_do; [done|]. intros r. by apply HQ, later_snoc. Qed.
Lemma steady_call o : quiet o → ¬ reads (Call o) → Steady (call (E := Err) (S := State) o).
Proof. intros Ho Hr. apply (steady_do (Call o)); [|done]. intros h. by apply quiet_I. Qed.
Lemma steady_say n : Steady (say n).
Proof. apply steady_bind; [by apply steady_call; [|intros []]|intros; apply steady_ret]. Qed.
Lemma steady_flipHeld p hash b : Steady (flipHeld d p hash b).
Proof.
  unfold flipHeld. destruct (hasFlip d); [|apply steady_ret].
  apply steady_bind; [by apply steady_call; [|intros []]|]. intros [|]; [|apply steady_ret].
  apply steady_bind; [apply steady_say|intros; apply steady_ret].
Qed.
Lemma steady_neutral {A} (m : Client A) : Steady m → Neutral m.
Proof. intros Hm h Q HQ. apply Hm. intros r h' [Hs _]. by apply HQ. Qed.

(** A read: its answer is fresh, whatever it was. *)
Lemma safe_readOrNull p h (Q : res Err (option bytes) → History → Prop) :
  (∀ b h', h ⊑ h' → freshRead h' p (Ok b) → called h' (IoRead p) (Ok b) → Q (Ok (Some b)) h') →
  (∀ e h', h ⊑ h' → freshRead h' p (Throw e) → called h' (IoRead p) (Throw e) → Q (Ok None) h') →
  safe I (readOrNull p) Q h.
Proof.
  intros HS HN. apply safe_try, safe_bind. split; [by apply quiet_I|].
  intros [b|e] _ _; [apply HS|apply (HN e)]; try apply snoc_sub; try apply fresh_now; apply called_snoc.
Qed.
Lemma unread_kept h p e b : freshRead h p (Throw e) → kept h p b.
Proof. intros Hf. by exists (Throw e). Qed.
Lemma read_kept h p c b : freshRead h p (Ok c) → keeps h p c b → kept h p b.
Proof. intros Hf Hk. by exists (Ok c). Qed.

(** Chains of history extensions. *)
Ltac sub :=
  first
    [ assumption | reflexivity
    | match goal with
      | H : ?h ⊑ ?h1 |- ?h ⊑ _ => etransitivity; [exact H|clear H; sub]
      | H : later ?h ?h1 |- ?h ⊑ _ => etransitivity; [apply H|clear H; sub]
      end ].

(** ** Effects on one path *)
Definition fine {A} : A → History → Prop := λ _ _, True.
Lemma neutral_fine {A} (m : io (cmd Op State Err) cans A) h : Neutral m → safe I m fine h.
Proof. intros Hm. by apply Hm. Qed.
Lemma safe_then {A B} (m : Client A) (f : A → Client B) h :
  Neutral m → (∀ a h', h ⊑ h' → safe I (f a) fine h') → safe I (bindM m f) fine h.
Proof. intros Hm Hf. apply safe_bind, Hm. intros [a|e] h' Hs _; [by apply Hf|done]. Qed.
Lemma safe_steady {A B} (m : Client A) (f : A → Client B) h :
  Steady m → (∀ a h', later h h' → safe I (f a) fine h') → safe I (bindM m f) fine h.
Proof. intros Hm Hf. apply safe_bind, Hm. intros [a|e] h' Hs _; [by apply Hf|done]. Qed.

Section OnePath.
Context (path : jstr) (Hacc : accepts d path = true).
Definition mine h b : Prop := Decide.isConfig path = true ∨ kept h path b.

Lemma safe_write b h (Q : res Err unit → History → Prop) :
  source h path b → mine h (Some b) → (∀ r h', h ⊑ h' → Q r h') → safe I (write path b) Q h.
Proof using Hacc.
  intros Hsrc Hk HQ. apply safe_callE; [|by intros r h' Hs _; apply HQ]. apply I_own. by right.
Qed.
(** Saving the content just read under a conflict-copy name. *)
Lemma safe_writeCopy when_ tag c h (Q : res Err unit → History → Prop) :
  let copy := Store.conflictCopyName path (device d) when_ tag in
  called h (IoRead path) (Ok c) →
  (∀ e h', later h h' → Q (Throw e) h') →
  (∀ h', later h h' → called h' (IoWrite copy c) (Ok tt) → Q (Ok tt) h') →
  safe I (write copy c) Q h.
Proof using Hacc.
  intros copy Hread HT HO. split; [apply I_own; left; exists path; split_and!; [done|by exists when_, tag|done]|].
  intros [[]|e]; [apply HO; [|apply called_snoc]|apply HT]; apply later_snoc; intros [].
Qed.
Lemma safe_conflictCopyIfRaced expect h (Q : res Err RaceOutcome → History → Prop) :
  (∀ c, expect = Some (sha256hex c) → synced h path c) →
  (∀ e h', h ⊑ h' → Q (Throw e) h') →
  (∀ h', h ⊑ h' → Q (Ok RConfigRace) h') →
  (∀ h', h ⊑ h' → (∀ b, kept h' path b) → Q (Ok RNone_) h') →
  (∀ q h', h ⊑ h' → (∀ b, kept h' path b) → copyOf path q → (∃ b, called h' (IoWrite q b) (Ok tt)) →
     Q (Ok (RCopy q)) h') →
  safe I (conflictCopyIfRaced nfc decodeUtf8 encodeUtf8 sha256hex d path expect) Q h.
Proof using Hacc.
  intros Hexp HT HR HN HC. apply safe_bind, safe_readOrNull; last first.
  { intros e h' Hs Hf _ _. apply HN; [done|]. intros b. by eapply unread_kept. }
  intros c h1 Hs1 Hf Hread _. cbv zeta. case_bool_decide as Hx.
  { apply safe_ret, HN; [done|]. intros b. eapply read_kept; [done|]. left. eapply synced_mono; [done|by apply Hexp]. }
  apply safe_bind. split; [done|]. intros s _.
  set (h2 := h1 ++ [ev (Upd id) s]).
  assert (Hl2 : later h1 h2) by (apply later_snoc; intros []).
  assert (Hs2 : h ⊑ h2) by (etransitivity; [exact Hs1|apply Hl2]).
  assert (Hsaw : saw h2 s) by apply saw_snoc.
  destruct (negb _ && _ && _) eqn:Hid.
  { apply safe_ret, HN; [done|]. intros b.
    assert (Hk : keeps h2 path c b).
    { left. apply andb_true_iff in Hid as [_ Hid]. unfold baseNormHash in Hid.
      destruct (Store.get (base s) path) as [e|] eqn:He; [|done].
      destruct (Store.text e) as [t|] eqn:Ht; [|done]. simpl in Hid. apply jeq_true in Hid.
      exists s, e. split_and!; [done..|]. right. by exists t. }
    eapply read_kept; [by apply fresh_snoc|done]. }
  destruct (Decide.isConfig path).
  { apply safe_bind, neutral_say. intros [u|e] h3 Hs3 _; [apply safe_ret, HR|apply HT]; sub. }
  apply safe_bind, steady_call; [done|intros []|]. intros [now|e] h3 Hl3 _; last first.
  { apply HT. sub. }
  apply safe_bind, safe_writeCopy.
  { eapply called_mono, Hread. sub. }
  { intros e h4 Hl4 _. apply HT. sub. }
  intros h4 Hl4 Hw _. apply safe_bind, steady_say. intros [u|e] h5 Hl5 _; [|apply HT; sub].
  assert (Hw5 : called h5 (IoWrite (Store.conflictCopyName path (device d) now (take 6 (sha256hex c))) c) (Ok tt))
    by (eapply called_mono, Hw; apply Hl5).
  apply safe_ret, HC; [sub| |by eexists _, _|by exists c].
  intros b. eapply read_kept.
  - apply Hl5, Hl4, Hl3, Hl2, Hf.
  - right; left. eexists. split; [by eexists _, _|exact Hw5].
Qed.

Lemma safe_bufferedPull m expect h :
  remoteIs given h path m →
  (∀ c, expect = Some (sha256hex c) → synced h path c) →
  safe I (bufferedPull nfc decodeUtf8 decodeLossy encodeUtf8 sha256hex d path m expect true) fine h.
Proof using Hacc.
  intros Hm Hexp. apply safe_bind, safe_fetchVerified; [|done]. intros b h1 Hs1 Hv _. cbv iota.
  assert (Hlast : ∀ h2 race, h1 ⊑ h2 →
    (∀ b, kept h2 path b) → (∀ q, race = RCopy q → copyOf path q ∧ ∃ b, called h2 (IoWrite q b) (Ok tt)) →
    safe I (try_catch (write path b)
      (λ e, (match race with RCopy c => try_catch (remove c) (λ _, mret' tt) | _ => mret' tt end) ;; throw e) ;;
      setBase decodeUtf8 decodeLossy path b (Wire.hash m)) fine h2).
  { intros h2 race Hs2 Hk Hr. apply safe_bind, safe_try, safe_write; [|by right|].
    { left. exists m. split; [eapply remoteIs_mono, Hm; sub|done]. }
    intros [u|e] h3 Hs3 _; [intros _; by apply neutral_setBase|].
    apply safe_bind. destruct race as [| |q]; [by apply safe_ret; intros _; apply safe_throw..|].
    destruct (Hr q eq_refl) as [Hq [b' Hb']].
    apply safe_try, safe_callE.
    { apply I_own. left. exists path, b'. split_and!; [done..|]. by eapply called_mono. }
    intros [u|e'] h4 _ _ _; [|apply safe_ret]; intros _; by apply safe_throw. }
  apply safe_bind, safe_conflictCopyIfRaced; [|by intros..| |].
  - intros c Hc. eapply synced_mono; [done|by apply Hexp].
  - intros h2 Hs2 Hk _. by apply (Hlast h2 RNone_ Hs2).
  - intros q h2 Hs2 Hk Hq Hw _. apply (Hlast h2 (RCopy q) Hs2); [done|]. by intros ? [= <-].
Qed.

Lemma safe_streamChunks chunks written hasher h (Q : res Err (Z * Sha.Sha256) → History → Prop) :
  (∀ r h', h ⊑ h' → Q r h') → safe I (Transfer.streamChunks sha256hex path chunks written hasher) Q h.
Proof using Hacc.
  revert written hasher h. induction chunks as [|c chunks IH]; intros written hasher h HQ; [by apply safe_ret, HQ|].
  apply safe_bind, neutral_getVerifiedChunk. intros [b|e] h1 Hs1 _; [|by apply HQ].
  apply safe_bind, safe_callE; [by apply I_own|]. intros [u|e] h2 Hs2 _ _; [|apply HQ; sub].
  destruct (Sha.update hasher b); [|apply safe_throw, HQ; sub].
  apply IH. intros r h3 Hs3. apply HQ. sub.
Qed.
(** A streamed download replaces the file only after the seam agreed. *)
Lemma safe_streamFileToDisk chunks size hash seam h (Q : res Err bool → History → Prop) :
  (∀ h0 (K : res Err unit → History → Prop), h ⊑ h0 →
     (∀ e h', h0 ⊑ h' → K (Throw e) h') → (∀ h', h0 ⊑ h' → mine h' None → K (Ok tt) h') →
     safe I seam K h0) →
  (∀ r h', h ⊑ h' → Q r h') →
  safe I (Transfer.streamFileToDisk sha256hex (hasAppend d) path chunks size hash (Some seam)) Q h.
Proof using Hacc.
  intros Hseam HQ. unfold Transfer.streamFileToDisk. destruct (negb _); [by apply safe_ret, HQ|].
  apply safe_bind, safe_callE; [by apply I_own|]. intros [u|e] h1 Hs1 _ _; [|by apply HQ].
  apply safe_try.
  assert (Hend : ∀ e h', h ⊑ h' →
    safe I (try_catch (await (AppendAbort path) id) (λ _, mret' tt) ;; throw e) Q h').
  { intros e h' Hs. apply safe_bind, safe_try, safe_callE; [by apply I_own|].
    intros [u'|e'] h'' Hs'' _ _; [|apply safe_ret]; intros _; apply safe_throw, HQ; sub. }
  apply safe_bind, safe_streamChunks.
  intros [[written hasher]|e] h2 Hs2 _; [|intros _; apply Hend; sub].
  destruct (negb _); [apply safe_throw; intros _; apply Hend; sub|].
  destruct (Sha.hexDigest hasher) as [[got st]|]; [|apply safe_throw; intros _; apply Hend; sub].
  destruct (negb _); [apply safe_throw; intros _; apply Hend; sub|].
  apply safe_bind, Hseam; [sub|intros e h3 Hs3 _ _; apply Hend; sub|]. intros h3 Hs3 Hk _.
  apply safe_bind, safe_callE; [by apply I_own|].
  intros [u'|e] h4 Hs4 _ _; [apply safe_ret; intros _; apply HQ; sub|intros _; apply Hend; sub].
Qed.
Lemma safe_applyPull m expect h :
  remoteIs given h path m →
  (∀ c, expect = Some (sha256hex c) → synced h path c) →
  safe I (applyPull nfc decodeUtf8 decodeLossy encodeUtf8 sha256hex d path m expect true) fine h.
Proof using Hacc.
  intros Hm Hexp. apply safe_then; [destruct (starts_with _ _); [apply neutral_say|apply neutral_ret]|].
  intros _ h1 Hs1. destruct (_ && _) eqn:Hbig; last first.
  { apply safe_bufferedPull; [by eapply remoteIs_mono|]. intros c Hc. eapply synced_mono; [done|by apply Hexp]. }
  apply safe_bind, safe_try, safe_bind, safe_streamFileToDisk.
  - intros h0 K Hs0 HT HO. apply safe_bind, safe_conflictCopyIfRaced.
    + intros c Hc. eapply synced_mono, Hexp, Hc. sub.
    + intros e h' Hs _. by apply HT.
    + intros h' Hs _. by apply safe_throw, HT.
    + intros h' Hs Hk _. apply safe_ret, HO; [done|by right].
    + intros q h' Hs Hk _ _ _. apply safe_ret, HO; [done|by right].
  - intros [ok|e] h2 Hs2 _; [|intros _; destruct e; by apply safe_throw || by apply safe_ret].
    apply safe_bind.
    assert (Hn : Neutral (whenM ok then (baseSet path (entry (Wire.hash m) None) ;; say NBaseChanged))).
    { destruct ok; [|apply neutral_ret]. apply neutral_bind; [apply neutral_modify|intros; apply neutral_say]. }
    apply Hn. intros [u|e] h3 Hs3 _; [|intros _; destruct e; by apply safe_throw || by apply safe_ret].
    apply safe_ret. intros _ _. destruct ok; [by apply safe_ret|].
    apply safe_bufferedPull; [eapply remoteIs_mono, Hm; sub|]. intros c Hc. eapply synced_mono, Hexp, Hc. sub.
Qed.

Lemma safe_adoptRemote b m h :
  remoteIs given h path m → verified m b → mine h (Some b) → safe I (adoptRemote decodeUtf8 decodeLossy path b m) fine h.
Proof using Hacc.
  intros Hm Hv Hk. apply safe_bind, safe_write; [left; by exists m|done|]. intros [u|e] h' Hs _; [by apply neutral_setBase|done].
Qed.
Lemma safe_upload b v h (K : Transfer.PushResult → Client unit) :
  source h path b → mine h (Some b) → mayCommit h path v → (∀ r, Neutral (K r)) →
  safe I (bindM (Transfer.pushBytes sha256hex path b v) K) fine h.
Proof using Hacc.
  intros Hsrc Hk Hc HK. apply safe_bind, safe_pushBytes; [by apply I_own; right|done|].
  intros [r|e] h' Hs _; [by apply HK|done].
Qed.
Lemma mayCommit_remote h m :
  readOnly d = false → remoteIs given h path m → mayCommit h path (Some (Wire.version m)).
Proof using Hacc.
  intros Hro Hm. split; [done|]. right. split; [done|]. eexists. split; [done|]. right. by exists m.
Qed.
Lemma neutral_setBaseOf r : Neutral (setBase decodeUtf8 decodeLossy path (Transfer.pr_bytes r) (Transfer.pr_hash r)).
Proof. apply neutral_setBase. Qed.

Lemma safe_enabledPluginList m action onWork h (Q : res Err bool → History → Prop) :
  Decide.isConfig path = true → Config.isEnabledListConfig path = true → remoteIs given h path m → Neutral onWork →
  (∀ r h', h ⊑ h' → Q r h') →
  safe I (reconcileEnabledPluginList decodeUtf8 decodeLossy encodeUtf8 sha256hex d path m action onWork) Q h.
Proof using Hacc.
  intros Hcfg Hlist Hm Hw HQ. unfold reconcileEnabledPluginList. destruct (negb _); [by apply safe_ret, HQ|].
  apply safe_bind, safe_fetchVerified; [|by intros; apply HQ]. intros rb h1 Hs1 _ _. cbv zeta.
  apply safe_bind, neutral_readOrNull. intros [live|e] h2 Hs2 _; [|apply HQ; sub].
  destruct (Config.mergeEnabledPluginsJson _ _) as [mg|]; [|apply safe_ret, HQ; sub].
  apply safe_bind, Hw. intros [u|e] h3 Hs3 _; [|apply HQ; sub].
  apply safe_bind, neutral_say. intros [u'|e] h4 Hs4 _; [|apply HQ; sub].
  apply safe_bind.
  set (P := λ (r : res Err unit) h', h4 ⊑ h' → match r with
    | Ok _ => safe I (say (NConfigResolved path) ;; mret' true) Q h' | Throw e => Q (Throw e) h' end).
  assert (HP : ∀ r h', h4 ⊑ h' → P r h').
  { intros [u''|e] h' Hs _; [|apply HQ; sub]. apply safe_bind, neutral_say.
    intros [u3|e] h'' Hs'' _; [apply safe_ret|]; apply HQ; sub. }
  assert (Hwr : ∀ b h', mine h' (Some b)) by (by left).
  assert (Hsrc : ∀ b h', source h' path b) by (by right; right; right).
  destruct (negb _).
  - apply safe_bind, safe_write; [done..|]. intros [u''|e] h5 Hs5 _; [|by apply HP].
    apply neutral_setBase. intros r h6 Hs6. apply HP. sub.
  - apply safe_bind, safe_write; [done..|]. intros [u''|e] h5 Hs5 _; [|by apply HP].
    destruct (readOnly d) eqn:Hro; [apply neutral_setBase; intros r h6 Hs6; apply HP; sub|].
    apply safe_bind, safe_pushBytes; [by apply I_own; right; split_and!; [|apply Hsrc|apply Hwr]|apply mayCommit_remote; [done|eapply remoteIs_mono, Hm; sub]|].
    intros [r|e] h6 Hs6 _; [|apply HP; sub]. apply neutral_setBase. intros r' h7 Hs7. apply HP. sub.
Qed.

(** ** Merging *)
Lemma earlyMerge_sound action be live rb :
  match earlyMerge nfc decodeUtf8 decodeLossy encodeUtf8 sha256hex d path action be live rb with
  | TakeRemote =>
      (sameNote path live rb ∧ keysPresent d path (decodeLossy live) = keysPresent d path (decodeLossy rb)) ∨
      ∃ e t, be = Some e ∧ Store.text e = Some t ∧ sameNote path live (encodeUtf8 t)
  | PushLocal => readOnly d = false
  | NoShortcut => True
  end.
Proof.
  unfold earlyMerge. destruct (_ && _); [|done]. cbv zeta. destruct (_ && _) eqn:H1.
  { apply andb_true_iff in H1 as [H1 H2]. apply jeq_true in H1, H2. by left. }
  destruct action, be as [e|]; try done. unfold baseNormHash. destruct (Store.text e) as [t|] eqn:Ht; [|done].
  simpl. destruct (_ && _ && _) eqn:H2.
  { apply andb_true_iff in H2 as [[H2 _]%andb_true_iff _]. apply jeq_true in H2. right. by exists e, t. }
  destruct (_ && _ && _ && _) eqn:H3; [|done].
  apply andb_true_iff in H3 as [[_ H3]%andb_true_iff _]. by destruct (readOnly d).
Qed.

(** What [mergeLive] may write over the content it was given. *)
Definition merging h (be : option Store.BaseEntry) : Prop := ∃ s, saw h s ∧ Store.get (base s) path = be.
Lemma merging_mono h h' be : h ⊑ h' → merging h be → merging h' be.
Proof. intros Hs (s & Hsaw & Hg). exists s. split; [by eapply saw_mono|done]. Qed.
(** Keep the live content as a conflict copy, then take the remote one. *)
Lemma safe_keepCopy m live rb tag h (K : jstr → Client unit) :
  called h (IoRead path) (Ok live) → remoteIs given h path m → verified m rb →
  (∀ h', later h h' → keeps h' path live (Some rb) → mine h' (Some rb)) →
  (∀ copy h', copyOf path copy → safe I (K copy) fine h') →
  safe I
    (let* now := call NowUtc in
     let copy := Store.conflictCopyName path (device d) now tag in
     write copy live ;; say (NConflict path copy) ;; write path rb ;; K copy) fine h.
Proof using Hacc.
  intros Hread Hm Hv Hmine HK. apply safe_steady; [apply steady_call; [done|intros []]|]. intros now h1 Hl1. cbv zeta.
  apply safe_bind, safe_writeCopy; [eapply called_mono, Hread; apply Hl1|done|].
  intros h2 Hl2 Hw _. apply safe_steady; [apply steady_say|]. intros _ h3 Hl3.
  assert (Hw' : called h3 (IoWrite (Store.conflictCopyName path (device d) now tag) live) (Ok tt))
    by (eapply called_mono, Hw; apply Hl3).
  apply safe_bind, safe_write.
  - left. exists m. split; [eapply remoteIs_mono, Hm; sub|done].
  - apply Hmine; [by eapply later_trans, later_trans|].
    right; left. eexists. split; [by eexists _, _|exact Hw'].
  - intros [u|e] h4 _ _; [|done]. apply HK. by eexists _, _.
Qed.
Lemma safe_mergeLive m action be rb live h :
  verified m rb → remoteIs given h path m → merging h be →
  action = Decide.Merge ∨ (action = Decide.ConflictCopy ∧ be = None) →
  called h (IoRead path) (Ok live) →
  (∀ h' b, later h h' → keeps h' path live (Some b) → mine h' (Some b)) →
  safe I (mergeLive nfc decodeUtf8 decodeLossy encodeUtf8 sha256hex d path m action be rb live) fine h.
Proof using Hacc.
  intros Hv Hm Hbe Hact Hread Hmine. unfold mergeLive. cbv zeta.
  pose proof (earlyMerge_sound action be live rb) as Hearly.
  destruct (earlyMerge _ _ _ _ _ _ _ _ _ _ _).
  - apply safe_adoptRemote, Hmine; [done..|apply later_refl|].
    destruct Hearly as [Hsame|(e & t & -> & Ht & Hsame)]; [right; right; right; by right; left|].
    left. destruct Hbe as (s & Hsaw & Hg). exists s, e. split_and!; [done..|]. right. by exists t.
  - apply safe_steady; [apply steady_flipHeld|]. intros [|] h1 Hl1; [by apply safe_ret|].
    apply safe_upload; [right; left; eapply called_mono, Hread; apply Hl1|apply Hmine; [done|by right; right; right; left]| |apply neutral_setBaseOf].
    apply mayCommit_remote; [done|eapply remoteIs_mono, Hm; apply Hl1].
  - clear Hearly. set (canMerge := _ && bool_decide (is_Some _)).
    set (both := isMergeable _ _ live && isMergeable _ _ rb).
    destruct (Decide.planMerge _) eqn:Hplan; unfold Decide.planMerge in Hplan; simpl in Hplan.
    + apply safe_adoptRemote, Hmine; [done..|apply later_refl|].
      destruct (both && _) eqn:Hcos.
      { apply andb_true_iff in Hcos as [[? _]%andb_true_iff ?]. right; right; right; right; right; by left. }
      destruct (readOnly d) eqn:Hro; [|by destruct (canMerge && _)].
      destruct Hact as [->|[-> ->]]; [done|]. simpl in Hplan.
      destruct (preserveLocalFirstContact d) eqn:Hfc; [done|]. right; right; left.
      destruct Hbe as (s & Hsaw & Hg). split_and!; [done..|]. by exists s.
    + apply (safe_keepCopy m live rb (take 6 (sha256hex live)) h
               (λ _, setBase decodeUtf8 decodeLossy path rb (Wire.hash m))); [done..|by intros; apply Hmine|].
      intros copy h' _. by apply neutral_setBase.
    + destruct (both && _) eqn:Hcos; [done|]. destruct (readOnly d) eqn:Hro; [by destruct (_ || _)|].
      destruct (canMerge && _) eqn:Hclean; [|done].
      apply andb_true_iff in Hclean as [Hcan Hclean]. rewrite Hcan in *.
      apply safe_steady; [apply steady_flipHeld|]. intros [|] h1 Hl1; [by apply safe_ret|].
      assert (Hmg : merged h1 path live (encodeUtf8 (Merge3.merged (mergeTexts (patternsFor d path)
        (default [] (match be with Some e => Store.text e | None => None end)) (decodeLossy live) (decodeLossy rb))))).
      { unfold canMerge in Hcan. apply andb_true_iff in Hcan as [[[_ Ha]%andb_true_iff _]%andb_true_iff Ht].
        apply bool_decide_eq_true in Ha, Ht. subst action.
        destruct Hbe as (s & Hsaw & Hg). destruct be as [e|]; [|by destruct Ht].
        destruct Ht as [t Ht]. rewrite Ht in *. exists s, e, t, rb. split; [eapply saw_mono, Hsaw; apply Hl1|]. done. }
      apply safe_upload; [| | |apply neutral_setBaseOf].
      * right; right; left. exists live. split; [eapply called_mono, Hread; apply Hl1|done].
      * apply Hmine; [done|]. by right; right; right; right; right; right.
      * apply mayCommit_remote; [done|eapply remoteIs_mono, Hm; apply Hl1].
    + destruct (both && _) eqn:Hcos; [done|]. destruct (readOnly d) eqn:Hro; [by destruct (_ || _)|].
      apply (safe_keepCopy m live rb (take 6 (sha256hex live)) h (λ copy,
        let* r := Transfer.pushFile sha256hex copy None in
        let cb := Transfer.pr_bytes r in
        baseSet copy (entry (Transfer.pr_hash r)
          (if isMergeable decodeUtf8 copy cb then Some (decodeLossy cb) else None)) ;;
        setBase decodeUtf8 decodeLossy path rb (Wire.hash m))); [done..|by intros; apply Hmine|].
      intros copy h' Hcopy. apply safe_bind, safe_pushFile; [split; [done|]; left; by exists path|].
      intros [r|e] h1 _ _; [|done]. apply safe_then; [apply neutral_modify|]. intros _ h2 _.
      by apply neutral_setBase.
Qed.
Lemma safe_mergeOrConflict m action be localBytes h :
  remoteIs given h path m → merging h be →
  action = Decide.Merge ∨ (action = Decide.ConflictCopy ∧ be = None) →
  (∀ b, localBytes = Some b → called h (IoRead path) (Ok b)) →
  safe I (reconcileMergeOrConflict nfc decodeUtf8 decodeLossy encodeUtf8 sha256hex d path m action be localBytes)
    fine h.
Proof using Hacc.
  intros Hm Hbe Hact Hloc. apply safe_bind, safe_fetchVerified; [|done]. intros rb h1 Hs1 Hv _.
  apply safe_bind, safe_readOrNull.
  - intros live h2 Hs2 Hf Hread _. apply safe_mergeLive; [done|eapply remoteIs_mono, Hm; sub|eapply merging_mono, Hbe; sub|done..|].
    intros h' b Hl Hk. right. eapply read_kept, Hk. by apply Hl.
  - intros e h2 Hs2 Hf _ _. destruct localBytes as [live|]; [|by apply safe_throw].
    apply safe_mergeLive; [done|eapply remoteIs_mono, Hm; sub|eapply merging_mono, Hbe; sub|done| |].
    + eapply called_mono, Hloc; [sub|done].
    + intros h' b Hl Hk. right. eapply unread_kept. by apply Hl.
Qed.

(** ** A decision and its effect *)
Record Grounded h (o : Opts) (be : option Store.BaseEntry) (localBytes : option bytes) (localHash : option jstr)
    : Prop := {
  g_base : merging h be;
  g_remote : ∀ m, o_rmeta o = Some m → remoteIs given h path m;
  g_absent : o_rmeta o = None → remoteAbsent given h path;
  g_tomb : o_hasTombstone o path = true → tombstoned given h path;
  g_work : Neutral (o_onWork o);
  g_read : ∀ b, localBytes = Some b → called h (IoRead path) (Ok b) ∧ localHash = Some (sha256hex b);
  g_unread : localBytes = None →
    localHash = None ∨ (is_Some (o_rmeta o) ∧ localHash = Store.hash <$> be)
}.
Lemma grounded_mono h h' o be lb lh : h ⊑ h' → Grounded h o be lb lh → Grounded h' o be lb lh.
Proof.
  intros Hs [Hb Hr Ha Ht Hw Hl Hu]. split; [by eapply merging_mono|..|done].
  - intros m Hm. eapply remoteIs_mono; [done|by apply Hr].
  - intros Hn. eapply remoteAbsent_mono; [done|by apply Ha].
  - intros Hn. eapply tombstoned_mono; [done|by apply Ht].
  - done.
  - intros b Hb'. split; [eapply called_mono; [done|by apply Hl]|by apply Hl].
Qed.
Definition decided (o : Opts) be localHash : Decide.Action :=
  Decide.decide_action (presence localHash) (Store.hash <$> be) (Wire.hash <$> o_rmeta o).
Lemma presence_sha b : presence (Some (sha256hex b)) = Some (sha256hex b).
Proof using sha_nonempty.
  unfold presence, truthy. rewrite bool_decide_eq_false_2; [done|apply sha_nonempty].
Qed.
Lemma synced_base h be c : merging h be → Store.hash <$> be = Some (sha256hex c) → synced h path c.
Proof.
  intros (s & Hsaw & Hg) He. destruct be as [e|]; [|done]. injection He as He. exists s, e.
  split_and!; [done..|]. by left.
Qed.
(** A pull expects the last-synced content, or nothing. *)
Lemma pull_expects h o be lb lh c :
  Grounded h o be lb lh → decided o be lh = Decide.Pull ∨ decided o be lh = Decide.EditWinsPull →
  lh = Some (sha256hex c) → synced h path c.
Proof using sha_nonempty.
  intros Hg Ha ->. unfold decided in Ha. rewrite presence_sha in Ha.
  destruct (Decide.decide_table (Some (sha256hex c)) (Store.hash <$> be) (Wire.hash <$> o_rmeta o))
    as (Hp & _ & _ & _ & He & _).
  destruct Ha as [Ha|Ha]; [|by specialize (He Ha)]. destruct (Hp Ha) as [_ Heq].
  eapply synced_base; [apply Hg|done].
Qed.
Lemma version_grounded h o be lb lh :
  readOnly d = false → Grounded h o be lb lh →
  mayCommit h path (Some (match o_rmeta o with Some m => Wire.version m | None => 0%Z end)).
Proof using Hacc.
  intros Hro Hg. split; [done|]. right. split; [done|]. eexists. split; [done|].
  destruct (o_rmeta o) as [m|] eqn:Hm; [right; exists m; split; [by apply Hg|done]|left; split; [done|by apply Hg]].
Qed.

Lemma neutral_baseDelete : Neutral (baseDelete path).
Proof. apply neutral_modify. Qed.
Lemma neutral_stampIf b st : Neutral (stampIf b path st).
Proof. destruct st as [st|], b; try apply neutral_ret. apply neutral_modify. Qed.
Lemma neutral_isRejected lh : Neutral (isRejected nfc lowerCase d path lh).
Proof. apply neutral_gets. Qed.
Lemma neutral_flipHeldLocal lh lb : Neutral (flipHeldLocal d path lh lb).
Proof.
  unfold flipHeldLocal. destruct lh as [x|]; [|apply neutral_ret].
  destruct (truthy x); [apply steady_neutral, steady_flipHeld|apply neutral_ret].
Qed.
Lemma neutral_probe : Neutral (probePresence d path).
Proof.
  apply neutral_try; [|intros; apply neutral_ret]. destruct (hasExists d).
  - apply neutral_bind; [by apply neutral_await|]. intros [|]; apply neutral_ret.
  - apply neutral_bind; [apply neutral_readOrNull|]. intros; apply neutral_ret.
Qed.
Lemma safe_guardedPush v lh h (K : Transfer.PushResult → Client unit) :
  mayCommit h path (Some v) → (∀ r, Neutral (K r)) →
  safe I (bindM (guardedPush nfc lowerCase sha256hex d path v lh) K) fine h.
Proof using Hacc.
  intros Hc HK. apply safe_bind. unfold guardedPush. apply safe_bind, safe_try, safe_pushFile; [done|].
  intros [a|e] h1 Hs1 _; [intros _|].
  { apply safe_bind, neutral_modify. intros [u|e] h2 _ _; [|done]. apply safe_ret. intros _. by apply HK. }
  apply safe_bind.
  assert (Hn : Neutral (match e, lh with
    | CommitRejectedError _ _, Some h =>
        if truthy h then modify (λ s, setRejected ((λ m, jset m (key nfc lowerCase d path) h) <$> rejected s) s)
        else mret' tt
    | _, _ => mret' tt end : Client unit)).
  { destruct e, lh as [x|]; try apply neutral_ret. destruct (truthy x); [apply neutral_modify|apply neutral_ret]. }
  apply Hn. intros [u|e'] h2 _ _; [apply safe_throw|]; done.
Qed.
(** The guards in front of a push: a hold answers, and nothing moves. *)
Lemma safe_heldPush v o be lb lh h (K : Transfer.PushResult → Client unit) :
  Grounded h o be lb lh → mayCommit h path (Some v) → (∀ r, Neutral (K r)) →
  safe I
    (let* rej := isRejected nfc lowerCase d path lh in
     if (rej : bool) then say (NPushHeld path)
     else
       let* held := flipHeldLocal d path lh lb in
       if (held : bool) then mret' tt
       else
         o_onWork o ;;
         bindM (guardedPush nfc lowerCase sha256hex d path v lh) K) fine h.
Proof using Hacc.
  intros Hg Hc HK. apply safe_then; [apply neutral_isRejected|]. intros [|] h1 Hs1; [by apply neutral_say|].
  apply safe_then; [apply neutral_flipHeldLocal|]. intros [|] h2 Hs2; [by apply safe_ret|].
  apply safe_then; [apply Hg|]. intros _ h3 Hs3. apply safe_guardedPush; [|done]. eapply mayCommit_mono, Hc. sub.
Qed.
Lemma neutral_notify (m : Client unit) n : Neutral m → Neutral (m ;; say n).
Proof. intros Hm. apply neutral_bind; [done|intros; apply neutral_say]. Qed.
Lemma gone_mono h h' : h ⊑ h' → gone h path → gone h' path.
Proof.
  intros Hs. unfold gone. destruct (hasExists d); [by apply called_mono|].
  intros [e He]. exists e. by eapply called_mono.
Qed.
Lemma safe_probe h (Q : res Err ProbedPresence → History → Prop) :
  (∀ r h', h ⊑ h' → (r = PAbsent → gone h' path) → Q (Ok r) h') → safe I (probePresence d path) Q h.
Proof.
  intros HQ. apply safe_try. unfold gone in HQ. destruct (hasExists d).
  - apply safe_bind, safe_callE; [by apply quiet_I|].
    intros [[|]|e] h' Hs Hc _; [by apply safe_ret; intros _; apply HQ..|intros _; by apply safe_ret, HQ].
  - apply safe_bind, safe_readOrNull.
    + intros b h' Hs _ _ _. apply safe_ret. intros _. by apply HQ.
    + intros e h' Hs _ Hc _. apply safe_ret. intros _. apply HQ; [done|]. intros _. by exists e.
Qed.

Lemma deleteLocal_grounded h o be lb lh :
  Grounded h o be lb lh → decided o be lh = Decide.DeleteLocal →
  o_rmeta o = None ∧ ∃ b, lb = Some b ∧ synced h path b.
Proof using sha_nonempty.
  intros Hg Ha.
  destruct (Decide.decide_table (presence lh) (Store.hash <$> be) (Wire.hash <$> o_rmeta o)) as (_ & _ & Hd & _).
  destruct (Hd Ha) as (HL & HB & HR). apply fmap_None in HR. split; [done|].
  destruct lb as [b|].
  - exists b. split; [done|]. destruct (g_read _ _ _ _ _ Hg b eq_refl) as [_ ->]. rewrite presence_sha in HB.
    eapply synced_base; [apply Hg|done].
  - destruct (g_unread _ _ _ _ _ Hg eq_refl) as [->|[[m Hm] _]]; [done|congruence].
Qed.
Lemma deleteRemote_grounded h o be lb lh :
  Grounded h o be lb lh → decided o be lh = Decide.DeleteRemote →
  ∃ m e s, o_rmeta o = Some m ∧ saw h s ∧ Store.get (base s) path = Some e ∧ Store.hash e = Wire.hash m.
Proof.
  intros Hg Ha.
  destruct (Decide.decide_table (presence lh) (Store.hash <$> be) (Wire.hash <$> o_rmeta o)) as (_ & _ & _ & Hd & _).
  destruct (Hd Ha) as (HR & HB & _). destruct (o_rmeta o) as [m|]; [|done]. destruct be as [e|]; [|done].
  destruct (g_base _ _ _ _ _ Hg) as (s & Hsaw & Hs). injection HB as HB. by exists m, e, s.
Qed.
Lemma safe_execute o action be lb lh h :
  Grounded h o be lb lh →
  (action = decided o be lh ∨
   action = Decide.DeleteLocal ∧ o_rmeta o = None ∧ ∃ b, lb = Some b ∧ synced h path b) →
  safe I (execute nfc lowerCase decodeUtf8 decodeLossy encodeUtf8 sha256hex d path o action
            (Decide.finalize action (factsOf d path o be lb)) be lb lh) fine h.
Proof using Hacc sha_nonempty.
  intros Hg Hact. destruct (Decide.finalize action (factsOf d path o be lb)) as [ | | | | | | |v st| | | | |v|] eqn:Hf;
    cbn [execute].
  - by apply safe_ret.
  - destruct lb as [b|], (o_rmeta o) as [m|]; try by apply safe_throw.
    apply safe_then; [apply neutral_setBase|]. intros _ h1 _. apply neutral_fine, neutral_stampIf.
  - apply neutral_fine, neutral_notify, neutral_baseDelete.
  - by apply neutral_say.
  - by apply neutral_say.
  - by apply neutral_say.
  - by apply neutral_say.
  - apply Decide.finalize_push in Hf as (-> & Hro & _). apply (safe_heldPush _ o be lb lh); [done| |].
    + by apply (version_grounded h o be lb lh).
    + intros r. apply neutral_bind; [apply neutral_setBase|]. intros _. apply neutral_stampIf.
  - apply safe_then; [apply Hg|]. intros _ h1 Hs1. destruct (o_rmeta o) as [m|] eqn:Hm; [|by apply safe_bind, safe_throw].
    apply safe_bind, safe_ret. intros _. apply safe_applyPull; [eapply remoteIs_mono; [done|by apply Hg]|]. intros c Hc.
    eapply synced_mono; [done|]. eapply pull_expects; [done| |done].
    apply Decide.finalize_pull in Hf. destruct Hact as [<-|[-> _]]; [done|]. by destruct Hf.
  - apply Decide.finalize_restore in Hf as (-> & Hro & _).
    assert (Hr : o_rmeta o = None).
    { destruct Hact as [Ha|(_ & Hr & _)]; [|done]. by apply (deleteLocal_grounded h _ _ lb _ Hg). }
    apply safe_then; [apply neutral_say|]. intros _ h1 Hs1.
    apply (safe_heldPush _ o be lb lh); [by eapply grounded_mono| |intros; apply neutral_setBase].
    eapply mayCommit_mono; [done|]. pose proof (version_grounded h o be lb lh Hro Hg) as Hv. by rewrite Hr in Hv.
  - by apply neutral_say.
  - apply Decide.finalize_removeLocal in Hf as (-> & Ht & _).
    assert (Hr : ∃ b, lb = Some b ∧ synced h path b).
    { destruct Hact as [Ha|(_ & _ & Hr)]; [|done]. by apply (deleteLocal_grounded h _ _ lb _ Hg). }
    destruct Hr as (b & -> & Hsync). destruct (o_caseRenamed o); [apply neutral_fine, neutral_notify, neutral_baseDelete|].
    apply safe_then; [apply Hg|]. intros _ h1 Hs1. apply safe_bind, safe_callE.
    { apply I_own. right. split_and!; [done|eapply tombstoned_mono; [done|by apply Hg]|]. exists b.
      split; [eapply called_mono; [done|by apply Hg]|by eapply synced_mono]. }
    intros [u|e] h2 _ _ _; [|done]. apply neutral_fine, neutral_bind; [apply neutral_baseDelete|]. intros _.
    apply neutral_bind; [apply neutral_say|]. intros _. destruct (Decide.isConfig path); [apply neutral_say|apply neutral_ret].
  - apply Decide.finalize_deleteRemote in Hf as (-> & Hro & ->).
    destruct Hact as [Ha|[? _]]; [|done].
    destruct (deleteRemote_grounded h _ _ lb _ Hg (eq_sym Ha)) as (m & e & s & Hm & Hsaw & Hs & Heq).
    apply safe_bind, safe_probe. intros r h1 Hs1 Hgone _. destruct r; try by apply safe_ret.
    apply safe_then; [apply Hg|]. intros _ h2 Hs2. apply safe_bind, safe_callE.
    { apply I_own. split_and!; [done..|eapply gone_mono, Hgone; done|]. exists s, e, m.
      split_and!; [eapply saw_mono, Hsaw; sub|done|eapply remoteIs_mono, Hg, Hm; sub|done|]. simpl. by rewrite Hm. }
    intros [u|e'] h3 _ _ _; [|done]. apply neutral_fine, neutral_notify, neutral_baseDelete.
  - apply Decide.finalize_merge in Hf. destruct Hact as [Ha|[-> _]]; [|by destruct Hf].
    apply safe_then; [apply Hg|]. intros _ h1 Hs1. destruct (o_rmeta o) as [m|] eqn:Hm; [|by apply safe_bind, safe_throw].
    apply safe_bind, safe_ret. intros _. apply safe_mergeOrConflict.
    + eapply remoteIs_mono; [done|by apply Hg].
    + eapply merging_mono; [done|apply Hg].
    + destruct Hf as [->| ->]; [by left|right]. split; [done|]. symmetry in Ha.
      by apply Decide.decide_conflictCopy, fmap_None in Ha.
    + intros b ->. eapply called_mono; [done|by apply Hg].
Qed.

Lemma safe_dispatch o be lb lh h :
  Grounded h o be lb lh →
  safe I (dispatch nfc lowerCase decodeUtf8 decodeLossy encodeUtf8 sha256hex d path o be lb lh (decided o be lh))
    fine h.
Proof using Hacc sha_nonempty.
  intros Hg. unfold dispatch. set (cosmetic := negb _ && _ && _). cbv zeta.
  destruct (cosmetic && _) eqn:Hpush; [apply neutral_fine, neutral_stampIf|].
  set (action := if cosmetic then Decide.DeleteLocal else decided o be lh).
  assert (Hact : action = decided o be lh ∨
    action = Decide.DeleteLocal ∧ o_rmeta o = None ∧ ∃ b, lb = Some b ∧ synced h path b).
  { subst action. destruct cosmetic eqn:Hc; [right|by left]. split; [done|].
    unfold cosmetic in Hc. apply andb_true_iff in Hc as [[_ Ha]%andb_true_iff Hc].
    apply bool_decide_eq_true in Ha. simpl in Hpush. apply bool_decide_eq_false in Hpush.
    destruct Ha as [?|Ha]; [done|]. split; [by apply Decide.decide_keepLocal, fmap_None in Ha|].
    destruct lb as [b|], be as [e|]; try done. unfold baseNormHash in Hc.
    destruct (Store.text e) as [t|] eqn:Ht; [|done]. simpl in Hc. apply jeq_true in Hc.
    exists b. split; [done|]. destruct (g_base _ _ _ _ _ Hg) as (s & Hsaw & Hs). exists s, e.
    split_and!; [done..|]. right. by exists t. }
  apply safe_bind.
  assert (Hend : ∀ h1 (merged : bool), h ⊑ h1 → safe I
    (if merged then mret' tt
     else if Decide.isConfig path && isBothChanged action then say (NConfigConflict path (actionName action))
     else
       (whenM Decide.isConfig path then say (NConfigResolved path)) ;;
       say (NDecision path action (Decide.finalize action (factsOf d path o be lb))) ;;
       execute nfc lowerCase decodeUtf8 decodeLossy encodeUtf8 sha256hex d path o action
         (Decide.finalize action (factsOf d path o be lb)) be lb lh) fine h1).
  { intros h1 [|] Hs1; [by apply safe_ret|]. destruct (_ && isBothChanged _); [by apply neutral_say|].
    apply safe_then; [destruct (Decide.isConfig path); [apply neutral_say|apply neutral_ret]|]. intros _ h2 Hs2.
    apply safe_then; [apply neutral_say|]. intros _ h3 Hs3. apply safe_execute.
    - eapply grounded_mono, Hg. sub.
    - destruct Hact as [?|(? & ? & b & ? & ?)]; [by left|right]. split_and!; [done..|]. exists b.
      split; [done|]. eapply synced_mono; [|done]. sub. }
  destruct (o_rmeta o) as [m|] eqn:Hm; [|by apply safe_ret; intros Hs; apply (Hend h false)].
  destruct (Config.isEnabledListConfig path) eqn:Hlist; [|by apply safe_ret; intros Hs; apply (Hend h false)].
  apply safe_enabledPluginList; [|done|by apply Hg|apply Hg|].
  - unfold Config.isEnabledListConfig in Hlist. apply jeq_true in Hlist. by rewrite Hlist.
  - intros [mg|e] h1 Hs1 _; [|done]. by apply Hend.
Qed.
End OnePath.

(** What the callers of [reconcileOne] know about a path. *)
Record Told h (path : jstr) (o : Opts) : Prop := {
  t_remote : ∀ m, o_rmeta o = Some m → remoteIs given h path m;
  t_absent : o_rmeta o = None → remoteAbsent given h path;
  t_tomb : o_hasTombstone o path = true → tombstoned given h path;
  t_work : Neutral (o_onWork o)
}.
Lemma told_mono h h' path o : h ⊑ h' → Told h path o → Told h' path o.
Proof.
  intros Hs [Hr Ha Ht Hw]. split; [| | |done].
  - intros m Hm. eapply remoteIs_mono; [done|by apply Hr].
  - intros Hn. eapply remoteAbsent_mono; [done|by apply Ha].
  - intros Hn. eapply tombstoned_mono; [done|by apply Ht].
Qed.
Lemma safe_reconcileOne path o h :
  Told h path o →
  safe I (reconcileOne nfc lowerCase decodeUtf8 decodeLossy encodeUtf8 sha256hex d path o) fine h.
Proof using sha_nonempty.
  intros Ht. unfold reconcileOne. destruct (negb _) eqn:Hacc; [by apply safe_ret|]. apply negb_false_iff in Hacc.
  cbv zeta. destruct (_ || _); [by apply neutral_say|].
  apply safe_bind, safe_gets. intros s h1 Hs1 Hsaw _. set (be := Store.get (base s) path).
  set (scanHit := _ && Decide.baseStatUnchanged _ _).
  apply safe_bind.
  assert (Hend : ∀ h2 lb lh, h1 ⊑ h2 →
    (∀ b, lb = Some b → called h2 (IoRead path) (Ok b) ∧ lh = Some (sha256hex b)) →
    (lb = None → lh = None ∨ (is_Some (o_rmeta o) ∧ lh = Store.hash <$> be)) →
    safe I (dispatch nfc lowerCase decodeUtf8 decodeLossy encodeUtf8 sha256hex d path o be lb lh (decided o be lh))
      fine h2).
  { intros h2 lb lh Hs2 Hread Hun. apply safe_dispatch; [done|]. destruct Ht as [Hr Ha Htb Hw]. split; try done.
    - exists s. split; [by eapply saw_mono|done].
    - intros m Hm. eapply remoteIs_mono; [|by apply Hr]. sub.
    - intros Hn. eapply remoteAbsent_mono; [|by apply Ha]. sub.
    - intros Hn. eapply tombstoned_mono; [|by apply Htb]. sub. }
  destruct scanHit eqn:Hscan.
  - apply safe_ret. intros _. apply Hend; [done..|]. intros _. right. split; [|done].
    unfold scanHit in Hscan. apply andb_true_iff in Hscan as [[_ Hm]%andb_true_iff _]. by apply bool_decide_eq_true in Hm.
  - apply safe_bind, safe_bind, safe_readOrNull.
    + intros b h2 Hs2 _ Hc _. apply safe_ret. intros _ _. apply Hend; [done| |done]. by intros ? [= <-].
    + intros e h2 Hs2 _ Hc _. apply safe_ret. intros _.
      destruct (default false (o_locallyPresent o)), be as [x|] eqn:Hbe;
        try (apply safe_ret; intros _; apply Hend; [done..|by left]). by apply safe_throw.
Qed.

(** ** Whole passes *)
Lemma neutral_whenM (b : bool) (m : Client unit) : Neutral m → Neutral (if b then m else mret' tt).
Proof. destruct b; [done|]. intros _. apply neutral_ret. Qed.
Lemma neutral_onPass f : Neutral (onPass f).
Proof. apply neutral_modify. Qed.
Lemma neutral_hold p v : Neutral (hold p v).
Proof.
  apply neutral_bind; [apply neutral_gets|]. intros b. destruct (Decide.holdForRetry b p v) as [[held ex] b'].
  apply neutral_bind; [apply neutral_modify|]. intros _.
  apply neutral_bind; [apply neutral_whenM, neutral_say|intros; apply neutral_ret].
Qed.
Lemma neutral_violation v : Neutral (violation v).
Proof. by apply neutral_await. Qed.
Lemma neutral_holdGroups site groups into : Neutral (holdGroups nfc lowerCase d site groups into).
Proof.
  revert into. induction groups as [|g groups IH]; intros into; [apply neutral_ret|]. cbn [holdGroups]. cbv zeta.
  destruct (bool_decide _); [apply IH|]. apply neutral_bind; [apply neutral_violation|intros; apply IH].
Qed.
Lemma neutral_aliasLoop local exact idx todo out : Neutral (aliasLoop nfc lowerCase d local exact idx todo out).
Proof.
  revert out. induction todo as [|[p v] todo IH]; intros out; [apply neutral_ret|]. cbn [aliasLoop].
  destruct (bool_decide _); [apply IH|]. destruct (idx !! _) as [k|]; [|apply IH].
  destruct (_ || _); [apply IH|]. destruct (jhas local k).
  - apply neutral_bind; [apply neutral_violation|intros; apply IH].
  - cbv zeta. apply neutral_bind; [apply neutral_say|intros; apply IH].
Qed.
Lemma neutral_aliasLocalPaths local l : Neutral (aliasLocalPaths nfc lowerCase d local l).
Proof. unfold aliasLocalPaths. cbv zeta. destruct (negb _); [apply neutral_ret|apply neutral_aliasLoop]. Qed.
Lemma neutral_advance v l : Neutral (advance v l).
Proof. apply neutral_modify. Qed.
Lemma safe_bind_fine {A B} (m : Client A) (f : A → Client B) h :
  safe I m fine h → (∀ a, Neutral (f a)) → safe I (bindM m f) fine h.
Proof.
  intros Hm Hf. apply safe_bind. eapply safe_mono, Hm. intros [a|e] h' Hs _ _; [by apply Hf|done].
Qed.

Lemma safe_try_fine {A} (m : Client A) f h :
  safe I m fine h → (∀ e, Neutral (f e)) → safe I (try_catch m f) fine h.
Proof.
  intros Hm Hf. apply safe_try. eapply safe_mono, Hm. intros [a|e] h' Hs _ _; [done|by apply Hf].
Qed.
Lemma safe_finally_fine {A} (m : Client A) f h :
  safe I m fine h → (∀ r, Neutral (f r)) → safe I (finally m f) fine h.
Proof. intros Hm Hf. apply safe_finally. eapply safe_mono, Hm. intros r h' Hs _ _. by apply Hf. Qed.

Lemma safe_passItem runOne versionOf onDone p h :
  (∀ h', h ⊑ h' → safe I (runOne p) fine h') → (∀ p, Neutral (onDone p)) →
  safe I (passItem d runOne versionOf onDone p) fine h.
Proof.
  intros Hrun Hdone. apply safe_then; [apply neutral_gets|]. intros [e|] h1 Hs1; [by apply safe_throw|].
  apply safe_then; [destruct (hasAlive d); [by apply neutral_call|apply neutral_ret]|].
  intros [|] h2 Hs2; [|by apply safe_ret]. cbn [negb]. apply safe_finally_fine; [|intros; apply Hdone].
  apply safe_try_fine.
  - apply safe_bind_fine; [apply Hrun; sub|]. intros _. apply neutral_modify.
  - intros e. destruct (isConn e).
    + apply neutral_bind; [apply neutral_onPass|intros; apply neutral_throw].
    + apply neutral_bind; [apply neutral_say|]. intros _. destruct (versionOf p) as [v|]; [|apply neutral_ret].
      apply neutral_bind; [apply neutral_hold|]. intros [|]; [apply neutral_onPass|apply neutral_ret].
Qed.
Lemma safe_isolatedPass runOne versionOf onDone items h :
  (∀ p h', h ⊑ h' → safe I (runOne p) fine h') → (∀ p, Neutral (onDone p)) →
  safe I (isolatedPass d runOne versionOf onDone items) fine h.
Proof.
  intros Hrun Hdone. apply safe_bind_fine; [|intros; apply neutral_ret]. apply safe_mapPool; [|done].
  intros p i h' _ Hs. apply safe_passItem; [|done]. intros h'' Hs'. apply Hrun. sub.
Qed.

Lemma safe_reconcileAll h : safe I (reconcileAll nfc lowerCase decodeUtf8 decodeLossy encodeUtf8 sha256hex d) fine h.
Proof using sha_nonempty.
  apply safe_then; [apply neutral_say|]. intros _ h1 Hs1.
  apply safe_bind, safe_callE; [by apply quiet_I|]. intros [resp|e] h2 Hs2 Hresp _; [|done]. cbv zeta. simpl id.
  assert (Hheard : heard given h2 resp) by (right; by exists 0%Z).
  apply safe_then; [apply neutral_whenM, neutral_say|]. intros _ h3 Hs3.
  apply safe_then; [apply neutral_get|]. intros s0 h4 Hs4.
  apply safe_then; [apply neutral_holdGroups|]. intros held h5 Hs5.
  apply safe_then; [apply neutral_modify|]. intros _ h6 Hs6.
  apply safe_then; [apply neutral_say|]. intros _ h7 Hs7.
  apply safe_then; [by apply neutral_await|]. intros listed h8 Hs8.
  apply safe_then; [apply neutral_get|]. intros s1 h9 Hs9.
  apply safe_then; [apply neutral_aliasLocalPaths|]. intros local h10 Hs10.
  apply safe_then; [apply neutral_get|]. intros s h11 Hs11.
  apply safe_then; [apply neutral_whenM, neutral_say|]. intros _ h12 Hs12.
  apply safe_then; [apply neutral_modify|]. intros _ h13 Hs13.
  apply safe_then; [apply neutral_say|]. intros _ h14 Hs14.
  apply safe_then; [apply neutral_say|]. intros _ h15 Hs15.
  apply safe_bind_fine.
  - apply safe_isolatedPass.
    + intros p h' Hs'. apply safe_reconcileOne.
      assert (Hh : heard given h' resp) by (eapply heard_mono, Hheard; sub).
      split; simpl.
      * intros m Hm. left. by exists resp.
      * intros Hn. left. by exists resp.
      * intros Ht. apply bool_decide_eq_true in Ht. by exists resp.
      * apply neutral_ret.
    + intros p. apply neutral_bind.
      * apply neutral_whenM. apply neutral_bind; [apply neutral_onPass|]. intros _.
        apply neutral_bind; [apply neutral_gets|]. intros n. apply neutral_say.
      * intros _. apply neutral_bind; [apply neutral_onPass|]. intros _.
        apply neutral_bind; [apply neutral_gets|]. intros n. apply neutral_whenM, neutral_say.
  - intros _. apply neutral_bind; [apply neutral_gets|]. intros fs.
    apply neutral_bind; [apply neutral_advance|intros; apply neutral_ret].
Qed.
Lemma safe_reconcileDelta delta h :
  heard given h delta →
  safe I (reconcileDelta nfc lowerCase decodeUtf8 decodeLossy encodeUtf8 sha256hex d delta) fine h.
Proof using sha_nonempty.
  intros Hdelta. unfold reconcileDelta. cbv zeta.
  apply safe_then; [apply neutral_get|]. intros s h1 Hs1.
  apply safe_then; [apply neutral_holdGroups|]. intros held h2 Hs2.
  apply safe_then; [apply neutral_modify|]. intros _ h3 Hs3.
  apply safe_then; [apply neutral_modify|]. intros _ h4 Hs4.
  apply safe_then; [apply neutral_say|]. intros _ h5 Hs5.
  apply safe_bind_fine.
  - apply safe_isolatedPass.
    + intros p h' Hs'.
      apply safe_then; [destruct (hasExists d); [by apply neutral_await|apply neutral_ret]|]. intros present h6 Hs6.
      apply safe_then; [destruct (hasLocalSizeOf d); [by apply neutral_call|apply neutral_ret]|]. intros size h7 Hs7.
      assert (Hh : heard given h7 delta) by (eapply heard_mono, Hdelta; sub).
      apply safe_reconcileOne. split; simpl.
      * intros m Hm. left. by exists delta.
      * intros Hn. left. by exists delta.
      * intros Ht. apply bool_decide_eq_true in Ht. exists delta. split; [done|]. by apply (dedup_elem_of (Wire.d_path <$> Wire.deletes delta) p) in Ht.
      * apply neutral_ret.
    + intros p. apply neutral_bind; [apply neutral_onPass|]. intros _.
      apply neutral_bind; [apply neutral_gets|]. intros n. apply neutral_say.
  - intros _. apply neutral_bind; [apply neutral_gets|]. intros fs. apply neutral_advance.
Qed.

Lemma neutral_canonicalLocalPath p : Neutral (canonicalLocalPath nfc lowerCase d p).
Proof.
  apply neutral_bind; [apply neutral_gets|]. intros be. destruct (_ || _); [apply neutral_ret|].
  apply neutral_bind; [apply neutral_gets|]. intros sibling. apply neutral_bind; [apply neutral_modify|]. intros _.
  destruct sibling as [k|]; [|apply neutral_ret]. destruct (_ || _); [apply neutral_ret|].
  apply neutral_bind; [apply neutral_say|intros; apply neutral_ret].
Qed.
Lemma neutral_settled p r : Neutral (settled p r).
Proof.
  apply neutral_bind; [apply neutral_say|]. intros _. destruct (_ === _); [apply neutral_ret|apply neutral_say].
Qed.
Lemma safe_runPath path reported o h :
  Told h path o →
  safe I (runPath nfc lowerCase decodeUtf8 decodeLossy encodeUtf8 sha256hex d path reported o) fine h.
Proof using sha_nonempty.
  intros Ht. apply safe_then; [apply neutral_onPass|]. intros _ h1 Hs1. apply safe_finally_fine.
  - apply safe_try_fine; [apply safe_reconcileOne; by eapply told_mono|].
    intros e. destruct e; try apply neutral_throw. apply neutral_say.
  - intros r. apply neutral_bind; [apply neutral_gets|]. intros sig.
    apply neutral_bind; [apply neutral_whenM, neutral_say|]. intros _. apply neutral_whenM, neutral_settled.
Qed.
Lemma safe_reconcilePath reported n h :
  safe I (reconcilePath nfc lowerCase decodeUtf8 decodeLossy encodeUtf8 sha256hex d reported n) fine h.
Proof using sha_nonempty.
  apply safe_then; [apply neutral_canonicalLocalPath|]. intros path h1 Hs1.
  apply safe_then; [apply neutral_gets|]. intros amb h2 Hs2.
  destruct (match amb with Some a => _ | None => false end); [apply neutral_fine, neutral_settled|].
  apply safe_bind, safe_callE; [by apply quiet_I|]. intros [rmeta|e] h3 Hs3 Hmeta _; [|done]. simpl id.
  apply safe_then; [destruct (hasLocalSizeOf d); [by apply neutral_call|apply neutral_ret]|]. intros size h4 Hs4.
  apply safe_then; [apply neutral_gets|]. intros be h5 Hs5. apply safe_bind.
  set (P := λ (r : res Err (bool * list Wire.Deletion)) h6,
    match r with Ok (_, deletes) => ∀ p, p ∈ Wire.d_path <$> deletes → tombstoned given h6 p | Throw _ => True end).
  apply (safe_mono I _ _ P).
  { intros [[gd deletes]|e] h6 Hs6 HP _; [|done].
    apply safe_then.
    { destruct rmeta; [|apply neutral_ret]. destruct (hasExists d); [|apply neutral_ret].
      apply neutral_bind; [by apply neutral_await|intros; apply neutral_ret]. }
    intros lp h7 Hs7. apply safe_then; [destruct (hasStatOf d); [by apply neutral_call|apply neutral_ret]|].
    intros stat h8 Hs8. apply safe_runPath. split; simpl.
    - intros m ->. right. eapply called_mono, Hmeta. sub.
    - intros ->. right. eapply called_mono, Hmeta. sub.
    - intros Ht. apply bool_decide_eq_true in Ht. eapply tombstoned_mono; [|by apply HP]. sub.
    - destruct (hasPathWork d); [|apply neutral_ret].
      apply neutral_bind; [apply neutral_onPass|intros; apply neutral_say]. }
  assert (Hnone : ∀ h6, P (Ok (false, [])) h6) by (intros h6 p; simpl; by rewrite elem_of_nil).
  destruct rmeta as [m|]; [by apply safe_ret|]. destruct be as [e|]; [|by apply safe_ret].
  apply safe_bind, safe_callE; [by apply quiet_I|]. intros [manifest|e'] h6 Hs6 Hman _; [|done].
  apply safe_bind, safe_get. intros s h7 Hs7 _ _. apply safe_ret. intros p Hp. exists manifest.
  split; [right; exists 0%Z; by eapply called_mono|done].
Qed.

Lemma safe_for_each_fine {A} (l : list A) (f : A → Client unit) h :
  (∀ x h', h ⊑ h' → safe I (f x) fine h') → safe I (for_each l f) fine h.
Proof. intros Hf. apply safe_for_each; [|done]. intros x h' _ Hs. by apply Hf. Qed.
Lemma safe_reconcileLocalConfig h :
  safe I (reconcileLocalConfig nfc lowerCase decodeUtf8 decodeLossy encodeUtf8 sha256hex d) fine h.
Proof using sha_nonempty.
  apply safe_then; [by apply neutral_await|]. intros listed h1 Hs1.
  apply safe_then; [apply neutral_get|]. intros s0 h2 Hs2.
  apply safe_then; [apply neutral_aliasLocalPaths|]. intros local h3 Hs3.
  apply safe_then; [apply neutral_get|]. intros s1 h4 Hs4. cbv zeta.
  apply safe_for_each_fine. intros p h5 Hs5. destruct (negb _); [by apply safe_ret|].
  apply safe_then; [apply neutral_gets|]. intros be h6 Hs6. destruct (Decide.baseStatUnchanged _ _); [by apply safe_ret|].
  apply safe_then; [apply neutral_readOrNull|]. intros cur h7 Hs7. destruct (bool_decide _).
  { destruct (jget local p), cur; try by apply safe_ret. apply neutral_fine, neutral_modify. }
  apply safe_try_fine.
  - apply safe_bind, safe_callE; [by apply quiet_I|]. intros [rmeta|e] h8 Hs8 Hmeta _; [|done].
    apply safe_reconcileOne. split; simpl; [|by intros ->; right|done|apply neutral_ret].
    intros m ->. by right.
  - intros e. destruct (isConn e); [apply neutral_throw|apply neutral_say].
Qed.
End Given.

(** ** The engine's jobs *)
Inductive Job := JAll | JDelta (delta : Wire.ChangesResponse) | JPath (reported : jstr) (localSize : Z) | JConfig.
Definition runJob (j : Job) : Client unit :=
  match j with
  | JAll => reconcileAll nfc lowerCase decodeUtf8 decodeLossy encodeUtf8 sha256hex d ;; mret' tt
  | JDelta delta => reconcileDelta nfc lowerCase decodeUtf8 decodeLossy encodeUtf8 sha256hex d delta
  | JPath reported n => reconcilePath nfc lowerCase decodeUtf8 decodeLossy encodeUtf8 sha256hex d reported n
  | JConfig => reconcileLocalConfig nfc lowerCase decodeUtf8 decodeLossy encodeUtf8 sha256hex d
  end.
(** The server answers a job was handed rather than asked for. *)
Definition givenTo (j : Job) : list Wire.ChangesResponse := match j with JDelta r => [r] | _ => [] end.
Lemma job_safe j h : safe (I (givenTo j)) (runJob j) fine h.
Proof using sha_nonempty.
  destruct j; cbn [runJob givenTo].
  - apply safe_bind_fine; [apply safe_reconcileAll|intros; apply neutral_ret].
  - apply safe_reconcileDelta. left. by left.
  - apply safe_reconcilePath.
  - apply safe_reconcileLocalConfig.
Qed.
(** [o] is the next call of some execution of the job, after the history [h]. *)
Definition calls (j : Job) h (o : Op) : Prop := ∃ k, reach (runJob j) h (Vis (Call o) k).
Lemma job_allowed j h o : calls j h o → ∃ own, own ⊑ h ∧ allowed (givenTo j) own o.
Proof using sha_nonempty.
  intros [k Hr]. apply (wp_adequacy _ _ _ _ (job_safe j [])) in Hr. exact Hr.
Qed.
End Safety.

Section Promises.
Context (nfc lowerCase : jstr → jstr) (decodeUtf8 : bytes → option jstr) (decodeLossy : bytes → jstr)
        (encodeUtf8 : jstr → bytes) (sha256hex : bytes → jstr) (d : Deps).
Context (sha_nonempty : ∀ b, sha256hex b ≠ []).
Let calls := calls nfc lowerCase decodeUtf8 decodeLossy encodeUtf8 sha256hex d.
Let kept := kept nfc decodeUtf8 decodeLossy encodeUtf8 sha256hex d.
Let synced := synced nfc decodeUtf8 encodeUtf8 sha256hex d.
Implicit Types (h own : History).




(** C3: Uploads are compare-and-swap: a pass commits only content the task read from
    or wrote to that path, described by its own digest, length and chunk list, and
    names the version of the server's record of the path, or 0 when the server
    had none; a conflict copy's name alone is committed unconditionally. *)
Theorem uploads_are_guarded j h r :
  calls j h (ApiCommit r) →
  let p := Wire.c_path r in
  ∃ own, own ⊑ h ∧
    (∃ b, (called own (IoRead p) (Ok b) ∨ called own (IoWrite p b) (Ok tt)) ∧
       Wire.c_hash r = sha256hex b ∧ Wire.c_size r = len b ∧ Wire.c_chunks r = Cdc.hash <$> Cdc.chunk sha256hex b) ∧
    ((∃ q, accepts d q = true ∧ copyOf d q p ∧ Wire.c_expected r = None) ∨
     (accepts d p = true ∧
        ((remoteAbsent (givenTo j) own p ∧ Wire.c_expected r = Some 0%Z) ∨
         ∃ m, remoteIs (givenTo j) own p m ∧ Wire.c_expected r = Some (Wire.version m)))).
Proof using sha_nonempty.
  intros (own & Hs & _ & Hd & Ho)%job_allowed p; [|done]. exists own. split; [done|]. split; [done|].
  destruct Ho as [?|(Ha & v & Hv & [[-> ?]|(m & ? & <-)])]; [by left|right..]; (split; [done|]).
  - by left.
  - right. by exists m.
Qed.

(** C5: A deletion is sent to the server only for a path in scope whose file the
    adapter confirmed to be gone, whose last-synced hash is the server's current
    one, and with that record's version as the compare-and-swap guard. *)
Theorem remote_delete_is_evidenced j h p v :
  calls j h (ApiDelete p v) →
  ∃ own, own ⊑ h ∧ readOnly d = false ∧ accepts d p = true ∧
    (if hasExists d then called own (IoExists p) (Ok false) else ∃ e, called own (IoRead p) (Throw e)) ∧
    ∃ s e m, saw own s ∧ Store.get (base s) p = Some e ∧ remoteIs (givenTo j) own p m ∧
      Store.hash e = Wire.hash m ∧ v = Some (Wire.version m).
Proof using sha_nonempty. intros (own & Hs & Ho)%job_allowed; [|done]. by exists own. Qed.

(** C6: A device whose share is read-only never changes the server: no pass uploads a
    chunk, commits or deletes. *)
Theorem readonly_never_uploads j h o :
  readOnly d = true → calls j h o →
  match o with ApiPutChunk _ _ | ApiCommit _ | ApiDelete _ _ => False | _ => True end.
Proof using sha_nonempty.
  intros Hro (own & Hs & Ho)%job_allowed; [|done]. destruct o; try done; simpl in Ho; [|destruct Ho..]; congruence.
Qed.

(** The path a call changes, here or on the server. *)
Definition changesPath (o : Op) : option jstr :=
  match o with
  | IoWrite p _ | IoRemove p | AppendOpen p | AppendChunk p _ | AppendClose p | AppendAbort p | ApiDelete p _ => Some p
  | ApiCommit r => Some (Wire.c_path r)
  | _ => None
  end.
(** C7: Selective sync is airtight: every path a pass changes, on disk or on the
    server, is one this device accepts, or the conflict copy of one. *)
Theorem passes_stay_in_scope j h o p :
  calls j h o → changesPath o = Some p → accepts d p = true ∨ ∃ q, accepts d q = true ∧ copyOf d q p.
Proof using sha_nonempty.
  intros (own & Hs & Ho)%job_allowed Hp; [|done]. destruct o; try done; injection Hp as <-; simpl in Ho.
  - destruct Ho as [(q & ? & ? & _)|[? _]]; [right; by exists q|by left].
  - destruct Ho as [(q & b' & ? & ? & _)|[? _]]; [right; by exists q|by left].
  - by left.
  - by left.
  - left. apply Ho.
  - by left.
  - destruct Ho as (_ & _ & [(q & ? & ? & _)|[? _]]); [right; by exists q|by left].
  - left. apply Ho.
Qed.
End Promises.

(** ** Executions of the demo world *)
Notation demoCalls := (calls id id Demo.dec id id Demo.sha Demo.deps) (only parsing).
Lemma demo_calls j (sel : Op → bool) o w b :
  picked Demo.world Demo.fair sel (runJob id id Demo.dec id id Demo.sha Demo.deps j) (Demo.start w b) = Some o →
  ∃ h, demoCalls j h o.
Proof. intros (h & k & Hr)%picked_reach. by exists h, k. Qed.
Definition writesTo (p : jstr) (o : Op) : bool := match o with IoWrite q _ => q === p | _ => false end.
Definition isRemove (o : Op) : bool := match o with IoRemove _ => true | _ => false end.
Definition isDelete (o : Op) : bool := match o with ApiDelete _ _ => true | _ => false end.
Definition commitsTo (p : jstr) (o : Op) : bool := match o with ApiCommit r => Wire.c_path r === p | _ => false end.

Definition demoCommit : Wire.CommitRequest :=
  {| Wire.c_path := js "new.md"; Wire.c_hash := js "#fresh"; Wire.c_size := 5; Wire.c_mtime := 0;
     Wire.c_chunks := [js "#fresh"]; Wire.c_expected := Some 0%Z |}.
Lemma uploads_are_guarded_witness : ∃ h,
  demoCalls JAll h (ApiCommit demoCommit) ∧ ∃ own, own ⊑ h ∧ ∃ b,
    (called own (IoRead (js "new.md")) (Ok b) ∨ called own (IoWrite (js "new.md") b) (Ok tt)) ∧
    js "#fresh" = Demo.sha b.
Proof.
  destruct (demo_calls JAll (commitsTo (js "new.md")) (ApiCommit demoCommit) Demo.world0 Demo.base0) as [h Hc];
    [vm_compute; reflexivity|].
  exists h. split; [exact Hc|].
  destruct (uploads_are_guarded id id Demo.dec id id Demo.sha Demo.deps Demo.sha_nonempty JAll h _ Hc)
    as (own & Hs & (b & Hb & Hh & _) & _).
  exists own. split; [exact Hs|]. exists b. split; [exact Hb|exact Hh].
Defined.
Lemma remote_delete_is_evidenced_witness : ∃ h,
  demoCalls JAll h (ApiDelete (js "gone.md") (Some 2%Z)) ∧ ∃ own, own ⊑ h ∧
    called own (IoExists (js "gone.md")) (Ok false).
Proof.
  destruct (demo_calls JAll isDelete (ApiDelete (js "gone.md") (Some 2%Z)) Demo.world0 Demo.base0) as [h Hc];
    [vm_compute; reflexivity|].
  exists h. split; [exact Hc|].
  destruct (remote_delete_is_evidenced id id Demo.dec id id Demo.sha Demo.deps Demo.sha_nonempty JAll h _ _ Hc)
    as (own & Hs & _ & _ & Hgone & _).
  exists own. split; [exact Hs|exact Hgone].
Defined.
(** The demo device as the reader of a read-only share. *)
Definition readerDeps : Deps := {|
  device := js "pc"; ignorePatterns := None; excludedFolders := None; maxSyncBytes := None; readOnly := true;
  noResurrect := false; preserveLocalFirstContact := true; accepts := λ _, true; bulkDeleteStrategy := None;
  bulkDeleteThreshold := None; caseInsensitivePaths := false; normalizationInsensitivePaths := false;
  hasExists := true; hasAppend := false; hasAlive := true; hasFlip := false; hasLocalSizeOf := false;
  hasStatOf := false; hasPathWork := false; hasRemotePlugins := false |}.
Lemma readonly_never_uploads_witness : ∃ h,
  calls id id Demo.dec id id Demo.sha readerDeps JAll h (IoWrite (js "a.md") (js "theirs")) ∧
  ∀ r h', ¬ calls id id Demo.dec id id Demo.sha readerDeps JAll h' (ApiCommit r).
Proof.
  destruct (picked_reach Demo.world Demo.fair (writesTo (js "a.md")) (runJob id id Demo.dec id id Demo.sha readerDeps JAll)
    (Demo.start Demo.world0 Demo.base0) (IoWrite (js "a.md") (js "theirs"))) as (h & k & Hr); [vm_compute; reflexivity|].
  exists h. split; [by exists k|].
  intros r h' Hc.
  exact (readonly_never_uploads id id Demo.dec id id Demo.sha readerDeps Demo.sha_nonempty JAll h' _ eq_refl Hc).
Defined.
Lemma passes_stay_in_scope_witness : ∃ h,
  demoCalls JAll h (IoRemove (js "old.md")) ∧
  (accepts Demo.deps (js "old.md") = true ∨ ∃ q, accepts Demo.deps q = true ∧ copyOf Demo.deps q (js "old.md")).
Proof.
  destruct (demo_calls JAll isRemove (IoRemove (js "old.md")) Demo.world0 Demo.base0) as [h Hc];
    [vm_compute; reflexivity|].
  exists h. split; [exact Hc|].
  exact (passes_stay_in_scope id id Demo.dec id id Demo.sha Demo.deps Demo.sha_nonempty JAll h _ _ Hc eq_refl).
Defined.
End Safety.
