(* ===== verification/Poll.v ===== *)
(** * Poll: the primary vault's reconciliation as the plugin drives it ([client/src/main.ts])

    [reconcileAllBody] is one poll, [reconcileFull] the pass of a connect, the
    review functions apply what the user decided about held files.  The plugin
    runs the trees of [Pass] and keeps its own records around them: the history
    floor and version of each vault, the scan windows, the held deletions.  [Look]
    reads the records; every other task may change them between two calls. *)

From S2P Require Import Prelude Jsmap Effects Base Decide Protocol Sync Reconcile Pass Demo Safety.

Module Poll.
Import One Pass.

Definition CONFIG_SCAN_INTERVAL_MS : Z := 30000.
Definition FULL_SCAN_INTERVAL_MS : Z := 900000.

(** ** The plugin's records *)
Record Plugin := {
  connected : bool; configSync : bool; vaultKey : jstr;
  lastConfigScanAt : Z; lastFullScanAt : Z;
  historyFloors : list (jstr * Z); lastVersions : list (jstr * Z);
  pendingDeletes : list (jstr * list jstr); pendingPushes : list (jstr * list jstr)
}.
Definition withHistory (f v : list (jstr * Z)) (p : Plugin) : Plugin :=
  {| connected := connected p; configSync := configSync p; vaultKey := vaultKey p; lastConfigScanAt := lastConfigScanAt p;
     lastFullScanAt := lastFullScanAt p; historyFloors := f; lastVersions := v;
     pendingDeletes := pendingDeletes p; pendingPushes := pendingPushes p |}.
Definition withHeld (l : list (jstr * list jstr)) (p : Plugin) : Plugin :=
  {| connected := connected p; configSync := configSync p; vaultKey := vaultKey p; lastConfigScanAt := lastConfigScanAt p;
     lastFullScanAt := lastFullScanAt p; historyFloors := historyFloors p; lastVersions := lastVersions p;
     pendingDeletes := l; pendingPushes := pendingPushes p |}.
Definition historyResetDetected (p : Plugin) (version : Z) (floor : option Z) : bool :=
  match jget (historyFloors p) (vaultKey p), floor with Some sf, Some f => (sf <? f)%Z | _, _ => false end
  || match jget (lastVersions p) (vaultKey p) with Some sv => (version <? sv)%Z | None => false end.
(** The records after, whether they are saved, and whether the user is told. *)
Definition noteHistory (version : Z) (floor : option Z) (kept : list jstr) (p : Plugin) : Plugin * bool * bool :=
  let reset := (0 <? length kept) && historyResetDetected p version floor in
  let floorChanged := match floor with Some f => negb (bool_decide (jget (historyFloors p) (vaultKey p) = Some f)) | None => false end in
  let floors := match floor with
                | Some f => if floorChanged then jset (historyFloors p) (vaultKey p) f else historyFloors p
                | None => historyFloors p
                end in
  let versionChanged := negb (bool_decide (jget (lastVersions p) (vaultKey p) = Some version)) in
  let versions := if versionChanged then jset (lastVersions p) (vaultKey p) version else lastVersions p in
  (withHistory floors versions p, floorChanged || versionChanged, reset).

(** ** The review of held files *)
Definition heldOf (m : list (jstr * list jstr)) (scope : jstr) : list jstr := default [] (jget m scope).
Definition putHeld (m : list (jstr * list jstr)) (scope : jstr) (l : list jstr) : list (jstr * list jstr) :=
  match l with [] => jdel m scope | _ :: _ => jset m scope l end.
Definition setPendingBulk (scope : jstr) (held : list jstr) (authoritative : bool) (m : list (jstr * list jstr))
    : list (jstr * list jstr) :=
  putHeld m scope (if authoritative then held else dedup (heldOf m scope ++ held)).
Definition clearHeldPaths (scope : jstr) (applied : list jstr) (m : list (jstr * list jstr)) : list (jstr * list jstr) :=
  putHeld m scope (filter (λ p, p ∉ applied) (heldOf m scope)).

(** ** What a pass reports while it runs *)
Record Seen := { kept : list jstr; held : list jstr }.
Definition nothing : Seen := {| kept := []; held := [] |}.
Definition see (n : Seen) (c : cmd Op State Err) : Seen :=
  match c with
  | Call (Say (NKeptAbsent p)) => {| kept := kept n ++ [p]; held := held n |}
  | Call (Say (NGuard p)) => {| kept := kept n; held := held n ++ [p] |}
  | _ => n
  end.

Inductive POp : Type :=
| Inner (o : Op) | Now | Look | BeginReconcile
| Note (version : Z) (floor : option Z) (kept : list jstr)
| ScannedConfig (t : Z) | ScannedAll (t : Z) | SettleUnsynced (t : Z)
| FlushReload | FlushDeletions | Hold (held : list jstr) (authoritative : bool) | Synced | PollMounts
| Exclusive (scope : jstr) | Clear (scope : jstr) (paths : list jstr) | SnapshotMount (scope : jstr) | Persist | ForceFull (scope : jstr).
Definition PAns (o : POp) : Type :=
  match o with
  | Inner o => Ans o
  | Now => Z
  | Look => Plugin
  | Exclusive _ => bool
  | FlushReload => res Err unit
  | _ => unit
  end.
Abbreviation P := (M PAns State Err).
Abbreviation ptree := (io (cmd POp State Err) (cans (Ans := PAns))).
Abbreviation PHistory := (hist PAns State Err).
Definition look : P Plugin := call Look.
Definition tell (o : POp) : P unit := bindM (call o) (λ _, mret' tt).

Definition isBaseChanged (o : Op) : bool := match o with Say NBaseChanged => true | _ => false end.
Definition pvis {A} (c : cmd POp State Err) (k : cans (Ans := PAns) c → ptree A) : ptree A := Vis c k.
(** A pass inside the plugin: its callbacks are collected, and with [escalate] the
    first thing a change of the base does is to show that work is under way. *)
Fixpoint embed {A} (escalate : bool) (n : Seen) (m : io (cmd Op State Err) (cans (Ans := Ans)) A) : ptree (A * Seen) :=
  match m with
  | Ret a => Ret (a, n)
  | Vis c k =>
      match c return (cans c → ptree (A * Seen)) → ptree (A * Seen) with
      | Call o => λ k',
          let run := pvis (Call (Inner o)) k' in
          if escalate && isBaseChanged o then pvis (Call BeginReconcile) (λ _, run) else run
      | Upd g => λ k', pvis (Upd g) k'
      | Pick => λ k', pvis Pick k'
      | NewPool => λ k', pvis NewPool k'
      | NextItem i => λ k', pvis (NextItem i) k'
      | StopPool i e => λ k', pvis (StopPool i e) k'
      | PoolError i => λ k', pvis (PoolError i) k'
      end (λ r, embed escalate (see n c) (k r))
  end.
Definition watched {A} (escalate : bool) (m : Client A) : P (A * Seen) :=
  io_bind (λ x, Ret (match x.1 with Ok a => Ok (a, x.2) | Throw e => Throw e end)) (embed escalate nothing m).

(** ** The history of a pass inside the plugin's *)
Section Embedding.
Implicit Types (h : PHistory) (hp : History).
Definition carry (e : event (cmd Op State Err) (cans (Ans := Ans))) : event (cmd POp State Err) (cans (Ans := PAns)) :=
  match projT1 e as c return cans c → event (cmd POp State Err) (cans (Ans := PAns)) with
  | Call o => λ r, ev (Ans := cans (Ans := PAns)) (Call (Inner o)) r
  | Upd g => λ r, ev (Ans := cans (Ans := PAns)) (Upd g) r
  | Pick => λ r, ev (Ans := cans (Ans := PAns)) Pick r
  | NewPool => λ r, ev (Ans := cans (Ans := PAns)) NewPool r
  | NextItem i => λ r, ev (Ans := cans (Ans := PAns)) (NextItem i) r
  | StopPool i x => λ r, ev (Ans := cans (Ans := PAns)) (StopPool i x) r
  | PoolError i => λ r, ev (Ans := cans (Ans := PAns)) (PoolError i) r
  end (projT2 e).
(** The history [hp] of a pass is a part of the plugin's. *)
Definition within hp h : Prop := carry <$> hp ⊑ h.
Definition seen (n : Seen) hp : Seen := foldl (λ n e, see n (projT1 e)) n hp.
Lemma called_within hp h o (r : Ans o) : within hp h → called hp o r → called h (Inner o) r.
Proof.
  intros Hw Hc. unfold within, called in *. eapply elem_of_sublist; [|exact Hw].
  apply list_elem_of_fmap. by eexists (ev (Call o) r).
Qed.
Lemma within_later hp h h' : h ⊑ h' → within hp h → within hp h'.
Proof. intros Hs Hw. unfold within in *. by etransitivity. Qed.
Lemma sublist_fmap {A B} (f : A → B) l l' : l ⊑ l' → f <$> l ⊑ f <$> l'.
Proof. induction 1; cbn; by constructor. Qed.
Lemma within_sub own hp h : own ⊑ hp → within hp h → within own h.
Proof. intros Hs Hw. unfold within in *. etransitivity; [|exact Hw]. by apply sublist_fmap. Qed.
Context (J : PHistory → POp → Prop) (Hbegin : ∀ h, J h BeginReconcile).
Lemma wp_embed {A} (esc : bool) n (m : io (cmd Op State Err) (cans (Ans := Ans)) A) Q h :
  (∀ hp o k hx, reach m hp (Vis (Call o) k) → carry <$> hp ⊑ hx → J (h ++ hx) (Inner o)) →
  (∀ hp a hx, reach m hp (Ret a) → carry <$> hp ⊑ hx → Q (a, seen n hp) (h ++ hx)) →
  safe J (embed esc n m) Q h.
Proof.
  revert n h. induction m as [a|c k IH]; intros n h HI HQ.
  { specialize (HQ [] a []). rewrite app_nil_r in HQ. apply HQ; [constructor|apply sublist_nil]. }
  assert (Hk : ∀ r h0, (h0 = [] ∨ ∃ e, h0 = [e]) →
    safe J (embed esc (see n c) (k r)) Q ((h ++ h0) ++ [carry (ev c r)])).
  { intros r h0 Hh0. apply IH.
    - intros hp o k' hx Hr Hc. rewrite <- !app_assoc. apply (HI (ev c r :: hp) o k'); [by constructor|].
      change (carry <$> ev c r :: hp) with ([] ++ carry (ev c r) :: (carry <$> hp)).
      apply sublist_app; [apply sublist_nil_l|]. by apply sublist_skip.
    - intros hp a hx Hr Hc. rewrite <- !app_assoc. apply (HQ (ev c r :: hp) a); [by constructor|].
      change (carry <$> ev c r :: hp) with ([] ++ carry (ev c r) :: (carry <$> hp)).
      apply sublist_app; [apply sublist_nil_l|]. by apply sublist_skip. }
  assert (Hk0 : ∀ r, safe J (embed esc (see n c) (k r)) Q (h ++ [carry (ev c r)])).
  { intros r. specialize (Hk r [] (or_introl eq_refl)). by rewrite app_nil_r in Hk. }
  destruct c as [o| | | | | |]; cbn [embed]; try (split; [done|]; exact Hk0).
  assert (Ho : ∀ hx, J (h ++ hx) (Inner o)).
  { intros hx. apply (HI [] o k); [constructor|apply sublist_nil_l]. }
  destruct (esc && isBaseChanged o).
  - split; [apply Hbegin|]. intros u. split; [apply Ho|]. intros r. apply Hk. right. by eexists.
  - split; [specialize (Ho []); by rewrite app_nil_r in Ho|]. exact Hk0.
Qed.
Lemma safe_watched {A} (esc : bool) (m : Client A) (Q : res Err (A * Seen) → PHistory → Prop) h :
  (∀ hp o k h', reach m hp (Vis (Call o) k) → within hp h' → h ⊑ h' → J h' (Inner o)) →
  (∀ hp a h', reach m hp (Ret (Ok a)) → within hp h' → h ⊑ h' → Q (Ok (a, seen nothing hp)) h') →
  (∀ e h', h ⊑ h' → Q (Throw e) h') →
  safe J (watched esc m) Q h.
Proof.
  intros HI HO HT. unfold watched, safe. apply wp_bind, wp_embed.
  - intros hp o k hx Hr Hc. eapply HI; [exact Hr| |by apply sublist_inserts_r].
    unfold within. etransitivity; [exact Hc|by apply sublist_inserts_l].
  - intros hp [a|e] hx Hr Hc; cbn.
    + apply HO; [done| |by apply sublist_inserts_r]. unfold within. etransitivity; [exact Hc|by apply sublist_inserts_l].
    + apply HT. by apply sublist_inserts_r.
Qed.
End Embedding.

Section Driver.
Context (nfc lowerCase : jstr → jstr) (decodeUtf8 : bytes → option jstr) (decodeLossy : bytes → jstr)
        (encodeUtf8 : jstr → bytes) (sha256hex : bytes → jstr) (d : Deps).
Definition fullPass : Client Wire.ChangesResponse :=
  Pass.reconcileAll nfc lowerCase decodeUtf8 decodeLossy encodeUtf8 sha256hex d.
Definition deltaPass (delta : Wire.ChangesResponse) (config : bool) : Client unit :=
  Pass.reconcileDelta nfc lowerCase decodeUtf8 decodeLossy encodeUtf8 sha256hex d delta ;;
  whenM config then Pass.reconcileLocalConfig nfc lowerCase decodeUtf8 decodeLossy encodeUtf8 sha256hex d.

(** ** One poll *)
Definition noChange (version : Z) (delta : Wire.ChangesResponse) : bool :=
  (length (Wire.upserts delta) =? 0) && (length (Wire.deletes delta) =? 0) && (Wire.r_version delta =? version)%Z.
Definition isFull (m : Decide.ReconcileMode) : bool := match m with Decide.MFull => true | _ => false end.
Definition runMode (m : Decide.ReconcileMode) (escalate : bool) (delta : Wire.ChangesResponse) : P Seen :=
  match m with
  | Decide.MFull => let* x := watched escalate fullPass in mret' x.2
  | Decide.MDeltaConfig => let* x := watched escalate (deltaPass delta true) in mret' x.2
  | _ => let* x := watched escalate (deltaPass delta false) in mret' x.2
  end.
Definition afterPass (now : Z) (forceConfig forceFull full : bool) (delta : Wire.ChangesResponse) (n : Seen) : P unit :=
  (whenM forceConfig then tell (ScannedConfig now)) ;;
  (whenM forceFull then tell (ScannedAll now)) ;;
  (whenM full then tell (SettleUnsynced now)) ;;
  callE FlushReload (λ r : PAns FlushReload, r) ;;
  tell FlushDeletions ;;
  let* v := gets version in
  tell (Note v (Wire.history_floor delta) (kept n)) ;;
  tell (Hold (held n) full) ;;
  tell Synced ;;
  tell PollMounts.
Definition reconcileAllBody : P unit :=
  let* p := look in
  if negb (connected p) then throw (ErrMsg (js "not connected"))
  else
    let* now := call Now in
    let forceConfig := configSync p && (CONFIG_SCAN_INTERVAL_MS <=? now - lastConfigScanAt p)%Z in
    let forceFull := (FULL_SCAN_INTERVAL_MS <=? now - lastFullScanAt p)%Z in
    let* since := gets version in
    let* delta := callE (Inner (ApiChanges since)) (λ r : PAns (Inner (ApiChanges since)), r) in
    let* p := look in
    let* v := gets version in
    let reset := historyResetDetected p (Wire.r_version delta) (Wire.history_floor delta) in
    let idle := noChange v delta in
    let mode := Decide.decideReconcileMode
      {| Decide.forceConfigScan := forceConfig; Decide.forceFullScan := forceFull; Decide.reset := reset; Decide.noChange := idle |} in
    match mode with
    | Decide.MNoop => tell (Note (Wire.r_version delta) (Wire.history_floor delta) []) ;; tell PollMounts
    | _ =>
        let busy := negb idle || reset in
        (whenM busy then tell BeginReconcile) ;;
        let* n := runMode mode (negb busy) delta in
        afterPass now forceConfig forceFull (isFull mode) delta n
    end.
(** The pass of a connect. *)
Definition reconcileFull : P unit :=
  let* x := watched false fullPass in
  tell (Note (Wire.r_version x.1) (Wire.history_floor x.1) (kept x.2)) ;;
  tell (Hold (held x.2) true) ;;
  tell PollMounts.

(** ** Applying a review *)
Definition resolveHeld (pending : Plugin → list (jstr * list jstr)) (apply : list jstr → Client unit) (force : bool)
    (scope : jstr) : P unit :=
  let* p := look in
  match heldOf (pending p) scope with
  | [] => mret' tt
  | paths =>
      let* ok := call (Exclusive scope) in
      if negb ok then mret' tt
      else
        watched false (apply paths) ;;
        tell (Clear scope paths) ;; tell (SnapshotMount scope) ;; tell Persist ;;
        whenM force then tell (ForceFull scope)
  end.
Definition acceptBulkDeletions : jstr → P unit := resolveHeld pendingDeletes Pass.applyHeldDeletions false.
Definition keepBulkDeletions : jstr → P unit := resolveHeld pendingDeletes Pass.keepHeldDeletions true.
Definition acceptBulkPushes : jstr → P unit := resolveHeld pendingPushes (Pass.applyHeldPushes decodeUtf8 decodeLossy sha256hex) false.
Definition keepBulkPushes : jstr → P unit := resolveHeld pendingPushes (Pass.keepHeldPushes decodeUtf8 decodeLossy sha256hex) false.

(** ** What a poll has to have seen *)
Implicit Types (h : PHistory) (hp : History).
(** A pass ran to its end, and this is what it reported. *)
Definition fullDone h (n : Seen) : Prop :=
  ∃ hp resp, reach fullPass hp (Ret (Ok resp)) ∧ within hp h ∧ n = seen nothing hp.
Definition deltaDone h (n : Seen) : Prop :=
  ∃ hp v delta cfg, called h (Inner (ApiChanges v)) (Ok delta) ∧
    reach (deltaPass delta cfg) hp (Ret (Ok tt)) ∧ within hp h ∧ n = seen nothing hp.
Definition passDone h (n : Seen) (full : bool) : Prop := if full then fullDone h n else deltaDone h n.
Definition resetSeen h (delta : Wire.ChangesResponse) (b : bool) : Prop :=
  ∃ p, called h Look p ∧ historyResetDetected p (Wire.r_version delta) (Wire.history_floor delta) = b.
Definition polled h (delta : Wire.ChangesResponse) : Prop := ∃ v, called h (Inner (ApiChanges v)) (Ok delta).
(** A pass may make the call: the promises of [Safety] hold of its own history. *)
Definition promised h (o : Op) : Prop :=
  ∃ given own, within own h ∧ (∀ r, r ∈ given → polled h r) ∧
    Safety.allowed nfc decodeUtf8 decodeLossy encodeUtf8 sha256hex d given own o.
Definition allowed h (o : POp) : Prop :=
  match o with
  | Inner o => (∃ v, o = ApiChanges v) ∨ promised h o
  | Note v floor l =>
      ∃ delta, polled h delta ∧ floor = Wire.history_floor delta ∧
        ((l = [] ∧ v = Wire.r_version delta ∧ resetSeen h delta false) ∨
         ∃ n full, l = kept n ∧ passDone h n full ∧ (full = false → resetSeen h delta false))
  | Hold l full => ∃ n, l = held n ∧ passDone h n full
  | ScannedConfig t => called h Now t ∧ ∃ n full, passDone h n full
  | ScannedAll t | SettleUnsynced t => called h Now t ∧ ∃ n, fullDone h n
  | _ => True
  end.
Lemma fullDone_mono h h' n : h ⊑ h' → fullDone h n → fullDone h' n.
Proof. intros Hs (hp & resp & Hr & Hw & Hn). exists hp, resp. split_and!; [done|by eapply within_later|done]. Qed.
Lemma deltaDone_mono h h' n : h ⊑ h' → deltaDone h n → deltaDone h' n.
Proof.
  intros Hs (hp & v & delta & cfg & Hc & Hr & Hw & Hn). exists hp, v, delta, cfg.
  split_and!; [by eapply called_mono|done|by eapply within_later|done].
Qed.
Lemma passDone_mono h h' n full : h ⊑ h' → passDone h n full → passDone h' n full.
Proof. destruct full; [apply fullDone_mono|apply deltaDone_mono]. Qed.
Lemma resetSeen_mono h h' delta b : h ⊑ h' → resetSeen h delta b → resetSeen h' delta b.
Proof. intros Hs (p & Hc & Hp). exists p. split; [by eapply called_mono|done]. Qed.
Lemma polled_mono h h' delta : h ⊑ h' → polled h delta → polled h' delta.
Proof. intros Hs [v Hc]. exists v. by eapply called_mono. Qed.
Lemma promised_mono h h' o : h ⊑ h' → promised h o → promised h' o.
Proof.
  intros Hs (given & own & Hw & Hg & Ha). exists given, own. split_and!; [by eapply within_later| |done].
  intros r Hr. by eapply polled_mono, Hg.
Qed.
#[local] Hint Resolve fullDone_mono deltaDone_mono passDone_mono resetSeen_mono polled_mono promised_mono : core.
#[local] Instance allowed_justified : Justified allowed.
Proof.
  intros h h' o Hs. destruct o; cbn; try done.
  - intros [H|H]; [by left|right; eauto].
  - intros (delta & Hp & Hf & [(Hl & Hv & Hr)|(n & full & Hl & Hd & Hr)]); exists delta; (split; [eauto|split; [done|]]).
    + left. split_and!; eauto.
    + right. exists n, full. split_and!; eauto.
  - intros (Ht & n & full & Hd). split; [by eapply called_mono|eauto].
  - intros (Ht & n & Hd). split; [by eapply called_mono|eauto].
  - intros (Ht & n & Hd). split; [by eapply called_mono|eauto].
  - intros (n & Hl & Hd). eauto.
Qed.


(** ** The promises of a poll *)
Section Promises.
Context (sha_nonempty : ∀ b, sha256hex b ≠ []).
Lemma full_calls hp o k :
  reach fullPass hp (Vis (Call o) k) →
  ∃ own, own ⊑ hp ∧ Safety.allowed nfc decodeUtf8 decodeLossy encodeUtf8 sha256hex d [] own o.
Proof using sha_nonempty.
  intros Hr. assert (Hs : safe (Safety.I nfc decodeUtf8 decodeLossy encodeUtf8 sha256hex d []) fullPass Safety.fine [])
    by (by apply Safety.safe_reconcileAll).
  exact (wp_adequacy _ _ _ _ Hs _ _ Hr).
Qed.
Lemma delta_calls delta cfg hp o k :
  reach (deltaPass delta cfg) hp (Vis (Call o) k) →
  ∃ own, own ⊑ hp ∧ Safety.allowed nfc decodeUtf8 decodeLossy encodeUtf8 sha256hex d [delta] own o.
Proof using sha_nonempty.
  intros Hr.
  assert (Hs : safe (Safety.I nfc decodeUtf8 decodeLossy encodeUtf8 sha256hex d [delta]) (deltaPass delta cfg) Safety.fine []).
  { apply safe_bind. eapply safe_mono; [|apply Safety.safe_reconcileDelta; [done|left; by left]].
    intros [u|e] h' _ _ _; [|done]. destruct cfg; [by apply Safety.safe_reconcileLocalConfig|done]. }
  exact (wp_adequacy _ _ _ _ Hs _ _ Hr).
Qed.
Lemma poll_tell o (Q : res Err unit → PHistory → Prop) h :
  allowed h o → (∀ r h', h ⊑ h' → called h' o r → Q (Ok tt) h') → safe allowed (tell o) Q h.
Proof.
  intros Ho HQ. apply safe_bind. apply safe_call; [done|]. intros r h' Hs Hc _. apply safe_ret. by eapply HQ.
Qed.
Lemma poll_look (Q : res Err Plugin → PHistory → Prop) h :
  (∀ p h', h ⊑ h' → called h' Look p → Q (Ok p) h') → safe allowed look Q h.
Proof. intros HQ. by apply (safe_call allowed Look). Qed.
(** The pass that a mode runs. *)
Lemma safe_runMode m esc delta h (Q : res Err Seen → PHistory → Prop) :
  polled h delta →
  (∀ n h', h ⊑ h' → passDone h' n (isFull m) → Q (Ok n) h') → (∀ e h', h ⊑ h' → Q (Throw e) h') →
  safe allowed (runMode m esc delta) Q h.
Proof using sha_nonempty.
  intros Hp HO HT.
  assert (Hd : ∀ cfg, isFull m = false → safe allowed (let* x := watched esc (deltaPass delta cfg) in mret' x.2) Q h).
  { intros cfg Hm. apply safe_bind, (safe_watched allowed (λ _, Logic.I)); [| |intros e h' Hs _; by apply HT].
    - intros hp o k h' Hr Hw Hs. apply delta_calls in Hr as (own & Ho & Ha). right. exists [delta], own.
      split_and!; [by eapply within_sub| |done]. intros r ->%list_elem_of_singleton. eauto.
    - intros hp [] h' Hr Hw Hs _. apply safe_ret, HO; [done|]. rewrite Hm. destruct Hp as [v Hc].
      exists hp, v, delta, cfg. split_and!; [by eapply called_mono|done..]. }
  destruct m; cbn [runMode isFull]; try (by apply Hd).
  apply safe_bind, (safe_watched allowed (λ _, Logic.I)); [| |intros e h' Hs _; by apply HT].
  - intros hp o k h' Hr Hw Hs. apply full_calls in Hr as (own & Ho & Ha). right. exists [], own.
    split_and!; [by eapply within_sub| |done]. intros r Hr. by apply not_elem_of_nil in Hr.
  - intros hp resp h' Hr Hw Hs _. apply safe_ret, HO; [done|]. by exists hp, resp.
Qed.
(** What a poll that returns has done. *)
Definition concluded (r : res Err unit) h : Prop :=
  match r with
  | Throw _ => True
  | Ok _ =>
      ∃ delta, polled h delta ∧
        ((resetSeen h delta false ∧ called h (Note (Wire.r_version delta) (Wire.history_floor delta) []) tt) ∨
         ∃ n full v, passDone h n full ∧ (full = false → resetSeen h delta false) ∧
           called h (Note v (Wire.history_floor delta) (kept n)) tt ∧ called h (Hold (held n) full) tt)
  end.
Lemma safe_afterPass now fc ff m delta n h :
  polled h delta → called h Now now → passDone h n (isFull m) →
  (isFull m = false → resetSeen h delta false) → (ff = true → isFull m = true) →
  safe allowed (afterPass now fc ff (isFull m) delta n) concluded h.
Proof.
  intros Hp Hn Hd Hr Hff. unfold afterPass.
  assert (Hfull : isFull m = true → fullDone h n) by (intros Hm; by rewrite Hm in Hd).
  assert (Hopt : ∀ (b : bool) o (K : P unit) h0, h ⊑ h0 → (b = true → ∀ h', h ⊑ h' → allowed h' o) →
    (∀ h', h ⊑ h' → safe allowed K concluded h') → safe allowed ((whenM b then tell o) ;; K) concluded h0).
  { intros b o K h0 Hs0 Ho HK. apply safe_bind. destruct b; [|apply safe_ret; intros _; by apply HK].
    apply poll_tell; [by apply Ho|]. intros _ h' Hs' _ _. apply HK. chain. }
  apply Hopt; [done| |].
  { intros _ h' Hs. split; [by eapply called_mono|]. exists n, (isFull m). eauto. }
  intros h1 Hs1. apply Hopt; [done| |].
  { intros Hf h' Hs. split; [by eapply called_mono|]. exists n. eauto. }
  intros h2 Hs2. apply Hopt; [done| |].
  { intros Hf h' Hs. split; [by eapply called_mono|]. exists n. eauto. }
  intros h3 Hs3. apply safe_bind, safe_callE; [done|]. intros [[]|e] h4 Hs4 _ _; [|done].
  apply safe_bind, poll_tell; [done|]. intros _ h5 Hs5 _ _. apply safe_bind, safe_gets. intros s h6 Hs6 _ _.
  assert (H6 : h ⊑ h6) by chain.
  apply safe_bind, poll_tell.
  { exists delta. split; [eauto|split; [done|]]. right. exists n, (isFull m). split_and!; eauto. }
  intros [] h7 Hs7 Hc7 _. apply safe_bind, poll_tell; [exists n; split; [done|eapply passDone_mono; [|exact Hd]; chain]|].
  intros [] h8 Hs8 Hc8 _. apply safe_bind, poll_tell; [done|]. intros _ h9 Hs9 _ _. apply poll_tell; [done|].
  intros _ h10 Hs10 _. assert (H10 : h ⊑ h10) by chain. exists delta. split; [eauto|]. right.
  exists n, (isFull m), (version s). split_and!; eauto.
  - eapply called_mono; [|exact Hc7]. chain.
  - eapply called_mono; [|exact Hc8]. chain.
Qed.
Lemma safe_poll h : safe allowed reconcileAllBody concluded h.
Proof using sha_nonempty.
  apply safe_bind, poll_look. intros p h1 Hs1 Hp1 _. destruct (negb (connected p)); [done|].
  apply safe_bind, (safe_call allowed Now); [done|]. intros now h2 Hs2 Hnow _. cbv zeta.
  apply safe_bind, safe_gets. intros s h3 Hs3 _ _.
  apply safe_bind, safe_callE; [left; by eexists|]. intros [delta|e] h4 Hs4 Hc _; [|done].
  apply safe_bind, poll_look. intros p' h5 Hs5 Hp' _. apply safe_bind, safe_gets. intros s' h6 Hs6 _ _.
  set (reset := historyResetDetected p' _ _). assert (Hpd : ∀ h', h4 ⊑ h' → polled h' delta) by (intros h' Hs; exists (version s); by eapply called_mono).
  assert (Hrs : ∀ h', h5 ⊑ h' → resetSeen h' delta reset) by (intros h' Hs; exists p'; split; [by eapply called_mono|done]).
  set (facts := Decide.Build_ModeFacts _ _ _ _).
  assert (Hm : (Decide.decideReconcileMode facts = Decide.MNoop → reset = false) ∧
               (isFull (Decide.decideReconcileMode facts) = false → reset = false) ∧
               (Decide.forceFullScan facts = true → isFull (Decide.decideReconcileMode facts) = true)).
  { unfold Decide.decideReconcileMode. cbn. destruct (_ && _), (_ <=? now - lastFullScanAt p)%Z, reset, (noChange _ _); cbn; naive_solver. }
  destruct Hm as (Hnoop & Hpart & Hforce).
  assert (Hrun : ∀ m (b : bool), m = Decide.decideReconcileMode facts →
    safe allowed ((whenM b then tell BeginReconcile) ;;
                  let* n := runMode m (negb b) delta in
                  afterPass now (Decide.forceConfigScan facts) (Decide.forceFullScan facts) (isFull m) delta n) concluded h6).
  { intros m b ->. apply safe_bind.
    assert (Hk : ∀ h', h6 ⊑ h' → safe allowed (let* n := runMode (Decide.decideReconcileMode facts) (negb b) delta in
      afterPass now (Decide.forceConfigScan facts) (Decide.forceFullScan facts) (isFull (Decide.decideReconcileMode facts)) delta n) concluded h').
    { intros h7 Hs7. apply safe_bind, safe_runMode; [apply Hpd; chain| |done]. intros n h8 Hs8 Hd _.
      apply safe_afterPass; [apply Hpd; chain|eapply called_mono; [|exact Hnow]; chain|done| |exact Hforce].
      intros Hf. rewrite <- (Hpart Hf). apply Hrs. chain. }
    destruct b; [apply poll_tell; [done|]; intros _ h' Hs' _ _; by apply Hk|apply safe_ret; intros _; by apply Hk]. }
  destruct (Decide.decideReconcileMode facts) eqn:Hmode; try (by apply Hrun).
  specialize (Hnoop eq_refl). rewrite Hnoop in *.
  apply safe_bind, poll_tell.
  { exists delta. split; [apply Hpd; chain|split; [done|]]. left. split_and!; [done|done|apply Hrs; chain]. }
  intros [] h7 Hs7 Hn7 _. apply poll_tell; [done|]. intros _ h8 Hs8 _. exists delta. split; [apply Hpd; chain|]. left.
  split; [apply Hrs; chain|by eapply called_mono].
Qed.
End Promises.

(** C27: The plugin's poll keeps the promises: every call its passes make is one that
    the specification allows after their own history.  The vault's history floor
    and version are recorded for an answer that shows a reset of the server's
    deletion history only after a full pass over the vault ended, so a reset is
    never forgotten before every local file was looked at; the scan windows are
    closed, and an edit counts as synced, only after the pass ended; and the
    deletions held for the user are replaced only by what a full pass held. *)
Theorem poll_keeps_promises (sha_nonempty : ∀ b, sha256hex b ≠ []) h o k :
  reach reconcileAllBody h (Vis (Call o) k) → allowed h o.
Proof. intros Hr. exact (wp_adequacy _ _ _ _ (safe_poll sha_nonempty []) _ _ Hr). Qed.

(** A poll that returns has settled the server's answer: either nothing changed
    and no reset showed, and the answer's floor and version were recorded; or a
    pass ran to its end, a full one if a reset showed, what it kept was noted
    with the answer's floor, and what it held was put up for review. *)
Theorem poll_outcome (sha_nonempty : ∀ b, sha256hex b ≠ []) h r :
  reach reconcileAllBody h (Ret r) → concluded r h.
Proof. intros Hr. exact (wp_adequacy _ _ _ _ (safe_poll sha_nonempty []) _ _ Hr). Qed.
(** The pass of a connect records its answer, and its review, only once it ended. *)
Theorem connect_pass_records (sha_nonempty : ∀ b, sha256hex b ≠ []) h o k :
  reach reconcileFull h (Vis (Call o) k) →
  match o with
  | Note v floor l =>
      ∃ hp resp, reach fullPass hp (Ret (Ok resp)) ∧ within hp h ∧
        v = Wire.r_version resp ∧ floor = Wire.history_floor resp ∧ l = kept (seen nothing hp)
  | Hold l full => full = true ∧ ∃ n, fullDone h n ∧ l = held n
  | Inner o => promised h o
  | _ => True
  end.
Proof.
  set (J := λ h o, match o with
    | Note v floor l => ∃ hp resp, reach fullPass hp (Ret (Ok resp)) ∧ within hp h ∧
        v = Wire.r_version resp ∧ floor = Wire.history_floor resp ∧ l = kept (seen nothing hp)
    | Hold l full => full = true ∧ ∃ n, fullDone h n ∧ l = held n
    | Inner o => promised h o
    | _ => True end).
  assert (Hs : safe J reconcileFull (λ _ _, True) []).
  { apply safe_bind, (safe_watched J (λ _, Logic.I)); [| |done].
    - intros hp o' k' h' Hr Hw _. apply (full_calls sha_nonempty) in Hr as (own & Ho & Ha). exists [], own.
      split_and!; [by eapply within_sub| |done]. intros r Hr. by apply not_elem_of_nil in Hr.
    - intros hp resp h1 Hr Hw Hs1 _. cbn [fst snd].
      apply safe_bind. apply safe_bind, (safe_call J (Note _ _ _)); [by exists hp, resp|]. intros u h2 Hs2 _ _. apply safe_ret.
      intros _. apply safe_bind. apply safe_bind, (safe_call J (Hold _ _)).
      { split; [done|]. exists (seen nothing hp). split; [|done]. exists hp, resp. split_and!; [done|by eapply within_later|done]. }
      intros u' h3 Hs3 _ _. apply safe_ret. intros _. split; done. }
  intros Hr. exact (wp_adequacy _ _ _ _ Hs _ _ Hr).
Qed.

(** ** Review *)
(** What the resolution of a review may do: [only] bounds the calls on the files. *)
Definition obeys (pending : Plugin → list (jstr * list jstr)) (apply : list jstr → Client unit) (scope : jstr)
    (only : list jstr → Op → Prop) h (o : POp) : Prop :=
  match o with
  | Inner o => ∃ p, called h Look p ∧ called h (Exclusive scope) true ∧ only (heldOf (pending p) scope) o
  | Clear s l =>
      s = scope ∧ (∃ p, called h Look p ∧ l = heldOf (pending p) scope) ∧
      ∃ hp, reach (apply l) hp (Ret (Ok tt)) ∧ within hp h
  | SnapshotMount s => s = scope ∧ ∃ l, called h (Clear scope l) tt
  | Persist => called h (SnapshotMount scope) tt
  | ForceFull s => s = scope ∧ called h Persist tt
  | _ => True
  end.
Lemma resolveHeld_obeys pending apply force scope (only : list jstr → Op → Prop) h o k :
  (∀ paths hp o k, reach (apply paths) hp (Vis (Call o) k) → only paths o) →
  reach (resolveHeld pending apply force scope) h (Vis (Call o) k) → obeys pending apply scope only h o.
Proof.
  intros Honly Hr. set (J := obeys pending apply scope only).
  assert (Hs : safe J (resolveHeld pending apply force scope) (λ _ _, True) []).
  { apply safe_bind, (safe_call J Look); [done|]. intros p h1 Hs1 Hp _. destruct (heldOf (pending p) scope) as [|x l] eqn:Hheld; [done|].
    apply safe_bind, (safe_call J (Exclusive scope)); [done|]. intros ok h2 Hs2 Hok _. destruct ok; cbn [negb]; [|done].
    apply safe_bind, (safe_watched J (λ _, Logic.I)); [| |done].
    - intros hp o' k' h' Hr' Hw Hs'. exists p. split_and!; [eapply called_mono; [|exact Hp]; chain|by eapply called_mono|].
      rewrite Hheld. by eapply Honly.
    - intros hp [] h3 Hr' Hw Hs3 _. apply safe_bind, safe_bind, (safe_call J (Clear scope (x :: l))).
      { split; [done|]. split; [exists p; split; [eapply called_mono; [|exact Hp]; chain|done]|]. by exists hp. }
      intros [] h4 Hs4 Hc _. apply safe_ret. intros _. apply safe_bind, safe_bind, (safe_call J (SnapshotMount scope)).
      { split; [done|]. by eexists. }
      intros [] h5 Hs5 Hc5 _. apply safe_ret. intros _. apply safe_bind, safe_bind, (safe_call J Persist); [exact Hc5|].
      intros [] h6 Hs6 Hc6 _. apply safe_ret. intros _. destruct force; [|done].
      apply safe_bind, (safe_call J (ForceFull scope)); [by split|]. done. }
  exact (wp_adequacy _ _ _ _ Hs _ _ Hr).
Qed.
(** Removals of the given paths, and messages. *)
Definition removesOnly (paths : list jstr) (o : Op) : Prop :=
  match o with IoRemove q => q ∈ paths | Say _ => True | _ => False end.
Definition saysOnly (paths : list jstr) (o : Op) : Prop := match o with Say _ => True | _ => False end.
Lemma for_each_calls {A} (l : list A) (f : A → Client unit) (C : Op → Prop) (h : History) :
  (∀ x (h' : History), x ∈ l → safe (λ _, C) (f x) Safety.fine h') → safe (λ _, C) (for_each l f) Safety.fine h.
Proof. intros Hf. apply safe_for_each; [|done]. intros x h' Hx _. by apply Hf. Qed.
Lemma changedIfAny_says paths (C : Op → Prop) (h : History) : (∀ n, C (Say n)) → safe (λ _, C) (Pass.changedIfAny paths) Safety.fine h.
Proof. intros HC. destruct paths; [done|]. split; [apply HC|done]. Qed.
Lemma accept_removes paths hp o k : reach (Pass.applyHeldDeletions paths) hp (Vis (Call o) k) → removesOnly paths o.
Proof.
  assert (Hs : safe (λ _, removesOnly paths) (Pass.applyHeldDeletions paths) Safety.fine []).
  { apply safe_bind. eapply safe_mono, for_each_calls.
    - intros [u|e] h' _ _ _; [by apply changedIfAny_says|done].
    - intros p h' Hp. apply safe_try, safe_bind. split; [exact Hp|]. intros [u|e]; cbn [id].
      + intros _. split; [done|]. intros r. done.
      + intros _ _. split; done. }
  intros Hr. exact (wp_adequacy _ _ _ _ Hs _ _ Hr).
Qed.
Lemma keep_says paths hp o k : reach (Pass.keepHeldDeletions paths) hp (Vis (Call o) k) → saysOnly paths o.
Proof.
  assert (Hs : safe (λ _, saysOnly paths) (Pass.keepHeldDeletions paths) Safety.fine []).
  { apply safe_bind. eapply safe_mono, for_each_calls.
    - intros [u|e] h' _ _ _; [by apply changedIfAny_says|done].
    - intros p h' Hp. split; done. }
  intros Hr. exact (wp_adequacy _ _ _ _ Hs _ _ Hr).
Qed.

(** The user's answer about held deletions is obeyed and nothing more: accepting
    removes only files that were held for that scope when the user answered,
    keeping touches no file; either runs only with the scope to itself, and a
    path leaves the review only once the answer was carried out for it, the
    mount's state being taken after that and before it is saved.  Keeping then
    forces a full pass over the scope, so what was kept is looked at again. *)
Theorem review_is_obeyed scope h o k :
  (reach (acceptBulkDeletions scope) h (Vis (Call o) k) →
     obeys pendingDeletes Pass.applyHeldDeletions scope removesOnly h o) ∧
  (reach (keepBulkDeletions scope) h (Vis (Call o) k) →
     obeys pendingDeletes Pass.keepHeldDeletions scope saysOnly h o).
Proof. split; apply resolveHeld_obeys; [apply accept_removes|apply keep_says]. Qed.
End Driver.

(** ** The records *)
Lemma resets_at p version floor sf sv :
  jget (historyFloors p) (vaultKey p) = sf → jget (lastVersions p) (vaultKey p) = sv →
  historyResetDetected p version floor = true ↔
  (∃ a b, sf = Some a ∧ floor = Some b ∧ (a < b)%Z) ∨ ∃ v, sv = Some v ∧ (version < v)%Z.
Proof.
  intros Hsf Hsv. unfold historyResetDetected. rewrite Hsf, Hsv, orb_true_iff. f_equiv.
  - destruct sf as [a|], floor as [b|]; try naive_solver. rewrite Z.ltb_lt. naive_solver.
  - destruct sv as [v|]; [rewrite Z.ltb_lt|]; naive_solver.
Qed.
(** Recording an answer: afterwards the vault's last version is the answer's, its
    floor the answer's when it has one, and the same answer shows no reset any
    more, so a reset is announced once; no other vault's record changes; the
    records are saved exactly when they changed; and the user is told exactly
    when files were kept and the answer showed a reset. *)
Theorem history_spent version floor kept_ p :
  let '(p', saved, told) := noteHistory version floor kept_ p in
  historyResetDetected p' version floor = false ∧
  jget (lastVersions p') (vaultKey p) = Some version ∧
  jget (historyFloors p') (vaultKey p) = match floor with Some f => Some f | None => jget (historyFloors p) (vaultKey p) end ∧
  (∀ k, k ≠ vaultKey p → jget (lastVersions p') k = jget (lastVersions p) k ∧ jget (historyFloors p') k = jget (historyFloors p) k) ∧
  (saved = false → historyFloors p' = historyFloors p ∧ lastVersions p' = lastVersions p) ∧
  (told = true ↔ kept_ ≠ [] ∧ historyResetDetected p version floor = true).
Proof.
  unfold noteHistory. set (fc := match floor with Some f => _ | None => false end).
  set (vc := negb (bool_decide (jget (lastVersions p) _ = _))).
  set (floors := match floor with Some f => if fc then _ else _ | None => _ end).
  set (versions := if vc then _ else _).
  assert (Hv : jget versions (vaultKey p) = Some version).
  { subst versions vc. case_bool_decide as H; cbn [negb]; [done|]. apply jget_set_eq. }
  assert (Hf : jget floors (vaultKey p) = match floor with Some f => Some f | None => jget (historyFloors p) (vaultKey p) end).
  { subst floors fc. destruct floor as [f|]; [|done]. case_bool_decide as H; cbn [negb]; [done|]. apply jget_set_eq. }
  cbn [historyFloors lastVersions withHistory]. split_and!; [|done|done| | |].
  - destruct (historyResetDetected _ _ _) eqn:Hr; [|done]. exfalso.
    apply (resets_at (withHistory floors versions p) _ _ _ _ Hf Hv) in Hr as [(a & b & Ha & Hb & Hlt)|(v & [= <-] & Hlt)]; [|lia].
    destruct floor as [f|]; [|done]. injection Ha as <-. injection Hb as <-. lia.
  - intros k Hk. subst versions floors. split.
    + destruct vc; [by apply jget_set_ne|done].
    + destruct floor; [|done]. destruct fc; [by apply jget_set_ne|done].
  - intros [Hfc Hvc]%orb_false_iff. subst versions floors. rewrite Hvc. split; [|done]. destruct floor; [by rewrite Hfc|done].
  - rewrite andb_true_iff, Nat.ltb_lt. destruct kept_; cbn; naive_solver lia.
Qed.

Lemma heldOf_put m scope scope' l : jwf m →
  heldOf (putHeld m scope l) scope' = if bool_decide (scope' = scope) then l else heldOf m scope'.
Proof.
  intros Hwf. unfold heldOf, putHeld. case_bool_decide as Hs.
  - subst scope'. destruct l; [by rewrite jget_del_eq|by rewrite jget_set_eq].
  - destruct l; [by rewrite jget_del_ne|by rewrite jget_set_ne].
Qed.
(** The review never loses a held file it did not settle: a full pass replaces
    what its scope holds, any other pass only adds to it, and applying an answer
    takes out exactly the paths the answer was about, so a file held while the
    answer was being carried out is still there; other scopes are untouched. *)
Theorem review_loses_nothing scope held_ full applied m q s :
  jwf m →
  let m1 := setPendingBulk scope held_ full m in
  let m2 := clearHeldPaths scope applied m1 in
  jwf m1 ∧ jwf m2 ∧
  (q ∈ heldOf m1 s ↔ if bool_decide (s = scope) then q ∈ held_ ∨ (full = false ∧ q ∈ heldOf m s) else q ∈ heldOf m s) ∧
  (q ∈ heldOf m2 s ↔ q ∈ heldOf m1 s ∧ (s = scope → q ∉ applied)) ∧
  (q ∈ held_ → q ∉ applied → q ∈ heldOf m2 scope).
Proof.
  intros Hwf. cbv zeta.
  assert (Hput : ∀ m l, jwf m → jwf (putHeld m scope l)) by (intros m' l Hm; unfold putHeld; destruct l; [by apply jwf_del|by apply jwf_set]).
  assert (Hwf1 : jwf (setPendingBulk scope held_ full m)) by by apply Hput.
  assert (H1 : ∀ q s, q ∈ heldOf (setPendingBulk scope held_ full m) s ↔
    if bool_decide (s = scope) then q ∈ held_ ∨ (full = false ∧ q ∈ heldOf m s) else q ∈ heldOf m s).
  { intros q' s'. unfold setPendingBulk. rewrite heldOf_put by done. case_bool_decide as Hs; [|done]. subst s'.
    destruct full; [naive_solver|]. rewrite dedup_elem_of, elem_of_app. naive_solver. }
  assert (H2 : ∀ q s, q ∈ heldOf (clearHeldPaths scope applied (setPendingBulk scope held_ full m)) s ↔
    q ∈ heldOf (setPendingBulk scope held_ full m) s ∧ (s = scope → q ∉ applied)).
  { intros q' s'. unfold clearHeldPaths at 1. rewrite heldOf_put by done. case_bool_decide as Hs; [|naive_solver]. subst s'.
    rewrite list_elem_of_filter. naive_solver. }
  split_and!; [done|by apply Hput|apply H1|apply H2|].
  intros Hq Ha. apply H2. split; [|done]. apply H1. rewrite bool_decide_eq_true_2 by done. by left.
Qed.

(** ** A plugin for the witnesses *)
Definition demoPlugin : Plugin :=
  {| connected := true; configSync := false; vaultKey := js "/notes"; lastConfigScanAt := 0; lastFullScanAt := 0;
     historyFloors := []; lastVersions := [(js "/notes", 9%Z)]; pendingDeletes := [(js "primary", [js "old.md"])]; pendingPushes := [] |}.
Definition rekey (k : jstr) (p : Plugin) : Plugin :=
  {| connected := connected p; configSync := configSync p; vaultKey := k; lastConfigScanAt := lastConfigScanAt p;
     lastFullScanAt := lastFullScanAt p; historyFloors := historyFloors p; lastVersions := lastVersions p;
     pendingDeletes := pendingDeletes p; pendingPushes := pendingPushes p |}.
(** [switch] is what happens to the plugin while the configuration is reloaded. *)
Definition pollWorld (switch : Plugin → Plugin) (w : Plugin * Demo.World) (o : POp) : PAns o * (Plugin * Demo.World) :=
  match o return PAns o * (Plugin * Demo.World) with
  | Inner o => let '(r, w') := Demo.world w.2 o in (r, (w.1, w'))
  | Now => (1000%Z, w)
  | Look => (w.1, w)
  | Note v f l => (tt, ((noteHistory v f l w.1).1.1, w.2))
  | Hold l full => (tt, (withHeld (setPendingBulk (js "primary") l full (pendingDeletes w.1)) w.1, w.2))
  | Clear s l => (tt, (withHeld (clearHeldPaths s l (pendingDeletes w.1)) w.1, w.2))
  | Exclusive _ => (true, w)
  | FlushReload => (Ok tt, (switch w.1, w.2))
  | _ => (tt, w)
  end.
Definition demoPoll : P unit := reconcileAllBody id id Demo.dec id id Demo.sha Demo.deps.
Definition demoConf : conf State Err (Plugin * Demo.World) := Conf (demoPlugin, Demo.world0) (Demo.state Demo.base0) [] 0.
Definition isNote (o : POp) : bool := match o with Note _ _ _ => true | _ => false end.
Definition isRemoval (o : POp) : bool := match o with Inner (IoRemove _) => true | _ => false end.
(** The server answers version 5 where the vault was at 9: a reset, hence a full pass. *)
Example poll_keeps_promises_witness : ∃ h k,
  reach demoPoll h (Vis (Call (Note 5 None [])) k) ∧ allowed id id Demo.dec id id Demo.sha Demo.deps h (Note 5 None []).
Proof.
  destruct (picked_reach (pollWorld id) Demo.fair isNote demoPoll demoConf (Note 5 None [])) as (h & k & Hr);
    [vm_compute; reflexivity|].
  exists h, k. split; [exact Hr|]. exact (poll_keeps_promises id id Demo.dec id id Demo.sha Demo.deps Demo.sha_nonempty h _ k Hr).
Defined.
Example poll_outcome_witness : ∃ h,
  reach demoPoll h (Ret (Ok tt)) ∧ concluded id id Demo.dec id id Demo.sha Demo.deps (Ok tt) h.
Proof.
  destruct (run_reach (pollWorld id) Demo.fair demoPoll demoConf) as [h Hr].
  replace (run _ _ _ _).1 with (Ok (E := Err) tt) in Hr by (vm_compute; reflexivity). exists h. split; [exact Hr|].
  exact (poll_outcome id id Demo.dec id id Demo.sha Demo.deps Demo.sha_nonempty h (Ok tt) Hr).
Defined.
Example review_is_obeyed_witness : ∃ h k,
  reach (acceptBulkDeletions (js "primary")) h (Vis (Call (Inner (IoRemove (js "old.md")))) k) ∧
  obeys pendingDeletes Pass.applyHeldDeletions (js "primary") removesOnly h (Inner (IoRemove (js "old.md"))).
Proof.
  destruct (picked_reach (pollWorld id) Demo.fair isRemoval (acceptBulkDeletions (js "primary")) demoConf
    (Inner (IoRemove (js "old.md")))) as (h & k & Hr); [vm_compute; reflexivity|].
  exists h, k. split; [exact Hr|]. exact (proj1 (review_is_obeyed (js "primary") h _ k) Hr).
Defined.
Example review_loses_nothing_witness :
  js "b.md" ∈ heldOf (clearHeldPaths (js "primary") [js "old.md"]
    (setPendingBulk (js "primary") [js "b.md"] false (pendingDeletes demoPlugin))) (js "primary").
Proof.
  destruct (review_loses_nothing (js "primary") [js "b.md"] false [js "old.md"] (pendingDeletes demoPlugin) (js "b.md") (js "primary"))
    as (_ & _ & _ & _ & H).
  - apply (bool_decide_unpack _). vm_compute. exact Logic.I.
  - apply H; [left|]. apply (bool_decide_unpack _). vm_compute. exact Logic.I.
Defined.

(** The user picks another vault while the poll reloads the configuration: the
    version of the old vault is recorded for the new one, and the new vault's
    first answer, whose version is lower, is taken for a reset of its history. *)
Lemma version_recorded_for_other_vault :
  let w := cw (run (pollWorld (rekey (js "/other"))) Demo.fair demoPoll demoConf).2 in
  lastVersions w.1 = [(js "/notes", 9%Z); (js "/other", 5%Z)] ∧ historyResetDetected w.1 2 None = true.
Proof. vm_compute. auto. Qed.
End Poll.
