(* ===== verification/Mountengine.v ===== *)
(** * Mountengine: one mount's runtime and its poll
    ([client/src/mountengine.ts], [client/src/mountsync.ts])

    [Runtime] is the state a mount owns (its base, cursor, retry budget, history
    floor and what the pass reported); [massLocalDeletion] is the guard before a
    full pass, [pollMount] one poll in mount-relative space.  The theorems say
    when the guard holds and releases, that nothing is changed before it, that a
    pass keeps the promises of [Safety] through the adapters of [Mountio], and
    how the history floor moves. *)

From S2P Require Import Prelude Jsmap Effects Paths Base Decide Foreigntools Json Protocol Sync Mountio Reconcile Pass Demo Safety.

Module Mountengine.
Import Mounts One Pass Mountio.

Definition mountKey (m : Mount) : jstr :=
  Json.stringifyFlat [owner (source m); vaultId (source m); sourcePath (source m); mountPoint m].
Record MountPersist := { mp_base : list (jstr * Store.RawEntry); mp_version : Z; mp_historyFloor : option Z }.

(** [MountRuntimeCtx]; the predicates [skipForeignArtefacts] and [sourceReadOnly]
    are read once for a pass. *)
Record MountRuntimeCtx := {
  ctx_device : jstr; ctx_ignorePatterns : option (list jstr); ctx_maxSyncBytes : option Z;
  skipForeignArtefacts : option bool; ctx_strategy : option Decide.BulkDeleteStrategy;
  ctx_threshold : option Decide.double; sourceReadOnly : option bool;
  ioExists : bool; ioAppend : bool; pushFlipHold : bool; sourceReady : bool;
  restore : option MountPersist
}.
(** What the pass reported: [sawConflict], [_held], [_heldPush], [_roEdits]. *)
Record Notes := { sawConflict : bool; held : list jstr; heldPush : list jstr; roEdits : list jstr }.
Definition noNotes : Notes := {| sawConflict := false; held := []; heldPush := []; roEdits := [] |}.
Record Runtime := { mount : Mount; ctx : MountRuntimeCtx; state : State; histFloor : option Z; notes : Notes; real : option jstr }.
Definition noPass : Sync.Iface.Pass :=
  {| connAbort := None; failed := []; pending := 0; examined := 0; signalled := false |}.
(** The constructor; the chunk cache is the one shared object it is given. *)
Definition newRuntime (m : Mount) (c : MountRuntimeCtx) (sharedCache : list (jstr * bytes)) : Runtime := {|
  mount := m; ctx := c;
  state := {| base := Store.newStore match restore c with Some r => mp_base r | None => [] end;
              version := match restore c with Some r => mp_version r | None => 0%Z end;
              cache := sharedCache; rejected := None; ambiguous := None; budget := Some []; pass := noPass |};
  histFloor := match restore c with Some r => mp_historyFloor r | None => None end;
  notes := noNotes; real := None |}.
Definition toPersist (rt : Runtime) : MountPersist :=
  {| mp_base := Store.toJSON (base (state rt)); mp_version := version (state rt); mp_historyFloor := histFloor rt |}.
Definition setNotes (n : Notes) (rt : Runtime) : Runtime :=
  {| mount := mount rt; ctx := ctx rt; state := state rt; histFloor := histFloor rt; notes := n; real := real rt |}.
Definition resetHeld (rt : Runtime) : Runtime :=
  setNotes {| sawConflict := sawConflict (notes rt); held := []; heldPush := []; roEdits := [] |} rt.
Definition tookConflict (rt : Runtime) : bool * Runtime :=
  (sawConflict (notes rt),
   setNotes {| sawConflict := false; held := held (notes rt); heldPush := heldPush (notes rt); roEdits := roEdits (notes rt) |} rt).
(** [probe] is what the source's readiness probe answers, when one is wired. *)
Definition ready (rt : Runtime) (probe : res Err bool) : res Err bool :=
  if sourceReady (ctx rt) then probe else Ok true.
Definition baseNonEmpty (rt : Runtime) : bool := 0 <? length (Store.paths (base (state rt))).

(** The monotone record, re-baselined on an authoritative observation. *)
Definition noteHistoryFloor (histFloor floor : option Z) (authoritative : bool) : option Z :=
  if authoritative then floor
  else match floor, histFloor with
       | Some f, None => Some f
       | Some f, Some g => if (g <? f)%Z then Some f else Some g
       | None, _ => histFloor
       end.

(** The callbacks the runtime intercepts. *)
Definition note (n : Notes) (c : cmd Op State Err) : Notes :=
  match c with
  | Call (Say (NConflict _ _)) =>
      {| sawConflict := true; held := held n; heldPush := heldPush n; roEdits := roEdits n |}
  | Call (Say (NGuard p)) =>
      {| sawConflict := sawConflict n; held := held n ++ [p]; heldPush := heldPush n; roEdits := roEdits n |}
  | Call (Say (NPushGuard p)) =>
      {| sawConflict := sawConflict n; held := held n; heldPush := heldPush n ++ [p]; roEdits := roEdits n |}
  | Call (Say (NReadOnly p)) | Call (Say (NReadOnlyCopy p)) =>
      {| sawConflict := sawConflict n; held := held n; heldPush := heldPush n; roEdits := roEdits n ++ [p] |}
  | _ => n
  end.
Fixpoint observe {A} (n : Notes) (m : io (cmd Op State Err) (cans (Ans := Ans)) A)
    : io (cmd Op State Err) (cans (Ans := Ans)) (A * Notes) :=
  match m with
  | Ret a => Ret (a, n)
  | Vis c k => Vis c (λ r, observe (note n c) (k r))
  end.

Section Runtime.
Context (nfc lowerCase : jstr → jstr) (decodeUtf8 : bytes → option jstr) (decodeLossy : bytes → jstr)
        (encodeUtf8 : jstr → bytes) (sha256hex : bytes → jstr).

Definition accepts (c : MountRuntimeCtx) (p : jstr) : bool :=
  isDataPath lowerCase p && negb (default true (skipForeignArtefacts c) && Foreign.isForeignArtefact p).
Definition deps (rt : Runtime) : Deps := {|
  device := ctx_device (ctx rt); ignorePatterns := ctx_ignorePatterns (ctx rt); excludedFolders := None;
  maxSyncBytes := ctx_maxSyncBytes (ctx rt);
  readOnly := bool_decide (direction (mount rt) = Pull) || default false (sourceReadOnly (ctx rt));
  noResurrect := negb (owner (source (mount rt)) === []); preserveLocalFirstContact := true;
  One.accepts := accepts (ctx rt);
  bulkDeleteStrategy := ctx_strategy (ctx rt); bulkDeleteThreshold := ctx_threshold (ctx rt);
  caseInsensitivePaths := false; normalizationInsensitivePaths := false;
  hasExists := ioExists (ctx rt); hasAppend := ioAppend (ctx rt); hasAlive := false; hasFlip := pushFlipHold (ctx rt);
  hasLocalSizeOf := false; hasStatOf := false; hasPathWork := false; hasRemotePlugins := false |}.

(** ** The mass-deletion guard *)
Fixpoint someAbsent (l : list jstr) : Client bool :=
  match l with
  | [] => mret' false
  | p :: l => let* present := exists_ p in if (present : bool) then someAbsent l else mret' true
  end.
Definition massLocalDeletion (d : Deps) : Client bool :=
  let* s := getS in
  let basePaths := Store.paths (base s) in
  if length basePaths =? 0 then mret' false
  else
    let* folder := (if hasExists d then exists_ [] else mret' true : Client bool) in
    if negb folder then mret' true
    else
      let* local := listing in
      let listAbsent := filter (λ p, jhas local p = false) basePaths in
      let listMass := (length listAbsent =? length basePaths)
                      || (Decide.BULK_DELETE_MIN <=? Z.of_nat (length listAbsent))%Z in
      if negb listMass then mret' false
      else if hasExists d then someAbsent listAbsent
      else mret' true.

(** ** One poll

    The result says whether the mount's folder was found gone, with the history
    floor after the poll; a poll that throws leaves the floor as it was. *)
Definition rewound (before : Z) (delta : Wire.ChangesResponse) : bool := (Wire.r_version delta <? before)%Z.
Definition floorAdvanced (priorFloor : option Z) (delta : Wire.ChangesResponse) : bool :=
  match priorFloor, Wire.history_floor delta with Some g, Some f => (g <? f)%Z | _, _ => false end.
Definition noChange (before : Z) (delta : Wire.ChangesResponse) : bool :=
  (length (Wire.upserts delta) =? 0) && (length (Wire.deletes delta) =? 0) && (Wire.r_version delta =? before)%Z.
Definition pollMode (forceFull : bool) (floor : option Z) (before : Z) (delta : Wire.ChangesResponse) : Decide.ReconcileMode :=
  Decide.decideReconcileMode
    {| Decide.forceConfigScan := false; Decide.forceFullScan := forceFull;
       Decide.reset := rewound before delta || floorAdvanced floor delta; Decide.noChange := noChange before delta |}.
Definition pollMount (d : Deps) (floor : option Z) (forceFull : bool) : Client (bool * option Z) :=
  let* before := gets version in
  let* delta := changes before in
  let note := noteHistoryFloor floor (Wire.history_floor delta) in
  match pollMode forceFull floor before delta with
  | Decide.MNoop => mret' (false, note false)
  | Decide.MFull =>
      let* gone := massLocalDeletion d in
      if (gone : bool) then mret' (true, floor)
      else
        reconcileAll nfc lowerCase decodeUtf8 decodeLossy encodeUtf8 sha256hex d ;;
        mret' (false, note (rewound before delta))
  | _ =>
      reconcileDelta nfc lowerCase decodeUtf8 decodeLossy encodeUtf8 sha256hex d delta ;;
      mret' (false, note (rewound before delta))
  end.
(** The poll of a runtime, over its adapters, with its callbacks. *)
Definition pollTree (rt : Runtime) (forceFull : bool)
    : io (cmd Op State Err) (cans (Ans := Ans)) (res Err (bool * option Z) * Notes * option jstr) :=
  interp nfc lowerCase (mount rt) (real rt) (observe (notes rt) (pollMount (deps rt) (histFloor rt) forceFull)).

(** ** What the guard saw *)
Section Guard.
Context (d : Deps).
Implicit Types (h : History).

Definition missing (s : State) (l : list (jstr * Stat)) : list jstr :=
  filter (λ p, jhas l p = false) (Store.paths (base s)).
(** Everything the mount knows is missing from the listing, or at least six files. *)
Definition massMissing (s : State) (l : list (jstr * Stat)) : Prop :=
  missing s l = Store.paths (base s) ∨ (Decide.BULK_DELETE_MIN ≤ Z.of_nat (length (missing s l)))%Z.
Definition wiped h : Prop :=
  ∃ s, saw h s ∧ Store.paths (base s) ≠ [] ∧
    ((hasExists d = true ∧ called h (IoExists []) (Ok false)) ∨
     ∃ l, called h IoList (Ok l) ∧ massMissing s l ∧
       (hasExists d = false ∨ ∃ p, p ∈ missing s l ∧ called h (IoExists p) (Ok false))).
Definition spared h : Prop :=
  ∃ s, saw h s ∧
    (Store.paths (base s) = [] ∨
     ((hasExists d = true → called h (IoExists []) (Ok true)) ∧
      ∃ l, called h IoList (Ok l) ∧
        (¬ massMissing s l ∨ (hasExists d = true ∧ ∀ p, p ∈ missing s l → called h (IoExists p) (Ok true))))).
Definition probe (o : Op) : bool := match o with ApiChanges _ | IoList | IoExists _ => true | _ => false end.

Lemma filter_full {A} (P : A → Prop) `{∀ x, Decision (P x)} l : length (filter P l) = length l → filter P l = l.
Proof.
  induction l as [|x l IH]; [done|]. pose proof (length_filter P l). rewrite filter_cons.
  destruct (decide (P x)); cbn [length]; [intros; f_equal; apply IH|]; lia.
Qed.
Lemma spared_mono h h' : h ⊑ h' → spared h → spared h'.
Proof.
  intros Hs (s & Hsaw & H). exists s. split; [by eapply saw_mono|]. destruct H as [H|(Hf & l & Hl & H)]; [by left|right].
  split; [intros Hex; eapply called_mono; eauto|]. exists l. split; [by eapply called_mono|].
  destruct H as [H|(Hex & H)]; [by left|right]. split; [done|]. intros p Hp. eapply called_mono; eauto.
Qed.

Section Allowed.
Context (J : History → Op → Prop) (HJ : ∀ h o, probe o = true → J h o).
Lemma someAbsent_spec l h (Q : res Err bool → History → Prop) :
  (∀ h', h ⊑ h' → (∀ p, p ∈ l → called h' (IoExists p) (Ok true)) → Q (Ok false) h') →
  (∀ h' p, h ⊑ h' → p ∈ l → called h' (IoExists p) (Ok false) → Q (Ok true) h') →
  (∀ h' e, h ⊑ h' → Q (Throw e) h') →
  safe J (someAbsent l) Q h.
Proof using HJ.
  revert h. induction l as [|p l IH]; intros h Hall Hone Herr; cbn [someAbsent].
  - apply safe_ret, Hall; [done|]. intros p Hp. by apply not_elem_of_nil in Hp.
  - apply safe_bind, safe_callE; [by apply HJ|]. intros [[|]|e] h1 Hs1 Hc _; cbn [id]; [..|by apply Herr].
    + apply IH.
      * intros h' Hs Hl. apply Hall; [chain|]. intros q [->|Hq]%elem_of_cons; [by eapply called_mono|auto].
      * intros h' q Hs Hq. apply Hone; [chain|by right].
      * intros h' e Hs. apply Herr. chain.
    + apply safe_ret. apply (Hone h1 p Hs1); [left|done].
Qed.
Lemma massLocalDeletion_spec h (Q : res Err bool → History → Prop) :
  (∀ h', h ⊑ h' → spared h' → Q (Ok false) h') →
  (∀ h', h ⊑ h' → wiped h' → Q (Ok true) h') →
  (∀ h' e, h ⊑ h' → Q (Throw e) h') →
  safe J (massLocalDeletion d) Q h.
Proof using HJ.
  intros Hsp Hwi Herr. apply safe_bind, safe_get. intros s h1 Hs1 Hsaw _. cbv zeta.
  destruct (Store.paths (base s)) as [|p0 ps] eqn:Hps; [apply safe_ret, Hsp; [done|by exists s; auto]|].
  rewrite <- Hps. rewrite (proj2 (Nat.eqb_neq _ 0)) by (by rewrite Hps).
  assert (Hne : Store.paths (base s) ≠ []) by (by rewrite Hps). clear Hps.
  apply safe_bind.
  eapply (safe_mono J _ _ (λ r h', h ⊑ h' ∧ saw h' s ∧ match r with
    | Ok true => hasExists d = true → called h' (IoExists []) (Ok true)
    | Ok false => hasExists d = true ∧ called h' (IoExists []) (Ok false)
    | Throw _ => True end)).
  2: { destruct (hasExists d); [|apply safe_ret; by split_and!].
       apply safe_callE; [by apply HJ|]. intros r h' Hs Hc. split_and!; [chain|by eapply saw_mono|].
       destruct r as [[|]|e]; cbn [id]; done. }
  intros [[|]|e] h2 _ (Hs2 & Hsaw2 & Hfolder) _; cbn [negb]; [..|by apply Herr].
  2: { apply safe_ret, Hwi; [done|]. exists s. split_and!; [done..|by left]. }
  apply safe_bind, safe_callE; [by apply HJ|]. intros [l|e] h3 Hs3 Hl _; cbn [id]; [|by apply Herr; chain].
  fold (missing s l).
  assert (Hsub : missing s l = Store.paths (base s) ↔ length (missing s l) = length (Store.paths (base s))).
  { split; [by intros ->|]. intros Hlen. by apply filter_full. }
  destruct ((_ =? _) || _) eqn:Hmass.
  2: { apply safe_ret, Hsp; [chain|]. exists s. split; [eapply saw_mono; [exact Hs3|done]|]. right.
       split; [intros Hex; eapply called_mono; [exact Hs3|auto]|]. exists l. split; [done|]. left.
       apply orb_false_iff in Hmass as [Hm1 Hm2]. apply Nat.eqb_neq in Hm1. unfold massMissing. rewrite Hsub. lia. }
  assert (Hmm : massMissing s l).
  { unfold massMissing. rewrite Hsub. apply orb_true_iff in Hmass as [Hm%Nat.eqb_eq|Hm]; [by left|right; lia]. }
  cbn [negb]. destruct (hasExists d) eqn:Hex.
  - apply someAbsent_spec.
    + intros h' Hs Hall. apply Hsp; [chain|]. exists s. split; [eapply saw_mono; [|exact Hsaw2]; chain|]. right.
      split; [intros _; eapply called_mono; [|by apply Hfolder]; chain|]. exists l.
      split; [by eapply called_mono|]. right. by split.
    + intros h' p Hs Hp Hc. apply Hwi; [chain|]. exists s. split_and!; [eapply saw_mono; [|exact Hsaw2]; chain|done|].
      right. exists l. split_and!; [by eapply called_mono|done|]. right. by exists p.
    + intros h' e Hs. apply Herr. chain.
  - apply safe_ret, Hwi; [chain|]. exists s. split_and!; [eapply saw_mono; [|exact Hsaw2]; chain|done|].
    right. exists l. split_and!; [done|done|by left].
Qed.
End Allowed.

(** ** The poll *)
Definition asDelta (floor : option Z) (forceFull : bool) h : Prop :=
  ∃ s delta, saw h s ∧ called h (ApiChanges (version s)) (Ok delta) ∧ forceFull = false ∧
    rewound (version s) delta = false ∧ floorAdvanced floor delta = false.
Definition mayCall (floor : option Z) (forceFull : bool) h (o : Op) : Prop :=
  probe o = true ∨ spared h ∨ asDelta floor forceFull h.
Definition polled (floor : option Z) (forceFull : bool) (r : res Err (bool * option Z)) h : Prop :=
  match r with
  | Throw _ => True
  | Ok (gone, floor') =>
      ∃ s delta, saw h s ∧ called h (ApiChanges (version s)) (Ok delta) ∧
        (gone = true → wiped h ∧ floor' = floor) ∧
        (gone = false →
           floorAdvanced floor' delta = false ∧
           (rewound (version s) delta = true → floor' = Wire.history_floor delta) ∧
           (rewound (version s) delta = false → ∀ g, floor = Some g → ∃ f, floor' = Some f ∧ (g ≤ f)%Z) ∧
           (forceFull = true ∨ rewound (version s) delta = true ∨ floorAdvanced floor delta = true → spared h))
  end.
Lemma asDelta_mono floor ff h h' : h ⊑ h' → asDelta floor ff h → asDelta floor ff h'.
Proof.
  intros Hs (s & delta & Hsaw & Hc & H). exists s, delta. split; [by eapply saw_mono|].
  split; [by eapply called_mono|done].
Qed.
Lemma safe_always {A} J (m : io (cmd Op State Err) cans A) (Q : A → History → Prop) h :
  (∀ h' o, h ⊑ h' → J h' o) → (∀ r h', h ⊑ h' → Q r h') → safe J m Q h.
Proof.
  revert h. induction m as [a|c k IH]; intros h HJ HQ; [by apply HQ|]. split.
  - destruct c; cbn; [by apply HJ|done..].
  - intros r. apply IH.
    + intros h' o Hs. apply HJ. etransitivity; [|exact Hs]. by apply sublist_inserts_r.
    + intros x h' Hs. apply HQ. etransitivity; [|exact Hs]. by apply sublist_inserts_r.
Qed.
Lemma note_spec floor before delta :
  let auth := rewound before delta in
  let floor' := noteHistoryFloor floor (Wire.history_floor delta) auth in
  floorAdvanced floor' delta = false ∧
  (auth = true → floor' = Wire.history_floor delta) ∧
  (auth = false → ∀ g, floor = Some g → ∃ f, floor' = Some f ∧ (g ≤ f)%Z).
Proof.
  cbv zeta. unfold noteHistoryFloor, floorAdvanced. destruct (rewound before delta).
  - split_and!; [|done|done]. destruct (Wire.history_floor delta); [lia|done].
  - split_and!; [|done|]; destruct (Wire.history_floor delta) as [f|], floor as [g|]; try done;
      try destruct (g <? f)%Z eqn:Hg; try lia; intros _ ? [= <-]; eexists; split; try done; lia.
Qed.
Lemma pollMode_cases ff floor before delta :
  match pollMode ff floor before delta with
  | Decide.MNoop | Decide.MDelta =>
      ff = false ∧ rewound before delta = false ∧ floorAdvanced floor delta = false
  | Decide.MFull => True
  | Decide.MDeltaConfig => False
  end.
Proof.
  unfold pollMode, Decide.decideReconcileMode. cbn.
  by destruct ff, (rewound _ _), (floorAdvanced _ _), (noChange _ _).
Qed.
Lemma pollMount_spec floor ff h :
  safe (mayCall floor ff) (pollMount d floor ff) (polled floor ff) h.
Proof.
  apply safe_bind, safe_gets. intros s h1 Hs1 Hsaw _. apply safe_bind, safe_callE; [by left|].
  intros [delta|e] h2 Hs2 Hc _; cbn [id]; [|done]. cbv zeta.
  assert (Hsaw2 : saw h2 s) by (by eapply saw_mono).
  pose proof (note_spec floor (version s) delta) as (Hn1 & Hn2 & Hn3).
  pose proof (pollMode_cases ff floor (version s) delta) as Hmode.
  destruct (pollMode ff floor (version s) delta); [| | |done].
  - destruct Hmode as (-> & Hr & Hf). rewrite Hr in Hn1, Hn2, Hn3. apply safe_ret. exists s, delta.
    split_and!; [done..|]. intros _. rewrite Hr. split_and!; [done..|]. intros [?|[?|?]]; congruence.
  - apply safe_bind, massLocalDeletion_spec; [by intros ? ? ?; left|..].
    + intros h3 Hs3 Hsp _. apply safe_bind, safe_always.
      * intros h' o Hs. right; left. by eapply spared_mono.
      * intros [resp|e] h4 Hs4 _; [|done]. apply safe_ret. exists s, delta.
        split_and!; [eapply saw_mono; [|exact Hsaw2]; chain|eapply called_mono; [|exact Hc]; chain|done|].
        intros _. split_and!; [done..|]. intros _. by eapply spared_mono.
    + intros h3 Hs3 Hw _. apply safe_ret. exists s, delta.
      split_and!; [by eapply saw_mono|by eapply called_mono|done|done].
    + done.
  - destruct Hmode as (-> & Hr & Hf). apply safe_bind, safe_always.
    + intros h' o Hs. right; right. eapply asDelta_mono; [exact Hs|]. by exists s, delta.
    + intros [[]|e] h3 Hs3 _; [|done]. apply safe_ret. exists s, delta.
      split_and!; [by eapply saw_mono|by eapply called_mono|done|]. intros _. split_and!; [done..|].
      intros [?|[?|?]]; congruence.
Qed.

(** C18: Before a mount poll changes anything in a pass that looks at the local
    files, the mass-deletion guard has let it through: every call other than
    asking for the changes, the listing and an existence probe comes after the
    guard saw that the mount knows no file yet, or that its folder is there and
    either fewer than six of the known files are missing from the listing while
    at least one is listed, or every missing one was confirmed present.  The
    only other case is a poll that was not forced, with no rewound version and
    no advanced history floor: it applies the incoming delta. *)
Theorem wiped_mount_is_held floor ff h o k :
  reach (pollMount d floor ff) h (Vis (Call o) k) →
  probe o = true ∨ spared h ∨ asDelta floor ff h.
Proof. intros Hr. apply (wp_adequacy _ _ _ _ (pollMount_spec floor ff [])) in Hr. exact Hr. Qed.

(** The one-shot signal of a truncated or rewound source history is never
    spent on a poll that did not run the full pass.  When the guard held the
    poll there is evidence of a wiped mount and the floor is unchanged; otherwise
    the floor now covers the observed one, follows it exactly after a rewind,
    never falls without one, and if the poll was forced, rewound or past an
    advanced floor, the guard let the full pass run. *)
Theorem floor_spent_only_by_full_pass floor ff h gone floor' :
  reach (pollMount d floor ff) h (Ret (Ok (gone, floor'))) →
  ∃ s delta, saw h s ∧ called h (ApiChanges (version s)) (Ok delta) ∧
    (gone = true → wiped h ∧ floor' = floor) ∧
    (gone = false →
       floorAdvanced floor' delta = false ∧
       (rewound (version s) delta = true → floor' = Wire.history_floor delta) ∧
       (rewound (version s) delta = false → ∀ g, floor = Some g → ∃ f, floor' = Some f ∧ (g ≤ f)%Z) ∧
       (ff = true ∨ rewound (version s) delta = true ∨ floorAdvanced floor delta = true → spared h)).
Proof. intros Hr. apply (wp_adequacy _ _ _ _ (pollMount_spec floor ff [])) in Hr. exact Hr. Qed.
End Guard.

(** ** The promises of [Safety] through the adapters *)
Lemma observe_reach {A} n (m : io (cmd Op State Err) cans A) h x :
  reach (observe n m) h x → ∃ n' m', reach m h m' ∧ x = observe n' m'.
Proof.
  revert n h. induction m as [a|c k IH]; intros n h Hr; apply reach_inv in Hr as [[-> ->]|Hr]; try done.
  1,2: by exists n; eexists; split; [constructor|].
  destruct Hr as (r & h' & -> & Hr). apply IH in Hr as (n' & m' & Hm & ->). exists n', m'. split; [by constructor|done].
Qed.
Lemma poll_safe (sha_nonempty : ∀ b, sha256hex b ≠ []) d floor ff h :
  safe (Safety.I nfc decodeUtf8 decodeLossy encodeUtf8 sha256hex d []) (pollMount d floor ff) Safety.fine h.
Proof.
  apply Safety.safe_then; [apply Safety.neutral_gets|]. intros before h1 Hs1.
  apply safe_bind, safe_callE; [by apply Safety.quiet_I|]. intros [delta|e] h2 Hs2 Hc _; cbn [id]; [|done]. cbv zeta.
  destruct (pollMode ff floor before delta); [by apply safe_ret|..].
  - apply safe_bind, massLocalDeletion_spec.
    + intros h' o Ho. apply Safety.quiet_I. by destruct o.
    + intros h' Hs _ _. apply Safety.safe_bind_fine; [by apply Safety.safe_reconcileAll|]. intros. apply Safety.neutral_ret.
    + intros h' Hs _ _. by apply safe_ret.
    + done.
  - apply Safety.safe_bind_fine; [|intros; apply Safety.neutral_ret]. apply Safety.safe_reconcileDelta; [done|].
    right. by exists before.
  - apply Safety.safe_bind_fine; [|intros; apply Safety.neutral_ret]. apply Safety.safe_reconcileDelta; [done|].
    right. by exists before.
Qed.

End Runtime.

(** Two mounts share persisted state only when they are the same mount: the
    key is injective in the owner, the source vault, the source path and the
    mount point, whatever characters these contain. *)
Theorem mountKey_injective a b :
  let parts m := [owner (source m); vaultId (source m); sourcePath (source m); mountPoint m] in
  Forall Json.utf16 (parts a) → Forall Json.utf16 (parts b) →
  mountKey a = mountKey b ↔ parts a = parts b.
Proof.
  cbv zeta. intros Ha Hb. unfold mountKey. split; [|by intros ->]. intros H. by apply Json.stringifyFlat_inj in H.
Qed.
Lemma mountKey_injective_witness :
  mountKey demoMount = mountKey wholeSource ↔ js "Work/ASI" = js "Work" ∧ js "Team/Notes" = js "".
Proof.
  assert (H : ∀ l, forallb (λ c, (c <? 65536)%N) l = true → Json.utf16 l).
  { intros l. unfold Json.utf16. induction l as [|c l IH]; [constructor|]. cbn. intros [Hc Hl]%andb_true_iff.
    constructor; [by apply N.ltb_lt|auto]. }
  rewrite (mountKey_injective demoMount wholeSource).
  - split; [intros Hp; discriminate Hp|intros [Hp _]; discriminate Hp].
  - repeat (apply Forall_cons; split; [apply H; vm_compute; reflexivity|]). constructor.
  - repeat (apply Forall_cons; split; [apply H; vm_compute; reflexivity|]). constructor.
Defined.

(** ** Executions of the demo world *)
Definition demoPoll (floor : option Z) (ff : bool) : Client (bool * option Z) :=
  pollMount id id Demo.dec id id Demo.sha Demo.deps floor ff.
Definition emptied : Demo.World := {| Demo.files := []; Demo.server := Demo.server Demo.world0; Demo.blobs := [] |}.
Lemma wiped_mount_is_held_witness : ∃ h,
  (∃ k, reach (demoPoll None true) h (Vis (Call (IoWrite (js "a.md") (js "theirs"))) k)) ∧
  (spared Demo.deps h ∨ asDelta None true h).
Proof.
  destruct (picked_reach Demo.world Demo.fair (Safety.writesTo (js "a.md")) (demoPoll None true)
    (Demo.start Demo.world0 Demo.base0) (IoWrite (js "a.md") (js "theirs"))) as (h & k & Hr); [vm_compute; reflexivity|].
  exists h. split; [exists k; exact Hr|].
  destruct (wiped_mount_is_held id id Demo.dec id id Demo.sha Demo.deps None true h _ k Hr) as [H|H]; [discriminate H|exact H].
Defined.
Lemma floor_spent_only_by_full_pass_witness : ∃ h,
  reach (demoPoll (Some 3%Z) true) h (Ret (Ok (true, Some 3%Z))) ∧ wiped Demo.deps h.
Proof.
  destruct (run_reach Demo.world Demo.fair (demoPoll (Some 3%Z) true) (Demo.start emptied Demo.base0)) as [h Hr].
  assert (Hres : (run Demo.world Demo.fair (demoPoll (Some 3%Z) true) (Demo.start emptied Demo.base0)).1 = Ok (true, Some 3%Z))
    by (vm_compute; reflexivity).
  rewrite Hres in Hr. exists h. split; [exact Hr|].
  destruct (floor_spent_only_by_full_pass id id Demo.dec id id Demo.sha Demo.deps (Some 3%Z) true h true (Some 3%Z) Hr)
    as (s & delta & _ & _ & Hgone & _).
  exact (proj1 (Hgone eq_refl)).
Defined.
(** A first contact of [Work/ASI] with the source: [a.md] differs on both sides. *)
Definition demoCtx : MountRuntimeCtx := {|
  ctx_device := js "pc"; ctx_ignorePatterns := None; ctx_maxSyncBytes := None; skipForeignArtefacts := None;
  ctx_strategy := None; ctx_threshold := None; sourceReadOnly := None; ioExists := true; ioAppend := false;
  pushFlipHold := false; sourceReady := true; restore := None |}.
Definition mountWorld : Demo.World := {|
  Demo.files := [(js "home.md", js "x"); (js "work/asi/a.md", js "mine")];
  Demo.server := Demo.changes_of [Demo.meta (js "Team/Notes/a.md") (js "theirs") 4; Demo.meta (js "Other/b.md") (js "b") 2] [] 5;
  Demo.blobs := [(Demo.sha (js "theirs"), js "theirs")] |}.
Definition demoRuntime : Runtime := newRuntime demoMount demoCtx [].
Definition demoTree := pollTree id lower Demo.dec id id Demo.sha demoRuntime true.

(** After a restart the guard asks for the mount folder before any listing has
    shown its spelling: on a case-sensitive disk that spells it differently a
    mount whose files are all there is taken for a deleted one. *)
Definition restored : Runtime :=
  newRuntime demoMount
    {| ctx_device := js "pc"; ctx_ignorePatterns := None; ctx_maxSyncBytes := None; skipForeignArtefacts := None;
       ctx_strategy := None; ctx_threshold := None; sourceReadOnly := None; ioExists := true; ioAppend := false;
       pushFlipHold := false; sourceReady := true;
       restore := Some {| mp_base := [(js "a.md", {| Store.raw_entry := entry (Demo.sha (js "mine")) None; Store.normHash := None |})];
                          mp_version := 4; mp_historyFloor := Some 1%Z |} |} [].
Theorem restart_misjudges_respelled_folder :
  jhas (relist id lower demoMount ((λ e, (e.1, demoStat)) <$> Demo.files mountWorld)) (js "a.md") = true ∧
  (run Demo.world Demo.fair (pollTree id lower Demo.dec id id Demo.sha restored true)
     (Conf mountWorld (state restored) [] 0)).1.1.1 = Ok (true, Some 1%Z).
Proof. vm_compute. auto. Qed.
End Mountengine.
