(* ===== verification/Mountsync.v ===== *)
(** * Mountsync: driving the mounts ([client/src/mountsync.ts], [client/src/main.ts])

    A [MountScope] is a runtime with its state machine and its count of
    consecutive failures.  [reconcileMountScope] drives one cycle against a
    world that answers the calls, [reconcileMountScopes] all of them in turn;
    the plugin rebuilds the scopes before each pass and retries failed ones
    after a backoff.  The theorems give the outcome of a cycle on every branch,
    the failure budget, and what a rebuild keeps. *)

From S2P Require Import Prelude Jsmap Effects Paths Base Decide Lifecycle Protocol Sync Mountio Reconcile Demo Mountengine.

Module Mountsync.
Import MountFsm Mountio Mountengine.

Definition MAX_MOUNT_FAILS : nat := 3.
Record MountScope := {
  runtime : Runtime; mstate : MountState; fails : nat; failedAt : option Z; forceFull : bool
}.
(** The hooks a cycle calls, in order. *)
Inductive HookCall :=
| OnEvent (s : MountState)
| OnError (e : Err)
| OnHeld (paths : list jstr) (authoritative : bool)
| OnHeldPush (paths : list jstr) (authoritative : bool)
| OnRoEdits (paths : list jstr) (authoritative : bool).

Definition setState (s : MountState) (x : MountScope) : MountScope :=
  {| runtime := runtime x; mstate := s; fails := fails x; failedAt := failedAt x; forceFull := forceFull x |}.
Definition notReady : Err := ErrMsg (js "source vault not ready (reindexing?)").
Definition inactive (s : MountState) : bool :=
  match s with Detached | Unmounting | MFailed | LocalGone => true | _ => false end.
Definition wasMounting (x : MountScope) : bool := bool_decide (mstate x = Mounting).
Definition wasOffline (x : MountScope) : bool := bool_decide (mstate x = Offline).
Definition wantsFull (x : MountScope) : bool := wasMounting x || wasOffline x || forceFull x.

Section Drive.
Context (nfc lowerCase : jstr → jstr) (decodeUtf8 : bytes → option jstr) (decodeLossy : bytes → jstr)
        (encodeUtf8 : jstr → bytes) (sha256hex : bytes → jstr).
Context {W : Type} (world : W → ∀ o, Ans o * W) (sched : nat → bool).

(** The poll, run to its end: its result and the runtime it leaves. *)
Definition runPoll (rt : Runtime) (full : bool) (w : W) : res Err (bool * option Z) * Runtime * W :=
  let '((r, n, real'), c) :=
    run world sched (pollTree nfc lowerCase decodeUtf8 decodeLossy encodeUtf8 sha256hex rt full) (Conf w (state rt) [] 0) in
  (r, {| mount := mount rt; ctx := ctx rt; state := cs c;
         histFloor := match r with Ok (_, f) => f | Throw _ => histFloor rt end; notes := n; real := real' |}, cw c).

(** The [catch] block. *)
Definition onThrow (x : MountScope) (e : Err) : MountScope * list HookCall :=
  let s := mountTransition (mstate x) (if MAX_MOUNT_FAILS <=? S (fails x) then EFail else EDisconnect) in
  ({| runtime := runtime x; mstate := s; fails := S (fails x); failedAt := failedAt x; forceFull := forceFull x |},
   [OnError e; OnEvent s]).
(** The end of the [try] block, the guard not having held. *)
Definition onSuccess (x : MountScope) (full : bool) : MountScope * list HookCall :=
  let n := notes (runtime x) in
  let rt := setNotes {| sawConflict := sawConflict n; held := []; heldPush := []; roEdits := [] |} (runtime x) in
  let '(conflict, rt) := tookConflict rt in
  let s := mountTransition (mstate x) (if conflict then EConflict else ESyncSettled) in
  ({| runtime := rt; mstate := s; fails := 0; failedAt := failedAt x; forceFull := forceFull x |},
   [OnHeld (held n) full; OnHeldPush (heldPush n) full; OnRoEdits (roEdits n) full; OnEvent s]).
(** The body of the [try] block. *)
Definition attempt (x : MountScope) (needReady full : bool) (probe : res Err bool) (w : W)
    : MountScope * list HookCall * W :=
  match (if needReady then ready (runtime x) probe else Ok true) with
  | Throw e => (onThrow x e, w)
  | Ok false => (onThrow x notReady, w)
  | Ok true =>
      let '(r, rt, w) := runPoll (resetHeld (runtime x)) full w in
      let x := {| runtime := rt; mstate := mstate x; fails := fails x; failedAt := failedAt x; forceFull := forceFull x |} in
      (match r with
       | Throw e => onThrow x e
       | Ok (true, _) =>
           let s := mountTransition (mstate x) ELocalGone in
           (setState s x, [OnEvent s])
       | Ok (false, _) => onSuccess x full
       end, w)
  end.
Definition reconcileMountScope (x : MountScope) (probe : res Err bool) (w : W) : MountScope * list HookCall * W :=
  if inactive (mstate x) then (x, [], w)
  else
    let needReady := wasMounting x || wasOffline x in
    let full := wantsFull x in
    let s := if bool_decide (mstate x = Live) then mountTransition (mstate x) ESyncStart else mstate x in
    let started := if bool_decide (mstate x = Live) then [OnEvent s] else [] in
    let x := {| runtime := runtime x; mstate := s; fails := fails x; failedAt := failedAt x; forceFull := false |} in
    let '(x, hooks, w) := attempt x needReady full probe w in
    (x, started ++ hooks, w).

(** All scopes in turn; [isLive] and [probes] answer for the scope at a
    position, and the chunk cache is shared. *)
Definition withCache (c : list (jstr * bytes)) (x : MountScope) : MountScope :=
  let rt := runtime x in
  {| runtime := {| mount := mount rt; ctx := ctx rt; state := setCache c (state rt); histFloor := histFloor rt;
                   notes := notes rt; real := real rt |};
     mstate := mstate x; fails := fails x; failedAt := failedAt x; forceFull := forceFull x |}.
Definition cacheOf (x : MountScope) : list (jstr * bytes) := cache (state (runtime x)).
Definition startDetached (x : MountScope) : MountScope :=
  if bool_decide (mstate x = Detached) then setState (mountTransition (mstate x) EMount) x else x.
Fixpoint reconcileMountScopes (i : nat) (isLive : nat → bool) (probes : nat → res Err bool) (scopes : list MountScope)
    (c : list (jstr * bytes)) (w : W) : list MountScope * list HookCall * W :=
  match scopes with
  | [] => ([], [], w)
  | x :: scopes =>
      if negb (isLive i) then
        let '(xs, hooks, w) := reconcileMountScopes (S i) isLive probes scopes c w in (x :: xs, hooks, w)
      else
        let '(x, hooks, w) := reconcileMountScope (startDetached (withCache c x)) (probes i) w in
        let '(xs, hooks', w) := reconcileMountScopes (S i) isLive probes scopes (cacheOf x) w in
        (x :: xs, hooks ++ hooks', w)
  end.

(** ** One cycle *)
Definition unheld (x x' : MountScope) : Prop := histFloor (runtime x') = histFloor (runtime x).
Definition failedOnce (x x' : MountScope) : Prop :=
  fails x' = S (fails x) ∧ unheld x x' ∧ mstate x' = (if MAX_MOUNT_FAILS <=? S (fails x) then MFailed else Offline).
Definition outcome (x x' : MountScope) (hooks : list HookCall) : Prop :=
  forceFull x' = false ∧ last hooks = Some (OnEvent (mstate x')) ∧
  ((mstate x' = LocalGone ∧ fails x' = fails x ∧ unheld x x') ∨
   (fails x' = 0 ∧ (mstate x' = Live ∨ mstate x' = Diverged) ∧
      ∃ ps, OnHeld ps (wantsFull x) ∈ hooks ∧ held (notes (runtime x')) = []) ∨
   (failedOnce x x' ∧ ∃ e, OnError e ∈ hooks)).
(** [y] is [x] with its cycle under way. *)
Definition underway (x y : MountScope) : Prop :=
  inactive (mstate x) = false ∧ (mstate y = mstate x ∨ mstate y = Syncing) ∧
  fails y = fails x ∧ forceFull y = false.
Lemma outcome_app x x' l hooks : outcome x x' hooks → outcome x x' (l ++ hooks).
Proof.
  intros (Hf & Hl & H). split_and!; [done|by rewrite last_app, Hl|].
  destruct H as [H|[(H1 & H2 & ps & Hp & H3)|(H1 & e & He)]]; [by left|right; left|right; right].
  - split_and!; [done..|]. exists ps. rewrite elem_of_app. auto.
  - split; [done|]. exists e. rewrite elem_of_app. auto.
Qed.
Lemma onThrow_outcome x y e :
  underway x y → unheld x y → let '(x', hooks) := onThrow y e in outcome x x' hooks.
Proof.
  intros (Hi & Hs & Hf & Hff) Hu. unfold onThrow. split_and!; [done|done|right; right]. split.
  - unfold failedOnce. cbn [fails runtime mstate]. rewrite Hf. split_and!; [done|exact Hu|].
    destruct Hs as [-> | ->], (MAX_MOUNT_FAILS <=? S (fails x)); [..|done|done]; by destruct (mstate x).
  - exists e. left.
Qed.
Lemma onSuccess_outcome x y : underway x y → let '(x', hooks) := onSuccess y (wantsFull x) in outcome x x' hooks.
Proof.
  intros (Hi & Hs & Hf & Hff). unfold onSuccess. cbn [tookConflict fst snd notes setNotes sawConflict runtime held heldPush roEdits].
  split_and!; [done|done|right; left]. cbn [fails mstate runtime notes held]. split_and!; [done| |].
  - destruct (sawConflict _), Hs as [-> | ->]; destruct (mstate x); try done; auto.
  - eexists. split; [left|done].
Qed.
Lemma runPoll_floor rt full w r rt' w' :
  runPoll rt full w = (r, rt', w') →
  histFloor rt' = match r with Ok (_, f) => f | Throw _ => histFloor rt end ∧ mount rt' = mount rt ∧ ctx rt' = ctx rt.
Proof. unfold runPoll. destruct (run _ _ _ _) as [[[? ?] ?] ?]. by intros [= -> <- <-]. Qed.
(** A poll that found the folder gone returns the floor it was given. *)
Lemma runPoll_gone rt full w f rt' w' : runPoll rt full w = (Ok (true, f), rt', w') → f = histFloor rt.
Proof.
  unfold runPoll. destruct (run _ _ _ _) as [[[r n] real'] c] eqn:Hr. intros [= -> <- <-].
  destruct (run_reach world sched (pollTree nfc lowerCase decodeUtf8 decodeLossy encodeUtf8 sha256hex rt full) (Conf w (state rt) [] 0))
    as [h Hh]. rewrite Hr in Hh. cbn [fst] in Hh. unfold pollTree in Hh.
  apply interp_steps in Hh as (hm & m' & real1 & Hh & _ & -> & _).
  apply observe_reach in Hh as (n' & m1 & Hh & Hm). destruct m1 as [a|]; [|done]. cbn [observe] in Hm. injection Hm as <- <-.
  apply (wp_adequacy _ _ _ _ (pollMount_spec nfc lowerCase decodeUtf8 decodeLossy encodeUtf8 sha256hex
    (deps lowerCase rt) (histFloor rt) full [])) in Hh as (s & delta & _ & _ & Hg & _). by apply Hg.
Qed.

Lemma attempt_outcome x y needReady probe w :
  underway x y → unheld x y →
  let '(x', hooks, _) := attempt y needReady (wantsFull x) probe w in outcome x x' hooks.
Proof.
  intros Hy Hu. unfold attempt. destruct (if needReady then _ else _) as [[|]|e].
  2: { pose proof (onThrow_outcome x y notReady Hy Hu) as H. by destruct (onThrow y notReady). }
  2: { pose proof (onThrow_outcome x y e Hy Hu) as H. by destruct (onThrow y e). }
  destruct (runPoll _ _ _) as [[r rt'] w'] eqn:Hrun. pose proof (runPoll_floor _ _ _ _ _ _ Hrun) as (Hfl & _ & _).
  set (z := {| runtime := rt'; mstate := mstate y; fails := fails y; failedAt := failedAt y; forceFull := forceFull y |}).
  assert (Hz : underway x z) by exact Hy. destruct r as [[[|] f]|e].
  - apply runPoll_gone in Hrun. destruct Hy as (Hi & Hs & Hf & Hff). split_and!; [done|done|left]. split_and!; [|done|].
    + change (mountTransition (mstate y) ELocalGone = LocalGone). destruct Hs as [-> | ->]; [|done]. by destruct (mstate x).
    + unfold unheld in *. cbn. by rewrite Hfl, Hrun.
  - pose proof (onSuccess_outcome x z Hz) as H. by destruct (onSuccess z (wantsFull x)).
  - assert (Huz : unheld x z) by (unfold unheld in *; cbn; by rewrite Hfl).
    pose proof (onThrow_outcome x z e Hz Huz) as H. by destruct (onThrow z e).
Qed.

(** How a cycle ends. *)
Definition ending (x x' : MountScope) (hooks : list HookCall) : Prop :=
  (mstate x' = LocalGone ∧ fails x' = fails x ∧ unheld x x') ∨
  (fails x' = 0 ∧ (mstate x' = Live ∨ mstate x' = Diverged) ∧
     ∃ ps, OnHeld ps (wantsFull x) ∈ hooks ∧ held (notes (runtime x')) = []) ∨
  (failedOnce x x' ∧ ∃ e, OnError e ∈ hooks).
Lemma cycle_ends x probe w :
  inactive (mstate x) = false →
  let '(x', hooks, _) := reconcileMountScope x probe w in
  forceFull x' = false ∧ last hooks = Some (OnEvent (mstate x')) ∧ ending x x' hooks.
Proof.
  intros Hi. unfold reconcileMountScope. rewrite Hi.
  set (y := {| runtime := runtime x; mstate := if bool_decide (mstate x = Live) then _ else _; fails := fails x;
               failedAt := failedAt x; forceFull := false |}).
  assert (Hy : underway x y).
  { split_and!; [done| |done|done]. cbn. case_bool_decide as Hl; [right; by rewrite Hl|by left]. }
  pose proof (attempt_outcome x y (wasMounting x || wasOffline x) probe w Hy eq_refl) as H.
  destruct (attempt y _ _ _ _) as [[x' hooks] w']. by apply outcome_app.
Qed.

(** One cycle of a mount ends in one of three ways and never throws: the
    guard held it (state localGone, failures and history floor as before); it
    succeeded (failures back to zero, live or diverged, and what it held is
    reported and taken); or it failed (one more failure, floor as before, offline
    below three failures and failed from the third), in which case the error is
    reported.  The forced full pass is spent, and the last hook paints the
    final state. *)
Theorem cycle_outcome x probe w :
  inactive (mstate x) = false →
  let '(x', hooks, _) := reconcileMountScope x probe w in
  forceFull x' = false ∧ last hooks = Some (OnEvent (mstate x')) ∧ ending x x' hooks.
Proof. apply cycle_ends. Qed.

(** ** Several cycles *)
Fixpoint cycles (x : MountScope) (probes : list (res Err bool)) (w : W) : MountScope * W :=
  match probes with
  | [] => (x, w)
  | p :: probes => let '(x, _, w) := reconcileMountScope x p w in cycles x probes w
  end.
(** A mount is failed exactly when its budget of consecutive failures is spent. *)
Definition budgeted (x : MountScope) : Prop := fails x ≤ MAX_MOUNT_FAILS ∧ (mstate x = MFailed ↔ fails x = MAX_MOUNT_FAILS).
Lemma cycle_budgeted x probe w :
  budgeted x → let '(x', _, _) := reconcileMountScope x probe w in budgeted x'.
Proof.
  intros [Hle Hb]. destruct (inactive (mstate x)) eqn:Hi; [unfold reconcileMountScope; by rewrite Hi|].
  pose proof (cycle_ends x probe w Hi) as H. destruct (reconcileMountScope x probe w) as [[x' hooks] w'].
  assert (Hlt : fails x < MAX_MOUNT_FAILS).
  { destruct (decide (fails x = MAX_MOUNT_FAILS)) as [He|]; [|lia]. apply Hb in He. by rewrite He in Hi. }
  unfold budgeted. unfold MAX_MOUNT_FAILS in *. destruct H as (_ & _ & [(Hs & Hf & _)|[(Hf & Hs & _)|((Hf & _ & Hs) & _)]]).
  - rewrite Hs, Hf. split; [lia|]. split; [done|lia].
  - rewrite Hf. split; [lia|]. split; [intros H; rewrite H in Hs; by destruct Hs|done].
  - rewrite Hf, Hs. destruct (_ <=? _) eqn:Hc; [apply Nat.leb_le in Hc|apply Nat.leb_gt in Hc]; unfold MAX_MOUNT_FAILS in Hc; (split; [lia|]).
    + split; [intros _; lia|done].
    + split; [done|lia].
Qed.

(** Over any number of cycles a mount is declared failed exactly when three
    cycles in a row failed, and a source that never becomes ready is never
    touched: from first contact, the vault, the source and the mount's own base
    and cursor are exactly as they were, and the mount is offline after one and
    two cycles and failed from the third on. *)
Theorem failure_budget x probes w :
  (budgeted x → budgeted (cycles x probes w).1) ∧
  (mstate x = Mounting → fails x = 0 → sourceReady (ctx (runtime x)) = true → Forall (λ p, p ≠ Ok true) probes →
     (cycles x probes w).2 = w ∧ runtime (cycles x probes w).1 = runtime x ∧
     mstate (cycles x probes w).1 = match length probes with 0 => Mounting | 1 | 2 => Offline | _ => MFailed end).
Proof.
  split.
  - revert x w. induction probes as [|p probes IH]; intros x w Hb; [done|]. cbn [cycles].
    pose proof (cycle_budgeted x p w Hb) as H. destruct (reconcileMountScope x p w) as [[x' hooks] w']. by apply IH.
  - intros Hm Hf Hr Hall.
    assert (Hone : ∀ y p, (mstate y = Mounting ∨ mstate y = Offline) → runtime y = runtime x → p ≠ Ok true →
      ∃ e, reconcileMountScope y p w = (let '(z, hooks) := onThrow {| runtime := runtime y; mstate := mstate y; fails := fails y;
        failedAt := failedAt y; forceFull := false |} e in (z, hooks, w))).
    { intros y p Hy Hrt Hp. unfold reconcileMountScope, wasMounting, wasOffline, attempt, ready. cbv zeta. cbn [runtime]. rewrite Hrt, Hr.
      destruct p as [[|]|e]; [done|exists notReady|exists e]; by destruct Hy as [-> | ->]. }
    assert (Hfail : ∀ ps y, mstate y = MFailed → (cycles y ps w) = (y, w)).
    { induction ps as [|p ps IH]; intros y Hy; [done|]. cbn [cycles]. unfold reconcileMountScope. rewrite Hy. by apply IH. }
    destruct probes as [|p1 [|p2 [|p3 ps]]]; [done|..]; cbn [cycles];
      repeat (apply Forall_cons in Hall as [? Hall]);
      (destruct (Hone x p1) as [e1 ->]; [by left|done|done|]);
      unfold onThrow; cbn [runtime mstate fails failedAt forceFull length]; rewrite Hm, Hf; [done|..];
      match goal with |- context [reconcileMountScope ?y p2 w] => destruct (Hone y p2) as [e2 ->]; [by right|done|done|] end;
      unfold onThrow; cbn [runtime mstate fails failedAt forceFull length]; [done|].
    match goal with |- context [reconcileMountScope ?y p3 w] => destruct (Hone y p3) as [e3 ->]; [by right|done|done|] end.
    unfold onThrow; cbn [runtime mstate fails failedAt forceFull length]. by rewrite Hfail.
Qed.

(** ** All mounts *)
Lemma startDetached_active x : inactive (mstate (startDetached x)) = true → mstate x ≠ Detached ∧ startDetached x = x.
Proof. unfold startDetached. case_bool_decide as Hd; [by rewrite Hd|done]. Qed.

(** No mount can stop another: whatever the outcome of the earlier ones, every
    live scope is driven through its own cycle, started if it was detached, with
    its own base, cursor and floor and the shared chunk cache; a scope that is
    no longer live is left exactly as it was. *)
Theorem every_live_mount_is_driven i isLive probes scopes c w :
  let xs := (reconcileMountScopes i isLive probes scopes c w).1.1 in
  length xs = length scopes ∧
  ∀ j x, scopes !! j = Some x →
    if isLive (i + j)
    then ∃ c' w', xs !! j = Some (reconcileMountScope (startDetached (withCache c' x)) (probes (i + j)) w').1.1
    else xs !! j = Some x.
Proof.
  cbv zeta. revert i c w. induction scopes as [|y scopes IH]; intros i c w; [done|]. cbn [reconcileMountScopes].
  destruct (isLive i) eqn:Hlive; cbn [negb].
  - destruct (reconcileMountScope _ _ _) as [[y' hooks] w1] eqn:Hy.
    specialize (IH (S i) (cacheOf y') w1). destruct (reconcileMountScopes _ _ _ _ _ _) as [[xs hooks'] w2].
    destruct IH as [Hlen IH]. cbn in *. split; [by rewrite Hlen|]. intros [|j] x Hx; cbn in *.
    + injection Hx as <-. rewrite Nat.add_0_r, Hlive. exists c, w. by rewrite Hy.
    + rewrite Nat.add_succ_r. by apply IH.
  - specialize (IH (S i) c w). destruct (reconcileMountScopes _ _ _ _ _ _) as [[xs hooks'] w2].
    destruct IH as [Hlen IH]. cbn in *. split; [by rewrite Hlen|]. intros [|j] x Hx; cbn in *.
    + injection Hx as <-. by rewrite Nat.add_0_r, Hlive.
    + rewrite Nat.add_succ_r. by apply IH.
Qed.
End Drive.

(** ** The plugin's part ([main.ts]) *)
Definition MOUNT_FAILED_RETRY_MS : Z := 5 * 60 * 1000.
Definition stamped (x : MountScope) : bool := match failedAt x with Some t => negb (t =? 0)%Z | None => false end.
(** [onEvent]: the backoff clock is stamped or cleared. *)
Definition stampFailed (now : Z) (x : MountScope) : MountScope :=
  {| runtime := runtime x; mstate := mstate x; fails := fails x;
     failedAt := if bool_decide (mstate x = MFailed) then (if stamped x then failedAt x else Some now) else None;
     forceFull := forceFull x |}.
(** Before a pass: a mount that failed long enough ago starts again. *)
Definition retryFailed (now : Z) (x : MountScope) : MountScope :=
  match failedAt x with
  | Some t =>
      if bool_decide (mstate x = MFailed) && stamped x && (MOUNT_FAILED_RETRY_MS <=? now - t)%Z
      then {| runtime := runtime x; mstate := mountTransition (mstate x) EReset; fails := 0; failedAt := None;
              forceFull := forceFull x |}
      else x
  | None => x
  end.

Definition keyOf (x : MountScope) : jstr := mountKey (mount (runtime x)).
Section Rebuild.
Context (canBuild : Mounts.Mount → bool) (mkCtx : Mounts.Mount → MountRuntimeCtx) (sharedCache : list (jstr * bytes)).
Definition freshScope (m : Mounts.Mount) : MountScope :=
  {| runtime := newRuntime m (mkCtx m) sharedCache; mstate := Detached; fails := 0; failedAt := None; forceFull := false |}.
Fixpoint rebuild (byKey : list (jstr * MountScope)) (want : list Mounts.Mount) (seen : list jstr) : list MountScope :=
  match want with
  | [] => []
  | m :: want =>
      let key := mountKey m in
      if bool_decide (key ∈ seen) then rebuild byKey want seen
      else
        match jget byKey key with
        | Some x => x :: rebuild byKey want (key :: seen)
        | None =>
            if canBuild m then freshScope m :: rebuild byKey want (key :: seen)
            else rebuild byKey want (key :: seen)
        end
  end.
(** A rotated session token drops the scopes, whose transports hold the old one. *)
Definition rebuildMountScopes (sameToken : bool) (want : list Mounts.Mount) (scopes : list MountScope) : list MountScope :=
  let scopes := if sameToken then scopes else [] in
  rebuild (jof ((λ x, (keyOf x, x)) <$> scopes)) want [].

Definition pick (byKey : list (jstr * MountScope)) (m : Mounts.Mount) : option MountScope :=
  match jget byKey (mountKey m) with Some x => Some x | None => if canBuild m then Some (freshScope m) else None end.
Fixpoint uniq (want : list Mounts.Mount) (seen : list jstr) : list Mounts.Mount :=
  match want with
  | [] => []
  | m :: want => if bool_decide (mountKey m ∈ seen) then uniq want seen else m :: uniq want (mountKey m :: seen)
  end.
Lemma rebuild_pick byKey want seen : rebuild byKey want seen = omap (pick byKey) (uniq want seen).
Proof.
  revert seen. induction want as [|m want IH]; intros seen; [done|]. cbn [rebuild uniq]. cbv zeta.
  case_bool_decide; [done|]. cbn. unfold pick at 1. destruct (jget byKey (mountKey m)); [by rewrite IH|].
  destruct (canBuild m); by rewrite IH.
Qed.
Lemma uniq_spec want seen :
  NoDup (mountKey <$> uniq want seen) ∧
  (∀ m, m ∈ uniq want seen → m ∈ want ∧ mountKey m ∉ seen) ∧
  (∀ m, m ∈ want → mountKey m ∉ seen → ∃ m', m' ∈ uniq want seen ∧ mountKey m' = mountKey m).
Proof.
  revert seen. induction want as [|m want IH]; intros seen; cbn [uniq].
  { split_and!; [apply NoDup_nil_2|..]; intros ? H; by apply not_elem_of_nil in H. }
  case_bool_decide as Hs.
  - destruct (IH seen) as (Hnd & Hin & Hall). split_and!; [done|..].
    + intros x Hx. apply Hin in Hx as [? ?]. split; [by right|done].
    + intros x [->|Hx]%elem_of_cons Hn; [done|by apply Hall].
  - destruct (IH (mountKey m :: seen)) as (Hnd & Hin & Hall). split_and!.
    + cbn. constructor; [|done]. intros (x & Hx & Hi)%list_elem_of_fmap. apply Hin in Hi as [_ Hi].
      apply Hi. rewrite Hx. left.
    + intros x [->|Hx]%elem_of_cons; [split; [left|done]|]. apply Hin in Hx as [? Hx].
      rewrite not_elem_of_cons in Hx. split; [by right|by apply Hx].
    + intros x Hx Hn. destruct (decide (mountKey x = mountKey m)) as [He|Hne]; [exists m; split; [left|done]|].
      apply elem_of_cons in Hx as [->|Hx]; [done|]. destruct (Hall x Hx) as (m' & ? & ?); [by rewrite not_elem_of_cons|].
      exists m'. split; [by right|done].
Qed.
Lemma byKey_key scopes k x : jget (jof ((λ x, (keyOf x, x)) <$> scopes)) k = Some x → keyOf x = k ∧ x ∈ scopes.
Proof.
  unfold jof. assert (H : ∀ acc, (∀ k x, jget acc k = Some x → keyOf x = k ∧ x ∈ scopes) → ∀ l, (∀ x, x ∈ l → x ∈ scopes) →
    ∀ k x, jget (foldl (λ m e, jset m e.1 e.2) acc ((λ x, (keyOf x, x)) <$> l)) k = Some x → keyOf x = k ∧ x ∈ scopes).
  { intros acc Hacc l. revert acc Hacc. induction l as [|y l IH]; intros acc Hacc Hl; [done|]. cbn. apply IH.
    - intros k' x'. destruct (decide (keyOf y = k')) as [<-|Hne].
      + rewrite jget_set_eq. intros [= <-]. split; [done|apply Hl; left].
      + rewrite jget_set_ne by done. apply Hacc.
    - intros z Hz. apply Hl. by right. }
  apply H; [done|auto].
Qed.

(** Rebuilding the mount scopes before a pass never disturbs a live mount:
    each wanted mount has at most one scope, by its key; one that had a scope
    keeps exactly it (state, cursor, failures), unless the session token was
    rotated; any other scope is a fresh detached one restored from what was
    persisted; scopes of mounts that are no longer wanted are gone. *)
Theorem rebuild_keeps_live_mounts sameToken want scopes :
  let next := rebuildMountScopes sameToken want scopes in
  NoDup (keyOf <$> next) ∧
  (∀ x, x ∈ next → keyOf x ∈ mountKey <$> want ∧
     ((sameToken = true ∧ x ∈ scopes) ∨ ∃ m, m ∈ want ∧ canBuild m = true ∧ x = freshScope m)) ∧
  (∀ x, sameToken = true → x ∈ scopes → NoDup (keyOf <$> scopes) → keyOf x ∈ mountKey <$> want → x ∈ next).
Proof.
  cbv zeta. unfold rebuildMountScopes. set (kept := if sameToken then scopes else []).
  set (byKey := jof _). rewrite rebuild_pick. destruct (uniq_spec want []) as (Hnd & Hin & Hall).
  assert (Hpick : ∀ m x, pick byKey m = Some x → keyOf x = mountKey m ∧
    (x ∈ kept ∨ (canBuild m = true ∧ x = freshScope m))).
  { intros m x. unfold pick. destruct (jget byKey (mountKey m)) as [y|] eqn:Hy.
    - intros [= ->]. apply byKey_key in Hy as [? ?]. auto.
    - destruct (canBuild m); [|done]. intros [= <-]. auto. }
  split_and!.
  - revert Hnd. generalize (uniq want []). intros l. induction l as [|m l IH]; intros Hl; [apply NoDup_nil_2|].
    cbn in Hl. apply NoDup_cons in Hl as [Hm Hl]. cbn. destruct (pick byKey m) as [x|] eqn:Hx; [|by apply IH].
    cbn. constructor; [|by apply IH]. intros (y & Hy & (m' & Hm' & Hp)%list_elem_of_omap)%list_elem_of_fmap.
    apply Hm, list_elem_of_fmap. exists m'. split; [|done]. apply Hpick in Hx as [Hx _]. apply Hpick in Hp as [Hp _]. congruence.
  - intros x (m & Hm & Hp)%list_elem_of_omap. destruct (Hpick _ _ Hp) as [Hk Hx]. apply Hin in Hm as [Hm _]. split.
    + rewrite Hk. by apply list_elem_of_fmap_2.
    + destruct Hx as [Hx|[Hc ->]]; [left|right; by exists m]. subst kept. destruct sameToken; [done|by apply not_elem_of_nil in Hx].
  - intros x -> Hx Hnds (m & Hk & Hm)%list_elem_of_fmap. destruct (Hall m Hm) as (m' & Hm' & He); [by apply not_elem_of_nil|].
    apply list_elem_of_omap. exists m'. split; [done|]. unfold pick. subst kept byKey. cbv iota.
    rewrite jof_id by (unfold jwf, jkeys; rewrite <- list_fmap_compose; exact Hnds).
    rewrite (jget_in _ _ x); [done|unfold jwf, jkeys; rewrite <- list_fmap_compose; exact Hnds|].
    rewrite He, <- Hk. by apply (list_elem_of_fmap_2 (λ x, (keyOf x, x))).
Qed.
End Rebuild.

(** A failed mount recovers by itself: it keeps the time it failed, is left
    alone until five minutes later, and then starts again from detached with a
    fresh failure budget; no other mount is touched. *)
Theorem failed_mount_retries x now later :
  mstate x = MFailed → failedAt x = None → now ≠ 0%Z →
  let y := stampFailed now x in
  failedAt y = Some now ∧ stampFailed later y = y ∧
  retryFailed later y =
    (if (MOUNT_FAILED_RETRY_MS <=? later - now)%Z
     then {| runtime := runtime x; mstate := Detached; fails := 0; failedAt := None; forceFull := forceFull x |} else y) ∧
  (∀ z, mstate z ≠ MFailed → retryFailed later z = z).
Proof.
  intros Hs Hf Hn. cbv zeta. unfold stampFailed, stamped. rewrite Hs, Hf. cbn [mstate failedAt runtime fails forceFull].
  rewrite bool_decide_eq_true_2 by done. rewrite (proj2 (Z.eqb_neq _ _)) by done. cbn [negb]. split_and!; [done..| |].
  - unfold retryFailed, stamped. cbn [mstate failedAt runtime forceFull]. rewrite (proj2 (Z.eqb_neq now 0)) by done. cbn [negb].
    rewrite bool_decide_eq_true_2 by done. cbn [andb]. by destruct (_ <=? _)%Z.
  - intros z Hz. unfold retryFailed. destruct (failedAt z); [|done]. by rewrite bool_decide_eq_false_2.
Qed.

(** ** Witnesses *)
Definition demoScope : MountScope :=
  {| runtime := demoRuntime; mstate := Mounting; fails := 0; failedAt := None; forceFull := false |}.
Notation demoCycle probe :=
  (reconcileMountScope id lower Demo.dec id id Demo.sha Demo.world Demo.fair demoScope probe mountWorld) (only parsing).
Lemma cycle_outcome_witness :
  let x' := (demoCycle (Ok true)).1.1 in mstate x' = Diverged ∧ (mstate x' = Live ∨ mstate x' = Diverged).
Proof.
  pose proof (cycle_outcome id lower Demo.dec id id Demo.sha Demo.world Demo.fair demoScope (Ok true) mountWorld eq_refl) as H.
  assert (Hs : mstate (demoCycle (Ok true)).1.1 = Diverged) by (vm_compute; reflexivity).
  destruct (demoCycle (Ok true)) as [[x' hooks] w']. cbn [fst] in Hs |- *. split; [exact Hs|].
  destruct H as (_ & _ & [(H & _)|[(_ & H & _)|((_ & _ & H) & _)]]).
  - rewrite Hs in H. discriminate H.
  - exact H.
  - rewrite Hs in H. discriminate H.
Defined.
Lemma failure_budget_witness :
  let x' := (cycles id lower Demo.dec id id Demo.sha Demo.world Demo.fair demoScope
    [Ok false; Throw notReady; Ok false] mountWorld).1 in mstate x' = MFailed ∧ runtime x' = demoRuntime.
Proof.
  destruct (proj2 (failure_budget id lower Demo.dec id id Demo.sha Demo.world Demo.fair demoScope
    [Ok false; Throw notReady; Ok false] mountWorld)) as (_ & Hr & Hs); [reflexivity..|repeat constructor; discriminate|].
  split; [exact Hs|exact Hr].
Defined.
Lemma failed_mount_retries_witness :
  let x := {| runtime := demoRuntime; mstate := MFailed; fails := 3; failedAt := None; forceFull := false |} in
  mstate (retryFailed 400000 (stampFailed 100000 x)) = Detached ∧ failedAt (stampFailed 100000 x) = Some 100000%Z.
Proof.
  cbv zeta.
  destruct (failed_mount_retries {| runtime := demoRuntime; mstate := MFailed; fails := 3; failedAt := None; forceFull := false |}
    100000 400000) as (H1 & _ & H2 & _); [reflexivity|reflexivity|discriminate|].
  split; [rewrite H2; reflexivity|exact H1].
Defined.
End Mountsync.
