(* ===== verification/Compose.v ===== *)
(** * Compose: the composed mounts of a vault ([client/src/main.ts])

    The operations of the plugin on its set of mounts, over the state they share:
    the settings, the primary vault's base, the saved state and the live scope of
    every mount, what is held for review, and the edits made under read-only
    mounts.  An operation between two awaits is a function on that state; the
    operations that work on files are trees of calls whose state other tasks may
    change at every call. *)

From S2P Require Import Prelude Jsmap Effects Paths Base Lifecycle Configsync Sync Mountengine Mountsync Poll.

Module Compose.
Import Mounts Mountengine.

(** ** State *)
Record Comp := {
  settings : Configsync.Scope.Settings; base : Store.BaseStore; stateStore : list (jstr * MountPersist);
  scopes : list Mountsync.MountScope; sockets : list jstr;
  heldDeletes : list (jstr * list jstr); heldPushes : list (jstr * list jstr);
  edits : list (jstr * list jstr); noticed : list (jstr * jstr)
}.
Definition mounts (c : Comp) : list Mount := Configsync.Scope.mounts (settings c).
Definition withMounts (ms : list Mount) (c : Comp) : Comp :=
  let s := settings c in
  {| settings := {| Configsync.Scope.configSync := Configsync.Scope.configSync s;
                    Configsync.Scope.skipForeignArtefacts := Configsync.Scope.skipForeignArtefacts s;
                    Configsync.Scope.excludedFolders := Configsync.Scope.excludedFolders s;
                    Configsync.Scope.mounts := ms; Configsync.Scope.vaultOwner := Configsync.Scope.vaultOwner s;
                    Configsync.Scope.vaultId := Configsync.Scope.vaultId s; Configsync.Scope.selfFolderId := Configsync.Scope.selfFolderId s |};
     base := base c; stateStore := stateStore c; scopes := scopes c; sockets := sockets c; heldDeletes := heldDeletes c;
     heldPushes := heldPushes c; edits := edits c; noticed := noticed c |}.
Definition withBase (b : Store.BaseStore) (c : Comp) : Comp :=
  {| settings := settings c; base := b; stateStore := stateStore c; scopes := scopes c; sockets := sockets c;
     heldDeletes := heldDeletes c; heldPushes := heldPushes c; edits := edits c; noticed := noticed c |}.
Definition withStore (s : list (jstr * MountPersist)) (c : Comp) : Comp :=
  {| settings := settings c; base := base c; stateStore := s; scopes := scopes c; sockets := sockets c;
     heldDeletes := heldDeletes c; heldPushes := heldPushes c; edits := edits c; noticed := noticed c |}.
Definition withScopes (xs : list Mountsync.MountScope) (c : Comp) : Comp :=
  {| settings := settings c; base := base c; stateStore := stateStore c; scopes := xs; sockets := sockets c;
     heldDeletes := heldDeletes c; heldPushes := heldPushes c; edits := edits c; noticed := noticed c |}.
Definition withSockets (l : list jstr) (c : Comp) : Comp :=
  {| settings := settings c; base := base c; stateStore := stateStore c; scopes := scopes c; sockets := l;
     heldDeletes := heldDeletes c; heldPushes := heldPushes c; edits := edits c; noticed := noticed c |}.
Definition withHeld (d p : list (jstr * list jstr)) (c : Comp) : Comp :=
  {| settings := settings c; base := base c; stateStore := stateStore c; scopes := scopes c; sockets := sockets c;
     heldDeletes := d; heldPushes := p; edits := edits c; noticed := noticed c |}.
Definition withEdits (e : list (jstr * list jstr)) (n : list (jstr * jstr)) (c : Comp) : Comp :=
  {| settings := settings c; base := base c; stateStore := stateStore c; scopes := scopes c; sockets := sockets c;
     heldDeletes := heldDeletes c; heldPushes := heldPushes c; edits := e; noticed := n |}.
Definition hasKey (key : jstr) (x : Mountsync.MountScope) : bool := Mountsync.keyOf x === key.
Definition dropScope (key : jstr) (c : Comp) : Comp := withScopes (filter (λ x, hasKey key x = false) (scopes c)) c.

Section Compose.
Context (nfc lowerCase : jstr → jstr).

Definition activeMounts (c : Comp) : list Mount := Configsync.Scope.activeMounts nfc lowerCase (settings c).
Definition isSelf (owner vault : jstr) (m : Mount) : bool := (Mounts.owner (source m) === owner) && (Mounts.vaultId (source m) === vault).
(** ** Operations between two awaits *)
Definition invalidateSelfReferentialMountBases (owner vault : jstr) (c : Comp) : Comp :=
  withStore (foldl (λ s m, if isSelf owner vault m then jdel s (mountKey m) else s) (stateStore c) (mounts c)) c.
(** The pruning in [loadSettings]. *)
Definition pruneState (c : Comp) : Comp :=
  withStore (filter (λ e, e.1 ∈ mountKey <$> mounts c) (stateStore c)) c.
Definition forgetPrimaryBaseUnder (m : Mount) (c : Comp) : Comp :=
  withBase (foldl (λ b p, if claimsLocal nfc lowerCase m p then Store.delete b p else b) (base c) (Store.paths (base c))) c.
Definition addMount (m : Mount) (c : Comp) : Comp := forgetPrimaryBaseUnder m (withMounts (mounts c ++ [m]) c).
Definition redirect (key : jstr) (d : MountDirection) (x : Mount) : Mount :=
  if mountKey x === key then {| source := source x; mountPoint := mountPoint x; direction := d |} else x.
(** *** Edits under a read-only mount *)
Definition editsOf (key : jstr) (c : Comp) : list jstr := default [] (jget (edits c) key).
Definition clearRoMountEdits (key : jstr) (c : Comp) : Comp :=
  withEdits (jdel (edits c) key) (filter (λ n, n ∉ pair key <$> editsOf key c) (noticed c)) c.
(** The state, and the edits that are announced. *)
Definition setRoMountEdits (key : jstr) (paths : list jstr) (authoritative : bool) (c : Comp) : Comp * list jstr :=
  let before := editsOf key c in
  let next := dedup ((if authoritative then [] else before) ++ paths) in
  let kept := filter (λ n, n ∉ pair key <$> filter (λ p, p ∉ next) before) (noticed c) in
  let fresh := filter (λ p, p ∉ before ∧ (key, p) ∉ kept) next in
  (withEdits (match next with [] => jdel (edits c) key | _ => jset (edits c) key next end)
     (kept ++ (pair key <$> fresh)) c, fresh).
Definition roMountEditsFor (key : jstr) (c : Comp) : list jstr := jsort (editsOf key c).
(** *** Changing the set *)
Definition updateMountDirection (m : Mount) (d : MountDirection) (c : Comp) : Comp :=
  let key := mountKey m in
  clearRoMountEdits key (dropScope key (withMounts (redirect key d <$> mounts c) c)).
Definition removeMount (m : Mount) (c : Comp) : Comp :=
  let key := mountKey m in
  let c := dropScope key (withMounts (filter (λ x, mountKey x ≠ key) (mounts c)) c) in
  let c := withSockets (filter (λ k, k ≠ key) (sockets c)) c in
  let c := forgetPrimaryBaseUnder m (withStore (jdel (stateStore c) key) c) in
  clearRoMountEdits key (withHeld (jdel (heldDeletes c) key) (jdel (heldPushes c) key) c).
Definition reinstateMount (m : Mount) (c : Comp) : Comp :=
  let key := mountKey m in
  let c := dropScope key (withStore (jdel (stateStore c) key) c) in
  clearRoMountEdits key (withHeld (jdel (heldDeletes c) key) (jdel (heldPushes c) key) c).
(** *** The mount follows its folder *)
Definition moves (oldN : jstr) (m : Mount) : bool :=
  let mp := normMountFolder (mountPoint m) in (mp === oldN) || starts_with mp (oldN ++ [cSlash]).
Definition movedTo (oldN newN : jstr) (m : Mount) : jstr := newN ++ drop (length oldN) (normMountFolder (mountPoint m)).
Definition relocate (moved : list (jstr * jstr)) (m : Mount) : Mount :=
  match jget moved (mountKey m) with
  | Some p => {| source := source m; mountPoint := p; direction := direction m |}
  | None => m
  end.
Definition followMountPointRename (oldFolder newFolder : jstr) (c : Comp) : Comp :=
  let oldN := normMountFolder oldFolder in
  let newN := normMountFolder newFolder in
  if negb (truthy oldN) || negb (truthy newN) || (oldN === newN) then c
  else
    let affected := filter (λ m, moves oldN m = true) (mounts c) in
    if length affected =? 0 then c
    else
      let moved := jof ((λ m, (mountKey m, movedTo oldN newN m)) <$> affected) in
      let next := relocate moved <$> mounts c in
      match validateMounts nfc lowerCase next with
      | _ :: _ => c
      | [] => withSockets [] (withScopes [] (withMounts next c))
      end.
(** Whether the move out of the primary vault is announced. *)
Definition noteMoveIntoPullMount (oldPath newPath : jstr) (c : Comp) : bool :=
  match List.find (λ m, bool_decide (direction m = Pull) && claimsLocal nfc lowerCase m newPath) (activeMounts c) with
  | None => false
  | Some _ => negb (existsb (λ m, claimsLocal nfc lowerCase m oldPath) (activeMounts c))
  end.
Definition forced (key : jstr) (c : Comp) : Comp :=
  withScopes ((λ x : Mountsync.MountScope, if hasKey key x then
    {| Mountsync.runtime := Mountsync.runtime x; Mountsync.mstate := Mountsync.mstate x; Mountsync.fails := Mountsync.fails x;
       Mountsync.failedAt := Mountsync.failedAt x; Mountsync.forceFull := true |} else x) <$> scopes c) c.
(** The state, and whether the mounts are reconciled. *)
Definition nudgeMountForLocalPath (path : jstr) (isEcho : jstr → bool) (c : Comp) : Comp * bool :=
  match nudgeTarget nfc lowerCase (activeMounts c) path isEcho with
  | None => (c, false)
  | Some m => (forced (mountKey m) c, true)
  end.
End Compose.

(** ** Operations on files *)
Inductive COp : Type :=
| AdapterExists (p : jstr) | AdapterIsFile (p : jstr) | Mkdir (p : jstr)
| IoRead (p : jstr) | IoWrite (p : jstr) (b : bytes) | IoRemove (p : jstr)
| SaveSettings | PersistData | ReconcileMounts | DateNow | Note.
Definition CAns (o : COp) : Type :=
  match o with
  | AdapterExists _ | AdapterIsFile _ => res Err bool
  | IoRead _ => res Err bytes
  | Mkdir _ | IoWrite _ _ | IoRemove _ => res Err unit
  | DateNow => N
  | _ => unit
  end.
Abbreviation K := (M CAns Comp Err).
Abbreviation KHistory := (hist CAns Comp Err).
Definition tell (o : COp) : K unit := bindM (call o) (λ _, mret' tt).
Notation need o := (callE o id) (only parsing).

Definition adapterExists (p : jstr) : K bool := need (AdapterExists p).
Definition adapterIsFile (p : jstr) : K bool := need (AdapterIsFile p).
(** Every level of the folder is made; a file in the way, or an error, ends it. *)
Fixpoint makeLevels (path : jstr) (segs : list jstr) : K unit :=
  match segs with
  | [] => mret' tt
  | seg :: segs =>
      let path := if truthy path then path ++ cSlash :: seg else seg in
      let* goOn :=
        try_catch
          (let* there := adapterExists path in
           if there then
             let* isFile := adapterIsFile path in
             if isFile then (tell Note ;; mret' false) else mret' true
           else (need (Mkdir path) ;; mret' true))
          (λ _, tell Note ;; mret' false) in
      if goOn then makeLevels path segs else mret' tt
  end.
Definition ensureMountFolder (mountPoint : jstr) : K unit :=
  makeLevels [] (filter (λ s, truthy s = true) (split_on cSlash (normMountFolder mountPoint))).
Definition KEEPER_TRIES : nat := 1000.
Fixpoint tryKeeper (stem ext : jstr) (i togo : nat) : K jstr :=
  match togo with
  | 0 => let* now := (call DateNow : K N) in mret' (stem ++ js " (" ++ num_str now ++ js ")" ++ ext)
  | S togo =>
      let p := if i =? 0 then stem ++ ext else stem ++ js " (" ++ num_str (N.of_nat (i + 1)) ++ js ")" ++ ext in
      let* taken := adapterExists p in
      if taken then tryKeeper stem ext (S i) togo else mret' p
  end.
Definition uniqueKeeperPath (folder rel : jstr) : K jstr :=
  let '(dir, stem, ext) := Store.splitPath (folder ++ cSlash :: rel) in tryKeeper (dir ++ stem) ext 0 KEEPER_TRIES.

(** The mount forgets the file: in its live scope and in its saved state. *)
Definition forgetScopeEntry (key rel : jstr) (x : Mountsync.MountScope) : Mountsync.MountScope :=
  if hasKey key x then
    let rt := Mountsync.runtime x in
    {| Mountsync.runtime :=
         {| mount := mount rt; ctx := ctx rt;
            state := Iface.setB (Store.delete (Iface.base (state rt)) rel) (state rt);
            histFloor := histFloor rt; notes := notes rt; real := real rt |};
       Mountsync.mstate := Mountsync.mstate x; Mountsync.fails := Mountsync.fails x;
       Mountsync.failedAt := Mountsync.failedAt x; Mountsync.forceFull := Mountsync.forceFull x |}
  else x.
Definition forgetSaved (key rel : jstr) (s : list (jstr * MountPersist)) : list (jstr * MountPersist) :=
  match jget s key with
  | Some st => jset s key {| mp_base := jdel (mp_base st) rel; mp_version := mp_version st; mp_historyFloor := mp_historyFloor st |}
  | None => s
  end.
Definition forgetEntry (key rel : jstr) (c : Comp) : Comp :=
  withStore (forgetSaved key rel (stateStore c)) (withScopes (forgetScopeEntry key rel <$> scopes c) c).
Definition keepOne (m : Mount) (folder rel : jstr) : K bool :=
  try_catch
    (let* content := need (IoRead (localFromMountRel m rel)) in
     let* p := uniqueKeeperPath folder rel in
     need (IoWrite p content) ;;
     modify (forgetEntry (mountKey m) rel) ;; mret' true)
    (λ _, tell Note ;; mret' false).
Fixpoint keepAll (m : Mount) (folder : jstr) (rels : list jstr) : K (list jstr) :=
  match rels with
  | [] => mret' []
  | rel :: rels =>
      let* good := keepOne m folder rel in
      let* rest := keepAll m folder rels in
      mret' (if good then rel :: rest else rest)
  end.
Definition defaultKeeper : jstr := js "Read-only edits".
Definition keeperFolderOf (keeperFolder : jstr) : jstr :=
  let f := normMountFolder keeperFolder in if truthy f then f else defaultKeeper.
Definition badKeeper (nfc lowerCase : jstr → jstr) (c : Comp) (folder : jstr) : bool :=
  (lowerCase (default [] (head (split_on cSlash folder))) === js ".obsidian")
  || primaryExcludes nfc lowerCase (activeMounts nfc lowerCase c) folder.
Section Handlers.
Context (nfc lowerCase : jstr → jstr).
Definition keepRoMountEdits (m : Mount) (keeperFolder : jstr) : K nat :=
  let key := mountKey m in
  let* c := getS in
  let rels := roMountEditsFor key c in
  if length rels =? 0 then mret' 0
  else
    let folder := keeperFolderOf keeperFolder in
    if badKeeper nfc lowerCase c folder then (tell Note ;; mret' 0)
    else
      ensureMountFolder folder ;;
      let* restored := keepAll m folder rels in
      modify (λ c, clearRoMountEdits key (forced key c)) ;;
      tell PersistData ;;
      for_each restored (λ rel, try_catch (need (IoRemove (localFromMountRel m rel))) (λ _, mret' tt)) ;;
      tell ReconcileMounts ;;
      mret' (length restored).
(** The other operations, with what they await. *)
Definition runAddMount (m : Mount) : K unit :=
  modify (addMount nfc lowerCase m) ;; tell SaveSettings ;; ensureMountFolder (mountPoint m) ;; tell ReconcileMounts.
Definition runRemoveMount (m : Mount) : K unit := modify (removeMount nfc lowerCase m) ;; tell SaveSettings.
Definition runReinstateMount (m : Mount) : K unit :=
  modify (reinstateMount m) ;; ensureMountFolder (mountPoint m) ;; tell SaveSettings ;; tell ReconcileMounts.
Definition runUpdateMountDirection (m : Mount) (d : MountDirection) : K unit :=
  modify (updateMountDirection m d) ;; tell SaveSettings ;; tell ReconcileMounts.
End Handlers.

(** ** The boundary between the primary vault and its mounts *)
Lemma split_on_cat c a b : split_on c (a ++ c :: b) = split_on c a ++ split_on c b.
Proof.
  induction a as [|x a IH]; cbn [app split_on].
  - by rewrite decide_True.
  - rewrite IH. destruct (decide (x = c)); [done|].
    pose proof (split_on_not_nil c a) as Hne. by destruct (split_on c a).
Qed.
Lemma segsOf_cat a b : segsOf (a ++ cSlash :: b) = segsOf a ++ segsOf b.
Proof. rewrite !segsOf_eq, split_on_cat. apply filter_app. Qed.
Section Boundary.
Context (nfc lowerCase : jstr → jstr).
Abbreviation claims := (claimsLocal nfc lowerCase).
Abbreviation active := (activeMounts nfc lowerCase).
Abbreviation valid ms := (validMounts nfc lowerCase ms = ms).
(** Every configured mount is valid, and the primary's base holds nothing under
    a mount in effect. *)
Definition separate (c : Comp) : Prop :=
  valid (mounts c) ∧ jwf (Store.m (base c)) ∧ ∀ m p, m ∈ active c → p ∈ Store.paths (base c) → claims m p = false.
Definition inEffect (s : Configsync.Scope.Settings) (m : Mount) : Prop :=
  ¬ (Mounts.owner (source m) = Configsync.Scope.vaultOwner s ∧ Mounts.vaultId (source m) = Configsync.Scope.vaultId s).
Lemma active_spec c m : valid (mounts c) → m ∈ active c ↔ m ∈ mounts c ∧ inEffect (settings c) m.
Proof.
  intros Hv. unfold activeMounts, Configsync.Scope.activeMounts. rewrite list_elem_of_filter.
  fold (mounts c). rewrite Hv. unfold inEffect. tauto.
Qed.
(** Forgetting the base under a mount. *)
Lemma forget_paths m (b : Store.BaseStore) l :
  jwf (Store.m b) →
  let b' := foldl (λ b p, if claims m p then Store.delete b p else b) b l in
  jwf (Store.m b') ∧ ∀ p, p ∈ Store.paths b' ↔ p ∈ Store.paths b ∧ (p ∈ l → claims m p = false).
Proof.
  revert b. induction l as [|x l IH]; intros b Hw; cbn [foldl].
  { split; [done|]. intros p. split; [intros Hp; split; [done|by intros ?%elem_of_nil]|tauto]. }
  assert (Hw' : jwf (Store.m (if claims m x then Store.delete b x else b))).
  { destruct (claims m x); [by apply jwf_del|done]. }
  destruct (IH _ Hw') as [Hw2 Hp]. split; [exact Hw2|]. intros p. rewrite Hp, elem_of_cons.
  destruct (claims m x) eqn:Hx.
  - unfold Store.paths, Store.delete. cbn [Store.m]. rewrite jkeys_del, list_elem_of_filter by done.
    split; [|].
    + intros [[Hne Hin] Hl]. split; [done|]. intros [-> | Hpl]; [done|auto].
    + intros [Hin Hl]. split; [split; [|done]|tauto]. intros ->. rewrite Hl in Hx by tauto. done.
  - split; [|tauto]. intros [Hin Hl]. split; [done|]. intros [-> | Hpl]; auto.
Qed.
Lemma forgotten m c : jwf (Store.m (base c)) →
  jwf (Store.m (base (forgetPrimaryBaseUnder nfc lowerCase m c))) ∧
  ∀ p, p ∈ Store.paths (base (forgetPrimaryBaseUnder nfc lowerCase m c)) ↔ p ∈ Store.paths (base c) ∧ claims m p = false.
Proof.
  intros Hw. unfold forgetPrimaryBaseUnder. cbn [base withBase].
  destruct (forget_paths m (base c) (Store.paths (base c)) Hw) as [Hw' Hp]. split; [exact Hw'|].
  intros p. rewrite Hp. tauto.
Qed.
Lemma sorted_filter {A} (R : A → A → Prop) (P : A → Prop) `{!∀ x, Decision (P x)} l :
  StronglySorted R l → StronglySorted R (filter P l).
Proof.
  induction 1 as [|x l _ IH Hx]; [constructor|]. rewrite filter_cons. case_decide; [|done]. constructor; [done|].
  rewrite Forall_forall in Hx |- *. intros y [_ Hy]%list_elem_of_filter. auto.
Qed.
Lemma valid_filter (P : Mount → Prop) `{!∀ x, Decision (P x)} ms : valid ms → valid (filter P ms).
Proof.
  rewrite !validMounts_fix. intros [Ha Hp]. split; [|by apply sorted_filter].
  rewrite Forall_forall in Ha |- *. intros m [_ Hm]%list_elem_of_filter. auto.
Qed.
Lemma valid_map (f : Mount → Mount) ms :
  (∀ m, source (f m) = source m ∧ mountPoint (f m) = mountPoint m) → valid ms → valid (f <$> ms).
Proof.
  rewrite !validMounts_fix. intros Hf [Ha Hp]. split.
  - apply Forall_fmap. eapply Forall_impl; [exact Ha|]. intros m. unfold acceptable. cbn. destruct (Hf m) as [-> ->]. done.
  - clear Ha. induction Hp as [|m ms _ IH Hm]; [constructor|]. rewrite fmap_cons. constructor; [exact IH|].
    apply Forall_fmap. eapply Forall_impl; [exact Hm|]. intros b. unfold overlaps. cbn.
    destruct (Hf m) as [_ ->], (Hf b) as [_ ->]. done.
Qed.
(** *** Every operation keeps the two sides apart *)
Lemma separate_shrinks c c' :
  separate c → valid (mounts c') → jwf (Store.m (base c')) →
  (∀ m p, m ∈ active c' → p ∈ Store.paths (base c') → claims m p = true →
     p ∈ Store.paths (base c) ∧ ∃ m0, m0 ∈ active c ∧ claims m0 p = true) →
  separate c'.
Proof.
  intros (_ & _ & Hs) Hv Hw Hm. split_and!; [done..|]. intros m p Hin Hp. destruct (claims m p) eqn:Hc; [|done].
  destruct (Hm m p Hin Hp Hc) as (Hp0 & m0 & Hm0 & Hc0). rewrite <- Hc0. by apply Hs.
Qed.
Lemma separate_add c m :
  separate c → validateMounts nfc lowerCase (mounts c ++ [m]) = [] → separate (addMount nfc lowerCase m c).
Proof.
  intros Hsep Hv%validate_iff_all_valid. destruct Hsep as (Hv0 & Hw & Hs).
  destruct (forgotten m (withMounts (mounts c ++ [m]) c) Hw) as [Hw' Hp]. split_and!; [exact Hv|exact Hw'|].
  intros m' p Hin Hpp. unfold addMount in Hpp. apply Hp in Hpp as [Hpp Hc].
  assert (Ha : m' ∈ active (addMount nfc lowerCase m c)) by exact Hin.
  apply active_spec in Ha as [Hm Hi]; [|exact Hv]. apply elem_of_app in Hm as [Hm | ->%list_elem_of_singleton]; [|exact Hc].
  apply Hs; [|exact Hpp]. by apply active_spec.
Qed.
Lemma separate_remove c m : separate c → separate (removeMount nfc lowerCase m c).
Proof.
  intros Hsep. pose proof Hsep as (Hv0 & Hw & Hs).
  set (c1 := withStore (jdel (stateStore c) (mountKey m)) (withSockets (filter (λ k, k ≠ mountKey m) (sockets c))
    (dropScope (mountKey m) (withMounts (filter (λ x, mountKey x ≠ mountKey m) (mounts c)) c)))).
  destruct (forgotten m c1 Hw) as [Hw' Hp].
  assert (Hv : valid (mounts (removeMount nfc lowerCase m c))) by (apply (valid_filter _ (mounts c)), Hv0).
  eapply separate_shrinks; [exact Hsep|exact Hv|exact Hw'|]. intros m' p Hin Hpp Hc.
  apply Hp in Hpp as [Hpp _]. split; [exact Hpp|]. exists m'. split; [|exact Hc].
  apply active_spec in Hin as [Hm Hi]; [|exact Hv]. apply active_spec; [exact Hv0|]. split; [|exact Hi].
  by apply list_elem_of_filter in Hm as [_ Hm].
Qed.
Lemma separate_direction c m d : separate c → separate (updateMountDirection m d c).
Proof.
  intros Hsep. pose proof Hsep as (Hv0 & Hw & Hs).
  assert (Hf : ∀ x, source (redirect (mountKey m) d x) = source x ∧ mountPoint (redirect (mountKey m) d x) = mountPoint x).
  { intros x. unfold redirect. by destruct (mountKey x === _). }
  assert (Hv : valid (mounts (updateMountDirection m d c))) by (by apply (valid_map (redirect (mountKey m) d))).
  eapply separate_shrinks; [exact Hsep|exact Hv|exact Hw|]. intros m' p Hin Hpp Hc. split; [exact Hpp|].
  apply active_spec in Hin as [Hm Hi]; [|exact Hv]. apply list_elem_of_fmap in Hm as (x & -> & Hx). destruct (Hf x) as [Hs1 Hs2].
  exists x. split.
  - apply active_spec; [done|]. split; [done|]. unfold inEffect in *. rewrite Hs1 in Hi. exact Hi.
  - unfold claimsLocal in *. by rewrite Hs2 in Hc.
Qed.
Lemma jof_source {V} (l : list (jstr * V)) k v : jget (jof l) k = Some v → (k, v) ∈ l.
Proof.
  unfold jof. cut (∀ acc, jget (foldl (λ m e, jset m e.1 e.2) acc l) k = Some v → jget acc k = Some v ∨ (k, v) ∈ l).
  { intros H Hk. by destruct (H [] Hk). }
  induction l as [|[x y] l IH]; intros acc Hk; cbn [foldl fst snd] in *; [by left|].
  destruct (IH _ Hk) as [Hg|Hin]; [|right; by right]. destruct (decide (x = k)) as [-> | Hne].
  - rewrite jget_set_eq in Hg. injection Hg as ->. right; left.
  - rewrite jget_set_ne in Hg by done. by left.
Qed.
(** A moved mount point is the new folder or a folder below it. *)
Lemma movedTo_under oldN newN m :
  moves oldN m = true → movedTo oldN newN m = newN ∨ ∃ r, movedTo oldN newN m = newN ++ cSlash :: r.
Proof.
  unfold moves, movedTo. cbv zeta. intros [->%jeq_true|(r & Hr)%starts_with_spec]%orb_true_iff.
  - left. by rewrite drop_all, app_nil_r.
  - right. exists r. rewrite Hr, <- (assoc_L (++)), drop_app_length. done.
Qed.
Lemma relocate_cases moved m : relocate moved m = m ∨ ∃ p, jget moved (mountKey m) = Some p ∧ mountPoint (relocate moved m) = p ∧ source (relocate moved m) = source m.
Proof. unfold relocate. destruct (jget moved (mountKey m)); [right|left]; eauto. Qed.
Definition freshFolder (folder : jstr) (c : Comp) : Prop :=
  ∀ p, p ∈ Store.paths (base c) → underOrEqual nfc lowerCase (segsOf p) (segsOf (normMountFolder folder)) = false.
Lemma separate_rename c oldFolder newFolder :
  separate c → freshFolder newFolder c → separate (followMountPointRename nfc lowerCase oldFolder newFolder c).
Proof.
  intros Hsep Hfresh. unfold followMountPointRename. cbv zeta.
  set (oldN := normMountFolder oldFolder). set (newN := normMountFolder newFolder).
  destruct (_ || _ || _); [done|]. set (affected := filter _ (mounts c)). destruct (length affected =? 0); [done|].
  set (moved := jof _). destruct (validateMounts _ _ _) as [|e l] eqn:Hval; [|done].
  apply validate_iff_all_valid in Hval as Hv. pose proof Hsep as (Hv0 & Hw & Hs).
  eapply separate_shrinks; [exact Hsep|exact Hv|exact Hw|]. intros m' p Hin Hpp Hc. split; [exact Hpp|].
  apply active_spec in Hin as [Hm Hi]; [|exact Hv]. apply list_elem_of_fmap in Hm as (m & -> & Hm).
  destruct (relocate_cases moved m) as [He|(q & Hq & Hmp & Hsrc)].
  - rewrite He in *. exists m. split; [|exact Hc]. by apply active_spec.
  - exfalso. apply jof_source, list_elem_of_fmap in Hq as (m0 & [= _ Hq] & [Ha _]%list_elem_of_filter).
    apply claimsLocal_spec in Hc as [_ Hpre]. rewrite Hmp in Hpre.
    apply (not_false_iff_true (underOrEqual nfc lowerCase (segsOf p) (segsOf newN))); [|by apply Hfresh].
    apply underOrEqual_spec. destruct (movedTo_under oldN newN m0 Ha) as [E|[r E]]; rewrite Hq, E in Hpre; [done|].
    rewrite segsOf_cat in Hpre. unfold canonPrefix in *. rewrite fmap_app in Hpre. etransitivity; [|exact Hpre]. by apply prefix_app_r.
Qed.
(** The plugin's settings name another vault; the switch empties the base. *)
Definition switched (owner vault : jstr) (c : Comp) : Comp :=
  let s := settings c in
  {| settings := {| Configsync.Scope.configSync := Configsync.Scope.configSync s;
                    Configsync.Scope.skipForeignArtefacts := Configsync.Scope.skipForeignArtefacts s;
                    Configsync.Scope.excludedFolders := Configsync.Scope.excludedFolders s;
                    Configsync.Scope.mounts := Configsync.Scope.mounts s; Configsync.Scope.vaultOwner := owner;
                    Configsync.Scope.vaultId := vault; Configsync.Scope.selfFolderId := Configsync.Scope.selfFolderId s |};
     base := Store.newStore []; stateStore := stateStore c; scopes := scopes c; sockets := sockets c;
     heldDeletes := heldDeletes c; heldPushes := heldPushes c; edits := edits c; noticed := noticed c |}.
(** What may happen to the state: the operations, the primary reconciler at work
    in its scope, a vault switch, and anything that leaves the settings and the
    primary base alone (polls, reviews, edits, nudges). *)
Inductive step : Comp → Comp → Prop :=
| SAdd c m : validateMounts nfc lowerCase (mounts c ++ [m]) = [] → step c (addMount nfc lowerCase m c)
| SRemove c m : step c (removeMount nfc lowerCase m c)
| SDirection c m d : step c (updateMountDirection m d c)
| SRename c oldFolder newFolder : freshFolder newFolder c → step c (followMountPointRename nfc lowerCase oldFolder newFolder c)
| SOther c c' : settings c' = settings c → base c' = base c → step c c'
| SBaseSet c p e : primaryExcludes nfc lowerCase (active c) p = false → step c (withBase (Store.set (base c) p e) c)
| SBaseDelete c p : step c (withBase (Store.delete (base c) p) c)
| SSwitch c owner vault : step c (switched owner vault c).
Lemma separate_step c c' : step c c' → separate c → separate c'.
Proof.
  intros Hst Hsep. pose proof Hsep as (Hv & Hw & Hs). destruct Hst as [c m Hm|c m|c m d|c o n Hf|c c' He Hb|c p e Hp|c p|c o v].
  - by apply separate_add.
  - by apply separate_remove.
  - by apply separate_direction.
  - by apply separate_rename.
  - unfold separate, activeMounts, mounts in *. by rewrite He, Hb.
  - split_and!; [done|by apply jwf_set|]. intros m q Hm Hq. change (q ∈ jkeys (jset (Store.m (base c)) p e)) in Hq.
    rewrite jkeys_set in Hq. destruct (jhas _ _); [by apply Hs|].
    apply elem_of_app in Hq as [Hq | ->%list_elem_of_singleton]; [by apply Hs|].
    destruct (claims m p) eqn:Hc; [|done]. exfalso. unfold primaryExcludes in Hp.
    assert (existsb (λ m, claims m p) (active c) = true); [|congruence].
    apply existsb_exists. exists m. split; [by apply list_elem_of_In|done].
  - split_and!; [done|by apply jwf_del|]. intros m q Hm Hq. change (q ∈ jkeys (jdel (Store.m (base c)) p)) in Hq.
    rewrite jkeys_del in Hq by done. apply list_elem_of_filter in Hq as [_ Hq]. by apply Hs.
  - split_and!; [done|constructor|]. intros m q _ Hq. by apply elem_of_nil in Hq.
Qed.
(** The other operations leave the settings and the primary base alone. *)
Lemma frames c key paths a path echo rel owner vault m :
  Forall (λ c', settings c' = settings c ∧ base c' = base c)
    [(setRoMountEdits key paths a c).1; clearRoMountEdits key c; reinstateMount m c; (nudgeMountForLocalPath nfc lowerCase path echo c).1;
     forgetEntry key rel c; invalidateSelfReferentialMountBases owner vault c; pruneState c; forced key c].
Proof.
  unfold nudgeMountForLocalPath. destruct (nudgeTarget _ _ _ _ _); by repeat constructor.
Qed.

End Boundary.

(** ** What the operations leave behind *)
Section Leave.
Context (nfc lowerCase : jstr → jstr).
(** A removed mount leaves nothing behind: no definition, live scope, socket,
    saved state, held review or recorded edit under its key, and no entry of the
    primary's base under its folder; what is kept for every other mount is
    untouched, and so is every other entry of the base. *)
Theorem removed_mount_leaves_nothing c m :
  jwf (stateStore c) → jwf (heldDeletes c) → jwf (heldPushes c) → jwf (edits c) → jwf (Store.m (base c)) →
  let c' := removeMount nfc lowerCase m c in
  let key := mountKey m in
  (∀ x, x ∈ mounts c' ↔ x ∈ mounts c ∧ mountKey x ≠ key) ∧
  (∀ x, x ∈ scopes c' ↔ x ∈ scopes c ∧ Mountsync.keyOf x ≠ key) ∧
  (∀ k, k ∈ sockets c' ↔ k ∈ sockets c ∧ k ≠ key) ∧
  (∀ k, jget (stateStore c') k = if bool_decide (k = key) then None else jget (stateStore c) k) ∧
  (∀ k, jget (heldDeletes c') k = if bool_decide (k = key) then None else jget (heldDeletes c) k) ∧
  (∀ k, jget (heldPushes c') k = if bool_decide (k = key) then None else jget (heldPushes c) k) ∧
  (∀ k, editsOf k c' = if bool_decide (k = key) then [] else editsOf k c) ∧
  (∀ k p, k ≠ key → (k, p) ∈ noticed c' ↔ (k, p) ∈ noticed c) ∧
  (∀ p, p ∈ Store.paths (base c') ↔ p ∈ Store.paths (base c) ∧ claimsLocal nfc lowerCase m p = false).
Proof.
  intros H1 H2 H3 H4 H5. cbv zeta.
  assert (HD : ∀ V (l : list (jstr * V)) k, jwf l → jget (jdel l (mountKey m)) k = if bool_decide (k = mountKey m) then None else jget l k).
  { intros V l k Hl. case_bool_decide as Hk; [subst k; by apply jget_del_eq|]. apply jget_del_ne. congruence. }
  split_and!.
  - intros x. unfold removeMount, mounts. cbn. rewrite list_elem_of_filter. tauto.
  - intros x. unfold removeMount. cbn. rewrite list_elem_of_filter. unfold hasKey. rewrite jeq_false. tauto.
  - intros k. unfold removeMount. cbn. rewrite list_elem_of_filter. tauto.
  - intros k. by apply HD.
  - intros k. by apply HD.
  - intros k. by apply HD.
  - intros k. unfold editsOf, removeMount. cbn. rewrite HD by done. by case_bool_decide.
  - intros k p Hk. unfold removeMount. cbn. rewrite list_elem_of_filter. split; [tauto|]. intros Hn. split; [|done].
    intros (q & [= -> _] & _)%list_elem_of_fmap. done.
  - apply (forgotten nfc lowerCase m (withStore (jdel (stateStore c) (mountKey m)) c) H5).
Qed.
End Leave.

(** *** Edits under a read-only mount *)
(** What was announced is what is recorded. *)
Definition announced (c : Comp) : Prop := jwf (edits c) ∧ ∀ k p, (k, p) ∈ noticed c ↔ p ∈ editsOf k c.
Lemma editsOf_set c e n k key l : edits (withEdits e n c) = jset (edits c) key l →
  editsOf k (withEdits e n c) = if bool_decide (k = key) then l else editsOf k c.
Proof.
  intros He. unfold editsOf. rewrite He. case_bool_decide as Hk; [subst; by rewrite jget_set_eq|by rewrite jget_set_ne by congruence].
Qed.
Lemma editsOf_del c e n k key : jwf (edits c) → edits (withEdits e n c) = jdel (edits c) key →
  editsOf k (withEdits e n c) = if bool_decide (k = key) then [] else editsOf k c.
Proof.
  intros Hw He. unfold editsOf. rewrite He. case_bool_decide as Hk; [subst; by rewrite jget_del_eq|by rewrite jget_del_ne by congruence].
Qed.
Lemma in_pairs (key k p : jstr) (l : list jstr) : (k, p) ∈ pair key <$> l ↔ k = key ∧ p ∈ l.
Proof. rewrite list_elem_of_fmap. split; [by intros (x & [= -> ->] & ?)|intros [-> ?]; eauto]. Qed.
Lemma clear_announced key c : announced c →
  announced (clearRoMountEdits key c) ∧ ∀ k, editsOf k (clearRoMountEdits key c) = if bool_decide (k = key) then [] else editsOf k c.
Proof.
  intros [Hw Ha]. assert (He : ∀ k, editsOf k (clearRoMountEdits key c) = if bool_decide (k = key) then [] else editsOf k c).
  { intros k. by apply editsOf_del. }
  split; [|exact He]. split; [by apply jwf_del|]. intros k p. rewrite He. unfold clearRoMountEdits. cbn [noticed withEdits].
  rewrite list_elem_of_filter, in_pairs, Ha. case_bool_decide as Hk; [subst; rewrite elem_of_nil; tauto|tauto].
Qed.
(** An edit under a read-only mount is announced once.  A full pass replaces
    what is recorded for its mount, any other pass only adds to it; the edits that
    are announced are exactly those that were not recorded before, each of them
    once, and what was announced stays exactly what is recorded - so an edit that
    remains is never announced again, and one that was resolved and comes back
    is. *)
Theorem edits_announced_once key paths authoritative c :
  announced c →
  let '(c', fresh) := setRoMountEdits key paths authoritative c in
  announced c' ∧ NoDup fresh ∧
  (∀ p, p ∈ fresh ↔ p ∈ editsOf key c' ∧ p ∉ editsOf key c) ∧
  (∀ p, p ∈ editsOf key c' ↔ p ∈ paths ∨ authoritative = false ∧ p ∈ editsOf key c) ∧
  (∀ k, k ≠ key → editsOf k c' = editsOf k c).
Proof.
  intros [Hw Ha]. unfold setRoMountEdits. cbv zeta.
  set (before := editsOf key c). set (next := dedup _). set (kept := filter _ (noticed c)). set (fresh := filter _ next).
  set (c' := withEdits _ _ c).
  assert (He : ∀ k, editsOf k c' = if bool_decide (k = key) then next else editsOf k c).
  { intros k. unfold c'. destruct next as [|x l] eqn:Hn; [by apply editsOf_del|by apply editsOf_set]. }
  assert (Hnext : ∀ p, p ∈ next ↔ p ∈ paths ∨ authoritative = false ∧ p ∈ before).
  { intros p. unfold next. rewrite dedup_elem_of, elem_of_app. destruct authoritative; [rewrite elem_of_nil|]; naive_solver. }
  assert (Hkept : ∀ k p, (k, p) ∈ kept ↔ p ∈ editsOf k c ∧ (k = key → p ∈ next)).
  { intros k p. unfold kept. rewrite list_elem_of_filter, Ha, in_pairs, list_elem_of_filter.
    destruct (decide (k = key)) as [-> |]; [|tauto]. fold before. destruct (decide (p ∈ next)); tauto. }
  assert (Hfresh : ∀ p, p ∈ fresh ↔ p ∈ next ∧ p ∉ before).
  { intros p. unfold fresh. rewrite list_elem_of_filter, Hkept. fold before. tauto. }
  split_and!.
  - split.
    + unfold c'. cbn [edits withEdits]. destruct next; [by apply jwf_del|by apply jwf_set].
    + intros k p. rewrite He. change (noticed c') with (kept ++ (pair key <$> fresh)).
      rewrite elem_of_app, in_pairs, Hkept, Hfresh. case_bool_decide as Hk; [subst k; fold before|tauto].
      destruct (decide (p ∈ before)); tauto.
  - apply NoDup_filter, dedup_NoDup.
  - intros p. rewrite He, bool_decide_eq_true_2 by done. apply Hfresh.
  - intros p. rewrite He, bool_decide_eq_true_2 by done. apply Hnext.
  - intros k Hk. by rewrite He, bool_decide_eq_false_2.
Qed.

(** ** Keeping the edits made under a read-only mount *)
Lemma splitPath_under folder rel dir stem ext :
  Store.splitPath (folder ++ cSlash :: rel) = (dir, stem, ext) →
  starts_with (dir ++ stem) (folder ++ [cSlash]) = true ∧ (dir ++ stem) ++ ext = folder ++ cSlash :: rel.
Proof.
  unfold Store.splitPath. set (full := folder ++ cSlash :: rel).
  destruct (last_index_of cSlash full) as [i|] eqn:Hi.
  2: { apply last_index_of_None in Hi. exfalso. apply Hi, elem_of_app. right. by left. }
  assert (Hd : take (S i) full = folder ++ [cSlash] ++ take (i - length folder) rel).
  { assert (length folder ≤ i).
    { destruct (decide (length folder ≤ i)) as [|Hlt]; [done|]. exfalso. apply last_index_of_Some in Hi as [_ Hn]. apply Hn.
      unfold full. rewrite drop_app_le by lia. apply elem_of_app. right. by left. }
    unfold full. rewrite take_app_ge by lia. f_equal. by replace (S i - length folder) with (S (i - length folder)) by lia. }
  assert (Hpre : ∀ t, starts_with (take (S i) full ++ t) (folder ++ [cSlash]) = true).
  { intros t. apply starts_with_spec. rewrite Hd. exists (take (i - length folder) rel ++ t). by rewrite <- !(assoc_L (++)). }
  intros Heq. destruct (last_index_of cDot (drop (S i) full)) as [[|d]|]; injection Heq as <- <- <-; (split; [apply Hpre|]).
  - by rewrite app_nil_r, take_drop.
  - by rewrite <- (assoc_L (++)), take_drop, take_drop.
  - by rewrite app_nil_r, take_drop.
Qed.
Section Keep.
Context (nfc lowerCase : jstr → jstr) (m : Mount) (keeperFolder : jstr).
Implicit Types (h : KHistory).
Definition edited rel : jstr := localFromMountRel m rel.
(** A name below the folder that is not taken, or has the time in it. *)
Definition keeperName h (q : jstr) : Prop :=
  starts_with q (keeperFolderOf keeperFolder ++ [cSlash]) = true ∧
  (called h (AdapterExists q) (Ok false) ∨ ∃ now stem ext, called h DateNow now ∧ q = stem ++ js " (" ++ num_str now ++ js ")" ++ ext).
Definition preserved h (p : jstr) : Prop :=
  ∃ rel content q, p = edited rel ∧ called h (IoRead p) (Ok content) ∧ keeperName h q ∧ called h (IoWrite q content) (Ok tt).
Definition keepsSafe h (o : COp) : Prop :=
  match o with
  | IoWrite q content =>
      (∃ c rel, saw h c ∧ badKeeper nfc lowerCase c (keeperFolderOf keeperFolder) = false ∧ rel ∈ editsOf (mountKey m) c ∧
         called h (IoRead (edited rel)) (Ok content)) ∧ keeperName h q
  | IoRemove p => preserved h p ∧ ∃ r, called h PersistData r
  | SaveSettings => False
  | _ => True
  end.
Lemma keeperName_mono h h' q : h ⊑ h' → keeperName h q → keeperName h' q.
Proof.
  intros Hs [Hp [Hc|(now & stem & ext & Hc & Hq)]]; (split; [done|]); [left|right; exists now, stem, ext; split; [|done]]; by eapply called_mono.
Qed.
Lemma preserved_mono h h' p : h ⊑ h' → preserved h p → preserved h' p.
Proof.
  intros Hs (rel & content & q & ? & ? & ? & ?). exists rel, content, q. split_and!; try done; try by eapply called_mono. by eapply keeperName_mono.
Qed.
#[local] Instance keepsSafe_justified : Justified keepsSafe.
Proof.
  intros h h' o Hs. destruct o; cbn; try done.
  - intros [(c & rel & ? & ? & ? & ?) Hq]. split; [exists c, rel; split_and!; try done; [by eapply saw_mono|by eapply called_mono]|by eapply keeperName_mono].
  - intros [Hp [r Hr]]. split; [by eapply preserved_mono|exists r; by eapply called_mono].
Qed.
Lemma keep_tell o h (Q : res Err unit → KHistory → Prop) :
  keepsSafe h o → (∀ h', h ⊑ h' → (∃ r, called h' o r) → Q (Ok tt) h') → safe keepsSafe (tell o) Q h.
Proof. intros Ho HQ. apply (safe_bind keepsSafe), safe_call; [done|]. intros r h' Hs Hc _. apply safe_ret, HQ; [done|by exists r]. Qed.
Lemma makeLevels_safe path segs h : safe keepsSafe (makeLevels path segs) (λ r _, r = Ok tt) h.
Proof.
  revert path h. induction segs as [|seg segs IH]; intros path h; [done|]. cbn [makeLevels]. cbv zeta.
  set (p := if truthy path then _ else _).
  apply (safe_bind keepsSafe), (safe_mono keepsSafe _ _ (λ r _, ∃ b : bool, r = Ok b)).
  - intros ? h' Hs [b ->] _. destruct b; [apply IH|done].
  - apply safe_try.
    assert (HN : ∀ h', safe keepsSafe (tell Note ;; mret' false) (λ r _, ∃ b : bool, r = Ok b) h').
    { intros h'. apply (safe_bind keepsSafe), keep_tell; [done|]. intros h2 _ _ _. apply safe_ret. eauto. }
    apply safe_bind, (safe_callE keepsSafe); [done|]. intros [there|e] h1 Hs1 _ _; cbn [id]; [|intros _; apply HN].
    destruct there.
    + apply (safe_bind keepsSafe), (safe_callE keepsSafe); [done|]. intros [f|e] h2 Hs2 _ _; cbn [id]; [|intros _; apply HN].
      destruct f; [|apply safe_ret; eauto]. eapply (safe_mono keepsSafe); [|apply HN]. intros ? h3 _ [b ->] _. eauto.
    + apply (safe_bind keepsSafe), safe_callE; [done|]. intros [u|e] h2 Hs2 _ _; cbn [id]; [apply safe_ret; eauto|intros _; apply HN].
Qed.
Lemma tryKeeper_safe stem ext i togo h (Q : res Err jstr → KHistory → Prop) :
  starts_with stem (keeperFolderOf keeperFolder ++ [cSlash]) = true →
  (∀ q h', h ⊑ h' → keeperName h' q → Q (Ok q) h') → (∀ e h', h ⊑ h' → Q (Throw e) h') →
  safe keepsSafe (tryKeeper stem ext i togo) Q h.
Proof.
  intros Hst. revert i h. induction togo as [|togo IH]; intros i h HQ HE; cbn [tryKeeper].
  - apply (safe_bind keepsSafe), (safe_call keepsSafe DateNow); [done|]. intros now h' Hs Hc _. apply safe_ret, HQ; [done|]. split.
    + apply starts_with_spec in Hst as [k ->]. apply starts_with_spec. exists (k ++ js " (" ++ num_str now ++ js ")" ++ ext).
      by rewrite <- !(assoc_L (++)).
    + right. by exists now, stem, ext.
  - set (p := if i =? 0 then _ else _). apply (safe_bind keepsSafe), safe_callE; [done|]. intros [taken|e] h1 Hs1 Hc1 _; cbn [id]; [|by apply HE].
    destruct taken; [apply IH; intros; [apply HQ|apply HE]; first [done|by etransitivity]|].
    apply safe_ret, HQ; [done|]. split; [|by left]. apply starts_with_spec in Hst as [k ->]. apply starts_with_spec.
    unfold p. destruct (i =? 0); [exists (k ++ ext)|exists (k ++ js " (" ++ num_str (N.of_nat (i + 1)) ++ js ")" ++ ext)];
      by rewrite <- !(assoc_L (++)).
Qed.
Lemma keepOne_safe rel h :
  (∃ c, saw h c ∧ badKeeper nfc lowerCase c (keeperFolderOf keeperFolder) = false ∧ rel ∈ editsOf (mountKey m) c) →
  safe keepsSafe (keepOne m (keeperFolderOf keeperFolder) rel)
    (λ r h', ∃ b : bool, r = Ok b ∧ (b = true → preserved h' (edited rel))) h.
Proof.
  intros (c & Hc & Hbad & Hrel). unfold keepOne.
  assert (HN : ∀ h', safe keepsSafe (tell Note ;; mret' false) (λ r h', ∃ b : bool, r = Ok b ∧ (b = true → preserved h' (edited rel))) h').
  { intros h'. apply (safe_bind keepsSafe), keep_tell; [done|]. intros h2 _ _ _. apply safe_ret. by exists false. }
  apply safe_try, safe_bind, (safe_callE keepsSafe); [done|]. intros [content|e] h1 Hs1 H1 _; cbn [id]; [|intros _; apply HN].
  unfold uniqueKeeperPath. destruct (Store.splitPath _) as [[dir stem] ext] eqn:Hsp.
  apply splitPath_under in Hsp as [Hst _]. apply (safe_bind keepsSafe), tryKeeper_safe; [exact Hst| |intros e h2 _ _ _; apply HN].
  intros q h2 Hs2 Hq _. apply (safe_bind keepsSafe), safe_callE.
  - split; [|exact Hq]. exists c, rel. split_and!; [eapply saw_mono; [|exact Hc]; chain|done..|eapply called_mono; [|exact H1]; chain].
  - intros [[]|e] h3 Hs3 H3 _; cbn [id]; [|intros _; apply HN].
    apply (safe_bind keepsSafe), safe_modify. intros h4 Hs4 _. apply safe_ret. intros _. exists true. split; [done|]. intros _.
    exists rel, content, q. split_and!; [done|eapply called_mono; [|exact H1]; chain|eapply keeperName_mono; [|exact Hq]; chain|by eapply called_mono].
Qed.
Lemma keepAll_safe rels h :
  (∃ c, saw h c ∧ badKeeper nfc lowerCase c (keeperFolderOf keeperFolder) = false ∧ ∀ rel, rel ∈ rels → rel ∈ editsOf (mountKey m) c) →
  safe keepsSafe (keepAll m (keeperFolderOf keeperFolder) rels)
    (λ r h', ∃ l, r = Ok l ∧ (∀ rel, rel ∈ l → preserved h' (edited rel)) ∧ length l ≤ length rels) h.
Proof.
  revert h. induction rels as [|rel rels IH]; intros h (c & Hc & Hbad & Hr); cbn [keepAll].
  { apply safe_ret. exists []. split_and!; [done|by intros ? ?%elem_of_nil|done]. }
  apply (safe_bind keepsSafe). eapply (safe_mono keepsSafe); [|apply keepOne_safe; exists c; split_and!; [done..|by apply Hr; left]].
  intros ? h1 Hs1 (b & -> & Hb) _. apply (safe_bind keepsSafe). eapply (safe_mono keepsSafe); [|apply IH].
  - intros ? h2 Hs2 (l & -> & Hl & Hlen) _. apply safe_ret. destruct b.
    + exists (rel :: l). split_and!; [done| |cbn; lia]. intros x [-> | Hx]%elem_of_cons; [|auto].
      eapply preserved_mono; [|by apply Hb]. chain.
    + exists l. split_and!; [done..|cbn; lia].
  - exists c. split_and!; [by eapply saw_mono|done|]. intros x Hx. apply Hr. by right.
Qed.
Lemma keep_spec h : safe keepsSafe (keepRoMountEdits nfc lowerCase m keeperFolder) (λ _ _, True) h.
Proof.
  unfold keepRoMountEdits. cbv zeta. apply (safe_bind keepsSafe), safe_get. intros c h1 Hs1 Hc _.
  destruct (length _ =? 0); [done|]. destruct (badKeeper _ _ c _) eqn:Hbad.
  { apply (safe_bind keepsSafe), keep_tell; [done|]. by intros h2 _ _ _. }
  apply (safe_bind keepsSafe). eapply (safe_mono keepsSafe); [|apply makeLevels_safe]. intros ? h2 Hs2 -> _.
  apply (safe_bind keepsSafe). eapply (safe_mono keepsSafe); [|apply keepAll_safe].
  - intros ? h3 Hs3 (l & -> & Hl & _) _. apply (safe_bind keepsSafe), safe_modify. intros h4 Hs4 _.
    apply (safe_bind keepsSafe), keep_tell; [done|]. intros h5 Hs5 [r Hr] _.
    apply (safe_bind keepsSafe), safe_for_each.
    + intros rel h6 Hrel Hs6. apply safe_try, safe_callE.
      * split; [|exists r; by eapply called_mono]. eapply preserved_mono; [|by apply Hl]. chain.
      * intros [u|e] h7 _ _ _; cbn [id]; [done|by apply safe_ret].
    + intros [u|e] h6 Hs6 _; [|done]. apply (safe_bind keepsSafe), keep_tell; [done|]. by intros h7 _ _ _.
  - exists c. split_and!; [eapply saw_mono; [|exact Hc]; chain|done|]. intros rel Hrel. unfold roMountEditsFor in Hrel. by rewrite jsort_perm in Hrel.
Qed.
End Keep.

(** ** A mount follows its folder *)
Section Follow.
Context (nfc lowerCase : jstr → jstr).
Definition textOf (m : Mount) : list jstr := [owner (source m); Mounts.vaultId (source m); sourcePath (source m); mountPoint m].
Lemma jof_get {V} (l : list (jstr * V)) k v : (k, v) ∈ l → (∀ v', (k, v') ∈ l → v' = v) → jget (jof l) k = Some v.
Proof.
  intros Hin Hu. destruct (jget (jof l) k) as [v'|] eqn:Hg; [by rewrite (Hu v') by by apply jof_source|].
  exfalso. apply jget_None in Hg. apply Hg. clear -Hin. unfold jof.
  cut (∀ acc, (k ∈ jkeys acc ∨ (k, v) ∈ l) → k ∈ jkeys (foldl (λ m e, jset m e.1 e.2) acc l)); [intros H; apply H; by right|].
  clear Hin. induction l as [|[x y] l IH]; intros acc [Ha|Hin]; cbn [foldl fst snd]; [done|by apply elem_of_nil in Hin|..]; apply IH.
  - left. rewrite jkeys_set. destruct (jhas acc x); [done|]. apply elem_of_app. by left.
  - apply elem_of_cons in Hin as [[= -> ->]|Hin]; [left|by right].
    rewrite jkeys_set. destruct (jhas acc x) eqn:Hh; [by apply jhas_keys in Hh|]. apply elem_of_app. right. by left.
Qed.
(** The definition of a mount after its folder, or one above it, was renamed. *)
Definition followed (oldN newN : jstr) (m : Mount) : Mount :=
  if moves oldN m then {| source := source m; mountPoint := movedTo oldN newN m; direction := direction m |} else m.
Definition plain (m : Mount) : Prop := Forall Json.utf16 (textOf m) ∧ normMountFolder (mountPoint m) = mountPoint m.
Lemma relocate_followed oldN newN ms m :
  Forall plain ms → m ∈ ms →
  relocate (jof ((λ x, (mountKey x, movedTo oldN newN x)) <$> filter (λ x, moves oldN x = true) ms)) m = followed oldN newN m.
Proof.
  intros Hall Hm. rewrite Forall_forall in Hall. destruct (Hall m Hm) as [Ht Hn].
  set (affected := filter _ ms). set (moved := jof _).
  assert (Huniq : ∀ q, (mountKey m, q) ∈ (λ x, (mountKey x, movedTo oldN newN x)) <$> affected →
    q = movedTo oldN newN m ∧ moves oldN m = true).
  { intros q (x & Heq & [Hx Hin]%list_elem_of_filter)%list_elem_of_fmap. destruct (Hall x Hin) as [Htx _].
    pose proof (f_equal fst Heq) as Hk. pose proof (f_equal snd Heq) as Hq. cbn [fst snd] in Hk, Hq.
    apply (mountKey_injective m x Ht Htx) in Hk. apply (f_equal (λ l, l !! 3)) in Hk. apply (inj Some) in Hk.
    cbn in Hk. unfold movedTo, moves in *. by rewrite Hk, Hq. }
  unfold relocate, followed. destruct (moves oldN m) eqn:Hmv.
  - assert (Hg : jget moved (mountKey m) = Some (movedTo oldN newN m)).
    { apply jof_get; [|intros q Hq; by apply Huniq]. apply list_elem_of_fmap. exists m. split; [done|]. by apply list_elem_of_filter. }
    by rewrite Hg.
  - assert (Hg : jget moved (mountKey m) = None).
    { destruct (jget moved _) as [q|] eqn:Hq; [|done]. apply jof_source, Huniq in Hq as [_ ?]. done. }
    by rewrite Hg.
Qed.
(** Every file of a mount that moves has the path it had, with the new folder in
    place of the old one. *)
Lemma followed_paths oldN newN m rel :
  normMountFolder (mountPoint m) = mountPoint m → moves oldN m = true →
  ∃ rest, segsOf (localFromMountRel m rel) = segsOf oldN ++ rest ∧
          segsOf (localFromMountRel (followed oldN newN m) rel) = segsOf newN ++ rest.
Proof.
  intros Hn Hmv. unfold followed. rewrite Hmv, !segsOf_local. cbn [mountPoint]. unfold moves, movedTo in *. cbv zeta in Hmv.
  rewrite Hn in *. apply orb_true_iff in Hmv as [->%jeq_true|(r & Hr)%starts_with_spec].
  - rewrite drop_all, app_nil_r. by eexists.
  - rewrite <- (assoc_L (++)) in Hr. cbn [app] in Hr. rewrite Hr, drop_app_length, !segsOf_cat, <- !(assoc_L (++)). by eexists.
Qed.
Definition nothingToFollow (oldN newN : jstr) (ms : list Mount) : Prop :=
  oldN = [] ∨ newN = [] ∨ oldN = newN ∨ Forall (λ m, moves oldN m = false) ms.
(** When the folder of a mount, or one above it, is renamed, the mount follows
    it: every mount under the old folder keeps its source and its direction and
    each of its files has the path it had with the new folder in place of the old
    one, every other mount is what it was, the set that results is valid, and no
    live scope or socket of the old set remains.  The state is left as it was
    exactly when there is nothing to follow - no folder, the same folder, or no
    mount under it - or when the mounts would not be valid in their new places. *)
Theorem rename_follows oldFolder newFolder c :
  Forall plain (mounts c) →
  let oldN := normMountFolder oldFolder in
  let newN := normMountFolder newFolder in
  let c' := followMountPointRename nfc lowerCase oldFolder newFolder c in
  let next := followed oldN newN <$> mounts c in
  (∀ m rel, m ∈ mounts c → moves oldN m = true →
     ∃ rest, segsOf (localFromMountRel m rel) = segsOf oldN ++ rest ∧
             segsOf (localFromMountRel (followed oldN newN m) rel) = segsOf newN ++ rest) ∧
  (nothingToFollow oldN newN (mounts c) ∨ validMounts nfc lowerCase next ≠ next → c' = c) ∧
  (¬ nothingToFollow oldN newN (mounts c) → validMounts nfc lowerCase next = next →
   mounts c' = next ∧ scopes c' = [] ∧ sockets c' = [] ∧ base c' = base c).
Proof.
  intros Hall. cbv zeta. set (oldN := normMountFolder oldFolder). set (newN := normMountFolder newFolder).
  split; [intros m rel Hm; rewrite Forall_forall in Hall; apply followed_paths, Hall, Hm|].
  unfold followMountPointRename. cbv zeta. fold oldN newN. set (affected := filter _ (mounts c)).
  set (moved := jof _). assert (Hnext : relocate moved <$> mounts c = followed oldN newN <$> mounts c).
  { apply list_fmap_ext. intros i m Hi. by apply relocate_followed; [|eapply list_elem_of_lookup_2]. }
  rewrite Hnext. pose proof (validate_iff_all_valid nfc lowerCase (followed oldN newN <$> mounts c)) as Hval.
  assert (Hno : nothingToFollow oldN newN (mounts c) ↔
    (negb (truthy oldN) || negb (truthy newN) || (oldN === newN) || (length affected =? 0)) = true).
  { unfold nothingToFollow. rewrite !orb_true_iff, !negb_true_iff, jeq_true, Nat.eqb_eq, length_zero_iff_nil.
    assert (Forall (λ m, moves oldN m = false) (mounts c) ↔ affected = []) as ->.
    { unfold affected. clear. induction (mounts c) as [|m l IH]; [by split; [|constructor]|].
      rewrite Forall_cons, filter_cons. destruct (moves oldN m); cbn; rewrite IH; naive_solver. }
    destruct oldN, newN; cbn; naive_solver. }
  rewrite Hno. destruct (negb _ || negb _ || _); [by split|]. destruct (length affected =? 0); [by split|].
  cbn [orb]. destruct (validateMounts _ _ _) as [|e l].
  - split; [|done]. intros [? | H]; [done|]. exfalso. by apply H, Hval.
  - split; [done|]. intros _ H. by apply Hval in H.
Qed.
End Follow.

(** ** Concrete runs *)
Definition at_ (point vault : string) (d : MountDirection) : Mount :=
  {| source := {| owner := []; Mounts.vaultId := js vault; sourcePath := [] |}; mountPoint := js point; direction := d |}.
Definition entry : Store.BaseEntry := {| Store.hash := js "h"; Store.text := None; Store.size := None; Store.mtime := None |}.
Definition saved : MountPersist := {| mp_base := []; mp_version := 7%Z; mp_historyFloor := None |}.
Definition comp (ms : list Mount) (known : list string) : Comp :=
  {| settings := {| Configsync.Scope.configSync := Configsync.Config.DEFAULT_CONFIG_SYNC; Configsync.Scope.skipForeignArtefacts := true;
                    Configsync.Scope.excludedFolders := []; Configsync.Scope.mounts := ms; Configsync.Scope.vaultOwner := [];
                    Configsync.Scope.vaultId := js "mine"; Configsync.Scope.selfFolderId := js "obsidian-selfsync" |};
     base := {| Store.m := (λ p, (js p, entry)) <$> known; Store.fold := None; Store.foldFs := None |};
     stateStore := (λ m, (mountKey m, saved)) <$> ms; scopes := []; sockets := mountKey <$> ms; heldDeletes := []; heldPushes := [];
     edits := []; noticed := [] |}.
Definition work : Mount := at_ "Work" "team" Pull.
Definition one : Comp := comp [work] ["a.md"]%string.
Definition withEdit : Comp := (setRoMountEdits (mountKey work) [js "x/n.md"] true one).1.
Example operations_run :
  Store.paths (base (addMount id lower (at_ "B" "other" Sync) (comp [work] ["a.md"; "b/x.md"]%string))) = [js "a.md"] ∧
  (mountPoint <$> mounts (followMountPointRename id lower (js "Work") (js "Plans/Work") one)) = [js "Plans/Work"] ∧
  mounts (followMountPointRename id lower (js "Work") (js ".obsidian/W") one) = [work] ∧
  roMountEditsFor (mountKey work) withEdit = [js "x/n.md"].
Proof. vm_compute. done. Qed.
Definition Files : Type := list (jstr * bytes).
Definition files (w : Files) (o : COp) : CAns o * Files :=
  match o with
  | AdapterExists p => (Ok (jhas w p), w)
  | AdapterIsFile _ => (Ok true, w)
  | IoRead p => (match jget w p with Some b => Ok b | None => Throw (ErrMsg (js "gone")) end, w)
  | IoWrite p b => (Ok tt, jset w p b)
  | IoRemove p => (Ok tt, jdel w p)
  | Mkdir _ => (Ok tt, w)
  | DateNow => (42%N, w)
  | SaveSettings | PersistData | ReconcileMounts | Note => (tt, w)
  end.
Definition disk : Files := [(js "Work/x/n.md", js "edited"); (js "Kept/x/n.md", js "older")].
Example keep_runs :
  let '(r, c) := Effects.run files (λ _, true) (keepRoMountEdits id lower work (js "Kept")) (Conf disk withEdit [] 0) in
  r = Ok 1 ∧ cw c = [(js "Kept/x/n.md", js "older"); (js "Kept/x/n (2).md", js "edited")] ∧ edits (cs c) = [].
Proof. vm_compute. done. Qed.
Lemma removed_mount_leaves_nothing_witness :
  let c := removeMount id lower work one in mounts c = [] ∧ sockets c = [] ∧ (js "a.md" ∈ Store.paths (base c)).
Proof.
  destruct (removed_mount_leaves_nothing id lower one work) as (_ & _ & _ & _ & _ & _ & _ & _ & Hp);
    try (apply (bool_decide_unpack _); vm_compute; exact I).
  split; [vm_compute; reflexivity|]. split; [vm_compute; reflexivity|].
  apply Hp. split; [apply elem_of_cons; left; reflexivity|vm_compute; reflexivity].
Defined.
Lemma edits_announced_once_witness :
  (setRoMountEdits (mountKey work) [js "x/n.md"; js "y.md"] false withEdit).2 = [js "y.md"] ∧
  announced (setRoMountEdits (mountKey work) [js "x/n.md"; js "y.md"] false withEdit).1.
Proof.
  split; [vm_compute; reflexivity|].
  assert (H0 : announced one) by (split; [constructor|intros k p; split; [intros H; apply elem_of_nil in H as []|intros H; apply elem_of_nil in H as []]]).
  assert (H1 : announced withEdit) by exact (proj1 (edits_announced_once (mountKey work) [js "x/n.md"] true one H0)).
  exact (proj1 (edits_announced_once (mountKey work) [js "x/n.md"; js "y.md"] false withEdit H1)).
Defined.
Lemma rename_follows_witness : ∃ m', mounts (followMountPointRename id lower (js "Work") (js "Plans/W") one) = [m'] ∧
  segsOf (localFromMountRel m' (js "x/n.md")) = [js "Plans"; js "W"; js "x"; js "n.md"].
Proof.
  destruct (rename_follows id lower (js "Work") (js "Plans/W") one) as (Hp & _ & Hf).
  - constructor; [|constructor]. split; [|vm_compute; reflexivity].
    repeat (constructor; [repeat constructor; vm_compute; reflexivity|]). constructor.
  - destruct Hf as (Hm & _ & _ & _).
    + intros [H|[H|[H|H]]]; [apply (f_equal length) in H; vm_compute in H; discriminate H..|].
      apply Forall_cons in H as [H _]. vm_compute in H. discriminate H.
    + vm_compute. reflexivity.
    + eexists. split; [exact Hm|].
      destruct (Hp work (js "x/n.md")) as (rest & Hr & Hr'); [by apply list_elem_of_singleton|vm_compute; reflexivity|].
      rewrite Hr'. assert (rest = [js "x"; js "n.md"]) as ->; [|vm_compute; reflexivity].
      apply (app_inv_head [js "Work"]). etransitivity; [symmetry; exact Hr|]. vm_compute. reflexivity.
Defined.

(** ** What modelling showed *)
(** The adapter of the primary vault, through which [keepRoMountEdits] removes an
    edit, ignores every path of a mount in effect: the edit stays in the mount. *)
Lemma kept_edit_stays nfc lowerCase s m rel :
  m ∈ Configsync.Scope.activeMounts nfc lowerCase s →
  Configsync.Scope.guardWrite nfc lowerCase s false (localFromMountRel m rel) ≠ Configsync.Scope.Go.
Proof.
  intros Hm. assert (Hc : claimsLocal nfc lowerCase m (localFromMountRel m rel) = true).
  { apply claimsLocal_spec. rewrite segsOf_local. split; [|apply canonPrefix_app].
    unfold Configsync.Scope.activeMounts in Hm. apply list_elem_of_filter in Hm as [_ Hm].
    destruct (validMounts_spec nfc lowerCase (Configsync.Scope.mounts s)) as (_ & Ha & _).
    rewrite Forall_forall in Ha. apply Ha in Hm. unfold acceptable in Hm. intros He. by rewrite He in Hm. }
  assert (He : primaryExcludes nfc lowerCase (Configsync.Scope.activeMounts nfc lowerCase s) (localFromMountRel m rel) = true).
  { apply existsb_exists. exists m. split; [by apply list_elem_of_In|done]. }
  unfold Configsync.Scope.guardWrite, Configsync.Scope.passes. rewrite He.
  destruct (negb _); [done|]. by destruct (_ && Foreigntools.Foreign.isForeignArtefact _).
Qed.
(** The keeper folder is only checked itself: a mount may live below it, and a
    kept edit is written into that mount. *)
Lemma keeper_name_inside_mount :
  let c := comp [work; at_ "Kept/x" "other" Pull] [] in
  badKeeper id lower c (js "Kept") = false ∧
  primaryExcludes id lower (activeMounts id lower c) (js "Kept/x/n.md") = true.
Proof. vm_compute. done. Qed.
(** The key of a mount contains its folder: after a rename the saved base and
    cursor stand under the old key, and the mount starts without them. *)
Lemma rename_orphans_state :
  let c := followMountPointRename id lower (js "Work") (js "Plans") one in
  (mountPoint <$> mounts c) = [js "Plans"] ∧
  forallb (λ m, negb (jhas (stateStore c) (mountKey m))) (mounts c) = true ∧ stateStore (pruneState c) = [].
Proof. vm_compute. done. Qed.
(** A mount claims its folder in any case, but follows a rename only of the exact
    spelling. *)
Lemma rename_misses_other_case :
  claimsLocal id lower work (js "work/n.md") = true ∧
  followMountPointRename id lower (js "work") (js "Plans") one = one.
Proof. vm_compute. done. Qed.
(** Removing a mount can bring an overlapping one into effect, whose folder the
    primary's base still has entries under. *)
Lemma removal_activates_overlap :
  let outer := at_ "Work" "team" Sync in
  let c := comp [at_ "Work/ASI" "other" Pull; outer] ["Work/own.md"]%string in
  let c' := removeMount id lower (at_ "Work/ASI" "other" Pull) c in
  activeMounts id lower c = [at_ "Work/ASI" "other" Pull] ∧ activeMounts id lower c' = [outer] ∧
  Store.paths (base c') = [js "Work/own.md"] ∧ claimsLocal id lower outer (js "Work/own.md") = true.
Proof. vm_compute. done. Qed.
End Compose.
