(* ===== verification/Local.v ===== *)
(** * Local: local changes and what the device says about them ([client/src/main.ts])

    The producers: vault events, keystrokes, raw file-system events and the events
    that stand for a changed configuration; the claims they leave on the status
    light until a pass has settled them; and the projections every surface shows.
    A handler is a function on the plugin's state and the clock; a timer is its
    deadline, and a run is any sequence of handlers with their times. *)

From S2P Require Import Prelude Jsmap Paths Connstate Status Lifecycle Configsync Syncengine Mountsync Compose.

Module Local.
Import Conn Light.

Definition SYNCING_MIN_SHOW_MS : Z := 2500.
Definition UNSYNCED_EDIT_MAX_MS : Z := 15000.
Definition CLAIM_STALE_WARN_MS : Z := 60000.
Definition RAW_DEBOUNCE_MS : Z := 600.
Definition SELF_WRITE_WINDOW_MS : Z := 4000.
Definition CONFIG_EVENT_MIN_GAP_MS : Z := 5000.

(** ** State *)
(** An edit the server is not known to have seen, under the identity of its path. *)
Record Claim := { at_ : Z; onDisk : bool; spelling : jstr; warned : bool }.
Record Edits := { claims : list (jstr * Claim); unsyncedPrompt : option Z; staleClaimPrompt : option Z; warnings : list jstr }.
(** The light: what it shows, and its hold timers - the one the plugin keeps a
    handle of, and every one that will still fire. *)
Record Lamp := { display : LightDisplay; heldSince : Z; lightTimer : option Z; firing : list Z }.
Record Work := { engine : Engine.EngineState; phase : Phase; localWork : Z; syncPending : Z }.
(** Raw events: our own writes, what is being asked of the adapter, what is
    buffered and the debounce. *)
Record Raw := { recentSelfWrites : list (jstr * Z); asking : list jstr; rawBuffer : list jstr; rawDebounce : option Z }.
Record Scan := { configScanTimer : option Z; lastConfigEventScanAt : Z; lastConfigScanAt : Z }.
(** What leaves: engine events, and the mount pass. *)
Inductive Request := Enqueue (e : Engine.EngineEvent) | ReconcileMounts | BeginReconcile.
Record State := {
  comp : Compose.Comp; scopeMemo : option Configsync.Scope.ScopeMemo; edits : Edits; lamp : Lamp; work : Work; raw : Raw;
  scan : Scan; unloading : bool; connected : bool; sent : list Request
}.
Definition putComp c s := {| comp := c; scopeMemo := scopeMemo s; edits := edits s; lamp := lamp s; work := work s; raw := raw s; scan := scan s; unloading := unloading s; connected := connected s; sent := sent s |}.
Definition putMemo m s := {| comp := comp s; scopeMemo := m; edits := edits s; lamp := lamp s; work := work s; raw := raw s; scan := scan s; unloading := unloading s; connected := connected s; sent := sent s |}.
Definition putEdits e s := {| comp := comp s; scopeMemo := scopeMemo s; edits := e; lamp := lamp s; work := work s; raw := raw s; scan := scan s; unloading := unloading s; connected := connected s; sent := sent s |}.
Definition putLamp l s := {| comp := comp s; scopeMemo := scopeMemo s; edits := edits s; lamp := l; work := work s; raw := raw s; scan := scan s; unloading := unloading s; connected := connected s; sent := sent s |}.
Definition putWork w s := {| comp := comp s; scopeMemo := scopeMemo s; edits := edits s; lamp := lamp s; work := w; raw := raw s; scan := scan s; unloading := unloading s; connected := connected s; sent := sent s |}.
Definition putRaw r s := {| comp := comp s; scopeMemo := scopeMemo s; edits := edits s; lamp := lamp s; work := work s; raw := r; scan := scan s; unloading := unloading s; connected := connected s; sent := sent s |}.
Definition putScan c s := {| comp := comp s; scopeMemo := scopeMemo s; edits := edits s; lamp := lamp s; work := work s; raw := raw s; scan := c; unloading := unloading s; connected := connected s; sent := sent s |}.
Definition send (l : list Request) s := {| comp := comp s; scopeMemo := scopeMemo s; edits := edits s; lamp := lamp s; work := work s; raw := raw s; scan := scan s; unloading := unloading s; connected := connected s; sent := sent s ++ l |}.
Definition putConnected b s := {| comp := comp s; scopeMemo := scopeMemo s; edits := edits s; lamp := lamp s; work := work s; raw := raw s; scan := scan s; unloading := unloading s; connected := b; sent := sent s |}.
Definition claimsOf (s : State) : list (jstr * Claim) := claims (edits s).
Definition putClaims (m : list (jstr * Claim)) (e : Edits) : Edits :=
  {| claims := m; unsyncedPrompt := unsyncedPrompt e; staleClaimPrompt := staleClaimPrompt e; warnings := warnings e |}.
Definition putPrompts (u st : option Z) (e : Edits) : Edits :=
  {| claims := claims e; unsyncedPrompt := u; staleClaimPrompt := st; warnings := warnings e |}.
Definition due (now : Z) (timer : option Z) : bool := match timer with Some d => (d <=? now)%Z | None => false end.

(** One occurrence goes. *)
Fixpoint remove_one {A} `{EqDecision A} (x : A) (l : list A) : list A :=
  match l with [] => [] | y :: l => if decide (x = y) then l else y :: remove_one x l end.

Section Local.
Context (nfc lowerCase : jstr → jstr) (pathFs : Identity.PathFs).
Definition keyOf (path : jstr) : jstr := Identity.identityKey nfc lowerCase path pathFs.
Definition settingsOf (s : State) : Configsync.Scope.Settings := Compose.settings (comp s).

(** ** The light *)
Definition pendingWork (s : State) : Z := syncPending (work s) + localWork (work s).
(** A claim that was only typed ages out when it is read; one on disk stands, and
    is named once in the log when it is old. *)
Definition expired (now : Z) (c : Claim) : bool := negb (onDisk c) && (at_ c <? now - UNSYNCED_EDIT_MAX_MS)%Z.
Definition stale (now : Z) (c : Claim) : bool := onDisk c && negb (warned c) && (at_ c <? now - CLAIM_STALE_WARN_MS)%Z.
Definition warn (now : Z) (c : Claim) : Claim :=
  if stale now c then {| at_ := at_ c; onDisk := onDisk c; spelling := spelling c; warned := true |} else c.
Definition unsyncedEditCount (now : Z) (e : Edits) : nat * Edits :=
  let m := filter (λ x, expired now x.2 = false) (claims e) in
  (length m, {| claims := prod_map id (warn now) <$> m; unsyncedPrompt := unsyncedPrompt e; staleClaimPrompt := staleClaimPrompt e;
                warnings := warnings e ++ (spelling ∘ snd <$> filter (λ x, stale now x.2 = true) m) |}).
Definition displayPhase (now : Z) (s : State) : Phase * State :=
  let p := effectivePhase (phase (work s)) (pendingWork s) in
  if decide (p = PIdle) then
    let r := unsyncedEditCount now (edits s) in (if r.1 =? 0 then PIdle else PSyncing, putEdits r.2 s)
  else (p, s).
(** The worst health of the mounts, when it is a problem; its reason is text. *)
Definition mountStatusSummary (c : Compose.Comp) : option MountFsm.Health :=
  match Compose.scopes c with
  | [] => None
  | l => let h := MountFsm.health (MountFsm.aggregateStatus MountFsm.HIdle ((λ x, (""%string, Mountsync.mstate x)) <$> l)) in
         match h with MountFsm.HError | MountFsm.HOffline | MountFsm.HDiverged => Some h | _ => None end
  end.
Definition effectiveLightPhase (now : Z) (s : State) : Phase * State :=
  let r := displayPhase now s in
  (match r.1 with
   | PIdle | POff | PSyncing =>
       match mountStatusSummary (comp s) with Some MountFsm.HError => PBlocked | Some _ => PRetrying | None => r.1 end
   | p => p
   end, r.2).
Definition applyLightAction (now : Z) (a : LightAction) (l : Lamp) : Lamp :=
  let cleared := if disarm a then match lightTimer l with Some d => (remove_one d (firing l)) | None => firing l end else firing l in
  let handle := if disarm a then None else lightTimer l in
  if arm a then {| display := state a; heldSince := now; lightTimer := Some (now + SYNCING_MIN_SHOW_MS)%Z;
                   firing := cleared ++ [(now + SYNCING_MIN_SHOW_MS)%Z] |}
  else {| display := state a; heldSince := heldSince l; lightTimer := handle; firing := cleared |}.
Definition dispatchLight (now : Z) (e : LightEvent) (l : Lamp) : Lamp :=
  let l := match e with
           | EvPhase _ => if held (display l) && (SYNCING_MIN_SHOW_MS <=? now - heldSince l)%Z
                          then applyLightAction now (nextLightDisplay (display l) EvSettle) l else l
           | EvSettle => l
           end in
  applyLightAction now (nextLightDisplay (display l) e) l.
Definition renderLight (now : Z) (s : State) : State :=
  let r := effectiveLightPhase now s in putLamp (dispatchLight now (EvPhase r.1) (lamp r.2)) r.2.
(** [statusText]: what every surface shows. *)
Definition statusText (s : State) : Phase := shown (display (lamp s)).
Definition lightTimerFires (now d : Z) (s : State) : State :=
  let l := lamp s in
  if bool_decide (d ∈ firing l) && (d <=? now)%Z then
    putLamp (dispatchLight now EvSettle
      {| display := display l; heldSince := heldSince l; lightTimer := None; firing := remove_one d (firing l) |}) s
  else s.

(** ** Claims *)
Definition armUnsyncedPrompt (now : Z) (s : State) : State :=
  if bool_decide (is_Some (unsyncedPrompt (edits s))) || unloading s then s
  else putEdits (putPrompts (Some (now + (UNSYNCED_EDIT_MAX_MS + 250))%Z) (staleClaimPrompt (edits s)) (edits s)) s.
Definition armStaleClaimPrompt (now : Z) (s : State) : State :=
  if bool_decide (is_Some (staleClaimPrompt (edits s))) || unloading s then s
  else putEdits (putPrompts (unsyncedPrompt (edits s)) (Some (now + (CLAIM_STALE_WARN_MS + 250))%Z) (edits s)) s.
Definition promptFires (now : Z) (s : State) : State :=
  if due now (unsyncedPrompt (edits s)) then renderLight now (putEdits (putPrompts None (staleClaimPrompt (edits s)) (edits s)) s) else s.
Definition stalePromptFires (now : Z) (s : State) : State :=
  if due now (staleClaimPrompt (edits s)) then
    let s := renderLight now (putEdits (putPrompts (unsyncedPrompt (edits s)) None (edits s)) s) in
    if existsb (λ x, onDisk x.2) (claimsOf s) then armStaleClaimPrompt now s else s
  else s.
(** Whether a change to the path is one this device will have to sync. *)
Definition counts (s : State) (path : jstr) : bool :=
  (Configsync.Scope.inPrimaryScope nfc lowerCase (settingsOf s) (scopeMemo s) path).1
  && negb (Excluded.isExcluded path (Configsync.Scope.excludedFolders (settingsOf s))).
Definition noteLocalChange (now : Z) (path : jstr) (disk : bool) (s : State) : State :=
  let v := Configsync.Scope.inPrimaryScope nfc lowerCase (settingsOf s) (scopeMemo s) path in
  let s := putMemo v.2 s in
  if negb v.1 then s
  else if Excluded.isExcluded path (Configsync.Scope.excludedFolders (settingsOf s)) then s
  else
    let id := keyOf path in
    let prev := jget (claimsOf s) id in
    let c := {| at_ := now; onDisk := disk || match prev with Some p => onDisk p | None => false end; spelling := path; warned := false |} in
    let s := putEdits (putClaims (jset (claimsOf s) id c) (edits s)) s in
    let s := if disk then armStaleClaimPrompt now s else armUnsyncedPrompt now s in
    match prev with None => renderLight now s | Some _ => s end.
Definition noteEditorEdit (now : Z) (file : option jstr) (s : State) : State :=
  match file with Some p => if truthy p then noteLocalChange now p false s else s | None => s end.
Definition notePathSettled (now : Z) (path : jstr) (s : State) : State :=
  if jhas (claimsOf s) (keyOf path) then renderLight now (putEdits (putClaims (jdel (claimsOf s) (keyOf path)) (edits s)) s) else s.
Definition settleUnsyncedBefore (now cutoff : Z) (s : State) : State :=
  let m := filter (λ x, ¬ (at_ x.2 ≤ cutoff)%Z) (claimsOf s) in
  let s' := putEdits (putClaims m (edits s)) s in
  if length m =? length (claimsOf s) then s' else renderLight now s'.
Definition notePathWork (now : Z) (busy failed : bool) (s : State) : State :=
  let w := work s in
  let s := putWork {| engine := engine w; phase := phase w; localWork := Z.max 0 (localWork w + (if busy then 1 else -1));
                      syncPending := syncPending w |} s in
  if failed then s else renderLight now s.
(** The engine's projection sink. *)
Definition onPhase (now : Z) (e : Engine.EngineState) (p : Phase) (s : State) : State :=
  let w := work s in
  renderLight now (putWork {| engine := e; phase := p; localWork := localWork w; syncPending := syncPending w |} s).
(** [begun]: what the engine reports when real transfers begin. *)
Definition onProgress (now pending : Z) (begun : option (Engine.EngineState * Phase)) (s : State) : State :=
  let w := work s in
  if bool_decide (pending = syncPending w) then s
  else
    let n := Z.max 0 pending in
    let s := putWork {| engine := engine w; phase := phase w; localWork := localWork w; syncPending := n |} s in
    let s := if (0 <? n)%Z then
               match begun with Some e => onPhase now e.1 e.2 (send [BeginReconcile] s) | None => send [BeginReconcile] s end
             else s in
    renderLight now s.

(** ** Producers *)
(** Is a change of the path the echo of a write of our own? *)
Definition isEcho (now : Z) (s : State) (p : jstr) : bool :=
  match jget (recentSelfWrites (raw s)) p with Some wrote => (now - wrote <? SELF_WRITE_WINDOW_MS)%Z | None => false end.
Definition nudge (now : Z) (path : jstr) (s : State) : State :=
  let r := Compose.nudgeMountForLocalPath nfc lowerCase path (isEcho now s) (comp s) in
  let s := putComp r.1 s in if r.2 then send [ReconcileMounts] s else s.
Definition enqueue (path : jstr) (size : N) (s : State) : State := send [Enqueue (Engine.EvPath path size)] s.
Definition onLocalEvent (now : Z) (path : jstr) (size : N) (s : State) : State :=
  nudge now path (enqueue path size (noteLocalChange now path true s)).
Definition onLocalDelete (now : Z) (path : jstr) (s : State) : State :=
  nudge now path (enqueue path 0%N (noteLocalChange now path true s)).
(** What was renamed; the notice of a move into a read-only mount is text, and
    what following a renamed folder saves and starts is that of [Compose]. *)
Inductive Renamed := Folder | File (size : N) | Neither.
Definition onLocalRename (now : Z) (what : Renamed) (oldPath newPath : jstr) (s : State) : State :=
  match what with
  | Folder => putComp (Compose.followMountPointRename nfc lowerCase oldPath newPath (comp s)) s
  | Neither => s
  | File size =>
      let s := noteLocalChange now newPath true (noteLocalChange now oldPath true s) in
      let s := enqueue newPath size (enqueue oldPath 0%N s) in
      nudge now newPath (nudge now oldPath s)
  end.
(** *** Raw events *)
Definition putWrites (m : list (jstr * Z)) (r : Raw) : Raw :=
  {| recentSelfWrites := m; asking := asking r; rawBuffer := rawBuffer r; rawDebounce := rawDebounce r |}.
Definition markConfigSelfWrite (now : Z) (path : jstr) (s : State) : State :=
  let m := jset (recentSelfWrites (raw s)) path now in
  putRaw (putWrites (if 64 <? length m then filter (λ e, ¬ (SELF_WRITE_WINDOW_MS < now - e.2)%Z) m else m) (raw s)) s.
Definition relevant (s : State) (path : jstr) : bool :=
  connected s && negb (unloading s) && starts_with path (js ".obsidian/")
  && Configsync.Config.enabled (Configsync.Scope.configSync (settingsOf s))
  && Configsync.Config.shouldSync path (Configsync.Scope.configSync (settingsOf s)) (Configsync.Scope.selfFolderId (settingsOf s)).
Definition ask (path : jstr) (r : Raw) : Raw :=
  {| recentSelfWrites := recentSelfWrites r; asking := asking r ++ [path]; rawBuffer := rawBuffer r; rawDebounce := rawDebounce r |}.
Definition onRawConfigEvent (now : Z) (path : jstr) (s : State) : State :=
  if negb (relevant s path) then s
  else
    match jget (recentSelfWrites (raw s)) path with
    | None => putRaw (ask path (raw s)) s
    | Some wrote =>
        let r := putWrites (jdel (recentSelfWrites (raw s)) path) (raw s) in
        if (now - wrote <? SELF_WRITE_WINDOW_MS)%Z then putRaw r s else putRaw (ask path r) s
    end.
(** The adapter's answer: a folder, or anything else. *)
Definition rawPathAnswered (now : Z) (path : jstr) (isFolder : bool) (s : State) : State :=
  let r := raw s in
  if bool_decide (path ∈ asking r) then
    let rest := remove_one path (asking r) in
    if isFolder || unloading s then
      putRaw {| recentSelfWrites := recentSelfWrites r; asking := rest; rawBuffer := rawBuffer r; rawDebounce := rawDebounce r |} s
    else
      putRaw {| recentSelfWrites := recentSelfWrites r; asking := rest;
                rawBuffer := if bool_decide (path ∈ rawBuffer r) then rawBuffer r else rawBuffer r ++ [path];
                rawDebounce := Some (now + RAW_DEBOUNCE_MS)%Z |} s
  else s.
Definition flushes (now : Z) (s : State) : bool := due now (rawDebounce (raw s)).
Definition cleared (s : State) : State :=
  let r := raw s in
  putRaw {| recentSelfWrites := recentSelfWrites r; asking := asking r; rawBuffer := []; rawDebounce := None |} s.
Definition flushOne (now : Z) (localSizeOf : jstr → N) (p : jstr) (s : State) : State :=
  enqueue p (localSizeOf p) (noteLocalChange now p true s).
Definition flushRawConfig (now : Z) (localSizeOf : jstr → N) (s : State) : State :=
  if flushes now s then
    if unloading s then cleared s else foldl (λ s p, flushOne now localSizeOf p s) (cleared s) (rawBuffer (raw s))
  else s.
(** *** Events that stand for a changed configuration *)
Definition putTimer (t : option Z) (c : Scan) : Scan :=
  {| configScanTimer := t; lastConfigEventScanAt := lastConfigEventScanAt c; lastConfigScanAt := lastConfigScanAt c |}.
Definition configEnabled (s : State) : bool := Configsync.Config.enabled (Configsync.Scope.configSync (settingsOf s)).
Definition scheduleConfigScan (now : Z) (s : State) : State :=
  if unloading s || negb (configEnabled s) || bool_decide (is_Some (configScanTimer (scan s))) then s
  else
    let wait := Z.max 0 (CONFIG_EVENT_MIN_GAP_MS - (now - lastConfigEventScanAt (scan s))) in
    putScan (putTimer (Some (now + wait)%Z) (scan s)) s.
Definition scanTimerFires (now : Z) (s : State) : State :=
  if due now (configScanTimer (scan s)) then
    if unloading s then putScan (putTimer None (scan s)) s
    else send [Enqueue Engine.EvRemote] (putScan {| configScanTimer := None; lastConfigEventScanAt := now; lastConfigScanAt := 0 |} s)
  else s.
Definition scanDue (s : State) : State :=
  putScan {| configScanTimer := configScanTimer (scan s); lastConfigEventScanAt := lastConfigEventScanAt (scan s); lastConfigScanAt := 0 |} s.
(** After the settings were saved. *)
Definition applyConfigSyncChange (s : State) : State :=
  if connected s then send [Enqueue Engine.EvRemote] (scanDue s) else s.
(** *** Resuming and unloading *)
Definition releaseHold (now : Z) (s : State) : State :=
  let l := lamp s in
  if held (display l) then
    putLamp (dispatchLight now EvSettle
      {| display := display l; heldSince := heldSince l; lightTimer := None;
         firing := match lightTimer l with Some d => remove_one d (firing l) | None => firing l end |}) s
  else s.
Definition onResume (now : Z) (s : State) : State :=
  if unloading s then s
  else
    let s := releaseHold now s in
    let s := match resumeAction (Engine.estate_name (engine (work s))) with
             | ResumeConnect => send [Enqueue Engine.EvConnect] s
             | ResumeReassess => send [Enqueue Engine.EvRemote] s
             end in
    if configEnabled s then scanDue s else s.
Definition onunload (s : State) : State :=
  let l := lamp s in
  let r := raw s in
  {| comp := comp s; scopeMemo := scopeMemo s; edits := putPrompts None None (edits s);
     lamp := {| display := display l; heldSince := heldSince l; lightTimer := None;
                firing := match lightTimer l with Some d => remove_one d (firing l) | None => firing l end |};
     work := work s;
     raw := {| recentSelfWrites := recentSelfWrites r; asking := asking r; rawBuffer := rawBuffer r; rawDebounce := None |};
     scan := putTimer None (scan s); unloading := true; connected := connected s; sent := sent s ++ [Enqueue Engine.EvUnload] |}.

(** ** Runs *)
Inductive Action :=
| Changed (path : jstr) (size : N) | Deleted (path : jstr) | Rename (what : Renamed) (oldPath newPath : jstr)
| Typed (file : option jstr)
| RawEvent (path : jstr) | RawAnswer (path : jstr) (isFolder : bool) | RawFlush (localSizeOf : jstr → N) | SelfWrite (path : jstr)
| UiEvent | ScanTimer | SyncChange | Resume | Unload
| PathWork (busy failed : bool) | PathSettled (path : jstr) | PassSettled (cutoff : Z) | Progress (pending : Z) (begun : option (Engine.EngineState * Phase))
| EnginePhase (e : Engine.EngineState) (p : Phase) | Connection (b : bool)
| LightTimer (d : Z) | Prompt | StalePrompt
| Reconfigured (c : Compose.Comp).
Definition act (now : Z) (a : Action) (s : State) : State :=
  match a with
  | Changed p n => onLocalEvent now p n s
  | Deleted p => onLocalDelete now p s
  | Rename w o n => onLocalRename now w o n s
  | Typed f => noteEditorEdit now f s
  | RawEvent p => onRawConfigEvent now p s
  | RawAnswer p b => rawPathAnswered now p b s
  | RawFlush f => flushRawConfig now f s
  | SelfWrite p => markConfigSelfWrite now p s
  | UiEvent => scheduleConfigScan now s
  | ScanTimer => scanTimerFires now s
  | SyncChange => applyConfigSyncChange s
  | Resume => onResume now s
  | Unload => onunload s
  | PathWork b f => notePathWork now b f s
  | PathSettled p => notePathSettled now p s
  | PassSettled c => settleUnsyncedBefore now c s
  | Progress n b => onProgress now n b s
  | EnginePhase e p => onPhase now e p s
  | Connection b => putConnected b s
  | LightTimer d => lightTimerFires now d s
  | Prompt => promptFires now s
  | StalePrompt => stalePromptFires now s
  | Reconfigured c => putComp c s
  end.
Definition acts (s : State) (l : list (Z * Action)) : State := foldl (λ s e, act e.1 e.2 s) s l.
Definition start (c : Compose.Comp) : State :=
  {| comp := c; scopeMemo := None; edits := {| claims := []; unsyncedPrompt := None; staleClaimPrompt := None; warnings := [] |};
     lamp := {| display := lightDisplayInit POff; heldSince := 0; lightTimer := None; firing := [] |};
     work := {| engine := Engine.SOff; phase := POff; localWork := 0; syncPending := 0 |};
     raw := {| recentSelfWrites := []; asking := []; rawBuffer := []; rawDebounce := None |};
     scan := {| configScanTimer := None; lastConfigEventScanAt := 0; lastConfigScanAt := 0 |};
     unloading := false; connected := false; sent := [] |}.

(** ** What a run did *)
(** The paths a series of notes accepts, each judged when its turn comes. *)
Fixpoint accepted (step : jstr → State → State) (s : State) (l : list jstr) : list jstr :=
  match l with [] => [] | p :: l => (if counts s p then [p] else []) ++ accepted step (step p s) l end.
(** The changes on disk an action is told of, and the keystrokes, as far as they
    count. *)
Definition changesOf (now : Z) (a : Action) (s : State) : list jstr :=
  match a with
  | Changed p _ | Deleted p => accepted (λ p, noteLocalChange now p true) s [p]
  | Rename (File _) o n => accepted (λ p, noteLocalChange now p true) s [o; n]
  | RawFlush f => if flushes now s && negb (unloading s) then accepted (flushOne now f) (cleared s) (rawBuffer (raw s)) else []
  | _ => []
  end.
Definition typedIn (now : Z) (a : Action) (s : State) : list jstr :=
  match a with
  | Typed (Some p) => if truthy p then accepted (λ p, noteLocalChange now p false) s [p] else []
  | _ => []
  end.
(** A pass that settles a change of the given path and time. *)
Definition settles (k : jstr) (t : Z) (a : Action) : Prop :=
  match a with PathSettled q => keyOf q = k | PassSettled cutoff => (t ≤ cutoff)%Z | _ => False end.

(** ** The claims under every action *)
Definition read (now : Z) (m : list (jstr * Claim)) : list (jstr * Claim) :=
  prod_map id (warn now) <$> filter (λ x, expired now x.2 = false) m.
Definition claimFor (now : Z) (path : jstr) (disk : bool) (m : list (jstr * Claim)) : Claim :=
  {| at_ := now; onDisk := disk || match jget m (keyOf path) with Some p => onDisk p | None => false end; spelling := path; warned := false |}.
(** What an action may do to the claims, given the paths it was told of. *)
Inductive prim (now : Z) (a : Action) (told : list jstr) : list (jstr * Claim) → list (jstr * Claim) → Prop :=
| prim_read m : prim now a told m (read now m)
| prim_note m p d : p ∈ told → prim now a told m (jset m (keyOf p) (claimFor now p d m))
| prim_path m q : a = PathSettled q → prim now a told m (jdel m (keyOf q))
| prim_pass m c : a = PassSettled c → prim now a told m (filter (λ x, ¬ (at_ x.2 ≤ c)%Z) m).
#[local] Hint Constructors prim : core.

Lemma claims_render now s : claimsOf (renderLight now s) = claimsOf s ∨ claimsOf (renderLight now s) = read now (claimsOf s).
Proof. unfold renderLight, effectiveLightPhase, displayPhase. cbv zeta. destruct (decide _); [by right|by left]. Qed.
Lemma render_prims now a T s : rtc (prim now a T) (claimsOf s) (claimsOf (renderLight now s)).
Proof. destruct (claims_render now s) as [-> | ->]; [done|by apply rtc_once]. Qed.
Lemma render_after now a T m s : rtc (prim now a T) m (claimsOf s) → rtc (prim now a T) m (claimsOf (renderLight now s)).
Proof. intros H. etrans; [exact H|apply render_prims]. Qed.
Lemma claims_arm now s : claimsOf (armUnsyncedPrompt now s) = claimsOf s ∧ claimsOf (armStaleClaimPrompt now s) = claimsOf s.
Proof. unfold armUnsyncedPrompt, armStaleClaimPrompt. by destruct (_ || _), (_ || _). Qed.
(** A note sets the claim of its path, or does nothing. *)
Lemma note_claims now p d s :
  let m := jset (claimsOf s) (keyOf p) (claimFor now p d (claimsOf s)) in
  let m' := claimsOf (noteLocalChange now p d s) in
  if counts s p then m' = m ∨ m' = read now m else m' = claimsOf s.
Proof.
  cbv zeta. unfold counts, noteLocalChange. cbv zeta. destruct (Configsync.Scope.inPrimaryScope _ _ _ _ _) as [v memo]. cbn [fst snd].
  destruct v; [|done]. cbn [negb andb]. change (settingsOf (putMemo memo s)) with (settingsOf s).
  destruct (Excluded.isExcluded _ _); [done|]. cbn [negb]. fold (claimFor now p d (claimsOf s)).
  set (s2 := putEdits _ _). change (claimsOf (putMemo memo s)) with (claimsOf s) in *.
  set (s3 := if d then _ else _). assert (H3 : claimsOf s3 = jset (claimsOf s) (keyOf p) (claimFor now p d (claimsOf s))).
  { subst s3. destruct (claims_arm now s2) as [Hu Hs]. destruct d; [by rewrite Hs|by rewrite Hu]. }
  destruct (jget _ _); [by left|]. rewrite <- H3. apply claims_render.
Qed.
Lemma note_prims now a T p d s :
  (counts s p = true → p ∈ T) → rtc (prim now a T) (claimsOf s) (claimsOf (noteLocalChange now p d s)).
Proof.
  intros HT. pose proof (note_claims now p d s) as H. cbv zeta in H. destruct (counts s p); [|by rewrite H].
  destruct H as [-> | ->]; [by apply rtc_once, prim_note, HT|].
  etrans; [apply rtc_once, (prim_note _ _ _ _ p d), HT; done|by apply rtc_once].
Qed.
Definition notes (now : Z) (d : bool) (step : jstr → State → State) : Prop :=
  ∀ p s, claimsOf (step p s) = claimsOf (noteLocalChange now p d s).
Lemma accepted_prims now a T d step s l :
  notes now d step → accepted step s l ⊆ T →
  rtc (prim now a T) (claimsOf s) (claimsOf (foldl (λ s p, step p s) s l)).
Proof.
  intros Hn. revert s. induction l as [|p l IH]; intros s HT; [done|]. cbn [foldl accepted] in *. etrans; [|apply IH; set_solver].
  rewrite Hn. apply note_prims. intros Hc. rewrite Hc in HT. set_solver.
Qed.
(** *** What the claims still say *)
Definition standing (m : list (jstr * Claim)) (k : jstr) (t : Z) : Prop :=
  ∃ c, (k, c) ∈ m ∧ onDisk c = true ∧ (t ≤ at_ c)%Z.
Lemma warn_same now c : at_ (warn now c) = at_ c ∧ onDisk (warn now c) = onDisk c.
Proof. unfold warn. by destruct (stale now c). Qed.
Lemma in_jset {V} (m : list (jstr * V)) k v k' v' : jwf m → (k', v') ∈ jset m k v ↔ if decide (k' = k) then v' = v else (k', v') ∈ m.
Proof.
  intros Hw. assert (Hj : (k', v') ∈ jset m k v ↔ jget (jset m k v) k' = Some v').
  { split; [by apply jget_in, jwf_set|apply jget_Some_in]. }
  rewrite Hj. destruct (decide (k' = k)) as [->|Hn]; [rewrite jget_set_eq; naive_solver|].
  rewrite jget_set_ne by done. split; [apply jget_Some_in|by apply jget_in].
Qed.
Lemma in_jdel {V} (m : list (jstr * V)) k k' v' : jwf m → (k', v') ∈ jdel m k ↔ k' ≠ k ∧ (k', v') ∈ m.
Proof.
  intros Hw. assert (Hj : (k', v') ∈ jdel m k ↔ jget (jdel m k) k' = Some v').
  { split; [by apply jget_in, jwf_del|apply jget_Some_in]. }
  rewrite Hj. destruct (decide (k' = k)) as [->|Hn]; [rewrite jget_del_eq by done; naive_solver|].
  rewrite jget_del_ne by done. split; [intros H%jget_Some_in|intros [_ H]; apply jget_in]; done.
Qed.
Lemma in_read now m k c : (k, c) ∈ read now m ↔ ∃ c0, c = warn now c0 ∧ (k, c0) ∈ m ∧ expired now c0 = false.
Proof.
  unfold read. rewrite list_elem_of_fmap. split.
  - intros ([k0 c0] & [= -> ->] & [He Hm]%list_elem_of_filter). eauto.
  - intros (c0 & -> & Hm & He). exists (k, c0). split; [done|]. by apply list_elem_of_filter.
Qed.
Lemma prim_wf now a T m m' : prim now a T m m' → jwf m → jwf m'.
Proof.
  intros H Hw. destruct H; [|by apply jwf_set|by apply jwf_del|]; unfold jwf in *; eapply sublist_NoDup; try exact Hw; unfold jkeys.
  - unfold read. rewrite <- list_fmap_compose. apply fmap_sublist, sublist_filter.
  - apply fmap_sublist, sublist_filter.
Qed.
(** A change on disk stands until a pass settles it. *)
Lemma prim_standing now a T m m' k t :
  prim now a T m m' → jwf m → (t ≤ now)%Z → standing m k t → standing m' k t ∨ settles k t a.
Proof.
  intros H Hw Ht (c & Hc & Hd & Hk). destruct H as [m|m p d Hp|m q ->|m cut ->].
  - left. exists (warn now c). destruct (warn_same now c) as [-> ->]. split; [|done]. apply in_read. exists c.
    unfold expired. by rewrite Hd.
  - left. destruct (decide (k = keyOf p)) as [->|Hn].
    + exists (claimFor now p d m). rewrite in_jset, decide_True by done. split; [done|]. split; [|done].
      unfold claimFor. cbn. rewrite (jget_in _ _ _ Hw Hc), Hd. apply orb_true_r.
    + exists c. by rewrite in_jset, decide_False.
  - destruct (decide (k = keyOf q)) as [->|Hn]; [by right|]. left. exists c. by rewrite in_jdel.
  - destruct (decide (at_ c ≤ cut)%Z); [right; cbn; lia|]. left. exists c. split; [|done]. by apply list_elem_of_filter.
Qed.
Definition since (k : jstr) (t : Z) (m : list (jstr * Claim)) : Prop := ∃ c, (k, c) ∈ m ∧ at_ c = t.
(** A claim was there before, or is of this action. *)
Lemma prim_since now a T m m' k t :
  prim now a T m m' → jwf m → since k t m' → since k t m ∨ t = now ∧ ∃ p, p ∈ T ∧ keyOf p = k.
Proof.
  intros H Hw (c & Hc & <-). destruct H as [m|m p d Hp|m q _|m cut _].
  - apply in_read in Hc as (c0 & -> & Hm & _). left. exists c0. by destruct (warn_same now c0) as [-> _].
  - rewrite in_jset in Hc by done. destruct (decide (k = keyOf p)) as [->|Hn]; [subst c; right; by eauto|left; by exists c].
  - apply in_jdel in Hc as [_ Hc]; [|done]. left. by exists c.
  - apply list_elem_of_filter in Hc as [_ Hc]. left. by exists c.
Qed.
Lemma prims_wf now a T m m' : rtc (prim now a T) m m' → jwf m → jwf m'.
Proof. induction 1; [done|]. intros Hw. apply IHrtc. by eapply prim_wf. Qed.
Lemma prims_standing now a T m m' k t :
  rtc (prim now a T) m m' → jwf m → (t ≤ now)%Z → standing m k t → standing m' k t ∨ settles k t a.
Proof.
  induction 1 as [|m1 m2 m3 H12 H23 IH]; intros Hw Ht Hs; [by left|].
  destruct (prim_standing _ _ _ _ _ _ _ H12 Hw Ht Hs) as [Hs2|?]; [|by right]. apply IH; [by eapply prim_wf|done|done].
Qed.
Lemma prims_since now a T m m' k t :
  rtc (prim now a T) m m' → jwf m → since k t m' → since k t m ∨ t = now ∧ ∃ p, p ∈ T ∧ keyOf p = k.
Proof.
  induction 1 as [|m1 m2 m3 H12 H23 IH]; intros Hw Hs; [by left|].
  destruct (IH (prim_wf _ _ _ _ _ H12 Hw) Hs) as [H2|?]; [|by right]. by eapply prim_since.
Qed.
(** A change that counts stands at once. *)
Lemma note_standing now p s :
  jwf (claimsOf s) → counts s p = true → standing (claimsOf (noteLocalChange now p true s)) (keyOf p) now.
Proof.
  intros Hw Hc. pose proof (note_claims now p true s) as H. cbv zeta in H. rewrite Hc in H.
  set (c := claimFor now p true (claimsOf s)) in *.
  assert (Hin : (keyOf p, c) ∈ jset (claimsOf s) (keyOf p) c) by (by rewrite in_jset, decide_True).
  destruct H as [-> | ->]; [exists c; split; [done|]; split; [done|cbn; lia]|].
  exists (warn now c). destruct (warn_same now c) as [-> ->]. split; [|split; [done|cbn; lia]]. apply in_read. by exists c.
Qed.
Lemma accepted_standing now step s l p :
  notes now true step → jwf (claimsOf s) → p ∈ accepted step s l →
  standing (claimsOf (foldl (λ s p, step p s) s l)) (keyOf p) now.
Proof.
  intros Hn. revert s. induction l as [|q l IH]; intros s Hw; [by intros ?%elem_of_nil|]. cbn [accepted foldl].
  assert (Hw' : jwf (claimsOf (step q s))).
  { rewrite Hn. by eapply (prims_wf now UiEvent [q]), Hw; apply note_prims; constructor. }
  intros [Hp|Hp]%elem_of_app; [|by apply IH]. destruct (counts s q) eqn:Hc; [|by apply elem_of_nil in Hp].
  apply list_elem_of_singleton in Hp as ->.
  assert (Hs : standing (claimsOf (step q s)) (keyOf q) now) by (rewrite Hn; by apply note_standing).
  destruct (prims_standing now UiEvent (accepted step (step q s) l) _ _ _ _ (accepted_prims now UiEvent _ true step (step q s) l Hn ltac:(done)) Hw' (Z.le_refl _) Hs)
    as [?|[]]. done.
Qed.
(** *** Every action *)
Lemma claims_nudge now p s : claimsOf (nudge now p s) = claimsOf s ∧ lamp (nudge now p s) = lamp s.
Proof. unfold nudge. cbv zeta. by destruct (_.2). Qed.
Lemma notes_note now d : notes now d (λ p, noteLocalChange now p d).
Proof. done. Qed.
Lemma notes_flush now f : notes now true (flushOne now f).
Proof. done. Qed.
Lemma act_prims now a s : rtc (prim now a (changesOf now a s ++ typedIn now a s)) (claimsOf s) (claimsOf (act now a s)).
Proof.
  destruct a as [p n|p|[ |n|] o w|[p|]|p|p b|f|p| | | | | |b f|q|cut|n b|e ph|b|d| | |c]; cbn [act changesOf typedIn]; rewrite ?app_nil_r; try done.
  - unfold onLocalEvent. rewrite (proj1 (claims_nudge _ _ _)). exact (accepted_prims _ _ _ _ _ s [p] (notes_note now true) ltac:(done)).
  - unfold onLocalDelete. rewrite (proj1 (claims_nudge _ _ _)). exact (accepted_prims _ _ _ _ _ s [p] (notes_note now true) ltac:(done)).
  - unfold onLocalRename. cbv zeta. rewrite !(proj1 (claims_nudge _ _ _)).
    exact (accepted_prims _ _ _ _ _ s [o; w] (notes_note now true) ltac:(done)).
  - unfold noteEditorEdit. destruct (truthy p); [|done]. exact (accepted_prims _ _ _ _ _ s [p] (notes_note now false) ltac:(done)).
  - unfold onRawConfigEvent. destruct (negb _); [done|]. destruct (jget _ _); [by destruct (_ <? _)%Z|done].
  - unfold rawPathAnswered. cbv zeta. destruct (bool_decide _); [by destruct (_ || _)|done].
  - unfold flushRawConfig. destruct (flushes now s); [|done]. destruct (unloading s); [done|].
    exact (accepted_prims _ _ _ _ _ (cleared s) _ (notes_flush now f) ltac:(done)).
  - unfold scheduleConfigScan. by destruct (_ || _).
  - unfold scanTimerFires. destruct (due _ _); [by destruct (unloading s)|done].
  - unfold applyConfigSyncChange. by destruct (connected s).
  - unfold onResume. destruct (unloading s); [done|]. cbv zeta. unfold releaseHold. cbv zeta.
    destruct (held _), (resumeAction _), (configEnabled _); done.
  - unfold notePathWork. cbv zeta. destruct f; [done|]. by apply render_after.
  - unfold notePathSettled. destruct (jhas _ _); [|done]. by apply render_after, rtc_once, prim_path.
  - unfold settleUnsyncedBefore. cbv zeta. destruct (_ =? _); [|apply render_after]; by apply rtc_once, prim_pass.
  - unfold onProgress. cbv zeta. destruct (bool_decide _); [done|]. apply render_after. destruct (0 <? _)%Z; [|done].
    destruct b as [[e p]|]; [|done]. unfold onPhase. cbv zeta. by apply render_after.
  - unfold onPhase. cbv zeta. by apply render_after.
  - unfold lightTimerFires. cbv zeta. by destruct (_ && _).
  - unfold promptFires. destruct (due _ _); [|done]. by apply render_after.
  - unfold stalePromptFires. cbv zeta. destruct (due _ _); [|done]. destruct (existsb _ _);
      [rewrite (proj2 (claims_arm _ _))|]; by apply render_after.
Qed.
Lemma device_act_wf now a s : jwf (claimsOf s) → jwf (claimsOf (act now a s)).
Proof. apply prims_wf with (1 := act_prims now a s). Qed.
Lemma act_standing now a s p :
  jwf (claimsOf s) → p ∈ changesOf now a s → standing (claimsOf (act now a s)) (keyOf p) now.
Proof.
  intros Hw Hp. destruct a as [q n|q|[ |n|] o w| | | |f| | | | | | | | | | | | | | | |]; cbn [act changesOf] in *; try by apply elem_of_nil in Hp.
  - unfold onLocalEvent. rewrite (proj1 (claims_nudge _ _ _)). exact (accepted_standing _ _ s [q] p (notes_note now true) Hw Hp).
  - unfold onLocalDelete. rewrite (proj1 (claims_nudge _ _ _)). exact (accepted_standing _ _ s [q] p (notes_note now true) Hw Hp).
  - unfold onLocalRename. cbv zeta. rewrite !(proj1 (claims_nudge _ _ _)).
    exact (accepted_standing _ _ s [o; w] p (notes_note now true) Hw Hp).
  - unfold flushRawConfig. destruct (flushes now s); [|by apply elem_of_nil in Hp]. destruct (unloading s); [by apply elem_of_nil in Hp|].
    exact (accepted_standing _ _ (cleared s) _ p (notes_flush now f) Hw Hp).
Qed.
Lemma act_settled now a s k t : jwf (claimsOf s) → settles k t a → ¬ since k t (claimsOf (act now a s)).
Proof.
  intros Hw Hs Hi. assert (Hr : ∀ s', since k t (claimsOf (renderLight now s')) → since k t (claimsOf s')).
  { intros s' H. destruct (claims_render now s') as [Heq|Heq]; rewrite Heq in H; [done|].
    destruct H as (c & (c0 & -> & Hm & _)%in_read & <-). exists c0. by destruct (warn_same now c0) as [-> _]. }
  destruct a as [| | | | | | | | | | | | | |q|cut| | | | | | |]; try done; cbn [act settles] in *.
  - subst k. unfold notePathSettled in Hi. destruct (jhas _ _) eqn:Hh.
    + apply Hr in Hi as (c & Hc & _). apply in_jdel in Hc as [Hn _]; done.
    + destruct Hi as (c & Hc & _). apply jget_in in Hc; [|done]. unfold jhas in Hh. by rewrite Hc in Hh.
  - assert (Hi' : since k t (filter (λ x, ¬ (at_ x.2 ≤ cut)%Z) (claimsOf s))).
    { unfold settleUnsyncedBefore in Hi. cbv zeta in Hi. destruct (_ =? _) in Hi; [exact Hi|by apply Hr in Hi]. }
    destruct Hi' as (c & [Hn _]%list_elem_of_filter & <-). done.
Qed.
(** ** Runs *)
Lemma acts_snoc s l e : acts s (l ++ [e]) = act e.1 e.2 (acts s l).
Proof. unfold acts. by rewrite foldl_app. Qed.
Lemma device_acts_wf s l : jwf (claimsOf s) → jwf (claimsOf (acts s l)).
Proof. intros Hw. induction l as [|e l IH] using rev_ind; [done|]. rewrite acts_snoc. by apply device_act_wf. Qed.
Lemma acts_standing s l k t :
  jwf (claimsOf s) → standing (claimsOf s) k t → (∀ e, e ∈ l → (t ≤ e.1)%Z) →
  standing (claimsOf (acts s l)) k t ∨ ∃ e, e ∈ l ∧ settles k t e.2.
Proof.
  intros Hw Hs. induction l as [|e l IH] using rev_ind; intros Ht; [by left|]. rewrite acts_snoc.
  destruct IH as [Hs'|(e' & He' & Hst)]; [intros e' He'; apply Ht; set_solver| |right; exists e'; set_solver].
  destruct (prims_standing _ _ _ _ _ k t (act_prims e.1 e.2 (acts s l)) (device_acts_wf _ _ Hw) ltac:(apply Ht; set_solver) Hs') as [?|?];
    [by left|right; exists e; set_solver].
Qed.
(** Where a claim comes from. *)
Lemma acts_since s l k t :
  claimsOf s = [] → since k t (claimsOf (acts s l)) →
  ∃ l1 a l2 p, l = l1 ++ (t, a) :: l2 ∧ p ∈ changesOf t a (acts s l1) ++ typedIn t a (acts s l1) ∧ keyOf p = k ∧
    ∀ e, e ∈ l2 → ¬ settles k t e.2.
Proof.
  intros H0. assert (Hw : ∀ l, jwf (claimsOf (acts s l))) by (intros l'; apply device_acts_wf; rewrite H0; constructor).
  induction l as [|[t' a] l IH] using rev_ind; [cbn [acts foldl]; rewrite H0; by intros (c & ?%elem_of_nil & _)|]. rewrite acts_snoc. cbn [fst snd]. intros Hs.
  assert (Hn : ¬ settles k t a) by (intros Hst; by apply (act_settled t' _ (acts s l) _ _ (Hw l) Hst)).
  destruct (prims_since _ _ _ _ _ k t (act_prims t' a (acts s l)) (Hw l) Hs) as [Hs'|(-> & p & Hp & Hk)].
  - destruct (IH Hs') as (l1 & b & l2 & p & -> & Hp & Hk & Hl). exists l1, b, (l2 ++ [(t', a)]), p.
    split_and!; [by rewrite <- (assoc_L (++))|done|done|]. intros e [He| ->%list_elem_of_singleton]%elem_of_app; [by apply Hl|done].
  - exists l, a, [], p. split_and!; [done..|]. by intros e ?%elem_of_nil.
Qed.
(** *** The light over the claims *)
Definition holdsSync (d : LightDisplay) : Prop := held d = true → shown d = PSyncing.
Definition resting (d : LightDisplay) : Prop := shown d = PIdle ∨ deferred d = Some PIdle.
Definition truthful (s : State) : Prop :=
  holdsSync (display (lamp s)) ∧ (resting (display (lamp s)) → claimsOf s = []).
Lemma display_apply now a l : display (applyLightAction now a l) = state a.
Proof. unfold applyLightAction. cbv zeta. by destruct (arm a). Qed.
Lemma settle_shows now l : holdsSync (display l) →
  holdsSync (display (dispatchLight now EvSettle l)) ∧ (resting (display (dispatchLight now EvSettle l)) → resting (display l)).
Proof.
  unfold dispatchLight. rewrite display_apply. unfold holdsSync, resting. cbn [nextLightDisplay].
  destruct (deferred (display l)) as [p|]; cbn; naive_solver.
Qed.
Lemma phase_shows now p l : holdsSync (display l) →
  holdsSync (display (dispatchLight now (EvPhase p) l)) ∧ (resting (display (dispatchLight now (EvPhase p) l)) → p = PIdle).
Proof.
  intros Hh. unfold dispatchLight. set (l' := if _ && _ then _ else _).
  assert (Hh' : holdsSync (display l')).
  { subst l'. destruct (_ && _); [|done]. rewrite display_apply. unfold holdsSync. cbn. by destruct (deferred _). }
  clearbody l'. rewrite display_apply. generalize (display l') Hh'. clear. intros [sh he df] Hh. unfold holdsSync, resting in *.
  cbn [nextLightDisplay shown held deferred] in *. destruct (decide (p = PSyncing)) as [->|Hp].
  { destruct (decide _); cbn; split; [done|by intros [?|?]|done|by intros [?|?]]. }
  destruct (isAttention p); cbn; [by split; [|intros [?|?]]|].
  destruct he; cbn; [rewrite Hh by done; split; [done|intros [?|[= ?]]; done]|by split; [|intros [?|?]]].
Qed.
Lemma idle_read now s : (displayPhase now s).1 = PIdle → claimsOf (displayPhase now s).2 = [].
Proof.
  unfold displayPhase. cbv zeta. destruct (decide _); [|done]. cbn [fst snd].
  destruct (_ =? 0) eqn:Hn; [|done]. intros _. apply Nat.eqb_eq in Hn. unfold claimsOf. cbn in *.
  by apply nil_length_inv in Hn as ->.
Qed.
Lemma render_truthful now s : holdsSync (display (lamp s)) → truthful (renderLight now s).
Proof.
  intros Hh. unfold renderLight. cbv zeta. set (r := effectiveLightPhase now s).
  assert (Hl : lamp r.2 = lamp s) by (subst r; unfold effectiveLightPhase, displayPhase; cbv zeta; cbn [snd]; by destruct (decide _)).
  assert (Hr : r.1 = PIdle → claimsOf r.2 = []).
  { subst r. unfold effectiveLightPhase. cbv zeta. cbn [fst snd]. intros H. apply idle_read.
    destruct (displayPhase now s).1; try done; by destruct (mountStatusSummary _) as [[]|]. }
  destruct (phase_shows now r.1 (lamp r.2)) as [H1 H2]; [by rewrite Hl|]. split; [exact H1|]. intros H. by apply Hr, H2.
Qed.
Lemma truthful_frame s s' : lamp s' = lamp s → (claimsOf s = [] → claimsOf s' = []) → truthful s → truthful s'.
Proof. intros Hl Hc [H1 H2]. unfold truthful. rewrite Hl. auto. Qed.
Lemma lamp_arm now s : lamp (armUnsyncedPrompt now s) = lamp s ∧ lamp (armStaleClaimPrompt now s) = lamp s.
Proof. unfold armUnsyncedPrompt, armStaleClaimPrompt. by destruct (_ || _), (_ || _). Qed.
Lemma note_truthful now p d s : truthful s → truthful (noteLocalChange now p d s).
Proof.
  intros Ht. unfold noteLocalChange. cbv zeta. destruct (negb _); [done|]. destruct (Excluded.isExcluded _ _); [done|].
  set (s2 := putEdits _ _). set (s3 := if d then _ else _).
  assert (H3 : lamp s3 = lamp s) by (subst s3; destruct (lamp_arm now s2) as [Hu Hs]; destruct d; [by rewrite Hs|by rewrite Hu]).
  change (claimsOf (putMemo _ s)) with (claimsOf s). destruct (jget (claimsOf s) (keyOf p)) eqn:Hp.
  - eapply truthful_frame; [exact H3| |exact Ht]. intros H0. by rewrite H0 in Hp.
  - apply render_truthful. rewrite H3. apply Ht.
Qed.
Lemma accepted_truthful (step : jstr → State → State) s l :
  (∀ p s, truthful s → truthful (step p s)) → truthful s → truthful (foldl (λ s p, step p s) s l).
Proof. intros Hs. revert s. induction l as [|p l IH]; intros s Ht; [done|]. apply IH, Hs, Ht. Qed.
Lemma nudge_truthful now p s : truthful s → truthful (nudge now p s).
Proof. destruct (claims_nudge now p s) as [Hc Hl]. apply truthful_frame; [done|by rewrite Hc]. Qed.
Lemma act_truthful now a s : truthful s → truthful (act now a s).
Proof.
  intros Ht. pose proof (proj1 Ht) as Hh.
  destruct a as [p n|p|[ |n|] o w|[p|]|p|p b|f|p| | | | | |b f|q|cut|n b|e ph|b|d| | |c]; cbn [act]; try exact Ht.
  - unfold onLocalEvent. by apply nudge_truthful, note_truthful.
  - unfold onLocalDelete. by apply nudge_truthful, note_truthful.
  - unfold onLocalRename. cbv zeta. by apply nudge_truthful, nudge_truthful, note_truthful, note_truthful.
  - unfold noteEditorEdit. destruct (truthy p); [by apply note_truthful|done].
  - unfold onRawConfigEvent. destruct (negb _); [done|]. destruct (jget _ _); [by destruct (_ <? _)%Z|done].
  - unfold rawPathAnswered. cbv zeta. destruct (bool_decide _); [by destruct (_ || _)|done].
  - unfold flushRawConfig. destruct (flushes now s); [|done]. destruct (unloading s); [done|].
    apply (accepted_truthful (flushOne now f)); [|done]. intros p s'. apply note_truthful.
  - unfold scheduleConfigScan. by destruct (_ || _).
  - unfold scanTimerFires. destruct (due _ _); [by destruct (unloading s)|done].
  - unfold applyConfigSyncChange. by destruct (connected s).
  - unfold onResume. destruct (unloading s); [done|]. cbv zeta.
    assert (Hr : truthful (releaseHold now s)).
    { unfold releaseHold. cbv zeta. destruct (held _) eqn:?; [|done]. destruct Ht as [_ Ht].
      edestruct (settle_shows now) as [H1 H2]; [|split; [exact H1|]]; [exact Hh|]. intros H. by apply Ht, H2. }
    destruct (resumeAction _), (configEnabled _); exact Hr.
  - unfold notePathWork. cbv zeta. destruct f; [done|]. by apply render_truthful.
  - unfold notePathSettled. destruct (jhas _ _); [|done]. by apply render_truthful.
  - unfold settleUnsyncedBefore. cbv zeta. destruct (_ =? _); [|by apply render_truthful].
    apply (truthful_frame s); [done| |done]. intros H0. unfold claimsOf in *. cbn. by rewrite H0.
  - unfold onProgress. cbv zeta. destruct (bool_decide _); [done|]. apply render_truthful. destruct (0 <? _)%Z; [|done].
    destruct b as [[e p]|]; [|done]. unfold onPhase. cbv zeta. apply render_truthful. done.
  - unfold onPhase. cbv zeta. by apply render_truthful.
  - unfold lightTimerFires. cbv zeta. destruct (_ && _); [|done]. destruct Ht as [_ Ht].
    edestruct (settle_shows now) as [H1 H2]; [|split; [exact H1|]]; [exact Hh|]. intros H. by apply Ht, H2.
  - unfold promptFires. destruct (due _ _); [|done]. by apply render_truthful.
  - unfold stalePromptFires. cbv zeta. destruct (due _ _); [|done]. destruct (existsb _ _); [|by apply render_truthful].
    eapply truthful_frame; [apply lamp_arm| |apply render_truthful, Hh]. by rewrite (proj2 (claims_arm _ _)).
Qed.
Lemma acts_truthful s l : truthful s → truthful (acts s l).
Proof. intros H. induction l as [|e l IH] using rev_ind; [done|]. rewrite acts_snoc. by apply act_truthful. Qed.
Lemma later l1 t a l2 : Sorted Z.le (fst <$> (l1 ++ (t, a) :: l2 : list (Z * Action))) → ∀ e, e ∈ l2 → (t ≤ e.1)%Z.
Proof.
  intros H%(Sorted_StronglySorted Z.le_trans) e He. induction l1 as [|x l1 IH]; [|by inversion_clear H; apply IH].
  inversion_clear H as [|?? _ Hf]. rewrite Forall_forall in Hf. apply Hf, list_elem_of_fmap. by exists e.
Qed.
(** C14: The light is honest.  Whatever happens on the device and in the engine,
    and whatever its timers do: when any surface says that all is synced, every
    change of a file on disk that counts - made here, renamed here, or reported by
    the file system - has since been settled, by a pass over its path or by a pass
    over the whole vault that is charged with everything up to its time; and the
    light is raised only for a reason: every claim that stands was made, at its
    time, by a change or a keystroke that counted, and nothing has settled it. *)
Theorem light_is_honest c now l :
  Sorted Z.le (fst <$> l) →
  let s := acts (start c) l in
  (statusText s = PIdle ∨ (displayPhase now s).1 = PIdle →
   ∀ l1 t a l2 p, l = l1 ++ (t, a) :: l2 → p ∈ changesOf t a (acts (start c) l1) →
     ∃ e, e ∈ l2 ∧ settles (keyOf p) t e.2) ∧
  (∀ k cl, (k, cl) ∈ claimsOf s →
     ∃ l1 a l2 p, l = l1 ++ (at_ cl, a) :: l2 ∧ keyOf p = k ∧
       p ∈ changesOf (at_ cl) a (acts (start c) l1) ++ typedIn (at_ cl) a (acts (start c) l1) ∧
       ∀ e, e ∈ l2 → ¬ settles k (at_ cl) e.2).
Proof.
  intros Hs s. assert (Hw : ∀ l, jwf (claimsOf (acts (start c) l))) by (intros l'; apply device_acts_wf; constructor). split.
  - intros Hi l1 t a l2 p -> Hp. subst s.
    assert (Hsplit : acts (start c) (l1 ++ (t, a) :: l2) = acts (act t a (acts (start c) l1)) l2) by (unfold acts; by rewrite foldl_app).
    destruct (acts_standing (act t a (acts (start c) l1)) l2 (keyOf p) t) as [Hst|?]; [by apply device_act_wf|by apply act_standing|by eapply later| |done].
    exfalso. rewrite <- Hsplit in Hst. destruct Hi as [Hi|Hi].
    + destruct (acts_truthful (start c) (l1 ++ (t, a) :: l2)) as [_ Hn]; [split; [done|by intros [?|?]]|].
      rewrite Hn in Hst by (left; exact Hi). by destruct Hst as (? & ?%elem_of_nil & _).
    + pose proof (idle_read _ _ Hi) as Hn. unfold displayPhase in Hi, Hn. cbv zeta in Hi, Hn. destruct (decide _) in Hi, Hn; [|done].
      cbn [snd] in Hn. destruct Hst as (cl & Hc & Hd & _). apply (not_elem_of_nil (keyOf p, warn now cl)). rewrite <- Hn.
      apply in_read. exists cl. unfold expired. by rewrite Hd.
  - intros k cl Hc. destruct (acts_since (start c) l k (at_ cl) eq_refl) as (l1 & a & l2 & p & ? & ? & ? & ?); [by exists cl|].
    exists l1, a, l2, p. done.
Qed.

(** ** What the notes leave alone *)
Definition others (s : State) := (scan s, raw s, unloading s, connected s, comp s, sent s).
Lemma others_render now s : others (renderLight now s) = others s.
Proof. unfold renderLight, effectiveLightPhase, displayPhase. cbv zeta. by destruct (decide _). Qed.
Lemma others_arm now s : others (armUnsyncedPrompt now s) = others s ∧ others (armStaleClaimPrompt now s) = others s.
Proof. unfold armUnsyncedPrompt, armStaleClaimPrompt. by destruct (_ || _), (_ || _). Qed.
Lemma others_note now p d s : others (noteLocalChange now p d s) = others s.
Proof.
  unfold noteLocalChange. cbv zeta. destruct (negb _); [done|]. destruct (Excluded.isExcluded _ _); [done|].
  set (s2 := putEdits _ _). set (s3 := if d then _ else _).
  assert (H3 : others s3 = others s) by (subst s3; destruct (others_arm now s2) as [Hu Hs]; destruct d; [by rewrite Hs|by rewrite Hu]).
  destruct (jget _ _); [done|by rewrite others_render].
Qed.
Lemma others_editor now f s : others (noteEditorEdit now f s) = others s.
Proof. unfold noteEditorEdit. destruct f as [p|]; [|done]. destruct (truthy p); [apply others_note|done]. Qed.
(** What an action may do besides: it adds requests, and the parts it changes are
    its own. *)
Definition grows (s s' : State) : Prop := ∃ new, sent s' = sent s ++ new.
Lemma grows_refl s s' : sent s' = sent s → grows s s'.
Proof. exists []. by rewrite app_nil_r. Qed.
Lemma grows_trans s1 s2 s3 : grows s1 s2 → grows s2 s3 → grows s1 s3.
Proof. intros [l1 H1] [l2 H2]. exists (l1 ++ l2). by rewrite H2, H1, (assoc_L (++)). Qed.
Definition frame (s s' : State) : Prop :=
  scan s' = scan s ∧ raw s' = raw s ∧ unloading s' = unloading s ∧ grows s s'.
Lemma frame_refl s : frame s s.
Proof. split_and!; [done..|by apply grows_refl]. Qed.
Lemma frame_trans s1 s2 s3 : frame s1 s2 → frame s2 s3 → frame s1 s3.
Proof.
  intros (H1 & H2 & H3 & H4) (G1 & G2 & G3 & G4). split_and!; [by rewrite G1|by rewrite G2|by rewrite G3|by eapply grows_trans].
Qed.
Lemma frame_others s s' : others s' = others s → frame s s'.
Proof. intros [= H1 H2 H3 _ _ H]. split_and!; [done..|by apply grows_refl]. Qed.
Lemma frame_send l s : frame s (send l s).
Proof. split_and!; [done..|by exists l]. Qed.
Lemma frame_note now p d s : frame s (noteLocalChange now p d s).
Proof. apply frame_others, others_note. Qed.
Lemma frame_render now s s' : frame s s' → frame s (renderLight now s').
Proof. intros H. eapply frame_trans; [exact H|]. apply frame_others, others_render. Qed.
Local Ltac framed := split_and!; [done..|first [by apply grows_refl | by eexists]].
Lemma frame_nudge now p s : frame s (nudge now p s).
Proof. unfold nudge. cbv zeta. destruct (_.2); framed. Qed.
Lemma frame_flushes now f s l : frame s (foldl (λ s p, flushOne now f p s) s l).
Proof.
  revert s. induction l as [|p l IH]; intros s; [apply frame_refl|]. eapply frame_trans; [|apply IH].
  eapply frame_trans; [apply frame_note|apply frame_send].
Qed.
Lemma flushes_send now f s l p : p ∈ l → ∃ new n, sent (foldl (λ s p, flushOne now f p s) s l) = sent s ++ new ∧ Enqueue (Engine.EvPath p n) ∈ new.
Proof.
  revert s. induction l as [|q l IH]; intros s; [by intros ?%elem_of_nil|]. cbn [foldl].
  assert (Hq : sent (flushOne now f q s) = sent s ++ [Enqueue (Engine.EvPath q (f q))]).
  { unfold flushOne, enqueue. cbn [sent send]. pose proof (others_note now q true s) as H. by injection H as _ _ _ _ _ ->. }
  intros [-> | Hp]%elem_of_cons.
  - destruct (frame_flushes now f (flushOne now f q s) l) as (_ & _ & _ & new & ->). rewrite Hq, <- (assoc_L (++)).
    eexists _, _. split; [done|]. by left.
  - destruct (IH (flushOne now f q s) Hp) as (new & n & -> & Hn). rewrite Hq, <- (assoc_L (++)).
    eexists _, n. split; [done|]. by right.
Qed.
(** The actions that only concern the claims, the light and the mounts. *)
Definition inert (a : Action) : bool :=
  match a with
  | RawEvent _ | RawAnswer _ _ | RawFlush _ | SelfWrite _ | UiEvent | ScanTimer | SyncChange | Resume | Unload => false
  | _ => true
  end.
Lemma frame_inert now a s : inert a = true → frame s (act now a s).
Proof.
  intros Ha. destruct a as [p n|p|[ |n|] o w|f|p|p b|f|p| | | | | |b f|q|cut|n b|e ph|b|d| | |c]; try done; cbn [act]; try (framed; fail).
  - eapply frame_trans; [|apply frame_nudge]. eapply frame_trans; [apply frame_note|apply frame_send].
  - eapply frame_trans; [|apply frame_nudge]. eapply frame_trans; [apply frame_note|apply frame_send].
  - unfold onLocalRename. cbv zeta. do 2 (eapply frame_trans; [|apply frame_nudge]). do 2 (eapply frame_trans; [|apply frame_send]).
    eapply frame_trans; apply frame_note.
  - apply frame_others, others_editor.
  - unfold notePathWork. cbv zeta. destruct f; [framed|]. apply frame_render; framed.
  - unfold notePathSettled. destruct (jhas _ _); [|framed]. apply frame_render; framed.
  - unfold settleUnsyncedBefore. cbv zeta. destruct (_ =? _); [framed|apply frame_render; framed].
  - unfold onProgress. cbv zeta. destruct (bool_decide _); [framed|]. apply frame_render.
    destruct (0 <? _)%Z; [|framed]. set (s' := putWork _ s).
    destruct b as [[e p]|]; [|framed].
    unfold onPhase. cbv zeta. apply frame_render. framed.
  - unfold onPhase. cbv zeta. apply frame_render; framed.
  - unfold lightTimerFires. cbv zeta. destruct (_ && _); framed.
  - unfold promptFires. destruct (due _ _); [|framed]. apply frame_render; framed.
  - unfold stalePromptFires. cbv zeta. destruct (due _ _); [|framed]. destruct (existsb _ _).
    + eapply frame_trans; [|apply frame_others, (proj2 (others_arm _ _))]. apply frame_render; framed.
    + apply frame_render; framed.
Qed.
(** The actions on the raw events, and those on the scans. *)
Definition onRaw (a : Action) : bool := match a with RawEvent _ | RawAnswer _ _ | RawFlush _ | SelfWrite _ => true | _ => false end.
Definition onScan (a : Action) : bool := match a with UiEvent | ScanTimer | SyncChange | Resume => true | _ => false end.
Local Ltac parted := split_and!; [done|cbn; congruence|first [by apply grows_refl|by eexists]].
Lemma frame_raw now a s : onRaw a = true → scan (act now a s) = scan s ∧ unloading (act now a s) = unloading s ∧ grows s (act now a s).
Proof.
  intros Ha. destruct a as [| | | |p|p b|f|p| | | | | | | | | | | | | | |]; try done; cbn [act].
  - unfold onRawConfigEvent. destruct (negb _); [parted|]. destruct (jget _ _); [destruct (_ <? _)%Z|]; parted.
  - unfold rawPathAnswered. cbv zeta. destruct (bool_decide _); [destruct (_ || _)|]; parted.
  - unfold flushRawConfig. destruct (flushes now s); [|parted]. destruct (unloading s) eqn:Hu; [parted|].
    destruct (frame_flushes now f (cleared s) (rawBuffer (raw s))) as (-> & _ & -> & ?). done.
  - parted.
Qed.
Lemma frame_scan now a s : onScan a = true → raw (act now a s) = raw s ∧ unloading (act now a s) = unloading s ∧ grows s (act now a s).
Proof.
  intros Ha. destruct a as [| | | |p|p b|f|p| | | | | | | | | | | | | | |]; try done; cbn [act].
  - unfold scheduleConfigScan. destruct (_ || _); parted.
  - unfold scanTimerFires. destruct (due _ _); [|parted]. destruct (unloading s) eqn:Hu; parted.
  - unfold applyConfigSyncChange. destruct (connected s); parted.
  - unfold onResume. destruct (unloading s) eqn:Hu; [parted|]. cbv zeta. unfold releaseHold. cbv zeta.
    destruct (held _), (resumeAction _), (configEnabled _); parted.
Qed.
Lemma action_cases a : inert a = true ∨ onRaw a = true ∨ onScan a = true ∨ a = Unload.
Proof. destruct a; auto. Qed.
Lemma act_grows now a s : grows s (act now a s).
Proof.
  destruct (action_cases a) as [Ha|[Ha|[Ha| ->]]]; [by apply frame_inert|by apply frame_raw|by apply frame_scan|by eexists].
Qed.

(** ** The configuration scans that user-interface events start *)
Definition scansAt (now : Z) (a : Action) (s : State) : bool :=
  match a with ScanTimer => due now (configScanTimer (scan s)) && negb (unloading s) | _ => false end.
Definition spaced (c : Scan) : Prop := ∀ d, configScanTimer c = Some d → (lastConfigEventScanAt c + CONFIG_EVENT_MIN_GAP_MS ≤ d)%Z.
(** What an action does to the scan state. *)
Lemma act_scan now a s :
  spaced (scan s) →
  spaced (scan (act now a s)) ∧
  (if scansAt now a s then (lastConfigEventScanAt (scan s) + CONFIG_EVENT_MIN_GAP_MS ≤ now)%Z ∧ lastConfigEventScanAt (scan (act now a s)) = now
   else lastConfigEventScanAt (scan (act now a s)) = lastConfigEventScanAt (scan s)).
Proof.
  intros Hs. destruct (action_cases a) as [Ha|[Ha|[Ha| ->]]].
  - destruct (frame_inert now a s Ha) as (-> & _). split; [done|]. by destruct a.
  - destruct (frame_raw now a s Ha) as (-> & _). split; [done|]. by destruct a.
  - destruct a as [| | | | | | | | | | | | | | | | | | | | | |]; try done; cbn [act scansAt].
    + unfold scheduleConfigScan. destruct (_ || _); [done|]. cbv zeta. split; [|done]. intros d [= <-]. cbn. lia.
    + unfold scanTimerFires. destruct (due _ _) eqn:Hd; [|done]. destruct (unloading s); cbn; [done|]. split; [done|]. split; [|done].
      unfold due in Hd. destruct (configScanTimer (scan s)) as [d|] eqn:Ht; [|done]. specialize (Hs d Ht). lia.
    + unfold applyConfigSyncChange. by destruct (connected s).
    + unfold onResume. destruct (unloading s); [done|]. cbv zeta. unfold releaseHold. cbv zeta.
      by destruct (held _), (resumeAction _), (configEnabled _).
  - split; [intros d Hd; discriminate Hd|done].
Qed.
Lemma acts_scan s l : spaced (scan s) → spaced (scan (acts s l)) ∧ (lastConfigEventScanAt (scan s) ≤ lastConfigEventScanAt (scan (acts s l)))%Z.
Proof.
  intros Hs. induction l as [|e l [IH1 IH2]] using rev_ind; [done|]. rewrite acts_snoc.
  destruct (act_scan e.1 e.2 (acts s l) IH1) as [H1 H2]. split; [done|]. destruct (scansAt _ _ _); unfold CONFIG_EVENT_MIN_GAP_MS in *; lia.
Qed.
(** The scans that user-interface events start are limited and prompt.  In any
    run two of them are at least five seconds apart; and when configuration is
    synced, an event at a time the last such scan precedes leaves a timer armed,
    due within five seconds if it was armed by this event, whose firing asks the
    engine for a pass and marks the configuration as due. *)
Theorem scans_are_spaced c l :
  (∀ l1 t a l2 t' a' l3,
     l = l1 ++ (t, a) :: l2 ++ (t', a') :: l3 →
     scansAt t a (acts (start c) l1) = true → scansAt t' a' (acts (start c) (l1 ++ (t, a) :: l2)) = true →
     (t + CONFIG_EVENT_MIN_GAP_MS ≤ t')%Z) ∧
  (∀ now, let s := acts (start c) l in
     unloading s = false → configEnabled s = true → (lastConfigEventScanAt (scan s) ≤ now)%Z →
     ∃ d, configScanTimer (scan (act now UiEvent s)) = Some d ∧
       (configScanTimer (scan s) = None → (d ≤ now + CONFIG_EVENT_MIN_GAP_MS)%Z) ∧
       ∀ t, (d ≤ t)%Z → let s' := act t ScanTimer (act now UiEvent s) in
         sent s' = sent s ++ [Enqueue Engine.EvRemote] ∧ lastConfigScanAt (scan s') = 0%Z).
Proof.
  split.
  - intros l1 t a l2 t' a' l3 _ Ha Ha'. assert (H0 : spaced (scan (start c))) by (intros d [=]).
    destruct (acts_scan _ l1 H0) as [H1 _]. destruct (act_scan t a _ H1) as [H2 H3]. rewrite Ha in H3. destruct H3 as [_ H3].
    assert (Hsplit : acts (start c) (l1 ++ (t, a) :: l2) = acts (act t a (acts (start c) l1)) l2) by (unfold acts; by rewrite foldl_app).
    rewrite Hsplit in Ha'. destruct (acts_scan _ l2 H2) as [H4 H5]. destruct (act_scan t' a' _ H4) as [_ H6]. rewrite Ha' in H6. lia.
  - intros now s Hu He Hl. cbn [act]. unfold scheduleConfigScan. rewrite Hu, He. cbn [negb orb]. case_bool_decide as Ht.
    + destruct Ht as [d Hd]. exists d. split; [done|]. split; [by rewrite Hd|]. intros t Hdt. unfold scanTimerFires. rewrite Hd. unfold due.
      rewrite (proj2 (Z.leb_le _ _)) by done. rewrite Hu. done.
    + cbv zeta. eexists. split; [done|]. split; [unfold CONFIG_EVENT_MIN_GAP_MS; lia|]. intros t Hdt. unfold scanTimerFires. cbn [scan putScan putTimer configScanTimer].
      unfold due. rewrite (proj2 (Z.leb_le _ _)) by done. cbn [unloading putScan]. rewrite Hu. done.
Qed.

(** ** Raw events *)
(** A path somebody still answers for: asked, buffered, handed over, or given up
    with the plugin. *)
Definition tracked (s0 s : State) (p : jstr) : Prop :=
  p ∈ asking (raw s) ∨ (p ∈ rawBuffer (raw s) ∧ is_Some (rawDebounce (raw s))) ∨ unloading s = true ∨
  ∃ new n, sent s = sent s0 ++ new ∧ Enqueue (Engine.EvPath p n) ∈ new.
Lemma remove_one_elem {A} `{EqDecision A} (x y : A) l : y ∈ l → y = x ∨ y ∈ remove_one x l.
Proof.
  induction l as [|z l IH]; [by intros ?%elem_of_nil|]. cbn [remove_one]. intros [-> | Hy]%elem_of_cons.
  - destruct (decide (x = z)); [by left|right; by left].
  - destruct (decide (x = z)); [by right|]. destruct (IH Hy); [by left|right; by right].
Qed.
Lemma act_unloading now a s : unloading s = true → unloading (act now a s) = true.
Proof.
  intros Hu. destruct (action_cases a) as [Ha|[Ha|[Ha| ->]]]; [destruct (frame_inert now a s Ha) as (_ & _ & -> & _)|
    destruct (frame_raw now a s Ha) as (_ & -> & _)|destruct (frame_scan now a s Ha) as (_ & -> & _)|]; done.
Qed.
(** What was asked or buffered stays, is handed over, or was a folder. *)
Lemma raw_tracked now a s0 s p :
  onRaw a = true → sent s = sent s0 ∨ grows s0 s → p ∈ asking (raw s) ∨ (p ∈ rawBuffer (raw s) ∧ is_Some (rawDebounce (raw s))) →
  tracked s0 (act now a s) p ∨ a = RawAnswer p true.
Proof.
  intros Ha Hg Hp. destruct (unloading s) eqn:Hu; [left; do 2 right; left; by apply act_unloading|].
  destruct a as [| | | |q|q b|f|q| | | | | | | | | | | | | | |]; try done; cbn [act].
  - left. unfold onRawConfigEvent, tracked. destruct (negb _); [tauto|]. destruct (jget _ _); [destruct (_ <? _)%Z|]; cbn; set_solver.
  - unfold rawPathAnswered, tracked. cbv zeta. case_bool_decide as Hq; [|by tauto]. rewrite Hu, orb_false_r.
    destruct Hp as [Hp|[Hp Hd]].
    + destruct (remove_one_elem q p _ Hp) as [<- | Hp']; [|left; left; by destruct b].
      destruct b; [by right|]. left. right. left. cbn. split; [|done]. case_bool_decide; set_solver.
    + left. right. left. destruct b; [done|]. cbn. split; [|done]. case_bool_decide; set_solver.
  - left. unfold flushRawConfig. destruct (flushes now s); [|by destruct Hp; [left|right; left]]. rewrite Hu. destruct Hp as [Hp|[Hp _]].
    + left. by destruct (frame_flushes now f (cleared s) (rawBuffer (raw s))) as (_ & -> & _).
    + do 3 right. destruct (flushes_send now f (cleared s) _ _ Hp) as (new & n & -> & Hn). change (sent (cleared s)) with (sent s).
      destruct Hg as [-> | [l ->]]; [by exists new, n|]. exists (l ++ new), n. rewrite (assoc_L (++)). split; [done|]. set_solver.
  - left. unfold tracked. cbn. tauto.
Qed.
Lemma act_tracked now a s0 s p : grows s0 s → tracked s0 s p → tracked s0 (act now a s) p ∨ a = RawAnswer p true.
Proof.
  intros Hg H. assert (Hor : p ∈ asking (raw s) ∨ (p ∈ rawBuffer (raw s) ∧ is_Some (rawDebounce (raw s))) ∨
    unloading s = true ∨ ∃ new n, sent s = sent s0 ++ new ∧ Enqueue (Engine.EvPath p n) ∈ new) by exact H.
  destruct Hor as [Hr|[Hr|[Hr|(new & n & Hs & Hn)]]]; cycle 2.
  - left. do 2 right. left. by apply act_unloading.
  - left. do 3 right. destruct (act_grows now a s) as [l Hl]. exists (new ++ l), n. rewrite Hl, Hs, (assoc_L (++)). split; [done|]. set_solver.
  - destruct (action_cases a) as [Ha|[Ha|[Ha| ->]]].
    + left. left. by destruct (frame_inert now a s Ha) as (_ & -> & _).
    + apply raw_tracked; auto.
    + left. left. by destruct (frame_scan now a s Ha) as (-> & _).
    + left. do 2 right. by left.
  - destruct (action_cases a) as [Ha|[Ha|[Ha| ->]]].
    + left. right. left. by destruct (frame_inert now a s Ha) as (_ & -> & _).
    + apply raw_tracked; auto.
    + left. right. left. by destruct (frame_scan now a s Ha) as (-> & _).
    + left. do 2 right. by left.
Qed.
Lemma acts_tracked s0 s l p : grows s0 s → tracked s0 s p → tracked s0 (acts s l) p ∨ ∃ e, e ∈ l ∧ e.2 = RawAnswer p true.
Proof.
  intros Hg H. induction l as [|e l IH] using rev_ind; [by left|]. rewrite acts_snoc.
  assert (Hg' : grows s0 (acts s l)).
  { clear IH. induction l as [|e' l IH] using rev_ind; [done|]. rewrite acts_snoc. eapply grows_trans; [exact IH|apply act_grows]. }
  destruct IH as [Ht|(e' & He & Hq)]; [|right; exists e'; set_solver].
  destruct (act_tracked e.1 e.2 s0 _ p Hg' Ht) as [?|?]; [by left|right; exists e; set_solver].
Qed.
(** Our own write is remembered until an event of its path has used it. *)
Lemma act_writes now a s p w :
  jwf (recentSelfWrites (raw s)) →
  jwf (recentSelfWrites (raw (act now a s))) ∧
  ((p, w) ∈ recentSelfWrites (raw (act now a s)) →
   a = SelfWrite p ∧ w = now ∨ ((p, w) ∈ recentSelfWrites (raw s) ∧ (a = RawEvent p → relevant s p = false))).
Proof.
  intros Hw. assert (Hsame : (∀ q, a ≠ RawEvent q) → ∀ r, recentSelfWrites r = recentSelfWrites (raw s) →
    jwf (recentSelfWrites r) ∧ ((p, w) ∈ recentSelfWrites r →
      a = SelfWrite p ∧ w = now ∨ ((p, w) ∈ recentSelfWrites (raw s) ∧ (a = RawEvent p → relevant s p = false)))).
  { intros Hn r ->. split; [done|]. intros H. right. split; [done|]. intros ->. by destruct (Hn p). }
  destruct (action_cases a) as [Ha|[Ha|[Ha| ->]]].
  - apply Hsame; [by intros q ->|]. by destruct (frame_inert now a s Ha) as (_ & -> & _).
  - destruct a as [| | | |q|q b|f|q| | | | | | | | | | | | | | |]; try done; cbn [act].
    + unfold onRawConfigEvent. destruct (relevant s q) eqn:Hq; cbn [negb].
      2: { split; [done|]. intros H. right. split; [done|]. by intros [= ->]. }
      assert (Hd : jget (recentSelfWrites (raw s)) q = None → (p, w) ∈ recentSelfWrites (raw s) → q ≠ p).
      { intros Hn H%jget_in; [|done]. intros ->. by rewrite H in Hn. }
      destruct (jget _ _) as [w'|]; [destruct (_ <? _)%Z; cbn; (split; [by apply jwf_del|]); intros [Hne Hin]%in_jdel; try done;
        right; (split; [done|]); by intros [= ->]|].
      cbn. split; [done|]. intros H. right. split; [done|]. intros [= ->]. by destruct (Hd eq_refl H).
    + unfold rawPathAnswered. cbv zeta. destruct (bool_decide _); [destruct (_ || _)|]; by apply Hsame.
    + unfold flushRawConfig. destruct (flushes now s); [|by apply Hsame]. destruct (unloading s); [by apply Hsame|].
      destruct (frame_flushes now f (cleared s) (rawBuffer (raw s))) as (_ & -> & _). by apply Hsame.
    + unfold markConfigSelfWrite. cbv zeta. cbn [raw putRaw recentSelfWrites putWrites].
      assert (Hin : (p, w) ∈ jset (recentSelfWrites (raw s)) q now → SelfWrite q = SelfWrite p ∧ w = now ∨ (p, w) ∈ recentSelfWrites (raw s) ∧ (SelfWrite q = RawEvent p → relevant s p = false)).
      { rewrite in_jset by done. destruct (decide (p = q)) as [->|]; [by left|by right]. }
      pose proof (jwf_set _ q now Hw) as Hw'. destruct (_ <? _); [|by split]. split; [|by intros [_ ?]%list_elem_of_filter; apply Hin].
      unfold jwf in *. eapply sublist_NoDup; [exact Hw'|]. apply fmap_sublist, sublist_filter.
  - apply Hsame; [by intros q ->|]. by destruct (frame_scan now a s Ha) as (-> & _).
  - by apply Hsame.
Qed.
Lemma acts_writes c l p w :
  jwf (recentSelfWrites (raw (acts (start c) l))) ∧
  ((p, w) ∈ recentSelfWrites (raw (acts (start c) l)) →
   ∃ l0 lm, l = l0 ++ (w, SelfWrite p) :: lm ∧
     ∀ m1 t m2, lm = m1 ++ (t, RawEvent p) :: m2 → relevant (acts (start c) (l0 ++ (w, SelfWrite p) :: m1)) p = false).
Proof.
  induction l as [|[t a] l [IHw IH]] using rev_ind; [split; [constructor|by intros ?%elem_of_nil]|]. rewrite acts_snoc. cbn [fst snd].
  destruct (act_writes t a _ p w IHw) as [Hw H]. split; [done|]. intros [[-> ->]|[Hin Hr]]%H.
  - exists l, []. split; [done|]. intros m1 t' m2 Hm. by destruct m1.
  - destruct (IH Hin) as (l0 & lm & -> & Hlm). exists l0, (lm ++ [(t, a)]). split; [by rewrite <- (assoc_L (++))|].
    intros m1 t' m2 Hm. destruct m2 as [|x m2 _] using rev_ind.
    + apply app_inj_tail in Hm as [-> [= -> ->]]. by apply Hr.
    + rewrite app_comm_cons, (assoc_L (++)) in Hm. apply app_inj_tail in Hm as [-> _]. by apply (Hlm m1 t' m2).
Qed.
(** C28: No change of a synced configuration file is lost between the file system
    and the engine.  When an event names such a path, either the plugin itself
    wrote it within the last four seconds and no other event has used that write
    as its excuse; or from then on the path is being asked about, buffered with
    the flush timer armed, or handed to the engine - unless the adapter answered
    that it is a folder, or the plugin was unloaded. *)
Theorem raw_changes_arrive c l1 t p l2 :
  let s1 := acts (start c) l1 in
  let s := acts (start c) (l1 ++ (t, RawEvent p) :: l2) in
  relevant s1 p = true →
  (∃ w l0 lm, l1 = l0 ++ (w, SelfWrite p) :: lm ∧ (t - w < SELF_WRITE_WINDOW_MS)%Z ∧
     ∀ m1 t' m2, lm = m1 ++ (t', RawEvent p) :: m2 → relevant (acts (start c) (l0 ++ (w, SelfWrite p) :: m1)) p = false) ∨
  (∃ e, e ∈ l2 ∧ e.2 = RawAnswer p true) ∨
  tracked s1 s p.
Proof.
  intros s1 s Hr.
  assert (Hs : s = acts (act t (RawEvent p) s1) l2) by (subst s; unfold acts; by rewrite foldl_app).
  assert (Htr : p ∈ asking (raw (act t (RawEvent p) s1)) → (∃ e, e ∈ l2 ∧ e.2 = RawAnswer p true) ∨ tracked s1 s p).
  { intros Ha. rewrite Hs. destruct (acts_tracked s1 (act t (RawEvent p) s1) l2 p) as [?|?]; [apply act_grows|by left|by right|by left]. }
  destruct (jget (recentSelfWrites (raw s1)) p) as [w|] eqn:Hg; [destruct (Z.lt_ge_cases (t - w) SELF_WRITE_WINDOW_MS) as [Hlt|Hge]|].
  - left. apply jget_Some_in in Hg. apply acts_writes in Hg as (l0 & lm & -> & Hlm). by exists w, l0, lm.
  - right. apply Htr. cbn [act]. unfold onRawConfigEvent. rewrite Hr, Hg. cbn [negb].
    rewrite (proj2 (Z.ltb_ge _ _)) by done. cbn. set_solver.
  - right. apply Htr. cbn [act]. unfold onRawConfigEvent. rewrite Hr, Hg. cbn. set_solver.
Qed.
End Local.

(** ** Concrete runs *)
Definition fs : Identity.PathFs := Identity.EXACT_FS.
Definition device : Compose.Comp := {|
  Compose.settings := Configsync.Scope.withCore true; Compose.base := Compose.base (Compose.comp [] []); Compose.stateStore := [];
  Compose.scopes := []; Compose.sockets := []; Compose.heldDeletes := []; Compose.heldPushes := []; Compose.edits := []; Compose.noticed := [] |}.
Definition runOf (l : list (Z * Action)) : State := acts id lower fs (start device) l.
(** A device that is connected and at rest. *)
Definition online : list (Z * Action) := [(0, Connection true); (0, EnginePhase Engine.SIdle PIdle)]%Z.
Definition note : jstr := js "a.md".
Definition edited : list (Z * Action) := [(10, Changed note 3%N)]%Z.
Definition settled : list (Z * Action) := [(900, PathSettled note); (12000, EnginePhase Engine.SIdle PIdle)]%Z.
Lemma light_is_honest_witness :
  statusText (runOf (online ++ edited)) = PSyncing ∧ statusText (runOf (online ++ edited ++ settled)) = PIdle ∧
  ∃ e, e ∈ settled ∧ settles id lower fs (keyOf id lower fs note) 10 e.2.
Proof.
  split; [vm_compute; reflexivity|]. split; [vm_compute; reflexivity|].
  destruct (light_is_honest id lower fs device 12000 (online ++ edited ++ settled)) as [H _].
  - repeat constructor; cbn; lia.
  - apply (H ltac:(left; vm_compute; reflexivity) online 10%Z (Changed note 3%N) settled note eq_refl).
    vm_compute. left.
Defined.
Definition app : jstr := js ".obsidian/app.json".
Lemma raw_changes_arrive_witness :
  let l2 := [(20, RawAnswer app false); (630, RawFlush (λ _, 7%N))]%Z in
  relevant (runOf online) app = true ∧
  Enqueue (Engine.EvPath app 7) ∈ sent (runOf (online ++ (10%Z, RawEvent app) :: l2)) ∧
  ((∃ e, e ∈ l2 ∧ e.2 = RawAnswer app true) ∨ tracked (runOf online) (runOf (online ++ (10%Z, RawEvent app) :: l2)) app).
Proof.
  cbv zeta. split; [vm_compute; reflexivity|]. split; [vm_compute; left|].
  destruct (raw_changes_arrive id lower fs device online 10 app [(20, RawAnswer app false); (630, RawFlush (λ _, 7%N))]%Z) as [H|H];
    [vm_compute; reflexivity| |exact H].
  destruct H as (w & l0 & lm & H & _). exfalso. unfold online in H.
  destruct l0 as [|? [|? l0]]; [discriminate H|discriminate H|]. apply (f_equal length) in H. rewrite length_app in H. cbn in H. lia.
Defined.

Lemma scans_are_spaced_witness :
  let l := online ++ [(10000, UiEvent); (10000, ScanTimer); (10001, UiEvent); (15000, ScanTimer)]%Z in
  sent (runOf l) = [Enqueue Engine.EvRemote; Enqueue Engine.EvRemote] ∧ (10000 + CONFIG_EVENT_MIN_GAP_MS ≤ 15000)%Z ∧
  ∃ d, configScanTimer (scan (act id lower fs 16000 UiEvent (runOf l))) = Some d ∧ (d ≤ 16000 + CONFIG_EVENT_MIN_GAP_MS)%Z.
Proof.
  cbv zeta. split; [vm_compute; reflexivity|].
  destruct (scans_are_spaced id lower fs device (online ++ [(10000, UiEvent); (10000, ScanTimer); (10001, UiEvent); (15000, ScanTimer)]%Z)) as [H1 H2].
  split.
  - apply (H1 (online ++ [(10000, UiEvent)]%Z) 10000%Z ScanTimer [(10001, UiEvent)]%Z 15000%Z ScanTimer [] eq_refl); vm_compute; reflexivity.
  - destruct (H2 16000%Z) as (d & Hd & Hle & _); [vm_compute; reflexivity|vm_compute; reflexivity|vm_compute; discriminate|].
    exists d. split; [exact Hd|]. apply Hle. vm_compute. reflexivity.
Defined.

(** ** What modelling showed *)
(** A pass over a path settles its claim also when the edit came after the pass
    had read the file: the light says that all is synced. *)
Lemma edit_during_pass_unclaimed :
  let s := runOf (online ++ [(10, Changed note 3%N); (11, EnginePhase Engine.SReconciling PSyncing); (20, PathWork true false); (30, Typed (Some note));
                             (40, PathWork false false); (41, PathSettled note); (9000, EnginePhase Engine.SIdle PIdle)]%Z) in
  statusText s = PIdle ∧ claimsOf s = [].
Proof. vm_compute. done. Qed.
(** A connect charges its pass with the time at its end: an edit made while it ran
    is settled with it. *)
Lemma edit_during_connect_unclaimed :
  let s := runOf ([(0, Connection true); (0, EnginePhase Engine.SConnecting PConnecting); (500, Changed note 3%N);
                   (900, PassSettled 900); (901, EnginePhase Engine.SIdle PIdle)]%Z) in
  statusText s = PIdle ∧ sent s = [Enqueue (Engine.EvPath note 3)].
Proof. vm_compute. done. Qed.
(** The hold is released by the clock while its timer is about to fire; the timer
    then ends the next hold, which lasts no time. *)
Lemma hold_cut_short :
  let first := online ++ [(5, EnginePhase Engine.SReconciling PSyncing); (10, PathWork true false); (2510, PathWork false false);
                          (2510, PathWork true false)]%Z in
  heldSince (lamp (runOf first)) = 2510%Z ∧ statusText (runOf first) = PSyncing ∧
  statusText (runOf (first ++ [(2511, LightTimer 2510); (2512, PathWork false false)]%Z)) = PIdle.
Proof. vm_compute. done. Qed.
(** After a category is switched on, a change of the file that was asked about last
    is ignored, and the light stays at rest. *)
Lemma change_after_switch_ignored :
  let off := {| Compose.settings := Configsync.Scope.withCore false; Compose.base := Compose.base device; Compose.stateStore := [];
                Compose.scopes := []; Compose.sockets := []; Compose.heldDeletes := []; Compose.heldPushes := [];
                Compose.edits := []; Compose.noticed := [] |} in
  statusText (runOf (online ++ [(1, Reconfigured off); (2, Changed app 1%N); (3, Reconfigured device); (4, Changed app 1%N)]%Z)) = PIdle.
Proof. vm_compute. done. Qed.
End Local.
