(* ===== verification/Vaultio.v ===== *)
(** * Vaultio: the vault adapter ([ObsidianVaultIo] of [client/src/main.ts])

    The adapter turns the calls of the interface [Sync.Iface] into calls of the
    host: Obsidian's vault adapter and, for streamed writes on the desktop, the
    file system.  Each operation is a tree of host calls; [serve] is the adapter,
    [interp] a whole client running over it.  [normalizePath] is Obsidian's,
    [absPath] joins a path to the vault's folder and [dirname] is its parent:
    parameters. *)

From S2P Require Import Prelude Jsmap Effects Paths Foreigntools Configsync Configwalk Sync Demo Safety.

Module Vaultio.
Import Configsync.Scope.

(** The host's calls.  [Settings] reads the plugin's settings; the plugin's own
    callbacks and the calls that are not the adapter's are in the list too. *)
Inductive HOp : Type :=
| ReadSettings | GetFiles
| HExists (p : jstr) | ReadBinary (p : jstr) | WriteBinary (p : jstr) (b : bytes) | Mkdir (p : jstr)
| TrashLocal (p : jstr) | HRemove (p : jstr)
| AList (d : jstr) | AStat (p : jstr)
| FsMkdir (p : jstr) | FsOpen (p : jstr) | FsWrite (p : jstr) (b : bytes) | FsSync (p : jstr) | FsClose (p : jstr)
| FsRename (p p' : jstr) | FsDurable (p : jstr) | FsRm (p : jstr)
| NoteForeign (l : list jstr) | SelfWrite (p : jstr) | ConfigWritten (p : jstr)
| Else (o : Op).
(** [FsDurable] is [fsyncHandle]: it swallows every error. *)
Definition HAns (o : HOp) : Type :=
  match o with
  | ReadSettings => Settings
  | GetFiles => list (jstr * Stat)
  | HExists _ => res Err bool
  | ReadBinary _ => res Err bytes
  | AList _ => res Err Walk.Listing
  | AStat _ => res Err (option Walk.WalkStat)
  | FsWrite _ _ => res Err Z
  | WriteBinary _ _ | Mkdir _ | TrashLocal _ | HRemove _ | FsMkdir _ | FsOpen _ | FsSync _ | FsClose _
  | FsRename _ _ | FsRm _ => res Err unit
  | FsDurable _ | NoteForeign _ | SelfWrite _ | ConfigWritten _ => unit
  | Else o => Ans o
  end.
Abbreviation Host := (M HAns State Err).
Abbreviation hostTree := (io (cmd HOp State Err) (cans (Ans := HAns))).
Abbreviation HostHistory := (hist HAns State Err).
Definition awaitH {A} (o : HOp) (view : HAns o → res Err A) : Host A := callE o view.
Definition tell (o : HOp) : Host unit := bindM (call o) (λ _, mret' tt).

(** What the adapter is built over. *)
Record Platform := { forMount : bool; desktop : bool; trashLocal : bool }.
Definition PART : jstr := js ".selfsync-part".
Definition quoted (s : string) (p : jstr) : Err := ErrMsg (js s ++ p ++ js "'").
(** [p.split("/").slice(0, -1).join("/")] *)
Definition parent (p : jstr) : jstr := join_with cSlash (removelast (split_on cSlash p)).

Section Adapter.
Context (nfc lowerCase : jstr → jstr) (normalizePath absPath dirname : jstr → jstr) (f : Platform) (depth : nat).

Definition settings : Host Settings := call ReadSettings.
Definition passes (s : Settings) (p : jstr) : bool := Scope.passes nfc lowerCase s (forMount f) p.
Definition hostPath (safe : Safe.SafeVaultPath) : jstr := normalizePath (proj1_sig safe).
Definition rawFsAbs (safe : Safe.SafeVaultPath) : jstr := absPath (hostPath safe).

(** ** Listing *)
Definition entryStat (e : Walk.WalkEntry) : Stat := {| st_size := Walk.e_size e; st_mtime := Walk.e_mtime e |}.
Definition probeMarker (m : jstr) : Host (list jstr) :=
  try_catch (let* b := awaitH (HExists m) id in mret' (if (b : bool) then [m] else [])) (λ _, mret' []).
Definition list_ : Host (list (jstr * Stat)) :=
  let* s := settings in
  let* fs := call GetFiles in
  let m := foldl (λ m e, jset m e.1 e.2) [] (filter (λ e, passes s e.1) fs) in
  let foreign := filter (λ p, negb (passes s p) && Foreign.isForeignArtefact p) fs.*1 in
  (whenM (negb (forMount f)) then
     (let* marks := map_each Foreign.FOREIGN_ROOT_MARKERS probeMarker in
      tell (NoteForeign (foreign ++ concat marks)))) ;;
  if negb (forMount f) && Config.enabled (configSync s) then
    let* found := Walk.walkConfigTree (λ d, awaitH (AList d) id) (λ p, awaitH (AStat p) id) (λ _ _, mret' tt)
                    (passes s) depth (js ".obsidian") in
    mret' (foldl (λ m e, jset m e.1 (entryStat e.2)) m (Walk.entries found))
  else mret' m.

(** ** Buffered operations *)
Definition read (p : jstr) : Host bytes :=
  let* s := settings in
  if forMount f && negb (passes s p) then throw (quoted "mount io: refusing to read a non-data (config) path: '" p)
  else match Safe.asSafeVaultPath p with
       | None => throw (quoted "refusing to read an unsafe/traversing path: '" p)
       | Some safe => awaitH (ReadBinary (hostPath safe)) id
       end.
Definition exists_ (p : jstr) : Host bool :=
  let* s := settings in
  if forMount f && negb (passes s p) then mret' false
  else match Safe.asSafeVaultPath p with
       | None => mret' false
       | Some safe => awaitH (HExists (hostPath safe)) id
       end.
(** [fsyncDurable]; the folder is the file's own. *)
Definition fsyncDurable (safe : Safe.SafeVaultPath) : Host unit :=
  whenM (desktop f) then (tell (FsDurable (rawFsAbs safe)) ;; tell (FsDurable (dirname (rawFsAbs safe)))).
Definition write (p : jstr) (b : bytes) : Host unit :=
  match Safe.asSafeVaultPath p with
  | None => throw (quoted "refusing to write an unsafe/traversing path: '" p)
  | Some safe =>
      let* s := settings in
      if negb (passes s p) then mret' tt
      else
        let dir := parent (hostPath safe) in
        (whenM (truthy dir) then
           (let* there := awaitH (HExists dir) id in whenM (negb there) then awaitH (Mkdir dir) id)) ;;
        awaitH (WriteBinary (hostPath safe) b) id ;;
        fsyncDurable safe ;;
        tell (ConfigWritten p)
  end.
Definition remove (p : jstr) : Host unit :=
  match Safe.asSafeVaultPath p with
  | None => throw (quoted "refusing to remove an unsafe/traversing path: '" p)
  | Some safe =>
      let* s := settings in
      if negb (passes s p) then mret' tt
      else
        tell (SelfWrite p) ;;
        let* there := awaitH (HExists (hostPath safe)) id in
        if negb there then mret' tt
        else
          let* trashed :=
            (if trashLocal f then try_catch (awaitH (TrashLocal (hostPath safe)) id ;; mret' true) (λ _, mret' false)
             else mret' false : Host bool) in
          if (trashed : bool) then mret' tt else awaitH (HRemove (hostPath safe)) id
  end.

(** ** Streamed writes

    A handle exists only for a path that [openAppend] accepted, and keeps its
    [safe] path; without one the calls below cannot be made. *)
Definition tmpOf (safe : Safe.SafeVaultPath) : jstr := rawFsAbs safe ++ PART.
Definition openAppend (p : jstr) : Host unit :=
  let* s := settings in
  if negb (passes s p) then throw (quoted "refusing to stream-write an excluded path: '" p)
  else match Safe.asSafeVaultPath p with
       | None => throw (quoted "refusing to write an unsafe/traversing path: '" p)
       | Some safe => awaitH (FsMkdir (dirname (rawFsAbs safe))) id ;; awaitH (FsOpen (tmpOf safe)) id
       end.
(** The loop of [append] over what is left of the bytes.  A positive count moves
    on by at least one byte, so as many turns as bytes are enough. *)
Fixpoint appendLoop (tmp : jstr) (fuel : nat) (rest : bytes) : Host unit :=
  match rest, fuel with
  | [], _ => mret' tt
  | _ :: _, 0 => throw (ErrMsg [])
  | _ :: _, Datatypes.S fuel =>
      let* n := awaitH (FsWrite tmp rest) id in
      if (n <=? 0)%Z then throw (quoted "short write to '" tmp)
      else appendLoop tmp fuel (drop (Z.to_nat n) rest)
  end.
Definition withHandle (p : jstr) (k : Safe.SafeVaultPath → Host unit) : Host unit :=
  match Safe.asSafeVaultPath p with Some safe => k safe | None => throw (ErrMsg (js "no handle")) end.
Definition append (p : jstr) (b : bytes) : Host unit := withHandle p (λ safe, appendLoop (tmpOf safe) (length b) b).
Definition close (p : jstr) : Host unit :=
  withHandle p (λ safe,
    awaitH (FsSync (tmpOf safe)) id ;; awaitH (FsClose (tmpOf safe)) id ;;
    awaitH (FsRename (tmpOf safe) (rawFsAbs safe)) id ;;
    tell (FsDurable (dirname (rawFsAbs safe))) ;;
    tell (ConfigWritten p)).
Definition abort (p : jstr) : Host unit :=
  withHandle p (λ safe,
    try_catch (awaitH (FsClose (tmpOf safe)) id) (λ _, mret' tt) ;;
    try_catch (awaitH (FsRm (tmpOf safe)) id) (λ _, mret' tt)).

(** ** The adapter *)
Definition serve (o : Op) : io (cmd HOp State Err) (cans (Ans := HAns)) (Ans o) :=
  match o with
  | IoList => list_
  | IoRead p => read p
  | IoWrite p b => write p b
  | IoRemove p => remove p
  | IoExists p => exists_ p
  | AppendOpen p => openAppend p
  | AppendChunk p b => append p b
  | AppendClose p => close p
  | AppendAbort p => abort p
  | o => Vis (Call (Else o)) (λ r, Ret r)
  end.
Definition pass {A} (c : cmd HOp State Err) (k : cans (Ans := HAns) c → hostTree A) : hostTree A := Vis c k.
Fixpoint interp {A} (m : io (cmd Op State Err) (cans (Ans := Ans)) A) : hostTree A :=
  match m with
  | Ret a => Ret a
  | Vis c k =>
      match c return (cans c → hostTree A) → hostTree A with
      | Call o => λ k', io_bind k' (serve o)
      | Upd g => λ k', pass (Upd g) k'
      | Pick => λ k', pass Pick k'
      | NewPool => λ k', pass NewPool k'
      | NextItem i => λ k', pass (NextItem i) k'
      | StopPool i e => λ k', pass (StopPool i e) k'
      | PoolError i => λ k', pass (PoolError i) k'
      end (λ r, interp (k r))
  end.

(** ** What reaches the host *)
Implicit Types (h : HostHistory).
(** The path was checked: it cannot leave the vault, and under the settings of
    some moment it is in the adapter's scope. *)
Definition inScope h (p : jstr) : Prop := ∃ s, called h ReadSettings s ∧ passes s p = true.
Definition cleared h (p : jstr) : Prop := Safe.isSafeVaultPath p = true ∧ inScope h p.
Definition part (p : jstr) : jstr := absPath (normalizePath p) ++ PART.
Definition confined h (o : HOp) : Prop :=
  match o with
  | ReadBinary q => ∃ p, Safe.isSafeVaultPath p = true ∧ q = normalizePath p ∧ (forMount f = true → inScope h p)
  | HExists q =>
      q ∈ Foreign.FOREIGN_ROOT_MARKERS ∨
      ∃ p, Safe.isSafeVaultPath p = true ∧ (q = normalizePath p ∨ q = parent (normalizePath p))
  | WriteBinary q _ | TrashLocal q => ∃ p, cleared h p ∧ q = normalizePath p
  | HRemove q =>
      ∃ p, cleared h p ∧ q = normalizePath p ∧ called h (HExists q) (Ok true) ∧
           (trashLocal f = false ∨ ∃ e, called h (TrashLocal q) (Throw e))
  | Mkdir q => ∃ p, cleared h p ∧ q = parent (normalizePath p)
  | FsMkdir q => ∃ p, cleared h p ∧ q = dirname (absPath (normalizePath p))
  | FsOpen q => ∃ p, cleared h p ∧ q = part p
  | FsWrite q _ | FsSync q | FsClose q | FsRm q => ∃ p, Safe.isSafeVaultPath p = true ∧ q = part p
  | FsRename q q' =>
      ∃ p, Safe.isSafeVaultPath p = true ∧ q = part p ∧ q' = absPath (normalizePath p) ∧
           called h (FsSync q) (Ok tt) ∧ called h (FsClose q) (Ok tt)
  | FsDurable q =>
      ∃ p, Safe.isSafeVaultPath p = true ∧ (q = absPath (normalizePath p) ∨ q = dirname (absPath (normalizePath p)))
  | AStat q => inScope h q
  | ReadSettings | GetFiles | AList _ | NoteForeign _ | SelfWrite _ | ConfigWritten _ | Else _ => True
  end.
Lemma inScope_mono h h' p : h ⊑ h' → inScope h p → inScope h' p.
Proof. intros Hs (s & Hc & Hp). exists s. split; [by eapply called_mono|done]. Qed.
Lemma cleared_mono h h' p : h ⊑ h' → cleared h p → cleared h' p.
Proof. intros Hs [Hp Hi]. split; [done|by eapply inScope_mono]. Qed.
#[local] Instance confined_justified : Justified confined.
Proof.
  intros h h' o Hs. destruct o; cbn; try done.
  - intros (q & Hq & -> & Hm). exists q. split_and!; [done..|]. intros Hf. eapply inScope_mono; eauto.
  - intros (q & Hc & ->). exists q. split; [by eapply cleared_mono|done].
  - intros (q & Hc & ->). exists q. split; [by eapply cleared_mono|done].
  - intros (q & Hc & ->). exists q. split; [by eapply cleared_mono|done].
  - intros (q & Hc & -> & He & Ht). exists q. split_and!; [by eapply cleared_mono|done|by eapply called_mono|].
    destruct Ht as [Ht|[e Ht]]; [by left|right; exists e; by eapply called_mono].
  - by apply inScope_mono.
  - intros (q & Hc & ->). exists q. split; [by eapply cleared_mono|done].
  - intros (q & Hc & ->). exists q. split; [by eapply cleared_mono|done].
  - intros (q & Hq & -> & -> & Hc & Hc'). exists q. split_and!; try done; by eapply called_mono.
Qed.
Abbreviation fine := (λ _ _, True).
Lemma asSafe_Some p sp : Safe.asSafeVaultPath p = Some sp → Safe.isSafeVaultPath p = true ∧ proj1_sig sp = p.
Proof. unfold Safe.asSafeVaultPath. case_decide; [|done]. by intros [= <-]. Qed.
Lemma safe_settings (Q : res Err Settings → HostHistory → Prop) h :
  (∀ s h', h ⊑ h' → called h' ReadSettings s → Q (Ok s) h') → safe confined settings Q h.
Proof. intros H. apply safe_call; [done|exact H]. Qed.
Lemma safe_awaitH {A} o (view : HAns o → res Err A) (Q : res Err A → HostHistory → Prop) h :
  confined h o → (∀ r h', h ⊑ h' → called h' o r → Q (view r) h') → safe confined (awaitH o view) Q h.
Proof. apply safe_callE. Qed.
Lemma host_tell o (Q : res Err unit → HostHistory → Prop) h :
  confined h o → (∀ h', h ⊑ h' → Q (Ok tt) h') → safe confined (tell o) Q h.
Proof.
  intros Ho HQ. apply safe_bind. apply safe_call; [done|]. intros r h' Hs _ _. apply safe_ret. by apply HQ.
Qed.
Lemma safe_seq {A B} (m : Host A) (k : A → Host B) h :
  safe confined m fine h → (∀ a h', h ⊑ h' → safe confined (k a) fine h') → safe confined (bindM m k) fine h.
Proof.
  intros Hm Hk. apply safe_bind. eapply safe_mono; [|exact Hm]. intros [a|e] h' Hs _ _; [by apply Hk|done].
Qed.
Lemma safe_read p h : safe confined (read p) fine h.
Proof.
  apply safe_bind, safe_settings. intros s h1 _ Hs _. destruct (forMount f && _) eqn:He; [by apply safe_throw|].
  destruct (Safe.asSafeVaultPath p) as [sp|] eqn:Hp; [|by apply safe_throw]. apply asSafe_Some in Hp as [Hp Hq].
  apply safe_awaitH; [|done]. exists p. unfold hostPath. rewrite Hq. split_and!; [done..|].
  intros Hf. rewrite Hf in He. exists s. split; [done|]. by destruct (passes s p).
Qed.
Lemma safe_exists p h : safe confined (exists_ p) fine h.
Proof.
  apply safe_bind, safe_settings. intros s h1 _ Hs _. destruct (forMount f && _); [by apply safe_ret|].
  destruct (Safe.asSafeVaultPath p) as [sp|] eqn:Hp; [|by apply safe_ret]. apply asSafe_Some in Hp as [Hp Hq].
  apply safe_awaitH; [|done]. right. exists p. unfold hostPath. rewrite Hq. auto.
Qed.
Lemma safe_fsyncDurable sp h : Safe.isSafeVaultPath (proj1_sig sp) = true → safe confined (fsyncDurable sp) fine h.
Proof.
  intros Hp. unfold fsyncDurable. destruct (desktop f); [|by apply safe_ret].
  apply safe_bind, host_tell; [exists (proj1_sig sp); by auto|]. intros h1 _ _.
  apply host_tell; [exists (proj1_sig sp); by auto|done].
Qed.
Lemma host_write p b h : safe confined (write p b) fine h.
Proof.
  unfold write. destruct (Safe.asSafeVaultPath p) as [sp|] eqn:Hp; [|by apply safe_throw].
  apply asSafe_Some in Hp as [Hp Hq]. apply safe_bind, safe_settings. intros s h1 _ Hs _.
  destruct (negb (passes s p)) eqn:Hpass; [by apply safe_ret|]. apply negb_false_iff in Hpass.
  assert (Hc : ∀ h', h1 ⊑ h' → cleared h' p) by (intros h' H; split; [done|]; exists s; split; [by eapply called_mono|done]).
  unfold hostPath. rewrite Hq. apply safe_seq.
  - destruct (truthy (parent (normalizePath p))); [|by apply safe_ret].
    apply safe_seq; [apply safe_awaitH; [right; exists p; auto|done]|]. intros there h2 H2.
    destruct there; cbn [negb]; [by apply safe_ret|]. apply safe_awaitH; [exists p; split; [by apply Hc|done]|done].
  - intros _ h2 H2. apply safe_seq; [apply safe_awaitH; [exists p; split; [by apply Hc|done]|done]|].
    intros _ h3 H3. apply safe_seq; [apply safe_fsyncDurable; by rewrite Hq|]. intros _ h4 H4. by apply host_tell.
Qed.
Lemma safe_remove p h : safe confined (remove p) fine h.
Proof.
  unfold remove. destruct (Safe.asSafeVaultPath p) as [sp|] eqn:Hp; [|by apply safe_throw].
  apply asSafe_Some in Hp as [Hp Hq]. apply safe_bind, safe_settings. intros s h1 _ Hs _.
  destruct (negb (passes s p)) eqn:Hpass; [by apply safe_ret|]. apply negb_false_iff in Hpass.
  assert (Hc : ∀ h', h1 ⊑ h' → cleared h' p) by (intros h' H; split; [done|]; exists s; split; [by eapply called_mono|done]).
  unfold hostPath. rewrite Hq. apply safe_bind, host_tell; [done|]. intros h2 H2 _.
  apply safe_bind, safe_awaitH; [right; exists p; auto|]. intros r h3 H3 He _. destruct r as [there|e]; cbn [id]; [|done].
  destruct there; cbn [negb]; [|by apply safe_ret].
  assert (Hrm : ∀ h', h3 ⊑ h' → (trashLocal f = false ∨ ∃ e, called h' (TrashLocal (normalizePath p)) (Throw e)) →
                      safe confined (awaitH (HRemove (normalizePath p)) id) fine h').
  { intros h' H Ht. apply safe_awaitH; [|done]. exists p. split_and!; [apply Hc; chain|done|by eapply called_mono|done]. }
  apply safe_bind. destruct (trashLocal f) eqn:Ht.
  - split; [exists p; split; [apply Hc; chain|done]|]. intros [u|e]; cbn.
    + done.
    + intros _. apply Hrm; [by apply sublist_inserts_r|]. right. exists e. apply called_snoc.
  - apply safe_ret. intros _. apply Hrm; [chain|by left].
Qed.
Lemma safe_openAppend p h : safe confined (openAppend p) fine h.
Proof.
  apply safe_bind, safe_settings. intros s h1 _ Hs _. destruct (negb (passes s p)) eqn:Hpass; [by apply safe_throw|].
  apply negb_false_iff in Hpass.
  destruct (Safe.asSafeVaultPath p) as [sp|] eqn:Hp; [|by apply safe_throw]. apply asSafe_Some in Hp as [Hp Hq].
  assert (Hc : ∀ h', h1 ⊑ h' → cleared h' p) by (intros h' H; split; [done|]; exists s; split; [by eapply called_mono|done]).
  unfold tmpOf, rawFsAbs, hostPath. rewrite Hq.
  apply safe_seq; [apply safe_awaitH; [exists p; split; [by apply Hc|done]|done]|]. intros _ h2 H2.
  apply safe_awaitH; [exists p; split; [by apply Hc|done]|done].
Qed.
Lemma safe_appendLoop p fuel b h :
  Safe.isSafeVaultPath p = true → safe confined (appendLoop (part p) fuel b) fine h.
Proof.
  intros Hp. revert b h. induction fuel as [|fuel IH]; intros [|x b] h; try done.
  apply safe_seq; [apply safe_awaitH; [by exists p|done]|]. intros n h1 _. destruct (n <=? 0)%Z; [done|apply IH].
Qed.
Lemma safe_withHandle p k h :
  (∀ sp, proj1_sig sp = p → Safe.isSafeVaultPath p = true → safe confined (k sp) fine h) → safe confined (withHandle p k) fine h.
Proof.
  intros Hk. unfold withHandle. destruct (Safe.asSafeVaultPath p) as [sp|] eqn:Hp; [|by apply safe_throw].
  apply asSafe_Some in Hp as [Hp Hq]. by apply Hk.
Qed.
Lemma safe_append p b h : safe confined (append p b) fine h.
Proof.
  apply safe_withHandle. intros sp Hq Hp. unfold tmpOf, rawFsAbs, hostPath. rewrite Hq. by apply safe_appendLoop.
Qed.
Lemma safe_close p h : safe confined (close p) fine h.
Proof.
  apply safe_withHandle. intros sp Hq Hp. unfold tmpOf, rawFsAbs, hostPath. rewrite Hq.
  apply safe_bind, safe_awaitH; [by exists p|]. intros [u|e] h1 _ Hc1 _; [|done].
  apply safe_bind, safe_awaitH; [by exists p|]. intros [u'|e] h2 H2 Hc2 _; [|done]. destruct u, u'.
  apply safe_seq; [apply safe_awaitH; [exists p; split_and!; try done; by eapply called_mono|done]|]. intros _ h3 _.
  apply safe_seq; [apply host_tell; [exists p; auto|done]|]. intros _ h4 _. by apply host_tell.
Qed.
Lemma host_try_fine {A} (m : Host A) (c : Err → Host A) h :
  safe confined m fine h → (∀ e h', safe confined (c e) fine h') → safe confined (try_catch m c) fine h.
Proof.
  intros Hm Hc. apply safe_try. eapply safe_mono; [|exact Hm]. intros [a|e] h' Hs _ _; [done|apply Hc].
Qed.
Lemma safe_abort p h : safe confined (abort p) fine h.
Proof.
  apply safe_withHandle. intros sp Hq Hp. unfold tmpOf, rawFsAbs, hostPath. rewrite Hq.
  apply safe_seq; [apply host_try_fine; [apply safe_awaitH; [by exists p|done]|done]|]. intros _ h1 _.
  apply host_try_fine; [apply safe_awaitH; [by exists p|done]|done].
Qed.
Lemma safe_map_each {A B} (l : list A) (g : A → Host B) h :
  (∀ x h', x ∈ l → h ⊑ h' → safe confined (g x) fine h') → safe confined (map_each l g) fine h.
Proof.
  revert h. induction l as [|x l IH]; intros h Hg; [done|]. cbn [map_each].
  apply safe_seq; [apply Hg; [left|done]|]. intros y h1 H1. apply safe_seq; [|done].
  apply IH. intros z h2 Hz H2. apply Hg; [by right|chain].
Qed.
(** The walk stats only what the settings let pass. *)
Lemma safe_walk s fuel dir h :
  called h ReadSettings s →
  safe confined (Walk.walk (λ d, awaitH (AList d) id) (λ p, awaitH (AStat p) id) (λ _ _, mret' tt) (passes s) fuel dir) fine h.
Proof.
  intros Hs. revert dir h Hs. induction fuel as [|fuel IH]; intros dir h Hs; [done|]. cbn [Walk.walk].
  split; [done|]. intros [l|e]; [|done]. cbn [io_bind id]. apply wp_bind. eapply wp_mono; [|apply safe_par_list; [exact _|]].
  - intros fs h' _. done.
  - assert (Hs' : called (h ++ [ev (Call (AList dir)) (Ok l)]) ReadSettings s)
      by (eapply called_mono; [|exact Hs]; by apply sublist_inserts_r).
    apply Forall_app. split; apply Forall_fmap, Forall_forall.
    + intros p [Hp _]%list_elem_of_filter. split; [|intros r; done]. exists s. split; [done|by apply Is_true_true_1].
    + intros g _. by apply IH.
Qed.
Lemma safe_list h : safe confined list_ fine h.
Proof.
  apply safe_bind, safe_settings. intros s h1 _ Hs _. apply safe_seq; [apply safe_call; done|]. intros fs h2 H2.
  apply safe_seq.
  - destruct (negb (forMount f)); [|done]. apply safe_seq; [|intros; by apply host_tell].
    apply safe_map_each. intros m h3 Hm H3. apply host_try_fine; [|done].
    apply safe_seq; [apply safe_awaitH; [by left|done]|]. intros [|] h4 _; done.
  - intros _ h3 H3. destruct (_ && _); [|done]. apply safe_seq; [|done]. unfold Walk.walkConfigTree.
    unfold safe. apply wp_bind. eapply wp_mono; [|apply safe_walk with (s := s); eapply called_mono; [|exact Hs]; chain]. done.
Qed.
Lemma serve_confined o h : safe confined (serve o) fine h.
Proof.
  destruct o; cbn [serve];
    first [apply safe_list|apply safe_read|apply host_write|apply safe_remove|apply safe_exists|apply safe_openAppend
          |apply safe_append|apply safe_close|apply safe_abort|split; done].
Qed.

(** ** A whole client over the adapter *)
Lemma interp_confined {A} (m : io (cmd Op State Err) (cans (Ans := Ans)) A) h : safe confined (interp m) fine h.
Proof.
  revert h. induction m as [a|c k IH]; intros h; [done|]. cbn [interp].
  destruct c as [o| | | | | |]; try (split; [done|]; intros r; apply IH).
  unfold safe. apply wp_bind. eapply wp_mono; [|apply serve_confined]. intros r h' _. apply IH.
Qed.

(** The adapter is the vault's boundary, whatever client runs over it and
    whatever the server sends: every host call it makes concerns a path that
    passed the traversal check; a file is written, trashed, removed or opened for
    streaming only when its path was also in the scope of the settings read for
    that operation; nothing is removed outright unless the trash refused it or
    does not exist; and a streamed file takes its place only after it was
    synced and closed. *)
Theorem host_confined {A} (m : io (cmd Op State Err) (cans (Ans := Ans)) A) h o k :
  reach (interp m) h (Vis (Call o) k) → confined h o.
Proof. intros Hr. exact (wp_adequacy _ _ _ _ (interp_confined m []) _ _ Hr). Qed.

(** ** What an operation that returns has done *)
Definition hev (o : HOp) (r : HAns o) : event (cmd HOp State Err) (cans (Ans := HAns)) := ev (Call o) r.
(** Every execution of [m] that returns satisfies [Q]. *)
Definition returns {A} (m : Host A) (Q : res Err A → HostHistory → Prop) : Prop := wp (λ _ _, True) m Q [].
Lemma returns_reach {A} (m : Host A) Q h r : returns m Q → reach m h (Ret r) → Q r h.
Proof. intros Hw Hr. exact (wp_adequacy _ _ _ _ Hw _ _ Hr). Qed.
Ltac events := cbn [app]; repeat first [apply sublist_nil|apply sublist_skip|apply sublist_nil_l|apply sublist_cons].
Ltac answer r := split; [done|]; intros r; cbn [io_bind id wp].

(** What a streamed write put on the disk: of the bytes of a call, the ones it counted. *)
Definition landed (e : event (cmd HOp State Err) (cans (Ans := HAns))) : bytes :=
  match projT1 e as c return cans c → bytes with
  | Call (FsWrite _ b) => λ r, match r with Ok n => take (Z.to_nat n) b | Throw _ => [] end
  | _ => λ _, []
  end (projT2 e).
Definition stuckWrite h (tmp : jstr) (e : Err) : Prop :=
  ∃ b, called h (FsWrite tmp b) (Throw e) ∨ ∃ n, called h (FsWrite tmp b) (Ok n) ∧ (n ≤ 0)%Z.
Lemma stuckWrite_later h e' tmp e : stuckWrite h tmp e → stuckWrite (e' :: h) tmp e.
Proof. intros [b H]. exists b. destruct H as [H|(n & H & Hn)]; [left|right; exists n]; unfold called in *; [by right|split; [by right|done]]. Qed.
Lemma appendLoop_reach tmp fuel b h r :
  length b ≤ fuel → reach (appendLoop tmp fuel b) h (Ret r) →
  match r with Ok _ => concat (landed <$> h) = b | Throw e => stuckWrite h tmp e end.
Proof.
  revert b h. induction fuel as [|fuel IH]; intros [|x b] h Hl Hr; cbn in Hl; try lia;
    try (apply reach_inv in Hr as [[-> [= ->]]|[]]; done).
  cbn [appendLoop] in Hr. apply reach_inv in Hr as [[_ H]|(n & h' & -> & Hr)]; [discriminate H|].
  cbn [io_bind id] in Hr. destruct n as [n|e].
  - destruct (Z.leb_spec n 0) as [Hn|Hn].
    + apply reach_inv in Hr as [[-> [= ->]]|[]]. exists (x :: b). right. exists n. split; [left|done].
    + apply IH in Hr; [|rewrite length_drop; cbn; lia]. destruct r as [u|e].
      * rewrite fmap_cons. cbn [concat]. rewrite Hr. cbn [landed hev projT1 projT2 ev]. apply take_drop.
      * by apply stuckWrite_later.
  - apply reach_inv in Hr as [[-> [= ->]]|[]]. exists (x :: b). left. left.
Qed.

(** A streamed chunk is on the disk whole or the write fails: when [append]
    returns, what the file system counted, call by call, is exactly the chunk,
    however short the single writes were; when it throws, a write failed or made
    no progress.  The loop always ends. *)
Theorem append_complete p b h r :
  reach (append p b) h (Ret r) →
  match r with
  | Ok _ => concat (landed <$> h) = b
  | Throw e => Safe.isSafeVaultPath p = false ∨ stuckWrite h (part p) e
  end.
Proof.
  unfold append, withHandle. destruct (Safe.asSafeVaultPath p) as [sp|] eqn:Hp.
  - apply asSafe_Some in Hp as [Hp Hq]. unfold tmpOf, rawFsAbs, hostPath. rewrite Hq. intros Hr.
    apply appendLoop_reach in Hr; [|done]. destruct r; [done|by right].
  - intros Hr. apply reach_inv in Hr as [[-> [= ->]]|[]]. left. unfold Safe.asSafeVaultPath in Hp.
    case_decide; [done|]. by destruct (Safe.isSafeVaultPath p).
Qed.

Definition wroteDurably (p : jstr) (b : bytes) : HostHistory :=
  hev (WriteBinary (normalizePath p) b) (Ok tt) ::
  (if desktop f then [hev (FsDurable (absPath (normalizePath p))) tt; hev (FsDurable (dirname (absPath (normalizePath p)))) tt]
   else []) ++ [hev (ConfigWritten p) tt].
(** A write of the host, of either kind, that succeeded. *)
Definition changed (e : event (cmd HOp State Err) (cans (Ans := HAns))) : bool :=
  match projT1 e as c return cans c → bool with
  | Call (WriteBinary _ _) | Call (FsRename _ _) | Call (TrashLocal _) | Call (HRemove _) =>
      λ r, match r with Ok _ => true | Throw _ => false end
  | _ => λ _, false
  end (projT2 e).
Definition unchanged h : Prop := Forall (λ e, changed e = false) h.
Definition writeOutcome (p : jstr) (b : bytes) (r : res Err unit) h : Prop :=
  match r with
  | Ok _ => (∃ s, h = [hev ReadSettings s] ∧ passes s p = false) ∨ (cleared h p ∧ wroteDurably p b ⊑ h)
  | Throw _ => unchanged h
  end.
(** The part of [write] after the folder was made. *)
Lemma write_tail p b sp h :
  proj1_sig sp = p → cleared h p → unchanged h →
  wp (λ _ _, True)
    (awaitH (WriteBinary (hostPath sp) b) id ;; fsyncDurable sp ;; tell (ConfigWritten p)) (writeOutcome p b) h.
Proof.
  intros Hq Hc Hno. unfold hostPath, fsyncDurable, rawFsAbs, hostPath. rewrite Hq. answer r.
  assert (Hc' : ∀ l, cleared (h ++ l) p) by (intros l; eapply cleared_mono; [|exact Hc]; by apply sublist_inserts_r).
  destruct r as [[]|e].
  - destruct (desktop f) eqn:Hd; cbn; repeat (split; [done|]; intros []); right; rewrite <- ?app_assoc; (split; [apply Hc'|]);
      unfold wroteDurably; rewrite Hd; apply sublist_inserts_l; events.
  - cbn. apply Forall_app. split; [done|]. by repeat constructor.
Qed.
(** A write that returns has happened and was made durable first: either the
    path is outside the settings' scope and nothing at all was done, or the
    whole content was written and, on the desktop, the file and its folder were
    synced after that and before the caller learns of it (and records the base).
    When it throws, no host call that changes a file had succeeded. *)
Theorem write_outcome p b h r : reach (write p b) h (Ret r) → writeOutcome p b r h.
Proof.
  apply returns_reach. unfold returns, write. destruct (Safe.asSafeVaultPath p) as [sp|] eqn:Hp;
    [|by constructor].
  apply asSafe_Some in Hp as [Hp Hq].
  answer s. destruct (passes s p) eqn:Hs; cbn [negb]; [|by left; exists s].
  assert (Hc : ∀ l, cleared (hev ReadSettings s :: l) p) by (intros l; split; [done|]; exists s; split; [left|done]).
  unfold hostPath at 1 2 3. rewrite Hq. destruct (truthy (parent (normalizePath p))).
  - answer there. destruct there as [[|]|e]; cbn [negb io_bind].
    + apply write_tail; [done|apply Hc|by repeat constructor].
    + answer m. destruct m as [u|e]; cbn [io_bind].
      * apply write_tail; [done|apply Hc|by repeat constructor].
      * by repeat constructor.
    + by repeat constructor.
  - apply write_tail; [done|apply Hc|by repeat constructor].
Qed.

Definition closeOutcome (p : jstr) (r : res Err unit) h : Prop :=
  match r with
  | Ok _ =>
      h = [hev (FsSync (part p)) (Ok tt); hev (FsClose (part p)) (Ok tt);
           hev (FsRename (part p) (absPath (normalizePath p))) (Ok tt);
           hev (FsDurable (dirname (absPath (normalizePath p)))) tt; hev (ConfigWritten p) tt]
  | Throw _ => unchanged h
  end.
(** A streamed file replaces its target in one step, after it is whole and
    durable: [close] returns only when the temporary file was synced, closed and
    renamed, in this order, and the folder synced after; and it never throws
    once the rename has succeeded, so a conflict copy the caller wrote just
    before is dropped only when the target is untouched. *)
Theorem close_contract p h r : reach (close p) h (Ret r) → closeOutcome p r h.
Proof.
  apply returns_reach.
  unfold returns, close, withHandle. destruct (Safe.asSafeVaultPath p) as [sp|] eqn:Hp; [|by constructor].
  apply asSafe_Some in Hp as [_ Hq]. unfold tmpOf, rawFsAbs, hostPath. rewrite Hq. fold (part p).
  answer r1. destruct r1 as [[]|e]; cbn; [|by repeat constructor].
  answer r2. destruct r2 as [[]|e]; cbn; [|by repeat constructor].
  answer r3. destruct r3 as [[]|e]; cbn; [|by repeat constructor].
  by repeat (split; [done|]; intros []).
Qed.

Definition removeOutcome (p : jstr) (r : res Err unit) h : Prop :=
  match r with
  | Ok _ =>
      (cleared h p ∧
       (called h (TrashLocal (normalizePath p)) (Ok tt) ∨
        (called h (HRemove (normalizePath p)) (Ok tt) ∧
         (trashLocal f = false ∨ ∃ e, called h (TrashLocal (normalizePath p)) (Throw e))))) ∨
      (unchanged h ∧ ((∃ s, called h ReadSettings s ∧ passes s p = false) ∨ called h (HExists (normalizePath p)) (Ok false)))
  | Throw _ => unchanged h
  end.
(** A removal that returns leaves the file in the trash, or outright removed
    only where the trash refused it or does not exist; where the path is outside
    the scope or the file already gone, nothing was changed.  When it throws,
    nothing was changed either. *)
Theorem remove_outcome p h r : reach (remove p) h (Ret r) → removeOutcome p r h.
Proof.
  apply returns_reach.
  unfold returns, remove. destruct (Safe.asSafeVaultPath p) as [sp|] eqn:Hp; [|by constructor].
  apply asSafe_Some in Hp as [Hp Hq]. unfold hostPath. rewrite Hq.
  answer s. destruct (passes s p) eqn:Hs; cbn [negb].
  2: { right. split; [by repeat constructor|]. left. exists s. split; [left|done]. }
  assert (Hc : ∀ l, cleared (hev ReadSettings s :: l) p) by (intros l; split; [done|]; exists s; split; [left|done]).
  answer u. answer there. destruct there as [there|e]; cbn; [|by repeat constructor].
  destruct there; cbn; [|right; split; [by repeat constructor|]; right; do 2 right; left].
  destruct (trashLocal f) eqn:Ht; cbn.
  - answer r1. destruct r1 as [[]|e]; cbn.
    + left. split; [apply Hc|]. left. do 3 right. left.
    + answer r2. destruct r2 as [[]|e2]; cbn; [|by repeat constructor].
      left. split; [apply Hc|]. right. split; [do 4 right; left|]. right. exists e. do 3 right. left.
  - answer r2. destruct r2 as [[]|e2]; cbn; [|by repeat constructor].
    left. split; [apply Hc|]. right. split; [do 3 right; left|by left].
Qed.

(** ** The reconciliation over the adapter *)
(** The client's history and the host's underneath it: each call of the client
    is one complete execution of the adapter's operation. *)
Inductive carries : History → HostHistory → Prop :=
| carries_nil : carries [] []
| carries_call hm h o r ho : carries hm h → reach (serve o) ho (Ret r) → carries (hm ++ [ev (Call o) r]) (h ++ ho)
| carries_other hm h c (c' : cmd HOp State Err) r r' :
    carries hm h → (∀ o, c ≠ Call o) → (∀ o, c' ≠ Call o) → carries (hm ++ [ev c r]) (h ++ [ev c' r']).
Lemma bind_reach {A B} (k : A → hostTree B) (m : hostTree A) h x :
  reach (io_bind k m) h x →
  (∃ m', reach m h m' ∧ x = io_bind k m' ∧ ∀ a, m' ≠ Ret a) ∨
  (∃ a h1 h2, h = h1 ++ h2 ∧ reach m h1 (Ret a) ∧ reach (k a) h2 x).
Proof.
  revert h. induction m as [a|c g IH]; intros h Hr.
  - right. exists a, [], h. split_and!; [done|constructor|done].
  - cbn [io_bind] in Hr. apply reach_inv in Hr as [[-> ->]|(r & h' & -> & Hr)].
    + left. exists (Vis c g). split_and!; [constructor|done|done].
    + destruct (IH r _ Hr) as [(m' & Hm & -> & Hne)|(a & h1 & h2 & -> & Hm & Hk)].
      * left. exists m'. split_and!; [by constructor|done|done].
      * right. exists a, (ev c r :: h1), h2. split_and!; [done|by constructor|done].
Qed.
Lemma carries_app hm1 h1 hm2 h2 : carries hm1 h1 → carries hm2 h2 → carries (hm1 ++ hm2) (h1 ++ h2).
Proof.
  intros H1. induction 1 as [|hm h o r ho _ IH Hs|hm h c c' r r' _ IH Hc Hc'];
    [by rewrite !app_nil_r|rewrite !app_assoc; by constructor..].
Qed.
Lemma interp_reach {A} (m : io (cmd Op State Err) (cans (Ans := Ans)) A) h o k :
  reach (interp m) h (Vis (Call o) k) →
  ∃ hm h1 h2 op km, reach m hm (Vis (Call op) km) ∧ carries hm h1 ∧ h = h1 ++ h2 ∧
    ∃ k', reach (serve op) h2 (Vis (Call o) k').
Proof.
  revert h. induction m as [a|c g IH]; intros h Hr; [by apply reach_inv in Hr as [[_ ?]|[]]|].
  assert (Hother : ∀ (c' : cmd HOp State Err) (r' : cans c') r h', (∀ o, c ≠ Call o) → (∀ o, c' ≠ Call o) →
    reach (interp (g r)) h' (Vis (Call o) k) →
    ∃ hm h1 h2 op km, reach (Vis c g) hm (Vis (Call op) km) ∧ carries hm h1 ∧ ev c' r' :: h' = h1 ++ h2 ∧
      ∃ k', reach (serve op) h2 (Vis (Call o) k')).
  { intros c' r' r h' Hc Hc' Hr'. apply IH in Hr' as (hm & h1 & h2 & op & km & Hm & Hcar & -> & Hs).
    exists (ev c r :: hm), (ev c' r' :: h1), h2, op, km. split_and!; [by constructor| |done|done].
    apply (carries_app [ev c r] [ev c' r'] hm h1); [|done]. apply (carries_other [] []); [constructor|done..]. }
  cbn [interp] in Hr. destruct c as [op| | | | | |];
    try (apply reach_inv in Hr as [[_ ?]|(r & h' & -> & Hr)]; [done|]; by eapply Hother).
  apply bind_reach in Hr as [(m' & Hm & Hx & Hne)|(r & h1 & h2 & -> & Hs & Hr)].
  - destruct m' as [a|c' k']; [by destruct (Hne a)|]. cbn [io_bind] in Hx. injection Hx as Hx _. subst c'.
    exists [], [], h, op, g. split_and!; [constructor|constructor|done|by exists k'].
  - apply IH in Hr as (hm & h1' & h2' & op' & km & Hm & Hcar & -> & Hs').
    exists (ev (Call op) r :: hm), (h1 ++ h1'), h2', op', km. split_and!; [by constructor| |by rewrite app_assoc|done].
    apply (carries_app [ev (Call op) r] h1 hm h1'); [|done].
    apply (carries_call [] [] op r h1); [constructor|done].
Qed.

(** Which operation of the interface a change of the disk comes from. *)
Definition origin (op : Op) (o : HOp) : Prop :=
  match o with
  | WriteBinary q b => ∃ p, op = IoWrite p b ∧ q = normalizePath p
  | TrashLocal q | HRemove q => ∃ p, op = IoRemove p ∧ q = normalizePath p
  | FsWrite q b => ∃ p b', op = AppendChunk p b' ∧ q = part p
  | FsRename _ q => ∃ p, op = AppendClose p ∧ q = absPath (normalizePath p)
  | Else op' => op' = op
  | _ => True
  end.
Abbreviation from op := (λ (_ : HostHistory) o, origin op o).
Lemma seq_fine (I : HostHistory → HOp → Prop) {A B} (m : Host A) (k : A → Host B) h :
  safe I m fine h → (∀ a h', safe I (k a) fine h') → safe I (bindM m k) fine h.
Proof.
  intros Hm Hk. apply safe_bind. eapply safe_mono; [|exact Hm]. intros [a|e] h' Hs _ _; [by apply Hk|done].
Qed.
Lemma try_fine (I : HostHistory → HOp → Prop) {A} (m : Host A) (c : Err → Host A) h :
  safe I m fine h → (∀ e h', safe I (c e) fine h') → safe I (try_catch m c) fine h.
Proof. intros Hm Hc. apply safe_try. eapply safe_mono; [|exact Hm]. intros [a|e] h' Hs _ _; [done|apply Hc]. Qed.
Lemma one_call (I : HostHistory → HOp → Prop) {A} o (view : HAns o → res Err A) h :
  I h o → safe I (awaitH o view) fine h.
Proof. intros Ho. split; done. Qed.
(** Follows the code; leaves the calls that change the disk. *)
Ltac follow :=
  repeat first
    [ done
    | match goal with
      | |- safe _ (bindM _ _) _ _ => apply seq_fine; [|intros ? ?]
      | |- safe _ (try_catch _ _) _ _ => apply try_fine; [|intros ? ?]
      | |- safe _ (awaitH _ _) _ _ => apply one_call
      | |- safe _ (tell _) _ _ => apply seq_fine; [|intros ? ?]
      | |- safe _ (call _) _ _ => split; [|done]
      | |- safe _ settings _ _ => split; [done|done]
      | |- safe _ (match ?x with _ => _ end) _ _ => destruct x eqn:?
      end ].
Lemma walk_origin op (ok : jstr → bool) fuel dir h :
  safe (from op) (Walk.walk (λ d, awaitH (AList d) id) (λ p, awaitH (AStat p) id) (λ _ _, mret' tt) ok fuel dir) fine h.
Proof.
  revert dir h. induction fuel as [|fuel IH]; intros dir h; [done|]. cbn [Walk.walk].
  split; [done|]. intros [l|e]; [|done]. cbn [io_bind id]. apply wp_bind.
  eapply wp_mono; [|apply safe_par_list; [intros ? ? ? _ Ho; exact Ho|]]; [done|].
  apply Forall_app. split; apply Forall_fmap, Forall_forall; intros x _; [done|apply IH].
Qed.
Lemma map_each_fine (I : HostHistory → HOp → Prop) {A B} (l : list A) (g : A → Host B) h :
  (∀ x h', safe I (g x) fine h') → safe I (map_each l g) fine h.
Proof. intros Hg. revert h. induction l as [|x l IH]; intros h; [done|]. cbn [map_each]. by follow. Qed.
Lemma appendLoop_origin p b fuel rest h : safe (from (AppendChunk p b)) (appendLoop (part p) fuel rest) fine h.
Proof.
  revert rest h. induction fuel as [|fuel IH]; intros [|x rest] h; cbn [appendLoop]; follow; [by exists p, b].
Qed.
Lemma serve_origin op h : safe (from op) (serve op) fine h.
Proof.
  assert (Hp : ∀ p sp, Safe.asSafeVaultPath p = Some sp → hostPath sp = normalizePath p)
    by (intros p sp [_ H]%asSafe_Some; unfold hostPath; by rewrite H).
  destruct op; cbn [serve]; try (split; [done|done]).
  - unfold list_. follow; [apply map_each_fine; intros; unfold probeMarker; by follow|].
    unfold Walk.walkConfigTree, safe. apply wp_bind. eapply wp_mono; [|apply walk_origin]. done.
  - unfold read. by follow.
  - unfold write, fsyncDurable. follow. erewrite Hp by done. by exists path.
  - unfold remove. follow; erewrite Hp by done; by exists path.
  - unfold exists_. by follow.
  - unfold openAppend. by follow.
  - unfold append, withHandle. follow. unfold tmpOf, rawFsAbs. erewrite Hp by done. apply appendLoop_origin.
  - unfold close, withHandle. follow. unfold tmpOf, rawFsAbs. erewrite Hp by done. by exists path.
  - unfold abort, withHandle. by follow.
Qed.

End Adapter.

(** ** A pass over the adapter *)
Section Pass.
Context (nfc lowerCase : jstr → jstr) (decodeUtf8 : bytes → option jstr) (decodeLossy : bytes → jstr)
        (encodeUtf8 : jstr → bytes) (sha256hex : bytes → jstr) (d : Reconcile.One.Deps).
Context (sha_nonempty : ∀ b, sha256hex b ≠ []).
Context (normalizePath absPath dirname : jstr → jstr) (f : Platform) (depth : nat).

(** C22: The promises of a pass reach the disk: whatever the host answers, every
    call a pass makes of Obsidian or of the file system is confined, and it is
    made on behalf of one call of the reconciler that the pass's own history
    allowed; what is written, trashed, removed or renamed into place is what
    that call names. *)
Theorem disk_changes_are_allowed j hb o k :
  reach (interp nfc lowerCase normalizePath absPath dirname f depth
           (Safety.runJob nfc lowerCase decodeUtf8 decodeLossy encodeUtf8 sha256hex d j)) hb (Vis (Call o) k) →
  confined nfc lowerCase normalizePath absPath dirname f hb o ∧
  ∃ hm h1 h2 own op,
    hb = h1 ++ h2 ∧ carries nfc lowerCase normalizePath absPath dirname f depth hm h1 ∧ own ⊑ hm ∧
    Safety.allowed nfc decodeUtf8 decodeLossy encodeUtf8 sha256hex d (Safety.givenTo j) own op ∧
    origin normalizePath absPath op o.
Proof using sha_nonempty.
  intros Hr. split; [by eapply host_confined|].
  apply interp_reach in Hr as (hm & h1 & h2 & op & km & Hm & Hc & -> & k' & Hs).
  apply (wp_adequacy _ _ _ _ (Safety.job_safe nfc lowerCase decodeUtf8 decodeLossy encodeUtf8 sha256hex sha_nonempty d j []))
    in Hm as (own & Hown & Ha).
  exists hm, h1, h2, own, op. split_and!; [done..|].
  exact (wp_adequacy _ _ _ _ (serve_origin nfc lowerCase normalizePath absPath dirname f depth op []) _ _ Hs).
Qed.
End Pass.

(** ** A host for the witnesses *)
Definition hostWorld (w : Demo.World) (o : HOp) : HAns o * Demo.World :=
  match o return HAns o * Demo.World with
  | ReadSettings => (withCore true, w)
  | GetFiles => ((λ e, (e.1, {| st_size := len e.2; st_mtime := 0 |})) <$> Demo.files w, w)
  | HExists p => (Ok (Demo.onDisk w p), w)
  | ReadBinary p => (Demo.found (jget (Demo.files w) p), w)
  | WriteBinary p b => (Ok tt, Demo.setFiles (jset (Demo.files w) p b) w)
  | TrashLocal p | HRemove p => (Ok tt, Demo.setFiles (jdel (Demo.files w) p) w)
  | AList d => (Ok {| Walk.files := (if d === js ".obsidian" then [js ".obsidian/app.json"] else []); Walk.folders := [] |}, w)
  | AStat _ => (Ok None, w)
  | FsWrite _ _ => (Ok 2%Z, w)
  | Mkdir _ | FsMkdir _ | FsOpen _ | FsSync _ | FsClose _ | FsRename _ _ | FsRm _ => (Ok tt, w)
  | FsDurable _ | NoteForeign _ | SelfWrite _ | ConfigWritten _ => (tt, w)
  | Else o => Demo.world w o
  end.
Definition demoPlatform : Platform := {| forMount := false; desktop := true; trashLocal := true |}.
Definition vaultRoot (p : jstr) : jstr := js "/vault/" ++ p.
Definition demoInterp {A} (m : io (cmd Op State Err) (cans (Ans := Ans)) A) : hostTree A :=
  interp id id id vaultRoot parent demoPlatform 3 m.
Definition demoTree (j : Safety.Job) : hostTree (res Err unit) :=
  demoInterp (Safety.runJob id id Demo.dec id id Demo.sha Demo.deps j).
Definition demoConf : conf State Err Demo.World := Conf Demo.world0 (Demo.state Demo.base0) [] 0.
Definition theirs : HOp := WriteBinary (js "a.md") (js "theirs").
Definition isTheirs (o : HOp) : bool := match o with WriteBinary p _ => p === js "a.md" | _ => false end.

Example host_confined_witness : ∃ h k,
  reach (demoTree Safety.JAll) h (Vis (Call theirs) k) ∧
  ∃ p, cleared id id demoPlatform h p ∧ js "a.md" = id p.
Proof.
  destruct (picked_reach hostWorld Demo.fair isTheirs (demoTree Safety.JAll) demoConf theirs) as (h & k & Hr);
    [vm_compute; reflexivity|].
  exists h, k. split; [exact Hr|]. exact (host_confined id id id vaultRoot parent demoPlatform 3 _ h theirs k Hr).
Defined.
Example disk_changes_are_allowed_witness : ∃ h own op,
  (∃ k, reach (demoTree Safety.JAll) h (Vis (Call theirs) k)) ∧
  Safety.allowed id Demo.dec id id Demo.sha Demo.deps [] own op ∧ op = IoWrite (js "a.md") (js "theirs").
Proof.
  destruct (picked_reach hostWorld Demo.fair isTheirs (demoTree Safety.JAll) demoConf theirs) as (h & k & Hr);
    [vm_compute; reflexivity|].
  destruct (disk_changes_are_allowed id id Demo.dec id id Demo.sha Demo.deps Demo.sha_nonempty id vaultRoot parent
              demoPlatform 3 Safety.JAll h theirs k Hr) as (_ & hm & h1 & h2 & own & op & _ & _ & _ & Ha & p & Hop & Hp).
  exists h, own, op. split; [exists k; exact Hr|]. split; [exact Ha|]. rewrite Hop. f_equal. symmetry. exact Hp.
Defined.
(** A file of five bytes, written two at a time. *)
Definition demoRun (m : Host unit) : res Err unit := (run hostWorld Demo.greedy m demoConf).1.
Example append_complete_witness : ∃ h,
  reach (append id vaultRoot (js "big.md") (js "hello")) h (Ret (Ok tt)) ∧ concat (landed <$> h) = js "hello".
Proof.
  destruct (run_reach hostWorld Demo.greedy (append id vaultRoot (js "big.md") (js "hello")) demoConf) as [h Hr].
  replace (run _ _ _ _).1 with (Ok (E := Err) tt) in Hr by (vm_compute; reflexivity). exists h. split; [exact Hr|].
  exact (append_complete id vaultRoot (js "big.md") (js "hello") h (Ok tt) Hr).
Defined.
Example write_outcome_witness : ∃ h,
  reach (write id id id vaultRoot parent demoPlatform (js "a.md") (js "theirs")) h (Ret (Ok tt)) ∧
  writeOutcome id id id vaultRoot parent demoPlatform (js "a.md") (js "theirs") (Ok tt) h.
Proof.
  destruct (run_reach hostWorld Demo.greedy (write id id id vaultRoot parent demoPlatform (js "a.md") (js "theirs")) demoConf) as [h Hr].
  replace (run _ _ _ _).1 with (Ok (E := Err) tt) in Hr by (vm_compute; reflexivity). exists h. split; [exact Hr|].
  exact (write_outcome id id id vaultRoot parent demoPlatform (js "a.md") (js "theirs") h (Ok tt) Hr).
Defined.
Example close_contract_witness : ∃ h,
  reach (close id vaultRoot parent (js "big.md")) h (Ret (Ok tt)) ∧ closeOutcome id vaultRoot parent (js "big.md") (Ok tt) h.
Proof.
  destruct (run_reach hostWorld Demo.greedy (close id vaultRoot parent (js "big.md")) demoConf) as [h Hr].
  replace (run _ _ _ _).1 with (Ok (E := Err) tt) in Hr by (vm_compute; reflexivity). exists h. split; [exact Hr|].
  exact (close_contract id vaultRoot parent (js "big.md") h (Ok tt) Hr).
Defined.
Example remove_outcome_witness : ∃ h,
  reach (remove id id id demoPlatform (js "old.md")) h (Ret (Ok tt)) ∧ removeOutcome id id id demoPlatform (js "old.md") (Ok tt) h.
Proof.
  destruct (run_reach hostWorld Demo.greedy (remove id id id demoPlatform (js "old.md")) demoConf) as [h Hr].
  replace (run _ _ _ _).1 with (Ok (E := Err) tt) in Hr by (vm_compute; reflexivity). exists h. split; [exact Hr|].
  exact (remove_outcome id id id demoPlatform (js "old.md") h (Ok tt) Hr).
Defined.
End Vaultio.
