(* ===== verification/Connect.v ===== *)
(** * Connect: establishing a session ([client/src/main.ts], [connectdecisions.ts])

    [doConnect] signs in, checks the server, its wire contract and the share
    grant, resolves a pending vault switch, and runs the switch or a full
    reconciliation; only then does it go live.  It is a tree of calls whose
    [Look] reads the plugin's settings afresh: between two calls the user or
    another task may have changed them, so every theorem holds under such
    interference.  Between two awaits the code works on one snapshot. *)

From S2P Require Import Prelude Regex Effects Fsm Connstate Links Protocol Wiresig Sync Pass Transport.

Module Connect.
Import Pass.

Inductive CErr := EConn (message : jstr) (info : Conn.ConnErrorInfo) | EOther (message : jstr).
(** The settings and fields a connect reads. *)
Record Snap := {
  authToken : option jstr; password : jstr; storePassword : bool; loginInFlight : bool;
  serverUrl : jstr; username : jstr; vaultId : jstr; vaultOwner : option jstr; vaultReadOnly : bool;
  pendingSwitch : option SwitchMode; baseVaultKey : option jstr; basePaths : nat;
  verifiedWireHash : option jstr; sharedMounts : bool
}.
(** The calls of a connect: reads and writes of the settings ([Put*]), the
    requests, and the effects it starts. *)
Inductive COp : Type :=
| Look | PutAuthToken (t : option jstr) | PutPassword (p : jstr) | PutOwner (o : option jstr) | PutReadOnly (b : bool)
| PutPending (m : option SwitchMode) | PutVerified (h : option jstr) | PutGrants (l : list Transport.SharedVaultRef)
| PutBaseKey (k : jstr) | Save | OpenSetup | CloseWs | FlushConfig | GoLive
| JoinLogin | LoginRemote (server user pass : jstr) | BuildApi (t : jstr)
| GetStatus (t : jstr) | GetSchema (t : jstr) | ListShared (server t : jstr)
| SwitchTo (m : SwitchMode) | ReconcileFull.
Definition CAns (o : COp) : Type :=
  match o with
  | Look => Snap
  | JoinLogin | LoginRemote _ _ _ => res CErr jstr
  | BuildApi _ | SwitchTo _ | ReconcileFull => res CErr unit
  | GetStatus _ => res CErr Wire.StatusResponse
  | GetSchema _ => res CErr Wiresig.SchemaResponse
  | ListShared _ _ => res CErr (list Transport.SharedVaultRef)
  | _ => unit
  end.
Abbreviation C := (M CAns unit CErr).
Abbreviation CHistory := (hist CAns unit CErr).
Definition look : C Snap := call Look.
Definition tell (o : COp) : C unit := bindM (call o) (λ _, mret' tt).
Definition ask {A} (o : COp) (view : CAns o → res CErr A) : C A := callE o view.
Notation need o := (ask o id) (only parsing).

Definition synthetic (k : Conn.SyntheticKind) (e : Conn.Endpoint) : Conn.ConnErrorInfo :=
  {| Conn.status := None; Conn.retryAfterSecs := None; Conn.wasLogin := false; Conn.endpoint := e;
     Conn.synthetic := Some k; Conn.bodyHint := None; Conn.hasStoredPassword := false |}.
Definition sessionExpired : CErr :=
  EConn (js "session expired " ++ [8212%N] ++ js " please re-enter your password in setup")
    (synthetic Conn.SynSessionExpired Conn.OtherEndpoint).
Definition degraded (m : jstr) : CErr := EConn m (synthetic Conn.SynServerDegraded Conn.VaultStatus).
Definition notReady : CErr := EConn (js "server vault not ready (reindex needed)") (synthetic Conn.SynServerDegraded Conn.OtherEndpoint).
(** The message spells the reason out. *)
Definition incompatible (r : Wiresig.Refusal) : CErr := EConn [] (synthetic Conn.SynVersionMismatch Conn.OtherEndpoint).
Definition isAuthError (e : CErr) : bool :=
  match e with
  | EConn _ i => bool_decide (Conn.status i = Some 401%Z)
  | EOther m => includes m (js "HTTP 401")
  end.
Definition hasStoredPassword (s : Snap) : bool := storePassword s && truthy (password s).

Section Connect.
Context (lowerCase : jstr → jstr) (parseURL : jstr → option Links.URL) (embedded : Wiresig.Signature).

(** ** Signing in *)
Definition freshLogin : C jstr :=
  let* s := look in
  if loginInFlight s then need JoinLogin
  else if negb (truthy (password s)) then tell OpenSetup ;; throw sessionExpired
  else
    let* t := need (LoginRemote (serverUrl s) (username s) (password s)) in
    let* s := look in
    (whenM (negb (storePassword s)) then tell (PutPassword [])) ;;
    tell (PutAuthToken (Some t)) ;; tell Save ;; mret' t.
Definition acquireToken : C jstr :=
  let* s := look in
  match authToken s with Some t => if truthy t then mret' t else freshLogin | None => freshLogin end.
(** The retry after a rejected token. *)
Definition withSyncRelogin {A} (fn : C A) : C A :=
  try_catch fn (λ e,
    let* s := look in
    if negb (isAuthError e) || negb (hasStoredPassword s) then throw e
    else tell (PutAuthToken None) ;; let* t := freshLogin in need (BuildApi t) ;; fn).
Definition withAuth {A} (fn : jstr → C A) : C A :=
  let* token := acquireToken in
  try_catch (fn token) (λ e,
    if negb (isAuthError e) then throw e
    else tell (PutAuthToken None) ;; let* fresh := freshLogin in fn fresh).

(** ** Access *)
Definition isOwnAccount (s : Snap) (owner : option jstr) : bool :=
  let a := lowerCase (trim (default [] owner)) in
  truthy a && (a === lowerCase (trim (username s))).
Definition grantOf (r : Transport.SharedVaultRef) : Links.Grant :=
  {| Links.g_owner := Transport.sv_owner r; Links.g_vault := Transport.sv_vault r;
     Links.g_perm := match Transport.sv_perm r with Transport.PReadWrite => js "readWrite" | Transport.PRead => js "read" end |}.
Definition grantFor (l : list Transport.SharedVaultRef) (s : Snap) : Links.ShareGrantStatus :=
  Links.resolveShareGrant (grantOf <$> l) (default [] (vaultOwner s)) (vaultId s).
Definition refreshShareGrant (t : jstr) : C unit :=
  let* s := look in
  if negb (otruthy (vaultOwner s)) then mret' tt
  else if isOwnAccount s (vaultOwner s) then tell (PutOwner None) ;; tell (PutReadOnly false) ;; tell Save
  else
    let* grants := need (ListShared (serverUrl s) t) in
    let* s := look in
    match grantFor grants s with
    | Links.Revoked => throw (EOther (js "share access revoked"))
    | Links.Active readOnly =>
        whenM (negb (eqb readOnly (vaultReadOnly s))) then (tell (PutReadOnly readOnly) ;; tell Save)
    | Links.NotShared => mret' tt
    end.
Definition refreshSourceGrants (t : jstr) : C unit :=
  let* s := look in
  if negb (sharedMounts s) then tell (PutGrants [])
  else try_catch (let* l := need (ListShared (serverUrl s) t) in tell (PutGrants l)) (λ _, mret' tt).

(** ** The session *)
Definition checkWireCompat (t : jstr) (serverHash : option jstr) : C (option Wiresig.Refusal) :=
  let* s := look in
  let* schema :=
    match Wiresig.hashCheck serverHash (verifiedWireHash s) with
    | Wiresig.NeedsDiff => try_catch (let* sr := need (GetSchema t) in mret' (Some sr)) (λ _, mret' None)
    | _ => mret' None
    end in
  let '(refusal, verified) := Wiresig.checkWireCompat embedded (verifiedWireHash s) serverHash schema in
  (whenM (negb (bool_decide (verified = verifiedWireHash s))) then tell (PutVerified verified)) ;;
  mret' refusal.
Definition firstStatus (t : jstr) : C (jstr * Wire.StatusResponse) :=
  try_catch (let* h := need (GetStatus t) in mret' (t, h)) (λ e,
    match e with
    | EConn m i =>
        if bool_decide (Conn.status i = Some 503%Z) then throw (degraded m)
        else if negb (isAuthError e) then throw e
        else tell (PutAuthToken None) ;;
             let* t := freshLogin in need (BuildApi t) ;; let* h := need (GetStatus t) in mret' (t, h)
    | EOther _ =>
        if negb (isAuthError e) then throw e
        else tell (PutAuthToken None) ;;
             let* t := freshLogin in need (BuildApi t) ;; let* h := need (GetStatus t) in mret' (t, h)
    end).
Definition establishSession : C unit :=
  tell CloseWs ;;
  let* t := acquireToken in
  need (BuildApi t) ;;
  let* th := firstStatus t in
  let* refusal := checkWireCompat th.1 (Wire.schemaHash th.2) in
  match refusal with
  | Some r => throw (incompatible r)
  | None =>
      if negb (Wire.status th.2 === js "ready") then throw notReady
      else refreshShareGrant th.1 ;; refreshSourceGrants th.1
  end.

(** ** The switch *)
Definition serverHost (s : Snap) : jstr :=
  match parseURL (serverUrl s) with Some u => lowerCase (Links.host u) | None => lowerCase (serverUrl s) end.
Definition historyFloorKey (s : Snap) : jstr := default [] (vaultOwner s) ++ js "/" ++ vaultId s.
Definition vaultIdentityKey (s : Snap) : jstr := serverHost s ++ js "|" ++ historyFloorKey s.
Definition modeName (m : SwitchMode) : jstr :=
  match m with SDownload => js "download" | SUpload => js "upload" | SMerge => js "merge" end.
(** The base belongs to another vault and no switch says what to do about it. *)
Definition foreign (s : Snap) : bool :=
  match pendingSwitch s, baseVaultKey s with
  | None, Some stored =>
      truthy stored && (0 <? basePaths s) && Conn.vaultKeyMismatch stored (vaultIdentityKey s) (historyFloorKey s)
  | _, _ => false
  end.
Definition withPending (m : option SwitchMode) (s : Snap) : Snap :=
  {| authToken := authToken s; password := password s; storePassword := storePassword s; loginInFlight := loginInFlight s;
     serverUrl := serverUrl s; username := username s; vaultId := vaultId s; vaultOwner := vaultOwner s;
     vaultReadOnly := vaultReadOnly s; pendingSwitch := m; baseVaultKey := baseVaultKey s; basePaths := basePaths s;
     verifiedWireHash := verifiedWireHash s; sharedMounts := sharedMounts s |}.
Definition applied (s : Snap) : bool :=
  Conn.switchAlreadyApplied (modeName <$> pendingSwitch s) (baseVaultKey s) (vaultIdentityKey s) (0 <? basePaths s).
Definition runSwitch (m : option SwitchMode) : C unit :=
  match m with
  | Some m => need (SwitchTo m) ;; tell (PutPending None) ;; tell Save
  | None => need ReconcileFull
  end.
Definition resolveAndApplySwitch : C unit :=
  let* s := look in
  let s' := if foreign s then withPending (Some SMerge) s else s in
  (whenM (foreign s) then tell (PutPending (Some SMerge))) ;;
  if applied s' then
    tell (PutPending None) ;; tell Save ;; let* s := look in runSwitch (pendingSwitch s)
  else runSwitch (pendingSwitch s').
Definition finishConnect : C unit :=
  tell FlushConfig ;;
  let* s := look in
  tell GoLive ;; tell (PutBaseKey (vaultIdentityKey s)).
Definition doConnect : C unit := establishSession ;; resolveAndApplySwitch ;; finishConnect.

(** ** What a connect has to have seen

    [allowed h o]: what the history [h] must contain before the connect makes
    the call [o].  The calls it does not list read, save or close something. *)
Implicit Types (h : CHistory).
Definition looked h (s : Snap) : Prop := called h Look s.
(** A token is used as it was stored or as a login answered it. *)
Definition tokenFrom h (t : jstr) : Prop :=
  (∃ s, looked h s ∧ authToken s = Some t) ∨ called h JoinLogin (Ok t) ∨
  ∃ server user pass, called h (LoginRemote server user pass) (Ok t).
Definition rejected h : Prop := ∃ t e, called h (GetStatus t) (Throw e) ∧ isAuthError e = true.
Definition wireOk h (t : jstr) (sh : option jstr) : Prop :=
  (∃ s, looked h s ∧ is_Some (verifiedWireHash s) ∧ sh = verifiedWireHash s) ∨
  ∃ sr, called h (GetSchema t) (Ok sr) ∧ sh = Some (Wiresig.sr_hash sr) ∧
        Wiresig.Compatible embedded (Wiresig.signature sr).
Definition own (s : Snap) : bool := negb (otruthy (vaultOwner s)) || isOwnAccount s (vaultOwner s).
Definition granted h (t : jstr) : Prop :=
  (∃ s, looked h s ∧ own s = true) ∨
  ∃ server grants s, called h (ListShared server t) (Ok grants) ∧ looked h s ∧ grantFor grants s ≠ Links.Revoked.
(** A session: a healthy answer of the server, a contract this build can use,
    and access that was not revoked. *)
Definition session h : Prop :=
  ∃ t st, called h (GetStatus t) (Ok st) ∧ Wire.status st = js "ready" ∧ otruthy (Wire.schemaHash st) = true ∧
          wireOk h t (Wire.schemaHash st) ∧ granted h t.
Definition settled h : Prop := (∃ m, called h (SwitchTo m) (Ok tt)) ∨ called h ReconcileFull (Ok tt).
Definition allowed h (o : COp) : Prop :=
  match o with
  | LoginRemote server user pass =>
      ∃ s, looked h s ∧ server = serverUrl s ∧ user = username s ∧ pass = password s ∧
           truthy pass = true ∧ loginInFlight s = false
  | PutPassword p =>
      p = [] ∧ (∃ s, looked h s ∧ storePassword s = false) ∧
      ∃ server user pass t, called h (LoginRemote server user pass) (Ok t)
  | PutAuthToken (Some t) => ∃ server user pass, called h (LoginRemote server user pass) (Ok t)
  | PutAuthToken None => rejected h
  | OpenSetup => ∃ s, looked h s ∧ truthy (password s) = false
  | BuildApi t => tokenFrom h t
  | GetStatus t | GetSchema t => called h (BuildApi t) (Ok tt)
  | ListShared server t => called h (BuildApi t) (Ok tt) ∧ ∃ s, looked h s ∧ server = serverUrl s
  | PutVerified v =>
      ∃ t st sr, called h (GetStatus t) (Ok st) ∧ called h (GetSchema t) (Ok sr) ∧ v = Wire.schemaHash st ∧
                 v = Some (Wiresig.sr_hash sr) ∧ Wiresig.Compatible embedded (Wiresig.signature sr)
  | PutOwner o => o = None ∧ ∃ s, looked h s ∧ isOwnAccount s (vaultOwner s) = true
  | PutReadOnly b =>
      (b = false ∧ ∃ s, looked h s ∧ isOwnAccount s (vaultOwner s) = true) ∨
      ∃ server t grants s, called h (ListShared server t) (Ok grants) ∧ looked h s ∧ grantFor grants s = Links.Active b
  | PutGrants l => l = [] ∨ ∃ server t, called h (ListShared server t) (Ok l)
  | SwitchTo m =>
      session h ∧ ((∃ s, looked h s ∧ pendingSwitch s = Some m) ∨ m = SMerge ∧ ∃ s, looked h s ∧ foreign s = true)
  | ReconcileFull => session h ∧ ∃ s, looked h s ∧ foreign (withPending None s) = false
  | PutPending (Some m) => session h ∧ m = SMerge ∧ ∃ s, looked h s ∧ foreign s = true
  | PutPending None => (∃ m, called h (SwitchTo m) (Ok tt)) ∨ session h ∧ ∃ s, looked h s ∧ applied s = true
  | PutBaseKey k => session h ∧ settled h ∧ ∃ s, looked h s ∧ k = vaultIdentityKey s
  | GoLive => session h ∧ settled h
  | Look | JoinLogin | Save | CloseWs | FlushConfig => True
  end.

Ltac older :=
  repeat match goal with
  | H : ∃ _, _ |- _ => destruct H
  | H : _ ∧ _ |- _ => destruct H
  | Hs : ?h ⊑ ?h', H : called ?h _ _ |- _ => apply (called_mono _ _ _ _ Hs) in H
  | Hs : ?h ⊑ ?h', H : looked ?h _ |- _ => apply (called_mono _ _ _ _ Hs) in H
  end.
Lemma tokenFrom_mono h h' t : h ⊑ h' → tokenFrom h t → tokenFrom h' t.
Proof. intros Hs [H|[H|H]]; older; [left; eauto|right; left; eauto|right; right; eauto 6]. Qed.
Lemma wireOk_mono h h' t sh : h ⊑ h' → wireOk h t sh → wireOk h' t sh.
Proof. intros Hs [H|H]; older; [left; eauto 6|right; eauto 6]. Qed.
Lemma granted_mono h h' t : h ⊑ h' → granted h t → granted h' t.
Proof. intros Hs [H|H]; older; [left; eauto 6|right; unfold looked; eauto 10]. Qed.
Lemma session_mono h h' : h ⊑ h' → session h → session h'.
Proof.
  intros Hs (t & st & Hc & Hr & Hh & Hw & Hg). exists t, st.
  split_and!; [by eapply called_mono|done..|by eapply wireOk_mono|by eapply granted_mono].
Qed.
Lemma settled_mono h h' : h ⊑ h' → settled h → settled h'.
Proof. intros Hs [H|H]; older; [left; eauto|by right]. Qed.
#[local] Hint Resolve tokenFrom_mono wireOk_mono granted_mono session_mono settled_mono : core.
#[local] Instance allowed_justified : Justified allowed.
Proof.
  intros h h' o Hs. destruct o; cbn; unfold looked; try done; try (by apply tokenFrom_mono); try (by apply called_mono).
  - destruct t; intros H; unfold rejected in *; older; eauto 8.
  - intros H; older; split_and!; eauto 6.
  - intros H; older; eauto.
  - intros [H|H]; older; [left|right]; eauto 10.
  - destruct m; [intros H; older; split_and!; eauto|]. intros [H|[H1 H2]]; older; [left|right]; eauto 6.
  - intros H; older; eauto 10.
  - intros [H|H]; older; [left|right]; eauto 6.
  - intros H; older; split_and!; eauto.
  - intros H; older; eauto.
  - intros H; older; split_and!; eauto.
  - intros H; older; eauto 10.
  - intros H; older; split; eauto.
  - intros [H1 [H|H]]; older; split; eauto 8.
  - intros H; older; split; eauto.
Qed.
Lemma conn_look (Q : res CErr Snap → CHistory → Prop) h :
  (∀ s h', h ⊑ h' → looked h' s → Q (Ok s) h') → safe allowed look Q h.
Proof. intros H. apply safe_call; [done|exact H]. Qed.
Lemma conn_tell o (Q : res CErr unit → CHistory → Prop) h :
  allowed h o → (∀ h', h ⊑ h' → Q (Ok tt) h') → safe allowed (tell o) Q h.
Proof. intros Ho HQ. apply safe_bind. apply safe_call; [done|]. intros r h' Hs _ _. apply safe_ret. by apply HQ. Qed.

(** ** Each part keeps the promise *)
Abbreviation Post A := (res CErr A → CHistory → Prop).
Lemma safe_need {A} o (view : CAns o → res CErr A) (Q : Post A) h :
  allowed h o → (∀ r h', h ⊑ h' → called h' o r → Q (view r) h') → safe allowed (ask o view) Q h.
Proof. apply safe_callE. Qed.
Lemma safe_freshLogin (Q : Post jstr) h :
  (∀ t h', h ⊑ h' → tokenFrom h' t → Q (Ok t) h') → (∀ e h', h ⊑ h' → Q (Throw e) h') → safe allowed freshLogin Q h.
Proof.
  intros HO HT. apply safe_bind, conn_look. intros s h1 H1 Hs _. destruct (loginInFlight s) eqn:Hin.
  { apply safe_need; [done|]. intros [t|e] h2 H2 Hc; [apply HO; [chain|]|apply HT; chain]. right. by left. }
  destruct (truthy (password s)) eqn:Hp; cbn [negb].
  - apply safe_bind, safe_need; [by exists s|]. intros [t|e] h2 H2 Hc _; [|apply HT; chain].
    apply safe_bind, conn_look. intros s' h3 H3 Hs' _. apply safe_bind.
    assert (Hk : ∀ h4, h3 ⊑ h4 → safe allowed (tell (PutAuthToken (Some t)) ;; tell Save ;; mret' t) Q h4).
    { intros h4 H4. assert (Hl : called h4 (LoginRemote (serverUrl s) (username s) (password s)) (Ok t))
        by (eapply called_mono; [|exact Hc]; chain).
      apply safe_bind, conn_tell; [by do 3 eexists|]. intros h5 H5 _. apply safe_bind, conn_tell; [done|]. intros h6 H6 _.
      apply safe_ret, HO; [chain|]. right; right. do 3 eexists. eapply called_mono; [|exact Hl]; chain. }
    destruct (storePassword s') eqn:Hst; cbn [negb]; [by apply safe_ret; intros _; apply Hk|].
    apply conn_tell; [|by intros h4 H4 _; apply Hk]. split_and!; [done|by exists s'|].
    do 4 eexists. eapply called_mono; [|exact Hc]; chain.
  - apply safe_bind, conn_tell; [by exists s|]. intros h2 H2 _. apply safe_throw, HT. chain.
Qed.
Lemma safe_acquireToken (Q : Post jstr) h :
  (∀ t h', h ⊑ h' → tokenFrom h' t → Q (Ok t) h') → (∀ e h', h ⊑ h' → Q (Throw e) h') → safe allowed acquireToken Q h.
Proof.
  intros HO HT. apply safe_bind, conn_look. intros s h1 H1 Hs _.
  assert (Hf : safe allowed freshLogin Q h1) by (apply safe_freshLogin; intros; [apply HO|apply HT]; by chain).
  destruct (authToken s) as [t|] eqn:Ht; [|exact Hf]. destruct (truthy t); [|exact Hf].
  apply safe_ret, HO; [done|]. left. by exists s.
Qed.
(** The second sign-in after a rejected token, and the status that follows. *)
Lemma safe_again (Q : Post (jstr * Wire.StatusResponse)) h :
  rejected h →
  (∀ t st h', h ⊑ h' → called h' (BuildApi t) (Ok tt) → called h' (GetStatus t) (Ok st) → Q (Ok (t, st)) h') →
  (∀ e h', h ⊑ h' → Q (Throw e) h') →
  safe allowed (tell (PutAuthToken None) ;;
                let* t := freshLogin in need (BuildApi t) ;; let* h := need (GetStatus t) in mret' (t, h)) Q h.
Proof.
  intros Hr HO HT. apply safe_bind, conn_tell; [exact Hr|]. intros h1 H1 _.
  apply safe_bind, safe_freshLogin; [|intros e h2 H2 _; apply HT; chain]. intros t h2 H2 Ht _.
  apply safe_bind, safe_need; [exact Ht|]. intros [[]|e] h3 H3 Hb _; [|apply HT; chain].
  apply safe_bind, safe_need; [exact Hb|]. intros [st|e] h4 H4 Hc _; [|apply HT; chain].
  apply safe_ret, HO; [chain|by eapply called_mono|done].
Qed.
Lemma safe_firstStatus t (Q : Post (jstr * Wire.StatusResponse)) h :
  called h (BuildApi t) (Ok tt) →
  (∀ t st h', h ⊑ h' → called h' (BuildApi t) (Ok tt) → called h' (GetStatus t) (Ok st) → Q (Ok (t, st)) h') →
  (∀ e h', h ⊑ h' → Q (Throw e) h') →
  safe allowed (firstStatus t) Q h.
Proof.
  intros Hb HO HT. apply safe_try, safe_bind, safe_need; [exact Hb|]. intros [st|e] h1 H1 Hc _.
  { apply safe_ret. intros _. apply HO; [done|by eapply called_mono|done]. }
  intros _. assert (Ha : isAuthError e = true →
    safe allowed (tell (PutAuthToken None) ;;
                  let* t := freshLogin in need (BuildApi t) ;; let* h := need (GetStatus t) in mret' (t, h)) Q h1).
  { intros He. apply safe_again; [by exists t, e|intros; apply HO; by chain|intros; apply HT; by chain]. }
  cbn [id]. destruct e as [m i|m]; [case_bool_decide; [apply safe_throw, HT; chain|]|];
    (destruct (isAuthError _) eqn:He; cbn [negb]; [by apply Ha|apply safe_throw, HT; chain]).
Qed.
Lemma connect_gate_cases verified sh schema refusal v :
  Wiresig.checkWireCompat embedded verified sh schema = (refusal, v) →
  match refusal with
  | Some _ => v = verified
  | None =>
      otruthy sh = true ∧
      (v = verified ∧ is_Some verified ∧ sh = verified ∨
       ∃ sr, schema = Some sr ∧ v = sh ∧ sh = Some (Wiresig.sr_hash sr) ∧ Wiresig.Compatible embedded (Wiresig.signature sr))
  end.
Proof.
  unfold Wiresig.checkWireCompat, Wiresig.hashCheck. destruct (otruthy sh) eqn:Ht; cbn [negb]; [|by intros [= <- <-]].
  case_bool_decide as Hv; [intros [= <- <-]; split; [done|left]; by destruct Hv|].
  destruct schema as [sr|]; [|by intros [= <- <-]]. case_bool_decide as Hh; cbn [negb]; [|by intros [= <- <-]].
  destruct (Wiresig.signatureVerdict _ _) eqn:Hs; intros [= <- <-]; [|done]. split; [done|]. right. exists sr.
  split_and!; [done..|]. by apply Wiresig.accepted_compatible.
Qed.
Lemma safe_checkWireCompat t st (Q : Post (option Wiresig.Refusal)) h :
  called h (BuildApi t) (Ok tt) → called h (GetStatus t) (Ok st) →
  (∀ r h', h ⊑ h' → (r = None → otruthy (Wire.schemaHash st) = true ∧ wireOk h' t (Wire.schemaHash st)) → Q (Ok r) h') →
  (∀ e h', h ⊑ h' → Q (Throw e) h') →
  safe allowed (checkWireCompat t (Wire.schemaHash st)) Q h.
Proof.
  intros Hb Hst HO HT. apply safe_bind, conn_look. intros s h1 H1 Hs _. apply safe_bind.
  assert (Hk : ∀ schema h2, h1 ⊑ h2 → (∀ sr, schema = Some sr → called h2 (GetSchema t) (Ok sr)) →
    safe allowed
      (let '(refusal, verified) := Wiresig.checkWireCompat embedded (verifiedWireHash s) (Wire.schemaHash st) schema in
       (whenM (negb (bool_decide (verified = verifiedWireHash s))) then tell (PutVerified verified)) ;; mret' refusal) Q h2).
  { intros schema h2 H2 Hsr. destruct (Wiresig.checkWireCompat _ _ _ _) as [refusal v] eqn:Hg. apply connect_gate_cases in Hg.
    assert (Hr : ∀ h3, h2 ⊑ h3 → safe allowed (mret' refusal) Q h3).
    { intros h3 H3. apply safe_ret, HO; [chain|]. intros ->. destruct Hg as [Ht [(-> & Hv & Hsh)|(sr & -> & -> & Hh & Hc)]].
      - split; [done|]. left. exists s. split_and!; [eapply called_mono; [|exact Hs]; chain|done..].
      - split; [done|]. right. exists sr. split_and!; [eapply called_mono; [exact H3|by apply Hsr]|done..]. }
    apply safe_bind. case_bool_decide as Hv; cbn [negb]; [apply safe_ret; intros _; by apply Hr|].
    apply conn_tell; [|intros h3 H3 _; by apply Hr]. destruct refusal; [done|].
    destruct Hg as [_ [[-> _]|(sr & -> & -> & Hh & Hc)]]; [done|]. exists t, st, sr.
    split_and!; [eapply called_mono; [|exact Hst]; chain|by apply Hsr|done..]. }
  destruct (Wiresig.hashCheck _ _); [apply safe_ret; intros _; by apply Hk| |apply safe_ret; intros _; by apply Hk].
  apply safe_try, safe_bind, safe_need; [by eapply called_mono|]. intros [sr|e] h2 H2 Hc _.
  - apply safe_ret. intros _ _. apply Hk; [done|]. by intros ? [= <-].
  - intros _. apply safe_ret. intros H'. by apply Hk.
Qed.
Lemma safe_refreshShareGrant t (Q : Post unit) h :
  called h (BuildApi t) (Ok tt) →
  (∀ h', h ⊑ h' → granted h' t → Q (Ok tt) h') → (∀ e h', h ⊑ h' → Q (Throw e) h') → safe allowed (refreshShareGrant t) Q h.
Proof.
  intros Hb HO HT. apply safe_bind, conn_look. intros s h1 H1 Hs _.
  assert (Hown : own s = true → ∀ h', h1 ⊑ h' → granted h' t) by (intros Ho h' H'; left; exists s; split; [by eapply called_mono|done]).
  unfold own in Hown. destruct (otruthy (vaultOwner s)); cbn [negb orb] in *; [|by apply safe_ret, HO, Hown].
  destruct (isOwnAccount s (vaultOwner s)) eqn:Ho.
  - assert (∀ h', h1 ⊑ h' → ∃ s, looked h' s ∧ isOwnAccount s (vaultOwner s) = true)
      by (intros h' H'; exists s; split; [by eapply called_mono|done]).
    apply safe_bind, conn_tell; [split; eauto|]. intros h2 H2 _.
    apply safe_bind, conn_tell; [left; eauto|]. intros h3 H3 _.
    apply conn_tell; [done|]. intros h4 H4. apply HO; [chain|]. apply Hown; [done|chain].
  - apply safe_bind, safe_need; [split; [by eapply called_mono|by exists s]|].
    intros [grants|e] h2 H2 Hl _; [|apply HT; chain]. apply safe_bind, conn_look. intros s' h3 H3 Hs' _.
    assert (Hg : grantFor grants s' ≠ Links.Revoked → ∀ h', h3 ⊑ h' → granted h' t).
    { intros Hg h' H'. right. exists (serverUrl s), grants, s'.
      split_and!; [eapply called_mono; [|exact Hl]; chain|by eapply called_mono|done]. }
    destruct (grantFor grants s') as [|readOnly|] eqn:Hgr; [apply safe_ret, HO; [chain|by apply Hg]|apply safe_throw, HT; chain|].
    destruct (negb _); [|apply safe_ret, HO; [chain|by apply Hg]].
    apply safe_bind, conn_tell; [|intros h4 H4 _; apply conn_tell; [done|]; intros h5 H5; apply HO; [chain|apply Hg; [done|chain]]].
    right. exists (serverUrl s), t, grants, s'. split_and!; [eapply called_mono; [|exact Hl]; chain|done..].
Qed.
Lemma safe_refreshSourceGrants t (Q : Post unit) h :
  called h (BuildApi t) (Ok tt) → (∀ r h', h ⊑ h' → Q r h') → safe allowed (refreshSourceGrants t) Q h.
Proof.
  intros Hb HQ. apply safe_bind, conn_look. intros s h1 H1 Hs _.
  destruct (sharedMounts s); cbn [negb]; [|apply conn_tell; [by left|]; intros h2 H2; apply HQ; chain].
  apply safe_try, safe_bind, safe_need; [split; [by eapply called_mono|by exists s]|]. intros [l|e] h2 H2 Hl _.
  - apply conn_tell; [right; eauto|]. intros h3 H3 _. apply HQ. chain.
  - intros _. apply safe_ret, HQ. chain.
Qed.
Lemma safe_establishSession (Q : Post unit) h :
  (∀ h', h ⊑ h' → session h' → Q (Ok tt) h') → (∀ e h', h ⊑ h' → Q (Throw e) h') → safe allowed establishSession Q h.
Proof.
  intros HO HT. apply safe_bind, conn_tell; [done|]. intros h1 H1 _.
  apply safe_bind, safe_acquireToken; [|intros e h2 H2 _; apply HT; chain]. intros t0 h2 H2 Ht _.
  apply safe_bind, safe_need; [exact Ht|]. intros [[]|e] h3 H3 Hb0 _; [|apply HT; chain].
  apply safe_bind, safe_firstStatus; [exact Hb0| |intros e h4 H4 _; apply HT; chain].
  intros t st h4 H4 Hb Hst _. cbn [fst snd].
  apply safe_bind, (safe_checkWireCompat t st); [done|done| |intros e h5 H5 _; apply HT; chain].
  intros r h5 H5 Hr _. destruct r as [r|]; [apply safe_throw, HT; chain|]. destruct (Hr eq_refl) as [Hh Hw].
  destruct (Wire.status st === js "ready") eqn:Hready; cbn [negb]; [apply jeq_true in Hready|apply safe_throw, HT; chain].
  apply safe_bind, safe_refreshShareGrant; [by eapply called_mono| |intros e h6 H6 _; apply HT; chain].
  intros h6 H6 Hg _. assert (Hs : session h6).
  { exists t, st. split_and!; [eapply called_mono; [|exact Hst]; chain|done..|by eapply wireOk_mono|done]. }
  apply safe_refreshSourceGrants; [eapply called_mono; [|exact Hb]; chain|].
  intros [[]|e] h7 H7; [apply HO; [chain|by eapply session_mono]|apply HT; chain].
Qed.
Lemma includes_bar a b : includes (a ++ js "|" ++ b) (js "|") = true.
Proof.
  change (js "|" ++ b) with (124%N :: b). change (js "|") with [124%N]. induction a as [|x a IH]; cbn [app includes]; [|rewrite IH; apply orb_true_r].
  unfold starts_with. rewrite bool_decide_eq_true_2; [done|]. by exists b.
Qed.
(** An applied switch has brought the base to the vault of the settings. *)
Lemma applied_not_foreign s : applied s = true → foreign (withPending None s) = false.
Proof.
  unfold applied, Conn.switchAlreadyApplied, foreign. rewrite !andb_true_iff, bool_decide_eq_true.
  intros [[_ Hk] _]. cbn [pendingSwitch withPending baseVaultKey]. rewrite Hk.
  replace (Conn.vaultKeyMismatch _ _ _) with false; [by rewrite andb_false_r|]. symmetry.
  unfold Conn.vaultKeyMismatch, vaultIdentityKey. rewrite includes_bar.
  change (serverHost (withPending None s)) with (serverHost s). change (historyFloorKey (withPending None s)) with (historyFloorKey s).
  apply negb_false_iff. by apply jeq_true.
Qed.
Lemma foreign_not_applied s m : foreign s = true → applied (withPending m s) = false.
Proof.
  intros Hf. destruct (applied (withPending m s)) eqn:Ha; [|done]. apply applied_not_foreign in Ha. revert Ha Hf.
  unfold foreign. cbn [pendingSwitch withPending baseVaultKey]. destruct (pendingSwitch s), (baseVaultKey s); try done.
  intros Ha Hf. discriminate (eq_trans (eq_sym Ha) Hf).
Qed.
Lemma safe_runSwitch m (Q : Post unit) h :
  match m with Some m => allowed h (SwitchTo m) | None => allowed h ReconcileFull end →
  (∀ h', h ⊑ h' → settled h' → Q (Ok tt) h') → (∀ e h', h ⊑ h' → Q (Throw e) h') → safe allowed (runSwitch m) Q h.
Proof.
  intros Ha HO HT. destruct m as [m|].
  - apply safe_bind, safe_need; [exact Ha|]. intros [[]|e] h1 H1 Hc _; [|apply HT; chain].
    assert (Hd : ∀ h', h1 ⊑ h' → settled h') by (intros h' H'; left; exists m; by eapply called_mono).
    apply safe_bind, conn_tell; [left; by exists m|]. intros h2 H2 _. apply conn_tell; [done|]. intros h3 H3.
    apply HO; [chain|]. apply Hd. chain.
  - apply safe_need; [exact Ha|]. intros [[]|e] h1 H1 Hc; [|by apply HT]. apply HO; [done|by right].
Qed.
Lemma pending_foreign s : pendingSwitch s = None → foreign (withPending None s) = foreign s.
Proof. unfold foreign. cbn. by intros ->. Qed.
Lemma safe_resolve (Q : Post unit) h :
  session h →
  (∀ h', h ⊑ h' → settled h' → Q (Ok tt) h') → (∀ e h', h ⊑ h' → Q (Throw e) h') →
  safe allowed resolveAndApplySwitch Q h.
Proof.
  intros Hses HO HT. apply safe_bind, conn_look. intros s h1 H1 Hs _. cbv zeta.
  assert (Hlk : ∀ h', h1 ⊑ h' → looked h' s) by (intros h' H'; by eapply called_mono).
  assert (Hse : ∀ h', h1 ⊑ h' → session h') by (intros h' H'; eapply session_mono; [|exact Hses]; chain).
  destruct (foreign s) eqn:Hf.
  { rewrite foreign_not_applied by done. apply safe_bind, conn_tell; [split_and!; eauto|]. intros h2 H2 _.
    apply safe_runSwitch; [split; [by apply Hse|right; eauto]|intros; apply HO; by chain|intros; apply HT; by chain]. }
  apply safe_bind, safe_ret. intros _. destruct (applied s) eqn:Ha.
  - apply safe_bind, conn_tell; [right; split; eauto|]. intros h2 H2 _. apply safe_bind, conn_tell; [done|]. intros h3 H3 _.
    apply safe_bind, conn_look. intros s' h4 H4 Hs' _.
    apply safe_runSwitch; [|intros; apply HO; by chain|intros; apply HT; by chain].
    destruct (pendingSwitch s') eqn:Hp; (split; [apply Hse; chain|]); [left; eauto|].
    exists s. split; [apply Hlk; chain|by apply applied_not_foreign].
  - apply safe_runSwitch; [|intros; apply HO; by chain|intros; apply HT; by chain].
    destruct (pendingSwitch s) eqn:Hp; (split; [by apply Hse|]); [left; eauto|].
    exists s. split; [by apply Hlk|]. by rewrite pending_foreign.
Qed.
(** What a connect that returns has done. *)
Definition connected h : Prop := session h ∧ settled h ∧ called h GoLive tt.
Lemma safe_doConnect h :
  safe allowed doConnect (λ r h', match r with Ok _ => connected h' | Throw _ => True end) h.
Proof.
  apply safe_bind, safe_establishSession; [|done]. intros h1 H1 Hses _.
  apply safe_bind, safe_resolve; [done| |done]. intros h2 H2 Hset _. assert (Hses2 : session h2) by eauto.
  apply safe_bind, conn_tell; [done|]. intros h3 H3 _. apply safe_bind, conn_look. intros s h4 H4 Hs _.
  assert (Hse : ∀ h', h4 ⊑ h' → session h') by (intros h' H'; eapply session_mono; [|exact Hses2]; chain).
  assert (Hst : ∀ h', h4 ⊑ h' → settled h') by (intros h' H'; eapply settled_mono; [|exact Hset]; chain).
  apply safe_bind. apply safe_bind, safe_call; [split; eauto|]. intros [] h5 H5 Hg _. apply safe_ret. intros _.
  apply conn_tell; [split_and!; eauto; exists s; split; [by eapply called_mono|done]|].
  intros h6 H6. split_and!; [apply Hse; chain|apply Hst; chain|by eapply called_mono].
Qed.
(** ** Budgets *)
Definition logins (o : COp) : bool := match o with LoginRemote _ _ _ => true | _ => false end.
Definition statuses (o : COp) : bool := match o with GetStatus _ => true | _ => false end.
Definition starts (o : COp) : bool := match o with SwitchTo _ | ReconcileFull => true | _ => false end.
(** The three budgets of a piece of the connect. *)
Definition costs {A} (l s m : nat) (t : C A) : Prop :=
  atMost logins l t ∧ atMost statuses s t ∧ atMost starts m t.
Lemma costs_bind {A B} l s m l' s' m' (t : C A) (f : A → C B) :
  costs l s m t → (∀ a, costs l' s' m' (f a)) → costs (l + l') (s + s') (m + m') (bindM t f).
Proof. intros (H1 & H2 & H3) Hf. split_and!; (apply atMost_bindM; [done|intros a; apply (Hf a)]). Qed.
Lemma costs_try {A} l s m l' s' m' (t : C A) (c : CErr → C A) :
  costs l s m t → (∀ e, costs l' s' m' (c e)) → costs (l + l') (s + s') (m + m') (try_catch t c).
Proof. intros (H1 & H2 & H3) Hf. split_and!; (apply atMost_try; [done|intros a; apply (Hf a)]). Qed.
Lemma costs_weaken {A} l s m l' s' m' (t : C A) : l ≤ l' → s ≤ s' → m ≤ m' → costs l s m t → costs l' s' m' t.
Proof. intros Hl Hs Hm (H1 & H2 & H3). split_and!; by eapply atMost_weaken. Qed.
Ltac spend :=
  intros; split_and!;
  repeat first
    [ exact Logic.I
    | progress cbn [bindM try_catch look tell ask call callE do mret' throw io_bind atMost picks logins statuses starts]
    | match goal with |- ∀ _, _ => intros ? end | case_match ].
Lemma freshLogin_costs : costs 1 0 0 freshLogin.
Proof. unfold freshLogin. spend. Qed.
Lemma acquireToken_costs : costs 1 0 0 acquireToken.
Proof.
  apply (costs_bind 0 0 0 1 0 0); [spend|]. intros s. destruct (authToken s) as [t|]; [|apply freshLogin_costs].
  destruct (truthy t); [spend|apply freshLogin_costs].
Qed.
Lemma again_costs :
  costs 1 1 0 (tell (PutAuthToken None) ;;
               let* t := freshLogin in need (BuildApi t) ;; let* h := need (GetStatus t) in mret' (t, h)).
Proof.
  apply (costs_bind 0 0 0 1 1 0); [spend|intros _]. apply (costs_bind 1 0 0 0 1 0); [apply freshLogin_costs|spend].
Qed.
Lemma firstStatus_costs t : costs 1 2 0 (firstStatus t).
Proof.
  apply (costs_try 0 1 0 1 1 0); [spend|]. intros [m i|m].
  - case_bool_decide; [spend|]. destruct (negb _); [spend|apply again_costs].
  - destruct (negb _); [spend|apply again_costs].
Qed.
Lemma establishSession_costs : costs 2 2 0 establishSession.
Proof.
  apply (costs_bind 0 0 0 2 2 0); [spend|intros _]. apply (costs_bind 1 0 0 1 2 0); [apply acquireToken_costs|intros t].
  apply (costs_bind 0 0 0 1 2 0); [spend|intros _]. apply (costs_bind 1 2 0 0 0 0); [apply firstStatus_costs|intros th].
  apply (costs_bind 0 0 0 0 0 0).
  - unfold checkWireCompat. apply (costs_bind 0 0 0 0 0 0); [spend|intros s]. apply (costs_bind 0 0 0 0 0 0).
    + destruct (Wiresig.hashCheck _ _); spend.
    + intros schema. destruct (Wiresig.checkWireCompat _ _ _ _). spend.
  - intros [r|]; [spend|]. destruct (negb _); [spend|]. apply (costs_bind 0 0 0 0 0 0); [unfold refreshShareGrant|intros _; unfold refreshSourceGrants]; spend.
Qed.
Lemma runSwitch_costs m : costs 0 0 1 (runSwitch m).
Proof. unfold runSwitch. destruct m; spend. Qed.
Lemma resolve_costs : costs 0 0 1 resolveAndApplySwitch.
Proof.
  apply (costs_bind 0 0 0 0 0 1); [spend|intros s]. cbv zeta.
  apply (costs_bind 0 0 0 0 0 1); [destruct (foreign s); spend|intros _].
  destruct (applied _); [|apply runSwitch_costs]. apply (costs_bind 0 0 0 0 0 1); [spend|intros _].
  apply (costs_bind 0 0 0 0 0 1); [spend|intros _]. apply (costs_bind 0 0 0 0 0 1); [spend|intros s'; apply runSwitch_costs].
Qed.
Lemma doConnect_costs : costs 2 2 1 doConnect.
Proof.
  apply (costs_bind 2 2 0 0 0 1); [apply establishSession_costs|intros _].
  apply (costs_bind 0 0 1 0 0 0); [apply resolve_costs|intros _; unfold finishConnect; spend].
Qed.
(** The retry of a rejected effect runs it once more, after one login at most. *)
Lemma relogin_costs {A} l s m (fn : C A) : costs l s m fn → costs (S (l + l)) (s + s) (m + m) (withSyncRelogin fn).
Proof.
  intros Hf. unfold withSyncRelogin. replace (S (l + l)) with (l + S l) by lia. apply costs_try; [done|]. intros e.
  apply (costs_bind 0 0 0 (S l) s m); [spend|intros s0]. destruct (_ || _); [spend|].
  apply (costs_bind 0 0 0 (S l) s m); [spend|intros _].
  apply (costs_bind 1 0 0 l s m); [apply freshLogin_costs|intros t].
  apply (costs_bind 0 0 0 l s m); [spend|by intros _].
Qed.

(** ** The theorems *)
Lemma connect_lawful h o k : reach doConnect h (Vis (Call o) k) → allowed h o.
Proof. intros Hr. exact (wp_adequacy _ _ _ _ (safe_doConnect []) _ _ Hr). Qed.
(** The calls that move content or declare the device connected. *)
Definition moves (o : COp) : bool :=
  match o with SwitchTo _ | ReconcileFull | GoLive | PutBaseKey _ | PutPending _ => true | _ => false end.
Definition concludes (o : COp) : bool := match o with GoLive | PutBaseKey _ => true | _ => false end.

(** C23: A connect moves no content and does not go live before the gate: a switch or
    a full reconciliation starts, and a pending switch or the base's owner is
    recorded, only after the server answered the status as ready, with an
    advertised contract that is the verified one or compatible with this build,
    and with access that was not revoked; the live connection and the base's owner
    come only after the switch or the reconciliation succeeded. *)
Theorem connect_gated h o k :
  reach doConnect h (Vis (Call o) k) → moves o = true →
  (session h ∨ ∃ m, called h (SwitchTo m) (Ok tt)) ∧ (concludes o = true → session h ∧ settled h).
Proof.
  intros Hr Hm. apply connect_lawful in Hr. destruct o; try done; cbn in *; try by naive_solver.
  destruct m; naive_solver.
Qed.


(** Credentials go where the settings say and are dropped only for a reason: a
    login sends the stored user name and a stored, non-empty password to the
    configured server, and not while another login is running; a token is
    discarded only after the server answered 401, stored only as a login returned
    it, and used only as it was stored or returned; the password is erased only
    after a login succeeded on a device that does not keep it. *)
Theorem credentials_kept h o k :
  reach doConnect h (Vis (Call o) k) →
  match o with
  | LoginRemote server user pass =>
      ∃ s, looked h s ∧ server = serverUrl s ∧ user = username s ∧ pass = password s ∧
           truthy pass = true ∧ loginInFlight s = false
  | PutAuthToken None => rejected h
  | PutAuthToken (Some t) => ∃ server user pass, called h (LoginRemote server user pass) (Ok t)
  | BuildApi t => tokenFrom h t
  | PutPassword p =>
      p = [] ∧ (∃ s, looked h s ∧ storePassword s = false) ∧
      ∃ server user pass t, called h (LoginRemote server user pass) (Ok t)
  | _ => True
  end.
Proof. intros Hr. apply connect_lawful in Hr. by destruct o. Qed.

(** A connect that returns has connected: it had its session, its switch or
    reconciliation succeeded and the live connection was opened.  Whatever the
    server answers, it makes at most two logins, two status requests and one
    switch or reconciliation, so a rejected token cannot make it loop. *)
Theorem connect_outcome h m :
  reach doConnect h m →
  (m = Ret (Ok tt) → connected h) ∧ spent logins h ≤ 2 ∧ spent statuses h ≤ 2 ∧ spent starts h ≤ 1.
Proof.
  intros Hr. split; [intros ->; exact (wp_adequacy _ _ _ _ (safe_doConnect []) _ _ Hr)|].
  destruct doConnect_costs as (Hl & Hs & Hm). split_and!; by eapply atMost_spent.
Qed.
End Connect.

(** ** A server for the witnesses

    The device holds a stale token and a base of another vault. *)
Definition demoSignature : Wiresig.Signature :=
  {| Wiresig.sig_version := SpecFloat.S754_zero false; Wiresig.api_version := SpecFloat.S754_zero false;
     Wiresig.endpoints := []; Wiresig.types := [] |}.
Definition demoSnap : Snap :=
  {| authToken := Some (js "stale"); password := js "secret"; storePassword := true; loginInFlight := false;
     serverUrl := js "https://s"; username := js "alice"; vaultId := js "notes"; vaultOwner := None; vaultReadOnly := false;
     pendingSwitch := None; baseVaultKey := Some (js "old|/notes"); basePaths := 3;
     verifiedWireHash := None; sharedMounts := false |}.
Definition unauthorized : CErr :=
  EConn (js "unauthorized")
    {| Conn.status := Some 401%Z; Conn.retryAfterSecs := None; Conn.wasLogin := false; Conn.endpoint := Conn.VaultStatus;
       Conn.synthetic := None; Conn.bodyHint := None; Conn.hasStoredPassword := true |}.
Definition demoStatus : Wire.StatusResponse :=
  {| Wire.status := js "ready"; Wire.detail := []; Wire.s_version := 1; Wire.apiVersion := None; Wire.schemaHash := Some (js "h1") |}.
Definition connectWorld (s : Snap) (o : COp) : CAns o * Snap :=
  match o return CAns o * Snap with
  | Look => (s, s)
  | PutPending m => (tt, withPending m s)
  | JoinLogin => (Throw (EOther []), s)
  | LoginRemote _ _ _ => (Ok (js "fresh"), s)
  | BuildApi _ | SwitchTo _ | ReconcileFull => (Ok tt, s)
  | GetStatus t => ((if t === js "stale" then Throw unauthorized else Ok demoStatus), s)
  | GetSchema _ => (Ok {| Wiresig.sr_hash := js "h1"; Wiresig.signature := demoSignature |}, s)
  | ListShared _ _ => (Ok [], s)
  | _ => (tt, s)
  end.
Definition demoConnect : C unit := doConnect id (λ _, None) demoSignature.
Definition demoStart : conf unit CErr Snap := Conf demoSnap tt [] 0.
Definition isMerge (o : COp) : bool := match o with SwitchTo SMerge => true | _ => false end.
Definition drops (o : COp) : bool := match o with PutAuthToken None => true | _ => false end.
Example connect_gated_witness : ∃ h k,
  reach demoConnect h (Vis (Call GoLive) k) ∧ settled h.
Proof.
  destruct (picked_reach connectWorld (λ _, true) concludes demoConnect demoStart GoLive) as (h & k & Hr);
    [vm_compute; reflexivity|].
  exists h, k. split; [exact Hr|]. exact (proj2 (proj2 (connect_gated id (λ _, None) demoSignature h GoLive k Hr eq_refl) eq_refl)).
Defined.
Example credentials_kept_witness : ∃ h k,
  reach demoConnect h (Vis (Call (PutAuthToken None)) k) ∧ rejected h.
Proof.
  destruct (picked_reach connectWorld (λ _, true) drops demoConnect demoStart (PutAuthToken None)) as (h & k & Hr);
    [vm_compute; reflexivity|].
  exists h, k. split; [exact Hr|]. exact (credentials_kept id (λ _, None) demoSignature h (PutAuthToken None) k Hr).
Defined.
Example connect_outcome_witness : ∃ h,
  reach demoConnect h (Ret (Ok tt)) ∧ connected id demoSignature h ∧ spent logins h ≤ 2.
Proof.
  destruct (run_reach connectWorld (λ _, true) demoConnect demoStart) as [h Hr].
  replace (Effects.run _ _ _ _).1 with (Ok (E := CErr) tt) in Hr by (vm_compute; reflexivity). exists h. split; [exact Hr|].
  destruct (connect_outcome id (λ _, None) demoSignature h _ Hr) as (Hc & Hl & _). split; [apply Hc; reflexivity|exact Hl].
Defined.

(** ** A switch requested while a connect reconciles is lost

    The user picks another vault, to be downloaded over this one, while the
    reconciliation of the old vault is running.  The end of the connect records
    the {i new} vault as the base's owner, so the next connect takes the switch for
    applied, drops it, and reconciles the new vault against the old base. *)
Definition repointed (s : Snap) : Snap :=
  {| authToken := authToken s; password := password s; storePassword := storePassword s; loginInFlight := loginInFlight s;
     serverUrl := serverUrl s; username := username s; vaultId := js "other"; vaultOwner := vaultOwner s;
     vaultReadOnly := vaultReadOnly s; pendingSwitch := Some SDownload; baseVaultKey := baseVaultKey s; basePaths := basePaths s;
     verifiedWireHash := verifiedWireHash s; sharedMounts := sharedMounts s |}.
Definition withKey (k : option jstr) (s : Snap) : Snap :=
  {| authToken := authToken s; password := password s; storePassword := storePassword s; loginInFlight := loginInFlight s;
     serverUrl := serverUrl s; username := username s; vaultId := vaultId s; vaultOwner := vaultOwner s;
     vaultReadOnly := vaultReadOnly s; pendingSwitch := pendingSwitch s; baseVaultKey := k; basePaths := basePaths s;
     verifiedWireHash := verifiedWireHash s; sharedMounts := sharedMounts s |}.
Definition switchingWorld (s : Snap) (o : COp) : CAns o * Snap :=
  match o return CAns o * Snap with
  | ReconcileFull => (Ok tt, if vaultId s === js "notes" then repointed s else s)
  | PutBaseKey k => (tt, withKey (Some k) s)
  | o => connectWorld s o
  end.
Definition settledSnap : Snap := withKey (Some (js "https://s|/notes")) demoSnap.
Definition isReconcile (o : COp) : bool := match o with ReconcileFull => true | _ => false end.
Lemma switch_during_connect_lost :
  let s := cw (Effects.run switchingWorld (λ _, true) demoConnect (Conf settledSnap tt [] 0)).2 in
  foreign id (λ _, None) settledSnap = false ∧ vaultId settledSnap = js "notes" ∧
  vaultId s = js "other" ∧ pendingSwitch s = Some SDownload ∧ applied id (λ _, None) s = true ∧
  picked switchingWorld (λ _, true) (λ o, isReconcile o || match o with SwitchTo _ => true | _ => false end)
    demoConnect (Conf s tt [] 0) = Some ReconcileFull.
Proof. vm_compute. auto 10. Qed.
End Connect.
