(* ===== verification/Account.v ===== *)
(** * Account: the account and the choice of a vault ([client/src/main.ts], [vaultswitch.ts])

    The account operations - every request with the stored token, a rejected one
    renewed once - and the operations that decide which vault this device syncs:
    switching, forking, leaving, disconnecting, with the handlers of the dialog
    that asks for them.  A handler is a tree of calls; the plugin's settings are
    read afresh by [Look], and the fields of the dialog are state that another
    handler of it may change at every call. *)

From S2P Require Import Prelude Effects Connstate Syncengine Links Pass Transport Connect.

Module Account.
Import Pass.

(** ** Calls *)
Record Snap := {
  authToken : option jstr; storePassword : bool; serverUrl : jstr; username : jstr; vaultId : jstr; vaultOwner : option jstr
}.
(** The fields of the switch dialog. *)
Record Dialog := {
  vaults : list jstr; chosen : jstr; newName : jstr; forkName : jstr;
  target : jstr; targetOwner : jstr; targetReadOnly : bool
}.
(** Requests carry the server and the token they are sent with. *)
Inductive AOp : Type :=
| Look | PutToken (t : option jstr) | PutPassword (p : jstr) | PutVaultId (v : jstr)
| PutVault (name : jstr) (owner : option jstr) (readOnly : bool) (pending : SwitchMode)
| Save | Enqueue (e : Engine.EngineEvent) | RefreshPrivacy | Say | CloseDialog | Render | RenderResolve | OpenSwitch | OpenSetup (link : jstr)
| FreshLogin
| ListVaults (server t : jstr) | CreateVault (server t name : jstr) | ListShared (server t : jstr)
| ChangePassword (server t current new : jstr) | MyVaults (server t : jstr) | ShareDelete (server t vault grantee : jstr)
| CreateShareLink (server t vault : jstr) (perm : Transport.SharePerm) (label : jstr) (ttl : option Z)
| ListShareLinks (server t : jstr) | RevokeShareLink (server t id : jstr) | RedeemShareLink (server t link : jstr)
| LeaveShare (server t owner vault : jstr)
| VaultList
| ConfirmMirror (mode : SwitchMode) (name : jstr) | ConfirmFork (name : jstr) | ConfirmLeave (owner vault : jstr).
Definition AAns (o : AOp) : Type :=
  match o with
  | Look => Snap
  | FreshLogin => res Connect.CErr jstr
  | ListVaults _ _ => res Connect.CErr (list jstr)
  | ListShared _ _ => res Connect.CErr (list Transport.SharedVaultRef)
  | MyVaults _ _ => res Connect.CErr (list Transport.VaultShares)
  | ListShareLinks _ _ => res Connect.CErr (list Transport.ShareLinkInfo)
  | ChangePassword _ _ _ _ | CreateShareLink _ _ _ _ _ _ => res Connect.CErr jstr
  | RedeemShareLink _ _ _ => res Connect.CErr Transport.SharedVaultRef
  | CreateVault _ _ _ | ShareDelete _ _ _ _ | RevokeShareLink _ _ _ | LeaveShare _ _ _ _ => res Connect.CErr unit
  | VaultList => res Connect.CErr nat
  | ConfirmMirror _ _ | ConfirmFork _ | ConfirmLeave _ _ => bool
  | _ => unit
  end.
Abbreviation A := (M AAns Dialog Connect.CErr).
Abbreviation AHistory := (hist AAns Dialog Connect.CErr).
Definition look : A Snap := call Look.
Definition tell (o : AOp) : A unit := bindM (call o) (λ _, mret' tt).
Notation need o := (callE o id) (only parsing).

Section Account.
Context (lowerCase : jstr → jstr) (parseURL : jstr → option Links.URL).

(** ** Requests with the stored token *)
Definition acquireToken : A jstr :=
  let* s := look in
  match authToken s with Some t => if truthy t then mret' t else need FreshLogin | None => need FreshLogin end.
Definition withAuth {B} (fn : jstr → A B) : A B :=
  let* token := acquireToken in
  try_catch (fn token) (λ e,
    if negb (Connect.isAuthError e) then throw e
    else tell Say ;; tell (PutToken None) ;; let* fresh := need FreshLogin in fn fresh).
Definition currentVaults : A (list jstr) := withAuth (λ t, let* s := look in need (ListVaults (serverUrl s) t)).
Definition createRemoteVault (name : jstr) : A unit := withAuth (λ t, let* s := look in need (CreateVault (serverUrl s) t name)).
Definition listSharedVaults : A (list Transport.SharedVaultRef) := withAuth (λ t, let* s := look in need (ListShared (serverUrl s) t)).
Definition myVaultShares : A (list Transport.VaultShares) := withAuth (λ t, let* s := look in need (MyVaults (serverUrl s) t)).
Definition listShareLinks : A (list Transport.ShareLinkInfo) := withAuth (λ t, let* s := look in need (ListShareLinks (serverUrl s) t)).
(** The server is read before the token is acquired here. *)
Definition changePassword (current new : jstr) : A unit :=
  let* s := look in
  let* t := acquireToken in
  let* fresh := need (ChangePassword (serverUrl s) t current new) in
  tell (PutToken (Some fresh)) ;;
  let* s := look in
  (whenM (storePassword s) then tell (PutPassword new)) ;;
  tell Save.
Definition unshareVault (vault grantee : jstr) : A unit :=
  withAuth (λ t, let* s := look in need (ShareDelete (serverUrl s) t vault grantee)) ;; tell RefreshPrivacy.
Definition linkFailed (e : Links.LinkError) : Connect.CErr := Connect.EOther [].
Definition createShareLink (vault : jstr) (perm : Transport.SharePerm) (label : jstr) (ttl : option Z) : A jstr :=
  let* token := withAuth (λ t, let* s := look in need (CreateShareLink (serverUrl s) t vault perm label ttl)) in
  tell RefreshPrivacy ;;
  let* s := look in
  match Links.encodeShareLink lowerCase parseURL {| Links.tl_server := serverUrl s; Links.tl_token := token |} with
  | Ok l => mret' l
  | Throw e => throw (linkFailed e)
  end.
Definition revokeShareLink (id : jstr) : A unit :=
  withAuth (λ t, let* s := look in need (RevokeShareLink (serverUrl s) t id)) ;; tell RefreshPrivacy.
Definition redeemShareLink (link : jstr) : A Transport.SharedVaultRef :=
  match Links.parseShareLink lowerCase parseURL link with
  | Throw e => throw (linkFailed e)
  | Ok l =>
      let* s := look in
      match Links.redeemTargetError lowerCase parseURL (Links.tl_server l) (serverUrl s) with
      | Some _ => throw (Connect.EOther [])
      | None => withAuth (λ t, let* s := look in need (RedeemShareLink (serverUrl s) t (Links.tl_token l)))
      end
  end.
(** A link for another server, or before the setup, opens the setup. *)
Definition startRedeem (link : jstr) : A unit :=
  match Links.parseShareLink lowerCase parseURL link with
  | Throw _ => tell Say
  | Ok l =>
      let* s := look in
      match Links.redeemTargetError lowerCase parseURL (Links.tl_server l) (serverUrl s) with
      | Some _ => tell (OpenSetup link)
      | None => try_catch (let* ref := redeemShareLink link in tell Say ;; tell OpenSwitch) (λ _, tell Say)
      end
  end.

(** ** The vault this device syncs *)
Definition disconnect : A unit :=
  tell (PutVaultId []) ;; tell Save ;; tell (Enqueue Engine.EvDisconnect) ;; tell Say.
Definition signOut : A unit := tell (PutToken None) ;; tell (PutPassword []) ;; disconnect.
Definition switchToVault (name : jstr) (mode : SwitchMode) (owner : jstr) (readOnly : bool) : A unit :=
  tell (PutVault name (if truthy owner then Some owner else None) readOnly mode) ;; tell Save ;; tell (Enqueue Engine.EvConnect).
Definition forkVault (name : jstr) : A unit := createRemoteVault name ;; switchToVault name SUpload [] false.
Definition leaveSharedVault (owner vault : jstr) : A unit :=
  withAuth (λ t, let* s := look in need (LeaveShare (serverUrl s) t owner vault)) ;;
  let* s := look in
  whenM (bool_decide (vaultOwner s = Some owner) && (vaultId s === vault)) then disconnect.
Definition recreateVault : A unit :=
  try_catch
    (withAuth (λ t, let* s := look in need (CreateVault (serverUrl s) t (vaultId s))) ;; tell Say ;; tell (Enqueue Engine.EvConnect))
    (λ _, tell Say).
(** A listing that fails counts as an empty vault. *)
Definition hasLocalData : A bool := try_catch (let* n := need VaultList in mret' (0 <? n)) (λ _, mret' false).

(** ** The switch dialog *)
(** [/^[a-z0-9._-]{1,64}$/], and not one of the two dots. *)
Definition nameUnit (c : N) : bool :=
  is_lower c || bool_decide (48 ≤ c ∧ c ≤ 57)%N || (c =? 46)%N || (c =? 95)%N || (c =? 45)%N.
Definition isValidVaultName (name : jstr) : bool :=
  bool_decide (1 ≤ length name ≤ 64) && forallb nameUnit name && negb (name === js ".") && negb (name === js "..").
Definition sanitizeVaultName (name : jstr) : jstr := lowerCase (trim name).
Definition putTarget (name owner : jstr) (readOnly : bool) (d : Dialog) : Dialog :=
  {| vaults := vaults d; chosen := chosen d; newName := newName d; forkName := forkName d;
     target := name; targetOwner := owner; targetReadOnly := readOnly |}.
Definition putVaults (l : list jstr) (current : jstr) (d : Dialog) : Dialog :=
  {| vaults := l; chosen := if truthy current then current else default [] (head l); newName := newName d; forkName := forkName d;
     target := target d; targetOwner := targetOwner d; targetReadOnly := targetReadOnly d |}.
Definition load : A unit :=
  try_catch
    (let* l := currentVaults in
     let* s := look in
     modify (putVaults l (vaultId s)) ;;
     try_catch (listSharedVaults ;; mret' tt) (λ _, mret' tt))
    (λ _, tell Say) ;;
  tell Render.
Definition applySwitch (mode : SwitchMode) : A unit :=
  let* goOn := match mode with
               | SMerge => mret' true
               | _ => let* d := getS in (call (ConfirmMirror mode (target d)) : A bool)
               end in
  if negb goOn then mret' tt
  else
    tell CloseDialog ;; tell Say ;;
    try_catch (let* d := getS in switchToVault (target d) mode (targetOwner d) (targetReadOnly d) ;; tell Say) (λ _, tell Say).
(** With content here the user is asked how to combine the two. *)
Definition adopt : A unit :=
  let* there := hasLocalData in if there then tell RenderResolve else applySwitch SDownload.
Definition doSwitch : A unit :=
  try_catch
    (let* d := getS in
     let* vault :=
       if truthy (newName d) then
         let name := sanitizeVaultName (newName d) in
         if negb (isValidVaultName name) then tell Say ;; mret' None
         else createRemoteVault name ;; mret' (Some name)
       else mret' (Some (chosen d)) in
     match vault with
     | None => mret' tt
     | Some vault =>
         if negb (truthy vault) then tell Say
         else modify (putTarget vault [] false) ;; adopt
     end)
    (λ _, tell Say).
Definition doFork : A unit :=
  let* d := getS in
  let name := sanitizeVaultName (forkName d) in
  if negb (isValidVaultName name) then tell Say
  else
    let* goOn := if bool_decide (name ∈ vaults d) then (call (ConfirmFork name) : A bool) else mret' true in
    if negb goOn then mret' tt
    else tell CloseDialog ;; tell Say ;; try_catch (forkVault name ;; tell Say) (λ _, tell Say).
Definition selectShared (ref : Transport.SharedVaultRef) : A unit :=
  modify (putTarget (Transport.sv_vault ref) (Transport.sv_owner ref)
            (match Transport.sv_perm ref with Transport.PReadWrite => false | Transport.PRead => true end)) ;;
  try_catch adopt (λ _, tell Say).
Definition leaveShared (ref : Transport.SharedVaultRef) : A unit :=
  let* goOn := (call (ConfirmLeave (Transport.sv_owner ref) (Transport.sv_vault ref)) : A bool) in
  if negb goOn then mret' tt
  else try_catch (leaveSharedVault (Transport.sv_owner ref) (Transport.sv_vault ref) ;; tell Say ;; tell CloseDialog) (λ _, tell Say).

(** ** What the calls of these operations stand on *)
Implicit Types (h : AHistory).
(** The token a request is sent with, and the error it came back with. *)
Definition sentWith (o : AOp) : option jstr :=
  match o with
  | ListVaults _ t | CreateVault _ t _ | ListShared _ t | ChangePassword _ t _ _ | MyVaults _ t | ShareDelete _ t _ _
  | CreateShareLink _ t _ _ _ _ | ListShareLinks _ t | RevokeShareLink _ t _ | RedeemShareLink _ t _ | LeaveShare _ t _ _ => Some t
  | _ => None
  end.
Definition failure {B} (r : res Connect.CErr B) : option Connect.CErr := match r with Throw e => Some e | Ok _ => None end.
Definition errorOf (o : AOp) : AAns o → option Connect.CErr :=
  match o with
  | ListVaults _ _ | CreateVault _ _ _ | ListShared _ _ | ChangePassword _ _ _ _ | MyVaults _ _ | ShareDelete _ _ _ _
  | CreateShareLink _ _ _ _ _ _ | ListShareLinks _ _ | RevokeShareLink _ _ _ | RedeemShareLink _ _ _ | LeaveShare _ _ _ _ => failure
  | _ => λ _, None
  end.
Definition looked h s : Prop := called h Look s.
Definition tokenFrom h (t : jstr) : Prop :=
  (∃ s, looked h s ∧ authToken s = Some t ∧ truthy t = true) ∨ called h FreshLogin (Ok t).
Definition rejected h : Prop :=
  ∃ o r e, is_Some (sentWith o) ∧ called h o r ∧ errorOf o r = Some e ∧ Connect.isAuthError e = true.
Definition seen h (d : Dialog) : Prop := saw h d.
(** Why a device may be pointed at a vault. *)
Definition consented h (name : jstr) (owner : option jstr) (readOnly : bool) (mode : SwitchMode) : Prop :=
  (∃ d, seen h d ∧ name = target d ∧ owner = (if truthy (targetOwner d) then Some (targetOwner d) else None) ∧
        readOnly = targetReadOnly d ∧ (mode = SMerge ∨ ∃ t, called h (ConfirmMirror mode t) true)) ∨
  (mode = SUpload ∧ owner = None ∧ readOnly = false ∧ (∃ s t, called h (CreateVault s t name) (Ok tt)) ∧
   ((∃ d, seen h d ∧ name ∉ vaults d) ∨ called h (ConfirmFork name) true)).
Definition left h : Prop :=
  ∃ owner vault s t, called h (ConfirmLeave owner vault) true ∧ called h (LeaveShare (serverUrl s) t owner vault) (Ok tt) ∧
    ∃ s', looked h s' ∧ vaultOwner s' = Some owner ∧ vaultId s' = vault.
Definition permitted h (o : AOp) : Prop :=
  (∀ t, sentWith o = Some t → tokenFrom h t) ∧
  match o with
  | PutToken None => rejected h
  | PutToken (Some t) => ∃ s t0 c n, called h (ChangePassword s t0 c n) (Ok t)
  | PutPassword p => ∃ s t0 c t, called h (ChangePassword s t0 c p) (Ok t) ∧ ∃ s', looked h s' ∧ storePassword s' = true
  | PutVault name owner readOnly mode => consented h name owner readOnly mode
  | CreateVault _ _ name => isValidVaultName name = true ∨ ∃ s, looked h s ∧ vaultId s = name
  | PutVaultId v => v = [] ∧ left h
  | Enqueue Engine.EvDisconnect => left h
  | _ => True
  end.
Lemma consented_mono h h' n o r m : h ⊑ h' → consented h n o r m → consented h' n o r m.
Proof.
  intros Hs [(d & Hd & ? & ? & ? & Hm)|(? & ? & ? & (s & t & Hc) & Hv)].
  - left. exists d. split_and!; [by eapply saw_mono|done..|]. destruct Hm as [?|[t Ht]]; [by left|right; exists t; by eapply called_mono].
  - right. split_and!; [done..|exists s, t; by eapply called_mono|].
    destruct Hv as [(d & Hd & Hn)|Hc']; [left; exists d; split; [by eapply saw_mono|done]|right; by eapply called_mono].
Qed.
Lemma left_mono h h' : h ⊑ h' → left h → left h'.
Proof.
  intros Hs (ow & v & s & t & H1 & H2 & s' & H3 & ?). exists ow, v, s, t. split_and!; [by eapply called_mono..|].
  exists s'. split; [by eapply called_mono|done].
Qed.
#[local] Instance permitted_justified : Justified permitted.
Proof.
  intros h h' o Hs [Ht Ho]. split.
  - intros t H. destruct (Ht t H) as [(s & Hl & ?)|Hc]; [left; exists s; split; [by eapply called_mono|done]|right; by eapply called_mono].
  - destruct o as [|[t|]|p|v|n ow r m| |[]| | | | | | | | | |? ? n| | | | | | | | | | | | |]; try done; cbn in *.
    + destruct Ho as (s & t0 & c & n & Hc). exists s, t0, c, n. by eapply called_mono.
    + destruct Ho as (o & r & e & ? & Hc & ?). exists o, r, e. split_and!; [done|by eapply called_mono|naive_solver..].
    + destruct Ho as (s & t0 & c & t & Hc & s' & Hl & ?). exists s, t0, c, t. split; [by eapply called_mono|].
      exists s'. split; [by eapply called_mono|done].
    + destruct Ho as [? Ho]. split; [done|by eapply left_mono].
    + by eapply consented_mono.
    + by eapply left_mono.
    + destruct Ho as [?|(s & Hl & ?)]; [by left|right; exists s; split; [by eapply called_mono|done]].
Qed.
Lemma reads_safe (Q : res Connect.CErr Snap → AHistory → Prop) h :
  (∀ s h', h ⊑ h' → looked h' s → Q (Ok s) h') → safe permitted look Q h.
Proof. intros HQ. apply (safe_call permitted Look); [by split|]. intros s h' Hs Hc. by apply HQ. Qed.
Lemma tells_safe o (Q : res Connect.CErr unit → AHistory → Prop) h :
  permitted h o → (∀ h', h ⊑ h' → Q (Ok tt) h') → safe permitted (tell o) Q h.
Proof. intros Ho HQ. apply (safe_bind permitted), safe_call; [done|]. intros r h' Hs Hc _. by apply safe_ret, HQ. Qed.
Lemma login_safe (Q : res Connect.CErr jstr → AHistory → Prop) h :
  (∀ t h', h ⊑ h' → tokenFrom h' t → Q (Ok t) h') → (∀ e h', h ⊑ h' → Q (Throw e) h') → safe permitted (need FreshLogin) Q h.
Proof.
  intros HQ HE. apply (safe_callE permitted _ FreshLogin); [by split|]. intros [t|e] h' Hs Hc; [apply HQ; [done|by right]|by apply HE].
Qed.
Lemma acquire_safe (Q : res Connect.CErr jstr → AHistory → Prop) h :
  (∀ t h', h ⊑ h' → tokenFrom h' t → Q (Ok t) h') → (∀ e h', h ⊑ h' → Q (Throw e) h') → safe permitted acquireToken Q h.
Proof.
  intros HQ HE. apply (safe_bind permitted), reads_safe. intros s h1 Hs1 Hl _.
  assert (HF : safe permitted (need FreshLogin) Q h1).
  { apply login_safe; intros; [apply HQ|apply HE]; try done; by etransitivity. }
  destruct (authToken s) as [t|] eqn:Ht; [|exact HF]. destruct (truthy t) eqn:Htr; [|exact HF]. apply safe_ret, HQ; [done|]. left. by exists s.
Qed.
(** A request may be sent twice; the second time with the token of a login. *)
Definition answers {B} (Q : res Connect.CErr B → AHistory → Prop) (r : res Connect.CErr B) h : Prop :=
  match r with Ok _ => Q r h | Throw e => Q r h ∧ (Connect.isAuthError e = true → rejected h) end.
Lemma withAuth_safe B (fn : jstr → A B) (Q : res Connect.CErr B → AHistory → Prop) h :
  (∀ t h', h ⊑ h' → tokenFrom h' t → safe permitted (fn t) (answers Q) h') → (∀ e h', h ⊑ h' → Q (Throw e) h') →
  safe permitted (withAuth fn) Q h.
Proof.
  intros Hfn HE. unfold withAuth. apply (safe_bind permitted), acquire_safe; [|intros e h1 Hs1 _; by apply HE].
  intros t h1 Hs1 Ht _. apply safe_try. eapply (safe_mono permitted); [|by apply Hfn]. intros [b|e] h2 Hs2 HQ _; [exact HQ|].
  destruct HQ as [HQ Hr]. destruct (Connect.isAuthError e) eqn:He; cbn [negb]; [|by apply safe_throw].
  apply (safe_bind permitted), tells_safe; [by split|]. intros h3 Hs3 _. apply (safe_bind permitted), tells_safe.
  { split; [done|]. destruct (Hr eq_refl) as (o & r & e' & ? & Hc & ?). exists o, r, e'. split_and!; [done|by eapply called_mono|naive_solver..]. }
  intros h4 Hs4 _. apply (safe_bind permitted), login_safe; [|intros e' h5 Hs5 _; apply HE; chain].
  intros t' h5 Hs5 Ht' _. eapply (safe_mono permitted); [|apply Hfn; [chain|exact Ht']]. intros [b|e'] h6 Hs6 HQ'; [done|apply HQ'].
Qed.
(** Every request is a call made with the token; what is left is what is asked of
    the request itself. *)
Local Ltac request :=
  apply withAuth_safe;
  [ let t := fresh "t" in let Ht := fresh "Ht" in
    intros t ? ? Ht; apply (safe_bind permitted), reads_safe; intros ? ? ? ? _; apply (safe_callE permitted);
    [ split; [intros ? [= <-]; destruct Ht as [(? & ? & ?)|?];
              [left; eexists; split; [by eapply called_mono|done]|right; by eapply called_mono]|]
    | intros [?|?] ? ? ?; cbn [id]; [|split; [|intros ?; eexists _, _, _; split_and!; [|eassumption|done|eassumption]; by eexists]] ]
  | ].
Lemma createVault_safe (name : jstr) (Q : res Connect.CErr unit → AHistory → Prop) h :
  isValidVaultName name = true →
  (∀ server t h', h ⊑ h' → called h' (CreateVault server t name) (Ok tt) → Q (Ok tt) h') → (∀ e h', h ⊑ h' → Q (Throw e) h') →
  safe permitted (createRemoteVault name) Q h.
Proof.
  intros Hv HQ HE. unfold createRemoteVault. request; [by left|destruct a; eapply HQ; [|eassumption]; chain|apply HE; chain|done].
Qed.
Abbreviation allowed m h := (safe permitted m (λ _ _, True) h).
Lemma free_safe o h (Q : res Connect.CErr unit → AHistory → Prop) :
  sentWith o = None → (∀ h, permitted h o) → (∀ h', h ⊑ h' → Q (Ok tt) h') → safe permitted (tell o) Q h.
Proof. intros _ Ho HQ. by apply tells_safe. Qed.
Local Ltac said := apply free_safe; [done|by split|intros ? ?].
Lemma switch_safe name mode owner ro h :
  consented h name (if truthy owner then Some owner else None) ro mode → allowed (switchToVault name mode owner ro) h.
Proof.
  intros Hc. unfold switchToVault. apply (safe_bind permitted), tells_safe; [by split|]. intros h1 _ _.
  apply (safe_bind permitted). said. intros _. by said.
Qed.
Lemma applySwitch_safe mode h : allowed (applySwitch mode) h.
Proof.
  unfold applySwitch. apply (safe_bind permitted).
  apply (safe_mono permitted _ _ (λ r h', ∃ b : bool, r = Ok b ∧ (b = true → mode = SMerge ∨ ∃ t, called h' (ConfirmMirror mode t) true))).
  - intros ? h1 Hs1 (b & -> & Hb) _. destruct b; cbn [negb]; [|done]. specialize (Hb eq_refl).
    apply (safe_bind permitted). said. intros _. apply (safe_bind permitted). said. intros _.
    apply safe_try, (safe_bind permitted), safe_get. intros d h4 Hs4 Hd _. apply (safe_bind permitted).
    eapply (safe_mono permitted); [|apply switch_safe].
    + intros [u|e] h5 Hs5 _ _; [by said|]. intros _. by said.
    + left. exists d. split_and!; [done..|]. destruct Hb as [->|[t Ht]]; [by left|right; exists t; eapply called_mono; [|exact Ht]; chain].
  - destruct mode; [| |apply safe_ret; eexists; split; [done|by left]];
      (apply (safe_bind permitted), safe_get; intros d h1 Hs1 Hd _;
       apply (safe_call permitted (ConfirmMirror _ _)); [by split|]; intros b h2 Hs2 Hc; exists b; split; [done|];
       intros ->; right; by eexists).
Qed.
Lemma adopt_safe h : allowed adopt h.
Proof.
  unfold adopt, hasLocalData. apply (safe_bind permitted), (safe_mono permitted _ _ (λ r _, ∃ b : bool, r = Ok b)).
  - intros ? h1 Hs1 (b & ->) _. destruct b; [by said|apply applySwitch_safe].
  - apply safe_try, (safe_bind permitted), (safe_callE permitted _ VaultList); [by split|].
    intros [n|e] h1 Hs1 Hc; cbn [id]; intros _; [apply safe_ret; intros _; eauto|intros _; apply safe_ret; eauto].
Qed.
Lemma doSwitch_safe h : allowed doSwitch h.
Proof.
  unfold doSwitch. apply safe_try, (safe_bind permitted), safe_get. intros d h1 Hs1 Hd _. apply (safe_bind permitted).
  apply (safe_mono permitted _ _ (λ _ _, True)).
  - intros [[vault|]|e] h2 Hs2 _ _; [|done|intros _; by said]. destruct (negb (truthy vault)); [by said|].
    apply (safe_bind permitted), safe_modify. intros h3 Hs3 _. eapply (safe_mono permitted); [|apply adopt_safe].
    intros [u|e] h4 Hs4 _ _; [done|by said].
  - destruct (truthy (newName d)); [|by apply safe_ret]. cbv zeta. destruct (isValidVaultName _) eqn:Hv; cbn [negb].
    + apply (safe_bind permitted), createVault_safe; [exact Hv| |done]. intros server t h2 Hs2 Hc _. by apply safe_ret.
    + apply (safe_bind permitted). said. intros _. by apply safe_ret.
Qed.
Lemma doFork_safe h : allowed doFork h.
Proof.
  unfold doFork. apply (safe_bind permitted), safe_get. intros d h1 Hs1 Hd _. cbv zeta.
  destruct (isValidVaultName _) eqn:Hv; cbn [negb]; [|by said]. set (name := sanitizeVaultName (forkName d)) in *.
  apply (safe_bind permitted), (safe_mono permitted _ _ (λ r h', ∃ b : bool, r = Ok b ∧
    (b = true → (∃ d, seen h' d ∧ name ∉ vaults d) ∨ called h' (ConfirmFork name) true))).
  - intros ? h2 Hs2 (b & -> & Hb) _. destruct b; cbn [negb]; [|done]. specialize (Hb eq_refl).
    apply (safe_bind permitted). said. intros _. apply (safe_bind permitted). said. intros _.
    apply safe_try. unfold forkVault. apply (safe_bind permitted), (safe_bind permitted), createVault_safe; [exact Hv| |].
    + intros server t h5 Hs5 Hc _. eapply (safe_mono permitted); [|apply switch_safe].
      * intros [u|e] h6 Hs6 _ _; [by said|]. intros _. by said.
      * right. split_and!; [done..|by exists server, t|].
        destruct Hb as [(d' & Hd' & Hn)|Hc']; [left; exists d'; split; [eapply saw_mono; [|exact Hd']; chain|done]|right].
        eapply called_mono; [|exact Hc']. chain.
    + intros e h5 Hs5 _ _ _. by said.
  - case_bool_decide as Hin.
    + apply (safe_call permitted (ConfirmFork name)); [by split|]. intros b h2 Hs2 Hc. exists b. split; [done|]. intros ->. by right.
    + apply safe_ret. exists true. split; [done|]. intros _. left. by exists d.
Qed.
Lemma selectShared_safe ref h : allowed (selectShared ref) h.
Proof.
  unfold selectShared. apply (safe_bind permitted), safe_modify. intros h1 Hs1 _. apply safe_try.
  eapply (safe_mono permitted); [|apply adopt_safe]. intros [u|e] h2 Hs2 _ _; [done|by said].
Qed.
Lemma leaveShared_safe ref h : allowed (leaveShared ref) h.
Proof.
  unfold leaveShared. set (owner := Transport.sv_owner ref). set (vault := Transport.sv_vault ref).
  apply (safe_bind permitted), (safe_call permitted (ConfirmLeave owner vault)); [by split|]. intros b h1 Hs1 Hb _.
  destruct b; cbn [negb]; [|done]. apply safe_try. unfold leaveSharedVault. apply (safe_bind permitted), (safe_bind permitted).
  apply (safe_mono permitted _ _ (λ r h', r = Ok tt → ∃ s t, called h' (LeaveShare (serverUrl s) t owner vault) (Ok tt))).
  2: { request; [done|intros _; destruct a; eexists _, _; eassumption|done|done]. }
  intros [[]|e] h2 Hs2 Hleft _; [|intros _ _; by said]. destruct (Hleft eq_refl) as (s & t & Hc).
  apply (safe_bind permitted), reads_safe. intros s2 h3 Hs3 Hl _.
  assert (Hend : ∀ h', safe permitted (tell Say ;; tell CloseDialog)
    (λ r h', h1 ⊑ h' → match r with Ok a => True | Throw e => allowed (tell Say) h' end) h').
  { intros h'. apply (safe_bind permitted). said. intros _. by said. }
  destruct (bool_decide _ && _) eqn:Hb2; [|by intros _; apply Hend].
  apply andb_true_iff in Hb2 as [Ho%bool_decide_eq_true Hv%jeq_true].
  assert (Hgone : ∀ h', h3 ⊑ h' → left h').
  { intros h' Hs. exists owner, vault, s, t. split_and!; [eapply called_mono; [|exact Hb]; chain|eapply called_mono; [|exact Hc]; chain|].
    exists s2. split; [by eapply called_mono|done]. }
  unfold disconnect. apply (safe_bind permitted), tells_safe; [split; [done|split; [done|by apply Hgone]]|]. intros h4 Hs4 _.
  apply (safe_bind permitted). said. intros _. apply (safe_bind permitted), tells_safe; [split; [done|apply Hgone; chain]|]. intros h6 Hs6 _.
  said. intros _. apply Hend.
Qed.
Lemma load_safe h : allowed load h.
Proof.
  unfold load. apply (safe_bind permitted), (safe_mono permitted _ _ (λ _ _, True)); [intros [u|e] h1 _ _ _; [by said|done]|].
  apply safe_try, (safe_bind permitted), (safe_mono permitted _ _ (λ _ _, True)); [|request; done].
  intros [l|e] h1 Hs1 _ _; [|intros _; by said]. apply (safe_bind permitted), reads_safe. intros s h2 Hs2 _ _.
  apply (safe_bind permitted), safe_modify. intros h3 Hs3 _. apply safe_try, (safe_bind permitted).
  apply (safe_mono permitted _ _ (λ _ _, True)); [|request; done]. by intros [x|e] h4 _ _ _ _.
Qed.
Lemma changePassword_safe c n h : allowed (changePassword c n) h.
Proof.
  unfold changePassword. apply (safe_bind permitted), reads_safe. intros s h1 Hs1 _ _.
  apply (safe_bind permitted), acquire_safe; [|done]. intros t h2 Hs2 Ht _.
  apply (safe_bind permitted), (safe_callE permitted _ (ChangePassword (serverUrl s) t c n)); [split; [by intros ? [= <-]|done]|].
  intros [t'|e] h3 Hs3 Hc _; [|done]. cbn [id] in *. apply (safe_bind permitted), tells_safe; [split; [done|by eexists _, _, _, _]|].
  intros h4 Hs4 _. apply (safe_bind permitted), reads_safe. intros s2 h5 Hs5 Hl _.
  apply (safe_bind permitted), (safe_mono permitted _ _ (λ _ _, True)); [intros [u|e] h6 _ _ _; [by said|done]|].
  destruct (storePassword s2) eqn:Hst; [|done]. apply tells_safe; [|done]. split; [done|].
  eexists _, _, _, _. split; [eapply called_mono; [|exact Hc]; chain|]. by exists s2.
Qed.
Lemma recreate_safe h : allowed recreateVault h.
Proof.
  unfold recreateVault. apply safe_try, (safe_bind permitted), (safe_mono permitted _ _ (λ _ _, True)).
  - intros [u|e] h1 Hs1 _ _; [|intros _; by said]. apply (safe_bind permitted). said. intros _. by said.
  - request; [right; by eexists|done..].
Qed.
End Account.

(** ** Concrete runs *)
Definition snap : Snap :=
  {| authToken := Some (js "old"); storePassword := true; serverUrl := js "https://s"; username := js "me"; vaultId := js "mine"; vaultOwner := None |}.
Definition dialog : Dialog :=
  {| vaults := [js "mine"; js "other"]; chosen := js "mine"; newName := js "New "; forkName := js "Copy"; target := js "theirs";
     targetOwner := js "bob"; targetReadOnly := true |}.
Definition expired : Connect.CErr :=
  Connect.EConn (js "unauthorized") {| Conn.status := Some 401%Z; Conn.retryAfterSecs := None; Conn.wasLogin := false; Conn.endpoint := Conn.OtherEndpoint;
    Conn.synthetic := None; Conn.bodyHint := None; Conn.hasStoredPassword := false |}.
(** A server that knows one token, a user who says yes; the calls are kept. *)
Record World := { files : option nat; made : list AOp }.
Definition request {B} (t : jstr) (b : B) : res Connect.CErr B := if t === js "new" then Ok b else Throw expired.
Definition world (w : World) (o : AOp) : AAns o * World :=
  (match o return AAns o with
   | Look => snap
   | FreshLogin => Ok (js "new")
   | ListVaults _ t => request t []
   | ListShared _ t => request t []
   | MyVaults _ t => request t []
   | ListShareLinks _ t => request t []
   | ChangePassword _ t _ _ => request t (js "newer")
   | CreateShareLink _ t _ _ _ _ => request t (js "link")
   | RedeemShareLink _ t _ => Throw expired
   | CreateVault _ t _ => request t tt
   | ShareDelete _ t _ _ => request t tt
   | RevokeShareLink _ t _ => request t tt
   | LeaveShare _ t _ _ => request t tt
   | VaultList => match files w with Some n => Ok n | None => Throw expired end
   | ConfirmMirror _ _ | ConfirmFork _ | ConfirmLeave _ _ => true
   | PutToken _ | PutPassword _ | PutVaultId _ | PutVault _ _ _ _ | Save | Enqueue _ | RefreshPrivacy | Say | CloseDialog | Render
   | RenderResolve | OpenSwitch | OpenSetup _ => tt
   end, {| files := files w; made := made w ++ [o] |}).
Definition keptCalls (sel : AOp → bool) (sched : nat → bool) (tasks : list (A unit)) (n : option nat) : list AOp :=
  List.filter sel (made (cw (Effects.run world sched (par_list tasks) (Conf {| files := n; made := [] |} dialog [] 0)).2)).
Definition decisive (o : AOp) : bool :=
  match o with PutVault _ _ _ _ | CreateVault _ _ _ | ConfirmMirror _ _ | RenderResolve | PutToken _ => true | _ => false end.
Definition always : nat → bool := λ _, true.
(** A fork: the first request is rejected, the second creates the vault. *)
Example fork_runs :
  keptCalls decisive always [doFork lower] (Some 3) =
    [CreateVault (js "https://s") (js "old") (js "copy"); PutToken None; CreateVault (js "https://s") (js "new") (js "copy");
     PutVault (js "copy") None false SUpload].
Proof. vm_compute. done. Qed.

(** ** What modelling showed *)
(** A vault that cannot be listed counts as empty: mirroring the target over it is
    asked for, and the question how to combine the two is not. *)
Lemma unreadable_vault_reads_as_empty :
  let ref := {| Transport.sv_owner := js "bob"; Transport.sv_vault := js "theirs"; Transport.sv_perm := Transport.PRead |} in
  keptCalls decisive always [selectShared ref] None =
    [ConfirmMirror SDownload (js "theirs"); PutVault (js "theirs") (Some (js "bob")) true SDownload] ∧
  keptCalls decisive always [selectShared ref] (Some 1) = [RenderResolve].
Proof. vm_compute. done. Qed.
(** Adopting a vault without a prompt asks for confirmation. *)
Lemma adopting_still_asks :
  keptCalls decisive always [applySwitch SDownload] (Some 0) = [ConfirmMirror SDownload (js "theirs"); PutVault (js "theirs") (Some (js "bob")) true SDownload].
Proof. vm_compute. done. Qed.
(** What the user confirmed and what happens can differ: a handler that creates a
    vault runs on while the question is open, and moves the target. *)
Lemma confirmed_target_can_change :
  keptCalls decisive (λ i, 2 <=? i) [doSwitch lower; applySwitch SDownload] (Some 1) =
    [ConfirmMirror SDownload (js "theirs"); CreateVault (js "https://s") (js "old") (js "new"); PutToken None;
     CreateVault (js "https://s") (js "new") (js "new"); RenderResolve; PutVault (js "new") None false SDownload].
Proof. vm_compute. done. Qed.
End Account.
