(* ===== verification/Wizard.v ===== *)
(** * Wizard: the setup wizard ([client/src/setupwizard.ts], [wizardsteps.ts])

    Signing in or creating an account, the forced change of a password, the
    links that prefill the form, and the two ways a setup ends: a vault of one's
    own, or one that was shared by a link.  A handler is a tree of calls; the
    fields of the form are state, read again after every wait as the code reads
    them, and the user may edit them at any time.  The operations of [Account]
    that the wizard uses are calls here. *)

From S2P Require Import Prelude Effects Connstate Links Pass Transport Account.

Module Wizard.
Import Pass.

(** ** Calls *)
Record Snap := { serverUrl : jstr; username : jstr; vaultId : jstr; storePassword : bool }.
(** [WizardState] with the fields of the modal. *)
Record Form := {
  server : jstr; serverOk : bool; register : bool; user : jstr; password : jstr; loggedIn : bool;
  vaults : list jstr; chosenVault : jstr; newVault : jstr; invite : option jstr;
  token : jstr; pendingShareLink : jstr
}.
Inductive WOp : Type :=
| Look | PutServer (url : jstr) | PutUsername (u : jstr) | PutToken (t : jstr) | PutPassword (p : jstr) | PutVaultId (v : jstr)
| PutShared (v : jstr) (owner : option jstr) (readOnly : bool) | Save | Reconnect | Say | Render | PromptMustChange | CloseDialog
| TestConnection (server : jstr) | FetchBanner (server : jstr)
| Register (server u p invite : jstr) | Login (server u p : jstr) | RedeemRegister (server t u p : jstr)
| ChangePassword (server t current new : jstr) | ListVaults (server t : jstr) | CreateVault (server t name : jstr)
| RedeemShareLink (link : jstr) | HasLocalData | SwitchToVault (name : jstr) (mode : SwitchMode) (owner : jstr) (readOnly : bool).
Definition Error : Type := unit.
Definition WAns (o : WOp) : Type :=
  match o with
  | Look => Snap
  | TestConnection _ | HasLocalData => bool
  | Register _ _ _ _ | CreateVault _ _ _ | SwitchToVault _ _ _ _ => res Error unit
  | Login _ _ _ => res Error (jstr * bool)
  | RedeemRegister _ _ _ _ => res Error (jstr * Transport.SharedVaultRef)
  | ChangePassword _ _ _ _ => res Error jstr
  | ListVaults _ _ => res Error (list jstr)
  | RedeemShareLink _ => res Error Transport.SharedVaultRef
  | _ => unit
  end.
Abbreviation W := (M WAns Form Error).
Abbreviation WHistory := (hist WAns Form Error).
Definition look : W Snap := call Look.
Definition tell (o : WOp) : W unit := bindM (call o) (λ _, mret' tt).
Notation need o := (callE o id) (only parsing).

(** *** Assignments to the form *)
Definition setServer (v : jstr) (d : Form) : Form :=
  {| server := v; serverOk := false; register := register d; user := user d; password := password d; loggedIn := loggedIn d;
     vaults := vaults d; chosenVault := chosenVault d; newVault := newVault d; invite := invite d; token := token d;
     pendingShareLink := pendingShareLink d |}.
Definition setOk (b : bool) (d : Form) : Form :=
  {| server := server d; serverOk := b; register := register d; user := user d; password := password d; loggedIn := loggedIn d;
     vaults := vaults d; chosenVault := chosenVault d; newVault := newVault d; invite := invite d; token := token d;
     pendingShareLink := pendingShareLink d |}.
Definition setToken (t : jstr) (d : Form) : Form :=
  {| server := server d; serverOk := serverOk d; register := register d; user := user d; password := password d; loggedIn := loggedIn d;
     vaults := vaults d; chosenVault := chosenVault d; newVault := newVault d; invite := invite d; token := t;
     pendingShareLink := pendingShareLink d |}.
Definition setPassword (p : jstr) (d : Form) : Form :=
  {| server := server d; serverOk := serverOk d; register := register d; user := user d; password := p; loggedIn := loggedIn d;
     vaults := vaults d; chosenVault := chosenVault d; newVault := newVault d; invite := invite d; token := token d;
     pendingShareLink := pendingShareLink d |}.
Definition setPending (l : jstr) (d : Form) : Form :=
  {| server := server d; serverOk := serverOk d; register := register d; user := user d; password := password d; loggedIn := loggedIn d;
     vaults := vaults d; chosenVault := chosenVault d; newVault := newVault d; invite := invite d; token := token d;
     pendingShareLink := l |}.
Definition setInvite (server_ t : jstr) (d : Form) : Form :=
  {| server := server_; serverOk := false; register := true; user := user d; password := password d; loggedIn := loggedIn d;
     vaults := vaults d; chosenVault := chosenVault d; newVault := newVault d; invite := Some t; token := token d;
     pendingShareLink := pendingShareLink d |}.
Definition setSetup (server_ u : jstr) (vault : option jstr) (d : Form) : Form :=
  {| server := server_; serverOk := false; register := register d; user := u; password := password d; loggedIn := loggedIn d;
     vaults := vaults d; chosenVault := match vault with Some v => if truthy v then v else chosenVault d | None => chosenVault d end;
     newVault := newVault d; invite := invite d; token := token d; pendingShareLink := pendingShareLink d |}.
Definition setVaults (l : list jstr) (d : Form) : Form :=
  {| server := server d; serverOk := true; register := register d; user := user d; password := password d; loggedIn := true;
     vaults := l; chosenVault := if bool_decide (chosenVault d ∈ l) then chosenVault d else default (chosenVault d) (head l);
     newVault := newVault d; invite := invite d; token := token d; pendingShareLink := pendingShareLink d |}.
Definition setSignedOut (d : Form) : Form :=
  {| server := server d; serverOk := serverOk d; register := register d; user := user d; password := []; loggedIn := false;
     vaults := []; chosenVault := chosenVault d; newVault := newVault d; invite := invite d; token := token d;
     pendingShareLink := pendingShareLink d |}.

Section Wizard.
Context (lowerCase : jstr → jstr) (parseURL : jstr → option Links.URL).
Definition orFail {A} (r : res Links.LinkError A) : W A := match r with Ok a => mret' a | Throw _ => throw tt end.

(** ** Steps of the wizard *)
Definition canLogIn (s : Form) : bool := truthy (server s) && truthy (user s) && truthy (password s).
Definition canFinish (s : Form) : bool := loggedIn s && (truthy (chosenVault s) || truthy (trim (newVault s))).
Record PersistedCredentials := { pc_serverUrl : jstr; pc_username : jstr; pc_password : jstr; pc_vaultId : jstr; pc_authToken : jstr }.
Definition wizardCredentials (s : Form) (vault token_ : jstr) (store : bool) : PersistedCredentials :=
  {| pc_serverUrl := server s; pc_username := user s; pc_password := if store then password s else []; pc_vaultId := vault; pc_authToken := token_ |}.
Definition canonical (u : jstr) : jstr := lowerCase (trim u).
(** [isOwnAccount] of the plugin. *)
Definition isOwnAccount (owner : jstr) (s : Snap) : bool := truthy (canonical owner) && (canonical owner === canonical (username s)).

(** The form as it opens: a share link fixes the server. *)
Definition opened (shareLink : option jstr) (s : Snap) : Form :=
  let pending := default [] shareLink in
  let linkServer := if truthy pending then match Links.parseShareLink lowerCase parseURL pending with Ok l => Links.tl_server l | Throw _ => [] end else [] in
  {| server := if truthy linkServer then linkServer else serverUrl s; serverOk := false; register := false; user := username s; password := [];
     loggedIn := false; vaults := []; chosenVault := vaultId s; newVault := []; invite := None; token := []; pendingShareLink := pending |}.
Definition typeServer (v : jstr) : W unit := modify (setServer (trim v)).
Definition withFields (r : bool) (u p : jstr) (d : Form) : Form :=
  {| server := server d; serverOk := serverOk d; register := r; user := u; password := p; loggedIn := loggedIn d;
     vaults := vaults d; chosenVault := chosenVault d; newVault := newVault d; invite := invite d; token := token d;
     pendingShareLink := pendingShareLink d |}.
Definition withVault (chosen new : jstr) (d : Form) : Form :=
  {| server := server d; serverOk := serverOk d; register := register d; user := user d; password := password d; loggedIn := loggedIn d;
     vaults := vaults d; chosenVault := chosen; newVault := new; invite := invite d; token := token d;
     pendingShareLink := pendingShareLink d |}.
Definition selectMode (r : bool) : W unit := modify (λ d, withFields r (user d) (password d) d).
Definition typeUser (v : jstr) : W unit := modify (λ d, withFields (register d) (canonical v) (password d) d).
Definition typePassword (v : jstr) : W unit := modify (λ d, withFields (register d) (user d) v d).
Definition chooseVault (v : jstr) : W unit := modify (withVault v []).
Definition typeNewVault (v : jstr) : W unit := modify (λ d, withVault (chosenVault d) (Account.sanitizeVaultName lowerCase v) d).
Definition signOut : W unit := modify setSignedOut ;; tell Render.

Definition persistSession : W unit :=
  let* d := getS in
  tell (PutServer (server d)) ;; tell (PutUsername (canonical (user d))) ;; tell (PutToken (token d)) ;;
  let* s := look in
  tell (PutPassword (if storePassword s then password d else [])).
Definition adoptRedeemed (ref : Transport.SharedVaultRef) : W unit :=
  let* s := look in
  let own := isOwnAccount (Transport.sv_owner ref) s in
  let owner := if own then [] else Transport.sv_owner ref in
  let readOnly := if own then false else match Transport.sv_perm ref with Transport.PRead => true | Transport.PReadWrite => false end in
  tell Say ;; tell CloseDialog ;;
  let* there := (call HasLocalData : W bool) in
  if there then need (SwitchToVault (Transport.sv_vault ref) SMerge owner readOnly)
  else tell (PutShared (Transport.sv_vault ref) (if truthy owner then Some owner else None) readOnly) ;; tell Save ;; tell Reconnect.
Definition finishRedeem : W unit :=
  persistSession ;; tell Save ;;
  try_catch (let* d := getS in let* ref := need (RedeemShareLink (pendingShareLink d)) in adoptRedeemed ref)
    (λ _, tell Say ;; tell Render).
Definition afterAuthenticated : W unit :=
  let* d := getS in
  if truthy (pendingShareLink d) then finishRedeem
  else let* l := need (ListVaults (server d) (token d)) in modify (setVaults l) ;; tell Render.
Definition doLogin : W unit :=
  let* d := getS in
  if negb (canLogIn d) then tell Say
  else try_catch
    (if truthy (pendingShareLink d) && register d then
       let* l := orFail (Links.parseShareLink lowerCase parseURL (pendingShareLink d)) in
       let* r := need (RedeemRegister (Links.tl_server l) (Links.tl_token l) (user d) (password d)) in
       modify (setToken r.1) ;; persistSession ;; tell Save ;; adoptRedeemed r.2
     else
       (if register d then need (Register (server d) (user d) (password d) (default [] (invite d))) else mret' tt) ;;
       let* d := (if register d then getS else mret' d) in
       let* r := need (Login (server d) (user d) (password d)) in
       modify (setToken r.1) ;;
       if r.2 : bool then tell PromptMustChange else afterAuthenticated)
    (λ _, tell Say).
Definition doMustChange (np np2 : jstr) : W unit :=
  if length np <? 8 then tell Say
  else if negb (np === np2) then tell Say
  else try_catch
    (let* d := getS in
     let* t := need (ChangePassword (server d) (token d) (password d) np) in
     modify (setToken t) ;; modify (setPassword np) ;; afterAuthenticated)
    (λ _, tell Say).
Definition doTest : W unit :=
  let* d := getS in
  if negb (truthy (server d)) then tell Say
  else
    let* ok := (call (TestConnection (server d)) : W bool) in
    modify (setOk ok) ;;
    (whenM ok then let* d := getS in tell (FetchBanner (server d))) ;;
    tell Render.
Definition finish : W unit :=
  let* d := getS in
  if negb (loggedIn d) then tell Say
  else try_catch
    (let* vault :=
       if truthy (newVault d) then
         let name := Account.sanitizeVaultName lowerCase (newVault d) in
         if negb (Account.isValidVaultName name) then tell Say ;; mret' None
         else need (CreateVault (server d) (token d) name) ;; mret' (Some name)
       else mret' (Some (chosenVault d)) in
     match vault with
     | None => mret' tt
     | Some vault =>
         if negb (truthy vault) then tell Say
         else
           let* st := look in
           let* d := getS in
           let cred := wizardCredentials d vault (token d) (storePassword st) in
           let vaultChanged := truthy (vaultId st) && (negb (vaultId st === pc_vaultId cred) || negb (serverUrl st === pc_serverUrl cred)) in
           tell (PutServer (pc_serverUrl cred)) ;; tell (PutUsername (canonical (pc_username cred))) ;;
           tell (PutPassword (pc_password cred)) ;; tell (PutToken (pc_authToken cred)) ;;
           let* merge := if vaultChanged then (call HasLocalData : W bool) else mret' false in
           if merge : bool then tell Save ;; tell Say ;; tell CloseDialog ;; need (SwitchToVault (pc_vaultId cred) SMerge [] false)
           else tell (PutVaultId (pc_vaultId cred)) ;; tell Save ;; tell Say ;; tell CloseDialog ;; tell Reconnect
     end)
    (λ _, tell Say).
(** Enter in the field of the password, and in that of a new vault. *)
Definition enterPassword : W unit := let* d := getS in whenM (canLogIn d) then doLogin.
Definition enterVault : W unit := let* d := getS in whenM (canFinish d) then finish.
(** A pasted link; the pending share link is set before it is read. *)
Definition useLink (text : jstr) : W unit :=
  if Links.isShareLink text then
    try_catch
      (modify (setPending text) ;;
       let* l := orFail (Links.parseShareLink lowerCase parseURL text) in
       modify (setServer (Links.tl_server l)) ;; tell Render)
      (λ _, tell Say)
  else if Links.isInviteLink text then
    try_catch
      (let* l := orFail (Links.parseInviteLink lowerCase parseURL text) in
       modify (setInvite (Links.tl_server l) (Links.tl_token l)) ;; tell Render)
      (λ _, tell Say)
  else
    try_catch
      (let* l := orFail (Links.parseSetupLink lowerCase parseURL text) in
       modify (setSetup (Links.sl_server l) (canonical (Links.sl_user l)) (Links.sl_vault l)) ;; tell Render)
      (λ _, tell Say).

(** ** What the calls of the wizard stand on *)
Implicit Types (h : WHistory).
Definition looked h s : Prop := called h Look s.
Definition seen h (d : Form) : Prop := saw h d.
(** A vault that a share link gave access to, adopted as what it is. *)
Definition granted h (v owner : jstr) (readOnly : bool) : Prop :=
  ∃ ref s, ((∃ l, called h (RedeemShareLink l) (Ok ref)) ∨ ∃ sv t u p t', called h (RedeemRegister sv t u p) (Ok (t', ref))) ∧
    v = Transport.sv_vault ref ∧ looked h s ∧
    if isOwnAccount (Transport.sv_owner ref) s then owner = [] ∧ readOnly = false
    else owner = Transport.sv_owner ref ∧ (readOnly = false ↔ Transport.sv_perm ref = Transport.PReadWrite).
(** A vault of the account: chosen, or just created. *)
Definition picked_vault h (v : jstr) : Prop :=
  truthy v = true ∧ ((∃ d, seen h d ∧ chosenVault d = v) ∨ ∃ s t, called h (CreateVault s t v) (Ok tt)).
(** The base this device keeps belongs to the vault, or there is nothing here to
    overwrite. *)
Definition base_fits h (v : jstr) : Prop :=
  called h HasLocalData false ∨
  ∃ s, looked h s ∧ (truthy (vaultId s) = false ∨ (vaultId s = v ∧ ∃ d, seen h d ∧ server d = serverUrl s)).
Definition permitted h (o : WOp) : Prop :=
  match o with
  | PutPassword p => p = [] ∨ ∃ s d, looked h s ∧ storePassword s = true ∧ seen h d ∧ p = password d
  | PutVaultId v => picked_vault h v ∧ base_fits h v
  | PutShared v owner readOnly => called h HasLocalData false ∧ granted h v (default [] owner) readOnly
  | SwitchToVault v mode owner readOnly =>
      mode = SMerge ∧ called h HasLocalData true ∧
      (granted h v owner readOnly ∨ (picked_vault h v ∧ owner = [] ∧ readOnly = false))
  | CreateVault s t name => Account.isValidVaultName name = true ∧ ∃ d, seen h d ∧ loggedIn d = true ∧ s = server d ∧ t = token d
  | ChangePassword _ _ _ new => 8 ≤ length new
  | Register s u p i => ∃ d, seen h d ∧ canLogIn d = true ∧ register d = true ∧ s = server d ∧ u = user d ∧ p = password d ∧ i = default [] (invite d)
  | Login s u p =>
      ∃ d, seen h d ∧ s = server d ∧ u = user d ∧ p = password d ∧
      (canLogIn d = true ∨ ∃ s' u' p' i, called h (Register s' u' p' i) (Ok tt))
  | RedeemRegister s t u p =>
      ∃ d, seen h d ∧ canLogIn d = true ∧ register d = true ∧ u = user d ∧ p = password d ∧
      Links.parseShareLink lowerCase parseURL (pendingShareLink d) = Ok {| Links.tl_server := s; Links.tl_token := t |}
  | RedeemShareLink l => ∃ d, seen h d ∧ l = pendingShareLink d
  | _ => True
  end.
Lemma granted_grows h h' v ow ro : h ⊑ h' → granted h v ow ro → granted h' v ow ro.
Proof.
  intros Hs (ref & s & Hr & ? & ? & ?). exists ref, s. split_and!; [|done|by eapply called_mono|done].
  destruct Hr as [[l ?]|(a & b & c & d & e & ?)]; [left; exists l|right; exists a, b, c, d, e]; by eapply called_mono.
Qed.
Lemma picked_mono h h' v : h ⊑ h' → picked_vault h v → picked_vault h' v.
Proof.
  intros Hs [? [(d & ? & ?)|(s & t & ?)]]; (split; [done|]); [left; exists d; split; [by eapply saw_mono|done]|].
  right. exists s, t. by eapply called_mono.
Qed.
Lemma base_mono h h' v : h ⊑ h' → base_fits h v → base_fits h' v.
Proof.
  intros Hs [?|(s & ? & Ho)]; [left; by eapply called_mono|]. right. exists s. split; [by eapply called_mono|].
  destruct Ho as [?|(? & d & ? & ?)]; [by left|right; split; [done|exists d; split; [by eapply saw_mono|done]]].
Qed.
(** Facts of a history in the hypotheses become facts of a longer one. *)
Local Ltac grows Hs :=
  repeat match goal with
  | H : ∃ _, _ |- _ => destruct H
  | H : _ ∧ _ |- _ => destruct H
  | H : _ ∨ _ |- _ => destruct H
  | H : called _ _ _ |- _ => apply (called_mono _ _ _ _ Hs) in H
  | H : seen _ _ |- _ => apply (saw_mono _ _ _ Hs) in H
  | H : looked _ _ |- _ => apply (called_mono _ _ _ _ Hs) in H
  end.
#[local] Instance wizard_justified : Justified permitted.
Proof.
  intros h h' o Hs Ho. destruct o; try done; cbn in *; grows Hs; eauto 12 using granted_grows, picked_mono, base_mono.
Qed.
Abbreviation fine m h := (safe permitted m (λ _ _, True) h).
Lemma told_safe o (Q : res Error unit → WHistory → Prop) h :
  permitted h o → (∀ h', h ⊑ h' → Q (Ok tt) h') → safe permitted (tell o) Q h.
Proof. intros Ho HQ. apply (safe_bind permitted), safe_call; [done|]. intros r h' Hs Hc _. by apply safe_ret, HQ. Qed.
Local Ltac said := apply told_safe; [done|intros ? ?].
Local Ltac next := apply (safe_bind permitted).
Lemma form_safe (Q : res Error Snap → WHistory → Prop) h :
  (∀ s h', h ⊑ h' → looked h' s → Q (Ok s) h') → safe permitted look Q h.
Proof. intros HQ. apply (safe_call permitted Look); [done|]. intros s h' Hs Hc. by apply HQ. Qed.
Lemma persist_safe (Q : res Error unit → WHistory → Prop) h :
  (∀ h', h ⊑ h' → Q (Ok tt) h') → safe permitted persistSession Q h.
Proof.
  intros HQ. unfold persistSession. next. apply safe_get. intros d h1 Hs1 Hd _.
  next. said. intros _. next. said. intros _. next. said. intros _.
  next. apply form_safe. intros s h5 Hs5 Hl _. apply told_safe; [|intros h6 Hs6; apply HQ; chain].
  cbn. destruct (storePassword s) eqn:Hst; [|by left]. right. exists s, d. split_and!; [done..| |done].
  eapply saw_mono; [|exact Hd]. chain.
Qed.
Definition redeemed h (ref : Transport.SharedVaultRef) : Prop :=
  (∃ l, called h (RedeemShareLink l) (Ok ref)) ∨ ∃ sv t u p t', called h (RedeemRegister sv t u p) (Ok (t', ref)).
Lemma adopt_redeemed_safe ref h : redeemed h ref → fine (adoptRedeemed ref) h.
Proof.
  intros Hr. unfold adoptRedeemed. next. apply form_safe. intros s h1 Hs1 Hl _. cbv zeta.
  set (own := isOwnAccount (Transport.sv_owner ref) s). set (owner := if own then [] else Transport.sv_owner ref).
  set (ro := if own then false else _).
  assert (Hg : granted h1 (Transport.sv_vault ref) owner ro).
  { exists ref, s. split_and!; [|done..|].
    - destruct Hr as [[l Hc]|(a & b & c & d & e & Hc)]; [left; exists l|right; exists a, b, c, d, e]; by eapply called_mono.
    - subst owner ro. unfold own. destruct (isOwnAccount _ s); [done|]. split; [done|]. by destruct (Transport.sv_perm ref). }
  clearbody own owner ro. next. said. intros _. next. said. intros _.
  next. apply (safe_call permitted HasLocalData); [done|]. intros there h4 Hs4 Hc _.
  assert (Hg4 : granted h4 (Transport.sv_vault ref) owner ro) by (eapply granted_grows; [|exact Hg]; chain).
  destruct there.
  - apply (safe_callE permitted _ (SwitchToVault _ _ _ _)); [split_and!; [done..|by left]|by intros].
  - next. apply told_safe; [split; [done|]; by destruct owner|]. intros h5 Hs5 _. next. said. intros _. by said.
Qed.
Lemma finishRedeem_safe h : fine finishRedeem h.
Proof.
  unfold finishRedeem. next. apply persist_safe. intros h1 Hs1 _. next. said. intros _. apply safe_try.
  next. apply safe_get. intros d h3 Hs3 Hd _. next. apply (safe_callE permitted _ (RedeemShareLink (pendingShareLink d))); [by exists d|].
  intros [ref|e] h4 Hs4 Hc _; cbn [id] in *.
  - eapply (safe_mono permitted); [|apply adopt_redeemed_safe; left; by eexists]. intros [u|e] h5 Hs5 _ _; [done|]. next. said. intros _. by said.
  - intros _. next. said. intros _. by said.
Qed.
Lemma authenticated_safe h : fine afterAuthenticated h.
Proof.
  unfold afterAuthenticated. next. apply safe_get. intros d h1 Hs1 Hd _. destruct (truthy _); [apply finishRedeem_safe|].
  next. apply (safe_callE permitted _ (ListVaults (server d) (token d))); [done|]. intros [l|e] h2 Hs2 Hc _; [|done].
  next. apply safe_modify. intros h3 Hs3 _. by said.
Qed.
Lemma caught_safe (m : W unit) h : fine m h → fine (try_catch m (λ _, tell Say)) h.
Proof. intros Hm. apply safe_try. eapply (safe_mono permitted); [|exact Hm]. intros [u|e] h1 Hs1 _ _; [done|by said]. Qed.

Lemma doLogin_safe h : fine doLogin h.
Proof.
  unfold doLogin. next. apply safe_get. intros d h1 Hs1 Hd _. destruct (canLogIn d) eqn:Hc; cbn [negb]; [|by said].
  apply caught_safe. destruct (truthy (pendingShareLink d) && register d) eqn:Hp.
  - apply andb_true_iff in Hp as [_ Hreg]. unfold orFail. next.
    destruct (Links.parseShareLink _ _ _) as [[sv t]|] eqn:Hl; [|done]. apply safe_ret. intros _.
    next. apply (safe_callE permitted _ (RedeemRegister sv t (user d) (password d))); [by exists d|].
    intros [[t' ref]|e] h2 Hs2 Hr _; [|done]. cbn [id fst snd] in *. next. apply safe_modify. intros h3 Hs3 _.
    next. apply persist_safe. intros h4 Hs4 _. next. said. intros _. apply adopt_redeemed_safe. right.
    eexists _, _, _, _, _. eapply called_mono; [|exact Hr]. chain.
  - clear Hp. next. apply (safe_mono permitted _ _ (λ r h', r = Ok tt → register d = true → ∃ s u p i, called h' (Register s u p i) (Ok tt))).
    + intros [[]|e] h2 Hs2 Hr _; [|done]. specialize (Hr eq_refl).
      next. apply (safe_mono permitted _ _ (λ r h', ∃ d', r = Ok d' ∧ seen h' d' ∧ (canLogIn d' = true ∨ ∃ s u p i, called h' (Register s u p i) (Ok tt)))).
      * intros ? h3 Hs3 (d' & -> & Hd' & Hw) _. next. apply (safe_callE permitted _ (Login (server d') (user d') (password d'))); [by exists d'|].
        intros [[t m]|e] h4 Hs4 _ _; [|done]. next. apply safe_modify. intros h5 Hs5 _. cbn [snd]. destruct m; [by said|apply authenticated_safe].
      * destruct (register d).
        -- apply safe_get. intros d' h3 Hs3 Hd'. exists d'. split_and!; [done..|right].
           destruct (Hr eq_refl) as (a & b & c & e & ?). exists a, b, c, e. by eapply called_mono.
        -- apply safe_ret. exists d. split_and!; [done|by eapply saw_mono|by left].
    + destruct (register d) eqn:Hreg; [|by apply safe_ret].
      apply (safe_callE permitted _ (Register _ _ _ _)); [by exists d|]. intros [[]|e] h2 Hs2 Hr; [|done]. intros _ _. by eexists _, _, _, _.
Qed.
Lemma doMustChange_safe np np2 h : fine (doMustChange np np2) h.
Proof.
  unfold doMustChange. destruct (length np <? 8) eqn:Hl; [by said|]. destruct (negb _); [by said|]. apply Nat.ltb_ge in Hl.
  apply caught_safe. next. apply safe_get. intros d h1 Hs1 Hd _. next. apply (safe_callE permitted _ (ChangePassword _ _ _ _)); [done|].
  intros [t|e] h2 Hs2 _ _; [|done]. next. apply safe_modify. intros h3 Hs3 _. next. apply safe_modify. intros h4 Hs4 _. apply authenticated_safe.
Qed.
Lemma doTest_safe h : fine doTest h.
Proof.
  unfold doTest. next. apply safe_get. intros d h1 Hs1 Hd _. destruct (negb _); [by said|].
  next. apply (safe_call permitted (TestConnection _)); [done|]. intros ok h2 Hs2 _ _. next. apply safe_modify. intros h3 Hs3 _.
  next. apply (safe_mono permitted _ _ (λ _ _, True)); [intros [u|e] h4 _ _ _; [by said|done]|].
  destruct ok; [|done]. next. apply safe_get. intros d' h4 Hs4 _ _. by said.
Qed.
(** The vault a setup ends with, where it names one. *)
Lemma finish_vault_safe d h :
  seen h d → loggedIn d = true →
  safe permitted
    (if truthy (newVault d) then
       let name := Account.sanitizeVaultName lowerCase (newVault d) in
       if negb (Account.isValidVaultName name) then tell Say ;; mret' None
       else need (CreateVault (server d) (token d) name) ;; mret' (Some name)
     else mret' (Some (chosenVault d)))
    (λ r h', ∀ v, r = Ok (Some v) → truthy v = true → picked_vault h' v) h.
Proof.
  intros Hd Hin. cbv zeta. destruct (truthy (newVault d)).
  - destruct (Account.isValidVaultName _) eqn:Hv; cbn [negb].
    + next. apply (safe_callE permitted _ (CreateVault _ _ _)); [split; [done|by exists d]|]. intros [[]|e] h1 Hs1 Hc _; [|by intros].
      apply safe_ret. intros v [= <-] Hne. split; [done|]. right. by eexists _, _.
    + next. said. intros _. by apply safe_ret.
  - apply safe_ret. intros v [= <-] Hne. split; [done|]. left. by exists d.
Qed.
Lemma finish_safe h : fine finish h.
Proof.
  unfold finish. next. apply safe_get. intros d h1 Hs1 Hd _. destruct (loggedIn d) eqn:Hin; cbn [negb]; [|by said].
  apply caught_safe. next. eapply (safe_mono permitted); [|by apply finish_vault_safe].
  intros [[v|]|e] h2 Hs2 Hv _; [|done..]. destruct (truthy v) eqn:Hne; cbn [negb]; [|by said].
  specialize (Hv _ eq_refl Hne). next. apply form_safe. intros st h3 Hs3 Hl _. next. apply safe_get. intros d' h4 Hs4 Hd' _.
  cbv zeta. cbn [wizardCredentials pc_serverUrl pc_username pc_password pc_vaultId pc_authToken].
  next. said. intros _. next. said. intros _. next. apply told_safe.
  { destruct (storePassword st) eqn:Hst; [|by left]. right. exists st, d'. split_and!; [eapply called_mono; [|exact Hl]; chain|done| |done].
    eapply saw_mono; [|exact Hd']. chain. }
  intros h7 Hs7 _. next. said. match goal with H : h7 ⊑ ?x |- _ => set (h8 := x) in *; clearbody h8 end. intros _.
  assert (Hv8 : picked_vault h8 v) by (eapply picked_mono; [|exact Hv]; chain).
  next. apply (safe_mono permitted _ _ (λ r h', ∃ b : bool, r = Ok b ∧
    if b then called h' HasLocalData true else base_fits h' v)).
  - intros ? h9 Hs9 (b & -> & Hb) _. assert (picked_vault h9 v) by (by eapply picked_mono). destruct b.
    + next. said. intros _. next. said. intros _. next. said. intros _.
      apply (safe_callE permitted _ (SwitchToVault _ _ _ _)); [|done].
      split_and!; [done|eapply called_mono; [|exact Hb]; chain|right; split; [eapply picked_mono; [|done]; chain|done]].
    + next. apply told_safe; [done|]. intros h10 Hs10 _. next. said. intros _. next. said. intros _. next. said. intros _. by said.
  - destruct (truthy (vaultId st) && _) eqn:Hch.
    + apply (safe_call permitted HasLocalData); [done|]. intros b h9 Hs9 Hc. exists b. split; [done|]. destruct b; [done|by left].
    + apply safe_ret. exists false. split; [done|]. right. exists st. split; [eapply called_mono; [|exact Hl]; chain|].
      apply andb_false_iff in Hch as [?|Hch]; [by left|right]. apply orb_false_iff in Hch as [Hn Hu].
      apply negb_false_iff, jeq_true in Hn. apply negb_false_iff, jeq_true in Hu. split; [done|]. exists d'. split; [|done].
      eapply saw_mono; [|exact Hd']. chain.
Qed.
Lemma useLink_safe text h : fine (useLink text) h.
Proof.
  unfold useLink, orFail. destruct (Links.isShareLink text); [|destruct (Links.isInviteLink text)]; apply caught_safe.
  - next. apply safe_modify. intros h1 _ _. next. destruct (Links.parseShareLink _ _ _); [|done]. apply safe_ret. intros _.
    next. apply safe_modify. intros h2 _ _. by said.
  - next. destruct (Links.parseInviteLink _ _ _); [|done]. apply safe_ret. intros _. next. apply safe_modify. intros h2 _ _. by said.
  - next. destruct (Links.parseSetupLink _ _ _); [|done]. apply safe_ret. intros _. next. apply safe_modify. intros h2 _ _. by said.
Qed.
Lemma signOut_safe h : fine signOut h.
Proof. unfold signOut. next. apply safe_modify. intros h1 _ _. by said. Qed.

(** The handlers of the wizard. *)
Definition handler (m : W unit) : Prop :=
  m = doLogin ∨ m = doTest ∨ m = finish ∨ m = signOut ∨ m = enterPassword ∨ m = enterVault ∨ (∃ np np2, m = doMustChange np np2) ∨ (∃ text, m = useLink text) ∨ ∃ f, m = modify f.
Lemma handler_safe m h : handler m → fine m h.
Proof.
  intros [-> |[-> |[-> |[-> |[-> |[-> |[(np & np2 & ->)|[[text ->]|[f ->]]]]]]]]];
    [apply doLogin_safe|apply doTest_safe|apply finish_safe|apply signOut_safe| | |apply doMustChange_safe|apply useLink_safe|by apply safe_modify];
    next; apply safe_get; intros d h1 Hs1 Hd _; [destruct (canLogIn d); [apply doLogin_safe|done]|destruct (canFinish d); [apply finish_safe|done]].
Qed.
End Wizard.

(** ** Concrete runs *)
(** A device that synced a vault shared by bob on the server [s]. *)
Record World := { files : bool; settings : Snap; owner : option jstr; redeems : option Transport.SharedVaultRef; made : list WOp }.
Definition put (f : Snap → Snap) (o : option jstr) (w : World) : World :=
  {| files := files w; settings := f (settings w); owner := o; redeems := redeems w; made := made w |}.
Definition stored (o : WOp) (w : World) : World :=
  match o with
  | PutServer u => put (λ s, {| serverUrl := u; username := username s; vaultId := vaultId s; storePassword := storePassword s |}) (owner w) w
  | PutUsername u => put (λ s, {| serverUrl := serverUrl s; username := u; vaultId := vaultId s; storePassword := storePassword s |}) (owner w) w
  | PutVaultId v => put (λ s, {| serverUrl := serverUrl s; username := username s; vaultId := v; storePassword := storePassword s |}) (owner w) w
  | PutShared v o _ => put (λ s, {| serverUrl := serverUrl s; username := username s; vaultId := v; storePassword := storePassword s |}) o w
  | SwitchToVault v _ o _ =>
      put (λ s, {| serverUrl := serverUrl s; username := username s; vaultId := v; storePassword := storePassword s |}) (if truthy o then Some o else None) w
  | _ => w
  end.
Definition redeemed_by {A} (w : World) (f : Transport.SharedVaultRef → A) : res Error A :=
  match redeems w with Some ref => Ok (f ref) | None => Throw tt end.
Definition world (w : World) (o : WOp) : WAns o * World :=
  (match o return WAns o with
   | Look => settings w
   | TestConnection _ => true
   | HasLocalData => files w
   | Register _ _ _ _ | CreateVault _ _ _ | SwitchToVault _ _ _ _ => Ok tt
   | Login s _ _ => Ok (s ++ js "#token", false)
   | RedeemRegister s _ _ _ => redeemed_by w (λ ref, (s ++ js "#token", ref))
   | ChangePassword s _ _ _ => Ok (s ++ js "#token")
   | ListVaults _ _ => Ok [js "notes"]
   | RedeemShareLink _ => redeemed_by w id
   | PutServer _ | PutUsername _ | PutToken _ | PutPassword _ | PutVaultId _ | PutShared _ _ _ | Save | Reconnect | Say | Render
   | PromptMustChange | CloseDialog | FetchBanner _ => tt
   end, let w' := stored o w in {| files := files w'; settings := settings w'; owner := owner w'; redeems := redeems w'; made := made w' ++ [o] |}).
Definition start (there : bool) (ref : option Transport.SharedVaultRef) : World :=
  {| files := there; settings := {| serverUrl := js "https://s"; username := js "me"; vaultId := js "notes"; storePassword := false |};
     owner := Some (js "bob"); redeems := ref; made := [] |}.
Definition blank (pending : jstr) : Form :=
  {| server := js "https://s"; serverOk := false; register := false; user := js "me"; password := js "secret"; loggedIn := false; vaults := [];
     chosenVault := js "notes"; newVault := []; invite := None; token := []; pendingShareLink := pending |}.
Definition share : jstr := js "selfsync-share://redeem?server=https://t&token=T".
Definition foreign : Transport.SharedVaultRef := {| Transport.sv_owner := js "ann"; Transport.sv_vault := js "hers"; Transport.sv_perm := Transport.PRead |}.
Definition mine : Transport.SharedVaultRef := {| Transport.sv_owner := js "Me"; Transport.sv_vault := js "own"; Transport.sv_perm := Transport.PRead |}.
Definition conf0 (there : bool) (ref : option Transport.SharedVaultRef) (pending : jstr) : conf Form Error World := Conf (start there ref) (blank pending) [] 0.
Definition after (m : W unit) (there : bool) (ref : option Transport.SharedVaultRef) (pending : jstr) :=
  (Effects.run world (λ _, true) m (conf0 there ref pending)).2.
Definition told (sel : WOp → bool) (m : W unit) (there : bool) (ref : option Transport.SharedVaultRef) (pending : jstr) : list WOp :=
  List.filter sel (made (cw (after m there ref pending))).
Definition requests (o : WOp) : bool :=
  match o with
  | Login _ _ _ | Register _ _ _ _ | CreateVault _ _ _ | RedeemShareLink _ | RedeemRegister _ _ _ _ | ListVaults _ _ => true | _ => false end.
Definition decides (o : WOp) : bool :=
  match o with PutServer _ | PutToken _ | PutVaultId _ | PutShared _ _ _ | SwitchToVault _ _ _ _ | Say => true | _ => false end.

Abbreviation logIn := (doLogin lower Links.toyURL).
(** A link to a vault of this very account is no share. *)
Example own_link_is_no_share :
  told decides logIn false (Some mine) share = [PutServer (js "https://s"); PutToken (js "https://s#token"); Say; PutShared (js "own") None false].
Proof. vm_compute. done. Qed.

(** ** What modelling showed *)
(** Finishing with a vault of one's own leaves the owner of a formerly shared one
    set; with the same name at the same server nothing counts as changed. *)
Lemma finish_keeps_owner :
  let w := cw (after (logIn ;; finish lower) true None []) in
  told decides (logIn ;; finish lower) true None [] =
    [PutServer (js "https://s"); PutToken (js "https://s#token"); PutVaultId (js "notes"); Say] ∧
  owner w = Some (js "bob").
Proof. vm_compute. done. Qed.
(** The server is editable once signed in: the token of one server is stored for
    another. *)
Lemma token_follows_the_field :
  told decides (logIn ;; typeServer (js "https://other") ;; finish lower) false None [] =
    [PutServer (js "https://other"); PutToken (js "https://s#token"); PutVaultId (js "notes"); Say].
Proof. vm_compute. done. Qed.
(** A link that the server refuses has moved the device to its server, and signed
    it in there, with the vault of the old one. *)
Lemma refused_link_repoints :
  let w := cw (after (useLink lower Links.toyURL share ;; logIn) true None []) in
  serverUrl (settings w) = js "https://t" ∧ vaultId (settings w) = js "notes" ∧ owner w = Some (js "bob").
Proof. vm_compute. done. Qed.
(** A share link that does not parse stays pending. *)
Lemma broken_link_stays_pending :
  pendingShareLink (cs (after (useLink lower Links.toyURL (js "selfsync-share://x")) false None [])) = js "selfsync-share://x".
Proof. vm_compute. done. Qed.
(** An account created through a link is stored with the server of the field. *)
Lemma created_account_other_server :
  told decides (typeServer (js "https://s") ;; selectMode true ;; logIn) false (Some foreign) share =
    [PutServer (js "https://s"); PutToken (js "https://t#token"); Say; PutShared (js "hers") (Some (js "ann")) true].
Proof. vm_compute. done. Qed.
End Wizard.
