(* ===== verification/Mountforms.v ===== *)
(** * Mountforms: the forms that add mounts ([client/src/mountsettings.ts], [recipeui.ts])

    What may be a source, which folders are offered, when a draft may be saved,
    and the two forms as machines over what the user does: adding one mount, and
    reviewing the mounts of a recipe.  A form gives its requests as outputs; the
    import of a recipe awaits each mount, so it is a tree of calls over the rows,
    which the user may still edit. *)

From stdpp Require Import sorting.
From S2P Require Import Prelude Jsmap Effects Paths Lifecycle Links Recipe Transport.

Module Forms.
Import Paths.Mounts Lifecycle.MountFsm.

(** ** Sources, folders, labels *)
Record SourceOption := { so_owner : jstr; so_vault : jstr; so_label : jstr; canWrite : bool }.
Definition isPrimary (primary : jstr * jstr) (owner vault : jstr) : bool := (owner === primary.1) && (vault === primary.2).
Definition sourceOptions (myVaults : list jstr) (shared : list Transport.SharedVaultRef) (primary : jstr * jstr) : list SourceOption :=
  ((λ v, {| so_owner := []; so_vault := v; so_label := v; canWrite := true |}) <$>
     filter (λ v, isPrimary primary [] v = false) myVaults) ++
  ((λ s, {| so_owner := Transport.sv_owner s; so_vault := Transport.sv_vault s;
            so_label := Transport.sv_owner s ++ cSlash :: Transport.sv_vault s;
            canWrite := match Transport.sv_perm s with Transport.PReadWrite => true | Transport.PRead => false end |}) <$>
     filter (λ s, isPrimary primary (Transport.sv_owner s) (Transport.sv_vault s) = false) shared).
(** [ → ] with two spaces on each side. *)
Definition arrow : jstr := [32; 32; 8594; 32; 32]%N.
Definition mountRowLabel (m : Mount) : jstr :=
  let src := if truthy (owner (source m)) then owner (source m) ++ cSlash :: vaultId (source m) else vaultId (source m) in
  let sub := if truthy (sourcePath (source m)) then cSlash :: sourcePath (source m) else js " (whole vault)" in
  src ++ sub ++ arrow ++ mountPoint m.
Definition dots : jstr := [8230]%N.
Definition dash : jstr := [32; 8212; 32]%N.
Definition mountStateLabel (s : MountState) : jstr :=
  match s with
  | Detached => js "Not started"
  | Mounting => js "Connecting" ++ dots
  | Live => js "In sync"
  | Syncing => js "Syncing" ++ dots
  | Diverged => js "Needs review"
  | Offline => js "Offline" ++ dash ++ js "will retry"
  | Unmounting => js "Removing" ++ dots
  | LocalGone => js "Local folder deleted" ++ dash ++ js "Reinstate or Remove"
  | MFailed => js "Failed" ++ dash ++ js "can't reach the source"
  end.

Section Forms.
Context (nfc lowerCase : jstr → jstr).

(** Every folder on the way to a file. *)
Definition segments (p : jstr) : list jstr := filter (λ s, truthy s = true) (split_on cSlash p).
Definition foldersOf (p : jstr) : list jstr :=
  let segs := segments p in
  if length segs <=? 1 then []
  else if lowerCase (default [] (head segs)) === js ".obsidian" then []
  else (λ i, join_with cSlash (take i segs)) <$> seq 1 (length segs - 1).
Definition foldersWithContent (paths : list jstr) : list jstr := jsort (dedup (concat (foldersOf <$> paths))).
(** The folder a note warns about. *)
Definition sourcePathNote (path : jstr) (folders : list jstr) : option jstr :=
  let norm := normMountFolder path in
  if norm === [] then None
  else if existsb (λ f, lowerCase f === lowerCase norm) folders then None else Some norm.
Inductive DraftError := PickASource | EnterAFolder | Refused (e : MountError).
Definition validateMountDraft (draft : Mount) (others : list Mount) : option DraftError :=
  if negb (truthy (vaultId (source draft))) then Some PickASource
  else if negb (truthy (normMountFolder (mountPoint draft))) then Some EnterAFolder
  else Refused <$> head (validateMounts nfc lowerCase (others ++ [draft])).

(** ** Adding one mount ([MountEditModal]) *)
Record EditForm := {
  opts : list SourceOption; others : list Mount; chosen : SourceOption; path : jstr; point : jstr; dir : MountDirection;
  folders : list jstr; cache : list (jstr * list jstr); saved : bool
}.
Inductive FormEvent :=
| PickSource (i : nat) | TypePath (v : jstr) | TypePoint (v : jstr) | PickDirection (d : MountDirection)
| FoldersArrived (key : jstr) (r : option (list jstr)) | Submit | AddSucceeded | AddFailed.
Inductive FormOut := FetchFolders (owner vault : jstr) | AddMount (m : Mount) | CloseForm.
Definition draft (f : EditForm) : Mount :=
  {| source := {| owner := so_owner (chosen f); vaultId := so_vault (chosen f); sourcePath := normMountFolder (path f) |};
     mountPoint := normMountFolder (point f); direction := dir f |}.
Definition folderKey (s : SourceOption) : jstr := so_owner s ++ 0%N :: so_vault s.
Definition fields (s : SourceOption) (p q : jstr) (d : MountDirection) (f : EditForm) : EditForm :=
  {| opts := opts f; others := others f; chosen := s; path := p; point := q; dir := d; folders := folders f; cache := cache f; saved := saved f |}.
Definition putFolders (l : list jstr) (c : list (jstr * list jstr)) (f : EditForm) : EditForm :=
  {| opts := opts f; others := others f; chosen := chosen f; path := path f; point := point f; dir := dir f; folders := l; cache := c; saved := saved f |}.
Definition putSaved (b : bool) (f : EditForm) : EditForm :=
  {| opts := opts f; others := others f; chosen := chosen f; path := path f; point := point f; dir := dir f; folders := folders f; cache := cache f; saved := b |}.
Definition loadFolders (f : EditForm) : EditForm * list FormOut :=
  match jget (cache f) (folderKey (chosen f)) with
  | Some l => (putFolders l (cache f) f, [])
  | None => (putFolders [] (cache f) f, [FetchFolders (so_owner (chosen f)) (so_vault (chosen f))])
  end.
Definition clampDir (s : SourceOption) (d : MountDirection) : MountDirection := if canWrite s then d else Pull.
Definition formStep (f : EditForm) (e : FormEvent) : EditForm * list FormOut :=
  match e with
  | PickSource i =>
      match opts f !! i with
      | Some s => loadFolders (fields s (path f) (point f) (clampDir s (dir f)) f)
      | None => (f, [])
      end
  | TypePath v => (fields (chosen f) v (point f) (dir f) f, [])
  | TypePoint v => (fields (chosen f) (path f) v (dir f) f, [])
  | PickDirection d => (fields (chosen f) (path f) (point f) d f, [])
  | FoldersArrived key (Some l) => (putFolders l (jset (cache f) key l) f, [])
  | FoldersArrived _ None => (f, [])
  | Submit =>
      if saved f then (f, [])
      else
        let f := fields (chosen f) (path f) (point f) (clampDir (chosen f) (dir f)) f in
        match validateMountDraft (draft f) (others f) with
        | Some _ => (f, [])
        | None => (putSaved true f, [AddMount (draft f)])
        end
  | AddSucceeded => (f, [CloseForm])
  | AddFailed => (putSaved false f, [])
  end.
(** The form as it opens, where there is anything to mount. *)
Definition startForm (o : list SourceOption) (s : SourceOption) (mounts : list Mount) : EditForm :=
  {| opts := o; others := mounts; chosen := s; path := []; point := []; dir := Pull; folders := []; cache := []; saved := false |}.
Definition openForm (mine : list jstr) (shared : list Transport.SharedVaultRef) (primary : jstr * jstr) (mounts : list Mount)
    : option (EditForm * list FormOut) :=
  let o := sourceOptions mine shared primary in
  match o with
  | [] => None
  | s :: _ => Some (loadFolders (startForm o s mounts))
  end.
Fixpoint runForm (f : EditForm) (es : list FormEvent) : EditForm * list FormOut :=
  match es with
  | [] => (f, [])
  | e :: es => let '(f1, o1) := formStep f e in let '(f2, o2) := runForm f1 es in (f2, o1 ++ o2)
  end.

(** ** Reviewing a recipe ([RecipeImportModal]) *)
Record Row := { item : Recipe.RecipePlanItem; checked : bool; rowPoint : jstr; rowDir : MountDirection; err : option DraftError }.
Definition isReady (r : Row) : bool := match Recipe.status (item r) with Recipe.Ready => true | _ => false end.
Definition live (r : Row) : bool := isReady r && checked r.
Definition rowMount (r : Row) : Mount := Recipe.mountFromPlanItem (item r) (rowPoint r) (rowDir r).
Definition putErr (e : option DraftError) (r : Row) : Row :=
  {| item := item r; checked := checked r; rowPoint := rowPoint r; rowDir := rowDir r; err := e |}.
(** The applicable rows first, in their order. *)
Definition reviewRows (plan : list Recipe.RecipePlanItem) : list Row :=
  let row i := {| item := i; checked := match Recipe.status i with Recipe.Ready => true | _ => false end;
                  rowPoint := mountPoint (Recipe.recipe i); rowDir := Recipe.suggestedDirection i; err := None |} in
  filter (λ r, isReady r = true) (row <$> plan) ++ filter (λ r, isReady r = false) (row <$> plan).
Definition othersOf (rows : list Row) (i : nat) : list Mount := rowMount <$> filter (λ r, live r = true) (delete i rows).
Definition rowError (existing : list Mount) (rows : list Row) (i : nat) (r : Row) : option DraftError :=
  if negb (live r) then None
  else if negb (truthy (normMountFolder (rowPoint r))) then Some EnterAFolder
  else Refused <$> head (validateMounts nfc lowerCase (existing ++ othersOf rows i ++ [rowMount r])).
Definition revalidate (mounts : list Mount) (rows : list Row) : list Row :=
  imap (λ i r, putErr (rowError (validMounts nfc lowerCase mounts) rows i r) r) rows.
Definition importDisabled (rows : list Row) : bool :=
  negb (existsb live rows) || existsb (λ r, live r && bool_decide (is_Some (err r))) rows.
Inductive RowEvent := Toggle (i : nat) (b : bool) | Retype (i : nat) (v : jstr) | Redirect (i : nat) (d : MountDirection).
Definition editRow (e : RowEvent) (rows : list Row) : list Row :=
  match e with
  | Toggle i b => alter (λ r, {| item := item r; checked := b; rowPoint := rowPoint r; rowDir := rowDir r; err := err r |}) i rows
  | Retype i v => alter (λ r, {| item := item r; checked := checked r; rowPoint := v; rowDir := rowDir r; err := err r |}) i rows
  | Redirect i d => alter (λ r, {| item := item r; checked := checked r; rowPoint := rowPoint r; rowDir := d; err := err r |}) i rows
  end.
(** A change of the direction is not followed by a validation. *)
Definition rowStep (mounts : list Mount) (e : RowEvent) (rows : list Row) : list Row :=
  match e with Redirect _ _ => editRow e rows | _ => revalidate mounts (editRow e rows) end.
Definition importable (r : Row) : bool := live r && negb (bool_decide (is_Some (err r))).
(** The rows the import goes through, and the mounts it asks for when nothing is
    edited meanwhile. *)
Definition todoOf (rows : list Row) : list nat := filter (λ i, (if rows !! i is Some r then importable r else false) = true) (seq 0 (length rows)).
Definition todoMounts (rows : list Row) : list Mount := rowMount <$> filter (λ r, importable r = true) rows.
Inductive IOp := IAddMount (m : Mount) | ISay.
Definition IAns (o : IOp) : Type := match o with IAddMount _ => res unit unit | ISay => unit end.
Abbreviation I := (M IAns (list Row) unit).
Fixpoint applyRows (todo : list nat) (applied : nat) : I nat :=
  match todo with
  | [] => mret' applied
  | i :: todo =>
      let* rows := getS in
      match rows !! i with
      | None => applyRows todo applied
      | Some r =>
          let* ok := try_catch (callE (IAddMount (rowMount r)) id ;; mret' true) (λ _, call ISay ;; mret' false) in
          applyRows todo (if ok : bool then S applied else applied)
      end
  end.
(** The form closes when anything was added. *)
Definition importRecipe : I bool :=
  let* rows := getS in
  match todoOf rows with
  | [] => mret' false
  | todo => let* applied := applyRows todo 0 in call ISay ;; mret' (0 <? applied)
  end.
Definition editing (e : RowEvent) (mounts : list Mount) : I bool := modify (rowStep mounts e) ;; mret' false.

(** ** The folders that are offered *)
Lemma foldersOf_spec p f :
  f ∈ foldersOf p ↔ (lowerCase (default [] (head (segments p))) ≠ js ".obsidian" ∧
    ∃ pre rest, segments p = pre ++ rest ∧ pre ≠ [] ∧ rest ≠ [] ∧ f = join_with cSlash pre).
Proof.
  unfold foldersOf. set (segs := segments p). destruct (length segs <=? 1) eqn:Hl.
  { apply Nat.leb_le in Hl. split; [by intros ?%not_elem_of_nil|]. intros (_ & pre & rest & Heq & Hp & Hr & _).
    rewrite Heq, length_app in Hl. destruct pre, rest; cbn in *; try done. lia. }
  apply Nat.leb_gt in Hl. destruct (_ === _) eqn:Hc.
  { apply jeq_true in Hc. split; [by intros ?%not_elem_of_nil|]. by intros [? _]. }
  apply jeq_false in Hc. rewrite list_elem_of_fmap. split.
  - intros (i & -> & Hi%elem_of_seq). split; [done|]. exists (take i segs), (drop i segs).
    split_and!; [by rewrite take_drop| | |done]; intros He%(f_equal length); [rewrite length_take in He|rewrite length_drop in He]; cbn in He; lia.
  - intros (_ & pre & rest & Heq & Hp & Hr & ->). exists (length pre). rewrite Heq, take_app_length. split; [done|].
    rewrite elem_of_seq, length_app. destruct pre, rest; cbn; try done. lia.
Qed.
(** The folders offered are exactly the proper ancestors of the files listed,
    without the configuration folder and what is in it, each once, sorted. *)
Theorem foldersWithContent_exact paths :
  NoDup (foldersWithContent paths) ∧ StronglySorted (λ a b, jle a b = true) (foldersWithContent paths) ∧
  ∀ f, f ∈ foldersWithContent paths ↔
    ∃ p, p ∈ paths ∧ lowerCase (default [] (head (segments p))) ≠ js ".obsidian" ∧
      ∃ pre rest, segments p = pre ++ rest ∧ pre ≠ [] ∧ rest ≠ [] ∧ f = join_with cSlash pre.
Proof.
  unfold foldersWithContent. split_and!; [rewrite jsort_perm; apply dedup_NoDup|apply jsort_sorted|].
  intros f. rewrite jsort_perm, dedup_elem_of, list_elem_of_In, in_concat. split.
  - intros (l & (p & <- & Hp)%in_map_iff & Hf). rewrite <- list_elem_of_In in Hp, Hf. exists p. split; [done|]. by apply foldersOf_spec.
  - intros (p & Hp & Hf). exists (foldersOf p). split; [apply in_map_iff; exists p; split; [done|by apply list_elem_of_In]|].
    by apply list_elem_of_In, foldersOf_spec.
Qed.

(** ** What the first form adds *)
Lemma sourceOptions_apart mine shared primary s :
  s ∈ sourceOptions mine shared primary → isPrimary primary (so_owner s) (so_vault s) = false ∧
  ((so_owner s = [] ∧ so_vault s ∈ mine ∧ canWrite s = true) ∨
   ∃ r, r ∈ shared ∧ so_owner s = Transport.sv_owner r ∧ so_vault s = Transport.sv_vault r ∧
        (canWrite s = true ↔ Transport.sv_perm r = Transport.PReadWrite)).
Proof.
  unfold sourceOptions. intros [(v & -> & [Hv Hin]%list_elem_of_filter)%list_elem_of_fmap|(r & -> & [Hv Hin]%list_elem_of_filter)%list_elem_of_fmap]%elem_of_app;
    (split; [exact Hv|]); [by left|right]. exists r. split_and!; [done..|]. cbn. by destruct (Transport.sv_perm r).
Qed.
Definition offeredMount (f : EditForm) (m : Mount) : Prop :=
  ∃ s, s ∈ opts f ∧ owner (source m) = so_owner s ∧ vaultId (source m) = so_vault s ∧ (direction m = Sync → canWrite s = true) ∧
    validateMounts nfc lowerCase (others f ++ [m]) = [].
Lemma draft_none m others : validateMountDraft m others = None → validateMounts nfc lowerCase (others ++ [m]) = [].
Proof. unfold validateMountDraft. destruct (negb _); [done|]. destruct (negb _); [done|]. by destruct (validateMounts _ _ _). Qed.
Lemma load_frame f : opts (loadFolders f).1 = opts f ∧ others (loadFolders f).1 = others f ∧ chosen (loadFolders f).1 = chosen f ∧
  saved (loadFolders f).1 = saved f ∧ ∀ m, AddMount m ∉ (loadFolders f).2.
Proof. unfold loadFolders. destruct (jget _ _); split_and!; try done; intros m; [apply not_elem_of_nil|]. by intros ?%list_elem_of_singleton. Qed.
Definition added (o : list FormOut) : nat := length (List.filter (λ x, if x is AddMount _ then true else false) o).
Definition slack (f : EditForm) : nat := if saved f then 0 else 1.
Local Ltac quiet f :=
  split_and!; [done|done|done|by intros m ?%not_elem_of_nil|unfold added, slack; cbn; destruct (saved f); cbn; lia].
Lemma formStep_spec f e :
  chosen f ∈ opts f →
  let '(f', o) := formStep f e in
  opts f' = opts f ∧ others f' = others f ∧ chosen f' ∈ opts f' ∧ (∀ m, AddMount m ∈ o → offeredMount f m) ∧
  added o + slack f' ≤ slack f + (if e is AddFailed then 1 else 0).
Proof.
  intros Hc.
  destruct e as [i|v|v|d|k [l|]| | |]; cbn [formStep]; try (by quiet f).
  - destruct (opts f !! i) as [s|] eqn:Hs; [|by quiet f].
    set (g := fields _ _ _ _ _). destruct (load_frame g) as (Ho & Hot & Hch & Hsv & Hm).
    assert (Ha : added (loadFolders g).2 = 0) by (unfold added, loadFolders; by destruct (jget _ _)).
    destruct (loadFolders g) as [f' o]. cbn [fst snd] in *. split_and!; [done|done|rewrite Ho, Hch; by eapply list_elem_of_lookup_2| |].
    + intros m Hin. by destruct (Hm m).
    + unfold slack. rewrite Ha, Hsv. cbn. lia.
  - destruct (saved f) eqn:Hsv; [by quiet f|]. set (g := fields _ _ _ _ _). destruct (validateMountDraft _ _) eqn:Hv.
    + by quiet f.
    + split_and!; [done..| |].
      2: { unfold added, slack. cbn. rewrite Hsv. cbn. lia. }
      intros m [= ->]%list_elem_of_singleton. exists (chosen f). split_and!; [done..| |by apply draft_none].
      cbn. unfold clampDir. by destruct (canWrite (chosen f)).
  - split_and!; [done|done|done|by intros m ?%list_elem_of_singleton|unfold added; cbn; lia].
Qed.
(** Whatever is typed, picked and pressed, and however often adding fails, the
    form asks only for mounts of a source that was offered - never the primary
    vault -, written to only where that source may be written, and valid together
    with the mounts it opened with; and it asks again only after a failure. *)
Theorem form_adds_offered mine shared primary mounts f0 o0 es f o :
  openForm mine shared primary mounts = Some (f0, o0) → runForm f0 es = (f, o) →
  (∀ m, AddMount m ∈ o → offeredMount f0 m ∧ isPrimary primary (owner (source m)) (vaultId (source m)) = false) ∧
  added o ≤ 1 + length (List.filter (λ e, if e is AddFailed then true else false) es).
Proof.
  unfold openForm. intros Hop Hrun. set (so := sourceOptions mine shared primary) in *.
  assert (Hinit : opts f0 = so ∧ others f0 = mounts ∧ chosen f0 ∈ opts f0 ∧ slack f0 ≤ 1).
  { destruct so as [|s l] eqn:Hso; [done|]. destruct (load_frame (startForm (s :: l) s mounts)) as (H1 & H2 & H3 & _ & _).
    apply (inj Some) in Hop. assert (f0 = (loadFolders (startForm (s :: l) s mounts)).1) as -> by (by rewrite Hop).
    split_and!; [done..|rewrite H1, H3; by left|]. unfold slack. destruct (saved _); lia. }
  destruct Hinit as (Ho0 & Hm0 & Hc0 & Hs0). clear Hop o0.
  assert (H : ∀ es g f o, opts g = so → others g = mounts → chosen g ∈ opts g → runForm g es = (f, o) →
    (∀ m, AddMount m ∈ o → offeredMount f0 m) ∧ added o ≤ slack g + length (List.filter (λ e, if e is AddFailed then true else false) es)).
  { clear es f o Hrun. intros es. induction es as [|e es IH]; intros g f o Hg1 Hg2 Hg3.
    - intros [= <- <-]. split; [by intros m ?%not_elem_of_nil|]. unfold added. cbn. lia.
    - cbn [runForm]. pose proof (formStep_spec g e Hg3) as Hstep. destruct (formStep g e) as [f1 o1]. destruct Hstep as (H1 & H2 & H3 & H4 & H5).
      destruct (runForm f1 es) as [f2 o2] eqn:Hr. intros [= <- <-].
      destruct (IH f1 f2 o2 ltac:(congruence) ltac:(congruence) H3 Hr) as [Ha Hn]. split.
      + intros m [Hin|Hin]%elem_of_app; [|by apply Ha]. destruct (H4 m Hin) as (s & ? & ? & ? & ? & ?). exists s. rewrite Ho0, Hm0. rewrite Hg1, Hg2 in *. by split_and!.
      + unfold added in *. rewrite List.filter_app, length_app. destruct e; cbn in *; lia. }
  destruct (H es f0 f o Ho0 Hm0 Hc0 Hrun) as [Ha Hn]. split; [|lia]. intros m Hin. pose proof (Ha m Hin) as Hf. split; [done|].
  destruct Hf as (s & Hs & -> & -> & _). rewrite Ho0 in Hs. by apply sourceOptions_apart in Hs as [? _].
Qed.
(** ** What the review of a recipe imports *)
Implicit Types (rows : list Row).
Abbreviation valid ms := (validMounts nfc lowerCase ms = ms).
(** The errors shown are those of the rows against these mounts. *)
Definition fresh (ms : list Mount) rows : Prop :=
  ∀ i r, rows !! i = Some r → live r = true → err r = None → rowError (validMounts nfc lowerCase ms) rows i r = None.
(** The direction of a mount does not bear on its validity. *)
Definition flat (m : Mount) : Mount := {| source := source m; mountPoint := mountPoint m; direction := Pull |}.
Lemma valid_flat ms : valid ms ↔ valid (flat <$> ms).
Proof.
  rewrite !validMounts_fix, Forall_fmap. apply and_iff_compat_l. induction ms as [|m ms IH]; [split; constructor|]. csimpl.
  split; intros Hs; apply StronglySorted_inv in Hs as [Ht Hh]; (constructor; [by apply IH|]).
  - by apply Forall_fmap.
  - by apply Forall_fmap in Hh.
Qed.
Lemma no_error_iff ms : Refused <$> head (validateMounts nfc lowerCase ms) = None ↔ valid ms.
Proof. rewrite <- validate_iff_all_valid. by destruct (validateMounts _ _ _). Qed.
(** Rows that differ in the direction and the error shown. *)
Definition alike (r r' : Row) : Prop := live r = live r' ∧ rowPoint r = rowPoint r' ∧ flat (rowMount r) = flat (rowMount r').
Lemma othersOf_alike rows rows' i : Forall2 alike rows rows' → flat <$> othersOf rows i = flat <$> othersOf rows' i.
Proof.
  assert (Hf : ∀ l l', Forall2 alike l l' →
    flat <$> (rowMount <$> filter (λ r, live r = true) l) = flat <$> (rowMount <$> filter (λ r, live r = true) l')).
  { induction 1 as [|r r' l l' (Hl & _ & Hm) _ IH]; [done|]. rewrite !filter_cons, Hl. case_decide; [|done]. cbn. by rewrite Hm, IH. }
  intros H. apply Hf. revert i. induction H as [|r r' l l' Hr H IH]; intros [|i]; [constructor|constructor|done|]. constructor; [done|apply IH].
Qed.
Lemma rowError_alike ex rows rows' i r r' :
  Forall2 alike rows rows' → alike r r' → rowError ex rows i r = None ↔ rowError ex rows' i r' = None.
Proof.
  intros Hrs (Hl & Hp & Hm). unfold rowError. rewrite Hl, Hp. destruct (live r'); [|done]. cbn [negb]. destruct (negb _); [done|].
  rewrite !no_error_iff, (valid_flat (ex ++ othersOf rows i ++ _)), (valid_flat (ex ++ othersOf rows' i ++ _)).
  rewrite !fmap_app, (othersOf_alike _ _ i Hrs). cbn. by rewrite Hm.
Qed.
Lemma revalidate_fresh ms rows : fresh ms (revalidate ms rows).
Proof.
  assert (Hall : Forall2 alike rows (revalidate ms rows)).
  { apply Forall2_same_length_lookup_2; [unfold revalidate; by rewrite length_imap|]. intros i r r' Hr Hr'.
    unfold revalidate in Hr'. rewrite list_lookup_imap, Hr in Hr'. by injection Hr' as <-. }
  intros i r Hr Hl He. unfold revalidate in Hr. rewrite list_lookup_imap in Hr. destruct (rows !! i) as [r0|] eqn:Hr0; [|done].
  injection Hr as <-. by apply (rowError_alike _ _ _ _ r0 _ Hall).
Qed.
Lemma redirect_alike i d rows : Forall2 alike rows (editRow (Redirect i d) rows).
Proof.
  cbn. apply Forall2_same_length_lookup_2; [by rewrite length_alter|]. intros j r r' Hr Hr'.
  destruct (decide (i = j)) as [<-|Hne]; [|rewrite list_lookup_alter_ne, Hr in Hr' by done; by injection Hr' as <-].
  rewrite list_lookup_alter_eq, Hr in Hr'. injection Hr' as <-. by split_and!.
Qed.
Lemma redirect_fresh ms i d rows : fresh ms rows → fresh ms (editRow (Redirect i d) rows).
Proof.
  intros Hf j r Hr Hl He. pose proof (redirect_alike i d rows) as Hall.
  destruct (Forall2_lookup_r _ _ _ _ _ Hall Hr) as (r0 & Hr0 & Ha).
  apply (rowError_alike _ _ _ j _ _ Hall Ha). apply Hf; [done|by destruct Ha as [-> _]|].
  cbn in Hr. destruct (decide (i = j)) as [<-|Hne].
  - rewrite list_lookup_alter_eq, Hr0 in Hr. by injection Hr as <-.
  - rewrite list_lookup_alter_ne, Hr0 in Hr by done. by injection Hr as <-.
Qed.
Inductive reviewed (ms : list Mount) : list Row → Prop :=
| reviewed_open rows : reviewed ms (revalidate ms rows)
| reviewed_step e rows : reviewed ms rows → reviewed ms (rowStep ms e rows).
Lemma reviewed_fresh ms rows : reviewed ms rows → fresh ms rows.
Proof. induction 1 as [|[i b|i v|i d] rows _ IH]; [apply revalidate_fresh|apply revalidate_fresh|apply revalidate_fresh|by apply redirect_fresh]. Qed.
Lemma apart_disjoint ms : disjoint nfc lowerCase ms → StronglySorted (λ a b, overlaps nfc lowerCase a b = false) ms.
Proof.
  induction ms as [|m ms IH]; intros Hd; [constructor|]. constructor.
  - apply IH. intros i j a b Hi Hj Hne. apply (Hd (S i) (S j)); [done..|congruence].
  - apply Forall_forall. intros x (j & Hj)%list_elem_of_lookup. by apply (Hd 0 (S j)).
Qed.
Lemma todo_row ms rows i r :
  fresh ms rows → rows !! i = Some r → importable r = true →
  valid (validMounts nfc lowerCase ms ++ othersOf rows i ++ [rowMount r]).
Proof.
  intros Hf Hr Hi. apply andb_true_iff in Hi as [Hl He]. apply negb_true_iff, bool_decide_eq_false in He.
  assert (He' : err r = None) by (destruct (err r); [by destruct He; eexists|done]).
  specialize (Hf i r Hr Hl He'). unfold rowError in Hf. rewrite Hl in Hf. cbn [negb] in Hf. destruct (negb _); [done|]. by apply no_error_iff.
Qed.
Lemma other_row rows i j r : rows !! j = Some r → live r = true → i ≠ j → rowMount r ∈ othersOf rows i.
Proof.
  intros Hr Hl Hne. apply list_elem_of_fmap. exists r. split; [done|]. apply list_elem_of_filter. split; [done|].
  destruct (decide (j < i)).
  - apply list_elem_of_lookup. exists j. by rewrite list_lookup_delete_lt.
  - destruct j as [|j]; [lia|]. apply list_elem_of_lookup. exists j. rewrite list_lookup_delete_ge by lia. exact Hr.
Qed.
(** What the review imports is in effect: after any edits - with the mounts of the
    settings unchanged meanwhile - the mounts the import asks for are valid next to
    those in effect, none nested in another or in the configuration folder, and one
    is written to only where its item says the source is writable. *)
Theorem imported_mounts_take_effect ms rows :
  reviewed ms rows →
  valid (validMounts nfc lowerCase ms ++ todoMounts rows) ∧
  ∀ m, m ∈ todoMounts rows → ∃ r, r ∈ rows ∧ m = rowMount r ∧ isReady r = true ∧ (direction m = Sync → Recipe.writable (item r) = true).
Proof.
  intros Hr%reviewed_fresh. split.
  2: { intros m (r & -> & [Hi Hin]%list_elem_of_filter)%list_elem_of_fmap. exists r. split_and!; [done|done| |].
       - apply andb_true_iff in Hi as [Hl _]. by apply andb_true_iff in Hl as [? _].
       - unfold rowMount, Recipe.mountFromPlanItem. cbn [direction]. destruct (Recipe.writable _); [done|]. by rewrite andb_false_r. }
  set (ex := validMounts nfc lowerCase ms) in *.
  assert (Hex : valid ex).
  { destruct (validMounts_spec nfc lowerCase ms) as (_ & Ha & Hd & _). apply validMounts_fix. split; [done|]. by apply apart_disjoint. }
  apply validMounts_fix in Hex as [Hea Hep].
  assert (Hone : ∀ i r, rows !! i = Some r → importable r = true → acceptable nfc lowerCase (rowMount r) = true ∧
    (∀ o, o ∈ ex ++ othersOf rows i → overlaps nfc lowerCase o (rowMount r) = false)).
  { intros i r Hi Himp. pose proof (todo_row ms rows i r Hr Hi Himp) as Hv. rewrite app_assoc in Hv. apply validMounts_fix in Hv as [Ha Hp].
    apply Forall_app in Ha as [_ Ha]. rewrite Forall_singleton in Ha. split; [done|]. intros o Ho.
    apply (StronglySorted_app_1_elem_of _ _ _ o (rowMount r) Hp Ho). by left. }
  apply validMounts_fix. split.
  - apply Forall_app. split; [done|]. unfold todoMounts. apply Forall_fmap, Forall_forall. intros r [Himp (i & Hi)%list_elem_of_lookup]%list_elem_of_filter.
    by apply (Hone i r).
  - apply StronglySorted_app_2; [|done|].
    + intros o m Ho (r & -> & [Himp (i & Hi)%list_elem_of_lookup]%list_elem_of_filter)%list_elem_of_fmap.
      apply (Hone i r Hi Himp). apply elem_of_app. by left.
    + unfold todoMounts. clear Hep Hea. assert (Hpair : ∀ i j r r', rows !! i = Some r → rows !! j = Some r' → importable r = true → importable r' = true → i ≠ j →
        overlaps nfc lowerCase (rowMount r) (rowMount r') = false).
      { intros i j r r' Hi Hj Hir Hjr Hne. apply (Hone j r' Hj Hjr). apply elem_of_app. right. eapply other_row; [exact Hi| |done].
        by apply andb_true_iff in Hir as [? _]. }
      clear Hone Hr. induction rows as [|r rows IH]; [constructor|]. rewrite filter_cons. case_decide as Hir.
      * csimpl. constructor; [apply IH; intros i j a b Hi Hj ?? Hne; apply (Hpair (S i) (S j)); [done..|congruence]|].
        apply Forall_fmap, Forall_forall. intros r' [Hjr (j & Hj)%list_elem_of_lookup]%list_elem_of_filter. by apply (Hpair 0 (S j)).
      * apply IH. intros i j a b Hi Hj ?? Hne. apply (Hpair (S i) (S j)); [done..|congruence].
Qed.
End Forms.

(** ** Concrete runs *)
Definition mountOf (o v p : jstr) : Mount := {| source := {| owner := o; vaultId := v; sourcePath := [] |}; mountPoint := p; direction := Pull |}.
Definition shares : list Transport.SharedVaultRef :=
  [{| Transport.sv_owner := js "ann"; Transport.sv_vault := js "hers"; Transport.sv_perm := Transport.PRead |}].
Definition form : option (EditForm * list FormOut) := openForm [js "notes"; js "work"] shares ([], js "notes") [].
Definition played (es : list FormEvent) : option (EditForm * list FormOut) := (λ f, runForm id lower f.1 es) <$> form.
(** The writable source is left for a read-only one after the direction was
    picked; the second press and the failure in between are harmless. *)
Example form_runs :
  (snd <$> played [TypePoint (js "Work. "); PickDirection Sync; PickSource 1; PickDirection Sync; Submit; Submit; AddFailed; Submit; AddSucceeded]) =
    Some [FetchFolders (js "ann") (js "hers"); AddMount (mountOf (js "ann") (js "hers") (js "Work"));
          AddMount (mountOf (js "ann") (js "hers") (js "Work")); CloseForm].
Proof. vm_compute. done. Qed.
Definition readyItem (v p : jstr) : Recipe.RecipePlanItem :=
  {| Recipe.recipe := mountOf (js "ann") v p; Recipe.localSource := source (mountOf (js "ann") v p); Recipe.status := Recipe.Ready;
     Recipe.writable := false; Recipe.suggestedDirection := Pull |}.
Definition twoRows : list Row := revalidate id lower [] (reviewRows [readyItem (js "a") (js "A"); readyItem (js "b") (js "B")]).
Definition asked (w : list Mount) (o : IOp) : IAns o * list Mount :=
  match o return IAns o * list Mount with IAddMount m => (Ok tt, w ++ [m]) | ISay => (tt, w) end.
Definition asks (sched : nat → bool) (tasks : list (M IAns (list Row) unit bool)) : list jstr :=
  mountPoint <$> cw (Effects.run asked sched (par_list tasks) (Conf [] twoRows [] 0)).2.
Example import_runs : asks (λ _, true) [importRecipe] = [js "A"; js "B"] ∧ mountPoint <$> todoMounts twoRows = [js "A"; js "B"].
Proof. vm_compute. done. Qed.

(** ** What modelling showed *)
(** A slow answer for a source that was left replaces the folders of the one
    picked since. *)
Lemma late_folders_are_shown :
  (folders ∘ fst) <$> played [PickSource 1; FoldersArrived (js "ann" ++ 0%N :: js "hers") (Some [js "Hers"]); FoldersArrived (0%N :: js "work") (Some [js "Mine"])] = Some [js "Mine"] ∧
  (so_vault ∘ chosen ∘ fst) <$> played [PickSource 1; FoldersArrived (js "ann" ++ 0%N :: js "hers") (Some [js "Hers"]); FoldersArrived (0%N :: js "work") (Some [js "Mine"])] = Some (js "hers").
Proof. vm_compute. done. Qed.
(** One mount that is not in effect - here nested in another - keeps the form from
    saving any other, which the review of a recipe avoids. *)
Lemma inactive_mount_blocks_form :
  let others := [mountOf (js "ann") (js "a") (js "A"); mountOf (js "ann") (js "b") (js "A/B")] in
  validateMountDraft id lower (mountOf (js "ann") (js "c") (js "C")) others = Some (Refused (NestedPoint (js "A/B") (js "A"))) ∧
  rowError id lower (validMounts id lower others) (reviewRows [readyItem (js "c") (js "C")]) 0
    {| item := readyItem (js "c") (js "C"); checked := true; rowPoint := js "C"; rowDir := Pull; err := None |} = None.
Proof. vm_compute. done. Qed.
(** A folder edited while the import waits for an earlier mount is used without
    being looked at again. *)
Lemma edit_during_import_unchecked :
  asks (λ i, i <=? 2) [importRecipe; editing id lower (Retype 1 (js "A")) [mountOf (js "ann") (js "a") (js "A")]] = [js "A"; js "A"].
Proof. vm_compute. done. Qed.
End Forms.
