(* ===== verification/Channel.v ===== *)
(** * Channel: the live channel and the timers ([client/src/main.ts])

    What keeps the plugin in touch with its servers between the effects of the
    engine: the WebSocket of the primary vault with its listeners and the check
    that it is alive, the poll, the recovery timer, the delayed re-dial, the
    sockets of the mounts, the mount pass that every poke asks for, unloading.
    The engine is the one of [Syncengine]: what it calls is performed here, what
    happens here is enqueued there.  The timers fire and the sockets report in
    any order. *)

From S2P Require Import Prelude Fsm Connstate Status Lifecycle Paths Syncengine Mountengine.

Module Channel.
Import Conn Transport.

(** ** Constants *)
Definition POLL_ACTIVE_MS : Z := 4000.
Definition POLL_IDLE_MS : Z := 60000.
Definition WS_STALE_MS : Z := 75000.
Definition MOUNT_SOCKET_RECYCLE_MS : Z := 900000.

(** ** State *)
(** [sockets] lists every socket made, with the mount it belongs to; [closed]
    are those closed from either side.  A timer is armed with its delay, the
    liveness check and a delayed re-dial with the socket they stand for. *)
Record Wire := {
  ws : option nat; transport : TransportState; lastWsActivity : Z; sockets : list (option jstr); closed : gset nat
}.
Record Timers := {
  reconnectTimer : option Z; pollTimer : option Z; wsLivenessTimer : option nat; redials : list nat; backoff : Z
}.
(** [waiting]: a mount pass was claimed and has not begun. *)
Record Mnt := {
  mountSockets : gmap jstr nat; mountPokeTimer : bool; lastMountSocketRecycleAt : Z; mountScopesToken : jstr;
  mountReconciling : bool; mountReconcilePending : bool; waiting : bool; begun : list jstr
}.
(** [progress]: how far the effect the engine awaits has come: whether a connect
    has finished, whether a re-dial made a socket. *)
Record Channel := {
  unloading : bool; api : bool; sessionToken : jstr; progress : option bool; wire : Wire; timers : Timers; mnt : Mnt
}.
Definition boot : Channel := {|
  unloading := false; api := false; sessionToken := []; progress := None;
  wire := {| ws := None; transport := Offline; lastWsActivity := 0; sockets := []; closed := ∅ |};
  timers := {| reconnectTimer := None; pollTimer := None; wsLivenessTimer := None; redials := []; backoff := 3000 |};
  mnt := {| mountSockets := ∅; mountPokeTimer := false; lastMountSocketRecycleAt := 0; mountScopesToken := [];
            mountReconciling := false; mountReconcilePending := false; waiting := false; begun := [] |} |}.

(** What the outside contributes to a step: the clock, whether a socket can be
    made, and what the random part of a backoff rounds to. *)
Record Env := { now : Z; dials : bool; draw : Z }.

(** *** Assignments *)
Definition onWire (f : Wire → Wire) (c : Channel) : Channel :=
  {| unloading := unloading c; api := api c; sessionToken := sessionToken c; progress := progress c;
     wire := f (wire c); timers := timers c; mnt := mnt c |}.
Definition onTimers (f : Timers → Timers) (c : Channel) : Channel :=
  {| unloading := unloading c; api := api c; sessionToken := sessionToken c; progress := progress c;
     wire := wire c; timers := f (timers c); mnt := mnt c |}.
Definition onMnt (f : Mnt → Mnt) (c : Channel) : Channel :=
  {| unloading := unloading c; api := api c; sessionToken := sessionToken c; progress := progress c;
     wire := wire c; timers := timers c; mnt := f (mnt c) |}.
Definition putUnloading (c : Channel) : Channel :=
  {| unloading := true; api := api c; sessionToken := sessionToken c; progress := progress c;
     wire := wire c; timers := timers c; mnt := mnt c |}.
Definition putSession (t : jstr) (c : Channel) : Channel :=
  {| unloading := unloading c; api := true; sessionToken := t; progress := progress c;
     wire := wire c; timers := timers c; mnt := mnt c |}.
Definition putProgress (p : option bool) (c : Channel) : Channel :=
  {| unloading := unloading c; api := api c; sessionToken := sessionToken c; progress := p;
     wire := wire c; timers := timers c; mnt := mnt c |}.
Definition putWs (w : option nat) : Channel → Channel := onWire (λ x,
  {| ws := w; transport := transport x; lastWsActivity := lastWsActivity x; sockets := sockets x; closed := closed x |}).
Definition putTransport (t : TransportState) : Channel → Channel := onWire (λ x,
  {| ws := ws x; transport := t; lastWsActivity := lastWsActivity x; sockets := sockets x; closed := closed x |}).
Definition putActivity (t : Z) : Channel → Channel := onWire (λ x,
  {| ws := ws x; transport := transport x; lastWsActivity := t; sockets := sockets x; closed := closed x |}).
Definition putSocket (whose : option jstr) : Channel → Channel := onWire (λ x,
  {| ws := ws x; transport := transport x; lastWsActivity := lastWsActivity x; sockets := sockets x ++ [whose]; closed := closed x |}).
Definition shut (l : gset nat) : Channel → Channel := onWire (λ x,
  {| ws := ws x; transport := transport x; lastWsActivity := lastWsActivity x; sockets := sockets x; closed := closed x ∪ l |}).
Definition putReconnect (t : option Z) : Channel → Channel := onTimers (λ x,
  {| reconnectTimer := t; pollTimer := pollTimer x; wsLivenessTimer := wsLivenessTimer x; redials := redials x; backoff := backoff x |}).
Definition putPoll (t : option Z) : Channel → Channel := onTimers (λ x,
  {| reconnectTimer := reconnectTimer x; pollTimer := t; wsLivenessTimer := wsLivenessTimer x; redials := redials x; backoff := backoff x |}).
Definition putLiveness (t : option nat) : Channel → Channel := onTimers (λ x,
  {| reconnectTimer := reconnectTimer x; pollTimer := pollTimer x; wsLivenessTimer := t; redials := redials x; backoff := backoff x |}).
Definition putRedials (l : list nat) : Channel → Channel := onTimers (λ x,
  {| reconnectTimer := reconnectTimer x; pollTimer := pollTimer x; wsLivenessTimer := wsLivenessTimer x; redials := l; backoff := backoff x |}).
Definition putBackoff (b : Z) : Channel → Channel := onTimers (λ x,
  {| reconnectTimer := reconnectTimer x; pollTimer := pollTimer x; wsLivenessTimer := wsLivenessTimer x; redials := redials x; backoff := b |}).
Definition putSockets (m : gmap jstr nat) : Channel → Channel := onMnt (λ x,
  {| mountSockets := m; mountPokeTimer := mountPokeTimer x; lastMountSocketRecycleAt := lastMountSocketRecycleAt x;
     mountScopesToken := mountScopesToken x; mountReconciling := mountReconciling x; mountReconcilePending := mountReconcilePending x;
     waiting := waiting x; begun := begun x |}).
Definition putPoke (b : bool) : Channel → Channel := onMnt (λ x,
  {| mountSockets := mountSockets x; mountPokeTimer := b; lastMountSocketRecycleAt := lastMountSocketRecycleAt x;
     mountScopesToken := mountScopesToken x; mountReconciling := mountReconciling x; mountReconcilePending := mountReconcilePending x;
     waiting := waiting x; begun := begun x |}).
Definition putRecycle (t : Z) : Channel → Channel := onMnt (λ x,
  {| mountSockets := mountSockets x; mountPokeTimer := mountPokeTimer x; lastMountSocketRecycleAt := t;
     mountScopesToken := mountScopesToken x; mountReconciling := mountReconciling x; mountReconcilePending := mountReconcilePending x;
     waiting := waiting x; begun := begun x |}).
Definition putScopesToken (t : jstr) : Channel → Channel := onMnt (λ x,
  {| mountSockets := mountSockets x; mountPokeTimer := mountPokeTimer x; lastMountSocketRecycleAt := lastMountSocketRecycleAt x;
     mountScopesToken := t; mountReconciling := mountReconciling x; mountReconcilePending := mountReconcilePending x;
     waiting := waiting x; begun := begun x |}).
Definition putPass (running pending wait : bool) : Channel → Channel := onMnt (λ x,
  {| mountSockets := mountSockets x; mountPokeTimer := mountPokeTimer x; lastMountSocketRecycleAt := lastMountSocketRecycleAt x;
     mountScopesToken := mountScopesToken x; mountReconciling := running; mountReconcilePending := pending; waiting := wait; begun := begun x |}).
Definition putBegun (t : jstr) : Channel → Channel := onMnt (λ x,
  {| mountSockets := mountSockets x; mountPokeTimer := mountPokeTimer x; lastMountSocketRecycleAt := lastMountSocketRecycleAt x;
     mountScopesToken := mountScopesToken x; mountReconciling := mountReconciling x; mountReconcilePending := mountReconcilePending x;
     waiting := waiting x; begun := begun x ++ [t] |}).

(** ** The operations *)
Definition closeMountSockets (c : Channel) : Channel :=
  putPoke false (putSockets ∅ (shut (map_img (mountSockets (mnt c))) c)).
Definition closeWs (c : Channel) : Channel :=
  putWs None (match ws (wire c) with Some i => shut {[i]} c | None => c end).
Definition doTeardown (c : Channel) : Channel :=
  closeMountSockets (putTransport Offline (closeWs (putLiveness None (putPoll None (putReconnect None c))))).
Definition startPolling (intervalMs : Z) (c : Channel) : Channel :=
  if unloading c then c else putPoll (Some intervalMs) c.
Definition cadence (p : Cadence) : Z := match p with Idle => POLL_IDLE_MS | Active => POLL_ACTIVE_MS end.
(** The new state, and what is enqueued. *)
Definition applyTransport (e : TransportEvent) (from : option nat) (c : Channel) : Channel * list Engine.EngineEvent :=
  let '(s, fx) := transportTransition (transport (wire c)) e in
  let c := putTransport s c in
  let c := match poll fx with Some p => startPolling (cadence p) c | None => c end in
  let c := match redial fx, from with Some Delayed, Some i => putRedials (i :: redials (timers c)) c | _, _ => c end in
  (c, (match redial fx with Some Now => [Engine.EvRews] | _ => [] end) ++ (if reconnect fx then [Engine.EvConnect] else [])).
(** Whether a socket was made; a dial enqueues nothing. *)
Definition spinUpWs (e : Env) (c : Channel) : bool * Channel :=
  if unloading c || negb (api c) then (false, c)
  else
    let c := match ws (wire c) with Some i => shut {[i]} c | None => c end in
    let c := closeMountSockets c in
    if dials e then
      let i := length (sockets (wire c)) in
      let c := putActivity (now e) (putWs (Some i) (putSocket None c)) in
      (true, putLiveness (Some i) (applyTransport Dial (Some i) c).1)
    else (false, putWs None c).
Definition scheduleRecovery (e : Env) (rec : Recovery) (c : Channel) : Channel :=
  if bool_decide (is_Some (reconnectTimer (timers c))) || unloading c then c
  else
    let c := putPoll None c in
    match rec with
    | Backoff =>
        let base := backoff (timers c) in
        putReconnect (Some (base / 2 + Z.max 0 (Z.min (draw e) (base / 2)))%Z) (putBackoff (Z.min (base * 2) 30000) c)
    | After secs | Slow secs => putReconnect (Some (Z.max 1 secs * 1000)%Z) c
    | AwaitUser reprobeSecs => putReconnect (Some (Z.max 60 reprobeSecs * 1000)%Z) c
    end.
(** The part of a connect that runs at once; the rest is [SignedIn] and [finishConnect]. *)
Definition doConnect (c : Channel) : Channel :=
  putProgress None (closeWs (putReconnect None (putTransport Offline c))).
Definition finishConnect (e : Env) (c : Channel) : Channel :=
  putProgress (Some true) (putBackoff 3000 (startPolling POLL_ACTIVE_MS (spinUpWs e c).2)).
Definition doRews (e : Env) (c : Channel) : Channel := let '(ok, c) := spinUpWs e c in putProgress (Some ok) c.

(** *** The listeners of a socket of the primary vault *)
Definition superseded (i : nat) (c : Channel) : bool :=
  unloading c || negb (api c) || negb (bool_decide (ws (wire c) = Some i)).
Definition heard (ev : TransportEvent) (e : Env) (i : nat) (c : Channel) : Channel * list Engine.EngineEvent :=
  if superseded i c then (c, [])
  else applyTransport ev (Some i) (match ev with Opened => putActivity (now e) c | _ => c end).
Definition livenessTick (e : Env) (c : Channel) : Channel * list Engine.EngineEvent :=
  match wsLivenessTimer (timers c) with
  | None => (c, [])
  | Some i =>
      if unloading c || negb (bool_decide (ws (wire c) = Some i)) || negb (bool_decide (transport (wire c) = Live)) then (c, [])
      else if Light.isWsStale (lastWsActivity (wire c)) (now e) WS_STALE_MS
           then applyTransport StaleTick (Some i) (putActivity (now e) c)
           else (c, [])
  end.
Fixpoint fired (i : nat) (l : list nat) : list nat :=
  match l with [] => [] | j :: l => if decide (j = i) then l else j :: fired i l end.
Definition redialFires (i : nat) (c : Channel) : Channel * list Engine.EngineEvent :=
  if bool_decide (i ∈ redials (timers c)) then
    let c := putRedials (fired i (redials (timers c))) c in
    (c, if superseded i c then [] else [Engine.EvRews])
  else (c, []).

(** *** The mounts *)
Definition pokeMounts (c : Channel) : Channel :=
  if unloading c || mountPokeTimer (mnt c) then c else putPoke true c.
(** [drop], the listener of a mount's socket. *)
Definition drop_ (key : jstr) (i : nat) (c : Channel) : Channel :=
  if bool_decide (mountSockets (mnt c) !! key = Some i) then putSockets (delete key (mountSockets (mnt c))) c else c.
Definition reconcileMounts (c : Channel) : Channel :=
  if mountReconciling (mnt c) then putPass true true (waiting (mnt c)) c else putPass true (mountReconcilePending (mnt c)) true c.
(** The start of a pass, once it has the lock: [None] when no mount is
    configured.  Then the pass runs, with the token of the session. *)
Definition rebuildMountScopes (c : Channel) : Channel :=
  if mountScopesToken (mnt c) === sessionToken c then c else putScopesToken (sessionToken c) (closeMountSockets c).
Definition passReleased (c : Channel) : Channel :=
  let again := mountReconcilePending (mnt c) && negb (unloading c) in
  let c := putPass false (if again then false else mountReconcilePending (mnt c)) false c in
  if again then reconcileMounts c else c.
Definition passBegins (configured : nat) (hadScopes : bool) (c : Channel) : Channel :=
  if waiting (mnt c) then
    match configured with
    | 0 => passReleased (if hadScopes || negb (bool_decide (mountSockets (mnt c) = ∅)) then closeMountSockets c else c)
    | S _ => putBegun (sessionToken c) (putPass true (mountReconcilePending (mnt c)) false (rebuildMountScopes c))
    end
  else c.
Definition primaryLinkUp (s : Engine.EngineState) : bool :=
  match s with Engine.SConnecting | Engine.SReconciling | Engine.SIdle => true | _ => false end.
Definition isHealthy (s : MountFsm.MountState) : bool :=
  match s with MountFsm.Live | MountFsm.Diverged => true | _ => false end.
Definition healthy (scopes : list (jstr * MountFsm.MountState)) : gset jstr :=
  list_to_set (filter (λ p, isHealthy p.2 = true) scopes).*1.
Definition subscribe (opens : jstr → bool) (want : gset jstr) (m : Mounts.Mount) (c : Channel) : Channel :=
  let key := Mountengine.mountKey m in
  if negb (bool_decide (key ∈ want)) || bool_decide (is_Some (mountSockets (mnt c) !! key)) then c
  else if opens key then putSockets (<[key := length (sockets (wire c))]> (mountSockets (mnt c))) (putSocket (Some key) c) else c.
Definition recycle (e : Env) (c : Channel) : Channel :=
  if (lastMountSocketRecycleAt (mnt c) =? 0)%Z then putRecycle (now e) c
  else if (MOUNT_SOCKET_RECYCLE_MS <=? now e - lastMountSocketRecycleAt (mnt c))%Z
       then putSockets ∅ (shut (map_img (mountSockets (mnt c))) (putRecycle (now e) c))
       else c.
Definition syncMountSubscriptions (e : Env) (s : Engine.EngineState) (scopes : list (jstr * MountFsm.MountState))
    (active : list Mounts.Mount) (opens : jstr → bool) (c : Channel) : Channel :=
  let want : gset jstr := filter (λ k, k ∈ healthy scopes) (list_to_set (Mountengine.mountKey <$> active)) in
  let stay := filter (λ kv, kv.1 ∈ want) (mountSockets (mnt c)) in
  let go := filter (λ kv, kv.1 ∉ want) (mountSockets (mnt c)) in
  let c := putSockets stay (shut (map_img go) c) in
  if unloading c || negb (truthy (sessionToken c)) || negb (primaryLinkUp s) then c
  else foldl (λ c m, subscribe opens want m c) (recycle e c) active.

(** ** The plugin: the engine over this channel *)
Section Plugin.
Context {Err : Type} (classify : Err → FailureClass).
Record Plugin := { engine : Engine.Config (Err := Err); chan : Channel }.
Definition estate (p : Plugin) : Engine.EngineState := Engine.state (Engine.run_ (engine p)).1.
Definition start : Plugin := {| engine := Engine.initial; chan := boot |}.

(** The calls of the engine. *)
Definition perform (e : Env) (o : Engine.Out (Err := Err)) (c : Channel) : Channel :=
  match o with
  | Engine.OTeardown => doTeardown c
  | Engine.ORecovery rec => scheduleRecovery e rec c
  | Engine.OCall Engine.FxConnect => doConnect c
  | Engine.OCall Engine.FxRews => doRews e c
  | _ => c
  end.
Definition performAll (e : Env) (l : list (Engine.Out (Err := Err))) (c : Channel) : Channel := foldl (λ c o, perform e o c) c l.
Definition onEngine (e : Env) (f : Engine.Config (Err := Err) → Engine.Config (Err := Err)) (p : Plugin) : Plugin :=
  let n := f (engine p) in
  {| engine := n; chan := performAll e (drop (length (Engine.run_ (engine p)).2) (Engine.run_ n).2) (chan p) |}.
Definition ask (e : Env) (ev : Engine.EngineEvent) : Plugin → Plugin := onEngine e (Engine.enqueue ev).
Definition onChan (f : Channel → Channel) (p : Plugin) : Plugin := {| engine := engine p; chan := f (chan p) |}.
Definition both (e : Env) (f : Channel → Channel * list Engine.EngineEvent) (p : Plugin) : Plugin :=
  let '(c, l) := f (chan p) in foldl (λ p ev, ask e ev p) {| engine := engine p; chan := c |} l.

Definition onunload (e : Env) (p : Plugin) : Plugin :=
  onChan (putPoke false) (ask e Engine.EvUnload (onChan putUnloading p)).
Definition onResume (e : Env) (p : Plugin) : Plugin :=
  if unloading (chan p) then p
  else match resumeAction (Engine.estate_name (estate p)) with
       | ResumeConnect => ask e Engine.EvConnect (onChan (putReconnect None) p)
       | ResumeReassess => ask e Engine.EvRemote p
       end.
Definition reconnectFires (e : Env) (p : Plugin) : Plugin :=
  match reconnectTimer (timers (chan p)) with Some _ => ask e Engine.EvConnect (onChan (putReconnect None) p) | None => p end.
Definition pollFires (e : Env) (p : Plugin) : Plugin :=
  match pollTimer (timers (chan p)) with Some _ => ask e Engine.EvRemote p | None => p end.
Definition pokeFires (c : Channel) : Channel :=
  if mountPokeTimer (mnt c) then let c := putPoke false c in if unloading c then c else reconcileMounts c else c.
(** A frame of a socket; none comes through a closed one. *)
Definition message (e : Env) (i : nat) (changed : bool) (p : Plugin) : Plugin :=
  if bool_decide (i ∈ closed (wire (chan p))) then p
  else match sockets (wire (chan p)) !! i with
       | Some None => onChan (putActivity (now e)) (if changed then ask e Engine.EvRemote p else p)
       | Some (Some _) => if changed then onChan pokeMounts p else p
       | None => p
       end.
Definition opens (e : Env) (i : nat) (p : Plugin) : Plugin :=
  if bool_decide (i ∈ closed (wire (chan p))) then p
  else match sockets (wire (chan p)) !! i with Some None => both e (heard Opened e i) p | _ => p end.
(** [error] and [close]: the socket is gone. *)
Definition fails (e : Env) (ev : TransportEvent) (i : nat) (p : Plugin) : Plugin :=
  let p := onChan (shut {[i]}) p in
  match sockets (wire (chan p)) !! i with
  | Some None => both e (heard ev e i) p
  | Some (Some key) => onChan (drop_ key i) p
  | None => p
  end.

(** What can happen.  An effect settles as it can: a connect well once it has
    finished, a re-dial well if it made a socket. *)
Inductive Action :=
| Ask (ev : Engine.EngineEvent) | Onunload | OnResume
| SignedIn (token : jstr) | FinishConnect | Works | Settles (outcome : option Err) | Resumes
| Opens (i : nat) | Errors (i : nat) | Closes (i : nat) | Message (i : nat) (changed : bool)
| PollFires | ReconnectFires | LivenessFires | RedialFires (i : nat) | PokeFires
| ReconcileMounts | PassBegins (configured : nat) (hadScopes : bool)
| PassEnds (subs : option (list (jstr * MountFsm.MountState) * list Mounts.Mount * (jstr → bool))).
Definition settlesWith (o : option Err) (p : Plugin) : bool :=
  match Engine.pc (engine p) with
  | Engine.PEffect Engine.EvConnect | Engine.PEffect Engine.EvRews =>
      bool_decide (progress (chan p) = Some true) && match o with None => true | Some _ => false end ||
      negb (bool_decide (progress (chan p) = Some true)) && match o with None => false | Some _ => true end
  | Engine.PEffect _ => true
  | _ => false
  end.
Definition inConnect (p : Plugin) : bool := match Engine.pc (engine p) with Engine.PEffect Engine.EvConnect => true | _ => false end.
Definition step (p : Plugin) (ea : Env * Action) : Plugin :=
  let '(e, a) := ea in
  match a with
  | Ask Engine.EvUnload => p
  | Ask ev => ask e ev p
  | Onunload => onunload e p
  | OnResume => onResume e p
  | SignedIn t => if inConnect p && bool_decide (progress (chan p) = None) then onChan (putSession t) p else p
  | FinishConnect =>
      if inConnect p && bool_decide (progress (chan p) = None) && api (chan p) then onChan (finishConnect e) p else p
  | Works => onEngine e (λ c, Engine.act classify c Engine.Begin) p
  | Settles o => if settlesWith o p then onEngine e (λ c, Engine.act classify c (Engine.Done o)) p else p
  | Resumes => onEngine e (λ c, Engine.act classify c Engine.Tick) p
  | Opens i => opens e i p
  | Errors i => fails e Errored i p
  | Closes i => fails e Closed i p
  | Message i changed => message e i changed p
  | PollFires => pollFires e p
  | ReconnectFires => reconnectFires e p
  | LivenessFires => both e (livenessTick e) p
  | RedialFires i => both e (redialFires i) p
  | PokeFires => onChan pokeFires p
  | ReconcileMounts => onChan reconcileMounts p
  | PassBegins n b => onChan (passBegins n b) p
  | PassEnds subs =>
      if mountReconciling (mnt (chan p)) && negb (waiting (mnt (chan p))) then
        onChan passReleased
          (match subs with Some (scopes, active, f) => onChan (syncMountSubscriptions e (estate p) scopes active f) p | None => p end)
      else p
  end.
Definition steps (p : Plugin) (l : list (Env * Action)) : Plugin := foldl step p l.

(** ** What holds of every step *)
Implicit Types (c : Channel) (p : Plugin) (e : Env).
Abbreviation Run := (Engine.Engine * list (Engine.Out (Err := Err)))%type.
Implicit Types r : Run.
Definition armed {A} (o : option A) : Prop := is_Some o.
(** Every socket that is not closed is the one in use, or a mount's. *)
Definition tidy c : Prop :=
  ∀ i, i < length (sockets (wire c)) →
    i ∈ closed (wire c) ∨ ws (wire c) = Some i ∨ ∃ k, mountSockets (mnt c) !! k = Some i.
(** [api] is set once a socket is in use. *)
Record wired c : Prop := {
  w_tidy : tidy c;
  w_ws i : ws (wire c) = Some i → sockets (wire c) !! i = Some None ∧ api c = true;
  w_mnt k i : mountSockets (mnt c) !! k = Some i → sockets (wire c) !! i = Some (Some k);
}.
(** Nothing is left: no timer that would reach out, no socket in use. *)
Definition quiet c : Prop :=
  reconnectTimer (timers c) = None ∧ pollTimer (timers c) = None ∧ wsLivenessTimer (timers c) = None ∧
  mountPokeTimer (mnt c) = false ∧ ws (wire c) = None ∧ transport (wire c) = Offline ∧ mountSockets (mnt c) = ∅.
Definition down (s : Engine.EngineState) : bool := match s with Engine.SOff | Engine.SUnloading => true | _ => false end.
(** The plugin will connect: a connect is queued, or its timer is armed. *)
Definition comes r c : Prop := armed (reconnectTimer (timers c)) ∨ Engine.EvConnect ∈ Engine.queue r.1.
Definition listens r c : Prop := Engine.isConnected r.1 = true ∧ armed (pollTimer (timers c)).
Definition connecting (m : Engine.Pc) : Prop := m = Engine.PEffect Engine.EvConnect.
Definition reaching (m : Engine.Pc) : bool :=
  match m with Engine.PEffect (Engine.EvTask _) | Engine.PIdle | Engine.PAwait => false | Engine.PEffect _ => true end.
(** The invariant, with the engine at [m] in [r]. *)
Record sound (m : Engine.Pc) r c : Prop := {
  s_unloading : unloading c = true ↔ Engine.state r.1 = Engine.SUnloading;
  s_down : down (Engine.state r.1) = true → quiet c;
  s_off : Engine.state r.1 = Engine.SOff → reaching m = false;
  s_up : down (Engine.state r.1) = false → comes r c ∨ listens r c ∨ connecting m;
  s_wired : wired c;
  (** a live socket is not known to be closed, except while a failed re-dial is
      followed by a connect *)
  s_live : transport (wire c) = Live →
    (∃ i, ws (wire c) = Some i ∧ i ∉ closed (wire c)) ∨
    (ws (wire c) = None ∧ (comes r c ∨ m = Engine.PEffect Engine.EvRews ∧ progress c = Some false));
  (** the backstop cadence stands for a live socket *)
  s_cadence : pollTimer (timers c) = Some POLL_IDLE_MS → transport (wire c) = Live ∨ connecting m ∧ progress c ≠ Some true;
  s_connect : connecting m → reconnectTimer (timers c) = None ∧ (progress c = Some true → unloading c = false → armed (pollTimer (timers c)));
  s_fresh : connecting m → progress c = None → ws (wire c) = None ∧ transport (wire c) = Offline;
}.

(** What a run of the engine makes the channel do. *)
Definition says e r r' (g : Channel → Channel) : Prop := ∃ l, r'.2 = r.2 ++ l ∧ ∀ c, performAll e l c = g c.
Lemma says_refl e r r' : r'.2 = r.2 → says e r r' id.
Proof. intros H. exists []. by rewrite app_nil_r. Qed.
Lemma says_trans e r1 r2 r3 g g' : says e r1 r2 g → says e r2 r3 g' → says e r1 r3 (λ c, g' (g c)).
Proof.
  intros (l & H & Hg) (l' & H' & Hg'). exists (l ++ l'). split; [by rewrite H', H, app_assoc|].
  intros c. unfold performAll in *. by rewrite foldl_app, Hg, Hg'.
Qed.
Lemma says_emit e o r : says e r (Engine.emit o r) (perform e o).
Proof. by exists [o]. Qed.
Lemma says_transition e se r : says e r (Engine.transition se r) id.
Proof. unfold Engine.transition. case_decide; [by apply says_refl|]. by eexists [_]. Qed.
Lemma says_performs e r r' g c : says e r r' g → performAll e (drop (length r.2) r'.2) c = g c.
Proof. intros (l & -> & Hg). by rewrite drop_app_length. Qed.
Lemma says_weaken e r0 r r' g : r0.2 = r.2 → says e r r' g → says e r0 r' g.
Proof. intros H (l & Hl & Hg). exists l. by rewrite H. Qed.
Definition turnOf e (ev : Engine.EngineEvent) r : Channel → Channel :=
  match ev with
  | Engine.EvDisconnect => doTeardown
  | Engine.EvConnect => doConnect
  | Engine.EvRews => if Engine.isConnected r.1 then doRews e else id
  | _ => id
  end.
Lemma handle_says e ev r : ev ≠ Engine.EvUnload → says e r (Engine.handle ev r).1 (turnOf e ev r).
Proof.
  intros Hev. destruct ev; cbn [Engine.handle turnOf]; try done.
  - eapply (says_trans _ _ _ _ id); [apply says_transition|]. apply (says_emit e (Engine.OCall Engine.FxConnect)).
  - destruct (Engine.isConnected _); cbn; [|by apply says_refl]. apply (says_emit e (Engine.OCall Engine.FxReconcileAll)).
  - destruct (Engine.isConnected _); cbn; [|by apply says_refl]. eapply (says_trans _ _ _ _ id id); [apply says_transition|].
    apply (says_emit e (Engine.OCall (Engine.FxReconcilePath _ _))).
  - apply (says_emit e (Engine.OCall (Engine.FxTask _))).
  - destruct (Engine.isConnected _); cbn; [|by apply says_refl]. apply (says_emit e (Engine.OCall Engine.FxRews)).
  - eapply (says_trans _ _ _ _ _ id); [|apply says_transition]. eapply says_weaken; [|apply (says_emit e Engine.OTeardown)]. done.
Qed.
Lemma fail_says e site err r : says e r (Engine.failWith classify site err r) (scheduleRecovery e (recoveryFor (classify err))).
Proof.
  unfold Engine.failWith. eapply (says_trans _ _ _ _ id); [|apply (says_emit e (Engine.ORecovery _))].
  eapply (says_weaken _ _ (Engine.setLink _ r)); [done|]. eapply (says_trans _ _ _ _ id id); [apply says_transition|].
  eapply (says_trans _ _ _ _ id id); [apply (says_emit e (Engine.OError site err))|]. by apply says_refl.
Qed.
Lemma unload_says e r : says e r (Engine.unloadNow r) doTeardown.
Proof.
  unfold Engine.unloadNow. eapply (says_trans _ _ _ _ id); [|apply (says_emit e Engine.OTeardown)].
  eapply (says_weaken _ _ (Engine.setLink _ r)); [done|]. eapply (says_trans _ _ _ _ id id); [apply says_transition|]. by apply says_refl.
Qed.
(** *** The sockets *)
Lemma wired_same c c' :
  wired c → ws (wire c') = ws (wire c) → sockets (wire c') = sockets (wire c) → closed (wire c) ⊆ closed (wire c') →
  mountSockets (mnt c') = mountSockets (mnt c) → (api c = true → api c' = true) → wired c'.
Proof.
  intros [Ht Hw Hm] Ews Es Hc Em Ha. split.
  - intros i. rewrite Es, Ews, Em. intros Hi. destruct (Ht i Hi) as [?|[?|?]]; [left; set_solver|auto|auto].
  - intros i. rewrite Ews, Es. intros H. destruct (Hw i H). auto.
  - intros k i. rewrite Em, Es. apply Hm.
Qed.
Local Ltac wired_refl := first [done | set_solver | idtac].
Lemma wired_closeWs c : wired c → wired (closeWs c).
Proof.
  intros [Ht Hw Hm]. unfold closeWs. split; cbn.
  - intros i. destruct (ws (wire c)) as [j|] eqn:E; cbn; intros Hi; destruct (Ht i Hi) as [?|[?|?]]; simplify_eq; auto; left; set_solver.
  - done.
  - destruct (ws (wire c)); cbn; exact Hm.
Qed.
Lemma wired_mounts (go stay : gmap jstr nat) c :
  wired c → stay ⊆ mountSockets (mnt c) → (∀ k i, mountSockets (mnt c) !! k = Some i → stay !! k = Some i ∨ go !! k = Some i) →
  wired (putSockets stay (shut (map_img go) c)).
Proof.
  intros [Ht Hw Hm] Hs Hg. split; cbn.
  - intros i Hi. destruct (Ht i Hi) as [?|[?|[k Hk]]]; [left; set_solver|auto|].
    destruct (Hg k i Hk) as [?|H]; [right; right; by exists k|]. left. apply elem_of_union_r, elem_of_map_img. by exists k.
  - exact Hw.
  - intros k i Hk. apply Hm. by eapply lookup_weaken.
Qed.
Lemma wired_closeMounts c : wired c → wired (closeMountSockets c).
Proof. intros H. apply (wired_same (putSockets ∅ (shut (map_img (mountSockets (mnt c))) c))); try wired_refl. apply wired_mounts; [done|apply map_empty_subseteq|auto]. Qed.
Lemma wired_teardown c : wired c → wired (doTeardown c).
Proof.
  intros H. unfold doTeardown. apply wired_closeMounts. eapply (wired_same (closeWs (putLiveness None (putPoll None (putReconnect None c))))); try wired_refl.
  by apply wired_closeWs, (wired_same c).
Qed.
Lemma applyTransport_frame ev from c :
  let c' := (applyTransport ev from c).1 in
  ws (wire c') = ws (wire c) ∧ sockets (wire c') = sockets (wire c) ∧ closed (wire c') = closed (wire c) ∧ mnt c' = mnt c ∧
  api c' = api c ∧ unloading c' = unloading c ∧ progress c' = progress c ∧
  reconnectTimer (timers c') = reconnectTimer (timers c) ∧ wsLivenessTimer (timers c') = wsLivenessTimer (timers c) ∧
  transport (wire c') = (transportTransition (transport (wire c)) ev).1 ∧
  pollTimer (timers c') = match poll (transportTransition (transport (wire c)) ev).2 with
                          | Some p => if unloading c then pollTimer (timers c) else Some (cadence p) | None => pollTimer (timers c) end.
Proof.
  unfold applyTransport. destruct (transportTransition _ _) as [s [pl rd rc]]. cbn. destruct pl, rd as [[]|], from; cbn;
    unfold startPolling; cbn; destruct (unloading c) eqn:E; cbn; rewrite ?E; done.
Qed.
Lemma wired_apply ev from c : wired c → wired (applyTransport ev from c).1.
Proof.
  intros H. destruct (applyTransport_frame ev from c) as (? & ? & ? & Hm & ? & ?).
  apply (wired_same c); [done..|set_solver|by rewrite Hm|congruence].
Qed.
(** What a dial leaves behind. *)
Lemma spin_frame e c :
  let c' := (spinUpWs e c).2 in
  unloading c' = unloading c ∧ progress c' = progress c ∧ api c' = api c ∧ reconnectTimer (timers c') = reconnectTimer (timers c) ∧
  (armed (pollTimer (timers c)) → armed (pollTimer (timers c'))) ∧
  (c' = c ∧ (spinUpWs e c).1 = false ∨
   (unloading c = false ∧ (spinUpWs e c).1 = true ∧ transport (wire c') = Dialing ∧ pollTimer (timers c') = Some POLL_ACTIVE_MS) ∨
   ((spinUpWs e c).1 = false ∧ ws (wire c') = None ∧ transport (wire c') = transport (wire c) ∧ timers c' = timers c)).
Proof.
  cbv zeta. unfold spinUpWs. destruct (unloading c) eqn:Hu; cbn [orb negb]; [by split_and!; auto|].
  destruct (api c) eqn:Ha; cbn [orb negb]; [|by split_and!; auto].
  destruct (dials e); cbn [fst snd].
  - set (x := putActivity _ _).
    assert (Hx : unloading x = false ∧ progress x = progress c ∧ api x = true ∧ timers x = timers c).
    { subst x. by destruct (ws (wire c)); cbn. }
    clearbody x. destruct Hx as (Hx1 & Hx2 & Hx3 & Hx4).
    match goal with |- context [applyTransport Dial ?i x] => pose proof (applyTransport_frame Dial i x) as Hf;
      rewrite transportTransition_rules in Hf; set (y := (applyTransport Dial i x).1) in *; clearbody y end.
    destruct Hf as (_ & _ & _ & _ & Hap & Hun & Hp & Hr & _ & Ht & Hpo). rewrite Hx1 in Hpo. cbn in Ht, Hpo. cbn.
    split_and!; try congruence.
    + intros _. rewrite Hpo. by eexists.
    + right. left. by split_and!.
  - destruct (ws (wire c)); cbn; split_and!; auto; right; right; done.
Qed.
Lemma wired_spin e c : wired c → wired (spinUpWs e c).2.
Proof.
  intros H. unfold spinUpWs. destruct (unloading c); [done|]. destruct (api c) eqn:Ha; [|done]. cbn [orb negb].
  set (c0 := match ws (wire c) with Some i => shut {[i]} c | None => c end).
  assert (H0 : wired c0 ∧ (∀ i, ws (wire c) = Some i → i ∈ closed (wire c0)) ∧ ws (wire c0) = ws (wire c) ∧ api c0 = true).
  { subst c0. destruct (ws (wire c)) as [i|] eqn:E; [|done]. split_and!; [by apply (wired_same c); wired_refl| |done|done].
    intros j [= <-]. cbn. set_solver. }
  destruct H0 as (H0 & Hcl & Ew & Ha0). apply wired_closeMounts in H0. set (c1 := closeMountSockets c0) in *.
  assert (Hcl1 : ∀ i, ws (wire c1) = Some i → i ∈ closed (wire c1)).
  { intros i Hi. subst c1. cbn in *. rewrite Ew in Hi. specialize (Hcl i Hi). set_solver. }
  assert (Hm1 : mountSockets (mnt c1) = ∅) by done. assert (Ha1 : api c1 = true) by done. clearbody c1.
  destruct H0 as [Ht Hw Hm]. destruct (dials e); cbn [snd].
  - match goal with |- wired (putLiveness _ ?y) => apply (wired_same y); [|wired_refl..] end.
    apply wired_apply. split; cbn.
    + intros i. cbn. rewrite length_app. cbn. intros Hi. destruct (decide (i = length (sockets (wire c1)))) as [->|]; [auto|].
      left. destruct (Ht i) as [?|[?|[k Hk]]]; [lia|done|by apply Hcl1|by rewrite Hm1 in Hk].
    + intros i [= <-]. split; [|done]. by rewrite lookup_app_r, Nat.sub_diag.
    + intros k i. by rewrite Hm1.
  - split; cbn; [|done|exact Hm]. intros i. cbn. intros Hi. destruct (Ht i Hi) as [?|[?|?]]; auto.
Qed.
(** *** The engine's turns *)
Lemma closeWs_frame c :
  timers (closeWs c) = timers c ∧ mnt (closeWs c) = mnt c ∧ unloading (closeWs c) = unloading c ∧
  progress (closeWs c) = progress c ∧ transport (wire (closeWs c)) = transport (wire c) ∧ ws (wire (closeWs c)) = None.
Proof. unfold closeWs. by destruct (ws (wire c)). Qed.
Lemma teardown_quiet c : quiet (doTeardown c).
Proof.
  unfold quiet, doTeardown. destruct (closeWs_frame (putLiveness None (putPoll None (putReconnect None c)))) as (Ht & _ & _ & _ & _ & Hw).
  set (y := closeWs _) in *. clearbody y. cbn. by rewrite Ht, Hw.
Qed.
Lemma teardown_unloading c : unloading (doTeardown c) = unloading c.
Proof.
  unfold doTeardown. destruct (closeWs_frame (putLiveness None (putPoll None (putReconnect None c)))) as (_ & _ & Hu & _).
  set (y := closeWs _) in *. clearbody y. cbn. by rewrite Hu.
Qed.
Lemma comes_mono r r' c : (Engine.EvConnect ∈ Engine.queue r.1 → Engine.EvConnect ∈ Engine.queue r'.1) → comes r c → comes r' c.
Proof. intros H [?|?]; [by left|right; auto]. Qed.
(** The engine moves on, the channel does not. *)
Lemma sound_engine m m' r r' c :
  sound m r c →
  (Engine.state r'.1 = Engine.SUnloading ↔ Engine.state r.1 = Engine.SUnloading) → down (Engine.state r'.1) = down (Engine.state r.1) →
  (Engine.state r'.1 = Engine.SOff → reaching m' = false) →
  (Engine.isConnected r.1 = true → Engine.isConnected r'.1 = true) →
  (Engine.EvConnect ∈ Engine.queue r.1 → Engine.EvConnect ∈ Engine.queue r'.1) →
  (connecting m ↔ connecting m') → (m = Engine.PEffect Engine.EvRews → m' = Engine.PEffect Engine.EvRews ∨ progress c ≠ Some false) →
  sound m' r' c.
Proof.
  intros [Hu Hd Ho Hup Hw Hl Hc Hcn Hf] E1 E2 E3 E4 E5 E6 E7. split.
  - by rewrite E1.
  - by rewrite E2.
  - done.
  - rewrite E2. intros H. destruct (Hup H) as [?|[[? ?]|?]]; [left; by eapply comes_mono|right; left; split; auto|right; right; by apply E6].
  - done.
  - intros H. destruct (Hl H) as [?|[? [?|[Hm ?]]]]; [by left|right; split; [done|left; by eapply comes_mono]|].
    right. split; [done|]. destruct (E7 Hm); [by right|done].
  - intros H. destruct (Hc H) as [?|[? ?]]; [by left|right; split; [by apply E6|done]].
  - intros H. by apply Hcn, E6.
  - intros H. by apply Hf, E6.
Qed.
Lemma doConnect_frame c :
  reconnectTimer (timers (doConnect c)) = None ∧ unloading (doConnect c) = unloading c ∧ progress (doConnect c) = None ∧
  transport (wire (doConnect c)) = Offline ∧ ws (wire (doConnect c)) = None.
Proof. unfold doConnect. cbn. unfold closeWs. cbn. by destruct (ws (wire c)). Qed.
Lemma wired_doConnect c : wired c → wired (doConnect c).
Proof.
  intros H. apply (wired_same (closeWs (putReconnect None (putTransport Offline c)))); [|done..].
  by apply wired_closeWs, (wired_same c).
Qed.
Lemma rews_frame e c :
  let c' := doRews e c in
  unloading c' = unloading c ∧ reconnectTimer (timers c') = reconnectTimer (timers c) ∧
  (armed (pollTimer (timers c)) → armed (pollTimer (timers c'))) ∧
  (wire c' = wire c ∧ timers c' = timers c ∧ progress c' = Some false ∨
   (progress c' = Some true ∧ transport (wire c') = Dialing ∧ pollTimer (timers c') = Some POLL_ACTIVE_MS) ∨
   (progress c' = Some false ∧ ws (wire c') = None ∧ transport (wire c') = transport (wire c) ∧ timers c' = timers c)).
Proof.
  cbv zeta. unfold doRews. pose proof (spin_frame e c) as H. destruct (spinUpWs e c) as [b c']. cbv zeta in H. cbn [fst snd] in *.
  destruct H as (? & ? & ? & ? & ? & [[-> ->]|[(? & -> & ? & ?)|(-> & ? & ? & ?)]]); cbn; split_and!; try done;
    [by left|right; by left|right; by right].
Qed.
Lemma wired_rews e c : wired c → wired (doRews e c).
Proof.
  intros H%(wired_spin e). unfold doRews. destruct (spinUpWs e c) as [b c']. cbn in *. by apply (wired_same c').
Qed.
Lemma suspended_up r c : sound Engine.PAwait r c → Engine.state r.1 ≠ Engine.SUnloading → unloading c = false.
Proof. intros [Hu] H. apply not_true_iff_false. by rewrite Hu. Qed.
Lemma connect_turn r c : wired c → unloading c = false → down (Engine.state r.1) = false → sound (Engine.PEffect Engine.EvConnect) r (doConnect c).
Proof.
  intros Hw Hun Hs. destruct (doConnect_frame c) as (F1 & F2 & F3 & F4 & F5).
  split; rewrite ?F1, ?F2, ?F3, ?F4, ?F5; try done.
  - rewrite Hun. split; [done|]. intros E. by rewrite E in Hs.
  - by rewrite Hs.
  - intros E. by rewrite E in Hs.
  - intros _. right. by right.
  - by apply wired_doConnect.
  - intros _. by right.
Qed.
Lemma disconnect_turn r c : wired c → unloading c = false → Engine.state r.1 = Engine.SOff → sound Engine.PAwait r (doTeardown c).
Proof.
  intros Hw Hun Hs. destruct (teardown_quiet c) as (Q1 & Q2 & Q3 & Q4 & Q5 & Q6 & Q7).
  split; rewrite ?Hs; try done.
  - by rewrite teardown_unloading, Hun.
  - by apply wired_teardown.
  - by rewrite Q2.
Qed.
Lemma rews_turn e o r c :
  sound Engine.PAwait r c → Engine.isConnected r.1 = true → sound (Engine.PEffect Engine.EvRews) (Engine.emit o r) (doRews e c).
Proof.
  intros [Hu Hd0 Ho Hup Hw Hl Hcad Hcn Hf] Hi. destruct (rews_frame e c) as (F1 & F2 & F3 & F4).
  assert (Hd : down (Engine.state r.1) = false) by (unfold Engine.isConnected in Hi; by destruct (Engine.state r.1)).
  split; cbn [Engine.emit fst].
  - by rewrite F1.
  - by rewrite Hd.
  - intros E. by rewrite E in Hd.
  - intros _. destruct (Hup Hd) as [[?|?]|[[? ?]|?]]; [left; left; by rewrite F2|left; by right|right; left; split; auto|done].
  - by apply wired_rews.
  - intros HL. destruct F4 as [(Ew & Et & Ep)|[(? & E & ?)|(Ep & Ew & Et & Ett)]]; [|congruence|right; split; [done|by right]].
    rewrite Ew in HL. destruct (Hl HL) as [?|[? Hx]]; [left; by rewrite Ew|right; split; [by rewrite Ew|]].
    destruct Hx as [[?|?]|[? _]]; [left; left; by rewrite F2|left; by right|done].
  - intros HI. left. destruct F4 as [(Ew & Et & Ep)|[(? & E & E2)|(Ep & Ew & Et & Ett)]].
    + rewrite Et in HI. rewrite Ew. by destruct (Hcad HI) as [?|[? _]].
    + rewrite E2 in HI. by injection HI.
    + rewrite Ett in HI. rewrite Et. by destruct (Hcad HI) as [?|[? _]].
  - done.
  - done.
Qed.
(** One event is handled. *)
Lemma turn_sound e ev q r c r' b :
  sound Engine.PAwait r c → Engine.queue r.1 = ev :: q → Engine.state r.1 ≠ Engine.SUnloading → Engine.state r.1 ≠ Engine.SConnecting →
  ev ≠ Engine.EvUnload → Engine.handle ev (Engine.setQueue (λ _, q) r) = (r', b) →
  sound (if b then Engine.PEffect ev else Engine.PAwait) r' (turnOf e ev r c).
Proof.
  intros H Hq Hu Hc Hev Hh. pose proof (suspended_up _ _ H Hu) as Hun. pose proof (s_wired _ _ _ H) as Hw.
  assert (Hstay : ev ≠ Engine.EvConnect → sound Engine.PAwait (Engine.setQueue (λ _, q) r) c).
  { intros Hne. eapply sound_engine; [exact H|done..| |done|done]. rewrite Hq. cbn. set_solver. }
  destruct ev; cbn [Engine.handle turnOf] in *; try done.
  - injection Hh as <- <-. apply connect_turn; [done..|]. cbn [Engine.emit fst]. rewrite Engine.transition_state. cbn.
    by destruct (Engine.state r.1), (Engine.link r.1).
  - destruct (Engine.isConnected _) eqn:Hi; injection Hh as <- <-; [|by apply Hstay].
    eapply sound_engine; [by apply Hstay|done|done| |done|done|done|done]. cbn. intros E. unfold Engine.isConnected in Hi. cbn in Hi. by rewrite E in Hi.
  - destruct (Engine.isConnected _) eqn:Hi; injection Hh as <- <-; [|by apply Hstay].
    unfold Engine.isConnected in Hi. cbn in Hi.
    eapply sound_engine; [by apply Hstay|..]; cbn [Engine.emit fst]; unfold Engine.isConnected;
      rewrite ?Engine.transition_state, ?Engine.transition_queue; cbn; try done; by destruct (Engine.state r.1).
  - injection Hh as <- <-. eapply sound_engine; [by apply Hstay|done..].
  - change (Engine.isConnected (Engine.setQueue (λ _, q) r).1) with (Engine.isConnected r.1) in Hh.
    destruct (Engine.isConnected r.1) eqn:Hi; injection Hh as <- <-; [|by apply Hstay]. by apply rews_turn; [apply Hstay|].
  - injection Hh as <- <-. apply disconnect_turn; [done..|]. rewrite Engine.transition_state. cbn. by destruct (Engine.state r.1).
Qed.
(** The loop runs to its next await. *)
Lemma pump_sound e r c :
  Engine.suspended r → sound Engine.PAwait r c → Engine.state r.1 ≠ Engine.SConnecting →
  let n := Engine.pumpTurn r in
  sound (Engine.pc n) (Engine.run_ n) (performAll e (drop (length r.2) (Engine.run_ n).2) c).
Proof.
  intros Hr H Hc. cbv zeta. unfold Engine.pumpTurn. destruct (Engine.queue r.1) as [|ev q] eqn:Hq; cbn [Engine.pc Engine.run_].
  - rewrite (says_performs _ r _ id); [|eapply (says_trans _ _ _ _ id id); [apply (says_transition e Engine.SeDrained)|by apply says_refl]].
    eapply sound_engine; [exact H|..]; unfold Engine.isConnected; cbn [fst snd Engine.setRunning Engine.state Engine.queue];
      rewrite ?Engine.transition_state, ?Engine.transition_queue; cbn; try (by destruct (Engine.state r.1)); done.
  - case_decide as Hun; [apply (Engine.sus_unloading _ Hr) in Hun; congruence|].
    assert (Hev : ev ≠ Engine.EvUnload).
    { intros ->. destruct (Engine.sus_coalesced _ Hr) as [_ Hn]. rewrite Hq in Hn. set_solver. }
    pose proof (handle_says e ev (Engine.setQueue (λ _, q) r) Hev) as Hs.
    destruct (Engine.handle ev _) as [r' b] eqn:Hh. cbn [Engine.pc Engine.run_ fst] in *.
    rewrite (says_performs _ r _ (turnOf e ev r)); [by eapply turn_sound|].
    eapply says_weaken; [|exact Hs]. done.
Qed.
Lemma recovery_frame e rec c :
  let c' := scheduleRecovery e rec c in
  unloading c' = unloading c ∧ wire c' = wire c ∧ mnt c' = mnt c ∧ progress c' = progress c ∧ api c' = api c ∧
  (unloading c = true ∧ c' = c ∨ c' = c ∧ armed (reconnectTimer (timers c)) ∨
   unloading c = false ∧ armed (reconnectTimer (timers c')) ∧ pollTimer (timers c') = None).
Proof.
  cbv zeta. unfold scheduleRecovery. case_bool_decide as Ha; cbn [orb]; [by split_and!; auto|].
  destruct (unloading c) eqn:Hu; [by split_and!; auto|].
  destruct rec; cbn; split_and!; try done; right; right; (split_and!; [done|by eexists|done]).
Qed.
Lemma fail_sound e site err m r c :
  sound m r c → (m = Engine.PEffect Engine.EvConnect → progress c ≠ Some true) → m ≠ Engine.PEffect Engine.EvRews →
  sound Engine.PAwait (Engine.failWith classify site err r) (scheduleRecovery e (recoveryFor (classify err)) c).
Proof.
  intros [Hu Hd Ho Hup Hw Hl Hc Hcn Hf] Hm1 Hm2. destruct (recovery_frame e (recoveryFor (classify err)) c) as (F1 & F2 & F3 & F4 & F5 & F6).
  set (c' := scheduleRecovery _ _ _) in *. clearbody c'.
  split; unfold comes, listens; rewrite ?Engine.failWith_state, ?Engine.failWith_queue.
  - rewrite F1, Hu. by case_decide.
  - intros H. case_decide as E; [|done]. rewrite E in Hd. apply Hu in E.
    destruct F6 as [[_ ->]|[[-> _]|[? _]]]; [by apply Hd..|congruence].
  - case_decide; done.
  - intros H. left. left. case_decide as E; [done|]. destruct F6 as [[Hun _]|[[-> ?]|(_ & ? & _)]]; [by apply Hu in Hun|done..].
  - apply (wired_same c); [done|by rewrite F2|by rewrite F2|by rewrite F2|by rewrite F3|by rewrite F5].
  - rewrite F2. intros HL. destruct (Hl HL) as [?|[? Hx]]; [by left|]. right. split; [done|]. left. left.
    destruct F6 as [[Hun _]|[[-> ?]|(_ & ? & _)]]; [|done..]. apply Hu in Hun. rewrite Hun in Hd.
    destruct (Hd eq_refl) as (_ & _ & _ & _ & _ & Hof & _). congruence.
  - intros HI. left. destruct F6 as [[Hun ->]|[[-> ?]|(_ & _ & Hp)]]; [| |congruence].
    + apply Hu in Hun. rewrite Hun in Hd. destruct (Hd eq_refl) as (_ & Hof & _). congruence.
    + destruct (Hc HI) as [?|[Hcon _]]; [done|]. destruct (Hcn Hcon) as [E _]. rewrite E in *. by destruct H.
  - done.
  - done.
Qed.
(** *** The plugin's steps *)
Record inv p : Prop := {
  i_wf : Engine.wf (engine p);
  i_sound : sound (Engine.pc (engine p)) (Engine.run_ (engine p)) (chan p);
}.
Lemma start_inv : inv start.
Proof.
  split; [apply Engine.wf_initial|]. split; try done. split; [intros i H; cbn in H; lia|done|]. intros k i. cbn. by rewrite lookup_empty.
Qed.
Lemma performs_nothing e r c : performAll e (drop (length r.2) r.2) c = c.
Proof. by rewrite drop_all. Qed.
Definition appended ev r : Run := Engine.setQueue (λ q, q ++ [ev]) r.
Lemma sound_appended m ev r c : sound m r c → sound m (appended ev r) c.
Proof.
  intros H. eapply sound_engine; [exact H|done|done|by destruct H|done| |done|by auto].
  cbn. set_solver.
Qed.
(** With a connect queued, its timer may go. *)
Lemma sound_timer_off m r c : sound m r c → Engine.EvConnect ∈ Engine.queue r.1 → sound m r (putReconnect None c).
Proof.
  intros [Hu Hd Ho Hup Hw Hl Hc Hcn Hf] Hin. split; try done.
  - intros H. by destruct (Hd H) as (? & ? & ? & ? & ? & ? & ?).
  - intros H. left. by right.
  - by apply (wired_same c).
  - intros H. destruct (Hl H) as [?|[? _]]; [by left|]. right. split; [done|]. left. by right.
  - intros H. by destruct (Hcn H).
Qed.
Lemma sound_unloading m r r' c :
  sound m r c → Engine.state r.1 = Engine.SUnloading → Engine.state r'.1 = Engine.SUnloading → sound m r' c.
Proof.
  intros [Hu Hd Ho Hup Hw Hl Hc Hcn Hf] E E'. rewrite E in Hd. destruct (Hd eq_refl) as (? & ? & ? & ? & ? & Ht & ?).
  split; rewrite ?E'; try done; first [by rewrite Hu, E|congruence].
Qed.
Lemma growPath_keeps path size l : Engine.EvConnect ∈ l → Engine.EvConnect ∈ Engine.growPath path size l.
Proof.
  induction l as [|x l IH]; [done|]. rewrite elem_of_cons. destruct x as [| |p s| | | |]; cbn; try (destruct (p === path));
    rewrite elem_of_cons; intros [?|?]; simplify_eq; auto.
Qed.
Lemma push_keeps ev q q' : Engine.push ev q = Some q' → Engine.EvConnect ∈ q ++ [ev] → Engine.EvConnect ∈ q'.
Proof.
  unfold Engine.push, Engine.dup. intros Hp Hin. apply elem_of_app in Hin.
  destruct ev; repeat case_match; simplify_eq; try (destruct Hin as [Hin|Hin%list_elem_of_singleton]; [auto using growPath_keeps|done]).
  destruct Hin as [?|_]; [done|]. by apply bool_decide_eq_true in H.
Qed.
Lemma ask_inv e ev p :
  Engine.wf (engine p) → sound (Engine.pc (engine p)) (appended ev (Engine.run_ (engine p))) (chan p) → ev ≠ Engine.EvUnload → inv (ask e ev p).
Proof.
  intros Hwf H Hev. split; [by apply Engine.enqueue_wf|]. cbn [engine chan ask onEngine]. unfold Engine.enqueue.
  case_decide as Hs. { rewrite performs_nothing. by eapply sound_unloading. }
  rewrite decide_False by done. destruct (Engine.push ev _) as [q|] eqn:Hp.
  - cbn [Engine.run_ Engine.pc Engine.setQueue snd]. rewrite performs_nothing.
    eapply sound_engine; [exact H|done|done|by destruct H|done| |done|by auto]. cbn. by apply push_keeps.
  - unfold Engine.pump. cbn [Engine.run_ Engine.pc].
    change (Engine.running (Engine.setQueue ?f ?x).1) with (Engine.running x.1). rewrite (Engine.wf_running _ Hwf).
    case_bool_decide as Hpc; cbn [negb].
    + pose proof (Engine.push_None_coalesced _ _ Hp Hev (Engine.wf_coalesced _ Hwf)) as Hc.
      apply (pump_sound e (Engine.setRunning true (appended ev (Engine.run_ (engine p))))); [by split|..].
      * rewrite Hpc in H. by eapply sound_engine.
      * cbn. intros E. apply (Engine.wf_connecting _ Hwf) in E. congruence.
    + cbn [Engine.run_ Engine.pc Engine.setQueue snd]. by rewrite performs_nothing.
Qed.
Lemma ask_keeps e ev p : inv p → ev ≠ Engine.EvUnload → inv (ask e ev p).
Proof. intros [Hwf H] Hev. apply ask_inv; [done|by apply sound_appended|done]. Qed.
Lemma asks_keep e l p : inv p → Engine.EvUnload ∉ l → inv (foldl (λ p ev, ask e ev p) p l).
Proof. revert p. induction l as [|ev l IH]; intros p H Hl; cbn; [done|]. apply IH; [apply ask_keeps|]; set_solver. Qed.
(** A fired timer asks for the connect it stood for. *)
Lemma fires_inv e p : inv p → inv (ask e Engine.EvConnect (onChan (putReconnect None) p)).
Proof.
  intros [Hwf H]. apply ask_inv; [done| |done]. cbn. apply sound_timer_off; [by apply sound_appended|]. cbn. set_solver.
Qed.
Lemma unloaded_quiet m r c : quiet c → unloading c = true → wired c → Engine.state r.1 = Engine.SUnloading → sound m r (putPoke false c).
Proof.
  intros (Q1 & Q2 & Q3 & Q4 & Q5 & Q6 & Q7) Hun Hw Hs. split; rewrite ?Hs; cbn; rewrite ?Q1, ?Q2, ?Q6, ?Hun; try done. by apply (wired_same c).
Qed.
Lemma unloaded_sound m r r' c :
  sound m r c → Engine.state r'.1 = Engine.SUnloading → sound m r' (putPoke false (doTeardown (putUnloading c))).
Proof.
  intros H Hs. apply unloaded_quiet; [apply teardown_quiet|apply (teardown_unloading (putUnloading c))| |done].
  apply wired_teardown. apply (wired_same c); [apply H|done..].
Qed.
Lemma unloaded_again m r c : sound m r c → Engine.state r.1 = Engine.SUnloading → sound m r (putPoke false (putUnloading c)).
Proof.
  intros [Hu Hd Ho Hup Hw Hl Hc Hcn Hf] Hs. apply Hu in Hs as Hs'. rewrite Hs in Hd.
  destruct (Hd eq_refl) as (? & ? & ? & ? & ? & ? & ?). split; try done. by apply (wired_same c).
Qed.
Lemma unload_inv e p : inv p → inv (onunload e p).
Proof.
  intros [Hwf H]. split; [by apply Engine.enqueue_wf|]. cbn [engine chan onunload ask onEngine onChan].
  destruct (Engine.EngineState_eq_dec (Engine.state (Engine.run_ (engine p)).1) Engine.SUnloading) as [Hs|Hs].
  - unfold Engine.enqueue. rewrite decide_True by done. rewrite performs_nothing. by apply unloaded_again.
  - rewrite Engine.enqueue_unload by done. cbn [Engine.run_ Engine.pc]. rewrite (says_performs _ _ _ doTeardown) by apply unload_says.
    eapply unloaded_sound; [done|]. apply Engine.unloadNow_state.
Qed.
Lemma works_sound e m r c :
  sound m r c → sound m (Engine.beginReconcile r) (performAll e (drop (length r.2) (Engine.beginReconcile r).2) c).
Proof.
  intros H. rewrite (says_performs _ _ _ id) by apply says_transition. unfold Engine.beginReconcile, id.
  pose proof (s_off _ _ _ H) as Ho.
  eapply sound_engine; [exact H|..]; unfold Engine.isConnected; rewrite ?Engine.transition_state, ?Engine.transition_queue; cbn;
    try (by destruct (Engine.state r.1)); try done; auto.
Qed.
(** The connect has finished: the poll runs. *)
Lemma connected_sound e r c :
  sound (Engine.PEffect Engine.EvConnect) r c → progress c = Some true →
  let r1 := Engine.setLink (linkNext (Engine.link r.1) Connected) r in
  let n := Engine.transition (Engine.SeConnected (negb (bool_decide (Engine.queue r1.1 = [])))) r1 in
  sound Engine.PAwait n (performAll e (drop (length r.2) n.2) c).
Proof.
  intros [Hu Hd Ho Hup Hw Hl Hc Hcn Hf] Hp r1 n. subst r1. rewrite (says_performs _ _ _ id).
  2: { subst n. eapply (says_weaken _ _ (Engine.setLink _ r)); [done|apply says_transition]. }
  assert (Hs : Engine.state r.1 = Engine.SUnloading ∧ Engine.state n.1 = Engine.SUnloading ∨
    Engine.state r.1 ≠ Engine.SUnloading ∧ Engine.isConnected n.1 = true).
  { subst n. unfold Engine.isConnected. rewrite Engine.transition_state. cbn. destruct (Engine.state r.1), (bool_decide _); auto. }
  assert (Hq : Engine.queue n.1 = Engine.queue r.1) by (subst n; by rewrite Engine.transition_queue). clearbody n. unfold id.
  destruct (Hcn eq_refl) as [Hr Hpoll].
  assert (Hconn : Engine.isConnected n.1 = true → Engine.state n.1 ≠ Engine.SUnloading ∧ down (Engine.state n.1) = false ∧ Engine.state n.1 ≠ Engine.SOff).
  { unfold Engine.isConnected. by destruct (Engine.state n.1). }
  split.
  - destruct Hs as [[? ?]|[? Hi]]; [by rewrite Hu|]. rewrite Hu. split; [done|]. by destruct (Hconn Hi).
  - intros E. destruct Hs as [[Hs _]|[_ Hi]]; [apply Hd; by rewrite Hs|]. destruct (Hconn Hi) as (_ & ? & _). congruence.
  - done.
  - intros E. right. left. destruct Hs as [[_ Hs]|[Hs Hi]]; [by rewrite Hs in E|]. split; [done|]. apply Hpoll; [done|].
    apply not_true_iff_false. by rewrite Hu.
  - done.
  - intros E. destruct (Hl E) as [?|[? Hx]]; [by left|]. right. split; [done|]. left. destruct Hx as [[?|?]|[? _]]; [by left|right; by rewrite Hq|done].
  - intros E. left. by destruct (Hc E) as [?|[_ ?]].
  - done.
  - done.
Qed.
(** The re-dial made no socket: a connect follows. *)
Lemma rews_failed_sound e err q c :
  let m := Engine.PEffect Engine.EvRews in
  Engine.wf {| Engine.run_ := q; Engine.pc := m |} → sound m q c →
  let n := Engine.run_ (Engine.enqueue Engine.EvConnect {| Engine.run_ := Engine.emit (Engine.OError "rews" err) q; Engine.pc := m |}) in
  sound Engine.PAwait n (performAll e (drop (length q.2) n.2) c).
Proof.
  intros m Hwf H n.
  assert (Hn : n = Engine.emit (Engine.OError "rews" err) q ∧ Engine.state q.1 = Engine.SUnloading ∨
    ∃ l, n = Engine.setQueue (λ _, l) (Engine.emit (Engine.OError "rews" err) q) ∧ Engine.EvConnect ∈ l).
  { subst n. unfold Engine.enqueue. case_decide; [by left|]. right. rewrite decide_False by done. cbn [Engine.run_ Engine.emit fst].
    destruct (Engine.push Engine.EvConnect (Engine.queue q.1)) as [l|] eqn:Hp.
    - exists l. split; [done|]. apply (push_keeps _ _ _ Hp). set_solver.
    - exists (Engine.queue q.1 ++ [Engine.EvConnect]). split; [|set_solver]. unfold Engine.pump. cbn [Engine.run_ Engine.pc].
      change (Engine.running (Engine.setQueue ?f ?x).1) with (Engine.running x.1). cbn [Engine.emit fst].
      pose proof (Engine.wf_running _ Hwf) as Hr. cbn in Hr. by rewrite Hr. }
  clearbody n. destruct Hn as [[-> Hs]|(l & -> & Hin)].
  - rewrite (says_performs _ _ _ id) by apply (says_emit e (Engine.OError "rews" err)). unfold id.
    destruct H as [Hu Hd Ho Hup Hw Hl Hc Hcn Hf]. rewrite Hs in Hd. destruct (Hd eq_refl) as (? & ? & ? & ? & ? & ? & ?).
    split; cbn [Engine.emit fst]; rewrite ?Hs; try done; first [by rewrite Hu, Hs|congruence].
  - rewrite (says_performs _ _ _ id) by (eapply (says_trans _ _ _ _ id id); [apply (says_emit e (Engine.OError "rews" err))|by apply says_refl]).
    unfold id. destruct H as [Hu Hd Ho Hup Hw Hl Hc Hcn Hf]. split; cbn [Engine.emit Engine.setQueue fst Engine.state] in *; try done.
    + intros _. left. by right.
    + intros E. destruct (Hl E) as [?|[? _]]; [by left|]. right. split; [done|]. left. by right.
    + intros E. left. by destruct (Hc E) as [?|[? _]].
Qed.
(** An effect that decides nothing about the connection. *)
Lemma settled_sound m r c : sound m r c → ¬ connecting m → m ≠ Engine.PEffect Engine.EvRews ∨ progress c ≠ Some false → sound Engine.PAwait r c.
Proof.
  intros H Hm Hp. eapply sound_engine; [exact H|done..| |].
  - unfold connecting in *. naive_solver.
  - intros E. destruct Hp; [done|by right].
Qed.
Lemma settles_inv e o p : inv p → settlesWith o p = true → inv (onEngine e (λ k, Engine.act classify k (Engine.Done o)) p).
Proof.
  intros [Hwf H] Hs. split; [by apply Engine.act_wf|]. cbn [engine chan onEngine Engine.act]. unfold settlesWith in Hs.
  destruct p as [[r m] c]. cbn [engine chan Engine.run_ Engine.pc] in *.
  destruct m as [|ev|]; try done.
  destruct ev, o as [err|]; cbn [Engine.settle Engine.run_ Engine.pc] in *;
    rewrite ?andb_true_r, ?andb_false_r, ?orb_false_r, ?orb_false_l in Hs;
    try (rewrite bool_decide_eq_true in Hs); try (rewrite negb_true_iff, bool_decide_eq_false in Hs).
  all: try (rewrite (says_performs _ _ _ (scheduleRecovery e (recoveryFor (classify err)))) by apply fail_says; by eapply fail_sound).
  all: try (rewrite performs_nothing; eapply settled_sound; [exact H|done|first [by left|right; congruence]]).
  - by apply connected_sound.
  - rewrite (says_performs _ _ _ id) by apply (says_emit e (Engine.OError "task" err)).
    apply (settled_sound (Engine.PEffect (Engine.EvTask run))); [by eapply sound_engine|done|by left].
  - by apply rews_failed_sound.
Qed.
Lemma resumes_inv e p : inv p → inv (onEngine e (λ k, Engine.act classify k Engine.Tick) p).
Proof.
  intros [Hwf H]. split; [by apply Engine.act_wf|]. cbn [engine chan onEngine Engine.act].
  destruct (Engine.pc (engine p)) eqn:Hpc; try (rewrite performs_nothing, Hpc; exact H).
  apply pump_sound; [apply Engine.wf_suspended; [done|congruence]|done|].
  intros E. apply (Engine.wf_connecting _ Hwf) in E. congruence.
Qed.
Lemma begins_inv e p : inv p → inv (onEngine e (λ k, Engine.act classify k Engine.Begin) p).
Proof.
  intros [Hwf H]. split; [by apply Engine.act_wf|]. cbn [engine chan onEngine Engine.act].
  destruct (Engine.pc (engine p)) eqn:Hpc; try (rewrite performs_nothing, Hpc; exact H). cbn [Engine.run_ Engine.pc]. by apply works_sound.
Qed.
(** *** The socket in use *)
Lemma applyTransport_asks ev from c : Engine.EvUnload ∉ (applyTransport ev from c).2.
Proof.
  unfold applyTransport. destruct (transportTransition _ _) as [s [pl rd rc]]. cbn. destruct rd as [[]|], rc; set_solver.
Qed.
Lemma in_use m r c i : sound m r c → ws (wire c) = Some i → down (Engine.state r.1) = false ∧ unloading c = false.
Proof.
  intros H Hi. assert (Hd : down (Engine.state r.1) = false).
  { apply not_true_iff_false. intros E. destruct (s_down _ _ _ H E) as (_ & _ & _ & _ & ? & _). congruence. }
  split; [done|]. apply not_true_iff_false. intros Hu. apply H in Hu. by rewrite Hu in Hd.
Qed.
(** The socket in use reports, the activity and what is closed may have moved. *)
Lemma applied_sound m r c c0 ev i :
  sound m r c → ws (wire c) = Some i → wired c0 →
  ws (wire c0) = ws (wire c) → transport (wire c0) = transport (wire c) → timers c0 = timers c → unloading c0 = unloading c → progress c0 = progress c →
  match ev with Opened => i ∉ closed (wire c0) | StaleTick => transport (wire c) = Live | Errored | Closed => True | _ => False end →
  sound m r (applyTransport ev (Some i) c0).1.
Proof.
  intros H Hi Hw E1 E2 E3 E4 E5 Hev. destruct (in_use _ _ _ _ H Hi) as [Hd Hu].
  pose proof (wired_apply ev (Some i) c0 Hw) as Hw'. destruct (applyTransport_frame ev (Some i) c0) as (F1 & F2 & F3 & F4 & F5 & F6 & F7 & F8 & F9 & F10 & F11).
  set (c' := (applyTransport ev (Some i) c0).1) in *. clearbody c'. rewrite transportTransition_rules in *. rewrite E2 in *.
  destruct H as [Hun Hdn Ho Hup _ Hl Hc Hcn Hf]. rewrite E4, Hu in *. rewrite E3 in *. rewrite E5 in *.
  assert (Hp : pollTimer (timers c') = Some (match ev with Opened => POLL_IDLE_MS | _ => POLL_ACTIVE_MS end) ∧
               (transport (wire c') = Live ↔ ev = Opened)).
  { rewrite F10, F11. destruct ev; try done; destruct (transport (wire c)); done. }
  clear F10 F11. destruct Hp as [Hp Ht]. split.
  - by rewrite F6.
  - by rewrite Hd.
  - done.
  - intros _. destruct (Hup Hd) as [[?|?]|[[? ?]|?]]; [left; left; by rewrite F8|left; by right|right; left|by right; right].
    split; [done|]. rewrite Hp. by eexists.
  - done.
  - intros ->%Ht. left. exists i. by rewrite F1, E1, F3.
  - rewrite Hp. intros E. left. apply Ht. by destruct ev.
  - intros Hm. destruct (Hcn Hm) as [? _]. rewrite F8, Hp. split; [done|]. intros _ _. by eexists.
  - rewrite F7. intros Hm Hp'. destruct (Hf Hm Hp') as [? _]. congruence.
Qed.
Lemma shut_sound m r c i : sound m r c → (ws (wire c) = Some i → transport (wire c) = Live → False) → sound m r (shut {[i]} c).
Proof.
  intros [Hu Hd Ho Hup Hw Hl Hc Hcn Hf] Hn. split; try done.
  - apply (wired_same c); [done|done|done|cbn; set_solver|done|done].
  - cbn. intros E. destruct (Hl E) as [(j & Hj & Hcl)|?]; [|by right]. left. exists j. split; [done|].
    apply not_elem_of_union. split; [done|]. intros ->%elem_of_singleton. by apply Hn.
Qed.
Lemma both_inv e f p :
  inv p → sound (Engine.pc (engine p)) (Engine.run_ (engine p)) (f (chan p)).1 → Engine.EvUnload ∉ (f (chan p)).2 → inv (both e f p).
Proof. intros [Hwf _] Hs Hn. unfold both. destruct (f (chan p)) as [c l]. apply asks_keep; [by split|done]. Qed.
Lemma onChan_inv f p : inv p → sound (Engine.pc (engine p)) (Engine.run_ (engine p)) (f (chan p)) → inv (onChan f p).
Proof. intros [Hwf _] Hs. by split. Qed.
Lemma superseded_false i c : superseded i c = false → unloading c = false ∧ api c = true ∧ ws (wire c) = Some i.
Proof.
  unfold superseded. intros [[? Ha]%orb_false_iff Hw]%orb_false_iff. apply negb_false_iff in Ha. apply negb_false_iff, bool_decide_eq_true in Hw. done.
Qed.
Lemma opens_inv e i p : inv p → inv (opens e i p).
Proof.
  intros H. unfold opens. case_bool_decide as Hcl; [done|]. destruct (sockets _ !! i) as [[]|] eqn:Hi; try done. pose proof H as [Hwf Hs].
  apply both_inv; [done|..]; unfold heard; destruct (superseded i (chan p)) eqn:E; try (set_solver || done).
  apply superseded_false in E as (_ & _ & Hw). eapply (applied_sound _ _ (chan p)); [done|done| |done..]. apply (wired_same (chan p)); [apply Hs|done..].
Qed.
Lemma fails_inv e ev i p : ev = Errored ∨ ev = Closed → inv p → inv (fails e ev i p).
Proof.
  intros Hev H. pose proof H as [Hwf Hs]. unfold fails. cbn [onChan chan engine].
  change (sockets (wire (shut {[i]} (chan p)))) with (sockets (wire (chan p))).
  assert (Hw' : wired (shut {[i]} (chan p))) by (apply (wired_same (chan p)); [apply Hs|done|done|cbn; set_solver|done|done]).
  destruct (sockets (wire (chan p)) !! i) as [[key|]|] eqn:Hi.
  - assert (Hn : ws (wire (chan p)) ≠ Some i) by (intros E; destruct (w_ws _ (s_wired _ _ _ Hs) _ E); congruence).
    assert (Hsh : sound (Engine.pc (engine p)) (Engine.run_ (engine p)) (shut {[i]} (chan p))) by (apply shut_sound; [done|by intros]).
    apply onChan_inv; [by split|]. cbn [engine chan]. unfold drop_. case_bool_decide as Hk; [|done].
    destruct Hsh as [Hu Hd Ho Hup Hw Hl Hc Hcn Hf]. split; try done.
    + intros E. destruct (Hd E) as (? & ? & ? & ? & ? & ? & Hm). unfold quiet in *. cbn in *. rewrite Hm in *. split_and!; done.
    + destruct Hw' as [Ht Hw1 Hm]. split; [|done|].
      * intros j Hj. destruct (Ht j Hj) as [?|[?|[k Hkj]]]; [auto|auto|]. cbn in *. destruct (decide (k = key)) as [->|Hne].
        -- left. rewrite Hk in Hkj. injection Hkj as ->. set_solver.
        -- right. right. exists k. by rewrite lookup_delete_ne.
      * intros k j. cbn. intros [? ?]%lookup_delete_Some. by apply Hm.
  - destruct (superseded i (shut {[i]} (chan p))) eqn:E.
    + assert (Hsh : sound (Engine.pc (engine p)) (Engine.run_ (engine p)) (shut {[i]} (chan p))).
      { apply shut_sound; [done|]. intros Hw HL. unfold superseded in E. cbn in E. destruct (in_use _ _ _ _ Hs Hw) as [_ Hu].
        destruct (w_ws _ (s_wired _ _ _ Hs) _ Hw) as [_ Ha]. rewrite Hu, Ha, bool_decide_eq_true_2 in E by done. done. }
      apply both_inv; unfold heard; cbn [onChan engine chan]; rewrite ?E; [by split|done|set_solver].
    + apply superseded_false in E as E'. destruct E' as (_ & _ & Hw). cbn in Hw.
      unfold both, heard. cbn [chan onChan]. rewrite E.
      pose proof (applyTransport_asks ev (Some i) (match ev with Opened => putActivity (now e) (shut {[i]} (chan p)) | _ => shut {[i]} (chan p) end)) as Ha.
      assert (Hsnd : sound (Engine.pc (engine p)) (Engine.run_ (engine p)) (applyTransport ev (Some i) (shut {[i]} (chan p))).1).
      { eapply (applied_sound _ _ (chan p)); [done..|]. by destruct Hev as [-> | ->]. }
      destruct Hev as [-> | ->]; destruct (applyTransport _ _ _) as [c l]; (apply asks_keep; [by split|done]).
  - apply onChan_inv; [done|]. apply shut_sound; [done|]. intros E _. destruct (w_ws _ (s_wired _ _ _ Hs) _ E). congruence.
Qed.
(** What neither the timers of the connection nor the socket in use see. *)
Lemma aside_sound m r c c' :
  sound m r c → unloading c' = unloading c → progress c' = progress c →
  reconnectTimer (timers c') = reconnectTimer (timers c) → pollTimer (timers c') = pollTimer (timers c) →
  ws (wire c') = ws (wire c) → transport (wire c') = transport (wire c) →
  (∀ i, ws (wire c) = Some i → i ∉ closed (wire c) → i ∉ closed (wire c')) →
  wired c' → (down (Engine.state r.1) = true → quiet c → quiet c') → sound m r c'.
Proof.
  intros [Hu Hd Ho Hup Hw Hl Hc Hcn Hf] E1 E2 E3 E4 E5 E6 E7 Hw' Hq. split; unfold comes, listens; rewrite ?E1, ?E2, ?E3, ?E4, ?E5, ?E6; try done.
  - auto.
  - intros E. destruct (Hl E) as [(i & Hi & Hn)|?]; [left; exists i; auto|by right].
Qed.
Lemma live_inv e p : inv p → inv (both e (livenessTick e) p).
Proof.
  intros H. pose proof H as [Hwf Hs]. apply both_inv; [done|..]; unfold livenessTick; destruct (wsLivenessTimer (timers (chan p))) as [i|];
    try (set_solver || done).
  - destruct (unloading (chan p)); [done|]. case_bool_decide as Hw; [|done]. case_bool_decide as Ht; [|done]. cbn [orb negb].
    destruct (Light.isWsStale _ _ _); [|done]. eapply (applied_sound _ _ (chan p)); [done|done| |done..].
    apply (wired_same (chan p)); [apply Hs|done..].
  - destruct (_ || _); [set_solver|]. destruct (Light.isWsStale _ _ _); [apply applyTransport_asks|set_solver].
Qed.
Lemma redial_inv e i p : inv p → inv (both e (redialFires i) p).
Proof.
  intros H. pose proof H as [Hwf Hs]. apply both_inv; [done|..]; unfold redialFires; case_bool_decide; try (set_solver || done); cbn [fst snd].
  - eapply aside_sound; [exact Hs|done..|by auto| |done].
    apply (wired_same (chan p)); [apply Hs|done..].
  - destruct (superseded _ _); set_solver.
Qed.
Lemma quiet_no_sockets m r c : sound m r c → down (Engine.state r.1) = true → ∀ i, i < length (sockets (wire c)) → i ∈ closed (wire c).
Proof.
  intros H Hd i Hi. destruct (s_down _ _ _ H Hd) as (_ & _ & _ & _ & Hw & _ & Hm).
  destruct (w_tidy _ (s_wired _ _ _ H) i Hi) as [?|[?|[k ?]]]; [done|congruence|]. rewrite Hm in *. done.
Qed.
Lemma activity_inv e p : inv p → inv (onChan (putActivity (now e)) p).
Proof.
  intros H. pose proof H as [Hwf Hs]. apply onChan_inv; [done|]. eapply aside_sound; [exact Hs|done..|by auto| |done].
  apply (wired_same (chan p)); [apply Hs|done..].
Qed.
Lemma message_inv e i b p : inv p → inv (message e i b p).
Proof.
  intros H. pose proof H as [Hwf Hs]. unfold message. case_bool_decide as Hcl; [done|].
  destruct (sockets (wire (chan p)) !! i) as [[key|]|] eqn:Hi; [|by destruct b; apply activity_inv; [apply ask_keeps|]|done].
  destruct b; [|done]. apply onChan_inv; [done|]. unfold pokeMounts. destruct (_ || _) eqn:E; [done|].
  eapply aside_sound; [exact Hs|done..|by auto| |].
  - apply (wired_same (chan p)); [apply Hs|done..].
  - intros Hd. destruct Hcl. eapply quiet_no_sockets; [done..|]. by eapply lookup_lt_Some.
Qed.
(** A step of the mounts that makes no socket. *)
Lemma mounts_sound m r c c' :
  sound m r c → unloading c' = unloading c → progress c' = progress c → timers c' = timers c → ws (wire c') = ws (wire c) →
  transport (wire c') = transport (wire c) → wired c' → (∀ i, i ∈ closed (wire c') → i ∈ closed (wire c) ∨ ∃ k, mountSockets (mnt c) !! k = Some i) →
  (mountPokeTimer (mnt c) = false → mountPokeTimer (mnt c') = false) → (mountSockets (mnt c) = ∅ → mountSockets (mnt c') = ∅) →
  sound m r c'.
Proof.
  intros H E1 E2 E3 E4 E5 Hw Hcl Hp Hm. eapply aside_sound; [exact H|done|done|by rewrite E3|by rewrite E3|done|done| |done|].
  - intros i Hi Hn Hin. destruct (Hcl i Hin) as [?|[k Hk]]; [done|]. apply (w_ws _ (s_wired _ _ _ H)) in Hi as [Hi _].
    apply (w_mnt _ (s_wired _ _ _ H)) in Hk. congruence.
  - intros _ (? & ? & ? & ? & ? & ? & ?). unfold quiet. rewrite E3, E4, E5. split_and!; auto.
Qed.
Lemma closeMounts_sound m r c : sound m r c → sound m r (closeMountSockets c).
Proof.
  intros H. eapply mounts_sound; [exact H|done..|apply wired_closeMounts, H| |done|done].
  cbn. intros i [?|(k & Hk)%elem_of_map_img]%elem_of_union; [by left|right; by exists k].
Qed.
(** Fields that the invariant does not read. *)
Lemma pass_sound m r c f :
  (∀ x, mountSockets (f x) = mountSockets x) → (∀ x, mountPokeTimer (f x) = mountPokeTimer x) → sound m r c → sound m r (onMnt f c).
Proof.
  intros Hs Hp H. eapply mounts_sound; [exact H|done..| | | |]; cbn.
  - apply (wired_same c); [apply H|done|done|done|cbn; by rewrite Hs|done].
  - by left.
  - by rewrite Hp.
  - by rewrite Hs.
Qed.
Lemma reconcileMounts_sound m r c : sound m r c → sound m r (reconcileMounts c).
Proof. intros H. unfold reconcileMounts. destruct (mountReconciling _); by apply pass_sound. Qed.
Lemma passReleased_sound m r c : sound m r c → sound m r (passReleased c).
Proof.
  intros H. unfold passReleased. destruct (_ && _); [apply reconcileMounts_sound|]; by apply pass_sound.
Qed.
Lemma passBegins_sound m r c n b : sound m r c → sound m r (passBegins n b c).
Proof.
  intros H. unfold passBegins. destruct (waiting _); [|done]. destruct n.
  - apply passReleased_sound. destruct (_ || _); [by apply closeMounts_sound|done].
  - apply pass_sound; [done..|]. apply pass_sound; [done..|]. unfold rebuildMountScopes. destruct (_ === _); [done|].
    apply pass_sound; [done..|]. by apply closeMounts_sound.
Qed.
Lemma pokeFires_sound m r c : sound m r c → sound m r (pokeFires c).
Proof.
  intros H. unfold pokeFires. destruct (mountPokeTimer _); [|done].
  assert (Hp : sound m r (putPoke false c)).
  { eapply mounts_sound; [exact H|done..| |by left|done|done]. apply (wired_same c); [apply H|done..]. }
  destruct (unloading _); [done|]. by apply reconcileMounts_sound.
Qed.
Lemma finish_sound e r c :
  let m := Engine.PEffect Engine.EvConnect in
  sound m r c → progress c = None → sound m r (finishConnect e c).
Proof.
  intros m H Hp. destruct (s_fresh _ _ _ H eq_refl Hp) as [Hws Htr].
  unfold finishConnect.
  pose proof (spin_frame e c) as F. pose proof (wired_spin e c (s_wired _ _ _ H)) as Hw.
  destruct (unloading c) eqn:Hun.
  - clear F Hw. assert (spinUpWs e c = (false, c)) as -> by (unfold spinUpWs; by rewrite Hun). cbn [snd]. unfold startPolling. rewrite Hun.
    destruct H as [Hu Hd Ho Hup Hw Hl Hc Hcn Hf]. pose proof (proj1 Hu Hun) as E. rewrite E in Hd. destruct (Hd eq_refl) as (? & ? & ? & ? & ? & ? & ?).
    split; rewrite ?E; cbn; try done; try congruence.
    + by apply (wired_same c).
    + intros _. split; [done|congruence].
  - destruct F as (F1 & F2 & F3 & F4 & F5 & F6). set (c1 := (spinUpWs e c).2) in *. clearbody c1.
    destruct H as [Hu Hd Ho Hup _ Hl Hc Hcn Hf]. unfold startPolling. rewrite F1.
    assert (Hdn : down (Engine.state r.1) = false).
    { destruct (Engine.state r.1) eqn:E; try done; [by specialize (Ho eq_refl)|]. by rewrite (proj2 Hu) in Hun. }
    assert (HnL : transport (wire c1) ≠ Live).
    { destruct F6 as [[-> _]|[(_ & _ & -> & _)|(_ & _ & -> & _)]]; congruence. }
    split; cbn; try done; try congruence.
    + intros _. right. by right.
    + by apply (wired_same c1).
    + intros _. rewrite F4. split; [by apply Hcn|]. intros _ _. by eexists.
Qed.
Lemma subscribe_sound m r opens want x c : sound m r c → down (Engine.state r.1) = false → sound m r (subscribe opens want x c).
Proof.
  intros H Hd. unfold subscribe. set (key := Mountengine.mountKey x). clearbody key. destruct (_ || _) eqn:E; [done|]. destruct (opens key); [|done].
  apply orb_false_iff in E as [_ E]. apply bool_decide_eq_false, eq_None_not_Some in E.
  eapply aside_sound; [exact H|done..|by auto| |congruence]. destruct (s_wired _ _ _ H) as [Ht Hw Hm]. split; cbn.
  - intros i. cbn. rewrite length_app. cbn. intros Hi. destruct (decide (i = length (sockets (wire c)))) as [->|].
    + right. right. exists key. apply lookup_insert_eq.
    + destruct (Ht i) as [?|[?|[k Hk]]]; [lia|by left|by right; left|]. right. right. exists k. rewrite lookup_insert_ne; [done|congruence].
  - intros i Hi. destruct (Hw i Hi). split; [by apply lookup_app_l_Some|done].
  - intros k i. rewrite lookup_insert_Some. intros [[<- <-]|[_ Hk]]; [by rewrite lookup_app_r, Nat.sub_diag|]. apply lookup_app_l_Some. by apply Hm.
Qed.
Lemma subscribes_sound m r opens want l c :
  sound m r c → down (Engine.state r.1) = false → sound m r (foldl (λ c x, subscribe opens want x c) c l).
Proof. revert c. induction l as [|x l IH]; intros c H Hd; cbn; [done|]. apply IH; [by apply subscribe_sound|done]. Qed.
Lemma recycle_sound m r e c : sound m r c → sound m r (recycle e c).
Proof.
  intros H. unfold recycle. assert (Hr : sound m r (putRecycle (now e) c)) by (by apply pass_sound).
  destruct (_ =? _)%Z; [done|]. destruct (_ <=? _)%Z; [|done].
  eapply mounts_sound; [exact Hr|done..| | |done|done].
  - apply (wired_same (closeMountSockets (putRecycle (now e) c))); [apply wired_closeMounts, Hr|done..].
  - cbn. intros i [?|(k & Hk)%elem_of_map_img]%elem_of_union; [by left|right; by exists k].
Qed.
Lemma subs_sound m r e scopes active opens c :
  sound m r c → sound m r (syncMountSubscriptions e (Engine.state r.1) scopes active opens c).
Proof.
  intros H. unfold syncMountSubscriptions. set (want := filter _ (list_to_set _) : gset jstr). clearbody want. set (go := filter (λ kv, kv.1 ∉ want) (mountSockets (mnt c))).
  set (stay := filter (λ kv, kv.1 ∈ want) (mountSockets (mnt c))).
  assert (H1 : sound m r (putSockets stay (shut (map_img go) c))).
  { eapply mounts_sound; [exact H|done..| | |done|].
    - apply wired_mounts; [apply H|apply map_filter_subseteq|]. intros k i Hk. destruct (decide (k ∈ want)); [left|right]; by apply map_lookup_filter_Some.
    - cbn. intros i [?|(k & Hk)%elem_of_map_img]%elem_of_union; [by left|right]. exists k. by apply map_lookup_filter_Some in Hk as [? _].
    - cbn. intros E. subst stay. by rewrite E, map_filter_empty. }
  destruct (_ || _) eqn:E; [done|]. apply orb_false_iff in E as [_ E%negb_false_iff].
  apply subscribes_sound; [by apply recycle_sound|]. by destruct (Engine.state r.1).
Qed.
Lemma plugin_step_inv p ea : inv p → inv (step p ea).
Proof.
  intros H. pose proof H as [Hwf Hs]. destruct ea as [e []]; cbn [step].
  - destruct ev; first [done|by apply ask_keeps].
  - by apply unload_inv.
  - unfold onResume. destruct (unloading _); [done|]. destruct (resumeAction _); [by apply fires_inv|by apply ask_keeps].
  - destruct (_ && _) eqn:E; [|done]. apply onChan_inv; [done|].
    eapply aside_sound; [exact Hs|done..|by auto| |done]. apply (wired_same (chan p)); [apply Hs|done..].
  - destruct (_ && _) eqn:E; [|done]. apply andb_true_iff in E as [[E Hp%bool_decide_eq_true]%andb_true_iff _]. apply onChan_inv; [done|].
    unfold inConnect in E. destruct (Engine.pc (engine p)) as [|[]|]; try done. by apply finish_sound.
  - by apply begins_inv.
  - destruct (settlesWith _ _) eqn:E; [by apply settles_inv|done].
  - by apply resumes_inv.
  - by apply opens_inv.
  - apply fails_inv; auto.
  - apply fails_inv; auto.
  - by apply message_inv.
  - unfold pollFires. destruct (pollTimer _); [by apply ask_keeps|done].
  - unfold reconnectFires. destruct (reconnectTimer _); [by apply fires_inv|done].
  - by apply live_inv.
  - by apply redial_inv.
  - apply onChan_inv; [done|]. by apply pokeFires_sound.
  - apply onChan_inv; [done|]. by apply reconcileMounts_sound.
  - apply onChan_inv; [done|]. by apply passBegins_sound.
  - destruct (_ && _); [|done]. destruct subs as [[[scopes active] f]|].
    + assert (H2 : inv (onChan (syncMountSubscriptions e (estate p) scopes active f) p)) by (apply onChan_inv; [done|]; by apply subs_sound).
      apply onChan_inv; [done|]. by apply passReleased_sound, H2.
    + apply onChan_inv; [done|]. by apply passReleased_sound.
Qed.
Lemma plugin_steps_inv l p : inv p → inv (steps p l).
Proof. revert p. induction l as [|x l IH]; intros p H; cbn; [done|]. by apply IH, plugin_step_inv. Qed.
(** *** What an alarm leads to *)
Lemma asked ev p :
  inv p → estate p ≠ Engine.SUnloading → ev = Engine.EvConnect ∨ ev = Engine.EvRemote ∧ Engine.isConnected (Engine.run_ (engine p)).1 = true →
  let n := Engine.enqueue ev (engine p) in ev ∈ Engine.queue (Engine.run_ n).1 ∨ Engine.pc n = Engine.PEffect ev.
Proof.
  intros [Hwf _] Hs Hev. cbv zeta. unfold Engine.enqueue. rewrite decide_False by done. rewrite decide_False by naive_solver.
  destruct (Engine.push ev (Engine.queue (Engine.run_ (engine p)).1)) as [q|] eqn:Hp.
  - left. cbn. unfold Engine.push, Engine.dup in Hp. destruct Hev as [->|[-> _]]; case_match; simplify_eq; by apply bool_decide_eq_true in H.
  - unfold Engine.pump. cbn [Engine.run_ Engine.pc].
    change (Engine.running (Engine.setQueue ?f ?x).1) with (Engine.running x.1). rewrite (Engine.wf_running _ Hwf).
    case_bool_decide as Hpc; cbn [negb]; [|left; cbn; set_solver]. right.
    destruct (Engine.wf_idle _ Hwf Hpc) as [Hq _]. unfold Engine.pumpTurn. cbn [Engine.setRunning Engine.setQueue fst snd Engine.queue Engine.state].
    rewrite Hq. cbn [app]. rewrite decide_False by done. destruct Hev as [->|[-> Hi]]; [done|]. cbn.
    change (Engine.isConnected _) with (Engine.isConnected (Engine.run_ (engine p)).1). by rewrite Hi.
Qed.

(** ** The promises *)
(** C12: The plugin stays in touch.  Whatever the sockets report, the timers, the
    user and the vault do, and however the effects end: unless it was
    disconnected or is unloading, the plugin is connecting, or a connect is
    queued, or the timer is armed whose firing queues one, or it is connected
    and the poll is armed whose firing queues a look at the server.  The slow
    cadence of the poll stands for a live channel, except during a connect; and
    the channel only counts as live over a socket not known to be closed,
    except while a failed re-dial is followed by a connect. *)
Theorem stays_in_touch l e :
  let p := steps start l in
  let r := Engine.run_ (engine p) in
  let will q := Engine.EvConnect ∈ Engine.queue (Engine.run_ (engine q)).1 ∨ connecting (Engine.pc (engine q)) in
  (down (estate p) = false →
     will p ∨ (armed (reconnectTimer (timers (chan p))) ∧ will (reconnectFires e p)) ∨
     (Engine.isConnected r.1 = true ∧ armed (pollTimer (timers (chan p))) ∧
      (Engine.EvRemote ∈ Engine.queue (Engine.run_ (engine (pollFires e p))).1 ∨ Engine.pc (engine (pollFires e p)) = Engine.PEffect Engine.EvRemote))) ∧
  (pollTimer (timers (chan p)) = Some POLL_IDLE_MS → transport (wire (chan p)) = Live ∨ connecting (Engine.pc (engine p))) ∧
  (transport (wire (chan p)) = Live →
     (∃ i, ws (wire (chan p)) = Some i ∧ i ∉ closed (wire (chan p))) ∨
     (ws (wire (chan p)) = None ∧ (comes r (chan p) ∨ Engine.pc (engine p) = Engine.PEffect Engine.EvRews))).
Proof.
  cbv zeta. pose proof (plugin_steps_inv l _ start_inv) as H. set (p := steps start l) in *. clearbody p. pose proof H as [Hwf Hs]. split_and!.
  - intros Hd. assert (Hun : estate p ≠ Engine.SUnloading) by (unfold estate; intros E; unfold estate in Hd; by rewrite E in Hd).
    destruct (s_up _ _ _ Hs Hd) as [[Ha|?]|[[Hi Ha]|?]]; [right; left| by left; left| |by left; right].
    + split; [done|]. unfold reconnectFires. destruct Ha as [d Hd2]. rewrite Hd2.
      apply (asked Engine.EvConnect p H Hun). by left.
    + right. right. split_and!; [done..|]. unfold pollFires. destruct Ha as [d Hd2]. rewrite Hd2. apply (asked Engine.EvRemote p H Hun). by right.
  - intros E. destruct (s_cadence _ _ _ Hs E) as [?|[? _]]; [by left|by right].
  - intros E. destruct (s_live _ _ _ Hs E) as [?|[? [?|[? _]]]]; auto.
Qed.
(** C13: Nothing outlives a disconnect or the unloading of the plugin: no timer
    that would reach out is armed, no socket is in use, and every socket that
    was ever made is closed - also when a connect, a mount pass or the listeners
    of old sockets go on afterwards.  At any time a socket that is not closed
    is the one in use or the one registered for a mount, so there is at most one
    of the primary vault and one for each mount. *)
Theorem nothing_outlives l :
  let p := steps start l in
  let c := chan p in
  (down (estate p) = true →
     reconnectTimer (timers c) = None ∧ pollTimer (timers c) = None ∧ wsLivenessTimer (timers c) = None ∧ mountPokeTimer (mnt c) = false ∧
     ws (wire c) = None ∧ ∀ i, i < length (sockets (wire c)) → i ∈ closed (wire c)) ∧
  (∀ i j whose, sockets (wire c) !! i = Some whose → sockets (wire c) !! j = Some whose →
     i ∉ closed (wire c) → j ∉ closed (wire c) → i = j).
Proof.
  cbv zeta. pose proof (plugin_steps_inv l _ start_inv) as [Hwf Hs]. set (p := steps start l) in *. clearbody p. split.
  - intros Hd. destruct (s_down _ _ _ Hs Hd) as (? & ? & ? & ? & ? & _). split_and!; try done. by eapply quiet_no_sockets.
  - intros i j whose Hi Hj Hni Hnj. destruct (s_wired _ _ _ Hs) as [Ht Hw Hm].
    destruct (Ht i) as [?|Hi']; [by eapply lookup_lt_Some|done|]. destruct (Ht j) as [?|Hj']; [by eapply lookup_lt_Some|done|].
    destruct Hi' as [Hi'|[k Hi']], Hj' as [Hj'|[k' Hj']]; try congruence.
    + apply Hw in Hi' as [? _]. apply Hm in Hj'. congruence.
    + apply Hm in Hi'. apply Hw in Hj' as [? _]. congruence.
    + pose proof (Hm _ _ Hi'). pose proof (Hm _ _ Hj'). congruence.
Qed.
(** The waits of a recovery: a backoff waits between half its base and its base,
    which doubles up to half a minute; the other classes wait what they say. *)
Lemma recovery_delay e rec c :
  unloading c = false → reconnectTimer (timers c) = None → (2 ≤ backoff (timers c) ≤ 30000)%Z →
  let t := timers (scheduleRecovery e rec c) in
  pollTimer t = None ∧ (2 ≤ backoff t ≤ 30000)%Z ∧
  ∃ d, reconnectTimer t = Some d ∧
    match rec with
    | Backoff => (backoff (timers c) / 2 ≤ d ≤ backoff (timers c))%Z ∧ (backoff t = 2 * backoff (timers c) ∨ backoff t = 30000)%Z
    | After s | Slow s => (1000 ≤ d ∧ s * 1000 ≤ d)%Z
    | AwaitUser s => (60000 ≤ d ∧ s * 1000 ≤ d)%Z
    end.
Proof.
  intros Hu Hr Hb. cbv zeta. unfold scheduleRecovery. rewrite Hu, Hr. cbn [orb]. rewrite bool_decide_eq_false_2 by (intros [? [=]]).
  pose proof (Z.div_mod (backoff (timers c)) 2 ltac:(lia)). pose proof (Z.mod_pos_bound (backoff (timers c)) 2 ltac:(lia)).
  destruct rec; cbn; (split; [done|split; [lia|eexists; split; [done|lia]]]).
Qed.
(** Only mounts in effect and in good health have a socket after a pass, and each
    of them has one when it can be made. *)
Definition within (want : gset jstr) c : Prop := ∀ k, is_Some (mountSockets (mnt c) !! k) → k ∈ want.
Lemma subscribe_spec opens want x c :
  within want c →
  let c' := subscribe opens want x c in
  within want c' ∧ (∀ k, is_Some (mountSockets (mnt c) !! k) → is_Some (mountSockets (mnt c') !! k)) ∧
  (Mountengine.mountKey x ∈ want → opens (Mountengine.mountKey x) = true → is_Some (mountSockets (mnt c') !! Mountengine.mountKey x)).
Proof.
  intros H. cbv zeta. unfold subscribe. generalize (Mountengine.mountKey x). intros key. case_bool_decide as Hk; cbn [negb orb]; [|by split_and!].
  case_bool_decide as Hs; [by split_and!|]. destruct (opens key) eqn:Ho; [|by split_and!]. unfold within. cbn. split_and!.
  - intros k' [i Hi]. apply lookup_insert_Some in Hi as [[-> _]|[_ Hi]]; [done|apply H; by eexists].
  - intros k' Hk'. destruct (decide (k' = key)) as [->|?]; [by rewrite lookup_insert_eq|by rewrite lookup_insert_ne].
  - intros _ _. by rewrite lookup_insert_eq.
Qed.
Lemma subscribes_spec opens want l c :
  within want c →
  let c' := foldl (λ c x, subscribe opens want x c) c l in
  within want c' ∧ (∀ k, is_Some (mountSockets (mnt c) !! k) → is_Some (mountSockets (mnt c') !! k)) ∧
  (∀ k, k ∈ Mountengine.mountKey <$> l → k ∈ want → opens k = true → is_Some (mountSockets (mnt c') !! k)).
Proof.
  revert c. induction l as [|x l IH]; intros c H; cbn; [split_and!; [done..|intros k Hk; set_solver]|].
  destruct (subscribe_spec opens want x c H) as (S1 & S2 & S3). destruct (IH _ S1) as (T1 & T2 & T3). split_and!; [done|auto|].
  intros k [->|Hk]%elem_of_cons; auto.
Qed.
Lemma subscribed e s scopes active opens c :
  unloading c = false → truthy (sessionToken c) = true → primaryLinkUp s = true →
  let c' := syncMountSubscriptions e s scopes active opens c in
  let want k := k ∈ Mountengine.mountKey <$> active ∧ k ∈ healthy scopes in
  ∀ k, (is_Some (mountSockets (mnt c') !! k) → want k) ∧ (want k → opens k = true → is_Some (mountSockets (mnt c') !! k)).
Proof.
  intros Hu Ht Hl. cbv zeta. unfold syncMountSubscriptions. set (want := filter _ (list_to_set _) : gset jstr).
  assert (Hwant : ∀ k, k ∈ want ↔ k ∈ Mountengine.mountKey <$> active ∧ k ∈ healthy scopes).
  { intros k. subst want. rewrite elem_of_filter, elem_of_list_to_set. naive_solver. }
  clearbody want. set (c1 := putSockets _ _). cbn [unloading sessionToken onMnt onWire c1 putSockets shut]. rewrite Hu, Ht, Hl. cbn [orb negb].
  assert (H1 : within want (recycle e c1)).
  { assert (H0 : within want c1) by (intros k [i Hi]; by apply map_lookup_filter_Some in Hi as [_ Hi]).
    unfold recycle. destruct (_ =? _)%Z; [apply H0|]. destruct (_ <=? _)%Z; [|apply H0]. intros k. cbn. by intros [? [=]]. }
  destruct (subscribes_spec opens want active _ H1) as (T1 & _ & T3). intros k. rewrite <- Hwant. split; [apply T1|].
  intros Hk. apply T3; [|done]. by apply Hwant.
Qed.
(** A request for a mount pass is not lost: while one runs it is remembered, and
    the next begins as it ends. *)
Definition requested c : Prop := waiting (mnt c) = true ∨ mountReconciling (mnt c) = true ∧ mountReconcilePending (mnt c) = true.
Lemma mount_requests_served c :
  requested (reconcileMounts c) ∧
  (unloading c = false → mountReconcilePending (mnt c) = true →
   let c' := passReleased c in waiting (mnt c') = true ∧ mountReconciling (mnt c') = true ∧ mountReconcilePending (mnt c') = false).
Proof.
  split.
  - unfold reconcileMounts, requested. destruct (mountReconciling (mnt c)) eqn:E; cbn; auto.
  - intros Hu Hp. cbv zeta. unfold passReleased. by rewrite Hu, Hp.
Qed.
End Plugin.

(** ** Concrete runs *)
(** The error is the number of seconds the server locks a sign-in out. *)
Definition lockedOut (s : Z) : FailureClass := FLockedOut s.
Definition env : Env := {| now := 1000; dials := true; draw := 700 |}.
Abbreviation Acts := (list (Action (Err := Z))).
Definition after (l : Acts) : Plugin (Err := Z) := steps lockedOut start (map (pair env) l).
(** A connect that ends well, once it was asked for. *)
Definition connects : Acts := [SignedIn (js "t"); FinishConnect; Settles None; Resumes].
Definition up : Acts := Ask Engine.EvConnect :: connects.
Definition pollFails : Acts := [Ask Engine.EvRemote; Settles (Some 600%Z); Resumes].
Lemma stays_in_touch_witness :
  let p := after (up ++ pollFails) in
  down (estate p) = false ∧ Engine.isConnected (Engine.run_ (engine p)).1 = false ∧
  (Engine.EvConnect ∈ Engine.queue (Engine.run_ (engine p)).1 ∨ connecting (Engine.pc (engine p)) ∨ armed (reconnectTimer (timers (chan p)))).
Proof.
  split; [vm_compute; reflexivity|]. split; [vm_compute; reflexivity|].
  destruct (stays_in_touch lockedOut (map (pair env) (up ++ pollFails)) env) as [[[?|?]|[[? _]|[H _]]] _].
  - vm_compute. reflexivity.
  - by left.
  - by right; left.
  - by right; right.
  - exfalso. vm_compute in H. discriminate H.
Defined.
Definition disconnects : Acts := [Opens 0; Ask Engine.EvDisconnect; Resumes].
Lemma nothing_outlives_witness :
  let p := after (up ++ disconnects ++ [Closes 0; RedialFires 0]) in
  down (estate p) = true ∧ length (sockets (wire (chan p))) = 1 ∧ 0 ∈ closed (wire (chan p)) ∧ pollTimer (timers (chan p)) = None.
Proof.
  split; [vm_compute; reflexivity|]. split; [vm_compute; reflexivity|].
  destruct (nothing_outlives lockedOut (map (pair env) (up ++ disconnects ++ [Closes 0; RedialFires 0]))) as [H _].
  destruct H as (_ & Hp & _ & _ & _ & Hc); [vm_compute; reflexivity|]. split; [|exact Hp]. apply Hc. apply Nat.ltb_lt. vm_compute. reflexivity.
Defined.

(** ** What modelling showed *)
Definition isTimer (a : Action (Err := Z)) : bool :=
  match a with PollFires | ReconnectFires | LivenessFires | RedialFires _ | PokeFires => true | _ => false end.
Definition connectCalls (p : Plugin (Err := Z)) : nat :=
  length (List.filter (λ o, match o with Engine.OCall Engine.FxConnect => true | _ => false end) (Engine.run_ (engine p)).2).
(** A socket that is refused is answered by a connect without any wait, although
    that is called a backed-off reconnect: where the server is reached but no
    socket can be opened, connects and full passes follow each other for ever. *)
Fixpoint refused (i n : nat) : Acts :=
  match n with 0 => [] | S n => [Errors i; Closes i] ++ connects ++ refused (S i) n end.
Lemma refused_socket_reconnects_at_once :
  forallb (λ a, negb (isTimer a)) (up ++ refused 0 20) = true ∧ connectCalls (after (up ++ refused 0 20)) = 21 ∧
  backoff (timers (chan (after (up ++ refused 0 20)))) = 3000%Z.
Proof. vm_compute. done. Qed.
(** While a lock-out of ten minutes is waited for, the close of a socket that never
    opened starts a connect. *)
Lemma close_ignores_lockout :
  let p := after (up ++ pollFails) in
  let q := after (up ++ pollFails ++ [Errors 0; Closes 0]) in
  reconnectTimer (timers (chan p)) = Some 600000%Z ∧ connectCalls p = 1 ∧ connectCalls q = 2 ∧ reconnectTimer (timers (chan q)) = None.
Proof. vm_compute. done. Qed.
(** An error of the socket starts the poll that the recovery has stopped. *)
Lemma poll_runs_while_down :
  let p := after (up ++ pollFails) in
  let q := after (up ++ pollFails ++ [Errors 0]) in
  estate q = Engine.SDisconnected ∧ pollTimer (timers (chan p)) = None ∧ pollTimer (timers (chan q)) = Some POLL_ACTIVE_MS.
Proof. vm_compute. done. Qed.
(** After a disconnect - the second half of signing out - the session's token is
    still there, and a change in the folder of a mount begins a pass with it. *)
Lemma mounts_sync_signed_out :
  let p := after (up ++ disconnects ++ [ReconcileMounts; PassBegins 1 false]) in
  estate p = Engine.SOff ∧ begun (mnt (chan p)) = [js "t"].
Proof. vm_compute. done. Qed.
End Channel.
