(* ===== verification/Filelog.v ===== *)
(** * Filelog: the log file ([client/src/filelog.ts])

    Lines are queued and appended one after the other; the file is rotated with
    one previous generation.  A job of the queue is a tree of calls of the adapter
    over the object's count of bytes; every call may fail. *)

From S2P Require Import Prelude Effects.

Module Filelog.

Definition FILE_LOG_MAX_BYTES : nat := N.to_nat 1000000.
Inductive LogLevel := LOff | LError | LWarn | LInfo | LDebug | LTrace.
Definition RANK (l : LogLevel) : nat := match l with LOff => 0 | LError => 1 | LWarn => 2 | LInfo => 3 | LDebug => 4 | LTrace => 5 end.
Definition TAG (l : LogLevel) : jstr :=
  match l with LOff => [] | LError => js "ERR" | LWarn => js "WRN" | LInfo => js "INF" | LDebug => js "DBG" | LTrace => js "TRC" end.

(** ** The object *)
Record FileLog := { level : LogLevel; bytes : nat; seq : nat; broken : bool; tail : list jstr }.
Definition newLog (l : LogLevel) : FileLog := {| level := l; bytes := 0; seq := 0; broken := false; tail := [] |}.
Definition setLevel (l : LogLevel) (x : FileLog) : FileLog :=
  {| level := l; bytes := bytes x; seq := seq x; broken := broken x; tail := tail x |}.
Definition setEnabled (on : bool) : FileLog → FileLog := setLevel (if on then LInfo else LOff).
Definition isEnabled (x : FileLog) : bool := (0 <? RANK (level x)) && negb (broken x).
Definition allows (l : LogLevel) (x : FileLog) : bool := negb (broken x) && (RANK l <=? RANK (level x)).
Definition putBytes (n : nat) (x : FileLog) : FileLog :=
  {| level := level x; bytes := n; seq := seq x; broken := broken x; tail := tail x |}.
Definition putBroken (x : FileLog) : FileLog :=
  {| level := level x; bytes := bytes x; seq := seq x; broken := true; tail := tail x |}.
Definition putTail (l : list jstr) (x : FileLog) : FileLog :=
  {| level := level x; bytes := bytes x; seq := seq x; broken := broken x; tail := l |}.
Definition number (x : FileLog) : FileLog :=
  {| level := level x; bytes := bytes x; seq := S (seq x); broken := broken x; tail := tail x |}.
Definition text (stamp : jstr) (n : nat) (l : LogLevel) (msg : jstr) : jstr :=
  stamp ++ js " #" ++ num_str (N.of_nat n) ++ js " " ++ TAG l ++ js " " ++ msg ++ [10%N].
(** The synchronous appender takes a line or throws; [None] where there is none.
    The line that was handed to it is given back. *)
Definition write (syncAppend : option bool) (l : LogLevel) (stamp msg : jstr) (x : FileLog) : FileLog * option jstr :=
  if negb (allows l x) then (x, None)
  else
    let x := number x in
    let t := text stamp (seq x) l msg in
    match syncAppend with
    | Some true => (x, Some t)
    | _ => (putTail (tail x ++ [t]) x, None)
    end.
(** An operation that was begun; what [begin] returns is [finish]. *)
Record Started := { op : jstr; sid : nat; t0 : Z; slevel : LogLevel; ended : bool }.
Definition zms (z : Z) : jstr := if (z <? 0)%Z then js "-" ++ num_str (Z.to_N (- z)) else num_str (Z.to_N z).
Definition begin (sync : option bool) (o detail : jstr) (l : LogLevel) (now : Z) (stamp : jstr) (x : FileLog)
    : Started * (FileLog * option jstr) :=
  let x := number x in
  let s := {| op := o; sid := seq x; t0 := now; slevel := l; ended := false |} in
  (s, write sync l stamp (js "beg " ++ o ++ (if truthy detail then js " " ++ detail else []) ++ js " (id=" ++ num_str (N.of_nat (seq x)) ++ js ")") x).
Definition finish (sync : option bool) (result : jstr) (now : Z) (stamp : jstr) (s : Started) (x : FileLog)
    : Started * (FileLog * option jstr) :=
  if ended s then (s, (x, None))
  else
    let ms := (now - t0 s)%Z in
    ({| op := op s; sid := sid s; t0 := t0 s; slevel := slevel s; ended := true |},
     write sync (if (1000 <=? ms)%Z then LWarn else slevel s) stamp
       (js "end " ++ op s ++ js " " ++ result ++ js " " ++ zms ms ++ js "ms (id=" ++ num_str (N.of_nat (sid s)) ++ js ")") x).

(** ** A job of the queue *)
Inductive Which := Current | Previous.
Inductive FOp : Type :=
| FStat | FExists | FRemove | FRead | FWrite (w : Which) (data : jstr) | FAppend (data : jstr).
Definition FAns (o : FOp) : Type :=
  match o with
  | FStat => res unit (option nat)
  | FExists => res unit bool
  | FRead => option (res unit jstr) (** [None]: the adapter has no [read] *)
  | _ => res unit unit
  end.
Abbreviation F := (M FAns FileLog unit).
Notation need o := (callE o id) (only parsing).
Definition orElse {A} (m : F A) (a : A) : F A := try_catch m (λ _, mret' a).
Definition readAll : F jstr :=
  let* r := (call FRead : F (option (res unit jstr))) in
  match r with Some (Ok t) => mret' t | _ => mret' [] end.
Definition rotate : F unit :=
  let* there := orElse (need FExists) false in
  (whenM (there : bool) then orElse (need FRemove) tt) ;;
  orElse (need (FWrite Previous [])) tt ;;
  let* rotated := readAll in
  orElse (need (FWrite Previous rotated)) tt ;;
  orElse (need (FWrite Current [])) tt ;;
  modify (putBytes 0).
(** The first write of a session learns the current size. *)
Definition learnSize : F unit :=
  let* x := getS in
  whenM bytes x =? 0 then (let* st := orElse (need FStat) None in modify (putBytes (default 0 st))).
Definition appendChecked (t : jstr) : F unit :=
  learnSize ;;
  let* x := getS in
  (whenM FILE_LOG_MAX_BYTES <? bytes x + length t then rotate) ;;
  need (FAppend t) ;;
  modify (λ x, putBytes (bytes x + length t) x).
(** A failed append disables the log; what is queued is still tried. *)
Definition job (t : jstr) : F unit := try_catch (appendChecked t) (λ _, modify putBroken).
Definition drain (queue : list jstr) : F unit := for_each queue job.
(** ** Lines *)
(** A line is numbered and handed on exactly when its level is within the
    threshold and the log is not disabled: to the synchronous appender where that
    works, and else to the queue. *)
Lemma write_routes sync l stamp msg x :
  let '(x', out) := write sync l stamp msg x in
  if allows l x then
    seq x' = S (seq x) ∧
    ((sync = Some true ∧ out = Some (text stamp (seq x') l msg) ∧ tail x' = tail x) ∨
     (sync ≠ Some true ∧ out = None ∧ tail x' = tail x ++ [text stamp (seq x') l msg]))
  else x' = x ∧ out = None.
Proof.
  unfold write. destruct (allows l x); cbn [negb]; [|done].
  destruct sync as [[]|]; (split; [done|]); [left|right|right]; by split_and!.
Qed.
(** An operation ends once, and one of a second or more ends as a warning. *)
Theorem operation_ends_once sync r r' now now' stamp stamp' s x :
  let '(s1, (x1, o1)) := finish sync r now stamp s x in
  finish sync r' now' stamp' s1 x1 = (s1, (x1, None)) ∧ ended s1 = true ∧
  (ended s = false → (t0 s + 1000 <= now)%Z → 2 ≤ RANK (level x) → broken x = false → sync = Some true → is_Some o1).
Proof.
  unfold finish. destruct (ended s) eqn:He; [rewrite He; by split_and!|]. destruct (write _ _ _ _ _) as [x1 o1] eqn:Hw. cbn [ended].
  split_and!; [done|done|]. intros _ Hms Hrank Hb ->. rewrite (proj2 (Z.leb_le _ _)) in Hw by lia.
  unfold write, allows in Hw. rewrite Hb in Hw. cbn [negb andb RANK] in Hw. rewrite (proj2 (Nat.leb_le _ _) Hrank) in Hw. cbn in Hw.
  injection Hw as <- <-. by eexists.
Qed.

(** ** The queue, whatever the adapter answers *)
Definition appends (e : event (cmd FOp FileLog unit) (cans (Ans := FAns))) : list jstr :=
  match projT1 e with Call (FAppend t) => [t] | _ => [] end.
Definition appended (h : hist FAns FileLog unit) : list jstr := concat (appends <$> h).
Lemma appended_snoc h e : appended (h ++ [e]) = appended h ++ appends e.
Proof. unfold appended. rewrite fmap_app, concat_app. cbn. by rewrite app_nil_r. Qed.
Abbreviation anyway := (λ (_ : hist FAns FileLog unit) (_ : FOp), True).
(** Where nothing is appended, the appended lines stay. *)
Abbreviation holds m Q h := (safe anyway m Q h).
Lemma orElse_quiet {A} o (v : FAns o → res unit A) a (Q : res unit A → _ → Prop) h :
  (∀ r, appends (ev (Call o) r) = []) → (∀ b h', appended h' = appended h → Q (Ok b) h') → holds (orElse (callE o v) a) Q h.
Proof.
  intros Ho HQ. split; [done|]. intros r. assert (Hh : appended (h ++ [ev (Ans := cans) (Call o) r]) = appended h) by (rewrite appended_snoc, Ho; apply app_nil_r).
  cbn. destruct (v r); by apply HQ.
Qed.
Lemma modify_quiet (f : FileLog → FileLog) (Q : res unit unit → _ → Prop) h :
  (∀ h', appended h' = appended h → Q (Ok tt) h') → holds (modify f) Q h.
Proof. intros HQ. split; [done|]. intros r. apply HQ. rewrite appended_snoc. apply app_nil_r. Qed.
Lemma getS_quiet (Q : res unit FileLog → _ → Prop) h : (∀ x h', appended h' = appended h → Q (Ok x) h') → holds getS Q h.
Proof. intros HQ. split; [done|]. intros r. apply HQ. rewrite appended_snoc. apply app_nil_r. Qed.
Local Ltac next := apply (safe_bind anyway).
Lemma rotate_quiet (Q : res unit unit → _ → Prop) h : (∀ h', appended h' = appended h → Q (Ok tt) h') → holds rotate Q h.
Proof.
  intros HQ. unfold rotate. next. apply orElse_quiet; [done|]. intros there h1 H1 _. next.
  apply (safe_mono anyway _ _ (λ r h', r = Ok tt ∧ appended h' = appended h1)).
  2: { destruct there; [|done]. apply orElse_quiet; [done|]. by intros [] h2 H2. }
  intros ? h2 _ [-> H2] _. next. apply orElse_quiet; [done|]. intros [] h3 H3 _. next.
  apply (safe_mono anyway _ _ (λ r h', (∃ t, r = Ok t) ∧ appended h' = appended h3)).
  2: { split; [done|]. intros r. cbn. destruct r as [[t|e]|]; cbn; (split; [by eexists|]); rewrite appended_snoc; apply app_nil_r. }
  intros ? h4 _ [[t ->] H4] _. next. apply orElse_quiet; [done|]. intros [] h5 H5 _. next. apply orElse_quiet; [done|]. intros [] h6 H6 _.
  apply modify_quiet. intros h7 H7. apply HQ. congruence.
Qed.
Lemma job_appends t h : holds (job t) (λ r h', r = Ok tt ∧ appended h' = appended h ++ [t]) h.
Proof.
  unfold job, appendChecked. apply (safe_try anyway). next.
  apply (safe_mono anyway _ _ (λ r h', r = Ok tt ∧ appended h' = appended h)).
  2: { unfold learnSize. next. apply getS_quiet. intros x h1 H1 _. destruct (bytes x =? 0); [|done]. next. apply orElse_quiet; [done|]. intros st h2 H2 _. apply modify_quiet. intros h3 H3. split; [done|congruence]. }
  intros ? h2 _ [-> H2] _. next. apply getS_quiet. intros x2 h3 H3 _. next.
  apply (safe_mono anyway _ _ (λ r h', r = Ok tt ∧ appended h' = appended h)).
  2: { destruct (_ <? _); [|split; [done|congruence]]. apply rotate_quiet. intros h4 H4. split; [done|congruence]. }
  intros ? h4 _ [-> H4] _. next. split; [done|]. intros r.
  assert (Hr : appended (h4 ++ [ev (Ans := cans) (Call (FAppend t)) r]) = appended h ++ [t]) by (rewrite appended_snoc, H4; done).
  destruct r as [[]|e]; intros _.
  - apply modify_quiet. intros h5 H5 _. split; [done|congruence].
  - intros _. apply modify_quiet. intros h5 H5. split; [done|congruence].
Qed.
(** Every queued line is tried exactly once, in the order it was queued, whatever
    fails; and the caller never sees a failure. *)
Theorem lines_in_order queue h r : reach (drain queue) h (Ret r) → r = Ok tt ∧ appended h = queue.
Proof.
  assert (H : ∀ q h0, holds (drain q) (λ r h', r = Ok tt ∧ appended h' = appended h0 ++ q) h0).
  { intros q. induction q as [|t q IH]; intros h0; [cbn; by rewrite app_nil_r|]. unfold drain. cbn [for_each]. next.
    eapply (safe_mono anyway); [|apply job_appends]. intros ? h1 _ [-> H1] _. eapply (safe_mono anyway); [|apply IH].
    intros r1 h2 _ [-> H2]. split; [done|]. by rewrite H2, H1, <- app_assoc. }
  intros Hr. apply (wp_adequacy _ _ _ _ (H queue []) h _ Hr).
Qed.

(** ** On a file system that does not fail *)
Record Files := { cur : option jstr; prev : option jstr }.
Section Disk.
(** A file has at least as many bytes as code units. *)
Context (size : jstr → nat) (size_units : ∀ t, length t ≤ size t).
Definition disk (w : Files) (o : FOp) : FAns o * Files :=
  match o return FAns o * Files with
  | FStat => (Ok (size <$> cur w), w)
  | FExists => (Ok (bool_decide (is_Some (prev w))), w)
  | FRemove => (Ok tt, {| cur := cur w; prev := None |})
  | FRead => (Some (match cur w with Some t => Ok t | None => Throw tt end), w)
  | FWrite Current t => (Ok tt, {| cur := Some t; prev := prev w |})
  | FWrite Previous t => (Ok tt, {| cur := cur w; prev := Some t |})
  | FAppend t => (Ok tt, {| cur := Some (default [] (cur w) ++ t); prev := prev w |})
  end.
Abbreviation ran m c := (Effects.run disk (λ _, true) m c).
Abbreviation contents w := (default [] (cur w)).
Definition rotated (w : Files) : Files := {| cur := Some []; prev := Some (contents w) |}.
Definition counted (x : FileLog) (w : Files) : nat := if bytes x =? 0 then default 0 (size <$> cur w) else bytes x.
#[local] Opaque FILE_LOG_MAX_BYTES.
Lemma run_bindM {A B} (m : F A) (f : A → F B) c :
  ran (bindM m f) c = let '(r, c') := ran m c in match r with Ok a => ran (f a) c' | Throw e => (Throw e, c') end.
Proof. unfold bindM. rewrite run_bind. by destruct (ran m c) as [[a|e] c']. Qed.
Lemma rotate_runs w x pools n : ran rotate (Conf w x pools n) = (Ok tt, Conf (rotated w) (putBytes 0 x) pools n).
Proof. destruct w as [[c|] [p|]]; reflexivity. Qed.
Lemma learn_runs w x pools n : ran learnSize (Conf w x pools n) = (Ok tt, Conf w (putBytes (counted x w) x) pools n).
Proof.
  unfold learnSize. rewrite run_bindM. cbn [Effects.run getS do step fst snd id cs cw cpools ctick]. unfold counted.
  destruct (bytes x =? 0); [reflexivity|]. destruct x; reflexivity.
Qed.
Lemma job_runs t w x pools n :
  ran (job t) (Conf w x pools n) =
  let w' := if FILE_LOG_MAX_BYTES <? counted x w + length t then rotated w else w in
  let b := if FILE_LOG_MAX_BYTES <? counted x w + length t then 0 else counted x w in
  (Ok tt, Conf {| cur := Some (contents w' ++ t); prev := prev w' |} (putBytes (b + length t) x) pools n).
Proof.
  unfold job, try_catch, appendChecked. rewrite run_bind, run_bindM, learn_runs, run_bindM.
  cbn [Effects.run getS do step fst snd id cs cw cpools ctick]. rewrite run_bindM. cbn [bytes putBytes cs].
  destruct (FILE_LOG_MAX_BYTES <? counted x w + length t) eqn:Hm; [rewrite rotate_runs|]; reflexivity.
Qed.
Definition sound (w : Files) (x : FileLog) : Prop := bytes x = 0 ∨ length (contents w) ≤ bytes x.
(** No line is lost but with the generation before the last, in order, and the
    file holds at most the limit of code units - where it did before, and no
    single line is longer. *)
Theorem log_is_kept_and_bounded queue w x pools n :
  sound w x →
  ∃ w' x' dropped, ran (drain queue) (Conf w x pools n) = (Ok tt, Conf w' x' pools n) ∧ broken x' = broken x ∧ sound w' x' ∧
    default [] (prev w) ++ contents w ++ concat queue = dropped ++ default [] (prev w') ++ contents w' ∧
    (length (contents w) ≤ FILE_LOG_MAX_BYTES → Forall (λ t, length t ≤ FILE_LOG_MAX_BYTES) queue → length (contents w') ≤ FILE_LOG_MAX_BYTES).
Proof.
  revert w x. induction queue as [|t queue IH]; intros w x Hs.
  { exists w, x, []. split_and!; try done. by rewrite app_nil_r. }
  unfold drain. cbn [for_each]. rewrite run_bindM, job_runs.
  set (w1 := if _ <? _ then rotated w else w). set (b := if _ <? _ then 0 else counted x w). cbv zeta.
  set (w2 := {| cur := Some (contents w1 ++ t); prev := prev w1 |}). set (x2 := putBytes (b + length t) x).
  assert (Hcnt : length (contents w) ≤ counted x w).
  { unfold counted. destruct (bytes x =? 0) eqn:Hb; [destruct (cur w); cbn; [apply size_units|lia]|]. apply Nat.eqb_neq in Hb. by destruct Hs. }
  assert (Hs2 : sound w2 x2).
  { right. unfold w2, x2, w1, b. cbn [cur from_option id bytes putBytes]. rewrite length_app. destruct (_ <? _); cbn [rotated cur from_option id]; cbn; lia. }
  destruct (IH w2 x2 Hs2) as (w' & x' & dropped & Hrun & Hb & Hs' & Heq & Hlen).
  exists w', x', ((if FILE_LOG_MAX_BYTES <? counted x w + length t then default [] (prev w) else []) ++ dropped).
  split_and!; [exact Hrun|exact Hb|exact Hs'| |].
  - rewrite <- app_assoc, <- Heq. unfold w2, w1. cbn [concat cur prev from_option id]. destruct (_ <? _); cbn [rotated cur prev from_option id]; by rewrite <- !app_assoc.
  - intros Hw [Ht Hq]%Forall_cons. apply Hlen; [|done]. unfold w2, w1. cbn [cur from_option id]. rewrite length_app. destruct (_ <? _) eqn:Hm.
    + cbn. lia.
    + apply Nat.ltb_ge in Hm. lia.
Qed.
End Disk.

(** ** What modelling showed *)
Definition full (t : jstr) : FileLog := {| level := LInfo; bytes := FILE_LOG_MAX_BYTES; seq := 0; broken := false; tail := [t] |}.
(** A line the synchronous appender takes is not counted, and nothing of the queue
    runs: however many there are, the file is never rotated. *)
Lemma sync_lines_never_rotate (lines : list (LogLevel * jstr * jstr)) x :
  let x' := foldl (λ x e, (write (Some true) e.1.1 e.1.2 e.2 x).1) x lines in bytes x' = bytes x ∧ tail x' = tail x.
Proof.
  revert x. induction lines as [|[[l s] m] lines IH]; intros x; [done|]. cbn [foldl fst snd]. destruct (IH (write (Some true) l s m x).1) as [-> ->].
  unfold write. by destruct (negb _).
Qed.
(** Rotation empties the file although its copy could not be read or written: the
    log is lost. *)
Definition unreadable (w : Files) (o : FOp) : FAns o * Files :=
  match o return FAns o * Files with FRead => (Some (Throw tt), w) | o => disk length w o end.
Lemma failed_copy_loses_log :
  let w := (Effects.run unreadable (λ _, true) (drain [js "new"]) (Conf {| cur := Some (js "old"); prev := Some (js "older") |} (full []) [] 0)).2 in
  cw w = {| cur := Some (js "new"); prev := Some [] |}.
Proof. vm_compute. done. Qed.
End Filelog.
