(* ===== verification/Pluginpreview.v ===== *)
(** * Pluginpreview: what pushing or pulling one plugin would do ([client/src/main.ts])

    The preview of [pluginPushPullPreview] and the quiet check behind the greyed
    buttons, over the classification of [pushpreview.ts] ([Merge.Preview]).  What
    the walk of the plugin's folder found is an argument. *)

From S2P Require Import Prelude Jsmap Effects Configsync Protocol Merge Base Sync Reconcile Pass Demo.

Module Pluginpreview.
Import Preview Iface.

Definition HASH_CAP : Z := 1048576.
Definition DIFF_CAP : Z := 524288.
Record FileChangeView := { change : FileChange; author : option jstr; deviceName : option jstr; v_mtime : option Z }.
Definition absent : SideState := {| present := false; hash := None |}.
Definition uncompared : SideState := {| present := true; hash := None |}.
Definition serverMap (r : Wire.ChangesResponse) : list (jstr * Wire.FileMeta) := jof ((λ m, (Wire.path m, m)) <$> Wire.upserts r).

Section Pluginpreview.
Context (sha256hex : bytes → jstr) (decodeUtf8 : bytes → option jstr).

Definition serverSide (server : list (jstr * Wire.FileMeta)) (p : jstr) : SideState :=
  match jget server p with Some m => {| present := true; hash := Some (Wire.hash m) |} | None => absent end.
(** Only there does a hash tell more than the size. *)
Definition comparable (local : list (jstr * Stat)) (server : list (jstr * Wire.FileMeta)) (p : jstr) : bool :=
  match jget local p, jget server p with
  | Some st, Some m => (Wire.size m =? st_size st)%Z && (st_size st <=? HASH_CAP)%Z
  | _, _ => false
  end.
Definition localSide (local : list (jstr * Stat)) (server : list (jstr * Wire.FileMeta)) (direction : PushDirection) (p : jstr) : Client SideState :=
  match jget local p with
  | None => mret' absent
  | Some _ =>
      if comparable local server p then
        try_catch (let* b := read p in mret' {| present := true; hash := Some (sha256hex b) |})
          (λ _, mret' (match direction with DPush => absent | DPull => uncompared end))
      else mret' uncompared
  end.
Definition gather (local : list (jstr * Stat)) (server : list (jstr * Wire.FileMeta)) (direction : PushDirection) (paths : list jstr)
    : Client (list PreviewFile) :=
  map_each paths (λ p, let* l := localSide local server direction p in
                       mret' {| f_path := p; f_local := l; f_server := serverSide server p |}).
Definition enrich (server : list (jstr * Wire.FileMeta)) (c : FileChange) : FileChangeView :=
  let m := jget server (path c) in
  {| change := c; author := m ≫= Wire.author; deviceName := m ≫= Wire.deviceName; v_mtime := Wire.mtime <$> m |}.
Definition pluginPushPullPreview (online : bool) (selfFolder : jstr) (local : list (jstr * Stat)) (id : jstr) (direction : PushDirection)
    : Client (option (list FileChangeView)) :=
  if negb online then mret' None
  else if Config.isSelfPluginId id selfFolder then mret' None
  else
    let* r := changes 0 in
    let server := serverMap r in
    let paths := Config.pluginFilePaths (jkeys local) (jkeys server) id in
    let* files := gather local server direction paths in
    mret' (Some (enrich server <$> classifyPushPull files direction)).
Inductive Shown := Lines (l : list DiffLine) | Binary | TooLarge.
(** The difference of one file, when its row is opened. *)
Definition loadDiff (local : list (jstr * Stat)) (server : list (jstr * Wire.FileMeta)) (direction : PushDirection) (p : jstr) : Client Shown :=
  let meta := jget server p in
  if (DIFF_CAP <? Z.max (default 0 (st_size <$> jget local p)) (default 0 (Wire.size <$> meta)))%Z then mret' TooLarge
  else
    let* localText := (if jhas local p then (let* b := read p in mret' (decodeUtf8 b)) else mret' (Some [])) in
    let* serverText :=
      match meta with
      | Some m => let* b := Transfer.fetchFileBytes sha256hex (Wire.chunks m) in mret' (decodeUtf8 b)
      | None => mret' (Some [])
      end in
    mret' match localText, serverText with
          | Some l, Some s =>
              let '(oldT, newT) := match direction with DPush => (s, l) | DPull => (l, s) end in
              match lineDiff oldT newT with Some d => Lines d | None => TooLarge end
          | _, _ => Binary
          end.
(** The walk of the folder, [None] where it failed. *)
Definition pluginSyncClean (selfFolder : jstr) (conflicts : list jstr) (b : Store.BaseStore) (walk : option (list (jstr * Stat))) (id : jstr) : bool :=
  if Config.isSelfPluginId id selfFolder then true
  else
    let prefix := js ".obsidian/plugins/" ++ id ++ js "/" in
    if existsb (λ p, starts_with p prefix) conflicts then false
    else
      let stamps := (λ p, let e := Store.get b p in
                          {| s_path := p; s_size := e ≫= Store.size; s_mtime := e ≫= Store.mtime |}) <$>
                    filter (λ p, starts_with p prefix = true) (Store.paths b) in
      match walk with
      | None => false
      | Some l => stampsConverged stamps (list_to_map ((λ e, (e.1, (st_size e.2, st_mtime e.2))) <$> l))
      end.

(** ** What the preview reads, and what it says *)
Implicit Types (h : History).
Context (local : list (jstr * Stat)) (selfFolder pid : jstr) (direction : PushDirection).
Definition reads h (o : Op) : Prop :=
  match o with
  | ApiChanges since => since = 0%Z
  | IoRead p => ∃ r, called h (ApiChanges 0) (Ok r) ∧ comparable local (serverMap r) p = true ∧
                     p ∈ Config.pluginFilePaths (jkeys local) (jkeys (serverMap r)) pid
  | _ => False
  end.
#[local] Instance reads_justified : Justified reads.
Proof. intros h h' o Hs Ho. destruct o; try done. destruct Ho as (r & ? & ? & ?). exists r. split_and!; [by eapply called_mono|done..]. Qed.
(** The local side of a file: absent, compared, or only known to be there; an
    unreadable one counts as what the action sees. *)
Definition sideFound h (server : list (jstr * Wire.FileMeta)) (p : jstr) (s : SideState) : Prop :=
  match jget local p with
  | None => s = absent
  | Some _ =>
      if comparable local server p then
        (∃ b, called h (IoRead p) (Ok b) ∧ s = {| present := true; hash := Some (sha256hex b) |}) ∨
        (∃ e, called h (IoRead p) (Throw e) ∧ s = match direction with DPush => absent | DPull => uncompared end)
      else s = uncompared
  end.
Definition accurate h (r : Wire.ChangesResponse) (c : FileChangeView) : Prop :=
  ∃ p s, sideFound h (serverMap r) p s ∧ c = enrich (serverMap r) (classifyOne direction {| f_path := p; f_local := s; f_server := serverSide (serverMap r) p |}).
Lemma sideFound_mono h h' server p s : h ⊑ h' → sideFound h server p s → sideFound h' server p s.
Proof.
  intros Hs. unfold sideFound. destruct (jget local p); [|done]. destruct (comparable _ _ _); [|done].
  intros [(b & ? & ?)|(e & ? & ?)]; [left; exists b|right; exists e]; (split; [by eapply called_mono|done]).
Qed.
Lemma localSide_reads r p h (Q : res Err SideState → History → Prop) :
  called h (ApiChanges 0) (Ok r) → p ∈ Config.pluginFilePaths (jkeys local) (jkeys (serverMap r)) pid →
  (∀ s h', h ⊑ h' → sideFound h' (serverMap r) p s → Q (Ok s) h') → safe reads (localSide local (serverMap r) direction p) Q h.
Proof.
  intros Hc Hp HQ. unfold localSide. destruct (jget local p) as [st|] eqn:Hl.
  2: { apply safe_ret, HQ; [done|]. unfold sideFound. by rewrite Hl. }
  destruct (comparable local (serverMap r) p) eqn:Hcmp.
  2: { apply safe_ret, HQ; [done|]. unfold sideFound. by rewrite Hl, Hcmp. }
  apply safe_try, (safe_bind reads), (safe_callE reads _ (IoRead p)); [by exists r|]. intros [b|e] h' Hs Hb _.
  - apply safe_ret. intros _. apply HQ; [done|]. unfold sideFound. rewrite Hl, Hcmp. left. by exists b.
  - intros _. apply safe_ret, HQ; [done|]. unfold sideFound. rewrite Hl, Hcmp. right. by exists e.
Qed.
Lemma gather_reads r paths h (Q : res Err (list PreviewFile) → History → Prop) :
  called h (ApiChanges 0) (Ok r) → (∀ p, p ∈ paths → p ∈ Config.pluginFilePaths (jkeys local) (jkeys (serverMap r)) pid) →
  (∀ l h', h ⊑ h' → Forall2 (λ p f, f_path f = p ∧ f_server f = serverSide (serverMap r) p ∧ sideFound h' (serverMap r) p (f_local f)) paths l →
    Q (Ok l) h') →
  safe reads (gather local (serverMap r) direction paths) Q h.
Proof.
  revert h Q. induction paths as [|p paths IH]; intros h Q Hc Hp HQ; [apply safe_ret, HQ; [done|constructor]|].
  unfold gather. cbn [map_each]. apply (safe_bind reads), (safe_bind reads), (localSide_reads r); [done|apply Hp; by left|].
  intros s h1 Hs1 Hside _. apply safe_ret. intros _. apply (safe_bind reads). apply IH; [by eapply called_mono|intros q Hq; apply Hp; by right|].
  intros l h2 Hs2 Hl _. apply safe_ret, HQ; [chain|]. constructor; [|done]. split_and!; [done..|]. by eapply sideFound_mono.
Qed.
(** The preview changes nothing: it asks the server for its files and reads, of the
    plugin's own folder, only files of at most a mebibyte whose size is the
    server's.  What it shows has a row for every file of the plugin here or on the
    server, and each row is the classification of what was found: an unchanged file
    was read and hashes to what the server holds. *)
Theorem preview_is_accurate online h m' :
  reach (pluginPushPullPreview online selfFolder local pid direction) h m' →
  match m' with
  | Vis (Call o) _ => reads h o
  | Ret (Ok (Some l)) => ∃ r, called h (ApiChanges 0) (Ok r) ∧
      (path ∘ change) <$> l = Config.pluginFilePaths (jkeys local) (jkeys (serverMap r)) pid ∧ Forall (accurate h r) l
  | _ => True
  end.
Proof.
  assert (H : safe reads (pluginPushPullPreview online selfFolder local pid direction)
    (λ r h', ∀ l, r = Ok (Some l) → ∃ r, called h' (ApiChanges 0) (Ok r) ∧
      (path ∘ change) <$> l = Config.pluginFilePaths (jkeys local) (jkeys (serverMap r)) pid ∧ Forall (accurate h' r) l) []).
  { unfold pluginPushPullPreview. destruct (negb online); [by apply safe_ret|]. destruct (Config.isSelfPluginId _ _); [by apply safe_ret|].
    apply (safe_bind reads), (safe_callE reads _ (ApiChanges 0)); [done|]. intros [r|e] h1 Hs1 Hc _; [|done]. cbn [id].
    apply (safe_bind reads). apply gather_reads; [exact Hc|done|]. intros files h2 Hs2 Hf _. apply safe_ret. intros l [= <-].
    exists r. split_and!; [by eapply called_mono| |].
    - unfold classifyPushPull. rewrite <- !list_fmap_compose. clear -Hf. induction Hf as [|p f ps fs (Hp & _) _ IH]; [done|]. csimpl. f_equal; [|exact IH].
      rewrite <- Hp. unfold classifyOne. by destruct direction.
    - unfold classifyPushPull. rewrite !Forall_fmap. clear -Hf. induction Hf as [|p f ps fs (Hp & Hsv & Hsd) _ IH]; constructor; [|exact IH].
      exists p, (f_local f). split; [exact Hsd|]. cbn. f_equal. f_equal. destruct f; cbn in *. by subst. }
  intros Hr. pose proof (wp_adequacy _ _ _ _ H h _ Hr) as Hw. destruct m' as [[[l|]|e]|[o| | | | | |] k]; try done. by apply Hw.
Qed.
(** A row that is shown as unchanged is: the file was read and hashes to what the
    server holds, or it is on neither side. *)
Lemma unchanged_is_proven h r p s :
  sideFound h (serverMap r) p s →
  op (classifyOne direction {| f_path := p; f_local := s; f_server := serverSide (serverMap r) p |}) = OpUnchanged →
  (∃ b m, called h (IoRead p) (Ok b) ∧ jget (serverMap r) p = Some m ∧ sha256hex b = Wire.hash m) ∨
  (jget local p = None ∧ jget (serverMap r) p = None).
Proof.
  unfold sideFound, serverSide, classifyOne. destruct (jget local p) as [st|] eqn:Hl.
  - destruct (comparable local (serverMap r) p) eqn:Hcmp.
    + unfold comparable in Hcmp. rewrite Hl in Hcmp. destruct (jget (serverMap r) p) as [m|] eqn:Hm; [|done].
      intros [(b & Hb & ->)|(e & He & ->)]; destruct direction; cbn; try done; (destruct (_ === _) eqn:Heq; [|done]); intros _; left; exists b, m;
        apply jeq_true in Heq; split_and!; congruence.
    + intros ->. destruct (jget (serverMap r) p) as [m|] eqn:Hm; destruct direction; done.
  - intros ->. destruct (jget (serverMap r) p) as [m|] eqn:Hm; [|by right]. destruct direction; done.
Qed.
(** A file too large for its difference is not fetched. *)
Lemma large_diff_not_loaded server p :
  (DIFF_CAP < default 0 (st_size <$> jget local p))%Z ∨ (DIFF_CAP < default 0 (Wire.size <$> jget server p))%Z →
  loadDiff local server direction p = mret' TooLarge.
Proof. intros Hd. unfold loadDiff. rewrite (proj2 (Z.ltb_lt _ _)); [done|lia]. Qed.
End Pluginpreview.

(** ** Concrete runs *)
Definition at_ (f : jstr) : jstr := js ".obsidian/plugins/dv/" ++ f.
Definition pluginWorld : Demo.World := {|
  Demo.files := [(at_ (js "main.js"), js "code"); (at_ (js "data.json"), js "longer"); (at_ (js "new.css"), js "x")];
  Demo.server := Demo.changes_of [Demo.meta (at_ (js "main.js")) (js "code") 1; Demo.meta (at_ (js "data.json")) (js "short") 2;
                                  Demo.meta (at_ (js "old.js")) (js "y") 3] [] 3;
  Demo.blobs := [(Demo.sha (js "short"), js "short")] |}.
Definition found : list (jstr * Stat) := (λ e, (e.1, {| st_size := len e.2; st_mtime := 0 |})) <$> Demo.files pluginWorld.
(** The same vault, with one file that cannot be read. *)
Definition lockedWorld (p : jstr) (w : Demo.World) (o : Op) : Ans o * Demo.World :=
  match o return Ans o * Demo.World with
  | IoRead q => if q === p then (Throw Demo.enoent, w) else Demo.world w (IoRead q)
  | o => Demo.world w o
  end.
Definition preview (world : Demo.World → ∀ o, Ans o * Demo.World) (d : PushDirection) : list (jstr * PushPullOp) :=
  match (run world Demo.greedy (pluginPushPullPreview Demo.sha true (js "selfsync") found (js "dv") d) (Demo.start pluginWorld [])).1 with
  | Ok (Some l) => (λ v, (drop 21 (path (change v)), op (change v))) <$> l
  | _ => []
  end.
Example preview_runs :
  preview Demo.world DPush = [(js "data.json", OpOverwrite); (js "main.js", OpUnchanged); (js "new.css", OpCreate); (js "old.js", OpDelete)] ∧
  preview Demo.world DPull = [(js "data.json", OpOverwrite); (js "main.js", OpUnchanged); (js "new.css", OpDelete); (js "old.js", OpCreate)].
Proof. vm_compute. done. Qed.
Example diff_runs :
  (run Demo.world Demo.greedy (loadDiff Demo.sha Demo.dec found (serverMap (Demo.server pluginWorld)) DPush (at_ (js "data.json"))) (Demo.start pluginWorld [])).1 =
    Ok (Lines [Del (js "short"); Add (js "longer")]).
Proof. vm_compute. done. Qed.

(** ** What modelling showed *)
(** The action a confirmed push takes for one file: the paths left on the server. *)
Definition afterPush (p : jstr) : list jstr :=
  Wire.path <$> Wire.upserts (Demo.server (cw (run (lockedWorld p) Demo.greedy
    (Pass.resolveConfigConflict id Demo.dec id id Demo.sha Demo.deps p Config.Local) (Demo.start pluginWorld [])).2)).
(** A file that cannot be read, of another size than the server's, is shown as
    overwritten; pushing it deletes it from the server. *)
Lemma unreadable_push_deletes :
  let p := at_ (js "data.json") in
  (js "data.json", OpOverwrite) ∈ preview (lockedWorld p) DPush ∧ afterPush p = [at_ (js "main.js"); at_ (js "old.js")].
Proof. split; [apply (bool_decide_unpack _); vm_compute; exact I|vm_compute; reflexivity]. Qed.
End Pluginpreview.
