(* ===== verification/Mountstate.v ===== *)
(** * Mountstate: the saved state of the mounts ([client/src/mountengine.ts])

    [parseMountState] reads the per-mount bases, cursors and floors back from the
    plugin's data.  A number keeps its text; the binary64 it denotes is an
    argument, and what is kept of it is that number. *)

From Stdlib Require Import SpecFloat.
From S2P Require Import Prelude Jsmap Json Settings Decide.

Module Mountstate.
Import Settings.

(** ** Numbers *)
Definition nonNegative (d : Decide.double) : bool := Decide.is_finite d && negb (SFltb d (S754_zero false)).
(** The integer a finite number is, where it is one. *)
Definition integerOf (d : Decide.double) : option Z :=
  match d with
  | S754_zero _ => Some 0%Z
  | S754_finite s m e =>
      let n := if s then Z.neg m else Z.pos m in
      if (0 <=? e)%Z then Some (n * 2 ^ e)%Z
      else if (n mod 2 ^ (- e) =? 0)%Z then Some (n / 2 ^ (- e))%Z else None
  | _ => None
  end.
Definition MAX_SAFE_INTEGER : Z := 9007199254740991.

(** ** What is kept *)
Record Entry := { hash : jstr; text : option jstr; size : option Decide.double; mtime : option Decide.double }.
Record MountSaved := { base : list (jstr * Entry); version : Decide.double; historyFloor : option Z }.

Section Mountstate.
Context (numberOf : jstr → Decide.double).

(** [typeof v === "object"] of a truthy value. *)
Definition isObject (v : json) : bool := match v with JObj _ | JArr _ => true | _ => false end.
Definition number (v : option json) : option Decide.double := match v with Some (JNum raw) => Some (numberOf raw) | _ => None end.
Definition hint (v : option json) : option Decide.double :=
  match number v with Some d => if nonNegative d then Some d else None | None => None end.
Definition parseEntry (be : json) : option Entry :=
  if negb (isObject be) then None
  else
    let r := props (Some be) in
    match jget r (js "hash") with
    | Some (JStr h) =>
        Some {| hash := h; text := match jget r (js "text") with Some (JStr t) => Some t | _ => None end;
                size := hint (jget r (js "size")); mtime := hint (jget r (js "mtime")) |}
    | _ => None
    end.
Definition floorOf (v : option json) : option Z :=
  match number v ≫= integerOf with
  | Some n => if (1 <=? n)%Z && (n <=? MAX_SAFE_INTEGER)%Z then Some n else None
  | None => None
  end.
(** [out[k] = v]: the key [__proto__] sets no property. *)
Definition keyed {A} (f : json → option A) (o : Object) : list (jstr * A) :=
  omap (λ e, if e.1 === js "__proto__" then None else pair e.1 <$> f e.2) o.
Definition parseMount (v : json) : option MountSaved :=
  if negb (isObject v) then None
  else
    let e := props (Some v) in
    match hint (jget e (js "version")), jget e (js "base") with
    | Some version, Some b =>
        if isObject b then Some {| base := keyed parseEntry (props (Some b)); version := version; historyFloor := floorOf (jget e (js "historyFloor")) |}
        else None
    | _, _ => None
    end.
Definition parseMountState (raw : option json) : list (jstr * MountSaved) :=
  match raw with Some v => if isObject v then keyed parseMount (props (Some v)) else [] | None => [] end.

(** ** Hostile data does not reach the engine *)
Lemma hint_spec v d : hint v = Some d → nonNegative d = true ∧ ∃ raw, v = Some (JNum raw) ∧ d = numberOf raw.
Proof.
  unfold hint. destruct (number v) as [d'|] eqn:Hv; [|done]. destruct (nonNegative d') eqn:Hn; [|done]. intros [= <-]. split; [done|].
  destruct v as [[| |raw| | |]|]; try done. injection Hv as <-. by exists raw.
Qed.
Lemma keyed_spec {A} (f : json → option A) o k a :
  (k, a) ∈ keyed f o → k ≠ js "__proto__" ∧ ∃ v, (k, v) ∈ o ∧ f v = Some a.
Proof.
  unfold keyed. intros ([k' v] & Hin & Hf)%list_elem_of_omap. cbn [fst snd] in Hf. destruct (k' === js "__proto__") eqn:Hk; [done|].
  destruct (f v) as [x|] eqn:Hv; [|done]. injection Hf as <- <-. apply jeq_false in Hk. split; [done|]. by exists v.
Qed.
Lemma floor_spec v n : floorOf v = Some n → (1 <= n <= MAX_SAFE_INTEGER)%Z.
Proof.
  unfold floorOf. destruct (number v ≫= integerOf) as [x|]; [|done]. destruct (_ && _) eqn:Hb; [|done]. intros [= <-].
  apply andb_true_iff in Hb as [?%Z.leb_le ?%Z.leb_le]. done.
Qed.
Definition wellTyped (e : Entry) : Prop :=
  (∀ d, size e = Some d → nonNegative d = true) ∧ (∀ d, mtime e = Some d → nonNegative d = true).
(** Whatever was saved: a cursor that is kept is a finite number that is not
    negative, a floor an integer from one to the largest safe one, a size or time
    finite and not negative; and no path, hash or text is kept that the data did
    not hold as a string. *)
Theorem mount_state_hardened raw key s :
  (key, s) ∈ parseMountState raw →
  nonNegative (version s) = true ∧ (∀ n, historyFloor s = Some n → (1 <= n <= MAX_SAFE_INTEGER)%Z) ∧
  ∃ v b, (key, v) ∈ props raw ∧ jget (props (Some v)) (js "base") = Some b ∧
    ∀ p e, (p, e) ∈ base s → wellTyped e ∧ ∃ r, (p, r) ∈ props (Some b) ∧ jget (props (Some r)) (js "hash") = Some (JStr (hash e)) ∧
      ∀ t, text e = Some t → jget (props (Some r)) (js "text") = Some (JStr t).
Proof.
  unfold parseMountState. destruct raw as [raw|]; [|by intros ?%not_elem_of_nil]. destruct (isObject raw); [|by intros ?%not_elem_of_nil].
  intros (_ & v & Hv & Hs)%keyed_spec. unfold parseMount in Hs. destruct (negb (isObject v)); [done|].
  destruct (hint _) as [d|] eqn:Hh; [|done]. destruct (jget _ (js "base")) as [b|] eqn:Hb; [|done]. destruct (isObject b); [|done].
  injection Hs as <-. cbn [base version historyFloor]. split_and!; [by apply hint_spec in Hh as [? _]|by intros n ?%floor_spec|].
  exists v, b. split_and!; [done|done|]. intros p e (_ & r & Hr & He)%keyed_spec. unfold parseEntry in He.
  destruct (negb (isObject r)); [done|]. destruct (jget (props (Some r)) (js "hash")) as [[| | |hs| |]|] eqn:Hhash; try done.
  apply (inj Some) in He. subst e. cbn [hash text size mtime]. split; [split; intros d' Hd'; by apply hint_spec in Hd' as [? _]|]. exists r. split_and!; [done|done|].
  intros t. destruct (jget (props (Some r)) (js "text")) as [[| | |x| |]|]; try done. by intros [= ->].
Qed.

(** ** What was saved is read back *)
Context (printNumber : Decide.double → jstr) (number_back : ∀ d, nonNegative d = true → numberOf (printNumber d) = d).
Context (printInteger : Z → jstr) (integer_back : ∀ n, (1 <= n <= MAX_SAFE_INTEGER)%Z → integerOf (numberOf (printInteger n)) = Some n).
Definition optional {A} (k : string) (f : A → json) (o : option A) : Object := match o with Some a => [(js k, f a)] | None => [] end.
Definition entryJson (e : Entry) : json :=
  JObj ((js "hash", JStr (hash e)) :: optional "text" JStr (text e) ++ optional "size" (JNum ∘ printNumber) (size e)
        ++ optional "mtime" (JNum ∘ printNumber) (mtime e)).
Definition mountJson (s : MountSaved) : json :=
  JObj ((js "base", JObj ((λ e, (e.1, entryJson e.2)) <$> base s)) :: (js "version", JNum (printNumber (version s)))
        :: optional "historyFloor" (JNum ∘ printInteger) (historyFloor s)).
Definition stateJson (l : list (jstr * MountSaved)) : json := JObj ((λ e, (e.1, mountJson e.2)) <$> l).
Record kept (s : MountSaved) : Prop := {
  kept_version : nonNegative (version s) = true;
  kept_floor : ∀ n, historyFloor s = Some n → (1 <= n <= MAX_SAFE_INTEGER)%Z;
  kept_keys : jwf (base s) ∧ Forall (λ e, e.1 ≠ js "__proto__" ∧ wellTyped e.2) (base s)
}.
Lemma hint_back d : nonNegative d = true → hint (Some (JNum (printNumber d))) = Some d.
Proof using number_back. intros Hd. unfold hint. cbn. by rewrite number_back, Hd. Qed.
Lemma entry_back e : wellTyped e → parseEntry (entryJson e) = Some e.
Proof using number_back.
  intros [Hs Hm]. destruct e as [h t sz mt]. cbn in Hs, Hm. unfold parseEntry, entryJson. cbn [isObject negb hash text size mtime].
  destruct t as [t|], sz as [sz|], mt as [mt|]; cbn [optional app]; lazy -[hint]; rewrite ?hint_back by auto; done.
Qed.
Lemma keyed_back {A} (f : json → option A) (g : A → json) (l : list (jstr * A)) :
  jwf l → Forall (λ e, e.1 ≠ js "__proto__" ∧ f (g e.2) = Some e.2) l → keyed f (props (Some (JObj ((λ e, (e.1, g e.2)) <$> l)))) = l.
Proof.
  intros Hwf Hl. cbn [props]. rewrite jof_id.
  2: { unfold jwf, jkeys in *. rewrite <- list_fmap_compose. exact Hwf. }
  unfold keyed. clear Hwf. induction Hl as [|[k a] l [Hk Hf] _ IH]; [done|]. cbn [fst snd] in *. csimpl. rewrite (proj2 (jeq_false _ _) Hk), Hf. cbn. f_equal. exact IH.
Qed.
(** What a device saves is read back as it was, entry for entry. *)
Theorem mount_state_roundtrip l :
  jwf l → Forall (λ e, e.1 ≠ js "__proto__" ∧ kept e.2) l → parseMountState (Some (stateJson l)) = l.
Proof using number_back integer_back.
  intros Hwf Hl. unfold parseMountState. cbn [isObject stateJson]. apply keyed_back; [done|].
  eapply Forall_impl; [exact Hl|]. intros [k s] [Hk [Hv Hf [Hb Hes]]]. cbn [fst snd] in *. split; [done|].
  destruct s as [b v fl]. cbn [base version historyFloor] in *. set (bj := JObj ((λ e, (e.1, entryJson e.2)) <$> b)).
  assert (Hbase : keyed parseEntry (props (Some bj)) = b).
  { apply keyed_back; [done|]. eapply Forall_impl; [exact Hes|]. intros [p e] [Hp He]. split; [done|by apply entry_back]. }
  unfold parseMount. set (o := props (Some (mountJson _))). change (isObject (mountJson _)) with true. cbn [negb].
  assert (jget o (js "version") = Some (JNum (printNumber v)) ∧ jget o (js "base") = Some bj ∧ jget o (js "historyFloor") = (JNum ∘ printInteger) <$> fl)
    as (-> & -> & ->) by (subst o; destruct fl; split_and!; reflexivity).
  rewrite hint_back by done. change (isObject bj) with true. cbn iota. rewrite Hbase. f_equal. f_equal.
  destruct fl as [n|]; [|done]. unfold floorOf, number. cbn [fmap option_fmap option_map mbind option_bind compose]. rewrite integer_back by auto.
  destruct (Hf n eq_refl) as [H1 H2]. by rewrite (proj2 (Z.leb_le _ _) H1), (proj2 (Z.leb_le _ _) H2).
Qed.
End Mountstate.
(** A damaged entry is dropped, a damaged field of a good one as well. *)
Definition decimal (raw : jstr) : Decide.double := Decide.dbl (Z.of_N (digitsValue raw)).
Example damaged_state_is_mended :
  let entry := JObj [(js "hash", JStr (js "h")); (js "size", JStr (js "x")); (js "mtime", JNum (js "5"))] in
  let saved v := JObj [(js "base", JObj [(js "a.md", entry); (js "b.md", JNum (js "3"))]); (js "version", v); (js "historyFloor", JNum (js "0"))] in
  parseMountState decimal (Some (JObj [(js "k", saved (JNum (js "7"))); (js "l", saved (JStr (js "7")))])) =
    [(js "k", {| base := [(js "a.md", {| hash := js "h"; text := None; size := None; mtime := Some (Decide.dbl 5) |})];
                 version := Decide.dbl 7; historyFloor := None |})].
Proof. vm_compute. done. Qed.
End Mountstate.
