(* ===== verification/Reports.v ===== *)
(** * Reports: what the user and the log are told, and what the device is called
    ([client/src/main.ts], [devicename.ts])

    The log's ring, the reports of a burst, the notices shown once, the words for
    the state of the plugin, the label of a pass, and the device's name and size
    limit.  Where a report is a sentence, its parts are kept. *)

From S2P Require Import Prelude Jsmap Connstate Foreigntools Configsync Paths.

Module Reports.
Import Conn.

(** ** The log's ring *)
Definition log (line : jstr) (logs : list jstr) : list jstr :=
  let l := logs ++ [line] in if 500 <? length l then tail l else l.
Lemma log_cases x logs :
  length logs ≤ 500 →
  log x logs = logs ++ [x] ∧ length (logs ++ [x]) ≤ 500 ∨
  ∃ y rest, logs = y :: rest ∧ log x logs = rest ++ [x] ∧ length (rest ++ [x]) = 500.
Proof.
  intros Hl. unfold log. destruct (500 <? length (logs ++ [x])) eqn:Hb; [apply Nat.ltb_lt in Hb|apply Nat.ltb_ge in Hb; by left].
  right. rewrite length_app in Hb. cbn in Hb. destruct logs as [|y rest]; [cbn in Hb; lia|]. exists y, rest. split_and!; [done|done|].
  rewrite length_app. cbn in *. lia.
Qed.
(** It keeps the latest five hundred lines, in order. *)
Theorem log_keeps_latest lines logs :
  length logs ≤ 500 →
  let l := foldl (λ l x, log x l) logs lines in length l ≤ 500 ∧ ∃ dropped, logs ++ lines = dropped ++ l ∧ (dropped ≠ [] → length l = 500).
Proof.
  revert logs. induction lines as [|x lines IH]; intros logs Hl; cbv zeta.
  { split; [done|]. exists []. by rewrite app_nil_r. }
  cbn [foldl]. destruct (log_cases x logs Hl) as [(-> & Hx)|(y & rest & -> & -> & Hx)].
  - destruct (IH (logs ++ [x]) Hx) as (H1 & dropped & H2 & H3). split; [done|]. exists dropped. split; [|done].
    by rewrite <- H2, <- app_assoc.
  - destruct (IH (rest ++ [x])) as (H1 & dropped & H2 & H3); [lia|]. split; [done|].
    exists (y :: dropped). split; [cbn; f_equal; by rewrite <- H2, <- app_assoc|]. intros _. destruct dropped as [|z dropped]; [|by apply H3].
    apply (f_equal length) in H2. rewrite !length_app in H2. rewrite length_app in Hx. cbn in *. lia.
Qed.

(** ** Bursts: counted, and reported once the timer fires *)
Record Burst := { count : nat; armed : bool; example : option jstr }.
Definition noBurst : Burst := {| count := 0; armed := false; example := None |}.
(** [notePushHeld], [noteFlipHeld], [notePathAliased]: the first example is kept. *)
Definition note (ex : jstr) (b : Burst) : Burst :=
  {| count := S (count b); armed := true; example := match example b with Some e => Some e | None => Some ex end |}.
Definition fires (unloading : bool) (b : Burst) : Burst * option (nat * option jstr) :=
  (noBurst, if (0 <? count b) && negb unloading then Some (count b, example b) else None).
Inductive BurstEvent := Noted (ex : jstr) | Fired.
Fixpoint burstRun (es : list BurstEvent) (b : Burst) : Burst * list nat :=
  match es with
  | [] => (b, [])
  | Noted ex :: es => burstRun es (note ex b)
  | Fired :: es =>
      if armed b then
        let '(b', r) := fires false b in let '(b'', rs) := burstRun es b' in
        (b'', match r with Some (n, _) => n :: rs | None => rs end)
      else burstRun es b
  end.
Definition noted (es : list BurstEvent) : nat := length (List.filter (λ e, if e is Noted _ then true else false) es).
(** Every one is reported once: what was noted is what was reported and what an
    armed timer will still report. *)
Theorem bursts_lose_none es b :
  (0 < count b → armed b = true) →
  let '(b', rs) := burstRun es b in (0 < count b' → armed b' = true) ∧ count b + noted es = sum_list rs + count b' ∧ Forall (λ n, 0 < n) rs.
Proof.
  revert b. induction es as [|[ex|] es IH]; intros b Hb; cbn [burstRun noted List.filter length].
  - split_and!; [done|cbn; lia|constructor].
  - specialize (IH (note ex b) ltac:(done)). destruct (burstRun es (note ex b)) as [b' rs]. destruct IH as (? & Hc & ?). unfold noted in *. cbn in *. split_and!; [done|lia|done].
  - destruct (armed b) eqn:Ha; [|by apply IH; rewrite Ha]. cbn [fires]. specialize (IH noBurst ltac:(cbn; lia)). destruct (burstRun es noBurst) as [b' rs].
    destruct IH as (H1 & H2 & H3). unfold noted in *. cbn in H2. rewrite andb_true_r. destruct (0 <? count b) eqn:Hc; [apply Nat.ltb_lt in Hc|apply Nat.ltb_ge in Hc];
      (split_and!; [done|cbn; lia|]); [by constructor|done].
Qed.

(** ** Notices shown once *)
(** The same violation, whatever the order of its spellings, is shown once. *)
Definition joinBar (l : list jstr) : jstr := match l with [] => [] | x :: l => foldl (λ acc y, acc ++ 124%N :: y) x l end.
Definition notePathViolation (kind : jstr) (paths : list jstr) (shown : list jstr) : list jstr * bool :=
  let key := kind ++ 124%N :: joinBar (jsort paths) in
  if bool_decide (key ∈ shown) then (shown, false) else (shown ++ [key], true).
Record Declined := { declinedSig : jstr; foreignOnServerSig : jstr }.
Inductive DeclinedNews := ForeignOnServer (n : nat) (example : option jstr) | NotSynced (plugins files : nat).
Definition noteDeclined (all : list jstr) (d : Declined) : Declined * list DeclinedNews :=
  let foreign := filter (λ p, Foreign.isForeignArtefact p = true) all in
  let paths := filter (λ p, Foreign.isForeignArtefact p = false) all in
  let fsig := joinBar (jsort foreign) in
  let news := if fsig === foreignOnServerSig d then [] else match foreign with [] => [] | p :: _ => [ForeignOnServer (length foreign) (Some p)] end in
  let d := {| declinedSig := declinedSig d; foreignOnServerSig := fsig |} in
  match paths with
  | [] => (d, news)
  | _ =>
      let plugins := dedup (filter (λ i, truthy i = true) (omap Config.pluginIdOf paths)) in
      let files := length (List.filter (λ p, negb (otruthy (Config.pluginIdOf p))) paths) in
      let sig := joinBar (jsort plugins) ++ (if files =? 0 then [] else js "#cfg") in
      if sig === declinedSig d then (d, news)
      else ({| declinedSig := sig; foreignOnServerSig := fsig |}, news ++ [NotSynced (length plugins) files])
  end.
(** The same files are reported once, however often a pass finds them. *)
Theorem declined_once all d : let d' := (noteDeclined all d).1 in noteDeclined all d' = (d', []).
Proof.
  cbv zeta. unfold noteDeclined. set (fsig := joinBar _). set (news := if _ === _ then _ else _).
  assert (Hj : ∀ s : jstr, (s === s) = true) by (intros s; by apply jeq_true).
  destruct (filter (λ p, Foreign.isForeignArtefact p = false) all) as [|p l]; cbn [fst declinedSig foreignOnServerSig]; [by rewrite Hj|].
  set (sig := joinBar _ ++ _). destruct (sig === declinedSig d) eqn:Hs; cbn [fst declinedSig foreignOnServerSig]; rewrite Hj; [by rewrite Hs|by rewrite Hj].
Qed.

(** ** Where a change came from *)
Definition Row : Type := option jstr * option jstr. (** deviceId, deviceName *)
Definition isForeign (own : jstr) (r : Row) : bool := match r.1 with Some d => negb (d === own) | None => true end.
Definition rowName (r : Row) : option jstr :=
  let n := match r.2 with Some n => Some n | None => match r.1 with Some d => if truthy d then Some (take 8 d) else None | None => None end end in
  if otruthy n then n else None.
Definition joinList (l : list jstr) : jstr := match l with [] => [] | x :: l => foldl (λ acc y, acc ++ js ", " ++ y) x l end.
Definition passProvenanceLabel (upserts deletes : list Row) (ownDeviceId : jstr) : jstr :=
  let rows := upserts ++ deletes in
  let foreign := filter (λ r, isForeign ownDeviceId r = true) rows in
  if (0 <? length rows) && (length foreign =? 0) then js "own changes acknowledged by the server"
  else
    let names := dedup (omap rowName foreign) in
    let who := if 0 <? length names then js "from " ++ joinList names else js "(unknown device)" in
    let own := if length foreign <? length rows then js " plus own changes acknowledged" else [] in
    js "remote change " ++ who ++ own ++ [32; 8594; 32]%N ++ js "reconciled".
(** A pass is called this device's own only when every change was; and a change
    of no known device is never called its own. *)
Theorem label_is_honest upserts deletes own :
  passProvenanceLabel upserts deletes own = js "own changes acknowledged by the server" ↔
  upserts ++ deletes ≠ [] ∧ Forall (λ r, r.1 = Some own) (upserts ++ deletes).
Proof.
  unfold passProvenanceLabel. set (rows := upserts ++ deletes). set (foreign := filter _ rows).
  assert (Hf : foreign = [] ↔ Forall (λ r : Row, r.1 = Some own) rows).
  { subst foreign. clearbody rows. induction rows as [|r rows IH]; [by split; [constructor|]|]. rewrite filter_cons, Forall_cons, <- IH.
    destruct (isForeign own r) eqn:Hr.
    - rewrite decide_True by done. split; [done|]. intros [Hs _]. unfold isForeign in Hr. rewrite Hs in Hr. apply negb_true_iff, jeq_false in Hr. done.
    - rewrite decide_False by done. unfold isForeign in Hr. destruct r as [[d|] n]; cbn [fst] in *; [|done]. apply negb_false_iff, jeq_true in Hr. naive_solver. }
  destruct ((0 <? length rows) && _) eqn:Hb.
  - apply andb_true_iff in Hb as [Hr%Nat.ltb_lt He%Nat.eqb_eq]. apply nil_length_inv in He. split; [|done]. intros _. split; [|by apply Hf].
    intros Hz. rewrite Hz in Hr. cbn in Hr. lia.
  - split; [by intros [=]|]. intros [Hne Hall%Hf]. rewrite Hall in Hb. destruct rows; [done|]. done.
Qed.

(** ** The words for the state *)
Definition dots : jstr := [8230]%N.
Record Shown := { readOnly : bool; realtime : bool; connectStage : jstr; syncPending : nat; localWork : nat; claims : jstr; link : LinkState }.
Definition pendingText (n : nat) : jstr := num_str (N.of_nat n) ++ js " pending".
Definition syncProgressText (s : Shown) : jstr := if 0 <? syncPending s then pendingText (syncPending s) else [].
Definition statusDisplay (phase : Phase) (s : Shown) : string * jstr :=
  match phase with
  | PSyncing => ("Syncing…"%string, if 0 <? syncPending s then pendingText (syncPending s) else claims s)
  | PIdle => if readOnly s then ("Synced (read-only)"%string, js "your edits stay on this device")
             else (if realtime s then "Fully synced"%string else "Synced (polling)"%string, [])
  | PConnecting => ("Connecting…"%string, connectStage s)
  | PRetrying => ("Reconnecting…"%string, [])
  | PLockedOut | PBlocked => ((linkPhase (link s)).2, [])
  | POff => ("Not connected"%string, [])
  end.
Definition pendingWork (s : Shown) : nat := syncPending s + localWork s.
Record BusyState := { busy : bool; label : jstr; reason : jstr }.
Definition busyState (phase : Phase) (s : Shown) : BusyState :=
  match phase with
  | PConnecting => {| busy := true; label := js "Analyzing files" ++ dots;
                      reason := js "SelfSync is connecting" ++ (if truthy (connectStage s) then [32; 8212; 32]%N ++ connectStage s else []) |}
  | PSyncing =>
      if 0 <? pendingWork s then
        {| busy := true; label := js "Syncing" ++ dots;
           reason := if 0 <? syncPending s then js "SelfSync is syncing" ++ [32; 8212; 32]%N ++ pendingText (syncPending s) else js "SelfSync is syncing your latest edit" |}
      else {| busy := true; label := js "Analyzing files" ++ dots; reason := js "SelfSync is checking your files for changes" |}
  | _ => {| busy := false; label := []; reason := [] |}
  end.
(** [gateButtons]: a button wears the state while busy, and the label it had
    when it was first seen otherwise. *)
Record Button := { buttonText : jstr; disabled : bool; tooltip : option jstr }.
Definition refresh (s : BusyState) (b : Button * option jstr) : Button * option jstr :=
  let own := match b.2 with Some l => l | None => buttonText b.1 end in
  (if busy s then {| buttonText := label s; disabled := true; tooltip := Some (reason s) |}
   else {| buttonText := own; disabled := false; tooltip := None |}, Some own).
(** Whatever states it went through, a button is disabled exactly while busy,
    never shows a state that is over, and gets its label back. *)
Theorem gate_returns_label b states s :
  let b' := (foldl (λ b s, refresh s b) (b, None) (states ++ [s])).1 in
  disabled b' = busy s ∧ buttonText b' = if busy s then label s else buttonText b.
Proof.
  cbv zeta. rewrite foldl_app. cbn [foldl].
  assert (Hinv : let p := foldl (λ b s, refresh s b) (b, None) states in p.2 = Some (buttonText b) ∨ p = (b, None)).
  { cbv zeta. induction states as [|x l IH] using rev_ind; [by right|]. left. rewrite foldl_app. cbn [foldl].
    destruct (foldl _ _ l) as [b1 o]. unfold refresh. cbn [fst snd] in *. destruct IH as [->|[= -> ->]]; done. }
  cbv zeta in Hinv. destruct (foldl _ _ states) as [b1 o]. unfold refresh. cbn [fst snd] in *.
  destruct Hinv as [->|[= -> ->]]; destruct (busy s); done.
Qed.
(** "Fully synced" is said of nothing but an idle vault that may be written and
    is told of changes at once. *)
Theorem fully_synced_means_it phase s :
  (statusDisplay phase s).1 = "Fully synced"%string ↔ phase = PIdle ∧ readOnly s = false ∧ realtime s = true.
Proof.
  assert (Hl : (linkPhase (link s)).2 ≠ "Fully synced"%string).
  { destruct (link s) as [|[]|[]]; cbn [linkPhase blockedTip snd]; try (by intros [=]); destruct reason0; by intros [=]. }
  split.
  - destruct phase; cbn [statusDisplay fst]; try (by intros [=]); try done.
    destruct (readOnly s); [by intros [=]|]. destruct (realtime s); [done|by intros [=]].
  - intros (-> & Hr & Hc). cbn. by rewrite Hr, Hc.
Qed.
(** The light's projection and the gate agree with the engine: a surface is gated
    exactly while the engine connects or runs a pass. *)
Lemma busy_exactly phase s : busy (busyState phase s) = true ↔ phase = PConnecting ∨ phase = PSyncing.
Proof. destruct phase; cbn [busyState]; try case_match; cbn; naive_solver. Qed.
End Reports.
