(* ===== verification/Device.v ===== *)
(** * Device: what this device is called and known as ([client/src/devicename.ts],
    [main.ts])

    The name used where none is set, from the model or the platform, and the
    identifier.  What the browser reports is an argument. *)

From S2P Require Import Prelude Regex Base Chunker.

Module Device.

(** ** Cleaning *)
(** [s.replace(/p+/g, " ")]: every run becomes one space. *)
Fixpoint collapse (p : N → bool) (inRun : bool) (s : jstr) : jstr :=
  match s with
  | [] => []
  | c :: s => if p c then (if inRun then [] else [cSpace]) ++ collapse p true s else c :: collapse p false s
  end.
Definition nameUnit (c : N) : bool := is_alpha c || is_digit c || bool_decide (c = cSpace).
Definition cleanDeviceName (s : jstr) : jstr :=
  take 24 (trim (collapse is_ws false (collapse (λ c, negb (nameUnit c)) false s))).
Definition usableModel (raw : option jstr) : option jstr :=
  match raw with
  | None => None
  | Some raw =>
      if negb (truthy raw) then None
      else
        let model := cleanDeviceName raw in
        if (length model <=? 2) || (lower model === js "k") then None else Some model
  end.

(** ** The model in a user agent: [/Android[^;]*;\s*([^;)]+?)\s*(?:Build\/|\))/i] *)
Definition isPrefixI (p s : jstr) : bool := starts_with (lower s) p.
Definition endsHere (s : jstr) : bool :=
  let r := trim_start s in isPrefixI (js "build/") r || starts_with r (js ")").
(** The shortest group from here, [n] units of it taken. *)
Fixpoint lazyGroup (fuel n : nat) (s : jstr) : option jstr :=
  match fuel with
  | 0 => None
  | S fuel =>
      match drop n s with
      | [] => None
      | c :: r => if bool_decide (c = 59 ∨ c = 41)%N then None else if endsHere r then Some (take (S n) s) else lazyGroup fuel (S n) s
      end
  end.
(** [\s*] gives back one unit at a time. *)
Fixpoint groupAfter (ws : nat) (s : jstr) : option jstr :=
  match lazyGroup (S (length s)) 0 (drop ws s), ws with
  | Some g, _ => Some g
  | None, S ws => groupAfter ws s
  | None, 0 => None
  end.
Definition androidHere (s : jstr) : option jstr :=
  if isPrefixI (js "android") s then
    match index_of 59 (drop 7 s) with
    | Some i => let s := drop (7 + S i) s in groupAfter (length s - length (trim_start s)) s
    | None => None
    end
  else None.
Fixpoint androidMatch (s : jstr) : option jstr :=
  match androidHere s, s with Some g, _ => Some g | None, _ :: s => androidMatch s | None, [] => None end.
Definition androidModelFromUA (ua : jstr) : option jstr := androidMatch ua ≫= λ m, usableModel (Some m).

(** ** Architecture tokens *)
Definition wordUnit (c : N) : bool := is_alpha c || is_digit c || bool_decide (c = 95%N).
Definition atEnd (s : jstr) : bool := match s with c :: _ => negb (wordUnit c) | [] => true end.
Definition literals : list jstr := [js "x86_64"; js "x86-64"; js "x8664"; js "x86"; js "amd64"; js "x64"; js "i386"; js "i686"; js "wow64"].
(** The length of the token at the start of a word, in the order of the alternatives. *)
Definition archHere (s : jstr) : option nat :=
  let lit t := if isPrefixI t s && atEnd (drop (length t) s) then Some (length t) else None in
  match lit (js "aarch64") with
  | Some n => Some n
  | None =>
      if isPrefixI (js "arm") s then Some (length s - length (drop_while wordUnit s))
      else head (omap lit literals)
  end.
(** [replace(ARCH_TOKENS, " ")]: [skip] units of a token are still to be passed,
    [inWord] tells whether the unit before is one of a word. *)
Fixpoint dropArch (skip : nat) (inWord : bool) (s : jstr) : jstr :=
  match s with
  | [] => []
  | c :: r =>
      match skip with
      | S skip => dropArch skip true r
      | 0 =>
          match (if negb inWord && wordUnit c then archHere s else None) with
          | Some n => cSpace :: dropArch (pred n) true r
          | None => c :: dropArch 0 (wordUnit c) r
          end
      end
  end.
Definition platformDisplayName (platform : jstr) : jstr := cleanDeviceName (dropArch 0 false platform).

(** ** The name of the device *)
Record Host := { hints : option jstr; userAgent : jstr; isIosApp : bool; isPhone : bool; isAndroidApp : bool;
                 isMacOS : bool; isWin : bool; isLinux : bool; platform : jstr }.
Definition resolveUaChModel (h : Host) : option jstr := usableModel (hints h).
(** [resolved]: whether the answer to the hints is there yet. *)
Definition autoDeviceName (resolved : bool) (h : Host) : jstr :=
  match (if resolved then resolveUaChModel h else None), androidModelFromUA (userAgent h) with
  | Some m, _ => m
  | None, Some m => m
  | None, None =>
      if isIosApp h then (if isPhone h then js "iPhone" else js "iPad")
      else if isAndroidApp h then js "Android"
      else if isMacOS h then js "Mac"
      else if isWin h then js "Windows"
      else if isLinux h then js "Linux"
      else let n := platformDisplayName (platform h) in if truthy n then n else js "device"
  end.
Definition deviceLabel (deviceName : jstr) (resolved : bool) (h : Host) : jstr :=
  if truthy deviceName then deviceName else autoDeviceName resolved h.

Example names :
  androidModelFromUA (js "Mozilla/5.0 (Linux; Android 15; Pixel 9 Build/AP4A) AppleWebKit") = Some (js "Pixel 9") ∧
  androidModelFromUA (js "Mozilla/5.0 (Linux; Android 10; K) AppleWebKit") = None ∧
  androidModelFromUA (js "Mozilla/5.0 (X11; Linux x86_64)") = None ∧
  platformDisplayName (js "Linux aarch64") = js "Linux" ∧ platformDisplayName (js "Linux x86_64") = js "Linux" ∧
  platformDisplayName (js "Linux armv8l") = js "Linux" ∧ platformDisplayName (js "MacIntel") = js "MacIntel" ∧ platformDisplayName (js "x86_64") = [].
Proof. vm_compute. done. Qed.

(** ** Names are safe *)
Lemma collapse_units (p q : N → bool) b s :
  q cSpace = true → (∀ c, p c = false → q c = true) → Forall (λ c, q c = true) (collapse p b s).
Proof.
  intros Hsp Hq. revert b. induction s as [|c s IH]; intros b; [constructor|]. cbn [collapse].
  destruct (p c) eqn:Hp; [|constructor; [by apply Hq|done]]. apply Forall_app. split; [|done]. destruct b; repeat constructor; done.
Qed.
Lemma collapse_keeps (p q : N → bool) b s : q cSpace = true → Forall (λ c, q c = true) s → Forall (λ c, q c = true) (collapse p b s).
Proof.
  intros Hsp. revert b. induction s as [|c s IH]; intros b Hs; [constructor|]. apply Forall_cons in Hs as [Hc Hs]. cbn [collapse].
  destruct (p c); [|constructor; [done|by apply IH]]. apply Forall_app. split; [|by apply IH]. destruct b; repeat constructor; done.
Qed.
Lemma drop_while_suffix {A} (f : A → bool) l : drop_while f l `suffix_of` l.
Proof. induction l as [|x l IH]; cbn [drop_while]; [done|]. destruct (f x); [by apply suffix_cons_r|done]. Qed.
Lemma trim_units c s : c ∈ trim s → c ∈ s.
Proof.
  unfold trim, trim_end, trim_start. rewrite elem_of_reverse. intros Hc.
  eapply elem_of_suffix in Hc; [|apply drop_while_suffix]. rewrite elem_of_reverse in Hc.
  by eapply elem_of_suffix in Hc; [|apply drop_while_suffix].
Qed.
(** A cleaned name is short and made of letters, digits and spaces. *)
Lemma clean_units s : Forall (λ c, nameUnit c = true) (cleanDeviceName s) ∧ length (cleanDeviceName s) ≤ 24.
Proof.
  split; [|unfold cleanDeviceName; rewrite length_take; lia]. apply Forall_take, Forall_forall. intros c Hc%trim_units. revert c Hc.
  apply Forall_forall, collapse_keeps; [done|]. apply collapse_units; [done|]. intros c. by destruct (nameUnit c).
Qed.
Lemma usable_units raw m : usableModel raw = Some m → Forall (λ c, nameUnit c = true) m ∧ 2 < length m ≤ 24.
Proof.
  unfold usableModel. destruct raw as [raw|]; [|done]. destruct (truthy raw); [cbn [negb]|done]. destruct (clean_units raw) as [Hu Hl].
  destruct (length (cleanDeviceName raw) <=? 2) eqn:Hb; [done|]. cbn [orb]. destruct (_ === _); [done|]. intros [= <-].
  apply Nat.leb_gt in Hb. split; [done|lia].
Qed.
Lemma auto_units resolved h : autoDeviceName resolved h ≠ [] ∧ Forall (λ c, nameUnit c = true) (autoDeviceName resolved h).
Proof.
  assert (Hm : ∀ raw m, usableModel raw = Some m → m ≠ [] ∧ Forall (λ c, nameUnit c = true) m).
  { intros raw m [Hu Hl]%usable_units. split; [|done]. intros ->. cbn in Hl. lia. }
  unfold autoDeviceName. destruct (if resolved then _ else _) as [m|] eqn:Hr.
  { destruct resolved; [|done]. by eapply Hm. }
  destruct (androidModelFromUA _) as [m|] eqn:Ha.
  { unfold androidModelFromUA in Ha. destruct (androidMatch _); [|done]. by eapply Hm. }
  assert (Hlit : ∀ s : jstr, s ≠ [] → forallb nameUnit s = true → s ≠ [] ∧ Forall (λ c, nameUnit c = true) s).
  { intros s Hs Hf. split; [done|]. apply Forall_forall. intros c Hc. rewrite forallb_forall in Hf. apply Hf. by apply list_elem_of_In. }
  destruct (isIosApp h); [destruct (isPhone h); by apply Hlit|]. destruct (isAndroidApp h); [by apply Hlit|].
  destruct (isMacOS h); [by apply Hlit|]. destruct (isWin h); [by apply Hlit|]. destruct (isLinux h); [by apply Hlit|].
  destruct (truthy _) eqn:Hn; [|by apply Hlit].
  split; [by apply truthy_true|]. apply clean_units.
Qed.
(** Where no name is set, every conflict copy is recognised as one and traced back
    to its note, whatever the browser reports of the device. *)
Theorem automatic_names_trace path resolved h w tag :
  Forall (λ c, Regex.not_eol c = true) (Store.splitPath path).1.2 → Store.date_ok w → Forall (λ c, Store.isAlnum c = true) tag →
  Store.originalOfConflictCopy (Store.conflictCopyName path (deviceLabel [] resolved h) w tag) = Some path.
Proof.
  intros Hs Hw Ht. apply Store.conflict_copy_roundtrip; [|done..]. intros dir stem ext He. rewrite He in Hs. split; [done|].
  destruct (auto_units resolved h) as [Hne Hu]. change (deviceLabel [] resolved h) with (autoDeviceName resolved h).
  assert (Hno : ∀ c, nameUnit c = false → c ∉ autoDeviceName resolved h).
  { intros c Hc Hin. rewrite Forall_forall in Hu. apply Hu in Hin. congruence. }
  split_and!; [done| |by apply Hno..|intros _; by apply Hno].
  eapply Forall_impl; [exact Hu|]. intros c Hc. unfold Regex.not_eol. apply bool_decide_eq_true_2. intros Hin.
  repeat (apply elem_of_cons in Hin as [->|Hin]; [done|]). by apply elem_of_nil in Hin.
Qed.
Lemma automatic_names_trace_witness :
  let h := {| hints := Some (js "SM-G991B (EU)"); userAgent := []; isIosApp := false; isPhone := false; isAndroidApp := true;
              isMacOS := false; isWin := false; isLinux := false; platform := [] |} in
  let w := {| Store.year := 2026; Store.month := 9; Store.day := 7; Store.hours := 8; Store.minutes := 5; Store.seconds := 59 |} in
  deviceLabel [] true h = js "SM G991B EU" ∧
  Store.originalOfConflictCopy (Store.conflictCopyName (js "a/README") (deviceLabel [] true h) w (js "a1")) = Some (js "a/README").
Proof.
  cbv zeta. split; [vm_compute; reflexivity|]. apply automatic_names_trace.
  - apply Forall_forall. intros c Hc. vm_compute in Hc. vm_compute. set_solver.
  - unfold Store.date_ok. simpl. lia.
  - apply Forall_forall. intros c Hc. vm_compute in Hc. set_solver.
Defined.
(** No name a user agent gives is an architecture, or the placeholder of browsers
    that hide the model: a desktop has no model at all. *)
Lemma desktop_has_no_model ua : includes (lower ua) (js "android") = false → androidModelFromUA ua = None.
Proof.
  unfold androidModelFromUA. intros H. assert (androidMatch ua = None) as ->; [|done]. revert H. induction ua as [|c ua IH]; [done|].
  change (lower (c :: ua)) with (lower_unit c :: lower ua). cbn [includes]. intros [H1 H2]%orb_false_iff. cbn [androidMatch].
  unfold androidHere, isPrefixI. change (lower (c :: ua)) with (lower_unit c :: lower ua). rewrite H1. by apply IH.
Qed.

(** ** The identifier *)
(** The version and the variant. *)
Definition version (x : N) : N := N.lor (N.land x 15) 64.
Definition variant (x : N) : N := N.lor (N.land x 63) 128.
(** From sixteen random bytes. *)
Definition uuidOf (b : list N) : jstr :=
  let b := alter version 6 b in
  let b := alter variant 8 b in
  let h := Chunker.Cdc.toHex b in
  take 8 h ++ js "-" ++ take 4 (drop 8 h) ++ js "-" ++ take 4 (drop 12 h) ++ js "-" ++ take 4 (drop 16 h) ++ js "-" ++ drop 20 h.
Definition hexUnit (c : N) : bool := is_digit c || bool_decide (97 ≤ c ∧ c ≤ 102)%N.
Definition allHex (n : nat) (s : jstr) : Prop := length s = n ∧ Forall (λ c, hexUnit c = true) s.
Lemma hex_units b : (b < 256)%N → allHex 2 (Chunker.Cdc.HEX b).
Proof.
  intros Hb. split; [done|]. assert (Hd : ∀ d, (d < 16)%N → hexUnit (Chunker.Cdc.hexDigit d) = true).
  { intros d Hd. unfold Chunker.Cdc.hexDigit, hexUnit, is_digit. destruct (d <? 10)%N eqn:H; [apply N.ltb_lt in H|apply N.ltb_ge in H].
    - rewrite bool_decide_true by lia. done.
    - rewrite (bool_decide_true (97 ≤ _ ∧ _)%N) by lia. by destruct (bool_decide _). }
  repeat constructor; apply Hd; [apply N.Div0.div_lt_upper_bound; lia|apply N.mod_lt; lia].
Qed.
Lemma all_bytes (p : N → bool) : forallb p (N.of_nat <$> seq 0 256) = true → ∀ b, (b < 256)%N → p b = true.
Proof.
  intros H b Hb. rewrite forallb_forall in H. apply H, list_elem_of_In, list_elem_of_fmap. exists (N.to_nat b).
  split; [lia|]. apply elem_of_seq. lia.
Qed.
Lemma version_bits b : (b < 256)%N → (version b < 256)%N ∧ head (Chunker.Cdc.HEX (version b)) = Some 52%N.
Proof.
  intros Hb. pose proof (all_bytes (λ b, (version b <? 256)%N && bool_decide (head (Chunker.Cdc.HEX (version b)) = Some 52%N)) ltac:(by vm_compute) b Hb) as H.
  cbv beta in H. apply andb_true_iff in H as [H1%N.ltb_lt H2%bool_decide_eq_true]. done.
Qed.
Lemma variant_bits b : (b < 256)%N → (variant b < 256)%N ∧ ∃ x, head (Chunker.Cdc.HEX (variant b)) = Some x ∧ x ∈ js "89ab".
Proof.
  intros Hb. pose proof (all_bytes (λ b, (variant b <? 256)%N && match head (Chunker.Cdc.HEX (variant b)) with Some x => bool_decide (x ∈ js "89ab") | None => false end) ltac:(by vm_compute) b Hb) as H.
  cbv beta in H. apply andb_true_iff in H as [H1%N.ltb_lt H2]. split; [done|]. destruct (head _) as [x|]; [|done]. exists x. split; [done|by apply bool_decide_eq_true in H2].
Qed.
Lemma all_hex_bytes l : Forall (λ b, (b < 256)%N) l → allHex (2 * length l) (Chunker.Cdc.toHex l).
Proof.
  induction 1 as [|b l Hb Hl IH]; [done|]. destruct (hex_units b Hb) as [H1 H2], IH as [H3 H4].
  change (Chunker.Cdc.toHex (b :: l)) with (Chunker.Cdc.HEX b ++ Chunker.Cdc.toHex l).
  split; [rewrite length_app, H1, H3; cbn [length]; lia|by apply Forall_app].
Qed.
(** The identifier is a version 4 UUID, whatever the random bytes. *)
Theorem uuid_well_formed bs :
  length bs = 16 → Forall (λ b, (b < 256)%N) bs →
  ∃ a b c d e, uuidOf bs = a ++ js "-" ++ b ++ js "-" ++ c ++ js "-" ++ d ++ js "-" ++ e ∧
    allHex 8 a ∧ allHex 4 b ∧ allHex 4 c ∧ head c = Some 52%N ∧ allHex 4 d ∧ (∃ x, head d = Some x ∧ x ∈ js "89ab") ∧ allHex 12 e.
Proof.
  intros Hl Hb. do 16 (destruct bs as [|? bs]; [done|]). destruct bs; [|done]. clear Hl. repeat (apply Forall_cons in Hb as [? Hb]). clear Hb.
  match goal with |- context [uuidOf [?a0; ?a1; ?a2; ?a3; ?a4; ?a5; ?a6; ?a7; ?a8; ?a9; ?a10; ?a11; ?a12; ?a13; ?a14; ?a15]] =>
    destruct (version_bits a6) as [? Hver]; [done|]; destruct (variant_bits a8) as [? Hvar]; [done|];
    exists (Chunker.Cdc.toHex [a0; a1; a2; a3]), (Chunker.Cdc.toHex [a4; a5]), (Chunker.Cdc.toHex [version a6; a7]),
      (Chunker.Cdc.toHex [variant a8; a9]), (Chunker.Cdc.toHex [a10; a11; a12; a13; a14; a15])
  end.
  split; [reflexivity|]. split_and!; try done; try (apply (all_hex_bytes [_; _; _; _]); by repeat constructor);
    try (apply (all_hex_bytes [_; _]); by repeat constructor). apply (all_hex_bytes [_; _; _; _; _; _]). by repeat constructor.
Qed.

(** ** What modelling showed *)
(** The cut comes after the trimming: a name can end in a space. *)
Lemma cut_leaves_space : cleanDeviceName (js "Samsung Galaxy Note Pro X") = js "Samsung Galaxy Note Pro ".
Proof. vm_compute. done. Qed.
(** The architecture is removed before separators become spaces: one that follows
    an underscore is no word yet, and stays. *)
Lemma arch_leaks_after_underscore : platformDisplayName (js "Linux_aarch64") = js "Linux aarch64".
Proof. vm_compute. done. Qed.
End Device.
