(* ===== verification/Tab.v ===== *)
(** * Tab: the settings tab ([client/src/settings.ts])

    What its sections show and what their controls do: the coalesced refresh, the
    checks whether a plugin is in sync, the checklist of plugins, the choice of the
    configuration to sync, the date fields and the rows of the mounts. *)

From stdpp Require Import sorting.
From S2P Require Import Prelude Regex Jsmap Lifecycle Configsync Frontmatter Paths Mountengine.

(** ** The coalesced refresh *)
Module Refresh.
Inductive RefreshScope := SStatus | SConnection | SConfig | SConflicts | SMounts | SAdvanced | SAll.
#[export] Instance RefreshScope_eq_dec : EqDecision RefreshScope.
Proof. solve_decision. Defined.
(** [listening]: the tab is open; [sections]: those it has, none before the plugin is set up. *)
Record TabState := { listening : bool; sections : list RefreshScope; pendingScopes : list RefreshScope; timer : bool }.
Inductive Rendered := Whole | Section' (s : RefreshScope).
Definition allSections : list RefreshScope := [SConnection; SConfig; SConflicts; SMounts; SAdvanced].
Definition display (configured : bool) (t : TabState) : TabState * list Rendered :=
  ({| listening := true; sections := if configured then allSections else sections t; pendingScopes := pendingScopes t; timer := timer t |}, [Whole]).
Definition requestRefresh (s : RefreshScope) (t : TabState) : TabState :=
  if listening t then
    {| listening := true; sections := sections t;
       pendingScopes := if bool_decide (s ∈ pendingScopes t) then pendingScopes t else pendingScopes t ++ [s]; timer := true |}
  else t.
Definition fire (configured : bool) (t : TabState) : TabState * list Rendered :=
  let t' := {| listening := listening t; sections := sections t; pendingScopes := []; timer := false |} in
  if bool_decide (SAll ∈ pendingScopes t) then display configured t'
  else (t', Section' <$> filter (λ s, s ∈ sections t) (pendingScopes t)).
Definition hide (t : TabState) : TabState := {| listening := false; sections := []; pendingScopes := []; timer := false |}.

Inductive Event := Open (configured : bool) | Requested (s : RefreshScope) | Fires (configured : bool) | Hides.
Definition step (t : TabState) (e : Event) : TabState * list Rendered :=
  match e with
  | Open c => display c t
  | Requested s => (requestRefresh s t, [])
  | Fires c => if timer t then fire c t else (t, [])
  | Hides => (hide t, [])
  end.
Definition run (es : list Event) (t : TabState) : TabState * list Rendered :=
  foldl (λ p e, let '(t', r) := step p.1 e in (t', p.2 ++ r)) (t, []) es.
Definition closed : TabState := {| listening := false; sections := []; pendingScopes := []; timer := false |}.
(** A request waits exactly while the timer runs, and each once. *)
Definition ok (t : TabState) : Prop := NoDup (pendingScopes t) ∧ (timer t = true ↔ pendingScopes t ≠ []) ∧ (timer t = true → listening t = true).
Lemma refresh_ok t e : ok t → ok (step t e).1.
Proof.
  intros Hok. pose proof Hok as (Hn & Ht & Hl). destruct e as [c|s|c|]; cbn [step fst].
  - split_and!; [done|done|done].
  - unfold requestRefresh. destruct (listening t); [|done]. unfold ok. cbn [pendingScopes timer listening].
    destruct (bool_decide _) eqn:Hb; [apply bool_decide_eq_true in Hb|apply bool_decide_eq_false in Hb]; split_and!; try done.
    + split; [|done]. intros _ He. rewrite He in Hb. by apply elem_of_nil in Hb.
    + apply NoDup_app. split_and!; [done| |apply NoDup_singleton]. intros x Hx ->%list_elem_of_singleton. done.
    + split; [|done]. intros _ He. by destruct (pendingScopes t).
  - destruct (timer t) eqn:Htm; [|done]. unfold fire. destruct (bool_decide _); (split_and!; [constructor|done|done]).
  - split_and!; [constructor|done|done].
Qed.
Lemma refresh_run_app es1 es2 t : run (es1 ++ es2) t = ((run es2 (run es1 t).1).1, (run es1 t).2 ++ (run es2 (run es1 t).1).2).
Proof.
  unfold run. rewrite foldl_app. destruct (foldl _ (t, []) es1) as [t1 r1]. cbn [fst snd]. revert t1 r1.
  induction es2 as [|e es2 IH]; intros t1 r1; cbn [foldl]; [by rewrite app_nil_r|]. cbn [fst snd]. destruct (step t1 e) as [t2 r2].
  rewrite IH, (IH t2 ([] ++ r2)). cbn [fst snd app]. by rewrite app_assoc.
Qed.
Lemma run_ok es t : ok t → ok (run es t).1.
Proof.
  revert t. induction es as [|e es IH]; intros t Ht; [done|]. change (e :: es) with ([e] ++ es). rewrite refresh_run_app. cbn [fst].
  apply IH. unfold run. cbn [foldl]. generalize (refresh_ok t e Ht). cbn [fst snd]. by destruct (step t e).
Qed.
(** However requests, renders and closing interleave: what was requested of an open
    tab since is rendered when the timer fires, every section once, or the whole
    tab; and a burst costs one timer. *)
Theorem burst_renders_once es c ss :
  let t := (run es closed).1 in listening t = true → ss ≠ [] →
  let '(t', r) := run ((Requested <$> ss) ++ [Fires c]) t in
  pendingScopes t' = [] ∧ timer t' = false ∧ NoDup r ∧
  (r = [Whole] ∨ SAll ∉ ss ∧ ∀ s, s ∈ ss → s ∈ sections t → Section' s ∈ r).
Proof.
  cbv zeta. intros Hl Hne. assert (Hok : ok (run es closed).1) by (apply run_ok; split_and!; [constructor|done|done]).
  revert Hl Hok. generalize (run es closed).1 as t. intros t Hl Hok.
  assert (Hreq : ∀ l t, listening t = true → let t' := (run (Requested <$> l) t).1 in
    (run (Requested <$> l) t).2 = [] ∧ listening t' = true ∧ sections t' = sections t ∧ (∀ s, s ∈ pendingScopes t' ↔ s ∈ l ∨ s ∈ pendingScopes t) ∧ (l ≠ [] → timer t' = true)).
  { clear. induction l as [|s l IH]; intros t Hl; cbv zeta; [cbn; split_and!; [done|done|done|set_solver|done]|].
    change (Requested <$> s :: l) with ([Requested s] ++ (Requested <$> l)). rewrite refresh_run_app. cbn [fst snd]. change (run [Requested s] t) with (requestRefresh s t, @nil Rendered). cbn [fst snd app].
    assert (Hr : requestRefresh s t = {| listening := true; sections := sections t;
       pendingScopes := if bool_decide (s ∈ pendingScopes t) then pendingScopes t else pendingScopes t ++ [s]; timer := true |}) by (unfold requestRefresh; by rewrite Hl).
    destruct (IH (requestRefresh s t)) as (H1 & H2 & H3 & H4 & H5); [by rewrite Hr|]. split_and!; [done|done|by rewrite H3, Hr| |].
    - intros x. rewrite H4, Hr. cbn [pendingScopes]. case_bool_decide; set_solver.
    - intros _. destruct l as [|s2 l]; [cbn; by rewrite Hr|by apply H5]. }
  rewrite refresh_run_app. destruct (Hreq ss t Hl) as (H1 & H2 & H3 & H4 & H5). rewrite H1.
  pose proof (run_ok (Requested <$> ss) t Hok) as (Hn & _ & _).
  set (t1 := (run (Requested <$> ss) t).1) in *.
  assert (Hf : run [Fires c] t1 = fire c t1).
  { unfold run. cbn [foldl fst snd step]. rewrite H5 by done. by destruct (fire c t1). }
  rewrite Hf. cbn [app]. unfold fire. destruct (bool_decide (SAll ∈ pendingScopes t1)) eqn:Hb; [apply bool_decide_eq_true in Hb|apply bool_decide_eq_false in Hb].
  - cbn [display fst snd pendingScopes timer]. split_and!; [done|done|apply NoDup_singleton|by left].
  - cbn [fst snd pendingScopes timer]. split_and!; [done|done| |right; split; [set_solver|]].
    + apply NoDup_fmap; [by intros ?? [=]|by apply NoDup_filter].
    + intros s Hs Hin. apply list_elem_of_fmap. exists s. split; [done|]. apply list_elem_of_filter. split; [by rewrite H3|]. apply H4. by left.
Qed.
End Refresh.

(** ** Which plugins are in sync *)
(** A walk of a plugin's folder is a call; the walks run one after the other.  The
    buttons of a row belong to the render that made them. *)
Module Cleans.
Record Walk := { run : nat; plugin : jstr }.
Record State := {
  cache : list (jstr * bool);             (* pluginCleanCache *)
  inFlight : list (jstr * nat);           (* cleanInFlight: the run that answers *)
  queue : list Walk;                      (* cleanQueue: the first is walking *)
  listeners : list (nat * nat * jstr);    (* run, render, row *)
  painted : list (jstr * bool);           (* the rows of the render on screen *)
  render : nat; nextRun : nat;
  answers : list (jstr * bool)            (* what the walks answered so far *)
}.
Definition start : State :=
  {| cache := []; inFlight := []; queue := []; listeners := []; painted := []; render := 0; nextRun := 0; answers := [] |}.
(** One row with live buttons, of a list that is expanded. *)
Definition row (s : State) (id : jstr) : State :=
  match jget (cache s) id, jget (inFlight s) id with
  | Some clean, _ =>
      {| cache := cache s; inFlight := inFlight s; queue := queue s; listeners := listeners s;
         painted := jset (painted s) id clean; render := render s; nextRun := nextRun s; answers := answers s |}
  | None, Some r =>
      {| cache := cache s; inFlight := inFlight s; queue := queue s; listeners := listeners s ++ [(r, render s, id)];
         painted := painted s; render := render s; nextRun := nextRun s; answers := answers s |}
  | None, None =>
      {| cache := cache s; inFlight := jset (inFlight s) id (nextRun s); queue := queue s ++ [{| run := nextRun s; plugin := id |}];
         listeners := listeners s ++ [(nextRun s, render s, id)];
         painted := painted s; render := render s; nextRun := S (nextRun s); answers := answers s |}
  end.
Definition draw (ids : list jstr) (s : State) : State :=
  foldl row {| cache := cache s; inFlight := inFlight s; queue := queue s; listeners := listeners s; painted := [];
               render := S (render s); nextRun := nextRun s; answers := answers s |} ids.
(** The walk at the head ends, with an answer or not; who waits for it is told. *)
Definition walkEnds (r : option bool) (s : State) : State :=
  match queue s with
  | [] => s
  | w :: rest =>
      let told := filter (λ l, l.1.1 = run w ∧ l.1.2 = render s) (listeners s) in
      {| cache := match r with Some clean => jset (cache s) (plugin w) clean | None => cache s end;
         inFlight := jdel (inFlight s) (plugin w); queue := rest;
         listeners := filter (λ l, l.1.1 ≠ run w) (listeners s);
         painted := match r with Some clean => foldl (λ p l, jset p l.2 clean) (painted s) told | None => painted s end;
         render := render s; nextRun := nextRun s;
         answers := match r with Some clean => (plugin w, clean) :: answers s | None => answers s end |}
  end.
(** [act]: a click does nothing while the plugin is taken for clean; a confirmed
    push or pull forgets the answer. *)
Definition clickPasses (s : State) (id : jstr) : bool := match jget (cache s) id with Some true => false | _ => true end.
Definition confirmed (id : jstr) (s : State) : State :=
  {| cache := jdel (cache s) id; inFlight := inFlight s; queue := queue s; listeners := listeners s; painted := painted s;
     render := render s; nextRun := nextRun s; answers := answers s |}.
Definition hide (s : State) : State :=
  {| cache := []; inFlight := []; queue := queue s; listeners := listeners s; painted := [];
     render := S (render s); nextRun := nextRun s; answers := answers s |}.

Inductive Event := Draw (ids : list jstr) | WalkEnds (r : option bool) | Confirmed (id : jstr) | Hide.
Definition step (s : State) (e : Event) : State :=
  match e with Draw ids => draw ids s | WalkEnds r => walkEnds r s | Confirmed id => confirmed id s | Hide => hide s end.
Definition after (es : list Event) : State := foldl step start es.
Definition greyed (s : State) (id : jstr) : bool := match jget (painted s) id with Some b => b | None => false end.

Record ok (s : State) : Prop := {
  ok_cacheWf : jwf (cache s); ok_flightWf : jwf (inFlight s); ok_paintedWf : jwf (painted s);
  ok_queue : NoDup (run <$> queue s) ∧ Forall (λ w, run w < nextRun s) (queue s);
  (** Who waits, waits for a walk that is still to come. *)
  ok_flight : ∀ id r, jget (inFlight s) id = Some r → {| run := r; plugin := id |} ∈ queue s;
  ok_waits : Forall (λ l, {| run := l.1.1; plugin := l.2 |} ∈ queue s ∧ l.1.2 ≤ render s) (listeners s);
  (** What is remembered or shown was answered. *)
  ok_cache : ∀ id b, jget (cache s) id = Some b → (id, b) ∈ answers s;
  ok_painted : ∀ id b, jget (painted s) id = Some b → (id, b) ∈ answers s
}.
Lemma jwf_nil {V} : jwf (@nil (jstr * V)).
Proof. constructor. Qed.
Lemma start_ok : ok start.
Proof. split; cbn; try apply jwf_nil; try done; by repeat constructor. Qed.
Lemma row_ok s id : ok s → ok (row s id).
Proof.
  intros Hok. pose proof Hok as [H1 H2 H3 [H4 H4'] H5 H6 H7 H8]. unfold row. destruct (jget (cache s) id) as [b|] eqn:Hc.
  - split; cbn [cache inFlight queue listeners painted render nextRun answers]; try done; [by apply jwf_set|].
    intros x v. destruct (decide (x = id)) as [->|Hne]; [rewrite jget_set_eq; intros [= <-]; by apply H7|].
    rewrite jget_set_ne by done. apply H8.
  - destruct (jget (inFlight s) id) as [r|] eqn:Hf.
    + split; cbn [cache inFlight queue listeners painted render nextRun answers]; try done.
      apply Forall_app. split; [done|]. apply Forall_singleton; cbn; split; [by apply H5|lia].
    + split; cbn [cache inFlight queue listeners painted render nextRun answers]; try done; [by apply jwf_set| | |].
      * rewrite fmap_app. split; [|apply Forall_app; split; [eapply Forall_impl; [exact H4'|cbn; lia]|apply Forall_singleton; cbn; lia]].
        apply NoDup_app. split_and!; [done| |apply NoDup_singleton]. intros n Hn ->%list_elem_of_singleton.
        apply list_elem_of_fmap in Hn as (w & Hw & Hin). rewrite Forall_forall in H4'. apply H4' in Hin. cbn in Hw. lia.
      * intros x v. destruct (decide (x = id)) as [->|Hne].
        { rewrite jget_set_eq. intros [= <-]. apply elem_of_app. right. by apply list_elem_of_singleton. }
        rewrite jget_set_ne by done. intros Hx%H5. apply elem_of_app. by left.
      * apply Forall_app. split.
        { eapply Forall_impl; [exact H6|]. cbn. intros l [Hl ?]. split; [apply elem_of_app; by left|done]. }
        apply Forall_singleton; cbn; split; [|lia]. apply elem_of_app. right. by apply list_elem_of_singleton.
Qed.
Lemma told_painted (told : list (nat * nat * jstr)) (clean : bool) (p : list (jstr * bool)) :
  jwf p → jwf (foldl (λ p l, jset p l.2 clean) p told) ∧
  ∀ id b, jget (foldl (λ p l, jset p l.2 clean) p told) id = Some b →
    b = clean ∧ id ∈ snd <$> told ∨ jget p id = Some b.
Proof.
  revert p. induction told as [|l told IH]; intros p Hp; cbn [foldl]; [split; [done|by right]|].
  destruct (IH (jset p l.2 clean)) as [Hw Hg]; [by apply jwf_set|]. split; [done|]. intros id b Hb%Hg. destruct Hb as [[-> Hin]|Hb].
  - left. split; [done|]. cbn [fmap list_fmap]. by right.
  - destruct (decide (id = l.2)) as [->|Hne]; [rewrite jget_set_eq in Hb; injection Hb as <-; left; split; [done|by left]|].
    right. by rewrite jget_set_ne in Hb by done.
Qed.
Lemma walk_ok r s : ok s → ok (walkEnds r s).
Proof.
  intros Hok. pose proof Hok as [H1 H2 H3 [H4 H4'] H5 H6 H7 H8]. unfold walkEnds. destruct (queue s) as [|w rest] eqn:Hq; [done|].
  cbn [fmap list_fmap] in H4. apply NoDup_cons in H4 as [Hw H4]. apply Forall_cons in H4' as [Hlt H4'].
  assert (Hother : ∀ x : Walk, x ∈ w :: rest → run x ≠ run w → x ∈ rest).
  { intros x [->|Hx]%elem_of_cons Hne; [done|done]. }
  set (told := filter (λ l, l.1.1 = run w ∧ l.1.2 = render s) (listeners s)).
  assert (Htold : ∀ id, id ∈ snd <$> told → id = plugin w).
  { intros id (l & -> & Hl)%list_elem_of_fmap. unfold told in Hl. rewrite list_elem_of_filter in Hl. destruct Hl as [[Hr _] Hl].
    rewrite Forall_forall in H6. apply H6 in Hl as [Hl _].
    apply elem_of_cons in Hl as [Hl|Hl]; [by rewrite <- Hl|]. destruct Hw. apply list_elem_of_fmap. eexists. split; [|exact Hl]. done. }
  split; cbn [cache inFlight queue listeners painted render nextRun answers].
  - destruct r; [by apply jwf_set|done].
  - by apply jwf_del.
  - destruct r; [by apply told_painted|done].
  - done.
  - intros id n. destruct (decide (id = plugin w)) as [->|Hne]; [by rewrite jget_del_eq|]. rewrite jget_del_ne by done. intros Hf%H5.
    apply elem_of_cons in Hf as [Hf|Hf]; [by rewrite <- Hf in Hne|done].
  - apply Forall_forall. intros l [Hne Hl]%list_elem_of_filter. rewrite Forall_forall in H6. apply H6 in Hl as [Hl ?]. split; [|done]. by apply Hother.
  - destruct r as [clean|]; [|done]. intros id b. destruct (decide (id = plugin w)) as [->|Hne]; [rewrite jget_set_eq; intros [= <-]; by left|].
    rewrite jget_set_ne by done. intros Hc%H7. by right.
  - destruct r as [clean|]; [|done]. intros id b Hb. apply told_painted in Hb as [[-> Hin]|Hb]; [|right; by apply H8|done].
    apply Htold in Hin as ->. by left.
Qed.
Lemma clean_step_ok s e : ok s → ok (step s e).
Proof.
  intros Hok. destruct e as [ids|r|id|]; cbn [step]; [|by apply walk_ok| |].
  - unfold draw. pose proof Hok as [H1 H2 H3 H4 H5 H6 H7 H8].
    assert (Hs : ok {| cache := cache s; inFlight := inFlight s; queue := queue s; listeners := listeners s; painted := [];
               render := S (render s); nextRun := nextRun s; answers := answers s |}).
    { split; try apply jwf_nil; try done. eapply Forall_impl; [exact H6|]. cbn. intros l [??]. split; [done|lia]. }
    revert Hs. generalize ({| cache := cache s; inFlight := inFlight s; queue := queue s; listeners := listeners s; painted := [];
               render := S (render s); nextRun := nextRun s; answers := answers s |}). clear. induction ids as [|id ids IH]; intros s Hs; cbn [foldl]; [done|].
    by apply IH, row_ok.
  - pose proof Hok as [H1 H2 H3 H4 H5 H6 H7 H8]. split; try done; cbn [cache confirmed answers]; [by apply jwf_del|].
    intros x b. destruct (decide (x = id)) as [->|Hne]; [by rewrite jget_del_eq|]. rewrite jget_del_ne by done. apply H7.
  - pose proof Hok as [H1 H2 H3 H4 H5 H6 H7 H8]. split; try apply jwf_nil; try done. eapply Forall_impl; [exact H6|]. cbn. intros l [??]. split; [done|lia].
Qed.
Lemma after_ok es : ok (after es).
Proof.
  unfold after. generalize start_ok. generalize start. induction es as [|e es IH]; intros s Hs; cbn [foldl]; [done|]. by apply IH, clean_step_ok.
Qed.
(** A row is greyed, and a click refused, only when a walk of that plugin said it
    is in sync. *)
Theorem greyed_was_answered es id :
  (greyed (after es) id = true → (id, true) ∈ answers (after es)) ∧
  (clickPasses (after es) id = false → (id, true) ∈ answers (after es)).
Proof.
  destruct (after_ok es) as [_ _ _ _ _ _ Hc Hp]. unfold greyed, clickPasses. split.
  - destruct (jget (painted (after es)) id) as [[]|] eqn:H; [|done|done]. intros _. by apply Hp.
  - destruct (jget (cache (after es)) id) as [[]|] eqn:H; [|done|done]. intros _. by apply Hc.
Qed.

(** *** Every row is answered *)
Definition awaits (ids : list jstr) (s : State) : Prop :=
  ∀ id, id ∈ ids → is_Some (jget (painted s) id) ∨ ∃ r, (r, render s, id) ∈ listeners s.
Lemma jset_is_Some {V} (m : list (jstr * V)) k v x : is_Some (jget m x) → is_Some (jget (jset m k v) x).
Proof. intros Hx. destruct (decide (x = k)) as [->|Hne]; [by rewrite jget_set_eq|by rewrite jget_set_ne]. Qed.
Lemma row_awaits ids id s : awaits ids s → awaits (id :: ids) (row s id).
Proof.
  intros Ha x Hx. unfold row. destruct (jget (cache s) id) as [b|]; [|destruct (jget (inFlight s) id) as [r|]]; cbn [painted listeners render].
  - apply elem_of_cons in Hx as [->|Hx]; [left; by rewrite jget_set_eq|]. destruct (Ha x Hx) as [H|H]; [left; by apply jset_is_Some|by right].
  - apply elem_of_cons in Hx as [->|Hx]; [right; exists r; apply elem_of_app; right; by apply list_elem_of_singleton|].
    destruct (Ha x Hx) as [H|[n H]]; [by left|right; exists n; apply elem_of_app; by left].
  - apply elem_of_cons in Hx as [->|Hx]; [right; exists (nextRun s); apply elem_of_app; right; by apply list_elem_of_singleton|].
    destruct (Ha x Hx) as [H|[n H]]; [by left|right; exists n; apply elem_of_app; by left].
Qed.
Lemma draw_awaits ids s : awaits ids (draw ids s).
Proof.
  unfold draw. match goal with |- awaits _ (foldl _ ?s0 _) => generalize s0 end. clear s. intros s.
  assert (H : ∀ done s, awaits done s → awaits (ids ++ done) (foldl row s ids)).
  { clear s. induction ids as [|id ids IH]; intros don s Hs; cbn [foldl app]; [done|]. apply (row_awaits don id), IH in Hs.
    intros x Hx. apply Hs. set_solver. }
  specialize (H [] s). rewrite app_nil_r in H. apply H. intros x Hx. by apply elem_of_nil in Hx.
Qed.
Lemma told_is_Some (told : list (nat * nat * jstr)) (clean : bool) p id :
  is_Some (jget p id) ∨ id ∈ snd <$> told → is_Some (jget (foldl (λ p l, jset p l.2 clean) p told) id).
Proof.
  revert p. induction told as [|l told IH]; intros p H; cbn [foldl].
  - destruct H as [H|H]; [done|by apply elem_of_nil in H].
  - apply IH. destruct H as [H|H]; [left; by apply jset_is_Some|]. cbn [fmap list_fmap] in H.
    apply elem_of_cons in H as [->|H]; [left; by rewrite jget_set_eq|by right].
Qed.
Lemma walk_awaits ids clean s : awaits ids s → awaits ids (walkEnds (Some clean) s).
Proof.
  intros Ha id Hid. unfold walkEnds. destruct (queue s) as [|w rest]; [by apply Ha|]. cbn [painted listeners render].
  destruct (Ha id Hid) as [H|[r H]]; [left; apply told_is_Some; by left|]. destruct (decide (r = run w)) as [->|Hne].
  - left. apply told_is_Some. right. apply list_elem_of_fmap. exists (run w, render s, id). split; [done|]. by apply list_elem_of_filter.
  - right. exists r. by apply list_elem_of_filter.
Qed.
(** Every row on screen gets its answer: once the walks that are queued have ended,
    each of them knows whether its plugin is in sync. *)
Theorem rows_are_answered es ids answersOf :
  let s := draw ids (after es) in
  length answersOf = length (queue s) →
  let s' := foldl step s (WalkEnds ∘ Some <$> answersOf) in
  queue s' = [] ∧ ∀ id, id ∈ ids → is_Some (jget (painted s') id).
Proof.
  cbv zeta. assert (Hok : ok (draw ids (after es))) by (apply (clean_step_ok _ (Draw ids)), after_ok). pose proof (draw_awaits ids (after es)) as Ha.
  revert Hok Ha. generalize (draw ids (after es)). induction answersOf as [|b l IH]; intros s Hok Ha Hl.
  - cbn [fmap list_fmap foldl]. destruct (queue s) as [|] eqn:Hq; [|done]. split; [done|]. intros id Hid.
    destruct (Ha id Hid) as [H|[r H]]; [done|]. destruct Hok as [_ _ _ _ _ Hw _ _]. rewrite Forall_forall in Hw. apply Hw in H as [H _].
    rewrite Hq in H. by apply elem_of_nil in H.
  - destruct (queue s) as [|w rest] eqn:Hq; [done|]. cbn [fmap list_fmap foldl compose step]. apply IH; [by apply walk_ok|by apply walk_awaits|].
    unfold walkEnds. rewrite Hq. cbn [queue]. cbn in Hl. lia.
Qed.
(** *** One walk at a time for each plugin *)
Definition booked (s : State) : Prop := Forall (λ w, jget (inFlight s) (plugin w) = Some (run w)) (queue s).
Lemma booked_NoDup s : ok s → booked s → NoDup (plugin <$> queue s).
Proof.
  intros [_ _ _ [Hn _] _ _ _ _] Hb. unfold booked in Hb. revert Hn Hb. induction (queue s) as [|w q IH]; intros Hn Hb; [constructor|].
  cbn [fmap list_fmap] in *. apply NoDup_cons in Hn as [Hw Hn]. apply Forall_cons in Hb as [Hb1 Hb]. apply NoDup_cons. split; [|by apply IH].
  intros (x & Hx & Hin)%list_elem_of_fmap. rewrite Forall_forall in Hb. pose proof (Hb x Hin) as H. rewrite <- Hx, Hb1 in H.
  injection H as H. apply Hw, list_elem_of_fmap. by exists x.
Qed.
Lemma row_booked s id : booked s → booked (row s id).
Proof.
  unfold booked, row. intros Hb. destruct (jget (cache s) id); [done|]. destruct (jget (inFlight s) id) eqn:Hf; [done|]. cbn [queue inFlight].
  apply Forall_app. split; [|apply Forall_singleton; cbn; by rewrite jget_set_eq].
  eapply Forall_impl; [exact Hb|]. intros w Hw. cbn in *. rewrite jget_set_ne; [done|]. intros Hp. by rewrite Hp, Hw in Hf.
Qed.
Lemma step_booked s e : ok s → booked s → e ≠ Hide → booked (step s e).
Proof.
  intros Hok Hb He. destruct e as [ids|r|id|]; cbn [step]; [| |done|done].
  - unfold draw. assert (Hs : ∀ p n, booked {| cache := cache s; inFlight := inFlight s; queue := queue s; listeners := listeners s; painted := p;
               render := n; nextRun := nextRun s; answers := answers s |}) by done. specialize (Hs [] (S (render s))). revert Hs.
    match goal with |- booked ?s0 → _ => generalize s0 end. clear. induction ids as [|id ids IH]; intros s Hs; cbn [foldl]; [done|]. by apply IH, row_booked.
  - pose proof (booked_NoDup s Hok Hb) as Hn. unfold booked, walkEnds in *. destruct (queue s) as [|w rest] eqn:Hq; [by rewrite Hq|].
    cbn [queue inFlight fmap list_fmap] in *. apply NoDup_cons in Hn as [Hw _]. apply Forall_cons in Hb as [_ Hb]. apply Forall_forall. intros x Hx.
    rewrite Forall_forall in Hb. rewrite jget_del_ne; [by apply Hb|]. intros Hp. apply Hw, list_elem_of_fmap. by exists x.
Qed.
Theorem one_walk_per_plugin es : Hide ∉ es → NoDup (plugin <$> queue (after es)).
Proof.
  intros Hh. apply booked_NoDup; [apply after_ok|]. unfold after. assert (Hb : booked start) by constructor. revert Hb. generalize start_ok. generalize start.
  induction es as [|e es IH]; intros s Hok Hb; cbn [foldl]; [done|]. apply IH; [set_solver|by apply clean_step_ok|]. apply step_booked; [done|done|]. set_solver.
Qed.
Lemma one_walk_per_plugin_witness : NoDup (plugin <$> queue (after [Draw [js "a"; js "b"]; Draw [js "a"; js "b"]])).
Proof. apply one_walk_per_plugin. set_solver. Defined.
Lemma rows_are_answered_witness :
  let s := draw [js "a"; js "b"] (after []) in
  let s' := foldl step s (WalkEnds ∘ Some <$> [true; false]) in
  queue s' = [] ∧ ∀ id, id ∈ [js "a"; js "b"] → is_Some (jget (painted s') id).
Proof. apply (rows_are_answered [] [js "a"; js "b"] [true; false]). reflexivity. Defined.

(** *** What modelling showed *)
(** An answer is never refreshed while the tab is open: however often it is drawn,
    no walk starts, and the click stays refused, whatever happens to the files. *)
Lemma answer_is_never_refreshed id draws s :
  jget (cache s) id = Some true → clickPasses (foldl (λ s ids, draw ids s) s draws) id = false.
Proof.
  intros Hc. assert (jget (cache (foldl (λ s ids, draw ids s) s draws)) id = Some true) as H; [|unfold clickPasses; by rewrite H].
  revert s Hc. induction draws as [|ids l IH]; intros s Hc; cbn [foldl]; [done|]. apply IH. unfold draw.
  match goal with |- jget (cache (foldl _ ?s0 _)) _ = _ => assert (Hc' : jget (cache s0) id = Some true) by done; revert Hc'; generalize s0 end.
  clear. induction ids as [|x ids IH]; intros s Hc; cbn [foldl]; [done|]. apply IH. unfold row. by repeat case_match.
Qed.
(** A walk that was under way when the tab was closed fills the emptied cache: the
    tab that is opened next shows its answer and looks no further. *)
Lemma closed_tab_keeps_answer :
  let s := after [Draw [js "a"]; Hide; WalkEnds (Some true); Draw [js "a"]] in greyed s (js "a") = true ∧ queue s = [].
Proof. vm_compute. done. Qed.
(** Reopening starts a second walk beside one that is still to come. *)
Lemma reopening_walks_twice : plugin <$> queue (after [Draw [js "a"]; Hide; Draw [js "a"]]) = [js "a"; js "a"].
Proof. vm_compute. done. Qed.
End Cleans.

(** ** The checklist of plugins *)
Module Checklist.
Section Checklist.
(** [localeCompare] is the engine's collation, here as its [<= 0]. *)
Context (le : jstr → jstr → bool).
Record View := { selfId : jstr; manifests : list (jstr * jstr); serverIds : list jstr; serverNames : list (jstr * jstr);
                 allowed : list jstr; readOnly : bool }.
Definition displayName (v : View) (id : jstr) : jstr :=
  let n := jget (manifests v) id in
  if otruthy n then default [] n else let n := jget (serverNames v) id in if otruthy n then default [] n else id.
Definition byName (v : View) (a b : jstr) : Prop := le (displayName v a) (displayName v b) = true.
#[local] Instance byName_dec v : RelDecision (byName v).
Proof. intros a b. unfold byName. apply _. Defined.
Definition installed (v : View) : list jstr := filter (λ id, id ≠ selfId v) (jkeys (manifests v)).
Definition onServer (v : View) : list jstr := dedup (filter (λ id, id ≠ selfId v) (serverIds v)).
Definition allIds (v : View) : list jstr := dedup (installed v ++ onServer v).
Definition syncedIds (v : View) : list jstr := merge_sort (byName v) (filter (λ id, id ∈ installed v ∨ id ∈ allowed v) (allIds v)).
Definition availableIds (v : View) : list jstr :=
  merge_sort (byName v) (filter (λ id, id ∈ onServer v ∧ id ∉ installed v ∧ id ∉ allowed v) (allIds v)).
Definition shared (v : View) : nat := length (filter (λ id, id ∈ allowed v) (syncedIds v)).
Definition needsRestart (v : View) : list jstr := filter (λ id, id ∈ allowed v ∧ id ∉ installed v) (syncedIds v).

(** What a row says and offers. *)
Inductive RowDesc := NoDesc | AddedBy (author : jstr) | InstallsHere | UploadsNext | Downloads | DownloadOnly.
Record Row := { ticked : bool; desc : RowDesc; pushPull : bool }.
Definition pluginRow (v : View) (pendingAuthors : list (jstr * jstr)) (id : jstr) : Row :=
  let on := bool_decide (id ∈ allowed v) in
  let here := bool_decide (id ∈ installed v) in
  let addedBy := jget pendingAuthors id in
  let d := if otruthy addedBy then AddedBy (default [] addedBy)
           else if negb here && bool_decide (id ∈ onServer v) then InstallsHere
           else if here && negb (bool_decide (id ∈ onServer v)) then UploadsNext else NoDesc in
  if on && negb here then {| ticked := on; desc := Downloads; pushPull := false |}
  else if on && readOnly v then {| ticked := on; desc := DownloadOnly; pushPull := false |}
  else {| ticked := on; desc := d; pushPull := on |}.

Lemma allIds_spec v id : id ∈ allIds v ↔ id ≠ selfId v ∧ (id ∈ jkeys (manifests v) ∨ id ∈ serverIds v).
Proof. unfold allIds, installed, onServer. rewrite dedup_elem_of, elem_of_app, dedup_elem_of, !list_elem_of_filter. tauto. Qed.
Lemma sorted_elem (R : jstr → jstr → Prop) `{!RelDecision R} l x : x ∈ merge_sort R l ↔ x ∈ l.
Proof. by rewrite (merge_sort_Permutation R l). Qed.
Lemma installed_all v id : id ∈ installed v → id ∈ allIds v.
Proof. unfold allIds. rewrite dedup_elem_of, elem_of_app. by left. Qed.
Lemma onServer_all v id : id ∈ onServer v → id ∈ allIds v.
Proof. unfold allIds. rewrite dedup_elem_of, elem_of_app. by right. Qed.
Lemma syncedIds_spec v id : id ∈ syncedIds v ↔ id ∈ allIds v ∧ (id ∈ installed v ∨ id ∈ allowed v).
Proof. unfold syncedIds. rewrite sorted_elem, list_elem_of_filter. tauto. Qed.
Lemma availableIds_spec v id : id ∈ availableIds v ↔ id ∈ onServer v ∧ id ∉ installed v ∧ id ∉ allowed v.
Proof. unfold availableIds. rewrite sorted_elem, list_elem_of_filter. pose proof (onServer_all v id). tauto. Qed.
(** Every plugin that is here or on the server, and no other, is listed once: as
    synced, or as on offer; this plugin itself never.  What is only on offer shows
    no tick, nothing to push, and nothing of it comes here by itself. *)
Theorem checklist_exact v pendingAuthors id :
  NoDup (syncedIds v ++ availableIds v) ∧
  (id ∈ syncedIds v ++ availableIds v ↔ id ≠ selfId v ∧ (id ∈ jkeys (manifests v) ∨ id ∈ serverIds v)) ∧
  (id ∈ availableIds v → let r := pluginRow v pendingAuthors id in ticked r = false ∧ pushPull r = false ∧ id ∉ needsRestart v) ∧
  (let r := pluginRow v pendingAuthors id in pushPull r = true → id ∈ allowed v ∧ id ∈ jkeys (manifests v) ∧ readOnly v = false).
Proof.
  split_and!.
  - apply NoDup_app. split_and!.
    + unfold syncedIds. rewrite merge_sort_Permutation. apply NoDup_filter, dedup_NoDup.
    + intros x Hs%syncedIds_spec Ha%availableIds_spec. tauto.
    + unfold availableIds. rewrite merge_sort_Permutation. apply NoDup_filter, dedup_NoDup.
  - rewrite elem_of_app, syncedIds_spec, availableIds_spec, <- allIds_spec. pose proof (onServer_all v id). split; [tauto|]. intros Hin.
    destruct (decide (id ∈ installed v)); [tauto|]. destruct (decide (id ∈ allowed v)); [tauto|]. right. split_and!; try done.
    unfold allIds in Hin. rewrite dedup_elem_of, elem_of_app in Hin. tauto.
  - intros (Hs & Hi & Ha)%availableIds_spec. unfold pluginRow. rewrite (bool_decide_false (id ∈ allowed v)) by done. cbn [andb ticked pushPull].
    split_and!; [done|done|]. unfold needsRestart. rewrite list_elem_of_filter. tauto.
  - cbv zeta. unfold pluginRow. destruct (bool_decide (id ∈ allowed v)) eqn:Ha; [apply bool_decide_eq_true in Ha|]; cbn [andb].
    + destruct (bool_decide (id ∈ installed v)) eqn:Hi; [apply bool_decide_eq_true in Hi|]; cbn [negb]; [|done].
      destruct (readOnly v) eqn:Hr; [done|]. intros _. split_and!; [done| |done]. unfold installed in Hi. by apply list_elem_of_filter in Hi as [_ Hi].
    + done.
Qed.
(** What was ticked once and is now neither here nor on the server is not listed:
    its tick cannot be taken back, and stands for whoever puts a plugin of that
    name on the server next. *)
Lemma stale_tick_is_hidden :
  let v server := {| selfId := js "self"; manifests := []; serverIds := server; serverNames := []; allowed := [js "calendar"]; readOnly := false |} in
  syncedIds (v []) ++ availableIds (v []) = [] ∧
  pluginRow (v [js "calendar"]) [] (js "calendar") = {| ticked := true; desc := Downloads; pushPull := false |}.
Proof. vm_compute. done. Qed.
End Checklist.
End Checklist.

(** ** Choosing what to sync *)
Module Choice.
Import Config.
Definition surfaceOn (cs : ConfigSyncSelection) (k : ConfigSurface) : bool :=
  match k with Core => core cs | Hotkeys => hotkeys cs | Appearance => appearance cs | Snippets => snippets cs | Community => community cs end.
Definition withSurface (cs : ConfigSyncSelection) (k : ConfigSurface) (v : bool) : ConfigSyncSelection :=
  {| enabled := enabled cs;
     core := if k is Core then v else core cs; hotkeys := if k is Hotkeys then v else hotkeys cs;
     appearance := if k is Appearance then v else appearance cs; snippets := if k is Snippets then v else snippets cs;
     community := if k is Community then v else community cs; pluginAllow := pluginAllow cs; pluginDir := pluginDir cs |}.
Definition withEnabled (cs : ConfigSyncSelection) (v : bool) : ConfigSyncSelection :=
  {| enabled := v; core := core cs; hotkeys := hotkeys cs; appearance := appearance cs; snippets := snippets cs;
     community := community cs; pluginAllow := pluginAllow cs; pluginDir := pluginDir cs |}.
Definition surfaces : list ConfigSurface := [Core; Hotkeys; Appearance; Snippets; Community].
(** The modal that is open, if any: for all the surfaces that are on, or for one. *)
Inductive Asking := AskAll (active : list ConfigSurface) | AskOne (k : ConfigSurface).
Record Tab := { cs : ConfigSyncSelection; ro : bool; dirs : list (ConfigSurface * ConfigDirection); modal : option Asking; applied : nat }.
#[export] Instance ConfigSurface_eq_dec : EqDecision ConfigSurface.
Proof. solve_decision. Defined.
Definition dirOf (t : Tab) (k : ConfigSurface) : option ConfigDirection := snd <$> List.find (λ e, bool_decide (e.1 = k)) (dirs t).
Definition dropDir (k : ConfigSurface) (l : list (ConfigSurface * ConfigDirection)) := filter (λ e, e.1 ≠ k) l.
Definition markDir (ro : bool) (d : ConfigDirection) (l : list (ConfigSurface * ConfigDirection)) (k : ConfigSurface) :=
  (k, if ro then Download else d) :: dropDir k l.
(** [applyConfigSyncChange]: saved, and a pass asked for. *)
Definition apply (t : Tab) : Tab := {| cs := cs t; ro := ro t; dirs := dirs t; modal := modal t; applied := S (applied t) |}.
Definition setConfigSurface (k : ConfigSurface) (v : bool) (d : option ConfigDirection) (t : Tab) : Tab :=
  Choice.apply {| cs := withSurface (cs t) k v; ro := ro t;
           dirs := match d with Some d => if v then markDir (ro t) d (dirs t) k else dropDir k (dirs t) | None => dropDir k (dirs t) end;
           modal := modal t; applied := applied t |}.
Inductive Event := ToggleAll (v : bool) | Toggle (k : ConfigSurface) (v : bool) | Pick (d : ConfigDirection) | Cancel.
Definition ask (a : Asking) (c : ConfigSyncSelection) (t : Tab) : Tab :=
  {| cs := c; ro := ro t; dirs := dirs t; modal := Some a; applied := applied t |}.
Definition toggleAll (v : bool) (t : Tab) : Tab :=
  let on c := {| cs := c; ro := ro t; dirs := dirs t; modal := modal t; applied := applied t |} in
  if negb v then Choice.apply (on (withEnabled (cs t) false))
  else
    let c := withEnabled (cs t) true in
    if ro t then Choice.apply (on (foldl (λ c k, withSurface c k false) c surfaces))
    else
      match filter (λ k, surfaceOn c k = true) surfaces with
      | [] => Choice.apply (on c)
      | active => ask (AskAll active) c t
      end.
Definition pick (d : ConfigDirection) (t : Tab) : Tab :=
  let t' := {| cs := cs t; ro := ro t; dirs := dirs t; modal := None; applied := applied t |} in
  match modal t with
  | None => t
  | Some (AskAll active) =>
      Choice.apply {| cs := cs t; ro := ro t; dirs := foldl (markDir (ro t) d) (dirs t) active; modal := None; applied := applied t |}
  | Some (AskOne k) => setConfigSurface k true (Some d) t'
  end.
Definition cancel (t : Tab) : Tab :=
  match modal t with
  | Some (AskAll _) => {| cs := withEnabled (cs t) false; ro := ro t; dirs := dirs t; modal := None; applied := applied t |}
  | _ => {| cs := cs t; ro := ro t; dirs := dirs t; modal := None; applied := applied t |}
  end.
(** A modal covers the tab: while one is open only it can be answered, and on a
    read-only vault it offers to download alone. *)
Definition step (t : Tab) (e : Event) : Tab :=
  match e, modal t with
  | ToggleAll v, None => toggleAll v t
  | Toggle k v, None => if enabled (cs t) then (if v then ask (AskOne k) (cs t) t else setConfigSurface k false None t) else t
  | Pick Upload, Some (AskOne _) => if ro t then t else pick Upload t
  | Pick d, Some _ => pick d t
  | Cancel, Some _ => cancel t
  | _, _ => t
  end.
Definition run (es : list Event) (t : Tab) : Tab := foldl step t es.

(** *** The first contact is chosen *)
Definition lookDir (l : list (ConfigSurface * ConfigDirection)) (k : ConfigSurface) : option ConfigDirection :=
  snd <$> List.find (λ e, bool_decide (e.1 = k)) l.
Lemma look_drop_ne l j k : j ≠ k → lookDir (dropDir j l) k = lookDir l k.
Proof.
  intros Hne. unfold lookDir, dropDir. induction l as [|[x d] l IH]; [done|]. rewrite filter_cons. cbn [fst List.find].
  destruct (decide (x ≠ j)) as [Hx|Hx]; cbn [List.find fst].
  - by destruct (bool_decide (x = k)).
  - rewrite bool_decide_false; [done|]. intros ->. by destruct Hx.
Qed.
Lemma look_mark r d l j k : lookDir (markDir r d l j) k = if decide (j = k) then Some (if r then Download else d) else lookDir l k.
Proof.
  unfold markDir. destruct (decide (j = k)) as [->|Hne].
  - unfold lookDir. cbn [List.find fst]. by rewrite bool_decide_true.
  - unfold lookDir. cbn [List.find fst]. rewrite bool_decide_false by done. by apply look_drop_ne.
Qed.
Lemma look_marks r d active l k : lookDir (foldl (markDir r d) l active) k = if decide (k ∈ active) then Some (if r then Download else d) else lookDir l k.
Proof.
  revert l. induction active as [|j active IH]; intros l; cbn [foldl]; [by rewrite decide_False by apply not_elem_of_nil|].
  rewrite IH, look_mark. repeat case_decide; set_solver.
Qed.
Lemma on_withSurface c j v k : surfaceOn (withSurface c j v) k = if decide (j = k) then v else surfaceOn c k.
Proof. destruct j, k; done. Qed.
Lemma on_withEnabled c v k : surfaceOn (withEnabled c v) k = surfaceOn c k.
Proof. by destruct k. Qed.
Lemma enabled_withSurface c j v : enabled (withSurface c j v) = enabled c.
Proof. done. Qed.
Lemma in_surfaces k : k ∈ surfaces.
Proof. unfold surfaces. destruct k; set_solver. Qed.
(** Every surface that is on has its direction, downloading on a read-only vault. *)
Definition chosen (t : Tab) : Prop :=
  ∀ k, surfaceOn (cs t) k = true → ∃ d, lookDir (dirs t) k = Some d ∧ (ro t = true → d = Download).
Definition Inv (t : Tab) : Prop :=
  match modal t with
  | Some (AskAll active) => enabled (cs t) = true ∧ ro t = false ∧ ∀ k, k ∈ active ↔ surfaceOn (cs t) k = true
  | Some (AskOne _) => enabled (cs t) = true ∧ chosen t
  | None => enabled (cs t) = true → chosen t
  end.
Lemma toggleAll_inv v t : modal t = None → Inv t → Inv (toggleAll v t).
Proof.
  intros Hm Hi. unfold Inv in Hi. rewrite Hm in Hi. unfold toggleAll. destruct v; cbn [negb].
  - destruct (ro t) eqn:Hr.
    + unfold Inv, Choice.apply. cbn [modal cs]. rewrite Hm. intros _ k. cbn. by destruct k.
    + destruct (filter _ surfaces) as [|k l] eqn:Hf.
      * unfold Inv, Choice.apply. cbn [modal cs]. rewrite Hm. intros _ k Hk. cbn [cs] in Hk.
        assert (k ∈ filter (λ k, surfaceOn (withEnabled (cs t) true) k = true) surfaces) as Hin by (apply list_elem_of_filter; split; [done|apply in_surfaces]).
        rewrite Hf in Hin. by apply elem_of_nil in Hin.
      * unfold Inv, ask. cbn [modal cs ro]. split_and!; [done|done|]. intros x. rewrite <- Hf, list_elem_of_filter. pose proof (in_surfaces x). tauto.
  - unfold Inv, Choice.apply. cbn [modal cs]. by rewrite Hm.
Qed.
Lemma set_inv k v d t : (v = true → is_Some d) → chosen t → chosen (setConfigSurface k v d t).
Proof.
  intros Hd Hc j. unfold setConfigSurface, Choice.apply. cbn [cs dirs ro]. rewrite on_withSurface. case_decide as Hj.
  - subst j. intros ->. destruct Hd as [x ->]; [done|]. rewrite look_mark, decide_True by done. eexists. split; [done|]. by intros ->.
  - intros Hon. destruct (Hc j Hon) as (x & Hx & Hr). exists x. split; [|done]. destruct d as [d|]; [destruct v|]; [by rewrite look_mark, decide_False|by rewrite look_drop_ne..].
Qed.
Lemma pick_inv d t : Inv t → Inv (pick d t).
Proof.
  intros Hi. unfold pick. unfold Inv in Hi. destruct (modal t) as [[active|k]|] eqn:Hm; [| |unfold Inv; by rewrite Hm].
  - destruct Hi as (He & Hr & Ha). unfold Inv, Choice.apply. cbn [modal cs]. intros _ j Hj. cbn [dirs ro cs] in *. rewrite look_marks.
    rewrite decide_True by (by apply Ha). eexists. split; [done|]. by rewrite Hr.
  - destruct Hi as (He & Hc). unfold Inv. cbn [setConfigSurface Choice.apply modal cs]. intros _. by apply (set_inv k true (Some d)).
Qed.
Lemma cancel_inv t : Inv t → Inv (cancel t).
Proof.
  intros Hi. unfold cancel. unfold Inv in Hi. destruct (modal t) as [[active|k]|] eqn:Hm; unfold Inv; cbn [modal cs withEnabled enabled]; [done| |].
  - intros _. apply Hi.
  - apply Hi.
Qed.
Lemma choice_inv t e : Inv t → Inv (step t e).
Proof.
  intros Hi. unfold step. destruct e as [v|k v|d|], (modal t) as [[a|j]|] eqn:Hm; try done; try (by apply cancel_inv).
  - by apply toggleAll_inv.
  - destruct (enabled (cs t)) eqn:He; [|done]. pose proof Hi as Hc. unfold Inv in Hc. rewrite Hm in Hc. specialize (Hc He). destruct v.
    + unfold Inv, ask. cbn [modal cs]. done.
    + unfold Inv. cbn [setConfigSurface Choice.apply modal]. rewrite Hm. intros _. by apply set_inv.
  - destruct d; by apply pick_inv.
  - destruct d; [by apply pick_inv|]. destruct (ro t); [done|by apply pick_inv].
  - destruct d; done.
Qed.
(** However the toggles and the questions are used, from where nothing of the
    configuration is synced: once no question is open, every surface that is on was
    given a direction for its first contact, and a read-only vault only downloads. *)
Theorem first_contact_is_chosen es t k :
  enabled (cs t) = false → modal t = None →
  let t' := run es t in
  modal t' = None → enabled (cs t') = true → surfaceOn (cs t') k = true →
  ∃ d, dirOf t' k = Some d ∧ (ro t' = true → d = Download).
Proof.
  intros He Hm. cbv zeta. assert (Hi : Inv (run es t)).
  { assert (H : Inv t) by (unfold Inv; rewrite Hm, He; done). revert H. clear. unfold run. revert t.
    induction es as [|e es IH]; intros t Ht; cbn [foldl]; [done|]. by apply IH, choice_inv. }
  unfold Inv in Hi. intros Hn He'. rewrite Hn in Hi. by apply Hi.
Qed.
Definition fresh (r : bool) : Tab := {| cs := DEFAULT_CONFIG_SYNC; ro := r; dirs := []; modal := None; applied := 0 |}.
Lemma first_contact_is_chosen_witness :
  let t' := run [ToggleAll true; Pick Upload; Toggle Community true; Pick Download] (fresh false) in
  surfaceOn (cs t') Community = true ∧ ∃ d, dirOf t' Community = Some d ∧ (ro t' = true → d = Download).
Proof. cbv zeta. split; [reflexivity|]. apply first_contact_is_chosen; reflexivity. Defined.
(** A read-only vault starts with nothing on. *)
Lemma read_only_starts_empty t k : modal t = None → ro t = true → surfaceOn (cs (step t (ToggleAll true))) k = false.
Proof. intros Hm Hr. unfold step. rewrite Hm. unfold toggleAll. cbn [negb]. rewrite Hr. by destruct k. Qed.

(** *** What modelling showed *)
(** The switch takes effect before the question is answered: until then, and even
    when the answer is no, a pass syncs the configuration, with no direction. *)
Lemma enabled_before_the_answer :
  let t := step (fresh false) (ToggleAll true) in
  modal t ≠ None ∧ shouldSync (js ".obsidian/app.json") (cs t) (js "obsidian-selfsync") = true ∧ dirOf t Core = None.
Proof. vm_compute. done. Qed.
End Choice.

(** ** The date fields *)
Module Dates.
Import Front.
Definition sameKeySet (a b : list jstr) : bool :=
  (length a =? length b) && forallb (λ x, bool_decide (x ∈ lower <$> b)) (lower <$> a).
Inductive Event := AddKey (raw : jstr) | RemoveKey (key : jstr) | RestoreDefaults.
Definition step (keys : list jstr) (e : Event) : list jstr :=
  match e with
  | AddKey raw => match validateTimestampKey raw keys with Key k => keys ++ [k] | _ => keys end
  | RemoveKey k => filter (λ x, x ≠ k) keys
  | RestoreDefaults => DEFAULT_IGNORED_TIMESTAMP_KEYS
  end.
(** The button that restores the defaults is offered when the list has drifted. *)
Definition offersDefaults (keys : list jstr) : bool := negb (sameKeySet keys DEFAULT_IGNORED_TIMESTAMP_KEYS).
(** No two keys differ in case alone, and each is one the form takes. *)
Definition distinct (keys : list jstr) : Prop := NoDup (lower <$> keys).
Definition wellFormed (keys : list jstr) : Prop := distinct keys ∧ Forall (λ k, validateTimestampKey k [] = Key k) keys.
Lemma defaults_ok : wellFormed DEFAULT_IGNORED_TIMESTAMP_KEYS.
Proof. split; [apply (bool_decide_eq_true_1 _); vm_compute; done|repeat constructor]. Qed.
Lemma validate_key raw keys k :
  validateTimestampKey raw keys = Key k → validateTimestampKey k [] = Key k ∧ lower k ∉ lower <$> keys.
Proof.
  unfold validateTimestampKey. destruct (truthy (trim raw)) eqn:Ht; cbn [negb]; [|done]. destruct (has_unit _ _) eqn:Hc; [done|].
  destruct (rmatch _ _) eqn:Hm; cbn [negb]; [|done]. destruct (existsb _ keys) eqn:He; [done|]. intros [= <-]. split.
  - rewrite trim_trim, Ht, Hc, Hm. done.
  - intros (x & Hx & Hin)%list_elem_of_fmap. apply not_true_iff_false in He. apply He, existsb_exists. exists x.
    split; [by apply list_elem_of_In|by apply jeq_true].
Qed.
Lemma distinct_filter k keys : distinct keys → distinct (filter (λ x, x ≠ k) keys).
Proof.
  unfold distinct. induction keys as [|y keys IH]; [done|]. cbn [fmap list_fmap]. intros [Hy Hn]%NoDup_cons. rewrite filter_cons.
  case_decide; [|by apply IH]. cbn [fmap list_fmap]. apply NoDup_cons. split; [|by apply IH].
  intros (z & Hz & [_ Hin]%list_elem_of_filter)%list_elem_of_fmap. apply Hy, list_elem_of_fmap. by exists z.
Qed.
Lemma step_wellFormed keys e : wellFormed keys → wellFormed (step keys e).
Proof.
  intros [Hd Hv]. destruct e as [raw|k|]; cbn [step]; [| |apply defaults_ok].
  - destruct (validateTimestampKey raw keys) as [k| | | |] eqn:Hk; try done. apply validate_key in Hk as [Hk Hn]. split.
    + unfold distinct. rewrite fmap_app. apply NoDup_app. split_and!; [done| |apply NoDup_singleton].
      intros x Hx. cbn. intros ->%list_elem_of_singleton. done.
    + apply Forall_app. split; [done|]. by apply Forall_singleton.
  - split; [|apply Forall_forall; intros x [_ Hx]%list_elem_of_filter; rewrite Forall_forall in Hv; by apply Hv]. by apply distinct_filter.
Qed.
Lemma sameKeySet_spec a b : distinct a → distinct b → sameKeySet a b = true ↔ ∀ x, x ∈ lower <$> a ↔ x ∈ lower <$> b.
Proof.
  unfold distinct, sameKeySet. intros Ha Hb. rewrite andb_true_iff, Nat.eqb_eq, forallb_forall.
  assert (Hin : (∀ x, In x (lower <$> a) → bool_decide (x ∈ lower <$> b) = true) ↔ lower <$> a ⊆ lower <$> b).
  { split; intros H x Hx; [apply (bool_decide_eq_true_1 _), H; by apply list_elem_of_In|apply bool_decide_eq_true_2, H; by apply list_elem_of_In]. }
  rewrite Hin. split.
  - intros [Hl Hs]. assert (lower <$> a ≡ₚ lower <$> b) as Hp; [|intros x; by rewrite Hp].
    apply submseteq_length_Permutation; [by apply NoDup_submseteq|rewrite !length_fmap; lia].
  - intros Hx. assert (lower <$> a ≡ₚ lower <$> b) as Hp by (by apply NoDup_Permutation).
    split; [apply Permutation_length in Hp; by rewrite !length_fmap in Hp|]. intros x. by rewrite Hx.
Qed.
(** Whatever is added, removed and restored, the fields stay valid and distinct;
    and the defaults are on offer exactly when they are not what is set. *)
Theorem date_fields_exact es :
  let keys := foldl step DEFAULT_IGNORED_TIMESTAMP_KEYS es in
  wellFormed keys ∧ (offersDefaults keys = false ↔ ∀ x, x ∈ lower <$> keys ↔ x ∈ lower <$> DEFAULT_IGNORED_TIMESTAMP_KEYS).
Proof.
  cbv zeta. assert (Hw : wellFormed (foldl step DEFAULT_IGNORED_TIMESTAMP_KEYS es)).
  { generalize defaults_ok. generalize DEFAULT_IGNORED_TIMESTAMP_KEYS. induction es as [|e es IH]; intros keys Hk; cbn [foldl]; [done|]. by apply IH, step_wellFormed. }
  split; [done|]. unfold offersDefaults. rewrite negb_false_iff. apply sameKeySet_spec; [apply Hw|apply defaults_ok].
Qed.
(** A saved list is not checked: with a field twice in another case the sets differ
    and are called the same. *)
Lemma same_keys_misses_drift :
  sameKeySet [js "created"; js "Created"] [js "created"; js "updated"] = true.
Proof. vm_compute. done. Qed.
End Dates.

(** ** The rows of the mounts *)
Module Rows.
Import Mounts MountFsm Mountengine.
Definition grantKey (owner vault : jstr) : jstr := owner ++ cSlash :: vault.
(** [sharedWritable]: the shared sources that may be written, [None] before the first render. *)
Record Grants := { sharedWritable : option (list jstr); loading : bool }.
Definition render (mounts : list Mount) (g : Grants) : Grants :=
  match sharedWritable g with
  | Some _ => g
  | None => {| sharedWritable := Some []; loading := existsb (λ m, truthy (owner (source m))) mounts |}
  end.
(** The server's answer: the sources with a grant to write; [None] where it failed. *)
Definition loaded (answer : option (list jstr)) (g : Grants) : Grants :=
  if loading g then {| sharedWritable := match answer with Some l => Some l | None => sharedWritable g end; loading := false |} else g.
Definition canToggleDirection (g : Grants) (m : Mount) : bool :=
  (owner (source m) === []) || bool_decide (grantKey (owner (source m)) (vaultId (source m)) ∈ default [] (sharedWritable g)).
Inductive RowStatus := IsPrimary | Inactive | WaitingToConnect | InState (s : MountState).
Record RowView := { status : RowStatus; offersReinstate : bool; offersToggle : bool; keeps : list jstr }.
Record Ctx := { activeKeys : list jstr; states : list (jstr * MountState); primaryOwner : jstr; primaryVault : jstr;
                realtime : bool; roEdits : list (jstr * list jstr) }.
Definition mountRow (c : Ctx) (g : Grants) (m : Mount) : RowView :=
  let key := mountKey m in
  let active := bool_decide (key ∈ activeKeys c) in
  let state := if active then Some (default Detached (jget (states c) key)) else None in
  let gone := bool_decide (state = Some LocalGone) in
  {| status := match state with
               | None => if (owner (source m) === primaryOwner c) && (vaultId (source m) === primaryVault c) then IsPrimary else Inactive
               | Some Detached => if realtime c then InState Detached else WaitingToConnect
               | Some s => InState s
               end;
     offersReinstate := gone; offersToggle := negb gone && canToggleDirection g m;
     keeps := match direction m with Pull => default [] (jget (roEdits c) key) | Sync => [] end |}.
(** The flows ask first; what they then call. *)
Inductive Call := RemoveMount (m : Mount) | ReinstateMount (m : Mount) | UpdateDirection (m : Mount) (d : MountDirection)
                | KeepRoMountEdits (m : Mount) (folder : jstr) | CopyRecipe (ms : list Mount).
Definition removeMountFlow (m : Mount) (yes : bool) : list Call := if yes then [RemoveMount m] else [].
Definition reinstateMountFlow (m : Mount) (yes : bool) : list Call := if yes then [ReinstateMount m] else [].
(** Asked only to switch to two ways. *)
Definition switchMountDirectionFlow (m : Mount) (answer : option bool) : list Call :=
  match direction m, answer with
  | Pull, Some true => [UpdateDirection m Sync]
  | Pull, _ => []
  | Sync, _ => [UpdateDirection m Pull]
  end.
Definition keepRoEditsFlow (m : Mount) (folder : option jstr) : list Call :=
  match folder with None => [] | Some f => [KeepRoMountEdits m (if truthy f then f else js "Read-only edits")] end.
(** Names of other people's vaults leave the device only with consent. *)
Definition copyRecipeFlow (active : list Mount) (answer : option bool) : list Call :=
  let foreign := filter (λ m, owner (source m) ≠ []) active in
  match foreign, answer with
  | _ :: _, Some true => [CopyRecipe active]
  | _ :: _, _ => []
  | [], _ => [CopyRecipe active]
  end.
(** Reinstating is offered for a mount in effect whose folder is gone, never
    together with its direction; a shared source is written only with a grant for
    it; and what uploads, or names what others own, was agreed to. *)
Theorem mount_rows_exact c g m yes :
  let v := mountRow c g m in
  (offersReinstate v = true ↔ mountKey m ∈ activeKeys c ∧ jget (states c) (mountKey m) = Some LocalGone) ∧
  (offersToggle v = true → offersReinstate v = false ∧
     (owner (source m) = [] ∨ ∃ l, sharedWritable g = Some l ∧ grantKey (owner (source m)) (vaultId (source m)) ∈ l)) ∧
  (UpdateDirection m Sync ∈ switchMountDirectionFlow m yes → yes = Some true) ∧
  (∀ active, copyRecipeFlow active yes ≠ [] → (∃ x, x ∈ active ∧ owner (source x) ≠ []) → yes = Some true).
Proof.
  cbv zeta. unfold mountRow. cbn [offersReinstate offersToggle]. split_and!.
  - rewrite bool_decide_eq_true. destruct (bool_decide (mountKey m ∈ activeKeys c)) eqn:Ha; [apply bool_decide_eq_true in Ha|apply bool_decide_eq_false in Ha].
    + destruct (jget (states c) (mountKey m)) as [s|]; cbn; naive_solver.
    + naive_solver.
  - intros [Hg Ht]%andb_true_iff. apply negb_true_iff in Hg. split; [done|]. unfold canToggleDirection in Ht. apply orb_true_iff in Ht as [Ht|Ht]; [left; by apply jeq_true|].
    right. apply bool_decide_eq_true in Ht. destruct (sharedWritable g) as [l|]; [by exists l|by apply elem_of_nil in Ht].
  - unfold switchMountDirectionFlow. destruct (direction m), yes as [[]|]; try done; intros Hin; set_solver.
  - intros active Hne (x & Hx & Ho). unfold copyRecipeFlow in Hne. destruct (filter _ active) as [|y l] eqn:Hf.
    + assert (x ∈ filter (λ m, owner (source m) ≠ []) active) as Hin by (by apply list_elem_of_filter). rewrite Hf in Hin. by apply elem_of_nil in Hin.
    + by destruct yes as [[]|].
Qed.
(** The grants are asked for at the first render, and only if a shared mount is
    there then: the first shared mount added later never gets its toggle, and a
    failed answer is never asked for again. *)
Lemma grants_never_loaded_later mounts answers :
  let g := foldl (λ g a, render mounts (loaded a g)) (render [] {| sharedWritable := None; loading := false |}) answers in
  sharedWritable g = Some [] ∧ loading g = false.
Proof. cbv zeta. induction answers as [|a l IH] using rev_ind; [done|]. rewrite foldl_app. cbn [foldl].
  revert IH. generalize (foldl (λ g a, render mounts (loaded a g)) (render [] {| sharedWritable := None; loading := false |}) l). intros [sw ld] [H1 H2].
  cbn in H1, H2. by subst. Qed.
End Rows.
