(* ===== verification/Dialogs.v ===== *)
(** * Dialogs: the modals that ask ([client/src/confirm.ts], [accountui.ts],
    [noteconflict.ts])

    A modal is a state and what its events do; an answer of the server is an event. *)

From S2P Require Import Prelude Merge Base.

(** ** A question *)
Module Ask.
Section Ask.
Context {A : Type} (dismissed : A).
(** The answers its promise was resolved with; only the first counts. *)
Record Modal := { isOpen : bool; answered : bool; answers : list A }.
Definition opened : Modal := {| isOpen := true; answered := false; answers := [] |}.
Definition close (m : Modal) : Modal :=
  if isOpen m then {| isOpen := false; answered := answered m; answers := if answered m then answers m else answers m ++ [dismissed] |} else m.
(** A button, or Enter in the field. *)
Definition answer (a : A) (m : Modal) : Modal := close {| isOpen := isOpen m; answered := true; answers := answers m ++ [a] |}.
Inductive Event := Answer (a : A) | Close.
(** A closed modal receives no more events of its own. *)
Definition step (m : Modal) (e : Event) : Modal :=
  if isOpen m then match e with Answer a => answer a m | Close => close m end else m.
(** The caller gets exactly one answer, the first thing the user did; dismissing is
    declining. *)
Theorem asks_once e es :
  let m := foldl step opened (e :: es) in
  isOpen m = false ∧ answers m = [match e with Answer a => a | Close => dismissed end].
Proof.
  cbv zeta. cbn [foldl]. assert (H : let m := step opened e in isOpen m = false ∧ answers m = [match e with Answer a => a | Close => dismissed end]) by (by destruct e).
  cbv zeta in H. revert H. generalize (step opened e). induction es as [|e2 es IH]; intros m Hm; cbn [foldl]; [done|].
  apply IH. unfold step. by rewrite (proj1 Hm).
Qed.
End Ask.
End Ask.

(** ** Changing the password *)
Module Password.
Record Form := { current : jstr; next : jstr; confirm : jstr; busy : bool; open' : bool }.
Inductive Field := Current | Next | Confirm.
Inductive Event := Edit (f : Field) (v : jstr) | Submit | Settled (good : bool).
Definition editField (f : Field) (v : jstr) (m : Form) : Form :=
  {| current := if f is Current then v else current m; next := if f is Next then v else next m;
     confirm := if f is Confirm then v else confirm m; busy := busy m; open' := open' m |}.
(** The call, with the password that is to be the new one. *)
Definition submit (m : Form) : Form * list (jstr * jstr) :=
  if busy m then (m, [])
  else if negb (truthy (current m)) || negb (truthy (next m)) then (m, [])
  else if negb (next m === confirm m) then (m, [])
  else ({| current := current m; next := next m; confirm := confirm m; busy := true; open' := open' m |}, [(current m, next m)]).
Definition step (m : Form) (e : Event) : Form * list (jstr * jstr) :=
  match e with
  | Edit f v => (editField f v m, [])
  | Submit => if open' m then submit m else (m, [])
  | Settled good => if busy m then ({| current := current m; next := next m; confirm := confirm m; busy := false; open' := if good then false else open' m |}, []) else (m, [])
  end.
Definition run (es : list Event) (m : Form) : Form * list (jstr * jstr) :=
  foldl (λ p e, let '(m', c) := step p.1 e in (m', p.2 ++ c)) (m, []) es.
Definition blank : Form := {| current := []; next := []; confirm := []; busy := false; open' := true |}.
Definition settledIn (es : list Event) : nat := length (List.filter (λ e, if e is Settled _ then true else false) es).
Lemma run_snoc es e m : run (es ++ [e]) m = ((step (run es m).1 e).1, (run es m).2 ++ (step (run es m).1 e).2).
Proof. unfold run. rewrite foldl_app. cbn [foldl]. by destruct (step _ e). Qed.
(** What is sent has both passwords, the new one confirmed, and no second change is
    asked for before the first is settled. *)
Theorem password_changed_as_confirmed es :
  let '(m, calls) := run es blank in
  Forall (λ c, c.1 ≠ [] ∧ c.2 ≠ []) calls ∧
  length calls ≤ settledIn es + (if busy m then 1 else 0) ∧
  (∀ c, (submit m).2 = [c] → next m = confirm m ∧ c = (current m, next m)).
Proof.
  assert (Hs : ∀ m c, (submit m).2 = [c] → next m = confirm m ∧ c = (current m, next m)).
  { intros m c. unfold submit. destruct (busy m); [done|]. destruct (_ || _); [done|]. destruct (next m === confirm m) eqn:He; cbn [negb]; [|done].
    intros [= <-]. split; [by apply jeq_true|done]. }
  destruct (run es blank) as [m calls] eqn:Hrun. split_and!; [| |apply Hs]; revert m calls Hrun; induction es as [|e es IH] using rev_ind; intros m calls.
  - intros [= <- <-]. constructor.
  - rewrite run_snoc. destruct (run es blank) as [m0 c0]. intros [= <- <-]. cbn [fst snd]. apply Forall_app. split; [by eapply IH|].
    destruct e as [f v| |g]; cbn [step snd]; [constructor| |destruct (busy m0); constructor].
    destruct (open' m0); [|constructor]. unfold submit. destruct (busy m0); [constructor|]. destruct (_ || _) eqn:Ho; [constructor|].
    destruct (_ === _); cbn [negb snd]; [|constructor]. apply orb_false_iff in Ho as [H1%negb_false_iff H2%negb_false_iff].
    apply Forall_singleton. cbn. by split; apply truthy_true.
  - intros [= <- <-]. cbn. lia.
  - rewrite run_snoc. destruct (run es blank) as [m0 c0]. specialize (IH _ _ eq_refl). intros [= <- <-]. cbn [fst snd].
    unfold settledIn in *. rewrite List.filter_app, !length_app. destruct e as [f v| |g]; cbn [step List.filter length fst snd].
    + cbn [editField busy]. lia.
    + destruct (open' m0); cbn [fst snd length]; [|lia]. unfold submit. destruct (busy m0) eqn:Hb; [cbn [fst snd length]; rewrite Hb; lia|].
      destruct (_ || _); [cbn [fst snd length]; rewrite Hb; lia|]. destruct (_ === _); cbn [negb fst snd length busy]; [lia|rewrite Hb; lia].
    + destruct (busy m0) eqn:Hb; cbn [fst snd length busy]; [lia|rewrite Hb; lia].
Qed.
End Password.

(** ** Sharing the vault *)
Module Share.
Section Share.
Context (currentVault : jstr) (vaultOwner : bool).
Record Grant := { grantee : jstr; canWrite : bool }.
Record VaultShares := { vault : jstr; grants : list Grant }.
Record LinkInfo := { lid : jstr; l_vault : jstr; l_write : bool; redeemed_by : option jstr }.
Record Modal := { vaults : list VaultShares; links : list LinkInfo; loading : bool; error : bool; loads : nat }.
Definition opened : Modal := {| vaults := []; links := []; loading := true; error := false; loads := 1 |}.
(** The answers of a load; it ends with the links, or with the first failure. *)
Inductive Event :=
| VaultsArrived (vs : option (list VaultShares))
| LinksArrived (ls : option (list LinkInfo))
| Changed. (** a grant or link was made or revoked: the lists are loaded again *)
Definition step (m : Modal) (e : Event) : Modal :=
  match e with
  | VaultsArrived (Some vs) => {| vaults := vs; links := links m; loading := loading m; error := error m; loads := loads m |}
  | LinksArrived (Some ls) => {| vaults := vaults m; links := ls; loading := false; error := false; loads := pred (loads m) |}
  | VaultsArrived None | LinksArrived None => {| vaults := vaults m; links := links m; loading := false; error := true; loads := pred (loads m) |}
  | Changed => {| vaults := vaults m; links := links m; loading := loading m; error := error m; loads := S (loads m) |}
  end.
Inductive View := Loading | Failed | OwnedByOther | NotThere | Shown (gs : list Grant) (pending : list LinkInfo).
Definition view (m : Modal) : View :=
  if loading m then Loading
  else if error m then Failed
  else match List.find (λ v, vault v === currentVault) (vaults m) with
       | None => if vaultOwner then OwnedByOther else NotThere
       | Some v => Shown (grants v) (filter (λ l, redeemed_by l = None ∧ l_vault l = currentVault) (links m))
       end.
(** What can be revoked is a grant of this vault, or a link to it nobody has used. *)
Lemma view_is_of_this_vault m gs pending :
  view m = Shown gs pending →
  (∃ v, v ∈ vaults m ∧ vault v = currentVault ∧ grants v = gs) ∧ (∀ l, l ∈ pending ↔ l ∈ links m ∧ redeemed_by l = None ∧ l_vault l = currentVault).
Proof.
  unfold view. destruct (loading m), (error m); try done. destruct (List.find _ _) as [v|] eqn:Hf; [|by destruct vaultOwner]. intros [= <- <-].
  apply List.find_some in Hf as [Hin Hv%jeq_true]. split; [exists v; split_and!; [by apply list_elem_of_In|done|done]|].
  intros l. rewrite list_elem_of_filter. tauto.
Qed.
End Share.
(** Two loads overlap when a second change is made before the first was shown: the
    answer that comes last is shown, and it may be the older one. *)
Lemma older_answer_is_shown :
  let v gs := {| vault := js "work"; grants := gs |} in
  let ann := {| grantee := js "ann"; canWrite := true |} in
  view (js "work") false (foldl step opened
    [VaultsArrived (Some [v [ann]]); LinksArrived (Some []); Changed; Changed;
     VaultsArrived (Some [v []]); LinksArrived (Some []); VaultsArrived (Some [v [ann]]); LinksArrived (Some [])]) = Shown [ann] [].
Proof. vm_compute. done. Qed.
End Share.

(** ** The conflict on screen *)
(** Drawing reads both versions, and more than one drawing may be under way: the
    first, one after the sweep, one after each resolution. *)
Module Window.
Import Store.
Abbreviation isTextExt := Merge3.isTextExt.
Definition MAX_DIFF_BYTES : N := 4 * 1024 * 1024.
Definition Stat : Type := jstr → option N. (** the size of a file *)
Inductive Why := TooLarge (size : N) | Binary.
Definition biggest (st : Stat) (c : NoteConflict) : N := N.max (default 0%N (st (original c))) (default 0%N (st (copy c))).
Definition noDiff (st : Stat) (c : NoteConflict) : option Why :=
  if negb (isTextExt (original c)) || negb (isTextExt (copy c)) || (MAX_DIFF_BYTES <? biggest st c)%N
  then Some (if isTextExt (original c) && isTextExt (copy c) then TooLarge (biggest st c) else Binary)
  else None.
(** What the window holds: each block with the buttons of its conflict. *)
Inductive Block := NothingLeft | Choose (c : NoteConflict) (why : Why) | Compare (c : NoteConflict).
Record Modal := { shown : list Block; reading : list NoteConflict }.
Definition startRender (st : Stat) (conflicts : list NoteConflict) (m : Modal) : Modal :=
  match conflicts with
  | [] => {| shown := [NothingLeft]; reading := reading m |}
  | c :: _ => match noDiff st c with
              | Some w => {| shown := [Choose c w]; reading := reading m |}
              | None => {| shown := []; reading := reading m ++ [c] |}
              end
  end.
(** The reads of the [i]-th drawing under way end. *)
Definition readsDone (i : nat) (m : Modal) : Modal :=
  match reading m !! i with
  | Some c => {| shown := shown m ++ [Compare c]; reading := take i (reading m) ++ drop (S i) (reading m) |}
  | None => m
  end.
(** With one drawing at a time the window shows the first conflict and nothing
    else; a file is only read when both are text and small enough to compare. *)
Theorem window_shows_first st conflicts m :
  reading m = [] →
  let m1 := startRender st conflicts m in let m2 := readsDone 0 m1 in
  reading m2 = [] ∧
  (∃ b, shown m2 = [b] ∧ match conflicts with [] => b = NothingLeft | c :: _ => b = Compare c ∨ ∃ w, b = Choose c w end) ∧
  (∀ c, c ∈ reading m1 → isTextExt (original c) = true ∧ isTextExt (copy c) = true ∧
     ∀ n, st (original c) = Some n ∨ st (copy c) = Some n → (n ≤ MAX_DIFF_BYTES)%N).
Proof.
  intros Hr. cbv zeta. unfold startRender. destruct conflicts as [|c l].
  { unfold readsDone. cbn [reading]. rewrite Hr. split_and!; [done|by exists NothingLeft|]. intros c Hc. by apply elem_of_nil in Hc. }
  destruct (noDiff st c) as [w|] eqn:Hn.
  - unfold readsDone. cbn [reading]. rewrite Hr. split_and!; [done|exists (Choose c w); split; [done|right; by exists w]|]. intros x Hx. by apply elem_of_nil in Hx.
  - unfold readsDone. cbn [reading]. rewrite Hr. cbn [shown reading app lookup list_lookup take drop]. split_and!; [done|exists (Compare c); split; [done|by left]|].
    intros x ->%list_elem_of_singleton. unfold noDiff in Hn. destruct (isTextExt (original c)), (isTextExt (copy c)); cbn [negb orb] in Hn; try done.
    destruct (MAX_DIFF_BYTES <? biggest st c)%N eqn:Hb; [done|]. apply N.ltb_ge in Hb. split_and!; [done|done|]. unfold biggest in Hb.
    intros n [Hs|Hs]; rewrite Hs in Hb; cbn [from_option id] in Hb; lia.
Qed.
Lemma window_shows_first_witness :
  let a := {| copy := js "a (conflict pc 20260101000000).md"; original := js "a.md" |} in
  reading (readsDone 0 (startRender (λ _, Some 10%N) [a] {| shown := []; reading := [] |})) = [].
Proof. cbv zeta. apply (window_shows_first (λ _, Some 10%N) _ {| shown := []; reading := [] |}). reflexivity. Defined.
(** The redraw after the sweep and the one after a resolution both empty the window
    before they read, and both add what they read: two conflicts are on screen, one
    of them no longer there, each with its buttons. *)
Lemma overlapping_drawings_stack :
  let a := {| copy := js "a2.md"; original := js "a.md" |} in let b := {| copy := js "b2.md"; original := js "b.md" |} in
  let st : Stat := λ _, Some 10%N in
  shown (foldl (λ m f, f m) {| shown := []; reading := [] |}
    [startRender st [a; b]; startRender st [b]; readsDone 0; readsDone 0]) = [Compare a; Compare b].
Proof. vm_compute. done. Qed.
End Window.
