(* ===== verification/Wiring.v ===== *)
(** * Wiring: what the passes are given ([client/src/main.ts])

    The settings as the reconciler of the primary vault and of the mounts receives
    them, the grants on shared sources, and what is shown of skipped files. *)

From S2P Require Import Prelude Jsmap Paths Lifecycle Configsync Decide Sync Reconcile Mountengine Mountsync Device.

Module Wiring.
Import Mounts Mountengine.

(** ** The settings the passes read *)
Record Prefs := {
  deviceName : jstr; vaultReadOnly : bool; ignoreTimestampChanges : bool; ignoredTimestampKeys : list jstr;
  maxSyncMB : Z; bulkStrategy : Decide.BulkDeleteStrategy; bulkThreshold : Decide.double;
  scope : Scope.Settings
}.
(** What the platform is and has. *)
Record Platform := { host : Device.Host; hintsResolved : bool; isMobile : bool; fs : Identity.PathFs; exists_ : bool; append : bool; selfMountAppend : bool }.
Definition MB : Z := 1048576.
Definition MOBILE_MAX_SYNC_MB : Z := 100.
Definition MOUNT_MOBILE_MAX_BYTES : Z := 50 * 1024 * 1024.
Definition DEFAULT_MAX_SYNC_MB : Z := 200.
Definition maxSyncBytes (p : Prefs) (h : Platform) : Z :=
  let wanted := (if 0 <? maxSyncMB p then maxSyncMB p else DEFAULT_MAX_SYNC_MB)%Z in
  ((if isMobile h then Z.min wanted MOBILE_MAX_SYNC_MB else wanted) * 1024 * 1024)%Z.
Definition mountMaxBytes (p : Prefs) (h : Platform) : Z :=
  if isMobile h then Z.min (maxSyncBytes p h) MOUNT_MOBILE_MAX_BYTES else maxSyncBytes p h.
Definition ignorePatterns (p : Prefs) : list jstr := if ignoreTimestampChanges p then ignoredTimestampKeys p else [].
(** The patterns by which the conflict windows judge whether a file changed. *)
Definition ignorePatternsForPath (p : Prefs) (path : jstr) : list jstr :=
  match ignorePatterns p with
  | [] => []
  | pats =>
      if negb (ends_with path (js ".md")) || starts_with path (js ".obsidian/") || Excluded.isExcluded path (Scope.excludedFolders (scope p))
      then [] else pats
  end.
Section Deps.
Context (nfc lowerCase : jstr → jstr).
Definition deps (p : Prefs) (h : Platform) : One.Deps := {|
  One.device := Device.deviceLabel (deviceName p) (hintsResolved h) (host h);
  One.ignorePatterns := Some (ignorePatterns p); One.excludedFolders := Some (Scope.excludedFolders (scope p));
  One.maxSyncBytes := Some (maxSyncBytes p h); One.readOnly := vaultReadOnly p; One.noResurrect := false;
  One.preserveLocalFirstContact := false; One.accepts := Scope.inPrimaryScopeUncached nfc lowerCase (scope p);
  One.bulkDeleteStrategy := Some (bulkStrategy p); One.bulkDeleteThreshold := Some (bulkThreshold p);
  One.caseInsensitivePaths := Identity.caseInsensitive (fs h); One.normalizationInsensitivePaths := Identity.normInsensitive (fs h);
  One.hasExists := exists_ h; One.hasAppend := append h; One.hasAlive := true; One.hasFlip := true; One.hasLocalSizeOf := true;
  One.hasStatOf := true; One.hasPathWork := true; One.hasRemotePlugins := true |}.
(** The conflict windows and the passes judge a file by the same content identity. *)
Theorem windows_judge_like_passes p h path :
  ignorePatternsForPath p path = Decide.ignorePatternsFor (One.ignorePatterns (deps p h)) (One.excludedFolders (deps p h)) path.
Proof. unfold ignorePatternsForPath, Decide.ignorePatternsFor. cbn [deps One.ignorePatterns One.excludedFolders default]. by destruct (ignorePatterns p). Qed.
End Deps.
(** The cap is never zero or below, whatever is set, and on a phone never above
    what may be held in memory at once. *)
Theorem size_cap_bounds p h :
  (MB ≤ maxSyncBytes p h ∧ (isMobile h = true → maxSyncBytes p h ≤ 100 * MB) ∧
   0 < mountMaxBytes p h ≤ maxSyncBytes p h ∧ (isMobile h = true → mountMaxBytes p h ≤ 50 * MB) ∧
   (isMobile h = false → 0 < maxSyncMB p → maxSyncBytes p h = maxSyncMB p * MB))%Z.
Proof.
  unfold mountMaxBytes, maxSyncBytes, MOBILE_MAX_SYNC_MB, MOUNT_MOBILE_MAX_BYTES, DEFAULT_MAX_SYNC_MB, MB.
  destruct (isMobile h), (Z.ltb_spec 0 (maxSyncMB p)); lia.
Qed.

(** ** The identifier is minted once *)
Definition deviceId (fresh : jstr) (saved : jstr) : jstr * bool := if truthy saved then (saved, false) else (fresh, true).

(** ** The grants on shared sources *)
Inductive SharePerm := Read | ReadWrite.
Definition grantKey (m : Mount) : jstr := owner (source m) ++ cSlash :: vaultId (source m).
Definition isShared (m : Mount) : bool := truthy (owner (source m)).
(** [answer]: what the server lists; [None] where the request failed. *)
Definition refreshSourceGrants (mounts : list Mount) (answer : option (list (jstr * SharePerm))) (grants : list (jstr * SharePerm)) : list (jstr * SharePerm) :=
  if existsb isShared mounts then match answer with Some l => jof l | None => grants end else [].
Definition mountSourceReadOnly (grants : list (jstr * SharePerm)) (m : Mount) : bool :=
  if isShared m then match jget grants (grantKey m) with Some ReadWrite => false | _ => true end else false.
(** Whose grants are read: at a connect, and after a refused write to a mount. *)
Inductive GrantEvent := Connected (mounts : list Mount) (answer : option (list (jstr * SharePerm)))
                      | WriteRefused (mounts : list Mount) (answer : option (list (jstr * SharePerm))).
Definition grantStep (grants : list (jstr * SharePerm)) (e : GrantEvent) : list (jstr * SharePerm) :=
  match e with Connected m a | WriteRefused m a => refreshSourceGrants m a grants end.
(** A shared source is written only while the last list the server gave for it says
    so: a grant never listed, or downgraded there, makes the mount read-only. *)
Definition lastListed (es : list GrantEvent) : option (list (jstr * SharePerm)) :=
  foldl (λ acc e, match e with Connected m a | WriteRefused m a =>
    if existsb isShared m then match a with Some l => Some l | None => acc end else None end) None es.
Theorem writes_follow_the_grant es m :
  isShared m = true → mountSourceReadOnly (foldl grantStep [] es) m = false →
  ∃ l, lastListed es = Some l ∧ (grantKey m, ReadWrite) ∈ l.
Proof.
  intros Hs. assert (Hi : foldl grantStep [] es = match lastListed es with Some l => jof l | None => [] end).
  { unfold lastListed. induction es as [|e es IH] using rev_ind; [done|]. rewrite !foldl_app. cbn [foldl]. rewrite IH.
    destruct e as [ms a|ms a]; cbn [grantStep]; unfold refreshSourceGrants; destruct (existsb isShared ms); try done; by destruct a. }
  unfold mountSourceReadOnly. rewrite Hs, Hi. destruct (lastListed es) as [l|]; [|done].
  destruct (jget (jof l) (grantKey m)) as [[|]|] eqn:Hg; [done| |done]. intros _. exists l. split; [done|].
  apply jget_Some_in in Hg. revert Hg. clear. unfold jof. assert (H : ∀ (l acc : list (jstr * SharePerm)) x, x ∈ foldl (λ m e, jset m e.1 e.2) acc l → x ∈ acc ∨ x ∈ l).
  { clear. induction l as [|[k v] l IH]; intros acc x; cbn [foldl]; [by left|]. intros [Hx|Hx]%IH; [|right; by right].
    assert (Hj : x ∈ jset acc k v → x ∈ acc ∨ x = (k, v)).
    { clear. induction acc as [|[k2 v2] acc IH]; cbn [jset]; [intros ->%list_elem_of_singleton; by right|].
      destruct (k2 === k) eqn:He; [apply jeq_true in He as ->|]; (intros [->|Hx]%elem_of_cons; [|]).
      - by right.
      - left. by right.
      - left. by left.
      - destruct (IH Hx); [left; by right|by right]. }
    cbn in Hx. apply Hj in Hx as [Hx| ->]; [by left|right; by left]. }
  intros [Hn|Hin]%H; [by apply elem_of_nil in Hn|done].
Qed.

(** ** The context of a mount *)
Definition mountCtx (p : Prefs) (h : Platform) (grants : list (jstr * SharePerm)) (restored : jstr → option MountPersist) (m : Mount) : MountRuntimeCtx := {|
  ctx_device := Device.deviceLabel (deviceName p) (hintsResolved h) (host h);
  ctx_ignorePatterns := Some (ignorePatterns p); ctx_maxSyncBytes := Some (mountMaxBytes p h);
  skipForeignArtefacts := Some (Scope.skipForeignArtefacts (scope p));
  ctx_strategy := Some (bulkStrategy p); ctx_threshold := Some (bulkThreshold p);
  sourceReadOnly := Some (mountSourceReadOnly grants m); ioExists := exists_ h; ioAppend := selfMountAppend h;
  pushFlipHold := true; sourceReady := true; restore := restored (mountKey m) |}.

(** ** Skipped and unreadable files *)
Inductive SizeSkipNotice := Never | Once | Always.
Definition onSkip (policy : SizeSkipNotice) (p : jstr) (notified : list jstr) : list jstr * bool :=
  let first := negb (bool_decide (p ∈ notified)) in
  (if first then notified ++ [p] else notified, match policy with Always => true | Once => first | Never => false end).
Definition skips (policy : SizeSkipNotice) (ps : list jstr) : list jstr * list jstr :=
  foldl (λ st p, let '(n, shown) := onSkip policy p st.1 in (n, if shown then st.2 ++ [p] else st.2)) ([], []) ps.
(** [onPullExhausted]: once for a path and session. *)
Definition onPullExhausted (p : jstr) (notified : list jstr) : list jstr * bool :=
  if bool_decide (p ∈ notified) then (notified, false) else (notified ++ [p], true).
(** The toasts are those the user asked for: none, the first of each file, or all. *)
Theorem skip_notices_exact policy ps :
  (skips policy ps).2 = match policy with Never => [] | Once => dedup ps | Always => ps end ∧ (skips policy ps).1 = dedup ps.
Proof.
  assert (Hd : ∀ l x, dedup (l ++ [x]) = if bool_decide (x ∈ l) then dedup l else dedup l ++ [x]).
  { intros l x. unfold dedup. rewrite foldl_app. cbn [foldl]. fold (dedup l). repeat (case_decide || case_bool_decide); try done; exfalso.
    all: match goal with H : _ ∉ _ |- _ => apply H end; by apply dedup_elem_of. }
  induction ps as [|p ps IH] using rev_ind; [by destruct policy|]. unfold skips in *. rewrite foldl_app. cbn [foldl].
  destruct (foldl _ ([], []) ps) as [n shown]. cbn [fst snd] in IH. destruct IH as [-> ->]. unfold onSkip. cbn [fst snd]. rewrite Hd.
  assert (Hb : bool_decide (p ∈ dedup ps) = bool_decide (p ∈ ps)) by (apply bool_decide_ext, dedup_elem_of). rewrite Hb.
  destruct policy; destruct (bool_decide (p ∈ ps)); done.
Qed.

(** ** What modelling showed *)
Definition demoMount : Mount := {| source := {| owner := js "ann"; vaultId := js "team"; sourcePath := [] |}; mountPoint := js "Team"; direction := Sync |}.
Definition demoPrefs (strategy : Decide.BulkDeleteStrategy) : Prefs := {|
  deviceName := js "pc"; vaultReadOnly := false; ignoreTimestampChanges := true; ignoredTimestampKeys := [js "updated"]; maxSyncMB := 200;
  bulkStrategy := strategy; bulkThreshold := SpecFloat.S754_zero false;
  scope := {| Scope.configSync := Config.DEFAULT_CONFIG_SYNC; Scope.skipForeignArtefacts := true; Scope.excludedFolders := []; Scope.mounts := [demoMount];
              Scope.vaultOwner := []; Scope.vaultId := js "mine"; Scope.selfFolderId := js "obsidian-selfsync" |} |}.
Definition demoPlatform : Platform := {|
  host := {| Device.hints := None; Device.userAgent := []; Device.isIosApp := false; Device.isPhone := false; Device.isAndroidApp := false;
             Device.isMacOS := false; Device.isWin := true; Device.isLinux := false; Device.platform := [] |};
  hintsResolved := true; isMobile := false; fs := {| Identity.caseInsensitive := true; Identity.normInsensitive := false |};
  exists_ := true; append := true; selfMountAppend := false |}.
(** A live mount keeps the settings it was built with: switching the confirmation of
    large deletions on does not reach it until the session token changes. *)
Lemma live_mount_keeps_old_settings :
  let build p sameToken scopes := Mountsync.rebuildMountScopes (λ _, true) (mountCtx p demoPlatform [] (λ _, None)) [] sameToken [demoMount] scopes in
  let live := build (demoPrefs Decide.SOff) true [] in
  (λ x, ctx_strategy (ctx (Mountsync.runtime x))) <$> build (demoPrefs Decide.SCount) true live = [Some Decide.SOff] ∧
  (λ x, ctx_strategy (ctx (Mountsync.runtime x))) <$> build (demoPrefs Decide.SCount) false live = [Some Decide.SCount].
Proof. vm_compute. done. Qed.
(** The grants are read at a connect, and only if a shared mount is there then: one
    that is added later is read-only until the next, whatever was granted. *)
Lemma added_mount_reads_only answer : mountSourceReadOnly (foldl grantStep [] [Connected [] answer]) demoMount = true.
Proof. done. Qed.
Lemma writes_follow_the_grant_witness :
  ∃ l, lastListed [Connected [demoMount] (Some [(js "ann/team", ReadWrite)]); WriteRefused [demoMount] None] = Some l ∧ (grantKey demoMount, ReadWrite) ∈ l.
Proof. apply (writes_follow_the_grant _ demoMount); reflexivity. Defined.
End Wiring.
